(* ===== verification/_CoqProject ===== *)
-Q . S2P
Prelude.v
Text.v
Client.v
Rule.v
Window.v
Policy.v
Counters.v
Enforcer.v
Config.v
State.v
Decision.v
Z21.v
Ws.v
Http.v
Withrottle.v
Sniffer.v
Ebpf.v
Locks.v
Json.v
Wire.v
Store.v
Ipc.v
Sdk.v
Top.v
Cli.v
Live.v
System.v
Daemon.v
Capture.v
Phases.v
Pipeline.v
Loader.v
Sighup.v
Release.v
Policing.v
Reads.v
Setup.v
