(* ===== verification/Prelude.v ===== *)
(** * MicroWAF verification library

    MicroWAF is a small web application firewall for one Linux host: a daemon
    that sniffs the traffic, counts it per client (MAC and IP address) and per
    rule, throttles or blocks clients whose rates exceed the rules, and takes
    manual commands over a Unix socket; a command line and a Rust client library
    talk to it.  This library models the Rust code under [src/crates/], file by
    file, as executable definitions, and proves what makes each part, and the
    daemon as a whole, correct.

    ** Parts and files

    Shared ground
    - [Prelude]: Rust's [Result] ([result], [let?]), panics ([option]), code that
      threads a state and may fail ([SE]), machine integers as [Z] with their
      bounds ([u64_ok], [sat_add]), the clock ([time_add]), the order of hash map
      iteration ([HashIter]), generic lemmas, the hint database [mwaf].
    - [Text]: text as lists of code points or bytes; ASCII classes, splitting,
      trimming, UTF-8, decimal and hexadecimal numbers of the standard library.
    - [Json]: JSON values, the serde traits as classes, the derived forms of
      structs, and the round-trip law ([RoundTrip]).

    Core ([mw-core])
    - [Client] ([client.rs]): client identity, its text form and parser.
    - [Rule] ([rule.rs], [error.rs], [cel_match.rs]): selectors, validation, rule
      sets, the context of match expressions.
    - [Window] ([window.rs], [RuleEngine] of [rule.rs]): the ring of sixty
      buckets, and the evaluation of the rules.
    - [Policy] ([policy.rs]): manual and automatic policies, expiry, merge.
    - [Counters] ([counters.rs]): the counter store, with the two critical
      sections of [add] as separate steps.
    - [Enforcer] ([enforcer.rs]): the trait as a class with laws, the userspace
      enforcers.
    - [Config] ([config.rs]): configuration records, compilation of rules.

    Detectors ([mw-sniffer])
    - [Z21], [Ws], [Http], [Withrottle]: one detector each.

    Daemon ([microwaf])
    - [State] ([state.rs]): the shared state and its invariant [state_ok].
    - [Decision] ([decision.rs]): one tick.  The loop around it is
      [Daemon.decision_run].
    - [Sniffer] ([sniffer.rs]): frames, flow table, dispatch to the detectors and
      counters.  [Capture] (same source): the packet socket and its loop.
    - [Ebpf] ([mw-ebpf/src/lib.rs], [ebpf.rs]): the XDP program and the enforcer
      that mirrors its map.
    - [Locks]: the lock sequences of every function that runs in a thread.
    - [Store] ([mw-core/src/store.rs], [mw-store], [microwaf/src/store.rs]): the
      store traits with laws, the memory store, the Redis store over a server,
      hydration, persistence, snapshots.
    - [Wire] ([mw-proto/src/wire.rs]): requests and responses with their JSON
      forms.  [Ipc] ([ipc.rs], [version.rs]): the commands and their dispatch.
      [Reads]: [list_clients] and [top] lock by lock.  [Setup] ([ipc.rs],
      [config.rs]): what is handed to the shared daemon library (socket, router,
      hooks, admission of peers, watched files).
    - [Live] ([microwaf/src/config.rs]): default files, loading, hot reload, over
      a file system with faults.
    - [Sdk] ([mw-client]): the client library.  [Top] ([cli/top.rs]): the table.
      [Cli] ([cli/mod.rs], [cli/client.rs], [main.rs]): the subcommands.
    - [System]: the threads of the daemon as events on the shared state, in any
      order.  [Pipeline]: what a client sends, followed through all parts to the
      XDP program.  [Phases]: the tick split into what it reads one after the other,
      with the other threads in between.  [Release]: a client that falls silent,
      followed until it is let through again.  [Policing]: the rules that a tick
      finds exceeded, as a function of the traffic that it and the ticks before it
      saw.
    - [Daemon] ([cli/daemon.rs], [iface.rs], loops of [decision.rs] and
      [config.rs], [load_and_attach] of [ebpf.rs]): the start, the decision loop
      and the configuration watcher.
    - [Sighup] ([config.rs]): the signal handler, the bridge and the watcher at
      the level of their atomic flags.
    - [Loader] ([build.rs], [ebpf.rs]): the build script that finds the BPF object
      and embeds it, and the loader that attaches it.

    ** How the model corresponds to the code

    A struct is a [Record], an enum an [Inductive], with the constructors of the
    source.  A function that changes shared state takes and returns the state; a
    method of a trait is a field of a class ([Enforcer], [ManualPolicyStore],
    [ClientStatsStore]), and what its callers rely on is a second class of laws
    ([EnforcerLaws], [ManualStoreLaws], [StatsLaws]) that every implementation of
    the source is shown to satisfy, so that the theorems on the callers hold for
    all of them.  [HashMap] is [gmap]; where the code iterates one, the order is
    any order that [HashIter] allows, and the theorems hold for all orders.
    A panic is [None]; an [Err] is [Err].  [Instant] is a number of nanoseconds
    with the bound of its seconds; [u64] arithmetic saturates where the code
    says so.  Each function is one step on the state: the interleaving of
    functions is the list of events of [System]; the finer interleavings that
    locks allow are treated in [Counters], [Locks], [Phases], [Reads] and
    [Sighup].

    ** What is a parameter

    Code that is not in the repository is a class whose fields are used by the
    definitions; a class of laws states its documented behaviour where a theorem
    needs any.  Each has a concrete instance, with which the theorems are applied
    to examples.
    - [CelEngine]: the CEL interpreter; [YamlEngine], [ConfigYaml]: serde_yaml
      ([YamlTyped]: drop rates read from YAML are [u8], limits [u64], ports
      [u16]).
    - [JsonText] ([JsonTextLaws]): the JSON printer and parser: printed values
      read back, up to the recursion limit.
    - [Redis] ([RedisLaws]): the commands of a server, in which keys with an
      expiry may vanish at any time and every command may fail.
    - [FsFaults]: which operations of the file system fail, and how.
    - [NetIfaces], [PacketSockets] ([PacketSocketLaws]), [XdpLoader]: system
      calls on interfaces and packet sockets; loading the BPF object, of which
      [Loader.aya_loader] is the code's own instance.
    - [Aya] ([AyaLaws]): the crate that loads and attaches BPF objects; [Cargo]: the
      run of cargo by the build script.
    - [Transport]: connecting and framing of the client library; its law class
      [DaemonTransport] says that a request is executed once or lost, and that
      only its own reply can be read.  [DebugText] is
      Rust's [{:?}] of a result.
    - [IpcLibrary] ([IpcLibraryLaws]): binding the socket, the table of the
      commands, the server; its laws say that a request goes to the command
      registered for its type.  [ConfigWatcher]: the start of the file watcher.
    - [Terminal] ([QuietTerminal]): the attributes of the terminal.

    ** What the theorems show

    - The daemon: no interleaving of frames, ticks, snapshots, requests and
      reloads panics or breaks the invariant unless an expiry passes the end of
      the clock ([System.system_safe]); a manual throttle stays in force until it
      expires, whatever else happens ([System.throttle_stays_in_force]); a client
      that sends more requests between two ticks than a block rule allows is
      blocked by the enforcer from the next tick until the tick after it
      ([Pipeline.flood_is_blocked]); one that falls silent is let through again
      after the windows and the cooldown
      ([Release.silent_client_released]); which rules fire is bounded from both
      sides by the traffic of the ticks
      ([Policing.policing_matches_traffic]).
    - The start and its loops: which configuration, interface, mode, store and
      enforcer the daemon starts with ([Daemon.daemon_start_spec]); the decision
      loop runs for any number of iterations and is a sequence of ticks and
      snapshots ([Daemon.decision_loop_runs]); the watcher is a sequence of
      reloads ([watch_loop_events]), and no SIGHUP is lost on its way to it
      ([Sighup.sighup_reloads]); the capture loop handles every frame in
      order and never panics ([Capture.sniff_loop_runs]).
    - Decisions: a tick is one independent step per client, moves each counter's
      growth once, enforces every exceeded rule, does not depend on hash orders,
      and is atomic for the other threads ([Phases.tick_serialisable]) unless a
      reload comes between its reads ([Phases.reload_inside_tick]); windows refine a shift register, with the time they really cover;
      the merge of policies is a join.
    - Packets: every frame is handled without reading out of range and counts
      only for the rules of its port; each detector accepts exactly its format;
      the XDP program decides a packet by the entry under the key that the
      enforcer uses for its client; the
      program that is attached is the object that the build chose
      ([Loader.object_reaches_the_kernel]).
    - Commands: what each manual command does, on every branch and with every
      store; replies are typed and read back as sent; the ranking of [top]; the
      answers of [top] and [list_clients] are those of one instant
      ([Reads.reads_serialisable]), unless a reload slips into [top]
      ([Reads.reload_inside_top]); the router has every command once, and with it
      the server answers a request as [execute] does ([Setup.served_request]); the
      client library and the command line report what the daemon did; the table
      of [top] shows those values in lined-up columns.
    - Configuration and persistence: compilation accepts exactly the valid rule
      files; a reload loads exactly what is on the disk, or nothing; seeding never
      overwrites and brings back the default rules; a restart
      restores the stored policies.
    - Locks: all functions but [top] are free of deadlock together; [top] and
      [list_clients] can deadlock.
    - Round trips of clients, wire types and stored types.

    ** Bounds and fuel

    Loops over data are structural recursion.  Fuel is used in three places:
    printing a number takes 20 digits ([show_dec], enough for [u64]); the Z21
    loop has the length of the payload (each record takes at least one byte, and
    [z21_decomposition] holds for every payload); JSON text is read back up to
    [RECURSION_LIMIT] levels of nesting, which no stored policy reaches
    ([stored_json_ok]).  Endless loops are run over a list of what the outside delivers (clock
    readings, received packets, key presses), of any length; the theorems hold
    for all lists.  Columns of the table line up to 999 rows, the width of the
    rank.

    ** Not modelled

    What is left has its meaning in code that is not here.  The grammar of the
    options is derived by clap from attributes; the set-up of logging and the log
    messages go to the tracing library.  Below the requests, the shared daemon
    library accepts connections, authenticates peers, frames the JSON text
    ([framing.rs] re-exports it) and implements the file watcher and the signal
    handler: [Setup] gives the values that it is called with, and relies on its
    laws only for the way of a request to its command.  Failed writes to the
    terminal are not modelled.  Nothing in the code writes the kernel's policy map
    (see [Ebpf.xdp_empty_map_passes]); the theorems on the XDP program hold
    for every map ([Ebpf.xdp_per_client]), the one of [Release] for every map
    without entries that the enforcer does not have.  The Go client is another language. *)

From stdpp Require Export base numbers strings option sorting gmap list.
#[global] Open Scope Z_scope.

(** ** Fallible code

    [result A E] is Rust's [Result<A, E>].  A Rust panic (array index out of
    range, [Instant + Duration] overflow) is a separate outcome: operations that
    can panic return [option], where [None] is the panic. *)
Inductive result (A E : Type) : Type :=
| Ok (a : A)
| Err (e : E).
Arguments Ok {A E} a.
Arguments Err {A E} e.

#[global] Instance result_eq_dec {A E} `{EqDecision A} `{EqDecision E} :
  EqDecision (result A E).
Proof. solve_decision. Defined.

Definition res_bind {A B E} (f : A → result B E) (r : result A E) : result B E :=
  match r with
  | Ok a => f a
  | Err e => Err e
  end.

Definition map_err {A E F} (f : E → F) (r : result A E) : result A F :=
  match r with
  | Ok a => Ok a
  | Err e => Err (f e)
  end.

Definition ok_or {A E} (e : E) (o : option A) : result A E :=
  match o with
  | Some a => Ok a
  | None => Err e
  end.

Definition is_ok {A E} (r : result A E) : bool :=
  match r with
  | Ok _ => true
  | Err _ => false
  end.

Declare Scope mwaf_scope.
Delimit Scope mwaf_scope with mwaf.

(** The [?] operator of Rust. *)
Notation "'let?' x := r 'in' k" := (res_bind (λ x, k) r)
  (at level 10, x name, r at level 100, k at level 200) : mwaf_scope.

(** A left fold whose body may panic. *)
Fixpoint opt_fold {A B} (f : B → A → option B) (l : list A) (b : B) : option B :=
  match l with
  | [] => Some b
  | x :: l' => match f b x with
               | Some b' => opt_fold f l' b'
               | None => None
               end
  end.

(** Computations that thread a state and may fail; a failure keeps the state
    reached. *)
Definition SE (S E A : Type) : Type := S → S * result A E.

#[export] Instance se_ret {S E} : MRet (SE S E) := λ A a s, (s, Ok a).
#[export] Instance se_bind {S E} : MBind (SE S E) := λ A B f m s,
  match m s with
  | (s', Ok a) => f a s'
  | (s', Err e) => (s', Err e)
  end.

(** A plain [Result] as a computation. *)
Definition se_lift {S E A} (r : result A E) : SE S E A := λ s, (s, r).

(** ** Machine integers, as [Z] with their bounds written out *)
Definition U8_MAX : Z := 255.
Definition U16_MAX : Z := 65535.
Definition U64_MAX : Z := 18446744073709551615.
Definition I64_MAX : Z := 9223372036854775807.

Definition byte_ok (b : Z) : Prop := 0 ≤ b ≤ U8_MAX.
Definition u16_ok (b : Z) : Prop := 0 ≤ b ≤ U16_MAX.
Definition u64_ok (z : Z) : Prop := 0 ≤ z ≤ U64_MAX.

(** [u64::saturating_add] and [u64::saturating_sub]. *)
Definition sat_add (a b : Z) : Z := Z.min (a + b) U64_MAX.
Definition sat_sub (a b : Z) : Z := Z.max 0 (a - b).

Fixpoint sumZ (l : list Z) : Z :=
  match l with
  | [] => 0
  | z :: l' => z + sumZ l'
  end.

(** [u16::from_be_bytes], [u16::from_le_bytes], [u64::from_be_bytes]. *)
Definition u16_be (hi lo : Z) : Z := Z.lor (Z.shiftl hi 8) lo.
Definition u16_le (lo hi : Z) : Z := Z.lor lo (Z.shiftl hi 8).
Definition be_bytes (bs : list Z) : Z :=
  foldl (λ acc b, Z.lor (Z.shiftl acc 8) b) 0 bs.

(** The lexicographic order of lists, and [Ordering::then_with]. *)
Fixpoint lex (a b : list Z) : comparison :=
  match a, b with
  | [], [] => Eq
  | [], _ :: _ => Lt
  | _ :: _, [] => Gt
  | x :: a', y :: b' => match x ?= y with Eq => lex a' b' | c => c end
  end.

Definition then_with (c d : comparison) : comparison := match c with Eq => d | _ => c end.

(** ** Time

    An [Instant] is a [Z] of nanoseconds on the monotonic clock, a [SystemTime]
    a [Z] of nanoseconds since the Unix epoch, a [Duration] a [Z] of
    nanoseconds.  The clock readings are arguments of the definitions.
    [Instant + Duration] panics when the seconds no longer fit the [i64] that
    Linux stores. *)
Definition NS : Z := 1000000000.
Definition from_secs (s : Z) : Z := s * NS.
Definition as_secs (d : Z) : Z := d / NS.
Definition sat_since (a b : Z) : Z := Z.max 0 (a - b).
Definition time_add (t d : Z) : option Z :=
  if (t + d) / NS <=? I64_MAX then Some (t + d) else None.

(** ** Text

    A Rust [str] is its list of Unicode scalar values. *)
Abbreviation str := (list Z).
Definition lit (s : string) : str :=
  map (λ a, Z.of_N (Ascii.N_of_ascii a)) (String.list_ascii_of_string s).

(** ** Hash iteration

    [std::collections::HashMap] and [HashSet] iterate in an unspecified order.
    The order is a parameter of every definition that iterates; its only law is
    that every entry is visited once. *)
Class HashIter := {
  hiter : ∀ {K A : Type} `{Countable K}, gmap K A → list (K * A);
  hset_iter : ∀ {K : Type} `{Countable K}, gset K → list K;
  hiter_perm : ∀ {K A : Type} `{Countable K} (m : gmap K A), hiter m ≡ₚ map_to_list m;
  hset_iter_perm : ∀ {K : Type} `{Countable K} (s : gset K), hset_iter s ≡ₚ elements s
}.

(** Two concrete orders, used to evaluate examples. *)
#[refine] Instance hash_forward : HashIter := {|
  hiter K A _ _ m := map_to_list m;
  hset_iter K _ _ s := elements s
|}.
Proof. all: done. Defined.

#[refine] Instance hash_backward : HashIter := {|
  hiter K A _ _ m := rev (map_to_list m);
  hset_iter K _ _ s := rev (elements s)
|}.
Proof. all: intros; symmetry; apply Permutation_rev. Defined.

(** ** Shared lemmas *)

Create HintDb mwaf.

Lemma res_bind_Ok {A B E} (f : A → result B E) r b :
  res_bind f r = Ok b ↔ ∃ a, r = Ok a ∧ f a = Ok b.
Proof. destruct r; cbn; naive_solver. Qed.

Lemma res_bind_Err {A B E} (f : A → result B E) r e :
  res_bind f r = Err e ↔ r = Err e ∨ ∃ a, r = Ok a ∧ f a = Err e.
Proof. destruct r; cbn; naive_solver. Qed.

Lemma map_err_Ok {A E F} (f : E → F) (r : result A E) a : map_err f r = Ok a ↔ r = Ok a.
Proof. destruct r; cbn; naive_solver. Qed.

Lemma if_same {A} (b : bool) (x : A) : (if b then x else x) = x.
Proof. by destruct b. Qed.

Lemma sat_add_ok a b : 0 ≤ a → 0 ≤ b → u64_ok (sat_add a b).
Proof. unfold u64_ok, sat_add, U64_MAX. lia. Qed.

Lemma sat_add_0_r a : u64_ok a → sat_add a 0 = a.
Proof. unfold u64_ok, sat_add, U64_MAX. lia. Qed.

Lemma sat_add_ge a b : u64_ok a → 0 ≤ b → a ≤ sat_add a b.
Proof. unfold u64_ok, sat_add, U64_MAX. lia. Qed.

Lemma sat_sub_ok a b : u64_ok a → 0 ≤ b → u64_ok (sat_sub a b).
Proof. unfold u64_ok, sat_sub, U64_MAX. lia. Qed.

Lemma time_add_Some t d t' : time_add t d = Some t' → t' = t + d.
Proof. unfold time_add. case_match; naive_solver. Qed.

Lemma time_add_total t d : (t + d) / NS ≤ I64_MAX → time_add t d = Some (t + d).
Proof. intros. unfold time_add. by rewrite (proj2 (Z.leb_le _ _)). Qed.

#[export] Hint Resolve sat_add_ok sat_add_ge sat_sub_ok : mwaf.

(** Joining disjoint bit fields is addition. *)
Lemma lor_shiftl_add a n b : 0 ≤ n → 0 ≤ b < 2 ^ n → Z.lor (Z.shiftl a n) b = a * 2 ^ n + b.
Proof.
  intros Hn Hb. rewrite <- Z.shiftl_mul_pow2 by done.
  assert (Z.land (Z.shiftl a n) b = 0) as Hland.
  { apply Z.bits_inj'. intros i Hi. rewrite Z.land_spec, Z.bits_0.
    destruct (Z.lt_ge_cases i n).
    - rewrite Z.shiftl_spec_low by lia. done.
    - rewrite <- (Z.mod_small b (2 ^ n)), Z.mod_pow2_bits_high by lia. apply andb_false_r. }
  rewrite <- Z.lxor_lor by done. by rewrite Z.add_nocarry_lxor.
Qed.

Lemma u16_be_arith hi lo : byte_ok lo → u16_be hi lo = hi * 256 + lo.
Proof.
  intros [H1 H2]. unfold u16_be, U8_MAX in *. rewrite lor_shiftl_add by lia. done.
Qed.

Lemma u16_le_arith lo hi : byte_ok lo → u16_le lo hi = hi * 256 + lo.
Proof. intros. unfold u16_le. rewrite Z.lor_comm. by apply u16_be_arith. Qed.

(** Folds that may panic. *)
Section opt_fold.
Context {A B : Type}.
Implicit Types (f : B → A → option B) (l : list A).

Lemma opt_fold_app f l1 l2 b :
  opt_fold f (l1 ++ l2) b = b' ← opt_fold f l1 b; opt_fold f l2 b'.
Proof. revert b. induction l1 as [|x l1 IH]; intros b; simpl; [done|]. by destruct (f b x). Qed.

Lemma opt_fold_inv (P : B → Prop) f l b b' :
  P b → (∀ x y z, x ∈ l → P y → f y x = Some z → P z) → opt_fold f l b = Some b' → P b'.
Proof.
  revert b. induction l as [|x l IH]; intros b Hb Hf; simpl; [naive_solver|].
  destruct (f b x) as [b1|] eqn:E; [|done].
  intros H. eapply (IH b1); [eapply Hf; [left|..]; done| |done].
  intros ????; eapply Hf. by right.
Qed.

Lemma opt_fold_total (P : B → Prop) f l b :
  P b → (∀ x y, x ∈ l → P y → ∃ z, f y x = Some z ∧ P z) →
  ∃ b', opt_fold f l b = Some b' ∧ P b'.
Proof.
  revert b. induction l as [|x l IH]; intros b Hb Hf; simpl; [eauto|].
  destruct (Hf x b) as (z & -> & Hz); [by left|done|].
  apply IH; [done|]. intros; apply Hf; [by right|done].
Qed.

Lemma opt_fold_ext (P : B → Prop) f g l b :
  P b → (∀ x y z, x ∈ l → P y → f y x = Some z → P z) →
  (∀ x y, x ∈ l → P y → f y x = g y x) → opt_fold f l b = opt_fold g l b.
Proof.
  revert b. induction l as [|x l IH]; intros b Hb Hpres Hfg; simpl; [done|].
  rewrite <- Hfg by (done || left). destruct (f b x) as [b1|] eqn:E; [|done].
  apply IH; [eapply Hpres; [left|..]; done|..].
  - intros ????. apply Hpres. by right.
  - intros ???. apply Hfg. by right.
Qed.

Lemma opt_fold_perm (P : B → Prop) f l1 l2 b :
  P b → (∀ x y z, x ∈ l1 → P y → f y x = Some z → P z) →
  (∀ x x' y, x ∈ l1 → x' ∈ l1 → P y →
     (y1 ← f y x; f y1 x') = (y1 ← f y x'; f y1 x)) →
  l1 ≡ₚ l2 → opt_fold f l1 b = opt_fold f l2 b.
Proof.
  intros Hb Hpres Hcomm Hp. revert b Hb Hpres Hcomm.
  induction Hp as [|x l1 l2 Hp IH|x y l|l1 l2 l3 Hp1 IH1 Hp2 IH2]; intros b Hb Hpres Hcomm.
  - done.
  - simpl. destruct (f b x) as [b1|] eqn:E; [|done]. apply IH.
    + eapply Hpres; [left|..]; done.
    + intros ????. apply Hpres. by right.
    + intros ?????. apply Hcomm; by right.
  - simpl. pose proof (Hcomm y x b) as H. simpl in H.
    specialize (H ltac:(left) ltac:(right; left) Hb).
    destruct (f b y) as [b1|], (f b x) as [b2|]; simpl in H; try done.
    + by rewrite H.
    + by rewrite H.
    + by rewrite <- H.
  - etransitivity; [by apply IH1|]. apply IH2; [done|..].
    + intros x y z Hx. apply Hpres. by rewrite Hp1.
    + intros x x' y Hx Hx'. apply Hcomm; by rewrite Hp1.
Qed.
End opt_fold.

(** A fold whose steps commute on elements with distinct keys does not depend
    on the order of the list. *)
Lemma foldl_perm_keys {A B K} (key : A → K) (f : B → A → B) l1 l2 b :
  (∀ b x y, key x ≠ key y → f (f b x) y = f (f b y) x) →
  NoDup (key <$> l1) → l1 ≡ₚ l2 → foldl f b l1 = foldl f b l2.
Proof.
  intros Hcomm Hnd Hp. revert b Hnd.
  induction Hp as [|x l1 l2 Hp IH|x y l|l1 l2 l3 Hp1 IH1 Hp2 IH2]; intros b Hnd.
  - done.
  - apply NoDup_cons in Hnd as [_ Hnd]. by apply IH.
  - cbn. rewrite Hcomm; [done|]. apply NoDup_cons in Hnd as [Hx _].
    intros E. apply Hx. rewrite E. left.
  - rewrite IH1 by done. apply IH2. by rewrite <- Hp1.
Qed.

Lemma hiter_elem `{HashIter} `{Countable K} {A} (m : gmap K A) k a :
  (k, a) ∈ hiter m ↔ m !! k = Some a.
Proof. by rewrite hiter_perm, elem_of_map_to_list. Qed.

Lemma hiter_NoDup `{HashIter} `{Countable K} {A} (m : gmap K A) : NoDup (hiter m).*1.
Proof. rewrite hiter_perm. apply NoDup_fst_map_to_list. Qed.

Lemma hset_iter_elem `{HashIter} `{Countable K} (s : gset K) k :
  k ∈ hset_iter s ↔ k ∈ s.
Proof. by rewrite hset_iter_perm, elem_of_elements. Qed.

Lemma hset_iter_NoDup `{HashIter} `{Countable K} (s : gset K) : NoDup (hset_iter s).
Proof. rewrite hset_iter_perm. apply NoDup_elements. Qed.

Lemma sumZ_elem l z : Forall (λ x, 0 ≤ x) l → z ∈ l → z ≤ sumZ l.
Proof.
  induction 1 as [|x l Hx Hl IH]; [by intros ?%elem_of_nil|]. intros [->|Hz]%elem_of_cons; cbn.
  - assert (0 ≤ sumZ l) by (clear -Hl; induction Hl; cbn; lia). lia.
  - specialize (IH Hz). lia.
Qed.

Section filter.
Context {A : Type} (P : A → Prop) `{∀ x, Decision (P x)}.

Lemma filter_all l : Forall P l → filter P l = l.
Proof. induction 1 as [|x l Hx _ IH]; [done|]. by rewrite filter_cons_True, IH. Qed.

Lemma filter_none l : Forall (λ x, ¬ P x) l → filter P l = [].
Proof. induction 1 as [|x l Hx _ IH]; [done|]. by rewrite filter_cons_False. Qed.
End filter.

Lemma Forall_bind {A B} (P : B → Prop) (f : A → list B) l :
  (∀ x, x ∈ l → Forall P (f x)) → Forall P (l ≫= f).
Proof.
  intros H. induction l as [|x l IH]; csimpl; [constructor|]. apply Forall_app. split.
  - apply H. left.
  - apply IH. intros y Hy. apply H. by right.
Qed.

(** Repeated saturating additions saturate the sum. *)
Lemma foldl_sat_add l acc :
  0 ≤ acc ≤ U64_MAX → Forall (λ z, 0 ≤ z) l →
  foldl sat_add acc l = Z.min U64_MAX (acc + sumZ l).
Proof.
  intros Ha Hl. revert acc Ha. induction Hl as [|z l Hz Hl IH]; intros acc Ha; cbn.
  - unfold U64_MAX in *. lia.
  - assert (0 ≤ sumZ l) by (clear -Hl; induction Hl; cbn; lia).
    rewrite IH; unfold sat_add, U64_MAX in *; lia.
Qed.

Lemma sumZ_nonneg l : Forall (λ z, 0 ≤ z) l → 0 ≤ sumZ l.
Proof. induction 1; cbn; lia. Qed.

Lemma sat_add_comm3 x a b : 0 ≤ a → 0 ≤ b → sat_add (sat_add x a) b = sat_add (sat_add x b) a.
Proof. unfold sat_add. lia. Qed.

(** A fold whose steps commute does not depend on the order of the list. *)
Lemma foldl_perm_comm {A B} (P : A → Prop) (f : B → A → B) l1 l2 b :
  (∀ b x y, P x → P y → f (f b x) y = f (f b y) x) →
  Forall P l1 → l1 ≡ₚ l2 → foldl f b l1 = foldl f b l2.
Proof.
  intros Hcomm Hnd Hp. revert b Hnd.
  induction Hp as [|x l1 l2 Hp IH|x y l|l1 l2 l3 Hp1 IH1 Hp2 IH2]; intros b Hnd.
  - done.
  - apply Forall_cons in Hnd as [_ Hnd]. by apply IH.
  - rewrite !Forall_cons in Hnd. cbn. by rewrite Hcomm by naive_solver.
  - rewrite IH1 by done. apply IH2. by rewrite <- Hp1.
Qed.

(** A [get or default, change, insert] step, the [entry().or_default()] of a
    [HashMap]. *)
Definition entry_mod `{Countable K} {A} (d : A) (f : A → A) (k : K) (m : gmap K A) : gmap K A :=
  <[k := f (default d (m !! k))]> m.

Lemma entry_mod_lookup `{Countable K} {A} (d : A) f k (m : gmap K A) k' :
  default d (entry_mod d f k m !! k') = (if decide (k' = k) then f else id) (default d (m !! k')).
Proof.
  unfold entry_mod. case_decide; [subst; by rewrite lookup_insert_eq|].
  by rewrite lookup_insert_ne.
Qed.

Lemma entry_mod_comm `{Countable K} {A} (d : A) f g k k' (m : gmap K A) :
  (∀ x, f (g x) = g (f x)) →
  entry_mod d f k (entry_mod d g k' m) = entry_mod d g k' (entry_mod d f k m).
Proof.
  intros Hfg. unfold entry_mod. destruct (decide (k = k')) as [->|Hne].
  - rewrite !lookup_insert_eq, !insert_insert_eq. cbn. by rewrite Hfg.
  - rewrite !lookup_insert_ne by done. by apply insert_insert_ne.
Qed.

(** *** Lexicographic comparison *)
Lemma lex_antisym a b : lex b a = CompOpp (lex a b).
Proof.
  revert b. induction a as [|x a IH]; intros [|y b]; cbn; try done.
  rewrite Z.compare_antisym. destruct (Z.compare_spec x y); cbn; auto.
Qed.

Lemma lex_eq a b : lex a b = Eq → a = b.
Proof.
  revert b. induction a as [|x a IH]; intros [|y b]; cbn; try done.
  destruct (Z.compare_spec x y); try done. intros. f_equal; auto.
Qed.

Lemma lex_trans a b c : lex a b ≠ Gt → lex b c ≠ Gt → lex a c ≠ Gt.
Proof.
  revert b c. induction a as [|x a IH]; intros [|y b] [|z c]; cbn; try done.
  destruct (Z.compare_spec x y), (Z.compare_spec y z), (Z.compare_spec x z); try done; try lia;
    subst; try lia. apply IH.
Qed.

Definition lex_le (a b : list Z) : Prop := lex a b ≠ Gt.

#[export] Instance lex_le_dec a b : Decision (lex_le a b).
Proof. unfold lex_le. apply _. Defined.
#[export] Instance lex_le_trans : Transitive lex_le.
Proof. intros a b c. apply lex_trans. Qed.
#[export] Instance lex_le_total : Total lex_le.
Proof.
  intros a b. unfold lex_le. rewrite (lex_antisym a b).
  destruct (lex a b); cbn; (by left) || (by right).
Qed.
#[export] Instance lex_le_antisym : AntiSymm eq lex_le.
Proof.
  intros a b H1 H2. apply lex_eq. unfold lex_le in *. rewrite lex_antisym in H2.
  by destruct (lex a b).
Qed.

(** *** Computations that thread a state *)
Lemma se_bind_run {S E A B} (m : SE S E A) (f : A → SE S E B) s :
  (m ≫= f) s = match m s with
               | (s', Ok a) => f a s'
               | (s', Err e) => (s', Err e)
               end.
Proof. reflexivity. Qed.

Lemma se_bind_Ok {S E A B} (m : SE S E A) (f : A → SE S E B) s s' b :
  (m ≫= f) s = (s', Ok b) ↔ ∃ s1 a, m s = (s1, Ok a) ∧ f a s1 = (s', Ok b).
Proof. rewrite se_bind_run. destruct (m s) as [s1 [a|e]]; naive_solver. Qed.

Lemma se_lift_bind {S E A B} (a : A) (f : A → SE S E B) s : (se_lift (Ok a) ≫= f) s = f a s.
Proof. reflexivity. Qed.

(** ** Bytes *)

(** A boolean fact about every byte, checked by evaluation. *)
Lemma byte_all (P : Z → bool) :
  forallb P (map Z.of_nat (seq 0 256)) = true → ∀ b, byte_ok b → P b = true.
Proof.
  rewrite forallb_forall. intros H b [H0 H1]. apply H. unfold U8_MAX in *.
  apply in_map_iff. exists (Z.to_nat b). split; [lia|]. apply in_seq. lia.
Qed.

Definition bytes_ok (bs : list Z) : Prop := Forall byte_ok bs.

(** The little and big endian forms that the readers above invert. *)
Definition le16 (n : Z) : list Z := [n mod 256; n / 256].

Fixpoint be_enc (k : nat) (n : Z) : list Z :=
  match k with
  | O => []
  | S k' => be_enc k' (n / 256) ++ [n mod 256]
  end.

Lemma byte_mod n : byte_ok (n mod 256).
Proof. unfold byte_ok, U8_MAX. pose proof (Z.mod_pos_bound n 256). lia. Qed.

Lemma le16_ok n : u16_ok n → bytes_ok (le16 n).
Proof.
  unfold u16_ok, U16_MAX. intros. repeat constructor; unfold U8_MAX;
    Z.div_mod_to_equations; lia.
Qed.

Lemma u16_le_le16 n : u16_ok n → u16_le (n mod 256) (n / 256) = n.
Proof.
  intros. rewrite u16_le_arith by apply byte_mod. pose proof (Z.div_mod n 256). lia.
Qed.

Lemma le16_u16_le b0 b1 : byte_ok b0 → le16 (u16_le b0 b1) = [b0; b1].
Proof.
  intros Hb. rewrite u16_le_arith by done. unfold byte_ok, U8_MAX in Hb. unfold le16.
  f_equal; [|f_equal]; Z.div_mod_to_equations; lia.
Qed.

Lemma u16_le_ok b0 b1 : byte_ok b0 → byte_ok b1 → u16_ok (u16_le b0 b1).
Proof. intros. rewrite u16_le_arith by done. unfold byte_ok, u16_ok, U8_MAX, U16_MAX in *. lia. Qed.

Lemma be_bytes_snoc bs b : byte_ok b → be_bytes (bs ++ [b]) = be_bytes bs * 256 + b.
Proof.
  intros [? ?]. unfold be_bytes. rewrite foldl_app. cbn [foldl]. unfold U8_MAX in *.
  by rewrite lor_shiftl_add by lia.
Qed.

Lemma be_enc_length k n : length (be_enc k n) = k.
Proof. revert n. induction k as [|k IH]; intros n; cbn; [done|]. rewrite length_app, IH. cbn. lia. Qed.

Lemma be_enc_ok k n : bytes_ok (be_enc k n).
Proof.
  revert n. induction k as [|k IH]; intros n; cbn; [constructor|].
  apply Forall_app. split; [apply IH|]. by repeat constructor; apply byte_mod.
Qed.

Lemma be_bytes_enc k n : 0 ≤ n < 256 ^ Z.of_nat k → be_bytes (be_enc k n) = n.
Proof.
  revert n. induction k as [|k IH]; intros n Hn; [cbn in *; lia|]. cbn [be_enc].
  rewrite be_bytes_snoc by apply byte_mod. rewrite IH.
  - pose proof (Z.div_mod n 256). lia.
  - rewrite Nat2Z.inj_succ, Z.pow_succ_r in Hn by lia.
    split; [apply Z.div_pos; lia|]. apply Z.div_lt_upper_bound; lia.
Qed.

Lemma be_enc_bytes bs : bytes_ok bs →
  be_enc (length bs) (be_bytes bs) = bs ∧ 0 ≤ be_bytes bs < 256 ^ Z.of_nat (length bs).
Proof.
  induction bs as [|b bs IH] using rev_ind; [cbn; split; [done|lia]|].
  intros [Hbs [Hb _]%Forall_cons]%Forall_app. destruct (IH Hbs) as [IH1 IH2].
  rewrite be_bytes_snoc, length_app, Nat.add_comm by done. cbn [length plus be_enc].
  unfold byte_ok, U8_MAX in Hb. rewrite Nat2Z.inj_succ, Z.pow_succ_r by lia.
  split; [|lia].
  replace ((be_bytes bs * 256 + b) / 256) with (be_bytes bs) by (Z.div_mod_to_equations; lia).
  replace ((be_bytes bs * 256 + b) mod 256) with b by (Z.div_mod_to_equations; lia).
  by rewrite IH1.
Qed.
