(* ===== verification/Text.v ===== *)
(** Text primitives of the Rust standard library that the sources use:
    ASCII classes, [trim], [split], [split_once], UTF-8 validation, and the
    number formats behind [format!] and [from_str_radix]. *)

From S2P Require Import Prelude.

(** ** Character classes *)
Definition in_range (lo hi c : Z) : bool := (lo <=? c) && (c <=? hi).
Definition is_ascii_alphabetic (c : Z) : bool := in_range 65 90 c || in_range 97 122 c.
Definition is_ascii_digit (c : Z) : bool := in_range 48 57 c.

(** [char::is_whitespace]: the Unicode property White_Space. *)
Definition is_whitespace (c : Z) : bool :=
  in_range 9 13 c || (c =? 32) || (c =? 133) || (c =? 160) || (c =? 5760) ||
  in_range 8192 8202 c || (c =? 8232) || (c =? 8233) || (c =? 8239) ||
  (c =? 8287) || (c =? 12288).

Definition ascii_lower (c : Z) : Z := if in_range 65 90 c then c + 32 else c.
Definition to_ascii_lowercase (s : str) : str := map ascii_lower s.
Definition eq_ignore_ascii_case (a b : str) : bool :=
  bool_decide (to_ascii_lowercase a = to_ascii_lowercase b).

(** ** Searching and splitting *)
Fixpoint drop_while (p : Z → bool) (s : str) : str :=
  match s with
  | [] => []
  | c :: s' => if p c then drop_while p s' else s
  end.

(** [str::trim]. *)
Definition trim (s : str) : str :=
  reverse (drop_while is_whitespace (reverse (drop_while is_whitespace s))).

(** [str::split] on a character predicate: always at least one piece. *)
Fixpoint split (p : Z → bool) (s : str) : list str :=
  match s with
  | [] => [[]]
  | c :: s' =>
      if p c then [] :: split p s'
      else match split p s' with
           | w :: ws => (c :: w) :: ws
           | [] => [[c]]
           end
  end.

Definition split_char (c : Z) : str → list str := split (Z.eqb c).

(** [str::split_whitespace]. *)
Definition split_whitespace (s : str) : list str :=
  filter (λ w, w ≠ []) (split is_whitespace s).

(** [str::split_once] on a character. *)
Fixpoint split_once (c : Z) (s : str) : option (str * str) :=
  match s with
  | [] => None
  | d :: s' =>
      if d =? c then Some ([], s')
      else match split_once c s' with
           | Some (a, b) => Some (d :: a, b)
           | None => None
           end
  end.

(** [str::split_once] on the string [\r\n]. *)
Fixpoint split_once_crlf (s : str) : option (str * str) :=
  match s with
  | [] => None
  | d :: s' =>
      match s' with
      | e :: s'' => if (d =? 13) && (e =? 10) then Some ([], s'')
                    else match split_once_crlf s' with
                         | Some (a, b) => Some (d :: a, b)
                         | None => None
                         end
      | [] => None
      end
  end.

(** [str::split] on the string [\r\n]. *)
Fixpoint split_crlf (s : str) : list str :=
  match s with
  | [] => [[]]
  | d :: s' =>
      let rest := match split_crlf s' with
                  | w :: ws => (d :: w) :: ws
                  | [] => [[d]]
                  end in
      match s' with
      | e :: s'' => if (d =? 13) && (e =? 10) then [] :: split_crlf s'' else rest
      | [] => rest
      end
  end.

Fixpoint starts_with (pat s : str) : bool :=
  match pat, s with
  | [], _ => true
  | p :: pat', c :: s' => (p =? c) && starts_with pat' s'
  | _ :: _, [] => false
  end.

Definition ends_with (pat s : str) : bool := starts_with (reverse pat) (reverse s).

(** [str::strip_prefix]. *)
Definition strip_prefix (pat s : str) : option str :=
  if starts_with pat s then Some (drop (length pat) s) else None.

(** [slice::join]. *)
Fixpoint join (sep : str) (ws : list str) : str :=
  match ws with
  | [] => []
  | [w] => w
  | w :: ws' => w ++ sep ++ join sep ws'
  end.

(** ** UTF-8 *)
Definition utf8_len_char (c : Z) : Z :=
  if c <? 128 then 1 else if c <? 2048 then 2 else if c <? 65536 then 3 else 4.

(** [str::len]: the length of the encoding in bytes. *)
Definition utf8_len (s : str) : Z := foldr (λ c n, utf8_len_char c + n) 0 s.

Definition utf8_encode_char (c : Z) : list Z :=
  if c <? 128 then [c]
  else if c <? 2048 then [Z.lor 192 (c / 64); Z.lor 128 (c mod 64)]
  else if c <? 65536 then
    [Z.lor 224 (c / 4096); Z.lor 128 (c / 64 mod 64); Z.lor 128 (c mod 64)]
  else
    [Z.lor 240 (c / 262144); Z.lor 128 (c / 4096 mod 64);
     Z.lor 128 (c / 64 mod 64); Z.lor 128 (c mod 64)].

(** [str::as_bytes]. *)
Definition utf8_encode (s : str) : list Z := flat_map utf8_encode_char s.

Definition is_cont (b : Z) : bool := in_range 128 191 b.

(** [str::from_utf8]: no overlong form, no surrogate, nothing past U+10FFFF. *)
Fixpoint from_utf8 (bs : list Z) : option str :=
  match bs with
  | [] => Some []
  | b0 :: t0 =>
      if in_range 0 127 b0 then cons b0 <$> from_utf8 t0
      else if in_range 194 223 b0 then
        match t0 with
        | b1 :: t1 =>
            if is_cont b1
            then cons ((b0 - 192) * 64 + (b1 - 128)) <$> from_utf8 t1
            else None
        | _ => None
        end
      else if in_range 224 239 b0 then
        match t0 with
        | b1 :: b2 :: t2 =>
            let lo := if b0 =? 224 then 160 else 128 in
            let hi := if b0 =? 237 then 159 else 191 in
            if in_range lo hi b1 && is_cont b2
            then cons ((b0 - 224) * 4096 + (b1 - 128) * 64 + (b2 - 128)) <$> from_utf8 t2
            else None
        | _ => None
        end
      else if in_range 240 244 b0 then
        match t0 with
        | b1 :: b2 :: b3 :: t3 =>
            let lo := if b0 =? 240 then 144 else 128 in
            let hi := if b0 =? 244 then 143 else 191 in
            if in_range lo hi b1 && is_cont b2 && is_cont b3
            then cons ((b0 - 240) * 262144 + (b1 - 128) * 4096 +
                       (b2 - 128) * 64 + (b3 - 128)) <$> from_utf8 t3
            else None
        | _ => None
        end
      else None
  end.

(** ** Numbers *)
Definition digit_char (d : Z) : Z := if d <? 10 then 48 + d else 87 + d.

(** The digits of [n] in [base], most significant first; [fuel] bounds their
    number. *)
Fixpoint digits_aux (base : Z) (fuel : nat) (n : Z) (acc : str) : str :=
  match fuel with
  | O => acc
  | S f =>
      let acc' := digit_char (n mod base) :: acc in
      if n / base =? 0 then acc' else digits_aux base f (n / base) acc'
  end.

(** [{}] on an unsigned integer of at most 64 bits (20 decimal digits). *)
Definition show_dec (n : Z) : str := digits_aux 10 20 n [].
(** [{:x}] on an unsigned integer of at most 64 bits. *)
Definition show_hex (n : Z) : str := digits_aux 16 16 n [].
(** [{:02x}] on a [u8]. *)
Definition show_hex2 (n : Z) : str := [digit_char (n / 16); digit_char (n mod 16)].

(** [char::to_digit]. *)
Definition to_digit (base c : Z) : option Z :=
  let d := if in_range 48 57 c then c - 48
           else if in_range 97 122 c then c - 87
           else if in_range 65 90 c then c - 55
           else base in
  if d <? base then Some d else None.

(** The digit loop of [from_str_radix], failing on overflow of [max]. *)
Fixpoint parse_digits (base max acc : Z) (s : str) : option Z :=
  match s with
  | [] => Some acc
  | c :: s' =>
      match to_digit base c with
      | Some d => let acc' := acc * base + d in
                  if acc' <=? max then parse_digits base max acc' s' else None
      | None => None
      end
  end.

(** [from_str_radix] of an unsigned type: an optional [+], then digits. *)
Definition from_str_radix (base max : Z) (s : str) : option Z :=
  match s with
  | [] => None
  | [c] => parse_digits base max 0 [c]
  | c :: s' => if c =? 43 then parse_digits base max 0 s' else parse_digits base max 0 s
  end.

(** ** Lemmas *)

Lemma split_nonempty p s : split p s ≠ [].
Proof. induction s as [|c s IH]; simpl; [done|]. case_match; [done|]. by destruct (split p s). Qed.

Lemma split_word p w : Forall (λ c, p c = false) w → split p w = [w].
Proof. induction 1 as [|c w Hc _ IH]; simpl; [done|]. by rewrite Hc, IH. Qed.

Lemma split_app p w c s :
  Forall (λ c, p c = false) w → p c = true → split p (w ++ c :: s) = w :: split p s.
Proof.
  intros Hw Hc. induction Hw as [|d w Hd _ IH]; simpl; [by rewrite Hc|]. by rewrite Hd, IH.
Qed.

Lemma split_join p c ws w :
  p c = true → Forall (λ w, Forall (λ d, p d = false) w) (w :: ws) →
  split p (join [c] (w :: ws)) = w :: ws.
Proof.
  intros Hc. revert w. induction ws as [|v ws IH]; intros w Hw; simpl.
  - apply split_word. by inversion Hw.
  - inversion Hw; subst. rewrite split_app by done. f_equal. by apply IH.
Qed.

Lemma split_once_app c a b :
  Forall (λ d, d ≠ c) a → split_once c (a ++ c :: b) = Some (a, b).
Proof.
  induction 1 as [|d a Hd _ IH]; simpl; [by rewrite Z.eqb_refl|].
  by rewrite (proj2 (Z.eqb_neq _ _)), IH.
Qed.

Lemma split_once_None c a : Forall (λ d, d ≠ c) a → split_once c a = None.
Proof.
  induction 1 as [|d a Hd _ IH]; simpl; [done|]. by rewrite (proj2 (Z.eqb_neq _ _)), IH.
Qed.

Lemma split_once_before c s a b : split_once c s = Some (a, b) → c ∉ a.
Proof.
  revert a. induction s as [|d s IH]; intros a; cbn [split_once]; [done|].
  destruct (Z.eqb_spec d c) as [->|Hd]; [intros [= <- _]; by intros ?%elem_of_nil|].
  destruct (split_once c s) as [[a' b']|]; [|done]. intros [= <- <-].
  intros [->|Hin]%elem_of_cons; [done|]. by eapply IH.
Qed.

Lemma split_once_absent c s : split_once c s = None → c ∉ s.
Proof.
  induction s as [|d s IH]; cbn [split_once]; [by intros _ ?%elem_of_nil|].
  destruct (Z.eqb_spec d c) as [->|Hd]; [done|].
  destruct (split_once c s) as [[? ?]|]; [done|]. intros _ [->|Hin]%elem_of_cons; [done|].
  by apply IH.
Qed.

Lemma starts_with_app pat s : starts_with pat (pat ++ s) = true.
Proof. induction pat; simpl; [done|]. by rewrite Z.eqb_refl. Qed.

Lemma strip_prefix_app pat s : strip_prefix pat (pat ++ s) = Some s.
Proof. unfold strip_prefix. rewrite starts_with_app. f_equal. apply drop_app_length. Qed.

Lemma drop_while_length p s : (length (drop_while p s) ≤ length s)%nat.
Proof. induction s; simpl; [lia|]. case_match; simpl; lia. Qed.

Lemma drop_while_false p s : Forall (λ c, p c = false) s → drop_while p s = s.
Proof. intros H. destruct H as [|c s Hc H]; simpl; [done|]. by rewrite Hc. Qed.

Lemma drop_while_sublist p s : drop_while p s `suffix_of` s.
Proof.
  induction s as [|c s IH]; simpl; [done|]. case_match; [|done]. by apply suffix_cons_r.
Qed.

Lemma trim_word s : Forall (λ c, is_whitespace c = false) s → trim s = s.
Proof.
  intros H. unfold trim. rewrite (drop_while_false _ s) by done.
  rewrite drop_while_false; [apply reverse_involutive|]. by apply Forall_reverse.
Qed.

Lemma utf8_len_app a b : utf8_len (a ++ b) = utf8_len a + utf8_len b.
Proof. induction a; simpl; lia. Qed.

Lemma utf8_len_char_pos c : 1 ≤ utf8_len_char c ≤ 4.
Proof. unfold utf8_len_char. repeat case_match; lia. Qed.

Lemma utf8_len_nonneg s : 0 ≤ utf8_len s.
Proof. induction s as [|c s]; simpl; [lia|]. pose proof (utf8_len_char_pos c). lia. Qed.

Lemma utf8_len_reverse s : utf8_len (reverse s) = utf8_len s.
Proof.
  induction s as [|c s IH]; [done|]. rewrite reverse_cons, utf8_len_app, IH. simpl. lia.
Qed.

Lemma utf8_len_suffix a b : a `suffix_of` b → utf8_len a ≤ utf8_len b.
Proof. intros [k ->]. rewrite utf8_len_app. pose proof (utf8_len_nonneg k). lia. Qed.

Lemma utf8_len_trim s : utf8_len (trim s) ≤ utf8_len s.
Proof.
  unfold trim. rewrite utf8_len_reverse.
  etrans; [apply utf8_len_suffix, drop_while_sublist|].
  rewrite utf8_len_reverse. apply utf8_len_suffix, drop_while_sublist.
Qed.

Lemma utf8_len_split p s : foldr (λ w n, utf8_len w + n) 0 (split p s) ≤ utf8_len s.
Proof.
  induction s as [|c s IH]; simpl; [lia|]. pose proof (utf8_len_char_pos c).
  case_match; [simpl; lia|]. pose proof (split_nonempty p s).
  destruct (split p s); [done|]. simpl in *. lia.
Qed.

(** Splits every boolean test of the decoder into linear facts. *)
Ltac bool_lia := unfold is_cont, in_range in *; lia.

(** Decoding preserves the byte length ([String::len] counts bytes). *)
Lemma from_utf8_len bs s : from_utf8 bs = Some s → utf8_len s = Z.of_nat (length bs).
Proof.
  remember (length bs) as n eqn:Hn. assert (length bs ≤ n)%nat as Hle by lia.
  rewrite Hn. clear Hn. revert bs s Hle.
  induction n as [|n IH]; intros [|b0 t0] s Hle; simpl in *;
    [naive_solver|lia|naive_solver|].
  assert (∀ t c s', (length t ≤ n)%nat → cons c <$> from_utf8 t = Some s' →
    utf8_len s' = utf8_len_char c + Z.of_nat (length t)) as IH'.
  { intros t c s1 Ht (s2 & E & ->)%fmap_Some. simpl. f_equal. by apply IH. }
  repeat case_match; intros E; simplify_eq/=;
    (apply IH' in E; [rewrite E|simpl in *; lia]); unfold utf8_len_char;
    repeat case_match; simpl in *; bool_lia.
Qed.

(** On ASCII bytes the decoder is the identity. *)
Lemma from_utf8_ascii bs : Forall (λ b, 0 ≤ b < 128) bs → from_utf8 bs = Some bs.
Proof.
  induction 1 as [|b bs Hb _ IH]; simpl; [done|].
  destruct (in_range 0 127 b) eqn:E; [by rewrite IH|]. bool_lia.
Qed.

(** *** Trimming *)
Lemma drop_while_head p s c s' : drop_while p s = c :: s' → p c = false.
Proof. induction s as [|d s IH]; simpl; [done|]. case_match; [done|]. by intros [= <- _]. Qed.

Lemma drop_while_idem p s : drop_while p (drop_while p s) = drop_while p s.
Proof.
  destruct (drop_while p s) as [|c s'] eqn:E; [done|]. simpl. by rewrite (drop_while_head _ _ _ _ E).
Qed.

Lemma trim_edges s : drop_while is_whitespace (trim s) = trim s ∧ trim (trim s) = trim s.
Proof.
  set (a := drop_while is_whitespace s). set (b := drop_while is_whitespace (reverse a)).
  assert (trim s = reverse b) as Et by done.
  assert (drop_while is_whitespace (reverse b) = reverse b) as Hb.
  { destruct (reverse b) as [|c t] eqn:Er; [done|]. simpl.
    destruct (drop_while_sublist is_whitespace (reverse a)) as [k Hk]. fold b in Hk.
    apply (f_equal reverse) in Hk. rewrite reverse_involutive, reverse_app, Er in Hk.
    by rewrite (drop_while_head is_whitespace s c (t ++ reverse k) Hk). }
  rewrite Et. split; [done|]. unfold trim. rewrite Hb, reverse_involutive. unfold b at 1.
  by rewrite drop_while_idem.
Qed.

Lemma trim_incl s c : c ∈ trim s → c ∈ s.
Proof.
  unfold trim. rewrite elem_of_reverse.
  destruct (drop_while_sublist is_whitespace (reverse (drop_while is_whitespace s))) as [k Hk].
  destruct (drop_while_sublist is_whitespace s) as [k' Hk'].
  intros Hc. rewrite Hk'. apply elem_of_app. right.
  rewrite <- elem_of_reverse, Hk. apply elem_of_app. by right.
Qed.

Lemma split_pieces p s w c : w ∈ split p s → c ∈ w → p c = false.
Proof.
  revert w. induction s as [|d s IH]; simpl; intros w.
  - intros ->%list_elem_of_singleton []%elem_of_nil.
  - destruct (p d) eqn:Hd; [intros [->|Hw]%elem_of_cons; [by intros ?%elem_of_nil|by apply IH]|].
    destruct (split p s) as [|w0 ws] eqn:Es; [by destruct (split_nonempty p s)|].
    intros [->|Hw]%elem_of_cons; [|apply IH; by right].
    intros [->|Hc]%elem_of_cons; [done|]. apply (IH w0); [left|done].
Qed.

Lemma starts_with_prefix pat s : starts_with pat s = true ↔ ∃ k, s = pat ++ k.
Proof.
  split; [|intros [k ->]; apply starts_with_app].
  revert s. induction pat as [|p pat IH]; intros s; [by exists s|]. destruct s as [|c s]; [done|].
  cbn. rewrite andb_true_iff, Z.eqb_eq. intros [-> [k ->]%IH]. by exists k.
Qed.

(** A line ended by [\r\n], when the line holds neither character. *)
Definition no_crlf (w : str) : Prop := Forall (λ c, c ≠ 13 ∧ c ≠ 10) w.

Lemma split_once_crlf_app w s : no_crlf w → split_once_crlf (w ++ 13 :: 10 :: s) = Some (w, s).
Proof.
  induction 1 as [|c w [Hc _] Hw IH]; [done|]. cbn [app split_once_crlf].
  destruct (w ++ 13 :: 10 :: s) as [|d t] eqn:E; [by destruct w|].
  rewrite (proj2 (Z.eqb_neq c 13)) by done. cbn [andb]. by rewrite IH.
Qed.

Lemma split_crlf_app w s : no_crlf w → split_crlf (w ++ 13 :: 10 :: s) = w :: split_crlf s.
Proof.
  induction 1 as [|c w [Hc _] Hw IH]; [done|]. cbn [app split_crlf].
  destruct (w ++ 13 :: 10 :: s) as [|d t] eqn:E; [by destruct w|].
  rewrite (proj2 (Z.eqb_neq c 13)) by done. cbn [andb]. by rewrite IH.
Qed.
