(* ===== verification/Client.v ===== *)
(** Client identity ([crates/mw-core/src/client.rs]): a MAC address and an IP
    address, their text form [mac@ip] used as storage key and wire reference,
    and the parser that reads it back.  The address formats and parsers of
    [std::net] are modelled in the first section. *)

From S2P Require Import Prelude Text.

(** ** [std::net] addresses *)
Inductive IpAddr :=
| V4 (a b c d : Z)
| V6 (segs : list Z).

#[export] Instance IpAddr_eq_dec : EqDecision IpAddr.
Proof. solve_decision. Defined.

Definition IpAddr_enc (i : IpAddr) : Z * Z * Z * Z + list Z :=
  match i with
  | V4 a b c d => inl (a, b, c, d)
  | V6 s => inr s
  end.
Definition IpAddr_dec (x : Z * Z * Z * Z + list Z) : IpAddr :=
  match x with
  | inl (a, b, c, d) => V4 a b c d
  | inr s => V6 s
  end.
#[export] Instance IpAddr_countable : Countable IpAddr.
Proof. apply (inj_countable' IpAddr_enc IpAddr_dec). by intros []. Defined.

Definition ip_ok (i : IpAddr) : Prop :=
  match i with
  | V4 a b c d => byte_ok a ∧ byte_ok b ∧ byte_ok c ∧ byte_ok d
  | V6 s => length s = 8%nat ∧ Forall u16_ok s
  end.

(** [Display] of [Ipv4Addr]. *)
Definition show_v4 (a b c d : Z) : str :=
  join [46] [show_dec a; show_dec b; show_dec c; show_dec d].

(** [Display] of [Ipv6Addr]: hexadecimal groups, the first longest run of at
    least two zero groups written [::], IPv4-mapped addresses in dotted form. *)
Definition fmt_groups (gs : list Z) : str := join [58] (map show_hex gs).

(** One step of the scan for zero runs: the longest and the current span, each
    [(start, len)], at index [i]. *)
Definition span_step (st : (nat * nat) * (nat * nat) * nat) (g : Z) :
    (nat * nat) * (nat * nat) * nat :=
  let '(longest, (cs, cl), i) := st in
  if g =? 0 then
    let cs' := if (cl =? 0)%nat then i else cs in
    let cl' := S cl in
    let longest' := if (snd longest <? cl')%nat then (cs', cl') else longest in
    (longest', (cs', cl'), S i)
  else (longest, (0, 0)%nat, S i).

Definition longest_zeros (gs : list Z) : nat * nat :=
  fst (fst (foldl span_step ((0, 0), (0, 0), 0)%nat gs)).

Definition show_v6 (segs : list Z) : str :=
  match segs with
  | [0; 0; 0; 0; 0; 65535; ab; cd] =>
      lit "::ffff:" ++ show_v4 (ab / 256) (ab mod 256) (cd / 256) (cd mod 256)
  | _ =>
      let '(start, len) := longest_zeros segs in
      if (1 <? len)%nat
      then fmt_groups (take start segs) ++ lit "::" ++ fmt_groups (drop (start + len) segs)
      else fmt_groups segs
  end.

Definition show_ip (i : IpAddr) : str :=
  match i with
  | V4 a b c d => show_v4 a b c d
  | V6 s => show_v6 s
  end.

(** *** The address parser *)
Fixpoint read_digits (radix : Z) (s : str) : list Z * str :=
  match s with
  | [] => ([], [])
  | c :: s' => match to_digit radix c with
               | Some d => let '(ds, r) := read_digits radix s' in (d :: ds, r)
               | None => ([], s)
               end
  end.

Definition read_number (radix : Z) (max_digits : nat) (allow_zero_prefix : bool) (max : Z)
    (s : str) : option (Z * str) :=
  let '(ds, r) := read_digits radix s in
  let n := length ds in
  if (max_digits <? n)%nat then None
  else if (n =? 0)%nat then None
  else if negb allow_zero_prefix && starts_with [48] s && (1 <? n)%nat then None
  else let v := foldl (λ acc d, acc * radix + d) 0 ds in
       if v <=? max then Some (v, r) else None.

Definition read_char (c : Z) (s : str) : option str :=
  match s with
  | d :: s' => if d =? c then Some s' else None
  | [] => None
  end.

(** [read_separator]: no separator before the first element. *)
Definition read_separator {A} (c : Z) (i : nat) (p : str → option (A * str)) (s : str) :
    option (A * str) :=
  if (i =? 0)%nat then p s else s' ← read_char c s; p s'.

Definition read_octet : str → option (Z * str) := read_number 10 3 false U8_MAX.

Definition read_ipv4 (s : str) : option ((Z * Z * Z * Z) * str) :=
  '(a, s) ← read_separator 46 0 read_octet s;
  '(b, s) ← read_separator 46 1 read_octet s;
  '(c, s) ← read_separator 46 2 read_octet s;
  '(d, s) ← read_separator 46 3 read_octet s;
  Some ((a, b, c, d), s).

(** The loop of [read_groups] over the indices [i .. limit]; [k] is the number
    of indices left. *)
Fixpoint read_groups (k i limit : nat) (s : str) : list Z * bool * str :=
  match k with
  | O => ([], false, s)
  | S k' =>
      let v4 := if (i <? limit - 1)%nat then read_separator 58 i read_ipv4 s else None in
      match v4 with
      | Some ((a, b, c, d), s') => ([u16_be a b; u16_be c d], true, s')
      | None =>
          match read_separator 58 i (read_number 16 4 true U16_MAX) s with
          | Some (g, s') =>
              let '(gs, v, s'') := read_groups k' (S i) limit s' in (g :: gs, v, s'')
          | None => ([], false, s)
          end
      end
  end.

Definition read_ipv6 (s : str) : option (list Z * str) :=
  let '(head, head_v4, s1) := read_groups 8 0 8 s in
  if (length head =? 8)%nat then Some (head, s1)
  else if head_v4 then None
  else
    s2 ← read_char 58 s1;
    s3 ← read_char 58 s2;
    let limit := (8 - (length head + 1))%nat in
    let '(tail, _, s4) := read_groups limit 0 limit s3 in
    Some (head ++ replicate (8 - length head - length tail) 0 ++ tail, s4).

(** [IpAddr::from_str]. *)
Definition parse_ip (s : str) : option IpAddr :=
  '(ip, r) ← match read_ipv4 s with
             | Some ((a, b, c, d), r) => Some (V4 a b c d, r)
             | None => match read_ipv6 s with
                       | Some (segs, r) => Some (V6 segs, r)
                       | None => None
                       end
             end;
  match r with
  | [] => Some ip
  | _ => None
  end.

(** ** [ClientId] *)
Record ClientId := mkClient { mac : list Z; ip : IpAddr }.

#[export] Instance ClientId_eq_dec : EqDecision ClientId.
Proof. solve_decision. Defined.
#[export] Instance ClientId_countable : Countable ClientId.
Proof.
  apply (inj_countable' (λ c, (mac c, ip c)) (λ p, mkClient p.1 p.2)). by intros [].
Defined.

(** The type [[u8; 6]] of the [mac] field. *)
Definition client_ok (c : ClientId) : Prop :=
  length (mac c) = 6%nat ∧ Forall byte_ok (mac c) ∧ ip_ok (ip c).

Definition mac_string (c : ClientId) : str := join [58] (map show_hex2 (mac c)).

Definition storage_key (c : ClientId) : str := mac_string c ++ [64] ++ show_ip (ip c).

Fixpoint opt_map {A B} (f : A → option B) (l : list A) : option (list B) :=
  match l with
  | [] => Some []
  | x :: l' => match f x with
               | Some y => match opt_map f l' with
                           | Some ys => Some (y :: ys)
                           | None => None
                           end
               | None => None
               end
  end.

Definition parse_mac (s : str) : option (list Z) :=
  let parts := split_char 58 s in
  if negb (length parts =? 6)%nat then None
  else opt_map (from_str_radix 16 U8_MAX) parts.

Inductive ClientRefParseError := BadClientRef (s : str).

(** [Display] of [ClientRefParseError]. *)
Definition show_ref_error (e : ClientRefParseError) : str :=
  match e with
  | BadClientRef s => lit "invalid client ref: " ++ s
  end.

Definition client_from_str (s : str) : result ClientId ClientRefParseError :=
  let '(mac_s, ip_s) := match split_once 64 s with
                        | Some (m, i) => (m, Some i)
                        | None => (s, None)
                        end in
  match ok_or (BadClientRef s) (parse_mac mac_s) with
  | Err e => Err e
  | Ok m =>
      match ip_s with
      | Some i => match ok_or (BadClientRef s) (parse_ip i) with
                  | Err e => Err e
                  | Ok a => Ok (mkClient m a)
                  end
      | None => Ok (mkClient m (V4 0 0 0 0))
      end
  end.

Example parse_mac_only :
  client_from_str (lit "aa:bb:cc:dd:ee:ff")
  = Ok (mkClient [170; 187; 204; 221; 238; 255] (V4 0 0 0 0)).
Proof. vm_compute. reflexivity. Qed.

Example parse_mac_ip :
  (match client_from_str (lit "aa:bb:cc:dd:ee:ff@10.0.0.1") with
   | Ok c => Some (ip c, storage_key c)
   | Err _ => None
   end) = Some (V4 10 0 0 1, lit "aa:bb:cc:dd:ee:ff@10.0.0.1").
Proof. vm_compute. reflexivity. Qed.

Example show_v6_examples :
  map show_v6 [[0; 0; 0; 0; 0; 0; 0; 1]; [65152; 0; 0; 0; 514; 46079; 65054; 33577];
               [8193; 3512; 0; 0; 1; 0; 0; 1]; [1; 0; 2; 3; 4; 5; 6; 7];
               [0; 0; 0; 0; 0; 65535; 49320; 258]]
  = [lit "::1"; lit "fe80::202:b3ff:fe1e:8329"; lit "2001:db8::1:0:0:1";
     lit "1:0:2:3:4:5:6:7"; lit "::ffff:192.168.1.2"].
Proof. vm_compute. reflexivity. Qed.

Example parse_v6_examples :
  map parse_ip [lit "::"; lit "1::8"; lit "::1.2.3.4"; lit "1:2:3:4:5:6:7::"; lit "01.2.3.4";
                lit "1:2:3:4:5:6:7:8:9"; lit "::ffff:1.2.3.4"]
  = [Some (V6 [0;0;0;0;0;0;0;0]); Some (V6 [1;0;0;0;0;0;0;8]);
     Some (V6 [0;0;0;0;0;0;258;772]); Some (V6 [1;2;3;4;5;6;7;0]); None; None;
     Some (V6 [0;0;0;0;0;65535;258;772])].
Proof. vm_compute. reflexivity. Qed.

(** ** Lemmas: digits and groups *)

Lemma to_digit_char base d : 2 ≤ base ≤ 16 → 0 ≤ d < base → to_digit base (digit_char d) = Some d.
Proof.
  intros. unfold to_digit, digit_char, in_range.
  repeat case_match; try lia; f_equal; lia.
Qed.

Lemma read_digits_app radix ds r :
  2 ≤ radix ≤ 16 → Forall (λ d, 0 ≤ d < radix) ds →
  match r with [] => True | c :: _ => to_digit radix c = None end →
  read_digits radix (map digit_char ds ++ r) = (ds, r).
Proof.
  intros Hr Hds Hrest. induction Hds as [|d ds Hd _ IH]; simpl.
  - destruct r as [|c r]; simpl; [done|]. by rewrite Hrest.
  - by rewrite to_digit_char, IH.
Qed.

(** The digits that [show_dec] writes for a byte and [show_hex] for a [u16]. *)
Definition dec_digits (n : Z) : list Z :=
  if n <? 10 then [n] else if n <? 100 then [n / 10; n mod 10]
  else [n / 100; n / 10 mod 10; n mod 10].

Definition hex_digits (n : Z) : list Z :=
  if n <? 16 then [n] else if n <? 256 then [n / 16; n mod 16]
  else if n <? 4096 then [n / 256; n / 16 mod 16; n mod 16]
  else [n / 4096; n / 256 mod 16; n / 16 mod 16; n mod 16].

Lemma digits_aux_S base f n acc :
  digits_aux base (S f) n acc =
    if n / base =? 0 then digit_char (n mod base) :: acc
    else digits_aux base f (n / base) (digit_char (n mod base) :: acc).
Proof. done. Qed.

Ltac digits_lia := rewrite ?Z.eqb_eq, ?Z.eqb_neq in *; zify; Z.div_mod_to_equations; lia.

Lemma show_dec_digits n : byte_ok n → show_dec n = map digit_char (dec_digits n).
Proof.
  intros [H1 H2]. unfold U8_MAX in *. unfold show_dec, dec_digits.
  do 3 rewrite digits_aux_S. rewrite !Z.div_div by lia.
  repeat case_match; try digits_lia; simpl; repeat (f_equal; try (f_equal; digits_lia)).
Qed.

Lemma show_hex_digits n : u16_ok n → show_hex n = map digit_char (hex_digits n).
Proof.
  intros [H1 H2]. unfold U16_MAX in *. unfold show_hex, hex_digits.
  do 4 rewrite digits_aux_S. rewrite !Z.div_div by lia.
  repeat case_match; try digits_lia; simpl; repeat (f_equal; try (f_equal; digits_lia)).
Qed.

Lemma dec_digits_range n : byte_ok n → Forall (λ d, 0 ≤ d < 10) (dec_digits n).
Proof.
  intros [H1 H2]. unfold U8_MAX, dec_digits in *.
  repeat case_match; repeat constructor; zify; Z.div_mod_to_equations; lia.
Qed.

Lemma hex_digits_range n : u16_ok n → Forall (λ d, 0 ≤ d < 16) (hex_digits n).
Proof.
  intros [H1 H2]. unfold U16_MAX, hex_digits in *.
  repeat case_match; repeat constructor; zify; Z.div_mod_to_equations; lia.
Qed.

Lemma dec_digits_no_leading_zero n r :
  byte_ok n →
  starts_with [48] (map digit_char (dec_digits n) ++ r) && (1 <? length (dec_digits n))%nat
  = false.
Proof.
  intros [H1 H2]. unfold U8_MAX in *.
  assert (∀ d, 1 ≤ d < 10 → (48 =? digit_char d) = false) as Hd.
  { intros d Hd. unfold digit_char. apply Z.eqb_neq. case_match; lia. }
  unfold dec_digits. case_match; [apply andb_false_r|].
  case_match; cbn [map app starts_with]; rewrite Hd; try done; zify; Z.div_mod_to_equations; lia.
Qed.

Lemma dec_digits_value n :
  byte_ok n → foldl (λ acc d, acc * 10 + d) 0 (dec_digits n) = n.
Proof.
  intros [H1 H2]. unfold U8_MAX, dec_digits in *.
  repeat case_match; cbn [foldl]; zify; Z.div_mod_to_equations; lia.
Qed.

Lemma hex_digits_value n :
  u16_ok n → foldl (λ acc d, acc * 16 + d) 0 (hex_digits n) = n.
Proof.
  intros [H1 H2]. unfold U16_MAX, hex_digits in *.
  repeat case_match; cbn [foldl]; zify; Z.div_mod_to_equations; lia.
Qed.

Lemma dec_digits_length n : (1 ≤ length (dec_digits n) ≤ 3)%nat.
Proof. unfold dec_digits. repeat case_match; simpl; lia. Qed.

Lemma hex_digits_length n : (1 ≤ length (hex_digits n) ≤ 4)%nat.
Proof. unfold hex_digits. repeat case_match; simpl; lia. Qed.

Lemma read_octet_show n r :
  byte_ok n → match r with [] => True | c :: _ => to_digit 10 c = None end →
  read_octet (show_dec n ++ r) = Some (n, r).
Proof.
  intros Hn Hr. rewrite show_dec_digits by done. unfold read_octet, read_number.
  rewrite read_digits_app; [|lia|by apply dec_digits_range|done].
  pose proof (dec_digits_length n).
  rewrite (proj2 (Nat.ltb_ge _ _)), (proj2 (Nat.eqb_neq _ _)) by lia. cbn [negb andb].
  rewrite dec_digits_no_leading_zero, dec_digits_value by done.
  by rewrite (proj2 (Z.leb_le _ _)) by apply Hn.
Qed.

Lemma read_group_show g r :
  u16_ok g → match r with [] => True | c :: _ => to_digit 16 c = None end →
  read_number 16 4 true U16_MAX (show_hex g ++ r) = Some (g, r).
Proof.
  intros Hn Hr. rewrite show_hex_digits by done. unfold read_number.
  rewrite read_digits_app; [|lia|by apply hex_digits_range|done].
  pose proof (hex_digits_length g).
  rewrite (proj2 (Nat.ltb_ge _ _)), (proj2 (Nat.eqb_neq _ _)) by lia. cbn [negb andb].
  rewrite hex_digits_value by done. by rewrite (proj2 (Z.leb_le _ _)) by apply Hn.
Qed.

Lemma read_ipv4_show a b c d r :
  byte_ok a → byte_ok b → byte_ok c → byte_ok d →
  match r with [] => True | x :: _ => to_digit 10 x = None end →
  read_ipv4 (show_v4 a b c d ++ r) = Some ((a, b, c, d), r).
Proof.
  intros Ha Hb Hc Hd Hr. unfold read_ipv4, show_v4, read_separator.
  cbn [join Nat.eqb app]. repeat (rewrite <- app_assoc; cbn [app]).
  do 3 (rewrite read_octet_show by done; simpl). by rewrite read_octet_show by done.
Qed.

(** A text without a dot is not the start of a dotted address. *)
Lemma read_digits_spec radix s ds r :
  read_digits radix s = (ds, r) → ∃ p, s = p ++ r.
Proof.
  revert ds r. induction s as [|c s IH]; intros ds r; simpl; [intros [= <- <-]; by exists []|].
  destruct (to_digit radix c).
  - destruct (read_digits radix s) as [ds' r'] eqn:E. intros [= <- <-].
    destruct (IH _ _ eq_refl) as [p ->]. by exists (c :: p).
  - intros [= <- <-]. by exists [].
Qed.

Lemma read_number_suffix radix k z m s n r :
  read_number radix k z m s = Some (n, r) → ∃ p, s = p ++ r.
Proof.
  unfold read_number. destruct (read_digits radix s) as [ds r'] eqn:E.
  repeat case_match; intros; simplify_eq. by eapply read_digits_spec.
Qed.

Lemma read_ipv4_no_dot s : 46 ∉ s → read_ipv4 s = None.
Proof.
  intros Hs. unfold read_ipv4, read_separator. cbn [Nat.eqb].
  destruct (read_octet s) as [[a r]|] eqn:E; [|done]. cbn [mbind option_bind].
  apply read_number_suffix in E as [p ->].
  destruct r as [|c r]; [done|]. cbn [read_char].
  destruct (c =? 46) eqn:Ec; [|done]. apply Z.eqb_eq in Ec as ->. set_solver.
Qed.

Lemma show_v4_head a b c d : byte_ok a → to_digit 16 (hd 0 (show_v4 a b c d)) ≠ None.
Proof.
  intros Ha. unfold show_v4. cbn [join map].
  rewrite show_dec_digits by done. pose proof (dec_digits_range a Ha) as Hr.
  pose proof (dec_digits_length a). destruct (dec_digits a) as [|x l]; [simpl in *; lia|].
  inversion Hr; subst. cbn [map app hd]. rewrite to_digit_char by lia. done.
Qed.

Lemma digit_char_not_sep d : 0 ≤ d < 16 → digit_char d ≠ 46 ∧ digit_char d ≠ 58 ∧ digit_char d ≠ 64.
Proof. intros. unfold digit_char. case_match; lia. Qed.

Lemma show_hex_chars g c : u16_ok g → c ∈ show_hex g → c ≠ 46 ∧ c ≠ 58 ∧ c ≠ 64.
Proof.
  intros Hg. rewrite show_hex_digits by done. intros (d & -> & Hd)%list_elem_of_fmap.
  apply digit_char_not_sep. pose proof (hex_digits_range g Hg) as H.
  rewrite Forall_forall in H. by apply H.
Qed.

(** The separators and groups after the first one. *)
Definition fmt_tail (gs : list Z) : str := flat_map (λ g, 58 :: show_hex g) gs.

Lemma fmt_groups_cons g gs : fmt_groups (g :: gs) = show_hex g ++ fmt_tail gs.
Proof.
  unfold fmt_groups. revert g. induction gs as [|g' gs IH]; intros g.
  - cbn. by rewrite app_nil_r.
  - cbn [map join fmt_tail flat_map] in *. rewrite IH. done.
Qed.

Lemma fmt_tail_no_dot gs c : Forall u16_ok gs → c ∈ fmt_tail gs → c ≠ 46 ∧ c ≠ 64.
Proof.
  induction 1 as [|g gs Hg _ IH]; cbn [fmt_tail flat_map].
  - by intros ?%elem_of_nil.
  - intros [[->|H]%elem_of_cons|H]%elem_of_app; [lia| |by apply IH].
    by apply show_hex_chars in H as (?&?&?).
Qed.

Lemma fmt_groups_no_dot gs c : Forall u16_ok gs → c ∈ fmt_groups gs → c ≠ 46 ∧ c ≠ 64.
Proof.
  destruct 1 as [|g gs Hg Hgs]; [by intros ?%elem_of_nil|].
  rewrite fmt_groups_cons, elem_of_app. intros [H|H].
  - by apply show_hex_chars in H as (?&?&?).
  - by apply fmt_tail_no_dot in H.
Qed.

(** Where a group list stops: the end, or a [::]. *)
Definition stops (r : str) : Prop := r = [] ∨ ∃ r', r = 58 :: 58 :: r'.

Lemma read_separator_next {A} c i (p : str → option (A * str)) s :
  i ≠ 0%nat → read_separator c i p (c :: s) = p s.
Proof.
  intros. unfold read_separator. rewrite (proj2 (Nat.eqb_neq _ _)) by done.
  cbn. by rewrite Z.eqb_refl.
Qed.

Lemma stops_no_group i (r : str) :
  stops r → i ≠ 0%nat → read_separator 58 i (read_number 16 4 true U16_MAX) r = None.
Proof.
  intros Hr Hi. unfold read_separator. rewrite (proj2 (Nat.eqb_neq _ _)) by done.
  by destruct Hr as [->|[r' ->]].
Qed.

Lemma read_sep_no_dot i s : 46 ∉ s → read_separator 58 i read_ipv4 s = None.
Proof.
  intros Hs. unfold read_separator. case_match; [by apply read_ipv4_no_dot|].
  destruct s as [|c s]; [done|]. cbn. case_match; [|done]. simpl.
  apply read_ipv4_no_dot. set_solver.
Qed.

Lemma read_groups_tail k i limit gs r :
  Forall u16_ok gs → 46 ∉ r → stops r → i ≠ 0%nat → (length gs ≤ k)%nat →
  read_groups k i limit (fmt_tail gs ++ r) = (gs, false, r).
Proof.
  intros Hgs Hr Hs. revert k i. induction Hgs as [|g gs Hg Hgs IH]; intros k i Hi Hk.
  - destruct k as [|k]; [done|]. cbn [fmt_tail flat_map app read_groups].
    by rewrite read_sep_no_dot, stops_no_group, if_same by done.
  - destruct k as [|k]; simpl in Hk; [lia|]. cbn [read_groups].
    rewrite read_sep_no_dot.
    2:{ rewrite elem_of_app. intros [H|H]; [|done].
        apply fmt_tail_no_dot in H; [lia|by constructor]. }
    rewrite if_same.
    cbn [fmt_tail flat_map app]. fold (fmt_tail gs).
    rewrite read_separator_next by done.
    rewrite <- app_assoc, read_group_show, IH; [done|lia|lia|done|].
    destruct gs; [|done]. destruct Hs as [->|[r' ->]]; done.
Qed.

Lemma read_groups_fmt k limit gs r :
  Forall u16_ok gs → 46 ∉ r → stops r → (length gs ≤ k)%nat →
  read_groups k 0 limit (fmt_groups gs ++ r) = (gs, false, r).
Proof.
  intros Hgs Hr Hs Hk. destruct Hgs as [|g gs Hg Hgs].
  - destruct k as [|k]; [done|]. cbn [fmt_groups map join app read_groups].
    rewrite read_sep_no_dot by done.
    replace (read_separator 58 0 (read_number 16 4 true U16_MAX) r) with (@None (Z * str))
      by by destruct Hs as [->|[r' ->]].
    by rewrite if_same.
  - destruct k as [|k]; simpl in Hk; [lia|]. cbn [read_groups].
    rewrite read_sep_no_dot.
    2:{ rewrite elem_of_app. intros [H|H]; [|done].
        apply fmt_groups_no_dot in H; [lia|by constructor]. }
    rewrite if_same.
    rewrite fmt_groups_cons, <- app_assoc. unfold read_separator. cbn [Nat.eqb].
    rewrite read_group_show, read_groups_tail; [done..|lia|lia|done|].
    destruct gs; [|done]. destruct Hs as [->|[r' ->]]; done.
Qed.

(** The scan finds a run of zero groups. *)
Definition zero_run (gs : list Z) (sp : nat * nat) : Prop :=
  (sp.1 + sp.2 ≤ length gs)%nat ∧ ∀ j, (sp.1 ≤ j < sp.1 + sp.2)%nat → gs !! j = Some 0.

Lemma zero_run_snoc gs g sp : zero_run gs sp → zero_run (gs ++ [g]) sp.
Proof.
  intros [H1 H2]. split; [rewrite length_app; simpl; lia|].
  intros j Hj. rewrite lookup_app_l; [by apply H2|lia].
Qed.

Lemma span_fold gs :
  let '(l, c, i) := foldl span_step ((0, 0), (0, 0), 0)%nat gs in
  i = length gs ∧ zero_run gs l ∧ zero_run gs c ∧ (c.2 ≠ 0%nat → c.1 + c.2 = i)%nat.
Proof.
  induction gs as [|g gs IH] using rev_ind.
  - simpl. unfold zero_run. simpl. repeat split; try lia.
  - rewrite foldl_app. destruct (foldl _ _ gs) as [[l [cs cl]] i].
    destruct IH as (-> & Hl & [Hc1 Hc2] & Hend). cbn [foldl span_step fst snd] in *.
    destruct (g =? 0) eqn:Hg.
    + apply Z.eqb_eq in Hg as ->.
      assert (zero_run (gs ++ [0]) (if (cl =? 0)%nat then length gs else cs, S cl)) as Hrun.
      { destruct (Nat.eqb_spec cl 0); split; cbn [fst snd] in *;
          [rewrite length_app; simpl; lia| |rewrite length_app; simpl; lia|];
          intros j Hj; destruct (decide (j = length gs)) as [->|Hne];
          first [by rewrite list_lookup_middle | rewrite lookup_app_l; [apply Hc2|]; lia | lia]. }
      split; [rewrite length_app; simpl; lia|].
      split; [destruct (l.2 <? S cl)%nat; [done|by apply zero_run_snoc]|].
      split; [done|]. intros _. cbn [fst snd]. destruct (Nat.eqb_spec cl 0); lia.
    + split; [rewrite length_app; simpl; lia|].
      split; [by apply zero_run_snoc|]. split; [|cbn; lia].
      split; cbn [fst snd]; [lia|]. intros j Hj. lia.
Qed.

Lemma longest_zeros_run gs : zero_run gs (longest_zeros gs).
Proof.
  unfold longest_zeros. pose proof (span_fold gs) as H.
  destruct (foldl _ _ gs) as [[l c] i]. by destruct H as (_ & H & _).
Qed.

Lemma zero_run_split gs sp :
  zero_run gs sp → gs = take sp.1 gs ++ replicate sp.2 0 ++ drop (sp.1 + sp.2) gs.
Proof.
  intros [Hlen Hz]. rewrite <- drop_drop.
  assert (replicate sp.2 0 = take sp.2 (drop sp.1 gs)) as ->.
  { apply list_eq. intros j. destruct (decide (j < sp.2)%nat).
    - rewrite lookup_replicate_2, lookup_take_lt, lookup_drop by lia.
      symmetry. apply Hz. lia.
    - rewrite !lookup_ge_None_2; [done|rewrite length_take; lia|rewrite length_replicate; lia]. }
  by rewrite !take_drop.
Qed.

Lemma read_ipv6_plain segs :
  length segs = 8%nat → Forall u16_ok segs → read_ipv6 (fmt_groups segs) = Some (segs, []).
Proof.
  intros Hl Hs. unfold read_ipv6. rewrite <- (app_nil_r (fmt_groups segs)).
  rewrite read_groups_fmt; [|done|set_solver|by left|lia]. by rewrite Hl.
Qed.

Lemma read_ipv6_compressed pre post n :
  (length pre + n + length post = 8)%nat → (1 < n)%nat →
  Forall u16_ok pre → Forall u16_ok post →
  read_ipv6 (fmt_groups pre ++ lit "::" ++ fmt_groups post)
  = Some (pre ++ replicate n 0 ++ post, []).
Proof.
  intros Hl Hn Hpre Hpost. unfold read_ipv6. change (lit "::") with [58; 58]. cbn [app].
  rewrite read_groups_fmt; [|done| |by right; eexists|lia].
  2:{ rewrite !elem_of_cons. intros [?|[?|H]]; [lia..|].
      by apply fmt_groups_no_dot in H as [??]. }
  rewrite (proj2 (Nat.eqb_neq _ _)) by lia. cbn [read_char Z.eqb Pos.eqb mbind option_bind].
  rewrite <- (app_nil_r (fmt_groups post)) at 1.
  rewrite read_groups_fmt; [|done|set_solver|by left|lia].
  by replace (8 - length pre - length post)%nat with n by lia.
Qed.

Lemma u16_split x : u16_ok x →
  u16_be (x / 256) (x mod 256) = x ∧ byte_ok (x / 256) ∧ byte_ok (x mod 256).
Proof.
  unfold u16_ok, U16_MAX, byte_ok, U8_MAX. intros Hx.
  rewrite u16_be_arith by (unfold byte_ok, U8_MAX; Z.div_mod_to_equations; lia).
  split; [|split]; Z.div_mod_to_equations; lia.
Qed.

Lemma read_ipv6_show segs :
  ip_ok (V6 segs) →
  ((46 ∉ show_v6 segs) ∧ read_ipv6 (show_v6 segs) = Some (segs, [])) ∨
  (∃ a b, segs = [0; 0; 0; 0; 0; 65535; a; b]).
Proof.
  intros [Hl Hs].
  destruct (decide (take 6 segs = [0; 0; 0; 0; 0; 65535])) as [E|E].
  { right. exists (nth 6 segs 0), (nth 7 segs 0).
    rewrite <- (take_drop 6 segs) at 1. rewrite E.
    do 8 (destruct segs as [|? segs]; [done|]). by destruct segs. }
  left.
  assert (show_v6 segs = (let '(start, len) := longest_zeros segs in
    if (1 <? len)%nat
    then fmt_groups (take start segs) ++ lit "::" ++ fmt_groups (drop (start + len) segs)
    else fmt_groups segs)) as ->.
  { do 8 (destruct segs as [|? segs]; [done|]). destruct segs; [|done].
    unfold show_v6. repeat (case_match; try done). }
  pose proof (longest_zeros_run segs) as Hrun.
  destruct (longest_zeros segs) as [start len] eqn:El.
  destruct (1 <? len)%nat eqn:Hlen.
  - apply Nat.ltb_lt in Hlen. split.
    + change (lit "::") with [58; 58]. rewrite !elem_of_app, !elem_of_cons, elem_of_nil.
      intros [H|[[?|[?|[]]]|H]]; try lia; apply fmt_groups_no_dot in H as [??];
        auto using Forall_take, Forall_drop.
    + rewrite (zero_run_split _ _ Hrun) at 3. cbn [fst snd] in *.
      destruct Hrun as [Hb _]. cbn [fst snd] in Hb.
      apply read_ipv6_compressed; auto using Forall_take, Forall_drop.
      rewrite length_take, length_drop. lia.
  - split; [|by apply read_ipv6_plain].
    intros H. by apply fmt_groups_no_dot in H as [??].
Qed.

Lemma read_mapped a b c d :
  byte_ok a → byte_ok b → byte_ok c → byte_ok d →
  parse_ip (lit "::ffff:" ++ show_v4 a b c d)
  = Some (V6 [0; 0; 0; 0; 0; 65535; u16_be a b; u16_be c d]).
Proof.
  intros Ha Hb Hc Hd. unfold parse_ip. pose proof (show_v4_head a b c d Ha) as Hh.
  change (lit "::ffff:" ++ show_v4 a b c d)
    with (58 :: 58 :: 102 :: 102 :: 102 :: 102 :: 58 :: show_v4 a b c d).
  assert (read_ipv6 (58 :: 58 :: 102 :: 102 :: 102 :: 102 :: 58 :: show_v4 a b c d)
    = Some ([0; 0; 0; 0; 0; 65535; u16_be a b; u16_be c d], [])) as H.
  2:{ by simpl in *; rewrite H. }
  pose proof (read_ipv4_show a b c d [] Ha Hb Hc Hd I) as H4. rewrite app_nil_r in H4.
  assert (read_groups 6 1 7 (58 :: show_v4 a b c d) = ([u16_be a b; u16_be c d], true, []))
    as H6.
  { cbn [read_groups Nat.ltb Nat.leb Nat.sub]. by rewrite read_separator_next, H4. }
  set (t := show_v4 a b c d) in *. clearbody t.
  assert (read_groups 7 0 7 (102 :: 102 :: 102 :: 102 :: 58 :: t)
    = ([65535; u16_be a b; u16_be c d], true, [])) as H7.
  { change (read_groups 7 0 7 (102 :: 102 :: 102 :: 102 :: 58 :: t)) with
      (let '(gs, v, s'') := read_groups 6 1 7 (58 :: t) in (65535 :: gs, v, s'')).
    by rewrite H6. }
  change (read_ipv6 (58 :: 58 :: 102 :: 102 :: 102 :: 102 :: 58 :: t)) with
    (let '(tail, _, s4) := read_groups 7 0 7 (102 :: 102 :: 102 :: 102 :: 58 :: t) in
     Some ([] ++ replicate (8 - 0 - length tail) 0 ++ tail, s4)).
  by rewrite H7.
Qed.

Lemma parse_ip_show i : ip_ok i → parse_ip (show_ip i) = Some i.
Proof.
  destruct i as [a b c d|segs]; intros Hok.
  - destruct Hok as (Ha & Hb & Hc & Hd). unfold parse_ip, show_ip.
    rewrite <- (app_nil_r (show_v4 a b c d)). by rewrite read_ipv4_show.
  - destruct (read_ipv6_show segs Hok) as [[Hdot H6]|(x & y & ->)].
    + unfold parse_ip, show_ip. by rewrite read_ipv4_no_dot, H6.
    + destruct Hok as [_ Hs]. inversion_clear Hs as [|? ? _ Hs']. do 5 (inversion_clear Hs' as [|? ? _ Hs]; rename Hs into Hs').
      inversion_clear Hs' as [|? ? Hx Hs]. inversion_clear Hs as [|? ? Hy _].
      destruct (u16_split x Hx) as (Ex & ? & ?), (u16_split y Hy) as (Ey & ? & ?).
      unfold show_ip, show_v6. by rewrite read_mapped, Ex, Ey by done.
Qed.

(** ** Lemmas: MAC addresses *)
Lemma show_hex2_chars b c : byte_ok b → c ∈ show_hex2 b → c ≠ 58 ∧ c ≠ 64 ∧ c ≠ 43.
Proof.
  intros [H1 H2]. unfold U8_MAX, show_hex2, digit_char in *. set_unfold.
  intros [->|[->|[]]]; case_match; Z.div_mod_to_equations; lia.
Qed.

Lemma from_str_radix_hex2 b : byte_ok b → from_str_radix 16 U8_MAX (show_hex2 b) = Some b.
Proof.
  intros [H1 H2]. unfold U8_MAX in *. unfold show_hex2.
  assert (0 ≤ b / 16 < 16 ∧ 0 ≤ b mod 16 < 16) as [Ha Hb] by (Z.div_mod_to_equations; lia).
  unfold from_str_radix.
  assert ((digit_char (b / 16) =? 43) = false) as ->.
  { unfold digit_char. case_match; lia. }
  unfold parse_digits. rewrite !to_digit_char by lia.
  rewrite !(proj2 (Z.leb_le _ _)) by (Z.div_mod_to_equations; lia).
  f_equal. Z.div_mod_to_equations; lia.
Qed.

Lemma parse_mac_show m :
  length m = 6%nat → Forall byte_ok m → parse_mac (join [58] (map show_hex2 m)) = Some m.
Proof.
  intros Hl Hm. unfold parse_mac, split_char.
  rewrite <- Hl. assert (m ≠ []) as Hne by by destruct m.
  destruct (map show_hex2 m) as [|w ws] eqn:E; [by destruct m|].
  rewrite split_join; [|apply Z.eqb_refl|].
  2:{ rewrite <- E. apply Forall_fmap. eapply Forall_impl; [exact Hm|]. intros b Hb.
      apply Forall_forall. intros c Hc. apply Z.eqb_neq.
      by apply show_hex2_chars in Hc as (?&?&?). }
  rewrite <- E, length_map, Nat.eqb_refl. cbn [negb].
  clear -Hm. induction Hm as [|b m Hb _ IH]; [done|]. cbn [map opt_map].
  by rewrite from_str_radix_hex2, IH by done.
Qed.

Lemma mac_string_no_at m :
  Forall byte_ok m → Forall (λ d, d ≠ 64) (join [58] (map show_hex2 m)).
Proof.
  intros Hm. assert (∀ b, byte_ok b → Forall (λ d, d ≠ 64) (show_hex2 b)) as Hb.
  { intros b Hb. apply Forall_forall. intros c Hc.
    by apply show_hex2_chars in Hc as (?&?&?). }
  induction Hm as [|b m Hbok Hm IH]; [done|]. cbn [map join].
  destruct (map show_hex2 m); [by apply Hb|].
  apply Forall_app; split; [by apply Hb|]. by constructor.
Qed.

Lemma client_round_trip c : client_ok c → client_from_str (storage_key c) = Ok c.
Proof.
  intros (Hl & Hm & Hip). unfold client_from_str, storage_key, mac_string. cbn [app].
  rewrite split_once_app by by apply mac_string_no_at.
  rewrite parse_mac_show by done. cbn [ok_or]. rewrite parse_ip_show by done.
  by destruct c.
Qed.

(** ** Lemmas: the parser yields well-formed identities *)
Lemma to_digit_range base c d : to_digit base c = Some d → 0 ≤ d < base.
Proof. unfold to_digit, in_range. repeat case_match; intros; simplify_eq; lia. Qed.

Lemma parse_digits_range base max acc s v :
  0 ≤ base → 0 ≤ acc ≤ max → parse_digits base max acc s = Some v → 0 ≤ v ≤ max.
Proof.
  intros Hb. revert acc. induction s as [|c s IH]; intros acc Ha; cbn [parse_digits];
    [intros; by simplify_eq|].
  destruct (to_digit base c) as [d|] eqn:Ed; [|done]. apply to_digit_range in Ed.
  case_match; [|done]. apply IH. nia.
Qed.

Lemma from_str_radix_range base max s v :
  0 ≤ base → 0 ≤ max → from_str_radix base max s = Some v → 0 ≤ v ≤ max.
Proof.
  intros Hb Hm. unfold from_str_radix. repeat case_match; try done;
    (intros E; apply parse_digits_range in E; lia).
Qed.

Lemma opt_map_spec {A B} (f : A → option B) (P : B → Prop) l l' :
  (∀ x y, f x = Some y → P y) → opt_map f l = Some l' → length l' = length l ∧ Forall P l'.
Proof.
  intros Hf. revert l'. induction l as [|x l IH]; intros l' E; cbn [opt_map] in E;
    [by simplify_eq|].
  destruct (f x) eqn:Ex; [|done]. destruct (opt_map f l); [|done]. simplify_eq.
  destruct (IH _ eq_refl) as [Hl HP]. split; [by cbn; rewrite Hl|]. constructor; eauto.
Qed.

Lemma read_digits_range radix s ds r :
  read_digits radix s = (ds, r) → Forall (λ d, 0 ≤ d < radix) ds.
Proof.
  revert ds r. induction s as [|c s IH]; intros ds r; cbn [read_digits];
    [by intros [= <- <-]|].
  destruct (to_digit radix c) eqn:E; [|by intros [= <- <-]].
  destruct (read_digits radix s). intros [= <- <-].
  constructor; [by eapply to_digit_range|by eapply IH].
Qed.

Lemma read_number_range radix k z max s v r :
  0 ≤ radix → read_number radix k z max s = Some (v, r) → 0 ≤ v ≤ max.
Proof.
  intros Hr. unfold read_number. destruct (read_digits radix s) as [ds r'] eqn:E.
  apply read_digits_range in E.
  assert (∀ acc, 0 ≤ acc → 0 ≤ foldl (λ acc d, acc * radix + d) acc ds) as Hpos.
  { induction E as [|d ds Hd _ IH]; intros acc Ha; [done|]. cbn. apply IH. nia. }
  repeat case_match; intros; simplify_eq. specialize (Hpos 0). lia.
Qed.

Lemma read_separator_inv {A} c i (p : str → option (A * str)) s x r :
  read_separator c i p s = Some (x, r) → ∃ s', p s' = Some (x, r).
Proof.
  unfold read_separator. case_match; [eauto|].
  destruct (read_char c s); cbn; [eauto|done].
Qed.

Lemma read_ipv4_range s a b c d r :
  read_ipv4 s = Some ((a, b, c, d), r) → byte_ok a ∧ byte_ok b ∧ byte_ok c ∧ byte_ok d.
Proof.
  unfold read_ipv4. intros H.
  repeat (apply bind_Some in H as ([? ?] & ?E & H)). simplify_eq.
  repeat match goal with
  | E : read_separator _ _ _ _ = Some _ |- _ => apply read_separator_inv in E as [? E]
  end.
  unfold byte_ok, read_octet in *.
  repeat match goal with
  | E : read_number _ _ _ _ _ = Some _ |- _ => apply read_number_range in E; [|done]
  end. unfold U8_MAX in *. lia.
Qed.

Lemma read_groups_range k i limit s gs v r :
  (k + i = limit)%nat → read_groups k i limit s = (gs, v, r) →
  (length gs ≤ k)%nat ∧ Forall u16_ok gs.
Proof.
  revert i s gs v r. induction k as [|k IH]; intros i s gs v r Hk; cbn [read_groups].
  { intros; simplify_eq. by split. }
  destruct (if (i <? limit - 1)%nat then _ else _) as [[[[[a b] c] d] s']|] eqn:E4.
  - case_match eqn:Hi; [|done]. apply Nat.ltb_lt in Hi.
    apply read_separator_inv in E4 as [? E4].
    apply read_ipv4_range in E4 as (Ha & Hb & Hc & Hd).
    intros; simplify_eq. split; [simpl; lia|].
    unfold u16_ok, byte_ok, U16_MAX, U8_MAX in *.
    repeat constructor; rewrite u16_be_arith by done; lia.
  - destruct (read_separator 58 i (read_number 16 4 true U16_MAX) s) as [[g s']|] eqn:E.
    + destruct (read_groups k (S i) limit s') as [[gs' v'] r'] eqn:E'.
      intros [= <- <- <-]. apply IH in E' as [Hl Hf]; [|lia].
      split; [simpl; lia|]. constructor; [|done].
      apply read_separator_inv in E as [? E]. by eapply (read_number_range 16).
    + intros; simplify_eq. split; [simpl; lia|done].
Qed.

Lemma read_ipv6_range s segs r : read_ipv6 s = Some (segs, r) → ip_ok (V6 segs).
Proof.
  unfold read_ipv6. destruct (read_groups 8 0 8 s) as [[head v] s1] eqn:E.
  apply read_groups_range in E as [Hl Hf]; [|done].
  case_match eqn:H8; [intros; simplify_eq; by apply Nat.eqb_eq in H8|].
  apply Nat.eqb_neq in H8. case_match; [done|]. clear H. intros H.
  apply bind_Some in H as (s2 & _ & H). apply bind_Some in H as (s3 & _ & H).
  destruct (read_groups _ 0 _ s3) as [[tail v'] s4] eqn:E.
  apply read_groups_range in E as [Hl' Hf']; [|lia]. simplify_eq. split.
  - rewrite !length_app, length_replicate. lia.
  - rewrite !Forall_app. split_and!; [done| |done].
    apply Forall_replicate. unfold u16_ok, U16_MAX. lia.
Qed.

Lemma parse_ip_ok s i : parse_ip s = Some i → ip_ok i.
Proof.
  unfold parse_ip. intros H. apply bind_Some in H as ([i' r] & Hi & H).
  destruct r; [|done]. simplify_eq.
  destruct (read_ipv4 s) as [[[[[a b] c] d] r]|] eqn:E.
  - simplify_eq. by apply read_ipv4_range in E.
  - destruct (read_ipv6 s) as [[segs r]|] eqn:E6; [|done]. simplify_eq.
    by eapply read_ipv6_range.
Qed.

Lemma parse_mac_ok s m : parse_mac s = Some m → length m = 6%nat ∧ Forall byte_ok m.
Proof.
  unfold parse_mac. case_match eqn:E; [done|]. intros H.
  eapply opt_map_spec in H as [Hl Hf].
  - split; [|exact Hf]. apply negb_false_iff, Nat.eqb_eq in E. lia.
  - intros x y. unfold byte_ok, U8_MAX. by apply from_str_radix_range.
Qed.

Lemma client_from_str_ok s c : client_from_str s = Ok c → client_ok c.
Proof.
  unfold client_from_str. destruct (split_once 64 s) as [[ms i]|];
    (destruct (parse_mac _) as [m|] eqn:Em; cbn [ok_or]; [|done]);
    apply parse_mac_ok in Em as [Hl Hm].
  - destruct (parse_ip i) eqn:Ei; cbn [ok_or]; [|done].
    apply parse_ip_ok in Ei. intros; simplify_eq. by repeat split.
  - intros; simplify_eq. by repeat split.
Qed.

#[export] Hint Resolve client_from_str_ok client_round_trip : mwaf.

(** A reference without an address names the host 0.0.0.0, and no other host with
    that MAC. *)
Lemma mac_alone_is_host_zero c :
  client_ok c → client_from_str (mac_string c) = Ok (mkClient (mac c) (V4 0 0 0 0)).
Proof.
  intros (Hl & Hb & _). unfold client_from_str, mac_string.
  by rewrite (split_once_None 64) by (by apply mac_string_no_at); rewrite parse_mac_show.
Qed.

(** ** Properties *)

(** C40 (storage_key_parses_back): the text form of a client parses back to the
    same client, for every IPv4 and IPv6 address (compressed and IPv4-mapped
    forms included), so two clients never share a storage key; and whatever
    text the parser accepts, the client it yields is well formed. *)
Theorem storage_key_parses_back c :
  client_ok c →
  client_from_str (storage_key c) = Ok c
  ∧ (∀ c', client_ok c' → storage_key c' = storage_key c → c' = c)
  ∧ (∀ s c', client_from_str s = Ok c' → client_ok c').
Proof.
  intros Hc. split_and!; [by auto with mwaf| |by eauto with mwaf].
  intros c' Hc' E. apply client_round_trip in Hc, Hc'. congruence.
Qed.

Lemma storage_key_parses_back_witness :
  client_from_str (lit "01:02:03:04:05:06@fe80::1")
  = Ok (mkClient [1; 2; 3; 4; 5; 6] (V6 [65152; 0; 0; 0; 0; 0; 0; 1])).
Proof.
  refine (proj1 (storage_key_parses_back
    (mkClient [1; 2; 3; 4; 5; 6] (V6 [65152; 0; 0; 0; 0; 0; 0; 1])) _)).
  vm_compute. repeat split; try discriminate; repeat constructor; discriminate.
Defined.
