(* ===== verification/Rule.v ===== *)
(** Rules ([crates/mw-core/src/rule.rs], [error.rs], [cel_match.rs]): protocol,
    metric and window selectors, rule validation, the rule set, and the CEL
    match context.  The CEL engine itself (crate [cel-interpreter]) is the
    parameter [CelEngine]. *)

From S2P Require Import Prelude Text.

(** ** Selectors *)
Inductive Protocol := Http | WebSocket | Z21 | Withrottle | Udp | Tcp.
Inductive Metric := Requests | Bytes | Connections.
Inductive Window := PerSecond | PerMinute.

#[export] Instance Protocol_eq_dec : EqDecision Protocol.
Proof. solve_decision. Defined.
#[export] Instance Metric_eq_dec : EqDecision Metric.
Proof. solve_decision. Defined.
#[export] Instance Window_eq_dec : EqDecision Window.
Proof. solve_decision. Defined.

Inductive ConfigError :=
| DuplicateRuleId (id : str)
| TooManyRules (count max : nat)
| PortsRequired (id protocol : str)
| InvalidMetric (id metric protocol : str)
| InvalidDropRate (id : str) (rate : Z)
| CelCompile (id msg : str)
| ParseError (msg : str)
| InvalidValue (what : str).

#[export] Instance ConfigError_eq_dec : EqDecision ConfigError.
Proof. solve_decision. Defined.

Definition is_parsed (p : Protocol) : bool :=
  match p with
  | Udp | Tcp => false
  | _ => true
  end.

Definition protocol_as_str (p : Protocol) : str :=
  match p with
  | Http => lit "http"
  | WebSocket => lit "websocket"
  | Z21 => lit "z21"
  | Withrottle => lit "withrottle"
  | Udp => lit "udp"
  | Tcp => lit "tcp"
  end.

Definition metric_as_str (m : Metric) : str :=
  match m with
  | Requests => lit "requests"
  | Bytes => lit "bytes"
  | Connections => lit "connections"
  end.

Definition window_as_str (w : Window) : str :=
  match w with
  | PerSecond => lit "per-second"
  | PerMinute => lit "per-minute"
  end.

Definition window_secs (w : Window) : nat :=
  match w with
  | PerSecond => 1
  | PerMinute => 60
  end.

(** A [match] on string literals: the first arm that lists the text. *)
Fixpoint str_match {A} (arms : list (list string * A)) (s : str) : option A :=
  match arms with
  | [] => None
  | (pats, a) :: arms' =>
      if existsb (λ p, bool_decide (s = lit p)) pats then Some a else str_match arms' s
  end.

Definition protocol_from_str (s : str) : result Protocol ConfigError :=
  let l := to_ascii_lowercase s in
  ok_or (InvalidValue (lit "protocol `" ++ l ++ lit "`"))
    (str_match [(["http"], Http); (["websocket"; "ws"], WebSocket); (["z21"], Z21);
                (["withrottle"; "wt"], Withrottle); (["udp"], Udp); (["tcp"], Tcp)]%string l).

Definition metric_from_str (s : str) : result Metric ConfigError :=
  let l := to_ascii_lowercase s in
  ok_or (InvalidValue (lit "metric `" ++ l ++ lit "`"))
    (str_match [(["requests"], Requests); (["bytes"], Bytes);
                (["connections"], Connections)]%string l).

Definition window_from_str (s : str) : result Window ConfigError :=
  let l := to_ascii_lowercase s in
  ok_or (InvalidValue (lit "window `" ++ l ++ lit "`"))
    (str_match [(["per-second"; "per_second"; "second"; "1s"], PerSecond);
                (["per-minute"; "per_minute"; "minute"; "60s"], PerMinute)]%string l).

Definition valid_for (m : Metric) (p : Protocol) : bool :=
  match p with
  | Udp | Tcp => match m with Connections | Bytes => true | Requests => false end
  | _ => match m with Requests | Bytes => true | Connections => false end
  end.

Inductive Action :=
| Throttle (drop_rate : Z)
| Block.

#[export] Instance Action_eq_dec : EqDecision Action.
Proof. solve_decision. Defined.

(** ** CEL match expressions *)

(** A binding of the match context. *)
Inductive CtxValue :=
| CStr (s : str)
| CInt (i : Z)
| CBool (b : bool)
| CBytes (b : list Z).

(** The values of [cel_interpreter::Value] that the sources build or test. *)
#[warnings="-register-all"]
Inductive CelValue :=
| VString (s : str)
| VInt (i : Z)
| VBool (b : bool)
| VBytes (b : list Z)
| VList (l : list CelValue)
| VMap (m : gmap str CelValue)
| VOther.

(** [cel_interpreter]: [Program::compile] and [Program::execute] on the
    variables of a [Context]; an error is its message. *)
Class CelEngine := {
  Program : Type;
  cel_compile : str → result Program str;
  cel_execute : Program → gmap str CelValue → result CelValue str
}.

Record MatchContext := {
  bindings : gmap str CtxValue;
  sets : gmap str (list str)
}.

Definition empty_ctx : MatchContext := {| bindings := ∅; sets := ∅ |}.

Definition set_binding (k : str) (v : CtxValue) (c : MatchContext) : MatchContext :=
  {| bindings := <[k := v]> (bindings c); sets := sets c |}.
Definition set_str (k v : str) : MatchContext → MatchContext := set_binding k (CStr v).
Definition set_int (k : str) (v : Z) : MatchContext → MatchContext := set_binding k (CInt v).
Definition set_bool (k : str) (v : bool) : MatchContext → MatchContext := set_binding k (CBool v).

Definition to_value (v : CtxValue) : CelValue :=
  match v with
  | CStr s => VString s
  | CInt i => VInt i
  | CBool b => VBool b
  | CBytes b => VBytes b
  end.

Section cel.
Context `{CEL : CelEngine} `{HI : HashIter}.

Record CompiledMatch := { source : str; program : Program }.

Definition compile_match (src : str) : result CompiledMatch str :=
  match cel_compile src with
  | Err e => Err e
  | Ok p => Ok {| source := src; program := p |}
  end.

(** The loop that sorts the bindings into dotted roots and top-level names. *)
Definition bind_step (acc : gmap str (gmap str CelValue) * gmap str CelValue)
    (kv : str * CtxValue) : gmap str (gmap str CelValue) * gmap str CelValue :=
  let '(roots, top) := acc in
  let '(k, v) := kv in
  match split_once 46 k with
  | Some (root, rest) =>
      (<[root := <[rest := to_value v]> (default ∅ (roots !! root))]> roots, top)
  | None => (roots, <[k := to_value v]> top)
  end.

Definition split_bindings (l : list (str * CtxValue)) :
    gmap str (gmap str CelValue) * gmap str CelValue :=
  foldl bind_step (∅, ∅) l.

(** The variables that [eval_match] adds, in its order: roots, then top-level
    names, then [sets] (a later addition replaces an earlier one). *)
Definition cel_variables (ctx : MatchContext) : gmap str CelValue :=
  let '(roots, top) := split_bindings (hiter (bindings ctx)) in
  let sets_map := VMap ((λ ms, VList (map VString ms)) <$> sets ctx) in
  <[lit "sets" := sets_map]> (top ∪ (VMap <$> roots)).

Definition eval_match (prog : CompiledMatch) (ctx : MatchContext) : bool :=
  match cel_execute (program prog) (cel_variables ctx) with
  | Ok (VBool b) => b
  | Ok _ => false
  | Err _ => false
  end.

(** ** Rules *)
Record Rule := {
  r_id : str;
  r_protocol : Protocol;
  r_ports : option (list Z);
  r_metric : Metric;
  r_window : Window;
  r_limit : Z;
  r_action : Action;
  r_min_threshold : Z;
  r_match : option CompiledMatch;
  r_match_src : option str
}.

Definition MAX_RULES : nat := 256.

Definition matches_port (r : Rule) (port : Z) : bool :=
  match r_ports r with
  | None => true
  | Some ports => existsb (Z.eqb port) ports
  end.

Definition ports_missing (o : option (list Z)) : bool :=
  match o with
  | None => true
  | Some p => bool_decide (p = [])
  end.

Definition validate (r : Rule) : result unit ConfigError :=
  if is_parsed (r_protocol r) && ports_missing (r_ports r) then
    Err (PortsRequired (r_id r) (protocol_as_str (r_protocol r)))
  else if negb (valid_for (r_metric r) (r_protocol r)) then
    Err (InvalidMetric (r_id r) (metric_as_str (r_metric r)) (protocol_as_str (r_protocol r)))
  else match r_action r with
       | Throttle drop_rate =>
           if 100 <? drop_rate then Err (InvalidDropRate (r_id r) drop_rate) else Ok ()
       | Block => Ok ()
       end.

Abbreviation RuleSet := (list Rule).

(** The validation loop of [RuleSet::new] over the ids already [seen]. *)
Fixpoint check_rules (seen : gset str) (rs : list Rule) : result unit ConfigError :=
  match rs with
  | [] => Ok ()
  | r :: rs' =>
      match validate r with
      | Err e => Err e
      | Ok _ => if bool_decide (r_id r ∈ seen) then Err (DuplicateRuleId (r_id r))
                else check_rules ({[r_id r]} ∪ seen) rs'
      end
  end.

Definition ruleset_new (rules : list Rule) : result RuleSet ConfigError :=
  if (MAX_RULES <? length rules)%nat then Err (TooManyRules (length rules) MAX_RULES)
  else match check_rules ∅ rules with
       | Err e => Err e
       | Ok _ => Ok rules
       end.

Definition matching (rs : RuleSet) (p : Protocol) (port : Z) : list Rule :=
  filter (λ r, bool_decide (r_protocol r = p) && matches_port r port) rs.

Definition ruleset_get (rs : RuleSet) (id : str) : option Rule :=
  List.find (λ r, bool_decide (r_id r = id)) rs.

(** [match_ok] of the sniffer: no expression matches everything. *)
Definition match_ok (r : Rule) (ctx : MatchContext) : bool :=
  match r_match r with
  | None => true
  | Some prog => eval_match prog ctx
  end.

(** ** Well-formed rules and rule sets *)
Definition rate_ok (a : Action) : Prop :=
  match a with
  | Throttle d => d ≤ 100
  | Block => True
  end.

Definition rule_ok (r : Rule) : Prop :=
  (is_parsed (r_protocol r) = true → ∃ p ps, r_ports r = Some (p :: ps))
  ∧ valid_for (r_metric r) (r_protocol r) = true
  ∧ rate_ok (r_action r).

Definition ruleset_ok (rs : RuleSet) : Prop :=
  (length rs ≤ MAX_RULES)%nat ∧ NoDup (r_id <$> rs) ∧ Forall rule_ok rs.

(** ** Lemmas *)
Lemma ports_missing_false o : ports_missing o = false ↔ ∃ p ps, o = Some (p :: ps).
Proof.
  destruct o as [[|p ps]|]; simpl; split; try done; try (intros (?&?&?); done); eauto.
Qed.

Lemma validate_ok r : validate r = Ok () ↔ rule_ok r.
Proof.
  unfold validate, rule_ok. rewrite <- ports_missing_false.
  destruct (is_parsed (r_protocol r)), (ports_missing (r_ports r)),
    (valid_for (r_metric r) (r_protocol r)), (r_action r) as [d|]; simpl;
    try destruct (Z.ltb_spec 100 d); (split; [intros E|intros (E1 & E2 & E3)]);
    try discriminate; try (exfalso; by auto); try (exfalso; lia); auto.
Qed.

Lemma validate_cases r : validate r = Ok () ∨ ∃ e, validate r = Err e.
Proof. destruct (validate r) as [[]|]; eauto. Qed.

(** The error [RuleSet::new] reports for rule [r] after the rules [pre]. *)
Definition rule_error (pre : list Rule) (r : Rule) : option ConfigError :=
  match validate r with
  | Err e => Some e
  | Ok _ => if bool_decide (r_id r ∈ r_id <$> pre) then Some (DuplicateRuleId (r_id r)) else None
  end.

Lemma check_rules_app seen pre rs :
  check_rules seen pre = Ok () →
  check_rules seen (pre ++ rs) = check_rules (list_to_set (r_id <$> pre) ∪ seen) rs.
Proof.
  revert seen. induction pre as [|r pre IH]; intros seen; csimpl.
  - intros _. f_equal. set_solver.
  - destruct (validate r); [|done]. case_bool_decide; [done|].
    intros Hc. rewrite IH by done. f_equal. set_solver.
Qed.

Lemma check_rules_spec seen rs :
  check_rules seen rs = Ok () ↔
  Forall rule_ok rs ∧ NoDup (r_id <$> rs) ∧ ∀ r, r ∈ rs → r_id r ∉ seen.
Proof.
  revert seen. induction rs as [|r rs IH]; intros seen; csimpl.
  - split; [|done]. intros _. split_and!; [constructor|constructor|]. by intros ? ?%elem_of_nil.
  - rewrite Forall_cons, NoDup_cons, <- validate_ok.
    destruct (validate_cases r) as [->|[e ->]]; [|split; [done|]; intros [[[=] _] _]].
    case_bool_decide as Hin.
    { split; [done|]. intros (_ & _ & H). exfalso. apply (H r); [left|done]. }
    rewrite IH. set_unfold. naive_solver.
Qed.

Lemma check_rules_err seen rs e :
  check_rules seen rs = Err e → ∃ pre r post, rs = pre ++ r :: post ∧
    check_rules seen pre = Ok () ∧
    (validate r = Err e ∨ validate r = Ok () ∧ e = DuplicateRuleId (r_id r) ∧
       (r_id r ∈ r_id <$> pre ∨ r_id r ∈ seen)).
Proof.
  revert seen. induction rs as [|r rs IH]; intros seen; cbn [check_rules]; [done|].
  destruct (validate_cases r) as [Hv|[e' Hv]]; rewrite Hv.
  - case_bool_decide as Hin.
    + intros [= <-]. exists [], r, rs. naive_solver.
    + intros (pre & r' & post & -> & Hpre & H)%IH. exists (r :: pre), r', post.
      csimpl. rewrite Hv, bool_decide_eq_false_2 by done.
      set_unfold. naive_solver.
  - intros [= <-]. exists [], r, rs. naive_solver.
Qed.

Lemma ruleset_new_ok rs rs' : ruleset_new rs = Ok rs' → rs' = rs ∧ ruleset_ok rs.
Proof.
  unfold ruleset_new, ruleset_ok. case_match eqn:Hl; [done|].
  destruct (check_rules ∅ rs) as [[]|] eqn:E; [|done]. intros [= <-].
  apply check_rules_spec in E as (? & ? & _). apply Nat.ltb_ge in Hl. done.
Qed.

Lemma matching_spec rs p port r :
  r ∈ matching rs p port ↔ r ∈ rs ∧ r_protocol r = p ∧ matches_port r port = true.
Proof.
  unfold matching. rewrite list_elem_of_filter, Is_true_true, andb_true_iff, bool_decide_eq_true.
  naive_solver.
Qed.

(** [split_once] recovers the text it split. *)
Lemma split_once_Some c s a b : split_once c s = Some (a, b) → s = a ++ c :: b.
Proof.
  revert a. induction s as [|d s IH]; intros a; cbn [split_once]; [done|].
  destruct (Z.eqb_spec d c) as [->|].
  - by intros [= <- <-].
  - destruct (split_once c s) as [[a' b']|]; [|done]. intros [= <- <-].
    by rewrite (IH a').
Qed.

Lemma bind_step_comm acc kv kv' :
  kv.1 ≠ kv'.1 → bind_step (bind_step acc kv) kv' = bind_step (bind_step acc kv') kv.
Proof.
  destruct acc as [roots top], kv as [k v], kv' as [k' v']. simpl. intros Hk.
  destruct (split_once 46 k) as [[ro re]|] eqn:E, (split_once 46 k') as [[ro' re']|] eqn:E';
    simpl; rewrite ?E, ?E'; try done.
  - f_equal. apply split_once_Some in E, E'. destruct (decide (ro = ro')) as [->|Hne].
    + rewrite !lookup_insert_eq, !insert_insert_eq. simpl. f_equal.
      apply insert_insert_ne. intros ->. by subst.
    + rewrite !lookup_insert_ne by done. by apply insert_insert_ne.
  - f_equal. by apply insert_insert_ne.
Qed.

Lemma split_bindings_perm l l' :
  NoDup l.*1 → l ≡ₚ l' → split_bindings l = split_bindings l'.
Proof.
  intros Hnd Hp. unfold split_bindings.
  apply (foldl_perm_keys fst); [|done..]. intros; by apply bind_step_comm.
Qed.

Lemma split_bindings_in l k v root rest :
  NoDup l.*1 → (k, v) ∈ l → split_once 46 k = Some (root, rest) →
  ∃ m, (split_bindings l).1 !! root = Some m ∧ m !! rest = Some (to_value v).
Proof.
  intros Hnd (l1 & l2 & ->)%list_elem_of_split Hk.
  rewrite (split_bindings_perm _ ((l1 ++ l2) ++ [(k, v)])).
  - unfold split_bindings. rewrite foldl_app. destruct (foldl _ _ (l1 ++ l2)) as [ro to].
    cbn. rewrite Hk. cbn. rewrite lookup_insert_eq. eexists. split; [done|].
    by rewrite lookup_insert_eq.
  - done.
  - rewrite <- app_assoc. apply Permutation_app_head. apply Permutation_cons_append.
Qed.

Lemma split_bindings_top l k : k ∉ l.*1 → (split_bindings l).2 !! k = None.
Proof.
  induction l as [|[k' v'] l IH] using rev_ind; intros Hk; [apply lookup_empty|].
  rewrite fmap_app, not_elem_of_app in Hk. destruct Hk as [Hk Hk'].
  specialize (IH Hk). unfold split_bindings in *. rewrite foldl_app.
  destruct (foldl _ _ l) as [ro to]. cbn in *.
  destruct (split_once 46 k') as [[? ?]|] eqn:E; cbn; [done|].
  rewrite lookup_insert_ne; [done|]. set_solver.
Qed.
End cel.

Abbreviation RuleSet := (list Rule).

(** ** Properties *)

(** [RuleSet::new] accepts exactly the well-formed rule
    lists (at most 256 rules, distinct ids, each rule valid) and returns them
    unchanged; otherwise it reports the size error, or the error of the first
    rule that is invalid or repeats an earlier id. *)
Theorem ruleset_new_spec `{CEL : CelEngine} (rs : list Rule) :
  (∀ rs', ruleset_new rs = Ok rs' ↔ rs' = rs ∧ ruleset_ok rs)
  ∧ (∀ e, ruleset_new rs = Err e ↔
       ((MAX_RULES < length rs)%nat ∧ e = TooManyRules (length rs) MAX_RULES)
       ∨ ((length rs ≤ MAX_RULES)%nat ∧ ∃ pre r post,
            rs = pre ++ r :: post ∧ ruleset_ok pre ∧ rule_error pre r = Some e)).
Proof.
  unfold ruleset_ok. split.
  - intros rs'. split; [apply ruleset_new_ok|]. intros (-> & Hl & Hnd & Hok).
    unfold ruleset_new. rewrite (proj2 (Nat.ltb_ge _ _)) by done.
    by rewrite (proj2 (check_rules_spec ∅ rs)).
  - intros e. unfold ruleset_new, rule_error.
    destruct (Nat.ltb_spec MAX_RULES (length rs)) as [Hl|Hl]; [naive_solver lia|].
    split.
    + destruct (check_rules ∅ rs) as [|e'] eqn:E; [done|]. intros [= ->]. right.
      split; [done|]. apply check_rules_err in E as (pre & r & post & -> & Hpre & He).
      exists pre, r, post. apply check_rules_spec in Hpre as (? & ? & _).
      rewrite length_app in Hl. split_and!; try done; [lia|].
      destruct He as [->|(-> & -> & [Hin|[]%not_elem_of_empty])]; [done|].
      by rewrite bool_decide_eq_true_2.
    + intros [[? _]|(_ & pre & r & post & -> & (_ & Hnd & Hok) & He)]; [lia|].
      rewrite check_rules_app by by apply check_rules_spec; set_solver.
      cbn [check_rules]. destruct (validate r); [|by simplify_eq].
      case_bool_decide; [|done]. simplify_eq.
      rewrite bool_decide_eq_true_2; [done|]. set_solver.
Qed.

(** the truth of a [match] expression does
    not depend on the hash order in which the bindings are visited; a binding
    [root.rest] is visible to the engine as field [rest] of the map variable
    [root] (unless [root] is the reserved name [sets] or a top-level name); and
    an engine error or a non-boolean result counts as no match. *)
Theorem match_context_deterministic `{CEL : CelEngine} (H1 H2 : HashIter)
    (prog : CompiledMatch) (ctx : MatchContext) :
  @eval_match CEL H1 prog ctx = @eval_match CEL H2 prog ctx
  ∧ (∀ k v root rest,
       bindings ctx !! k = Some v → split_once 46 k = Some (root, rest) →
       root ≠ lit "sets" → bindings ctx !! root = None →
       ∃ m, @cel_variables H1 ctx !! root = Some (VMap m) ∧ m !! rest = Some (to_value v))
  ∧ (@eval_match CEL H1 prog ctx = true ↔
       cel_execute (program prog) (@cel_variables H1 ctx) = Ok (VBool true)).
Proof.
  assert (@cel_variables H1 ctx = @cel_variables H2 ctx) as Hvars.
  { unfold cel_variables. rewrite (split_bindings_perm _ (@hiter H2 _ _ _ _ (bindings ctx)));
      [done|apply hiter_NoDup|]. by rewrite !hiter_perm. }
  split_and!.
  - unfold eval_match. by rewrite Hvars.
  - clear H2 Hvars. intros k v root rest Hk Hs Hne Hroot. unfold cel_variables.
    pose proof (hiter_NoDup (bindings ctx)) as Hnd. apply hiter_elem in Hk.
    destruct (split_bindings_in _ _ _ _ _ Hnd Hk Hs) as (m & Hm & Hr).
    assert ((split_bindings (hiter (bindings ctx))).2 !! root = None) as Htop.
    { apply split_bindings_top. intros ([? ?] & -> & Hin)%list_elem_of_fmap.
      apply hiter_elem in Hin. simpl in *. congruence. }
    destruct (split_bindings _) as [ro to]. exists m. split; [|done].
    rewrite lookup_insert_ne by done. cbn in Hm, Htop.
    rewrite lookup_union_r by done. by rewrite lookup_fmap, Hm.
  - unfold eval_match. destruct (cel_execute _ _) as [[]|]; naive_solver.
Qed.

(** Every protocol, metric and window parses
    back from the name it prints, parsing ignores ASCII case, and a text that
    names nothing is an [InvalidValue] error. *)
Theorem selector_names_round_trip :
  (∀ p, protocol_from_str (protocol_as_str p) = Ok p)
  ∧ (∀ m, metric_from_str (metric_as_str m) = Ok m)
  ∧ (∀ w, window_from_str (window_as_str w) = Ok w)
  ∧ (∀ a b, eq_ignore_ascii_case a b = true →
       protocol_from_str a = protocol_from_str b ∧ metric_from_str a = metric_from_str b
       ∧ window_from_str a = window_from_str b)
  ∧ (∀ s e, protocol_from_str s = Err e ∨ metric_from_str s = Err e ∨ window_from_str s = Err e →
       ∃ what, e = InvalidValue what).
Proof.
  split_and!; try (by intros []; vm_compute).
  - intros a b Hab%bool_decide_eq_true.
    unfold protocol_from_str, metric_from_str, window_from_str. by rewrite Hab.
  - intros s e. unfold protocol_from_str, metric_from_str, window_from_str, ok_or.
    intros [H|[H|H]]; case_match; simplify_eq; eauto.
Qed.
