(* ===== verification/Window.v ===== *)
(** Sliding windows ([crates/mw-core/src/window.rs]): a ring of 60 one-second
    buckets per (client, rule), refined to a shift register, and the time span
    that a window sum really covers. *)

From Stdlib Require Import ZifyNat.
From S2P Require Import Prelude Text Rule.

(** ** Data and operations *)
Record Bucket := mkBucket { b_requests : Z; b_bytes : Z; b_connections : Z }.

Definition bucket0 : Bucket := mkBucket 0 0 0.

Definition bucket_get (b : Bucket) (m : Metric) : Z :=
  match m with
  | Requests => b_requests b
  | Bytes => b_bytes b
  | Connections => b_connections b
  end.

Definition bucket_add (b : Bucket) (m : Metric) (delta : Z) : Bucket :=
  match m with
  | Requests => mkBucket (sat_add (b_requests b) delta) (b_bytes b) (b_connections b)
  | Bytes => mkBucket (b_requests b) (sat_add (b_bytes b) delta) (b_connections b)
  | Connections => mkBucket (b_requests b) (b_bytes b) (sat_add (b_connections b) delta)
  end.

Record SlidingWindow := mkWindow {
  buckets : list Bucket;
  cursor : nat;
  last_advance : Z
}.

Definition sw_new (now : Z) : SlidingWindow := mkWindow (replicate 60 bucket0) 0 now.

(** The body of the loop in [SlidingWindow::advance]; the index is below 60,
    the length of the array. *)
Definition advance_step (bc : list Bucket * nat) : list Bucket * nat :=
  let cursor := (Nat.modulo (bc.2 + 1) 60) in
  (<[cursor := bucket0]> bc.1, cursor).

Definition sw_advance (w : SlidingWindow) (now : Z) : SlidingWindow :=
  let elapsed := as_secs (sat_since now (last_advance w)) in
  if elapsed =? 0 then w
  else
    let steps := Z.to_nat (Z.min elapsed 60) in
    let '(bs, c) := Nat.iter steps advance_step (buckets w, cursor w) in
    mkWindow bs c now.

(** [buckets[cursor]] panics when the cursor is out of range. *)
Definition sw_add (w : SlidingWindow) (m : Metric) (delta now : Z) : option SlidingWindow :=
  let w := sw_advance w now in
  b ← buckets w !! cursor w;
  Some (mkWindow (<[cursor w := bucket_add b m delta]> (buckets w)) (cursor w) (last_advance w)).

Definition sw_sum (w : SlidingWindow) (m : Metric) (secs : nat) : Z :=
  let n := Nat.min (Nat.max secs 1) 60 in
  foldl (λ total i,
    let idx := Nat.modulo (cursor w + 60 - i) 60 in
    sat_add total (bucket_get (default bucket0 (buckets w !! idx)) m)) 0 (seq 0 n).

(** [RuleWindows]: lazily created windows by rule id. *)
Abbreviation RuleWindows := (gmap str SlidingWindow).

Definition rw_add (rw : RuleWindows) (rule_id : str) (m : Metric) (delta now : Z) :
    option RuleWindows :=
  w ← sw_add (default (sw_new now) (rw !! rule_id)) m delta now;
  Some (<[rule_id := w]> rw).

Definition rw_sum (rw : RuleWindows) (rule_id : str) (m : Metric) (secs : nat) : Z :=
  match rw !! rule_id with
  | Some w => sw_sum w m secs
  | None => 0
  end.

Definition rw_advance_all (rw : RuleWindows) (now : Z) : RuleWindows :=
  (λ w, sw_advance w now) <$> rw.

(** ** Evaluation ([RuleEngine::evaluate]) *)
Record Violation := mkViolation {
  v_rule_id : str;
  v_value : Z;
  v_limit : Z;
  v_action : Action
}.

Definition evaluate `{CEL : CelEngine} (rules : RuleSet) (per_rule : RuleWindows) :
    list Violation :=
  omap (λ r,
    let value := rw_sum per_rule (r_id r) (r_metric r) (window_secs (r_window r)) in
    if r_limit r <? value
    then Some (mkViolation (r_id r) value (r_limit r) (r_action r)) else None) rules.

(** ** Well-formed windows *)
Definition bucket_ok (b : Bucket) : Prop :=
  u64_ok (b_requests b) ∧ u64_ok (b_bytes b) ∧ u64_ok (b_connections b).

Definition window_ok (w : SlidingWindow) : Prop :=
  length (buckets w) = 60%nat ∧ (cursor w < 60)%nat ∧ Forall bucket_ok (buckets w).

Definition windows_ok (rw : RuleWindows) : Prop := map_Forall (λ _, window_ok) rw.

(** ** Abstract specification: a shift register, newest bucket first *)
Definition view (w : SlidingWindow) : list Bucket :=
  (λ i, default bucket0 (buckets w !! Nat.modulo (cursor w + 60 - i) 60)) <$> seq 0 60.

Definition shift (k : nat) (v : list Bucket) : list Bucket :=
  take 60 (replicate k bucket0 ++ v).

Arguments view : simpl never.
Arguments shift : simpl never.

Definition add_head (m : Metric) (delta : Z) (v : list Bucket) : list Bucket :=
  match v with
  | [] => []
  | b :: v' => bucket_add b m delta :: v'
  end.

(** ** Lemmas *)
Lemma as_secs_nonneg d : 0 ≤ d → 0 ≤ as_secs d.
Proof. intros. unfold as_secs, NS. apply Z.div_pos; lia. Qed.

Lemma bucket0_ok : bucket_ok bucket0.
Proof. unfold bucket_ok, u64_ok, U64_MAX. simpl. lia. Qed.

Lemma bucket_get_ok b m : bucket_ok b → u64_ok (bucket_get b m).
Proof. intros (?&?&?). by destruct m. Qed.

Lemma bucket_add_ok b m d : bucket_ok b → 0 ≤ d → bucket_ok (bucket_add b m d).
Proof.
  intros (H1&H2&H3) Hd. assert (∀ z, u64_ok z → u64_ok (sat_add z d)) as H.
  { intros z [? ?]. by apply sat_add_ok. }
  destruct m; split_and!; simpl; auto.
Qed.

#[export] Hint Resolve bucket0_ok bucket_get_ok bucket_add_ok : mwaf.

Lemma view_length w : length (view w) = 60%nat.
Proof. unfold view. by rewrite length_fmap, length_seq. Qed.

Lemma view_lookup w i : (i < 60)%nat →
  view w !! i = Some (default bucket0 (buckets w !! Nat.modulo (cursor w + 60 - i) 60)).
Proof. intros. unfold view. rewrite list_lookup_fmap, lookup_seq_lt by done. done. Qed.

Ltac mod60 := zify; Z.div_mod_to_equations; lia.

Lemma advance_step_view bs c t :
  length bs = 60%nat → (c < 60)%nat →
  let '(bs', c') := advance_step (bs, c) in
  view (mkWindow bs' c' t) = shift 1 (view (mkWindow bs c t)) ∧ length bs' = 60%nat ∧ (c' < 60)%nat.
Proof.
  intros Hl Hc. unfold advance_step, shift. cbn [fst snd].
  split_and!; [|by rewrite length_insert|mod60].
  assert (∃ c1, Nat.modulo (c + 1) 60 = c1 ∧ (c1 < 60)%nat ∧
    ((c + 1 < 60)%nat ∧ c1 = (c + 1)%nat ∨ c = 59%nat ∧ c1 = 0%nat)) as (c1 & -> & Hc1 & Hcc)
    by (eexists; split; [done|]; mod60).
  apply list_eq. intros i. destruct (decide (i < 60)%nat) as [Hi|].
  2:{ rewrite !lookup_ge_None_2; [done| |rewrite view_length; lia].
      rewrite length_take, length_app, length_replicate, view_length. lia. }
  rewrite lookup_take_lt, view_lookup by done. cbn [buckets cursor].
  destruct i as [|i].
  - replace (Nat.modulo (c1 + 60 - 0) 60) with c1 by mod60.
    rewrite list_lookup_insert_eq; [done|]. lia.
  - cbn [replicate app lookup list_lookup]. rewrite view_lookup by lia. cbn [buckets cursor].
    assert (Nat.modulo (c1 + 60 - S i) 60 = Nat.modulo (c + 60 - i) 60) as E by mod60.
    rewrite E, list_lookup_insert_ne; [done|]. rewrite <- E. mod60.
Qed.

Lemma shift_shift j k v : length v = 60%nat → shift j (shift k v) = shift (j + k) v.
Proof.
  intros Hv. unfold shift. rewrite replicate_add, <- app_assoc. apply list_eq. intros i.
  destruct (decide (i < 60)%nat) as [Hi|].
  - rewrite !lookup_take_lt by done. destruct (decide (i < j)%nat).
    + by rewrite !lookup_app_l by by rewrite length_replicate.
    + rewrite !lookup_app_r by (rewrite length_replicate; lia).
      rewrite lookup_take_lt; [done|]. rewrite length_replicate. lia.
  - rewrite !lookup_ge_None_2; [done|..]; rewrite length_take; lia.
Qed.

Lemma shift_0 v : length v = 60%nat → shift 0 v = v.
Proof. intros Hv. unfold shift. cbn. rewrite <- Hv. apply firstn_all. Qed.

Lemma shift_length k v : length v = 60%nat → length (shift k v) = 60%nat.
Proof. intros. unfold shift. rewrite length_take, length_app, length_replicate. lia. Qed.

Lemma shift_60 k v : (60 ≤ k)%nat → shift k v = replicate 60 bucket0.
Proof.
  intros. unfold shift. rewrite take_app_le by (rewrite length_replicate; lia).
  rewrite take_replicate. f_equal. lia.
Qed.

Lemma advance_iter_view k bs c t :
  length bs = 60%nat → (c < 60)%nat →
  let '(bs', c') := Nat.iter k advance_step (bs, c) in
  view (mkWindow bs' c' t) = shift k (view (mkWindow bs c t)) ∧ length bs' = 60%nat ∧ (c' < 60)%nat.
Proof.
  intros Hl Hc. induction k as [|k IH].
  - cbn. split_and!; [|done..]. symmetry. apply shift_0, view_length.
  - cbn [Nat.iter nat_rect]. destruct (Nat.iter k advance_step (bs, c)) as [bs1 c1] eqn:E.
    unfold Nat.iter in E. rewrite E. destruct IH as (Hv & Hl1 & Hc1).
    pose proof (advance_step_view bs1 c1 t Hl1 Hc1) as H.
    destruct (advance_step (bs1, c1)) as [bs' c']. destruct H as (-> & ? & ?).
    split_and!; [|done..]. by rewrite Hv, shift_shift by apply view_length.
Qed.

Lemma view_time bs c t t' : view (mkWindow bs c t) = view (mkWindow bs c t').
Proof. done. Qed.

(** Whole seconds elapsed at [now]. *)
Definition elapsed_secs (w : SlidingWindow) (now : Z) : nat :=
  Z.to_nat (as_secs (sat_since now (last_advance w))).

Lemma sw_advance_view w now :
  length (buckets w) = 60%nat → (cursor w < 60)%nat →
  let w' := sw_advance w now in
  view w' = shift (elapsed_secs w now) (view w)
  ∧ length (buckets w') = 60%nat ∧ (cursor w' < 60)%nat
  ∧ last_advance w' = if (elapsed_secs w now =? 0)%nat then last_advance w else now.
Proof.
  intros Hl Hc. unfold sw_advance, elapsed_secs.
  pose proof (as_secs_nonneg (sat_since now (last_advance w))
    ltac:(unfold sat_since; lia)) as Hnn.
  destruct (Z.eqb_spec (as_secs (sat_since now (last_advance w))) 0) as [->|Hne].
  - cbn. split_and!; [|done..]. symmetry. apply shift_0, view_length.
  - set (e := as_secs _) in *.
    pose proof (advance_iter_view (Z.to_nat (Z.min e 60)) (buckets w) (cursor w) now Hl Hc) as H.
    destruct (Nat.iter _ _ _) as [bs' c']. destruct H as (Hv & ? & ?). cbn.
    rewrite (proj2 (Nat.eqb_neq _ _)) by lia. split_and!; [|done..].
    rewrite Hv, (view_time _ _ _ (last_advance w)). destruct w as [bs c la]. cbn.
    destruct (Z.min_spec e 60) as [[? ->]|[? ->]]; [done|].
    rewrite !shift_60 by lia. done.
Qed.

Lemma view_ok w : Forall bucket_ok (buckets w) → Forall bucket_ok (view w).
Proof.
  intros H. apply Forall_fmap, Forall_forall. intros i _. cbn.
  destruct (buckets w !! _) as [b|] eqn:E; cbn; [|apply bucket0_ok].
  by eapply Forall_lookup_1 in E.
Qed.

Lemma advance_iter_ok k bs c :
  Forall bucket_ok bs → Forall bucket_ok (Nat.iter k advance_step (bs, c)).1.
Proof.
  intros H. induction k as [|k IH]; [done|]. cbn. apply Forall_insert; [done|apply bucket0_ok].
Qed.

Lemma sw_new_ok now : window_ok (sw_new now).
Proof.
  split_and!; [done|cbn; lia|]. apply (Forall_replicate _ 60), bucket0_ok.
Qed.

Lemma sw_advance_ok w now : window_ok w → window_ok (sw_advance w now).
Proof.
  intros (Hl & Hc & Hb). destruct (sw_advance_view w now Hl Hc) as (_ & ? & ? & _).
  split_and!; [done..|]. unfold sw_advance. case_match; [done|].
  pose proof (advance_iter_ok (Z.to_nat (Z.min (as_secs (sat_since now (last_advance w))) 60))
    (buckets w) (cursor w) Hb) as Hi.
  by destruct (Nat.iter _ _ _).
Qed.

Lemma sw_add_view w m d now :
  window_ok w → 0 ≤ d →
  ∃ w', sw_add w m d now = Some w' ∧ window_ok w'
    ∧ last_advance w' = last_advance (sw_advance w now)
    ∧ view w' = add_head m d (shift (elapsed_secs w now) (view w)).
Proof.
  intros Hw Hd. pose proof (sw_advance_ok w now Hw) as (Hl1 & Hc1 & Hb1).
  destruct Hw as (Hl & Hc & Hb).
  destruct (sw_advance_view w now Hl Hc) as (Hv & _ & _ & _). rewrite <- Hv. clear Hv.
  unfold sw_add. set (w1 := sw_advance w now) in *.
  destruct (lookup_lt_is_Some_2 (buckets w1) (cursor w1)) as [b Hb1']; [lia|].
  rewrite Hb1'. cbn. eexists. split; [done|].
  assert (bucket_ok b) as Hbok by by eapply Forall_lookup_1 in Hb1'.
  split_and!; [split_and!; [cbn; by rewrite length_insert|done|]|done|].
  { apply Forall_insert; [done|]. by apply bucket_add_ok. }
  apply list_eq. intros i. destruct (decide (i < 60)%nat) as [Hi|].
  2:{ rewrite !lookup_ge_None_2; [done| |rewrite view_length; lia].
      destruct (view w1) eqn:E; cbn; [lia|]. apply (f_equal length) in E.
      rewrite view_length in E. cbn in E. lia. }
  rewrite view_lookup by done. cbn [buckets cursor].
  assert (view w1 !! i = Some (default bucket0
    (buckets w1 !! Nat.modulo (cursor w1 + 60 - i) 60))) as Hvi by by apply view_lookup.
  assert (view w1 !! 0%nat = Some b) as Hv0.
  { rewrite view_lookup by lia.
    replace (Nat.modulo (cursor w1 + 60 - 0) 60) with (cursor w1) by mod60. by rewrite Hb1'. }
  destruct (view w1) as [|b' v'] eqn:Ev; [done|]. cbn in Hv0. simplify_eq. cbn [add_head].
  destruct i as [|i].
  - replace (Nat.modulo (cursor w1 + 60 - 0) 60) with (cursor w1) by mod60.
    by rewrite list_lookup_insert_eq by lia.
  - rewrite list_lookup_insert_ne by mod60. by rewrite <- Hvi.
Qed.

(** A window sum is the saturated sum of the newest buckets. *)
Lemma sw_sum_view w m n :
  Forall bucket_ok (buckets w) → (1 ≤ n ≤ 60)%nat →
  sw_sum w m n = Z.min U64_MAX (sumZ ((λ b, bucket_get b m) <$> take n (view w))).
Proof.
  intros Hb Hn. unfold sw_sum. replace (Nat.min (Nat.max n 1) 60) with n by lia.
  assert (take n (view w) = (λ i, default bucket0
    (buckets w !! Nat.modulo (cursor w + 60 - i) 60)) <$> seq 0 n) as Ht.
  { unfold view. rewrite <- fmap_take, take_seq. do 2 f_equal. lia. }
  transitivity (foldl sat_add 0 ((λ b, bucket_get b m) <$> take n (view w))).
  { by rewrite Ht, !foldl_fmap. }
  assert (Forall bucket_ok (take n (view w))) as Hv by by apply Forall_take, view_ok.
  apply foldl_sat_add; [unfold U64_MAX; lia|].
  apply Forall_fmap. eapply Forall_impl; [exact Hv|].
  intros b Hbk. by apply (bucket_get_ok _ m) in Hbk as [? _].
Qed.

(** A window that is advanced to [now] advances no further at [now]. *)
Lemma sw_advance_elapsed w now : window_ok w → elapsed_secs (sw_advance w now) now = 0%nat.
Proof.
  intros (Hl & Hc & _). destruct (sw_advance_view w now Hl Hc) as (_ & _ & _ & Hla).
  unfold elapsed_secs at 1. rewrite Hla. destruct (Nat.eqb_spec (elapsed_secs w now) 0) as [E|].
  - exact E.
  - unfold sat_since. rewrite Z.sub_diag. done.
Qed.

Lemma sw_new_elapsed now : elapsed_secs (sw_new now) now = 0%nat.
Proof. unfold elapsed_secs, sw_new, sat_since. cbn [last_advance]. rewrite Z.sub_diag. done. Qed.

Lemma add_head_0 m v : Forall bucket_ok v → add_head m 0 v = v.
Proof.
  destruct v as [|[q b k] v]; [done|]. intros [(H1 & H2 & H3) _]%Forall_cons. cbn in *.
  destruct m; cbn; by rewrite sat_add_0_r.
Qed.

(** [add] on a window already advanced to [now]. *)
Lemma sw_add_now w m d now :
  window_ok w → elapsed_secs w now = 0%nat → 0 ≤ d →
  ∃ w', sw_add w m d now = Some w' ∧ window_ok w' ∧ elapsed_secs w' now = 0%nat
    ∧ view w' = add_head m d (view w).
Proof.
  intros Hw He Hd. destruct (sw_add_view w m d now Hw Hd) as (w' & E & Hw' & Hla & Hv).
  rewrite He, shift_0 in Hv by apply view_length. exists w'. split_and!; [done..| |done].
  unfold elapsed_secs. rewrite Hla. by apply sw_advance_elapsed.
Qed.

(** *** Windows with their history

    [hist] lists the adds of one metric as (time, delta, age), the age being
    the number of buckets the window moved since. *)
Abbreviation hist := (list (Z * Z * nat)).

Definition age_sum (h : hist) (p : Z → nat → bool) : Z :=
  sumZ (map (λ e : Z * Z * nat, if p e.1.1 e.2 then e.1.2 else 0) h).

Definition tracks (w : SlidingWindow) (m : Metric) (h : hist) : Prop :=
  Forall (λ e : Z * Z * nat, 0 ≤ e.1.2) h
  ∧ (∀ i b, view w !! i = Some b →
       bucket_get b m = Z.min U64_MAX (age_sum h (λ _ a, (a =? i)%nat)))
  ∧ Forall (λ e : Z * Z * nat,
       (Z.of_nat e.2 - 1) * NS < last_advance w - e.1.1 ≤ 2 * Z.of_nat e.2 * NS) h.

Definition age_by (k : nat) (h : hist) : hist := map (λ e : Z * Z * nat, (e.1, (e.2 + k)%nat)) h.

Lemma age_by_times k h : (age_by k h).*1 = h.*1.
Proof. unfold age_by. by rewrite <- list_fmap_compose. Qed.

Lemma age_sum_ext h p q :
  (∀ t a, p t a = q t a) → age_sum h p = age_sum h q.
Proof. intros E. unfold age_sum. f_equal. apply map_ext. intros e. by rewrite E. Qed.

Lemma age_sum_nonneg h p : Forall (λ e : Z * Z * nat, 0 ≤ e.1.2) h → 0 ≤ age_sum h p.
Proof. induction 1; cbn; [lia|]. unfold age_sum in *. case_match; cbn in *; lia. Qed.

Lemma age_sum_le h p q :
  Forall (λ e : Z * Z * nat, 0 ≤ e.1.2 ∧ (p e.1.1 e.2 = true → q e.1.1 e.2 = true)) h →
  age_sum h p ≤ age_sum h q.
Proof.
  unfold age_sum. induction 1 as [|e h [H0 Hpq] _ IH]; cbn; [lia|].
  destruct (p e.1.1 e.2); [rewrite Hpq by done|]; repeat case_match; lia.
Qed.

Lemma age_sum_age_by h k p : age_sum (age_by k h) p = age_sum h (λ t a, p t (a + k)%nat).
Proof. unfold age_sum, age_by. rewrite map_map. done. Qed.

Lemma age_sum_split h n :
  Forall (λ e : Z * Z * nat, 0 ≤ e.1.2) h →
  Z.min U64_MAX (sumZ (map (λ i, Z.min U64_MAX (age_sum h (λ _ a, (a =? i)%nat))) (seq 0 n)))
  = Z.min U64_MAX (age_sum h (λ _ a, (a <? n)%nat)).
Proof.
  intros Hh. induction n as [|n IH].
  - assert (age_sum h (λ _ a, (a <? 0)%nat) = 0) as ->; [|done].
    unfold age_sum. clear. induction h as [|e h IH]; [done|]. cbn [map sumZ]. by rewrite IH.
  - rewrite seq_S, map_app. cbn [map Nat.add].
    assert (∀ l l', sumZ (l ++ l') = sumZ l + sumZ l') as Happ.
    { intros l l'. induction l; cbn; lia. }
    rewrite Happ. cbn [sumZ]. set (s := sumZ _) in *.
    assert (age_sum h (λ _ a, (a <? S n)%nat)
      = age_sum h (λ _ a, (a <? n)%nat) + age_sum h (λ _ a, (a =? n)%nat)) as ->.
    { unfold age_sum. clear. induction h as [|e h IH]; [done|]. cbn [map sumZ]. rewrite IH. destruct (Nat.ltb_spec e.2 (S n)), (Nat.ltb_spec e.2 n),
        (Nat.eqb_spec e.2 n); lia. }
    pose proof (age_sum_nonneg h (λ _ a, (a =? n)%nat) Hh).
    pose proof (age_sum_nonneg h (λ _ a, (a <? n)%nat) Hh).
    assert (0 ≤ s).
    { apply sumZ_nonneg, Forall_forall. intros z (i & -> & _)%list_elem_of_fmap.
      pose proof (age_sum_nonneg h (λ _ a, (a =? i)%nat) Hh). unfold U64_MAX. lia. }
    unfold U64_MAX in *. lia.
Qed.

Lemma elapsed_bounds w now :
  last_advance w ≤ now →
  Z.of_nat (elapsed_secs w now) * NS ≤ now - last_advance w
    < (Z.of_nat (elapsed_secs w now) + 1) * NS.
Proof.
  intros Hle. unfold elapsed_secs, sat_since. rewrite Z.max_r by lia.
  unfold as_secs, NS. rewrite Z2Nat.id by (apply Z.div_pos; lia).
  Z.div_mod_to_equations. lia.
Qed.

Lemma tracks_advance w m h now :
  window_ok w → tracks w m h → last_advance w ≤ now →
  let w' := sw_advance w now in
  tracks w' m (age_by (elapsed_secs w now) h)
  ∧ last_advance w' ≤ now < last_advance w' + NS.
Proof.
  intros (Hl & Hc & Hb) (Hpos & Hv & Hage) Hle.
  destruct (sw_advance_view w now Hl Hc) as (Hview & _ & _ & Hla).
  pose proof (elapsed_bounds w now Hle) as He. cbn zeta in *.
  set (k := elapsed_secs w now) in *.
  assert (last_advance (sw_advance w now) ≤ now < last_advance (sw_advance w now) + NS) as Hnow.
  { rewrite Hla. destruct (Nat.eqb_spec k 0) as [E|]; unfold NS in *; [|lia].
    rewrite E in He. lia. }
  split; [|done]. unfold tracks. split_and!.
  - apply Forall_fmap. eapply Forall_impl; [exact Hpos|]. done.
  - intros i b Hi. rewrite age_sum_age_by. rewrite Hview in Hi. unfold shift in Hi.
    apply lookup_take_Some in Hi as [Hi Hi60]. apply lookup_app_Some in Hi as [Hi|[Hik Hi]].
    + apply lookup_replicate in Hi as [-> Hi].
      rewrite (age_sum_ext h _ (λ _ _, false)).
      2:{ intros _ a. apply Nat.eqb_neq. lia. }
      assert (age_sum h (λ _ _, false) = 0) as ->; [|by destruct m].
      unfold age_sum. clear. induction h as [|e h IH]; [done|]. cbn. by rewrite IH.
    + rewrite length_replicate in Hik, Hi. rewrite (Hv _ _ Hi). f_equal. apply age_sum_ext.
      intros _ a. destruct (Nat.eqb_spec a (i - k)), (Nat.eqb_spec (a + k) i); lia.
  - apply Forall_fmap. eapply Forall_impl; [exact Hage|]. intros [[te d] a]. cbn. rewrite Hla.
    destruct (Nat.eqb_spec k 0); unfold NS in *; lia.
Qed.

Lemma tracks_add w m m' d h now :
  window_ok w → tracks w m h → last_advance w ≤ now → 0 ≤ d →
  ∃ w', sw_add w m' d now = Some w' ∧ window_ok w' ∧ last_advance w' ≤ now
    ∧ tracks w' m ((if decide (m' = m) then [(now, d, 0%nat)] else [])
                   ++ age_by (elapsed_secs w now) h).
Proof.
  intros Hw Ht Hle Hd.
  destruct (sw_add_view w m' d now Hw Hd) as (w' & E & Hw' & Hla & Hview).
  destruct (tracks_advance w m h now Hw Ht Hle) as [(Hpos & Hv & Hage) Hnow].
  destruct Hw as (Hl & Hc & Hb).
  destruct (sw_advance_view w now Hl Hc) as (Hview1 & _). rewrite <- Hview1 in Hview.
  exists w'. split_and!; [done|done|lia|].
  set (w1 := sw_advance w now) in *. set (h1 := age_by _ h) in *.
  unfold tracks. rewrite Hla, !Forall_app. split_and!; [by case_decide; repeat constructor|done| | |done].
  - intros i b Hi. rewrite Hview in Hi.
    destruct (view w1) as [|b0 v1]; [done|]. cbn [add_head] in Hi.
    assert (∀ p, age_sum ((if decide (m' = m) then [(now, d, 0%nat)] else []) ++ h1) p
      = (if decide (m' = m) then if p now 0%nat then d else 0 else 0) + age_sum h1 p) as Hsum.
    { intros p. unfold age_sum. case_decide; cbn; lia. }
    rewrite Hsum. destruct i as [|i]; cbn in Hi.
    + simplify_eq. specialize (Hv 0%nat b0 eq_refl).
      pose proof (age_sum_nonneg h1 (λ _ a, (a =? 0)%nat) Hpos). cbn [Nat.eqb].
      case_decide as Em.
      * subst. assert (bucket_get (bucket_add b0 m d) m = sat_add (bucket_get b0 m) d) as ->
          by by destruct m. rewrite Hv. unfold sat_add, U64_MAX in *. lia.
      * assert (bucket_get (bucket_add b0 m' d) m = bucket_get b0 m) as ->
          by by destruct m, m'. by rewrite Hv, Z.add_0_l.
    + rewrite (Hv (S i) b) by done. case_decide; cbn [Nat.eqb]; by rewrite Z.add_0_l.
  - case_decide; [|constructor]. repeat constructor; cbn; unfold NS in *; lia.
Qed.

Lemma new_tracks now m : tracks (sw_new now) m [].
Proof.
  split_and!; [constructor| |constructor]. intros i b Hi.
  assert (view (sw_new now) = replicate 60 bucket0) as Hv by done.
  rewrite Hv in Hi. apply lookup_replicate in Hi as [-> _]. by destruct m.
Qed.

(** *** Runs of a window *)
Inductive wop :=
| WAdvance (t : Z)
| WAdd (m : Metric) (d t : Z).

Definition wop_time (o : wop) : Z := match o with WAdvance t => t | WAdd _ _ t => t end.
Definition wop_ok (o : wop) : Prop := match o with WAdvance _ => True | WAdd _ d _ => 0 ≤ d end.

Definition sw_step (w : SlidingWindow) (o : wop) : option SlidingWindow :=
  match o with
  | WAdvance t => Some (sw_advance w t)
  | WAdd m d t => sw_add w m d t
  end.

(** The clock never runs backwards. *)
Fixpoint times_from (t0 : Z) (ops : list wop) : Prop :=
  match ops with
  | [] => True
  | o :: ops' => t0 ≤ wop_time o ∧ times_from (wop_time o) ops'
  end.

(** The adds of metric [m], newest first, as (time, delta). *)
Definition events (m : Metric) (ops : list wop) : list (Z * Z) :=
  foldl (λ acc o, match o with
                  | WAdd m' d t => if decide (m' = m) then (t, d) :: acc else acc
                  | WAdvance _ => acc
                  end) [] ops.

Definition ev_sum (evs : list (Z * Z)) (p : Z → bool) : Z :=
  sumZ (map (λ e : Z * Z, if p e.1 then e.2 else 0) evs).

Lemma run_tracks m ops w h :
  window_ok w → tracks w m h → times_from (last_advance w) ops → Forall wop_ok ops →
  ∃ w' h', opt_fold sw_step ops w = Some w' ∧ window_ok w' ∧ tracks w' m h'
    ∧ h'.*1 = foldl (λ acc o, match o with
                  | WAdd m' d t => if decide (m' = m) then (t, d) :: acc else acc
                  | WAdvance _ => acc
                  end) h.*1 ops
    ∧ last_advance w' ≤ List.last (map wop_time ops) (last_advance w).
Proof.
  revert w h. induction ops as [|o ops IH]; intros w h Hw Ht Htm Hok.
  - exists w, h. done.
  - destruct Htm as [Hle Htm]. apply Forall_cons in Hok as [Ho Hok].
    assert (∃ w1 h1, sw_step w o = Some w1 ∧ window_ok w1 ∧ last_advance w1 ≤ wop_time o
      ∧ tracks w1 m h1 ∧ h1.*1 = match o with
                  | WAdd m' d t => if decide (m' = m) then (t, d) :: h.*1 else h.*1
                  | WAdvance _ => h.*1
                  end) as (w1 & h1 & E & Hw1 & Hla & Ht1 & Hh1).
    { destruct o as [t|m' d t]; cbn in *.
      - destruct (tracks_advance w m h t Hw Ht Hle) as [Ht' Hn].
        eexists _, _. split_and!; [done|by apply sw_advance_ok|lia|exact Ht'|apply age_by_times].
      - destruct (tracks_add w m m' d h t Hw Ht Hle Ho) as (w1 & E & Hw1 & Hla & Ht1).
        eexists _, _. split_and!; [exact E|done|done|exact Ht1|].
        rewrite fmap_app, age_by_times. by case_decide. }
    assert (times_from (last_advance w1) ops) as Htm1.
    { destruct ops as [|o' ops]; [done|]. destruct Htm. split; [lia|done]. }
    destruct (IH w1 h1 Hw1 Ht1 Htm1 Hok) as (w' & h' & E' & ? & ? & Hh' & Hl').
    exists w', h'. cbn [opt_fold]. rewrite E. split_and!; [done..| |].
    + rewrite Hh', Hh1. by destruct o.
    + etransitivity; [exact Hl'|]. destruct ops as [|o' ops]; [done|].
      cbn [map]. clear. generalize (wop_time o'). induction (map wop_time ops); cbn; [done|].
      intros _. destruct l; cbn in *; [done|]. apply IHl. exact 0.
Qed.

Lemma times_from_app t0 ops o :
  times_from t0 (ops ++ [o]) →
  times_from t0 ops ∧ List.last (map wop_time ops) t0 ≤ wop_time o.
Proof.
  revert t0. induction ops as [|o' ops IH]; intros t0 H; cbn in *; [naive_solver|].
  destruct H as [H1 H2]. destruct (IH _ H2) as [H3 H4]. split; [done|].
  destruct (map wop_time ops) eqn:E; [done|]. cbn [List.last] in *.
  assert (∀ (l : list Z) x d d', List.last (x :: l) d = List.last (x :: l) d') as Hd.
  { clear. induction l as [|y l IHl]; intros x d d'; [done|]. apply (IHl y). }
  etransitivity; [|exact H4]. apply Z.eq_le_incl. apply (Hd l z).
Qed.

Lemma ev_sum_hist h p : ev_sum h.*1 p = age_sum h (λ t _, p t).
Proof.
  unfold ev_sum, age_sum. change (map ?f ?l) with (f <$> l). by rewrite <- list_fmap_compose.
Qed.

Lemma sw_sum_tracks w m h n :
  window_ok w → tracks w m h → (1 ≤ n ≤ 60)%nat →
  sw_sum w m n = Z.min U64_MAX (age_sum h (λ _ a, (a <? n)%nat)).
Proof.
  intros (Hl & Hc & Hb) (Hpos & Hv & _) Hn. rewrite sw_sum_view by done.
  rewrite <- age_sum_split by done. do 2 f_equal.
  apply list_eq. intros i. destruct (decide (i < n)%nat) as [Hi|].
  - rewrite list_lookup_fmap, lookup_take_lt by done.
    destruct (lookup_lt_is_Some_2 (view w) i) as [b Eb]; [rewrite view_length; lia|].
    change (map ?f ?l !! i) with ((f <$> l) !! i). rewrite list_lookup_fmap, lookup_seq_lt by done.
    rewrite Eb. cbn. f_equal. by apply Hv.
  - rewrite !lookup_ge_None_2; [done|..].
    + rewrite length_map, length_seq. lia.
    + rewrite length_fmap, length_take. lia.
Qed.

(** A sum counts at least the last [n - 1] seconds, and nothing that is
    [2 * n - 1] seconds old. *)
Lemma tracks_sum w m h now n :
  window_ok w → tracks w m h → (1 ≤ n ≤ 60)%nat → last_advance w ≤ now < last_advance w + NS →
  Z.min U64_MAX (ev_sum h.*1 (λ te, now - te <=? (Z.of_nat n - 1) * NS))
  ≤ sw_sum w m n
  ≤ Z.min U64_MAX (ev_sum h.*1 (λ te, now - te <? (2 * Z.of_nat n - 1) * NS)).
Proof.
  intros Hw Ht Hn Hnow. rewrite (sw_sum_tracks w m h n Hw Ht Hn), !ev_sum_hist.
  destruct Ht as (Hpos & _ & Hage).
  assert (Forall (λ e : Z * Z * nat, 0 ≤ e.1.2 ∧
    (Z.of_nat e.2 - 1) * NS < last_advance w - e.1.1 ≤ 2 * Z.of_nat e.2 * NS) h) as Hall
    by by apply Forall_and.
  split; apply Z.min_le_compat_l, age_sum_le; (eapply Forall_impl; [exact Hall|]);
    intros [[te d] a] [Hd Hb]; cbn in *; (split; [done|]); unfold NS in *.
  - intros H%Z.leb_le. apply Nat.ltb_lt. lia.
  - intros H%Nat.ltb_lt. apply Z.ltb_lt. lia.
Qed.

#[export] Hint Resolve sw_new_ok sw_advance_ok : mwaf.

(** *** Sums are [u64] *)
Lemma sw_sum_ok w m n : Forall bucket_ok (buckets w) → u64_ok (sw_sum w m n).
Proof.
  intros Hb. unfold sw_sum. generalize (seq 0 (Nat.min (Nat.max n 1) 60)). intros l.
  assert (u64_ok 0) as H0 by (vm_compute; split; discriminate).
  revert H0. generalize 0. induction l as [|i l IH]; intros z Hz; [done|]. cbn. apply IH.
  apply sat_add_ok; [apply Hz|]. apply bucket_get_ok.
  destruct (buckets w !! _) eqn:E; [|apply bucket0_ok]. by eapply Forall_lookup_1 in E.
Qed.

Lemma rw_sum_ok rw r m n : windows_ok rw → u64_ok (rw_sum rw r m n).
Proof.
  intros Hw. unfold rw_sum. destruct (rw !! r) eqn:E; [|vm_compute; split; discriminate].
  apply Hw in E as (_ & _ & Hb). by apply sw_sum_ok.
Qed.

(** *** The shift register: its seconds, newest first, and the time of its last
    shift *)
Record Register := mkRegister { reg_time : Z; reg_seconds : list Bucket }.

Definition abs (w : SlidingWindow) : Register := mkRegister (last_advance w) (view w).

Definition reg_advance (r : Register) (now : Z) : Register :=
  let seconds := Z.to_nat (Z.max 0 (now - reg_time r) / NS) in
  if (seconds =? 0)%nat then r else mkRegister now (shift seconds (reg_seconds r)).

Definition reg_step (r : Register) (o : wop) : Register :=
  let r := reg_advance r (wop_time o) in
  match o with
  | WAdvance _ => r
  | WAdd m d _ => mkRegister (reg_time r) (add_head m d (reg_seconds r))
  end.

Definition reg_sum (r : Register) (m : Metric) (n : nat) : Z :=
  Z.min U64_MAX (sumZ ((λ b, bucket_get b m) <$> take n (reg_seconds r))).

Lemma sw_advance_register w now : window_ok w → abs (sw_advance w now) = reg_advance (abs w) now.
Proof.
  intros (Hl & Hc & _). destruct (sw_advance_view w now Hl Hc) as (Hv & _ & _ & Hla).
  unfold abs, reg_advance. rewrite Hv, Hla. cbn [reg_time reg_seconds].
  change (Z.to_nat (Z.max 0 (now - last_advance w) / NS)) with (elapsed_secs w now).
  destruct (Nat.eqb_spec (elapsed_secs w now) 0) as [->|]; [|done]. by rewrite shift_0 by apply view_length.
Qed.

Lemma sw_advance_idem w now : window_ok w → sw_advance (sw_advance w now) now = sw_advance w now.
Proof.
  intros Hw. pose proof (sw_advance_elapsed w now Hw) as He. unfold elapsed_secs in He.
  unfold sw_advance at 1. pose proof (as_secs_nonneg (sat_since now (last_advance (sw_advance w now)))
    ltac:(unfold sat_since; lia)). by rewrite (proj2 (Z.eqb_eq _ 0)) by lia.
Qed.

Lemma sw_step_register o w :
  window_ok w → wop_ok o → ∃ w', sw_step w o = Some w' ∧ window_ok w' ∧ abs w' = reg_step (abs w) o.
Proof.
  intros Hw Ho. destruct o as [t|m d t]; cbn [sw_step reg_step wop_time].
  - eexists. split; [done|]. split; [by apply sw_advance_ok|by apply sw_advance_register].
  - destruct (sw_add_view w m d t Hw Ho) as (w' & -> & Hok & Hla & Hv). exists w'. split_and!; [done..|].
    rewrite <- sw_advance_register by done. unfold abs. cbn [reg_time reg_seconds]. rewrite Hla, Hv.
    destruct Hw as (Hl & Hc & _). by destruct (sw_advance_view w t Hl Hc) as (-> & _).
Qed.

Lemma sw_run_register ops w :
  window_ok w → Forall wop_ok ops →
  ∃ w', opt_fold sw_step ops w = Some w' ∧ window_ok w' ∧ abs w' = foldl reg_step (abs w) ops.
Proof.
  intros Hw Hops. revert w Hw. induction Hops as [|o ops Ho _ IH]; intros w Hw; [by exists w|].
  cbn [opt_fold foldl]. destruct (sw_step_register o w Hw Ho) as (w1 & -> & Hw1 & <-). by apply IH.
Qed.

Lemma sw_sum_register w m n :
  window_ok w → sw_sum w m n = reg_sum (abs w) m (Nat.min (Nat.max n 1) 60).
Proof.
  intros (_ & _ & Hb). unfold reg_sum. cbn [reg_seconds abs]. rewrite <- sw_sum_view by (done || lia).
  unfold sw_sum. by replace (Nat.min (Nat.max (Nat.min (Nat.max n 1) 60) 1) 60)
    with (Nat.min (Nat.max n 1) 60) by lia.
Qed.

(** ** Properties *)

(** C25 (window_refines_shift_register): the ring of buckets implements a shift
    register with the time of its last shift.  From any well-formed window, every
    sequence of advances and adds, with any times, runs without a panic to a
    well-formed window whose seconds, newest first, and whose time are those of
    the register: at each operation one empty bucket is shifted in per whole
    second since the last shift, which is then renewed to the time of the
    operation (less than a second shifts and renews nothing), so no second is
    shifted twice; what is added goes to the newest second.  A sum over [n]
    seconds is the saturated sum of the [n] newest, [n] clamped to 1..60.  A new
    window is the empty register of its time. *)
Theorem window_refines_shift_register w ops :
  window_ok w → Forall wop_ok ops →
  (∀ now, window_ok (sw_new now) ∧ abs (sw_new now) = mkRegister now (replicate 60 bucket0))
  ∧ (∀ now, sw_advance (sw_advance w now) now = sw_advance w now)
  ∧ ∃ w', opt_fold sw_step ops w = Some w' ∧ window_ok w'
      ∧ abs w' = foldl reg_step (abs w) ops
      ∧ ∀ m n, sw_sum w' m n = reg_sum (abs w') m (Nat.min (Nat.max n 1) 60).
Proof.
  intros Hw Hops. split_and!.
  - intros now. split; [apply sw_new_ok|done].
  - intros now. by apply sw_advance_idem.
  - destruct (sw_run_register ops w Hw Hops) as (w' & Hrun & Hok & Habs). exists w'.
    split_and!; [done..|]. intros m n. by apply sw_sum_register.
Qed.

(** Five requests at once, seven more 2.5 seconds later, and an advance at 3.4
    seconds, less than a second after the last shift. *)
Definition three_steps : list wop :=
  [WAdd Requests 5 0; WAdd Requests 7 2500000000; WAdvance 3400000000].

Lemma window_refines_shift_register_witness :
  ∃ w, opt_fold sw_step three_steps (sw_new 0) = Some w
    ∧ abs w = mkRegister 2500000000
        ([mkBucket 7 0 0; bucket0; mkBucket 5 0 0] ++ replicate 57 bucket0)
    ∧ sw_sum w Requests 2 = 7 ∧ sw_sum w Requests 60 = 12.
Proof.
  destruct (window_refines_shift_register (sw_new 0) three_steps (sw_new_ok 0)) as (_ & _ & w & Hrun & _ & Habs & Hsum).
  - by repeat constructor.
  - exists w. split; [exact Hrun|].
    assert (abs w = mkRegister 2500000000
        ([mkBucket 7 0 0; bucket0; mkBucket 5 0 0] ++ replicate 57 bucket0)) as E
      by (rewrite Habs; vm_compute; reflexivity).
    split; [exact E|]. rewrite !Hsum, E. split; vm_compute; reflexivity.
Defined.

(** For any sequence of adds and advances with a
    clock that never runs backwards, no operation panics, and a sum over [n]
    seconds taken at time [t] counts every delta added in the last [n - 1]
    seconds and none that is [2 * n - 1] seconds old or older (sums saturate
    at [u64::MAX]). *)
Theorem window_counts_recent m ops t0 t n :
  times_from t0 (ops ++ [WAdvance t]) → Forall wop_ok ops → (1 ≤ n ≤ 60)%nat →
  ∃ w, opt_fold sw_step ops (sw_new t0) = Some w ∧
    Z.min U64_MAX (ev_sum (events m ops) (λ te, t - te <=? (Z.of_nat n - 1) * NS))
    ≤ sw_sum (sw_advance w t) m n
    ≤ Z.min U64_MAX (ev_sum (events m ops) (λ te, t - te <? (2 * Z.of_nat n - 1) * NS)).
Proof.
  intros [Htm Hlast]%times_from_app Hok Hn.
  destruct (run_tracks m ops (sw_new t0) [] (sw_new_ok t0)) as (w & h & E & Hw & Ht & Hh & Hla);
    [|done..|].
  { apply new_tracks. }
  exists w. split; [exact E|]. cbn in Hlast, Hla.
  destruct (tracks_advance w m h t Hw Ht ltac:(lia)) as [Ht' Hnow].
  unfold events. change (@nil (Z * Z * nat)).*1 with (@nil (Z * Z)) in Hh.
  rewrite <- Hh, <- (age_by_times (elapsed_secs w t) h). by apply tracks_sum; [apply sw_advance_ok|..].
Qed.

Lemma window_counts_recent_witness :
  ∃ w, opt_fold sw_step [WAdd Requests 5 0; WAdd Requests 7 (2 * NS)] (sw_new 0) = Some w
    ∧ 7 ≤ sw_sum (sw_advance w (2 * NS)) Requests 1 ≤ 7.
Proof.
  destruct (window_counts_recent Requests [WAdd Requests 5 0; WAdd Requests 7 (2 * NS)]
    0 (2 * NS) 1) as (w & E & H).
  - vm_compute. repeat split; discriminate.
  - repeat constructor; vm_compute; discriminate.
  - lia.
  - exists w. split; [exact E|]. exact H.
Defined.

(** Ticks 1.9 s apart: the remainder of each interval is lost, so the bucket of
    a request survives 59 ticks. *)
Definition slow_ticks : list wop :=
  WAdd Requests 1 0 :: map (λ i, WAdvance (Z.of_nat i * 1900000000)) (seq 1 59).

(** The per-minute sum is not the sum over the
    last 60 seconds.  [advance] restarts the interval at [now] instead of at
    the last whole second, so with ticks 1.9 s apart a request is still counted
    112.1 s later. *)
Theorem window_minute_overcounts :
  ∃ w, opt_fold sw_step slow_ticks (sw_new 0) = Some w
    ∧ last_advance w = 112100000000 ∧ sw_sum w Requests 60 = 1.
Proof. eexists. split; [vm_compute; reflexivity|]. split; vm_compute; reflexivity. Qed.
