(* ===== verification/Policy.v ===== *)
(** Manual and automatic policies and their merge
    ([crates/mw-core/src/policy.rs]), with the order on effective actions that
    the merge computes the join of. *)

From S2P Require Import Prelude Text Client Rule Window.

(** ** Data *)
Record ManualPolicy := mkManual {
  m_throttle : option Z;
  m_blocked : bool;
  m_until : option Z
}.

(** [until_unix_secs] of the stored form is in whole seconds. *)
Record StoredManualPolicy := mkStored {
  st_throttle : option Z;
  st_blocked : bool;
  st_until_unix_secs : option Z
}.

Record AutoPolicy := mkAuto {
  a_drop_rate : Z;
  a_blocked : bool;
  a_rule_id : str;
  a_until : Z
}.

Record ClientPolicy := mkPolicy {
  manual : option ManualPolicy;
  auto_ : option AutoPolicy
}.

Definition policy0 : ClientPolicy := mkPolicy None None.

Inductive EffectiveAction := EffNone | EffThrottle (drop_rate : Z) | EffBlock.

#[export] Instance ManualPolicy_eq_dec : EqDecision ManualPolicy.
Proof. solve_decision. Defined.
#[export] Instance AutoPolicy_eq_dec : EqDecision AutoPolicy.
Proof. solve_decision. Defined.
#[export] Instance ClientPolicy_eq_dec : EqDecision ClientPolicy.
Proof. solve_decision. Defined.
#[export] Instance EffectiveAction_eq_dec : EqDecision EffectiveAction.
Proof. solve_decision. Defined.

(** ** Operations *)
Definition manual_is_expired (p : ManualPolicy) (now : Z) : bool :=
  match m_until p with
  | Some u => u <=? now
  | None => false
  end.

(** [StoredManualPolicy::to_runtime]; [now_sys] is the wall clock.  Both
    additions panic on overflow. *)
Definition to_runtime (s : StoredManualPolicy) (now now_sys : Z) : option ManualPolicy :=
  until ← match st_until_unix_secs s with
          | None => Some None
          | Some secs =>
              target ← time_add 0 (from_secs secs);
              if now_sys <=? target
              then u ← time_add now (target - now_sys); Some (Some u)
              else Some (Some now)
          end;
  Some (mkManual (st_throttle s) (st_blocked s) until).

(** [StoredManualPolicy::from_runtime]; a wall clock before the epoch counts
    as the epoch. *)
Definition from_runtime (p : ManualPolicy) (now now_sys : Z) : StoredManualPolicy :=
  mkStored (m_throttle p) (m_blocked p)
    (match m_until p with
     | None => None
     | Some u => Some (sat_add (as_secs (Z.max 0 now_sys)) (as_secs (sat_since u now)))
     end).

Definition from_action (rule_id : str) (action : Action) (now cooldown : Z) : option AutoPolicy :=
  match action with
  | Block => u ← time_add now cooldown; Some (mkAuto 100 true rule_id u)
  | Throttle drop_rate => u ← time_add now cooldown; Some (mkAuto drop_rate false rule_id u)
  end.

Definition auto_is_expired (p : AutoPolicy) (now : Z) : bool := a_until p <=? now.

Definition eff_drop_rate (e : EffectiveAction) : Z :=
  match e with
  | EffNone => 0
  | EffThrottle drop_rate => drop_rate
  | EffBlock => 100
  end.

Definition is_blocked (e : EffectiveAction) : bool :=
  match e with
  | EffBlock => true
  | _ => false
  end.

Definition live_manual (p : ClientPolicy) (now : Z) : option ManualPolicy :=
  match manual p with
  | Some m => if manual_is_expired m now then None else Some m
  | None => None
  end.

Definition live_auto (p : ClientPolicy) (now : Z) : option AutoPolicy :=
  match auto_ p with
  | Some a => if auto_is_expired a now then None else Some a
  | None => None
  end.

(** The tail of [merge_policy], reached when the manual policy decides
    nothing. *)
Definition merge_auto (a : option AutoPolicy) : EffectiveAction :=
  match a with
  | Some a => if a_blocked a then EffBlock
              else if 0 <? a_drop_rate a then EffThrottle (a_drop_rate a)
              else EffNone
  | None => EffNone
  end.

Definition merge_policy (p : ClientPolicy) (now : Z) : EffectiveAction :=
  let auto_ := live_auto p now in
  match live_manual p now with
  | Some m =>
      if m_blocked m then EffBlock
      else match m_throttle m with
           | Some rate =>
               if from_option a_blocked false auto_ then EffBlock
               else EffThrottle (Z.max rate (from_option a_drop_rate 0 auto_))
           | None => merge_auto auto_
           end
  | None => merge_auto auto_
  end.

(** The loop of [strongest_auto]. *)
Definition stronger (best : option AutoPolicy) (cand : AutoPolicy) : AutoPolicy :=
  match best with
  | None => cand
  | Some prev =>
      if a_blocked cand && negb (a_blocked prev) then cand
      else if a_blocked prev && negb (a_blocked cand) then prev
      else if a_drop_rate prev <? a_drop_rate cand then cand
      else prev
  end.

Definition strongest_step (now cooldown : Z) (best : option AutoPolicy) (v : Violation) :
    option (option AutoPolicy) :=
  cand ← from_action (v_rule_id v) (v_action v) now cooldown;
  Some (Some (stronger best cand)).

Definition strongest_auto (violations : list Violation) (now cooldown : Z) :
    option (option AutoPolicy) :=
  opt_fold (strongest_step now cooldown) violations None.

(** [PolicyMap]. *)
Abbreviation PolicyMap := (gmap ClientId ClientPolicy).

(** ** Well-formed policies: drop rates are [u8] *)
Definition policy_ok (p : ClientPolicy) : Prop :=
  (∀ m r, manual p = Some m → m_throttle m = Some r → byte_ok r)
  ∧ (∀ a, auto_ p = Some a → byte_ok (a_drop_rate a)).

Definition action_ok (a : Action) : Prop :=
  match a with
  | Throttle d => byte_ok d
  | Block => True
  end.

Definition violation_ok (v : Violation) : Prop := action_ok (v_action v).

Definition eff_ok (e : EffectiveAction) : Prop :=
  match e with
  | EffThrottle d => byte_ok d
  | _ => True
  end.

(** ** Specification: effective actions ordered by severity *)
Definition eff_le (a b : EffectiveAction) : bool :=
  match a, b with
  | EffNone, _ => true
  | EffThrottle r, EffThrottle s => r <=? s
  | EffThrottle _, EffBlock => true
  | EffBlock, EffBlock => true
  | _, _ => false
  end.

Definition eff_join (a b : EffectiveAction) : EffectiveAction :=
  match a, b with
  | EffBlock, _ | _, EffBlock => EffBlock
  | EffThrottle r, EffThrottle s => EffThrottle (Z.max r s)
  | EffNone, e | e, EffNone => e
  end.

(** What each half of the policy asks for by itself. *)
Definition manual_wants (m : option ManualPolicy) : EffectiveAction :=
  match m with
  | Some m => if m_blocked m then EffBlock
              else from_option EffThrottle EffNone (m_throttle m)
  | None => EffNone
  end.

(** Severity of the action of a rule; a block is above every [u8] rate. *)
Definition severity (a : Action) : Z :=
  match a with
  | Block => U8_MAX + 1
  | Throttle d => d
  end.

(** ** Lemmas *)
Lemma live_manual_ok p now m r :
  policy_ok p → live_manual p now = Some m → m_throttle m = Some r → byte_ok r.
Proof.
  intros [Hm _]. unfold live_manual. destruct (manual p) eqn:E; [|done].
  case_match; [done|]. intros [= ->]. eauto.
Qed.

Lemma live_auto_ok p now a :
  policy_ok p → live_auto p now = Some a → byte_ok (a_drop_rate a).
Proof.
  intros [_ Ha]. unfold live_auto. destruct (auto_ p) eqn:E; [|done].
  case_match; [done|]. intros [= ->]. eauto.
Qed.

Lemma policy0_ok : policy_ok policy0.
Proof. by split. Qed.

Lemma from_action_total id a now cd :
  (now + cd) / NS ≤ I64_MAX →
  from_action id a now cd =
    Some (match a with
          | Block => mkAuto 100 true id (now + cd)
          | Throttle d => mkAuto d false id (now + cd)
          end).
Proof. intros. unfold from_action. rewrite time_add_total by done. by destruct a. Qed.

Lemma from_action_panic id a now cd : from_action id a now cd = None ↔ time_add now cd = None.
Proof. unfold from_action. by destruct a, (time_add now cd). Qed.

#[export] Hint Resolve policy0_ok live_manual_ok live_auto_ok : mwaf.

(** One step keeps a candidate that no earlier violation beats. *)
Lemma stronger_spec id a id' a' u b c :
  b = match a with Block => mkAuto 100 true id u | Throttle d => mkAuto d false id u end →
  c = match a' with Block => mkAuto 100 true id' u | Throttle d => mkAuto d false id' u end →
  (∀ d, a = Throttle d → byte_ok d) → (∀ d, a' = Throttle d → byte_ok d) →
  stronger (Some b) c = if severity a <? severity a' then c else b.
Proof.
  unfold byte_ok, U8_MAX. intros -> -> H H'.
  destruct a as [d|], a' as [d'|]; unfold stronger, severity, U8_MAX; simpl; try done.
  - specialize (H d eq_refl). by rewrite (proj2 (Z.ltb_lt _ _)) by lia.
  - specialize (H' d' eq_refl). by rewrite (proj2 (Z.ltb_ge _ _)) by lia.
Qed.

(** *** The merge is a join *)
Lemma merge_is_join p now :
  policy_ok p →
  merge_policy p now = eff_join (manual_wants (live_manual p now)) (merge_auto (live_auto p now)).
Proof.
  intros Hp. pose proof (live_manual_ok p now) as Hm. pose proof (live_auto_ok p now) as Ha.
  unfold merge_policy. destruct (live_manual p now) as [[[r|] [] mu]|], (live_auto p now) as [[d [] id u]|];
    simpl in *; try (specialize (Ha _ Hp eq_refl); simpl in Ha);
    try (specialize (Hm _ _ Hp eq_refl eq_refl)); unfold byte_ok, U8_MAX in *;
    try destruct (Z.ltb_spec 0 d); simpl; done || (f_equal; lia).
Qed.

Lemma merge_policy_ok p now : policy_ok p → eff_ok (merge_policy p now).
Proof.
  intros Hp. pose proof (live_manual_ok p now) as Hm. pose proof (live_auto_ok p now) as Ha.
  unfold merge_policy. destruct (live_manual p now) as [[[r|] [] mu]|], (live_auto p now) as [[d [] id u]|];
    simpl in *; try (specialize (Ha _ Hp eq_refl); simpl in Ha);
    try (specialize (Hm _ _ Hp eq_refl eq_refl)); unfold byte_ok, U8_MAX in *;
    try destruct (Z.ltb_spec 0 d); simpl; done || lia.
Qed.

Lemma eff_le_refl a : eff_le a a = true.
Proof. destruct a; cbn; auto using Z.leb_refl. Qed.

Lemma eff_le_trans a b c : eff_le a b = true → eff_le b c = true → eff_le a c = true.
Proof. destruct a, b, c; cbn; rewrite ?Z.leb_le; try done. lia. Qed.

Lemma eff_join_ub_l a b : eff_le a (eff_join a b) = true.
Proof. destruct a, b; cbn; rewrite ?Z.leb_le; try done; lia. Qed.

Lemma eff_join_ub_r a b : eff_le b (eff_join a b) = true.
Proof. destruct a, b; cbn; rewrite ?Z.leb_le; try done; lia. Qed.

Lemma eff_join_None a b : eff_join a b = EffNone ↔ a = EffNone ∧ b = EffNone.
Proof. destruct a, b; naive_solver. Qed.

(** What a violated rule asks for; a rate of 0 asks for nothing. *)
Definition action_wants (a : Action) : EffectiveAction :=
  match a with
  | Block => EffBlock
  | Throttle d => if 0 <? d then EffThrottle d else EffNone
  end.

Lemma severity_wants a b :
  action_ok a → severity a ≤ severity b → action_ok b →
  eff_le (action_wants a) (action_wants b) = true.
Proof.
  unfold action_ok, byte_ok, severity, U8_MAX, action_wants.
  destruct a as [d|], b as [d'|]; cbn; intros; try lia; try done;
    repeat match goal with |- context [Z.ltb ?x ?y] => destruct (Z.ltb_spec x y) end; cbn;
    rewrite ?Z.leb_le; try done; lia.
Qed.

(** *** The first violation of maximal severity *)
Definition auto_of (v : Violation) (u : Z) : AutoPolicy :=
  match v_action v with
  | Block => mkAuto 100 true (v_rule_id v) u
  | Throttle d => mkAuto d false (v_rule_id v) u
  end.

Definition first_max (vs : list Violation) (v : Violation) : Prop :=
  ∃ pre post, vs = pre ++ v :: post
    ∧ Forall (λ v', severity (v_action v') < severity (v_action v)) pre
    ∧ Forall (λ v', severity (v_action v') ≤ severity (v_action v)) post.

Lemma first_max_snoc vs v w :
  first_max vs v →
  first_max (vs ++ [w]) (if severity (v_action v) <? severity (v_action w) then w else v).
Proof.
  intros (pre & post & -> & Hpre & Hpost). destruct (Z.ltb_spec (severity (v_action v)) (severity (v_action w))).
  - exists (pre ++ v :: post), []. split_and!; [done| |constructor].
    apply Forall_app. split; [|constructor; [done|]];
      (eapply Forall_impl; [eassumption|]); simpl; intros; lia.
  - exists pre, (post ++ [w]). rewrite <- app_assoc. split_and!; [done..|].
    apply Forall_app. split; [done|]. by repeat constructor.
Qed.

Lemma first_max_unique vs v w : first_max vs v → first_max vs w → v = w.
Proof.
  intros (pre & post & -> & Hpre & Hpost) (pre' & post' & E & Hpre' & Hpost').
  revert pre' E Hpre'. induction pre as [|x pre IH]; intros [|y pre'] E Hpre';
    simplify_list_eq; rewrite ?Forall_cons in *.
  - done.
  - destruct Hpre' as [H1 H2]. rewrite ?Forall_app, ?Forall_cons in Hpost.
    destruct Hpost as (_ & H3 & _). lia.
  - destruct Hpre as [H1 H2]. rewrite Forall_app, Forall_cons in Hpost'.
    destruct Hpost' as (_ & H3 & _). lia.
  - destruct Hpre, Hpre'. eapply IH; eauto.
Qed.

Lemma strongest_step_Some now cd u best v :
  time_add now cd = Some u → strongest_step now cd best v = Some (Some (stronger best (auto_of v u))).
Proof.
  intros H. unfold strongest_step, from_action, auto_of. rewrite H. by destruct (v_action v).
Qed.

Lemma strongest_auto_first_max vs now cd u :
  time_add now cd = Some u → Forall violation_ok vs → vs ≠ [] →
  ∃ v, first_max vs v ∧ strongest_auto vs now cd = Some (Some (auto_of v u)).
Proof.
  intros Hu. unfold strongest_auto. induction vs as [|w vs IH] using rev_ind; [done|].
  intros [Hok Hw]%Forall_app _. rewrite Forall_cons in Hw. destruct Hw as [Hw _].
  rewrite opt_fold_app. destruct (decide (vs = [])) as [->|Hne].
  - exists w. split; [by exists [], []|]. cbn. by rewrite (strongest_step_Some _ _ u).
  - destruct (IH Hok Hne) as (v & Hv & ->). cbn. rewrite (strongest_step_Some _ _ u) by done.
    eexists. split; [by apply first_max_snoc|]. do 2 f_equal.
    assert (violation_ok v) as Hvok.
    { destruct Hv as (pre & post & -> & _). rewrite Forall_app, Forall_cons in Hok. naive_solver. }
    rewrite (stronger_spec (v_rule_id v) (v_action v) (v_rule_id w) (v_action w) u); try done.
    + by case_match.
    + intros d E. unfold violation_ok, action_ok in Hvok. by rewrite E in Hvok.
    + intros d E. unfold violation_ok, action_ok in Hw. by rewrite E in Hw.
Qed.

Lemma strongest_auto_panic vs now cd :
  time_add now cd = None → vs ≠ [] → strongest_auto vs now cd = None.
Proof.
  intros H Hne. destruct vs as [|v vs]; [done|]. unfold strongest_auto. cbn.
  unfold strongest_step, from_action. rewrite H. by destruct (v_action v).
Qed.

(** ** Properties *)

(** The effective action of a client is the join, in
    the order pass < throttle (by rate) < block, of what the unexpired manual
    policy and the unexpired automatic policy ask for, so neither weakens the
    other; the client is blocked iff one of the two blocks; otherwise its drop
    rate is the larger of the two rates; and an expired policy counts as
    absent. *)
Theorem merge_policy_join p now :
  policy_ok p →
  merge_policy p now = eff_join (manual_wants (live_manual p now)) (merge_auto (live_auto p now))
  ∧ is_blocked (merge_policy p now)
    = from_option m_blocked false (live_manual p now) || from_option a_blocked false (live_auto p now)
  ∧ eff_drop_rate (merge_policy p now)
    = (if is_blocked (merge_policy p now) then 100
       else Z.max (default 0 (live_manual p now ≫= m_throttle))
                  (from_option a_drop_rate 0 (live_auto p now)))
  ∧ eff_le (manual_wants (live_manual p now)) (merge_policy p now) = true
  ∧ eff_le (merge_auto (live_auto p now)) (merge_policy p now) = true
  ∧ (merge_policy p now = EffNone ↔
       manual_wants (live_manual p now) = EffNone ∧ merge_auto (live_auto p now) = EffNone).
Proof.
  intros Hp. rewrite merge_is_join by done. split; [done|].
  rewrite eff_join_ub_l, eff_join_ub_r, eff_join_None. split_and!; [| |done..].
  - destruct (live_manual p now) as [[[r|] [] mu]|], (live_auto p now) as [[d [] id u]|];
      cbn; try destruct (0 <? d); done.
  - pose proof (live_manual_ok p now) as Hm. pose proof (live_auto_ok p now) as Ha.
    destruct (live_manual p now) as [[[r|] [] mu]|], (live_auto p now) as [[d [] id u]|];
      simpl in *; try (specialize (Ha _ Hp eq_refl); simpl in Ha);
      try (specialize (Hm _ _ Hp eq_refl eq_refl)); unfold byte_ok, U8_MAX in *;
      try destruct (Z.ltb_spec 0 d); simpl; lia.
Qed.

Lemma merge_policy_join_witness :
  let p := mkPolicy (Some (mkManual (Some 30) false None))
             (Some (mkAuto 70 false (lit "r") (5 * NS))) in
  merge_policy p 0 = EffThrottle 70 ∧ merge_policy p (5 * NS) = EffThrottle 30
  ∧ eff_le (EffThrottle 30) (merge_policy p 0) = true.
Proof.
  split_and!; [reflexivity..|].
  apply (merge_policy_join (mkPolicy (Some (mkManual (Some 30) false None))
             (Some (mkAuto 70 false (lit "r") (5 * NS)))) 0).
  split.
  - intros m r [= <-] [= <-]. split; vm_compute; discriminate.
  - intros a [= <-]. split; vm_compute; discriminate.
Defined.


(** The automatic policy derived from a list of
    violations comes from the first violation of maximal severity (a block is
    more severe than any rate), names its rule and expires one cooldown from
    now; there is none iff the list is empty; and the only panic is an expiry
    that does not fit an [Instant]. *)
Theorem strongest_auto_spec vs now cd :
  Forall violation_ok vs →
  (strongest_auto vs now cd = Some None ↔ vs = [])
  ∧ (strongest_auto vs now cd = None ↔ vs ≠ [] ∧ time_add now cd = None)
  ∧ (∀ a, strongest_auto vs now cd = Some (Some a) ↔
       ∃ v, first_max vs v ∧ from_action (v_rule_id v) (v_action v) now cd = Some a).
Proof.
  intros Hok. destruct (decide (vs = [])) as [->|Hne].
  { split_and!; try naive_solver. intros a. split; [done|].
    intros (v & (pre & post & E & _) & _). by destruct pre. }
  assert (∀ v u, time_add now cd = Some u →
    from_action (v_rule_id v) (v_action v) now cd = Some (auto_of v u)) as Hfa.
  { intros v u Hu. unfold from_action, auto_of. rewrite Hu. by destruct (v_action v). }
  destruct (time_add now cd) as [u|] eqn:Hu.
  - destruct (strongest_auto_first_max vs now cd u Hu Hok Hne) as (v & Hv & ->).
    split_and!; try naive_solver. intros a. split.
    + intros [= <-]. exists v. split; [done|by apply Hfa].
    + intros (w & Hw & Ea). rewrite (first_max_unique _ _ _ Hv Hw).
      rewrite (Hfa w u) in Ea by done. by injection Ea as <-.
  - rewrite strongest_auto_panic by done. split_and!; try naive_solver.
    intros a. split; [done|]. intros (v & _ & Ea).
    by rewrite (proj2 (from_action_panic _ _ _ _)) in Ea.
Qed.

Lemma strongest_auto_spec_witness :
  let vs := [mkViolation (lit "a") 9 1 (Throttle 40); mkViolation (lit "b") 9 1 Block;
             mkViolation (lit "c") 9 1 Block] in
  strongest_auto vs 0 (30 * NS) = Some (Some (mkAuto 100 true (lit "b") (30 * NS))).
Proof.
  apply (strongest_auto_spec
    [mkViolation (lit "a") 9 1 (Throttle 40); mkViolation (lit "b") 9 1 Block;
     mkViolation (lit "c") 9 1 Block] 0 (30 * NS)).
  - repeat constructor; vm_compute; discriminate.
  - exists (mkViolation (lit "b") 9 1 Block). split; [|reflexivity].
    exists [mkViolation (lit "a") 9 1 (Throttle 40)], [mkViolation (lit "c") 9 1 Block].
    split; [reflexivity|]. split; repeat constructor; vm_compute; congruence.
Defined.

(** A manual policy stored at one moment
    and loaded at another keeps its rate and its block flag; a permanent policy
    stays permanent; and the time left at the load is what was left at the
    store less the wall-clock time in between (never negative), short by less
    than the two seconds that the two truncations to seconds can lose.  Neither
    conversion panics when the expiry fits the clocks. *)
Theorem manual_policy_survives_restart p now1 sys1 now2 sys2 :
  0 ≤ sys1 → 0 ≤ sys2 →
  (∀ u, m_until p = Some u →
     (sys1 + Z.max 0 (u - now1)) / NS ≤ I64_MAX
     ∧ (now2 + Z.max 0 (Z.max 0 (u - now1) - (sys2 - sys1))) / NS ≤ I64_MAX) →
  ∃ p', to_runtime (from_runtime p now1 sys1) now2 sys2 = Some p'
    ∧ m_throttle p' = m_throttle p ∧ m_blocked p' = m_blocked p
    ∧ (m_until p = None → m_until p' = None)
    ∧ (∀ u, m_until p = Some u → ∃ u', m_until p' = Some u' ∧
         let left := Z.max 0 (u - now1) - (sys2 - sys1) in
         Z.max 0 (left - 2 * NS) ≤ u' - now2 ≤ Z.max 0 left).
Proof.
  intros Hs1 Hs2 Hb. destruct p as [th bl [u|]]; cbn; [|eexists; split_and!; naive_solver].
  destruct (Hb u eq_refl) as [Hb1 Hb2]. clear Hb. unfold to_runtime, from_runtime, sat_since.
  cbn [st_until_unix_secs m_until]. rewrite Z.max_r by done.
  set (l1 := Z.max 0 (u - now1)) in *. assert (0 ≤ l1) as Hl1 by lia.
  assert (∃ secs, sat_add (as_secs sys1) (as_secs l1) = secs
    ∧ secs ≤ I64_MAX ∧ sys1 + l1 - 2 * NS < secs * NS ≤ sys1 + l1) as (secs & -> & Hsm & Hsec).
  { unfold sat_add, as_secs, from_secs, NS, I64_MAX, U64_MAX in *.
    clear -Hs1 Hl1 Hb1. eexists. split; [done|]. Z.div_mod_to_equations. lia. }
  unfold from_secs. rewrite time_add_total by (rewrite Z.add_0_l, Z.div_mul by done; done).
  cbn. rewrite Z.add_0_l. destruct (Z.leb_spec sys2 (secs * NS)) as [Hle|Hgt].
  - rewrite time_add_total.
    + cbn. eexists. split_and!; [done..|]. intros ? [= <-]. eexists. split; [done|]. clear -Hsec Hle. lia.
    + etransitivity; [|exact Hb2]. apply Z.div_le_mono; [done|]. clear -Hsec Hle. lia.
  - cbn. eexists. split_and!; [done..|]. intros ? [= <-]. eexists. split; [done|].
    unfold NS in *. lia.
Qed.

Lemma manual_policy_survives_restart_witness :
  let p := mkManual (Some 40) true (Some (100 * NS)) in
  ∃ p', to_runtime (from_runtime p 0 (1000 * NS + 7)) 0 (1010 * NS + 7) = Some p'
    ∧ m_throttle p' = Some 40 ∧ m_blocked p' = true.
Proof.
  destruct (manual_policy_survives_restart (mkManual (Some 40) true (Some (100 * NS)))
    0 (1000 * NS + 7) 0 (1010 * NS + 7)) as (p' & H1 & H2 & H3 & _).
  - vm_compute. discriminate.
  - vm_compute. discriminate.
  - intros u [= <-]. split; vm_compute; discriminate.
  - exists p'. split; [exact H1|]. split; [exact H2|exact H3].
Defined.
