(* ===== verification/Counters.v ===== *)
(** The counter store ([crates/mw-core/src/counters.rs]): per (client, rule) and
    per client counters.  The two maps have a lock each, so the calls of several
    threads interleave at half a call. *)

From S2P Require Import Prelude Text Client.

(** ** Data *)
Record CumulativeCounters := mkCum {
  requests : Z;
  bytes : Z;
  connections : Z;
  ws_connections : Z
}.

Definition cum0 : CumulativeCounters := mkCum 0 0 0 0.

Record CounterKey := mkKey { key_client : ClientId; key_rule_id : str }.

#[export] Instance CumulativeCounters_eq_dec : EqDecision CumulativeCounters.
Proof. solve_decision. Defined.
#[export] Instance CounterKey_eq_dec : EqDecision CounterKey.
Proof. solve_decision. Defined.
#[export] Instance CounterKey_countable : Countable CounterKey.
Proof.
  apply (inj_countable' (λ k, (key_client k, key_rule_id k)) (λ p, mkKey p.1 p.2)). by intros [].
Defined.

Record CounterStore := mkCounters {
  by_rule : gmap CounterKey (Z * Z * Z);
  by_client : gmap ClientId CumulativeCounters
}.

Definition counters0 : CounterStore := mkCounters ∅ ∅.

(** ** Operations *)
Definition bump3 (req bytes conn : Z) (e : Z * Z * Z) : Z * Z * Z :=
  let '(e0, e1, e2) := e in (sat_add e0 req, sat_add e1 bytes, sat_add e2 conn).

Definition bump_cum (req byts conn : Z) (e : CumulativeCounters) : CumulativeCounters :=
  mkCum (sat_add (requests e) req) (sat_add (bytes e) byts) (sat_add (connections e) conn)
    (ws_connections e).

Definition bump_ws (e : CumulativeCounters) : CumulativeCounters :=
  mkCum (requests e) (bytes e) (connections e) (sat_add (ws_connections e) 1).

(** The two critical sections of [CounterStore::add]. *)
Definition add_by_rule (s : CounterStore) (client : ClientId) (rule_id : str)
    (req byts conn : Z) : CounterStore :=
  mkCounters (entry_mod (0, 0, 0) (bump3 req byts conn) (mkKey client rule_id) (by_rule s))
    (by_client s).

Definition add_by_client (s : CounterStore) (client : ClientId) (req byts conn : Z) : CounterStore :=
  mkCounters (by_rule s) (entry_mod cum0 (bump_cum req byts conn) client (by_client s)).

Definition add (s : CounterStore) (client : ClientId) (rule_id : str) (req byts conn : Z) :
    CounterStore :=
  add_by_client (add_by_rule s client rule_id req byts conn) client req byts conn.

Definition add_requests (s : CounterStore) (client : ClientId) (rule_id : str) (n : Z) :=
  add s client rule_id n 0 0.
Definition add_bytes (s : CounterStore) (client : ClientId) (rule_id : str) (n : Z) :=
  add s client rule_id 0 n 0.
Definition add_connections (s : CounterStore) (client : ClientId) (rule_id : str) (n : Z) :=
  add s client rule_id 0 0 n.

Definition add_ws_connection (s : CounterStore) (client : ClientId) : CounterStore :=
  mkCounters (by_rule s) (entry_mod cum0 bump_ws client (by_client s)).

Definition snapshot_rules (s : CounterStore) : gmap CounterKey (Z * Z * Z) := by_rule s.
Definition snapshot_clients (s : CounterStore) : gmap ClientId CumulativeCounters := by_client s.

Definition get_rule (s : CounterStore) (client : ClientId) (rule_id : str) : Z * Z * Z :=
  default (0, 0, 0) (by_rule s !! mkKey client rule_id).

(** ** Calls and their critical sections *)
Inductive ccall :=
| CRequests (client : ClientId) (rule_id : str) (n : Z)
| CBytes (client : ClientId) (rule_id : str) (n : Z)
| CConnections (client : ClientId) (rule_id : str) (n : Z)
| CWs (client : ClientId).

Definition exec_call (s : CounterStore) (c : ccall) : CounterStore :=
  match c with
  | CRequests cl r n => add_requests s cl r n
  | CBytes cl r n => add_bytes s cl r n
  | CConnections cl r n => add_connections s cl r n
  | CWs cl => add_ws_connection s cl
  end.

Inductive cstep :=
| SRule (client : ClientId) (rule_id : str) (req byts conn : Z)
| SClient (client : ClientId) (req byts conn : Z)
| SWs (client : ClientId).

Definition exec_step (s : CounterStore) (st : cstep) : CounterStore :=
  match st with
  | SRule cl r q b c => add_by_rule s cl r q b c
  | SClient cl q b c => add_by_client s cl q b c
  | SWs cl => add_ws_connection s cl
  end.

Definition add_steps (cl : ClientId) (r : str) (q b c : Z) : list cstep :=
  [SRule cl r q b c; SClient cl q b c].

Definition call_steps (c : ccall) : list cstep :=
  match c with
  | CRequests cl r n => add_steps cl r n 0 0
  | CBytes cl r n => add_steps cl r 0 n 0
  | CConnections cl r n => add_steps cl r 0 0 n
  | CWs cl => [SWs cl]
  end.

Definition call_ok (c : ccall) : Prop :=
  match c with
  | CRequests _ _ n | CBytes _ _ n | CConnections _ _ n => u64_ok n
  | CWs _ => True
  end.

(** What a call adds for a client and, when it names one, for a rule. *)
Definition call_delta (c : ccall) : ClientId * option str * (Z * Z * Z * Z) :=
  match c with
  | CRequests cl r n => (cl, Some r, (n, 0, 0, 0))
  | CBytes cl r n => (cl, Some r, (0, n, 0, 0))
  | CConnections cl r n => (cl, Some r, (0, 0, n, 0))
  | CWs cl => (cl, None, (0, 0, 0, 1))
  end.

Definition total (f : ccall → bool) (proj : Z * Z * Z * Z → Z) (cs : list ccall) : Z :=
  sumZ ((λ c, if f c then proj (call_delta c).2 else 0) <$> cs).

Definition for_client (cl : ClientId) (c : ccall) : bool := bool_decide ((call_delta c).1.1 = cl).
Definition for_rule (cl : ClientId) (r : str) (c : ccall) : bool :=
  bool_decide ((call_delta c).1 = (cl, Some r)).

Definition counters_ok (s : CounterStore) : Prop :=
  map_Forall (λ _ e, u64_ok e.1.1 ∧ u64_ok e.1.2 ∧ u64_ok e.2) (by_rule s)
  ∧ map_Forall (λ _ e, u64_ok (requests e) ∧ u64_ok (bytes e) ∧ u64_ok (connections e)
                       ∧ u64_ok (ws_connections e)) (by_client s).

(** ** Lemmas *)
Definition step_ok (st : cstep) : Prop :=
  match st with
  | SRule _ _ q b c | SClient _ q b c => 0 ≤ q ∧ 0 ≤ b ∧ 0 ≤ c
  | SWs _ => True
  end.

Lemma call_steps_ok c : call_ok c → Forall step_ok (call_steps c).
Proof. unfold call_ok, u64_ok. destruct c; repeat constructor; cbn; lia. Qed.

Lemma exec_call_steps s c : exec_call s c = foldl exec_step s (call_steps c).
Proof. by destruct c. Qed.

Lemma exec_calls_steps s cs : foldl exec_call s cs = foldl exec_step s (concat (call_steps <$> cs)).
Proof.
  revert s. induction cs as [|c cs IH]; intros s; csimpl; [done|].
  by rewrite foldl_app, IH, exec_call_steps.
Qed.

Lemma exec_step_comm s a b :
  step_ok a → step_ok b → exec_step (exec_step s a) b = exec_step (exec_step s b) a.
Proof.
  intros Ha Hb. destruct a, b; cbn in *; unfold add_by_rule, add_by_client, add_ws_connection; cbn;
    f_equal; try done; apply entry_mod_comm.
  - intros [[??]?]. cbn. f_equal; [f_equal|]; apply sat_add_comm3; lia.
  - intros e. unfold bump_cum; cbn. f_equal; apply sat_add_comm3; lia.
  - done.
  - done.
  - done.
Qed.

Lemma get_rule_call s c cl r :
  get_rule (exec_call s c) cl r =
    if for_rule cl r c
    then let '(q, b, k, _) := (call_delta c).2 in bump3 q b k (get_rule s cl r)
    else get_rule s cl r.
Proof.
  unfold get_rule, for_rule. destruct c; cbn; rewrite ?entry_mod_lookup; try done;
    repeat case_decide; repeat case_bool_decide; simplify_eq; try done.
Qed.

Lemma exec_call_ok s c : counters_ok s → call_ok c → counters_ok (exec_call s c).
Proof.
  assert (∀ x n, u64_ok x → u64_ok n → u64_ok (sat_add x n)) as Hsat.
  { intros x n [] []. by apply sat_add_ok. }
  assert (u64_ok 0) as H0 by (split; vm_compute; discriminate).
  assert (u64_ok 1) as H1 by (split; vm_compute; discriminate).
  assert (∀ cl r q b k, counters_ok s → u64_ok q → u64_ok b → u64_ok k →
    counters_ok (add s cl r q b k)) as Hadd.
  { intros cl r q b k [Hr Hc] Hq Hb Hk. split; cbn; apply map_Forall_insert_2; try done.
    - destruct (by_rule s !! _) as [[[e0 e1] e2]|] eqn:E; cbn; [|auto].
      apply Hr in E as (? & ? & ?). cbn in *. auto.
    - destruct (by_client s !! _) as [e|] eqn:E; cbn; [|auto].
      apply Hc in E as (? & ? & ? & ?). cbn. auto. }
  intros Hs Hn. destruct c; cbn; try (apply Hadd; assumption || done).
  destruct Hs as [Hr Hc]. split; cbn; [done|]. apply map_Forall_insert_2; [|done].
  destruct (by_client s !! _) as [e|] eqn:E; cbn; [|auto].
  apply Hc in E as (? & ? & ? & ?). cbn. auto.
Qed.

(** No counter of [a] exceeds the one of [b]. *)
Definition count3_le (a b : Z * Z * Z) : Prop := a.1.1 ≤ b.1.1 ∧ a.1.2 ≤ b.1.2 ∧ a.2 ≤ b.2.

Lemma exec_call_mono s c k v :
  counters_ok s → call_ok c → by_rule s !! k = Some v →
  ∃ v', by_rule (exec_call s c) !! k = Some v' ∧ count3_le v v'.
Proof.
  intros [Hr _] Hc Hk. pose proof (Hr _ _ Hk) as (H1 & H2 & H3).
  assert (∀ cl r q b n, 0 ≤ q → 0 ≤ b → 0 ≤ n →
    ∃ v', by_rule (add s cl r q b n) !! k = Some v' ∧ count3_le v v') as Hadd.
  { intros cl r q b n Hq Hb Hn. cbn. unfold entry_mod. destruct (decide (k = mkKey cl r)) as [->|Hne].
    - rewrite lookup_insert_eq, Hk. eexists. split; [done|].
      destruct v as [[v0 v1] v2]. unfold count3_le, sat_add, u64_ok in *. cbn in *. unfold sat_add. lia.
    - rewrite lookup_insert_ne by done. exists v. unfold count3_le. split; [done|lia]. }
  destruct c as [cl r n|cl r n|cl r n|cl]; cbn in Hc; unfold u64_ok in Hc; try (apply Hadd; lia).
  exists v. cbn. unfold count3_le. split; [done|lia].
Qed.

Lemma exec_calls_mono s cs k v :
  counters_ok s → Forall call_ok cs → by_rule s !! k = Some v →
  ∃ v', by_rule (foldl exec_call s cs) !! k = Some v' ∧ count3_le v v'.
Proof.
  intros Hs Hcs. revert s v Hs. induction Hcs as [|c cs Hc _ IH]; intros s v Hs Hk.
  - exists v. unfold count3_le. split; [done|lia].
  - destruct (exec_call_mono s c k v Hs Hc Hk) as (v1 & Hk1 & Hle1).
    destruct (IH (exec_call s c) v1 (exec_call_ok s c Hs Hc) Hk1) as (v' & Hk' & Hle').
    exists v'. unfold count3_le in *. split; [done|lia].
Qed.

Lemma exec_calls_ok s cs : counters_ok s → Forall call_ok cs → counters_ok (foldl exec_call s cs).
Proof.
  intros Hs Hcs. revert s Hs. induction Hcs as [|c cs Hc _ IH]; intros s Hs; [done|].
  apply IH. by apply exec_call_ok.
Qed.

Lemma exec_calls_keys s cs k :
  is_Some (by_rule (foldl exec_call s cs) !! k) →
  is_Some (by_rule s !! k) ∨ ∃ c, c ∈ cs ∧ (call_delta c).1 = (key_client k, Some (key_rule_id k)).
Proof.
  revert s. induction cs as [|c cs IH]; intros s; [by left|]. cbn [foldl].
  intros [[v Hk]|(c' & Hc' & E)]%IH; [|right; exists c'; split; [by right|done]].
  destruct (by_rule s !! k) as [v'|] eqn:Ek; [by left|]. right. exists c. split; [left|].
  assert (∀ cl r q b n, by_rule (add s cl r q b n) !! k = Some v → k = mkKey cl r) as Hadd.
  { intros cl r q b n. cbn. unfold entry_mod. intros [[-> _]|[_ ?]]%lookup_insert_Some; congruence. }
  destruct c as [cl r n|cl r n|cl r n|cl]; cbn in Hk |- *;
    try (apply Hadd in Hk; by subst). cbn in Hk. congruence.
Qed.

(** Only the calls for a rule matter to its counter. *)
Lemma get_rule_filter s cs cl r :
  get_rule (foldl exec_call s cs) cl r
  = get_rule (foldl exec_call s (filter (λ c, for_rule cl r c = true) cs)) cl r.
Proof.
  assert (∀ cs s1 s2, get_rule s1 cl r = get_rule s2 cl r →
    get_rule (foldl exec_call s1 cs) cl r
    = get_rule (foldl exec_call s2 (filter (λ c, for_rule cl r c = true) cs)) cl r) as H; [|by apply H].
  clear cs s. induction cs as [|c cs IH]; intros s1 s2 Heq; [done|]. cbn [foldl].
  destruct (for_rule cl r c) eqn:Ef.
  - rewrite filter_cons_True by done. cbn [foldl]. apply IH. rewrite !get_rule_call, Ef, Heq. done.
  - rewrite filter_cons_False by (rewrite Ef; done). apply IH. by rewrite get_rule_call, Ef.
Qed.

Definition get_client (s : CounterStore) (cl : ClientId) : CumulativeCounters :=
  default cum0 (by_client s !! cl).

Lemma get_client_call s c cl :
  get_client (exec_call s c) cl =
    if for_client cl c
    then match c with
         | CWs _ => bump_ws (get_client s cl)
         | _ => let '(q, b, k, _) := (call_delta c).2 in bump_cum q b k (get_client s cl)
         end
    else get_client s cl.
Proof.
  unfold get_client, for_client. destruct c; cbn; rewrite ?entry_mod_lookup;
    repeat case_decide; repeat case_bool_decide; simplify_eq; done.
Qed.

Lemma total_snoc f proj cs c :
  total f proj (cs ++ [c]) = total f proj cs + (if f c then proj (call_delta c).2 else 0).
Proof.
  unfold total. rewrite fmap_app. cbn. induction (_ <$> cs) as [|z l IH]; cbn; lia.
Qed.

Lemma call_delta_nonneg c : call_ok c →
  let '(q, b, k, w) := (call_delta c).2 in 0 ≤ q ∧ 0 ≤ b ∧ 0 ≤ k ∧ 0 ≤ w.
Proof. unfold call_ok, u64_ok. destruct c; cbn; lia. Qed.

(** The counter a total saturates to. *)
Definition sat (z : Z) : Z := Z.min U64_MAX z.

Lemma sat_snoc z d : 0 ≤ d → sat_add (sat z) d = sat (z + d).
Proof. unfold sat_add, sat. lia. Qed.

Lemma get_rule_total cs cl r : Forall call_ok cs →
  get_rule (foldl exec_call counters0 cs) cl r
  = (sat (total (for_rule cl r) (λ d, d.1.1.1) cs), sat (total (for_rule cl r) (λ d, d.1.1.2) cs),
     sat (total (for_rule cl r) (λ d, d.1.2) cs)).
Proof.
  induction cs as [|c cs IH] using rev_ind; intros Hok; [done|].
  apply Forall_app in Hok as [Hok [Hc _]%Forall_cons]. apply call_delta_nonneg in Hc.
  rewrite foldl_app. cbn [foldl]. rewrite get_rule_call, IH, !total_snoc by done.
  destruct (for_rule cl r c); [|by rewrite !Z.add_0_r].
  destruct (call_delta c) as [? [[[q b] k] w]]. cbn in *. by rewrite !sat_snoc by lia.
Qed.

Lemma get_client_total cs cl : Forall call_ok cs →
  get_client (foldl exec_call counters0 cs) cl
  = mkCum (sat (total (for_client cl) (λ d, d.1.1.1) cs)) (sat (total (for_client cl) (λ d, d.1.1.2) cs))
      (sat (total (for_client cl) (λ d, d.1.2) cs)) (sat (total (for_client cl) (λ d, d.2) cs)).
Proof.
  induction cs as [|c cs IH] using rev_ind; intros Hok; [done|].
  apply Forall_app in Hok as [Hok [Hc _]%Forall_cons]. apply call_delta_nonneg in Hc.
  rewrite foldl_app. cbn [foldl]. rewrite get_client_call, IH, !total_snoc by done.
  destruct (for_client cl c); [|by rewrite !Z.add_0_r].
  destruct c; cbn in *; unfold bump_cum, bump_ws; cbn; rewrite !Z.add_0_r;
    rewrite ?sat_snoc, ?Z.add_0_r by lia; done.
Qed.

(** ** Properties *)

(** C32 (counters_interleaving): calls of several threads may interleave between
    the two critical sections of [add] in any way: the store they leave is the
    one of running the calls one after the other, each per-rule counter is the
    (saturated) sum of what the calls added for that client and rule, and each
    per-client counter the sum over all rules of that client. *)
Theorem counters_interleaving cs trace :
  Forall call_ok cs → trace ≡ₚ concat (call_steps <$> cs) →
  let s := foldl exec_step counters0 trace in
  s = foldl exec_call counters0 cs
  ∧ (∀ cl r, get_rule s cl r
       = (sat (total (for_rule cl r) (λ d, d.1.1.1) cs), sat (total (for_rule cl r) (λ d, d.1.1.2) cs),
          sat (total (for_rule cl r) (λ d, d.1.2) cs)))
  ∧ (∀ cl, default cum0 (snapshot_clients s !! cl)
       = mkCum (sat (total (for_client cl) (λ d, d.1.1.1) cs))
           (sat (total (for_client cl) (λ d, d.1.1.2) cs))
           (sat (total (for_client cl) (λ d, d.1.2) cs))
           (sat (total (for_client cl) (λ d, d.2) cs))).
Proof.
  intros Hok Hp s.
  assert (s = foldl exec_call counters0 cs) as ->.
  { unfold s. rewrite exec_calls_steps.
    apply (foldl_perm_comm step_ok); [intros; by apply exec_step_comm| |done].
    rewrite Hp. apply Forall_concat, Forall_fmap.
    eapply Forall_impl; [exact Hok|apply call_steps_ok]. }
  split_and!; [done|intros; by apply get_rule_total|intros; by apply get_client_total].
Qed.

Lemma counters_interleaving_witness :
  let c := mkClient [1; 2; 3; 4; 5; 6] (V4 10 0 0 1) in
  let s := foldl exec_step counters0
    [SRule c (lit "a") 2 0 0; SRule c (lit "a") 0 9 0; SClient c 2 0 0; SClient c 0 9 0] in
  get_rule s c (lit "a") = (2, 9, 0).
Proof.
  apply (counters_interleaving
    [CRequests (mkClient [1; 2; 3; 4; 5; 6] (V4 10 0 0 1)) (lit "a") 2;
     CBytes (mkClient [1; 2; 3; 4; 5; 6] (V4 10 0 0 1)) (lit "a") 9]).
  - repeat constructor; vm_compute; discriminate.
  - cbn. apply perm_skip, perm_swap.
Defined.
