(* ===== verification/Enforcer.v ===== *)
(** Enforcement ([crates/mw-core/src/enforcer.rs]): the run mode, the
    [Enforcer] trait as a class with the laws its clients rely on, and the two
    userspace enforcers. *)

From S2P Require Import Prelude Text Client Rule Window Policy.

(** ** Run mode *)
Inductive Mode := Enforce | Permissive.

#[export] Instance Mode_eq_dec : EqDecision Mode.
Proof. solve_decision. Defined.

Definition mode_from_str (s : str) : result Mode str :=
  let other := to_ascii_lowercase s in
  ok_or (lit "invalid mode `" ++ other ++ lit "` (expected enforce|permissive)")
    (str_match [(["enforce"], Enforce); (["permissive"], Permissive)]%string other).

Definition mode_as_str (m : Mode) : str :=
  match m with
  | Enforce => lit "enforce"
  | Permissive => lit "permissive"
  end.

(** ** The trait *)
Class Enforcer (E : Type) := {
  apply : E → ClientId → EffectiveAction → E;
  clear : E → ClientId → E
}.

(** What an enforcer promises: an enforced action per supported client
    ([in_force], pass when nothing is recorded), changed by [apply] and [clear]
    for that client alone; the other clients are never affected. *)
Class EnforcerLaws (E : Type) `{Enforcer E} := {
  supports : ClientId → bool;
  in_force : E → ClientId → EffectiveAction;
  in_force_apply : ∀ e c c' a, client_ok c → client_ok c' →
    in_force (apply e c a) c' = if bool_decide (c' = c) && supports c then a else in_force e c';
  in_force_clear : ∀ e c c', client_ok c → client_ok c' →
    in_force (clear e c) c' = if bool_decide (c' = c) then EffNone else in_force e c';
  in_force_unsupported : ∀ e c, supports c = false → in_force e c = EffNone;
  apply_apply_comm : ∀ e c c' a a', client_ok c → client_ok c' → c ≠ c' →
    apply (apply e c a) c' a' = apply (apply e c' a') c a;
  apply_clear_comm : ∀ e c c' a, client_ok c → client_ok c' → c ≠ c' →
    clear (apply e c a) c' = apply (clear e c') c a;
  clear_clear_comm : ∀ e c c', client_ok c → client_ok c' → c ≠ c' →
    clear (clear e c) c' = clear (clear e c') c
}.

(** ** The would-be log of permissive mode *)
Record PermissiveLog := mkLog { inner : gmap ClientId EffectiveAction }.
Record PermissiveEnforcer := mkPermissive { log : PermissiveLog }.

Definition log_snapshot (l : PermissiveLog) : gmap ClientId EffectiveAction := inner l.
Definition log_get (l : PermissiveLog) (c : ClientId) : option EffectiveAction := inner l !! c.

#[export] Instance permissive_enforcer : Enforcer PermissiveEnforcer := {
  apply e c a := mkPermissive (mkLog (<[c := a]> (inner (log e))));
  clear e c := mkPermissive (mkLog (delete c (inner (log e))))
}.

(** The test double of the sources. *)
Record FakeEnforcer := mkFake { applied : gmap ClientId EffectiveAction }.

#[export] Instance fake_enforcer : Enforcer FakeEnforcer := {
  apply e c a := mkFake (<[c := a]> (applied e));
  clear e c := mkFake (delete c (applied e))
}.

(** ** The laws hold *)
Lemma map_in_force_insert (m : gmap ClientId EffectiveAction) c c' a :
  default EffNone (<[c := a]> m !! c')
  = if bool_decide (c' = c) && true then a else default EffNone (m !! c').
Proof.
  case_bool_decide; [subst; by rewrite lookup_insert_eq|]. by rewrite lookup_insert_ne.
Qed.

Lemma map_in_force_delete (m : gmap ClientId EffectiveAction) c c' :
  default EffNone (delete c m !! c')
  = if bool_decide (c' = c) then EffNone else default EffNone (m !! c').
Proof.
  case_bool_decide; [subst; by rewrite lookup_delete_eq|]. by rewrite lookup_delete_ne.
Qed.

#[export] Instance permissive_laws : EnforcerLaws PermissiveEnforcer.
Proof.
  refine {| supports _ := true; in_force e c := default EffNone (inner (log e) !! c) |};
    try done; cbn; intros.
  - apply map_in_force_insert.
  - apply map_in_force_delete.
  - do 2 f_equal. by apply insert_insert_ne.
  - do 2 f_equal. by apply delete_insert_ne.
  - do 2 f_equal. apply delete_delete.
Defined.

#[export] Instance fake_laws : EnforcerLaws FakeEnforcer.
Proof.
  refine {| supports _ := true; in_force e c := default EffNone (applied e !! c) |};
    try done; cbn; intros.
  - apply map_in_force_insert.
  - apply map_in_force_delete.
  - f_equal. by apply insert_insert_ne.
  - f_equal. by apply delete_insert_ne.
  - f_equal. apply delete_delete.
Defined.

(** *** Runs of an enforcer: [None] is a [clear] *)
Definition enf_op {E} `{Enforcer E} (e : E) (o : ClientId * option EffectiveAction) : E :=
  match o.2 with
  | Some a => apply e o.1 a
  | None => clear e o.1
  end.

(** The last operation on a client. *)
Definition last_op (c : ClientId) (ops : list (ClientId * option EffectiveAction)) :
    option (option EffectiveAction) :=
  foldl (λ acc o, if bool_decide (o.1 = c) then Some o.2 else acc) None ops.

Section laws.
Context {E : Type} `{EnforcerLaws E}.

Lemma in_force_op e o c :
  client_ok o.1 → client_ok c →
  in_force (enf_op e o) c
  = if bool_decide (o.1 = c) then (if supports c then default EffNone o.2 else EffNone)
    else in_force e c.
Proof.
  intros Ho Hc. destruct o as [c' o]. unfold enf_op. cbn in *.
  destruct (decide (c' = c)) as [->|Hne].
  - rewrite bool_decide_eq_true_2 by done. destruct o as [a|]; cbn.
    + rewrite in_force_apply, bool_decide_eq_true_2 by done. cbn.
      destruct (supports c) eqn:Hs; [done|]. by apply in_force_unsupported.
    + rewrite in_force_clear, bool_decide_eq_true_2 by done. by destruct (supports c).
  - rewrite bool_decide_eq_false_2 by done. destruct o as [a|]; cbn.
    + by rewrite in_force_apply, bool_decide_eq_false_2 by done.
    + by rewrite in_force_clear, bool_decide_eq_false_2 by done.
Qed.

Lemma enf_op_comm e o o' :
  client_ok o.1 → client_ok o'.1 → o.1 ≠ o'.1 →
  enf_op (enf_op e o) o' = enf_op (enf_op e o') o.
Proof.
  destruct o as [c [a|]], o' as [c' [a'|]]; cbn; intros Hc Hc' Hne.
  - by apply apply_apply_comm.
  - by apply apply_clear_comm.
  - symmetry. by apply apply_clear_comm.
  - by apply clear_clear_comm.
Qed.

Lemma in_force_foldl (e : E) ops c :
  Forall (λ o, client_ok o.1) ops → client_ok c →
  in_force (foldl enf_op e ops) c
  = match last_op c ops with
    | Some act => if supports c then default EffNone act else EffNone
    | None => in_force e c
    end.
Proof.
  intros Hok Hc. induction ops as [|o ops IH] using rev_ind; [done|].
  apply Forall_app in Hok as [Hok [Ho _]%Forall_cons]. unfold last_op in *.
  rewrite !foldl_app. cbn [foldl]. rewrite in_force_op, (IH Hok) by done.
  by case_bool_decide.
Qed.
End laws.

Lemma last_op_map (f : ClientId → option EffectiveAction) cs c :
  last_op c ((λ c, (c, f c)) <$> cs) = if decide (c ∈ cs) then Some (f c) else None.
Proof.
  induction cs as [|c' cs IH] using rev_ind; [done|].
  unfold last_op in *. rewrite fmap_app, foldl_app. cbn. rewrite IH.
  case_bool_decide; subst; repeat case_decide; try done; set_solver.
Qed.

(** ** Properties *)

(** any enforcer that satisfies the laws of the
    trait enforces for each supported client the last action applied to it
    (pass after a clear), whatever is done for other clients in between, and
    passes every client it does not support. *)
Theorem enforcer_last_write_wins {E} `{EnforcerLaws E} (e : E) ops c :
  Forall (λ o, client_ok o.1) ops → client_ok c →
  in_force (foldl enf_op e ops) c
  = match last_op c ops with
    | Some act => if supports c then default EffNone act else EffNone
    | None => in_force e c
    end.
Proof. apply in_force_foldl. Qed.

Lemma enforcer_last_write_wins_witness :
  let c := mkClient [1; 2; 3; 4; 5; 6] (V4 10 0 0 1) in
  in_force (foldl enf_op (mkPermissive (mkLog ∅))
    [(c, Some EffBlock); (c, None); (c, Some (EffThrottle 30))]) c = EffThrottle 30.
Proof.
  intros c. rewrite enforcer_last_write_wins; [reflexivity|..];
    repeat constructor; vm_compute; discriminate.
Defined.

(** A mode parses back from the name it prints, in
    any ASCII case, and every other text is an error. *)
Theorem mode_names_round_trip :
  (∀ m, mode_from_str (mode_as_str m) = Ok m)
  ∧ (∀ s m, mode_from_str s = Ok m ↔ to_ascii_lowercase s = mode_as_str m).
Proof.
  split; [by intros []|]. intros s m. unfold mode_from_str, str_match. cbn.
  repeat case_bool_decide; cbn; destruct m; cbn; naive_solver congruence.
Qed.
