(* ===== verification/Config.v ===== *)
(** Configuration records and rule compilation
    ([crates/mw-core/src/config.rs]).  The YAML parser (crate [serde_yaml]) is
    the parameter [YamlEngine]. *)

From S2P Require Import Prelude Text Rule Enforcer.

(** ** Data *)
Record DaemonConfig := mkDaemonConfig {
  cfg_mode : Mode;
  cfg_interface : option str;
  cooldown_secs : Z;
  stats_snapshot_secs : Z;
  cfg_allow_users : list str
}.

Definition default_cooldown : Z := 30.
Definition default_snapshot : Z := 5.
Definition default_allow_users : list str := [lit "root"; lit "bigfred"; lit "bigfred-wizard"].
Definition default_interface : option str := Some (lit "any").

Definition default_config : DaemonConfig :=
  mkDaemonConfig Enforce default_interface default_cooldown default_snapshot default_allow_users.

(** Named sets, flattened. *)
Abbreviation SetsConfig := (gmap str (list str)).

Inductive ConfigAction := CfgThrottle (drop_rate : Z) | CfgBlock.

Record ConfigRule := mkConfigRule {
  cr_id : str;
  cr_protocol : str;
  cr_ports : option (list Z);
  cr_metric : str;
  cr_window : str;
  cr_limit : Z;
  cr_action : ConfigAction;
  cr_min_threshold : Z;
  cr_match : option str
}.

Definition action_from_config (a : ConfigAction) : Action :=
  match a with
  | CfgThrottle drop_rate => Throttle drop_rate
  | CfgBlock => Block
  end.

(** ** Parsing: [serde_yaml] values and their conversions *)
Class YamlEngine := {
  YValue : Type;
  yaml_from_str : str → result YValue str;
  is_sequence : YValue → bool;
  is_mapping : YValue → bool;
  rules_from_value : YValue → result (list ConfigRule) str;
  rule_from_value : YValue → result ConfigRule str
}.

Section config.
Context `{CEL : CelEngine}.
Local Open Scope mwaf_scope.

Definition parse_rules_yaml `{YAML : YamlEngine} (text : str) :
    result (list ConfigRule) ConfigError :=
  let? value := map_err ParseError (yaml_from_str text) in
  if is_sequence value then map_err ParseError (rules_from_value value)
  else if is_mapping value then
    let? one := map_err ParseError (rule_from_value value) in
    Ok [one]
  else Err (ParseError (lit "rules file must be a list or a single mapping")).

(** ** Compilation *)

(** An absent or empty expression compiles to no program. *)
Definition compile_cel (c : ConfigRule) : result (option CompiledMatch) ConfigError :=
  match cr_match c with
  | Some src =>
      if bool_decide (src = []) then Ok None
      else let? p := map_err (CelCompile (cr_id c)) (compile_match src) in Ok (Some p)
  | None => Ok None
  end.

Definition compile (c : ConfigRule) : result Rule ConfigError :=
  let? protocol := protocol_from_str (cr_protocol c) in
  let? metric := metric_from_str (cr_metric c) in
  let? window := window_from_str (cr_window c) in
  let? compiled := compile_cel c in
  let rule := {|
    r_id := cr_id c;
    r_protocol := protocol;
    r_ports := cr_ports c;
    r_metric := metric;
    r_window := window;
    r_limit := cr_limit c;
    r_action := action_from_config (cr_action c);
    r_min_threshold := cr_min_threshold c;
    r_match := compiled;
    r_match_src := cr_match c
  |} in
  let? _ := validate rule in
  Ok rule.

(** The loop of [compile_ruleset]. *)
Fixpoint compile_all (configs : list ConfigRule) : result (list Rule) ConfigError :=
  match configs with
  | [] => Ok []
  | c :: configs' =>
      let? r := compile c in
      let? rs := compile_all configs' in
      Ok (r :: rs)
  end.

Definition compile_ruleset (configs : list ConfigRule) : result RuleSet ConfigError :=
  if (MAX_RULES <? length configs)%nat then Err (TooManyRules (length configs) MAX_RULES)
  else
    let? rules := compile_all configs in
    ruleset_new rules.

(** ** Specification: what a rule file entry means *)
Record compiles_to (c : ConfigRule) (r : Rule) : Prop := {
  ct_id : r_id r = cr_id c;
  ct_protocol : protocol_from_str (cr_protocol c) = Ok (r_protocol r);
  ct_ports : r_ports r = cr_ports c;
  ct_metric : metric_from_str (cr_metric c) = Ok (r_metric r);
  ct_window : window_from_str (cr_window c) = Ok (r_window r);
  ct_limit : r_limit r = cr_limit c;
  ct_action : r_action r = action_from_config (cr_action c);
  ct_threshold : r_min_threshold r = cr_min_threshold c;
  ct_match : match default [] (cr_match c) with
             | [] => r_match r = None
             | src => ∃ p, compile_match src = Ok p ∧ r_match r = Some p
             end;
  ct_match_src : r_match_src r = cr_match c;
  ct_ok : rule_ok r
}.

(** ** Lemmas *)
Lemma compile_cel_Ok c o :
  compile_cel c = Ok o ↔
  match default [] (cr_match c) with
  | [] => o = None
  | src => ∃ p, compile_match src = Ok p ∧ o = Some p
  end.
Proof.
  unfold compile_cel. destruct (cr_match c) as [[|x src]|]; cbn [default].
  - rewrite bool_decide_eq_true_2 by done. naive_solver.
  - rewrite bool_decide_eq_false_2 by done. rewrite res_bind_Ok. setoid_rewrite map_err_Ok.
    naive_solver.
  - naive_solver.
Qed.

Lemma compile_spec c r : compile c = Ok r ↔ compiles_to c r.
Proof.
  unfold compile. split.
  - intros (p & Hp & (m & Hm & (w & Hw & (o & Ho & ([] & Hv & [= <-])%res_bind_Ok)%res_bind_Ok)
      %res_bind_Ok)%res_bind_Ok)%res_bind_Ok.
    apply validate_ok in Hv. apply compile_cel_Ok in Ho. by constructor.
  - intros []. destruct r as [i p po m w l a t mt ms]; cbn in *. subst.
    rewrite ct_protocol0, ct_metric0, ct_window0. cbn [res_bind].
    rewrite (proj2 (compile_cel_Ok c mt)) by done. cbn [res_bind].
    by rewrite (proj2 (validate_ok _)).
Qed.

Lemma compile_all_Ok cs rs : compile_all cs = Ok rs ↔ Forall2 compiles_to cs rs.
Proof.
  revert rs. induction cs as [|c cs IH]; intros rs; cbn [compile_all].
  - split; [intros [= <-]; constructor|by inversion 1].
  - rewrite res_bind_Ok. split.
    + intros (r & Hr%compile_spec & (rs' & Hrs%IH & [= <-])%res_bind_Ok). by constructor.
    + inversion 1; subst. eexists. rewrite compile_spec. split; [done|].
      apply res_bind_Ok. eexists. by rewrite IH.
Qed.

Lemma compile_all_Err cs e :
  compile_all cs = Err e →
  ∃ pre c post rs, cs = pre ++ c :: post ∧ Forall2 compiles_to pre rs ∧ compile c = Err e.
Proof.
  induction cs as [|c cs IH]; cbn [compile_all]; [done|].
  intros [Hc|(r & Hr%compile_spec & [Hcs|(? & ? & [=])]%res_bind_Err)]%res_bind_Err.
  - exists [], c, cs, []. naive_solver.
  - destruct (IH Hcs) as (pre & c' & post & rs & -> & ? & ?).
    exists (c :: pre), c', post, (r :: rs). split_and!; [done|by constructor|done].
Qed.

Lemma compile_all_app_Err pre c post rs e :
  Forall2 compiles_to pre rs → compile c = Err e → compile_all (pre ++ c :: post) = Err e.
Proof.
  intros Hpre Hc. induction Hpre as [|c' r pre rs H%compile_spec _ IH]; cbn [app compile_all].
  - by rewrite Hc.
  - by rewrite H, IH.
Qed.
End config.

(** ** Properties *)

(** C29 (compile_ruleset_spec): a rule file compiles exactly when it has at most
    256 rules, each means a valid rule and the ids are distinct, and the rule
    set is then those rules in file order; otherwise the error is the size
    error, else that of the first rule that does not compile, else the first
    repeated id. *)
Theorem compile_ruleset_spec `{CEL : CelEngine} (cs : list ConfigRule) :
  (∀ rs, compile_ruleset cs = Ok rs ↔
     (length cs ≤ MAX_RULES)%nat ∧ Forall2 compiles_to cs rs ∧ NoDup (r_id <$> rs))
  ∧ (∀ rs, compile_ruleset cs = Ok rs → ruleset_ok rs)
  ∧ (∀ e, compile_ruleset cs = Err e ↔
       ((MAX_RULES < length cs)%nat ∧ e = TooManyRules (length cs) MAX_RULES)
       ∨ ((length cs ≤ MAX_RULES)%nat ∧ ∃ pre c post rs,
            cs = pre ++ c :: post ∧ Forall2 compiles_to pre rs ∧ compile c = Err e)
       ∨ ((length cs ≤ MAX_RULES)%nat ∧ ∃ rs pre r post,
            Forall2 compiles_to cs rs ∧ rs = pre ++ r :: post ∧ NoDup (r_id <$> pre)
            ∧ r_id r ∈ r_id <$> pre ∧ e = DuplicateRuleId (r_id r))).
Proof.
  assert (∀ l rs, Forall2 compiles_to l rs → Forall rule_ok rs) as Hok.
  { intros l rs H. induction H as [|c r l rs Hc _ IH]; constructor; [apply Hc|done]. }
  assert (∀ rs, compile_ruleset cs = Ok rs ↔
     (length cs ≤ MAX_RULES)%nat ∧ Forall2 compiles_to cs rs ∧ NoDup (r_id <$> rs)) as HOk.
  { intros rs. unfold compile_ruleset. destruct (Nat.ltb_spec MAX_RULES (length cs)) as [Hl|Hl].
    { split; [done|]. intros [? _]. lia. }
    rewrite res_bind_Ok. split.
    - intros (rs' & H%compile_all_Ok & Hn). apply ruleset_new_ok in Hn as (-> & _ & ? & _). done.
    - intros (_ & H & Hnd). exists rs. split; [by apply compile_all_Ok|].
      unfold ruleset_new. pose proof (Forall2_length _ _ _ H) as HL. rewrite <- HL.
      rewrite (proj2 (Nat.ltb_ge _ _)) by done. rewrite (proj2 (check_rules_spec ∅ rs)); [done|].
      split_and!; [by eapply Hok|done|set_solver]. }
  split_and!; [done| |].
  - intros rs (Hl & H & Hnd)%HOk. split_and!; [|done|by eapply Hok].
    by rewrite <- (Forall2_length _ _ _ H).
  - intros e. unfold compile_ruleset in *.
    destruct (Nat.ltb_spec MAX_RULES (length cs)) as [Hl|Hl]; [naive_solver lia|].
    rewrite res_bind_Err. split.
    + intros [H%compile_all_Err|(rs & H%compile_all_Ok & Hn)]; [naive_solver|]. right; right.
      split; [done|]. unfold ruleset_new in Hn. pose proof (Forall2_length _ _ _ H) as HL.
      rewrite <- HL, (proj2 (Nat.ltb_ge _ _)) in Hn by done.
      destruct (check_rules ∅ rs) as [|e'] eqn:E; [done|]. injection Hn as ->.
      apply check_rules_err in E as (pre & r & post & -> & Hpre & He).
      apply check_rules_spec in Hpre as (_ & ? & _).
      exists (pre ++ r :: post), pre, r, post. pose proof (Hok _ _ H) as Hrok.
      apply Forall_app in Hrok as [_ [Hr _]%Forall_cons].
      destruct He as [He|(_ & -> & [Hin|[]%not_elem_of_empty])]; [|done].
      apply validate_ok in Hr. congruence.
    + intros [[? _]|[(_ & pre & c & post & rs & -> & Hpre & Hc)|(_ & rs & pre & r & post & H & -> & Hnd & Hin & ->)]].
      * lia.
      * left. by eapply compile_all_app_Err.
      * right. exists (pre ++ r :: post). split; [by apply compile_all_Ok|].
        pose proof (Forall2_length _ _ _ H) as HL. unfold ruleset_new. rewrite <- HL.
        rewrite (proj2 (Nat.ltb_ge _ _)) by done.
        pose proof (Hok _ _ H) as Hrok. apply Forall_app in Hrok as [Hpre [Hr _]%Forall_cons].
        rewrite check_rules_app by by apply check_rules_spec; set_solver.
        cbn [check_rules]. rewrite (proj2 (validate_ok r) Hr).
        rewrite bool_decide_eq_true_2; [done|]. set_solver.
Qed.
