(* ===== verification/State.v ===== *)
(** The shared daemon state ([crates/microwaf/src/state.rs]) and its invariant.
    [E] is the type behind the [Arc<dyn Enforcer>]. *)

From S2P Require Import Prelude Text Client Rule Window Policy Counters Enforcer Config.

(** ** Data *)
Section state.
Context `{CEL : CelEngine} {E : Type} `{ENF : Enforcer E}.

(** [LiveConfig] of [crates/microwaf/src/config.rs]. *)
Record LiveConfig := mkLive {
  live_daemon : DaemonConfig;
  live_sets : SetsConfig;
  live_rules : RuleSet
}.

Record DaemonState := mkState {
  st_mode : Mode;
  st_interface : str;
  live : LiveConfig;
  policies : PolicyMap;
  windows : gmap ClientId RuleWindows;
  counters : CounterStore;
  last_counters : gmap CounterKey (Z * Z * Z);
  would_be : gmap ClientId EffectiveAction;
  enforcer : option E
}.

(** ** Operations *)
Definition state_new (mode : Mode) (interface : str) (l : LiveConfig) : DaemonState :=
  mkState mode interface l ∅ ∅ counters0 ∅ ∅ None.

Definition set_enforcer (s : DaemonState) (e : E) : DaemonState :=
  mkState (st_mode s) (st_interface s) (live s) (policies s) (windows s) (counters s)
    (last_counters s) (would_be s) (Some e).

(** The two maps that [apply] and [clear] write, replaced together. *)
Definition with_enforcement (s : DaemonState) (wb : gmap ClientId EffectiveAction)
    (e : option E) : DaemonState :=
  mkState (st_mode s) (st_interface s) (live s) (policies s) (windows s) (counters s)
    (last_counters s) wb e.

Definition with_policies (s : DaemonState) (p : PolicyMap) : DaemonState :=
  mkState (st_mode s) (st_interface s) (live s) p (windows s) (counters s)
    (last_counters s) (would_be s) (enforcer s).

Definition with_windows (s : DaemonState) (w : gmap ClientId RuleWindows) : DaemonState :=
  mkState (st_mode s) (st_interface s) (live s) (policies s) w (counters s)
    (last_counters s) (would_be s) (enforcer s).

Definition with_counters (s : DaemonState) (c : CounterStore) : DaemonState :=
  mkState (st_mode s) (st_interface s) (live s) (policies s) (windows s) c
    (last_counters s) (would_be s) (enforcer s).

Definition with_last (s : DaemonState) (l : gmap CounterKey (Z * Z * Z)) : DaemonState :=
  mkState (st_mode s) (st_interface s) (live s) (policies s) (windows s) (counters s)
    l (would_be s) (enforcer s).

Definition state_apply (s : DaemonState) (client : ClientId) (action : EffectiveAction) :
    DaemonState :=
  let s := if decide (st_mode s = Permissive)
           then with_enforcement s (<[client := action]> (would_be s)) (enforcer s) else s in
  match enforcer s with
  | Some e => with_enforcement s (would_be s) (Some (apply e client action))
  | None => s
  end.

Definition state_clear (s : DaemonState) (client : ClientId) : DaemonState :=
  let s := with_enforcement s (delete client (would_be s)) (enforcer s) in
  match enforcer s with
  | Some e => with_enforcement s (would_be s) (Some (clear e client))
  | None => s
  end.

Definition rules (s : DaemonState) : RuleSet := live_rules (live s).
Definition state_sets (s : DaemonState) : SetsConfig := live_sets (live s).
Definition daemon_cfg (s : DaemonState) : DaemonConfig := live_daemon (live s).
Definition allow_users (s : DaemonState) : list str := cfg_allow_users (daemon_cfg s).

Definition swap_live (s : DaemonState) (l : LiveConfig) : DaemonState :=
  mkState (st_mode s) (st_interface s) l (policies s) (windows s) (counters s)
    (last_counters s) (would_be s) (enforcer s).

(** What the [match]-arms of the callers do with an effective action. *)
Definition enforce (s : DaemonState) (client : ClientId) (eff : EffectiveAction) : DaemonState :=
  match eff with
  | EffNone => state_clear s client
  | other => state_apply s client other
  end.

(** ** Invariant *)

(** [keys_ok m]: every key is a well-formed client. *)
Definition keys_ok {A} (m : gmap ClientId A) : Prop := map_Forall (λ c _, client_ok c) m.

(** The integers of a rule have their Rust types. *)
Definition rule_typed (r : Rule) : Prop :=
  action_ok (r_action r) ∧ u64_ok (r_limit r) ∧ u64_ok (r_min_threshold r)
  ∧ Forall u16_ok (default [] (r_ports r)).

Definition count3_ok (e : Z * Z * Z) : Prop := u64_ok e.1.1 ∧ u64_ok e.1.2 ∧ u64_ok e.2.

Record state_ok (s : DaemonState) : Prop := {
  ok_rules : ruleset_ok (rules s);
  ok_types : Forall rule_typed (rules s);
  ok_policy_keys : keys_ok (policies s);
  ok_policies : map_Forall (λ _, policy_ok) (policies s);
  ok_windows : map_Forall (λ _, windows_ok) (windows s);
  ok_counter_keys : map_Forall (λ k _, client_ok (key_client k)) (by_rule (counters s));
  ok_counters : counters_ok (counters s);
  ok_last : map_Forall (λ k l, count3_ok l
              ∧ ∃ c, by_rule (counters s) !! k = Some c ∧ count3_le l c) (last_counters s);
  ok_would_be : map_Forall (λ c a, c ∈ dom (policies s) ∧ a ≠ EffNone ∧ eff_ok a
                ∧ st_mode s = Permissive)
                  (would_be s)
}.

(** ** Lemmas *)
Lemma state_new_ok mode i l :
  ruleset_ok (live_rules l) → Forall rule_typed (live_rules l) →
  state_ok (state_new mode i l).
Proof.
  intros. constructor; cbn; try apply map_Forall_empty; [done..|]. split; apply map_Forall_empty.
Qed.

Lemma insert_policy_ok s c p :
  state_ok s → client_ok c → policy_ok p →
  state_ok (with_policies s (<[c := p]> (policies s))).
Proof.
  intros Hs Hc Hp. constructor; cbn; try apply Hs.
  - apply map_Forall_insert_2; [done|apply Hs].
  - apply map_Forall_insert_2; [done|apply Hs].
  - intros c' a Ha. destruct (ok_would_be _ Hs c' a Ha) as (H1 & H2 & H3 & H4).
    split_and!; [|done..]. rewrite dom_insert. set_solver.
Qed.

Lemma set_enforcer_ok s e : state_ok s → state_ok (set_enforcer s e).
Proof. intros Hs. constructor; apply Hs. Qed.

(** [enforce] changes only the would-be map and the enforcer. *)
Definition would_be_set (mode : Mode) (c : ClientId) (eff : EffectiveAction)
    (wb : gmap ClientId EffectiveAction) : gmap ClientId EffectiveAction :=
  match eff with
  | EffNone => delete c wb
  | _ => if decide (mode = Permissive) then <[c := eff]> wb else wb
  end.

Definition eff_act (eff : EffectiveAction) : option EffectiveAction :=
  match eff with
  | EffNone => None
  | _ => Some eff
  end.

Definition eff_op (c : ClientId) (eff : EffectiveAction) : ClientId * option EffectiveAction :=
  (c, eff_act eff).

Lemma eff_act_default eff : default EffNone (eff_act eff) = eff.
Proof. by destruct eff. Qed.

Lemma enforce_eq s c eff :
  enforce s c eff =
    with_enforcement s (would_be_set (st_mode s) c eff (would_be s))
      ((λ e, enf_op e (eff_op c eff)) <$> enforcer s).
Proof.
  destruct s as [mode i l p w cs la wb e].
  unfold enforce, state_apply, state_clear, would_be_set, enf_op, eff_op.
  destruct eff, e; cbn; try case_decide; done.
Qed.

Lemma would_be_set_comm mode c c' a a' wb :
  c ≠ c' → would_be_set mode c a (would_be_set mode c' a' wb)
           = would_be_set mode c' a' (would_be_set mode c a wb).
Proof.
  intros Hne. unfold would_be_set. destruct a, a'; repeat case_decide; try done;
    first [apply delete_delete|by apply insert_insert_ne|by apply delete_insert_ne
          |symmetry; by apply delete_insert_ne].
Qed.

Lemma would_be_set_eq mode c a wb :
  would_be_set mode c a wb !! c
  = if decide (a ≠ EffNone ∧ mode ≠ Permissive) then wb !! c else eff_act a.
Proof.
  unfold would_be_set. destruct a; repeat case_decide; try naive_solver;
    first [apply lookup_delete_eq|apply lookup_insert_eq].
Qed.

Lemma would_be_set_ne mode c c' a wb : c' ≠ c → would_be_set mode c a wb !! c' = wb !! c'.
Proof.
  intros. unfold would_be_set. destruct a; repeat case_decide; try done;
    first [by rewrite lookup_delete_ne|by rewrite lookup_insert_ne].
Qed.
End state.

Arguments LiveConfig {CEL}.
Arguments DaemonState {CEL} E.

(** ** A concrete daemon *)
Section example.

(** An engine whose programs are their sources and that accepts every match. *)
Definition yes_engine : CelEngine := {|
  Program := str;
  cel_compile := Ok;
  cel_execute _ _ := Ok (VBool true)
|}.
Local Existing Instance yes_engine.

Definition demo_client : ClientId := mkClient [2; 0; 0; 0; 0; 1] (V4 10 0 0 7).

Definition demo_rule : Rule := {|
  r_id := lit "r"; r_protocol := Tcp; r_ports := None; r_metric := Bytes;
  r_window := PerSecond; r_limit := 10; r_action := Block; r_min_threshold := 0;
  r_match := None; r_match_src := None
|}.

(** The client has sent 100 bytes against a limit of 10. *)
Definition demo_state : DaemonState PermissiveEnforcer :=
  with_counters
    (set_enforcer (state_new Permissive (lit "any") (mkLive default_config ∅ [demo_rule]))
       (mkPermissive (mkLog ∅)))
    (add_bytes counters0 demo_client (lit "r") 100).

Lemma demo_client_ok : client_ok demo_client.
Proof. repeat constructor; vm_compute; discriminate. Qed.

Lemma demo_state_ok : state_ok demo_state.
Proof.
  assert (counters_ok (add_bytes counters0 demo_client (lit "r") 100)) as Hc.
  { apply (exec_call_ok counters0 (CBytes demo_client (lit "r") 100)).
    - split; apply map_Forall_empty.
    - split; vm_compute; discriminate. }
  constructor; try apply map_Forall_empty; try done.
  - split_and!; [vm_compute; lia|repeat constructor; set_solver|].
    apply Forall_singleton. apply validate_ok. reflexivity.
  - apply Forall_singleton. split_and!; [done|vm_compute; split; discriminate..|constructor].
  - intros k v. unfold demo_state, add_bytes, add, add_by_rule, entry_mod; cbn.
    intros [[<- _]|[_ []%lookup_empty_Some]]%lookup_insert_Some. apply demo_client_ok.
Qed.
End example.
