(* ===== verification/Decision.v ===== *)
(** The decision loop ([crates/microwaf/src/decision.rs]): one tick moves the
    counter deltas into the windows, evaluates the rules, updates the policies
    and drives the enforcer.  The refinement: a tick is one independent
    [client_tick] per touched client, whatever the hash order. *)

From S2P Require Import Prelude Text Client Rule Window Policy Counters Enforcer Config State.

Section decision.
Context `{CEL : CelEngine} {E : Type} `{ENF : Enforcer E}.

(** ** The tick as written *)

(** [if d > 0 { win.add(..) }] *)
Definition add_if (win : RuleWindows) (rule_id : str) (m : Metric) (d now : Z) :
    option RuleWindows :=
  if 0 <? d then rw_add win rule_id m d now else Some win.

(** The body of the loop over the snapshot, for the entries of [client]. *)
Definition delta_step (last : gmap CounterKey (Z * Z * Z)) (client : ClientId) (now : Z)
    (win : RuleWindows) (kv : CounterKey * (Z * Z * Z)) : option RuleWindows :=
  let '(key, (req, byts, conn)) := kv in
  if bool_decide (key_client key ≠ client) then Some win
  else
    let prev := default (0, 0, 0) (last !! key) in
    let d_req := sat_sub req prev.1.1 in
    let d_bytes := sat_sub byts prev.1.2 in
    let d_conn := sat_sub conn prev.2 in
    win ← add_if win (key_rule_id key) Requests d_req now;
    win ← add_if win (key_rule_id key) Bytes d_bytes now;
    add_if win (key_rule_id key) Connections d_conn now.

Definition apply_deltas `{HI : HashIter} (snapshot last : gmap CounterKey (Z * Z * Z))
    (client : ClientId) (now : Z) (win : RuleWindows) : option RuleWindows :=
  opt_fold (delta_step last client now) (hiter snapshot) win.

(** The policy update of one client. *)
Definition update_policy (policy : ClientPolicy) (violations : list Violation) (now cooldown : Z) :
    option ClientPolicy :=
  best ← strongest_auto violations now cooldown;
  let auto' :=
    match best with
    | Some a => Some a
    | None => match auto_ policy with
              | Some a => if auto_is_expired a now then None else Some a
              | None => None
              end
    end in
  let manual' :=
    match manual policy with
    | Some m => if manual_is_expired m now then None else Some m
    | None => None
    end in
  Some (mkPolicy manual' auto').

(** The body of the loop over the clients. *)
Definition tick_client `{HI : HashIter} (snapshot last : gmap CounterKey (Z * Z * Z))
    (now cooldown : Z) (s : DaemonState E) (client : ClientId) : option (DaemonState E) :=
  let win := rw_advance_all (default ∅ (windows s !! client)) now in
  win ← apply_deltas snapshot last client now win;
  let s := with_windows s (<[client := win]> (windows s)) in
  let violations := evaluate (rules s) win in
  policy ← update_policy (default policy0 (policies s !! client)) violations now cooldown;
  let s := with_policies s (<[client := policy]> (policies s)) in
  Some (enforce s client (merge_policy policy now)).

(** The clients of this tick: those of the snapshot and those with a policy. *)
Definition tick_clients (snapshot : gmap CounterKey (Z * Z * Z)) (p : PolicyMap) : gset ClientId :=
  set_map key_client (dom snapshot) ∪ dom p.

Definition tick_cooldown (s : DaemonState E) : Z :=
  from_secs (Z.max (cooldown_secs (daemon_cfg s)) 1).

Definition tick `{HI : HashIter} (s : DaemonState E) (now : Z) : option (DaemonState E) :=
  let cooldown := tick_cooldown s in
  let snapshot := snapshot_rules (counters s) in
  let last := last_counters s in
  let clients := hset_iter (tick_clients snapshot (policies s)) in
  s ← opt_fold (tick_client snapshot last now cooldown) clients s;
  Some (with_last s snapshot).

(** ** Specification of one client's tick *)

(** New windows, policy and effective action of a client, from its own windows
    [w] and policy [p] alone. *)
Definition client_tick `{HI : HashIter} (snapshot last : gmap CounterKey (Z * Z * Z))
    (now cooldown : Z) (rs : RuleSet) (c : ClientId) (w : option RuleWindows)
    (p : option ClientPolicy) : option (RuleWindows * ClientPolicy * EffectiveAction) :=
  win ← apply_deltas snapshot last c now (rw_advance_all (default ∅ w) now);
  policy ← update_policy (default policy0 p) (evaluate rs win) now cooldown;
  Some (win, policy, merge_policy policy now).

Definition set_client (s : DaemonState E) (c : ClientId)
    (r : RuleWindows * ClientPolicy * EffectiveAction) : DaemonState E :=
  mkState (st_mode s) (st_interface s) (live s) (<[c := r.1.2]> (policies s))
    (<[c := r.1.1]> (windows s)) (counters s) (last_counters s)
    (would_be_set (st_mode s) c r.2 (would_be s))
    ((λ e, enf_op e (eff_op c r.2)) <$> enforcer s).

(** ** Windows: the inner loop *)
Lemma rw_add_ok win r m d now :
  windows_ok win → 0 ≤ d → ∃ win', rw_add win r m d now = Some win' ∧ windows_ok win'.
Proof.
  intros Hw Hd. unfold rw_add.
  assert (window_ok (default (sw_new now) (win !! r))) as Hr.
  { destruct (win !! r) eqn:Er; [by eapply Hw|apply sw_new_ok]. }
  destruct (sw_add_view _ m d now Hr Hd) as (w' & -> & Hw' & _). cbn.
  eexists. split; [done|]. by apply map_Forall_insert_2.
Qed.

Lemma add_if_ok win r m d now :
  windows_ok win → 0 ≤ d → ∃ win', add_if win r m d now = Some win' ∧ windows_ok win'.
Proof. intros. unfold add_if. case_match; [by apply rw_add_ok|eauto]. Qed.

Lemma sat_sub_nonneg a b : 0 ≤ sat_sub a b.
Proof. unfold sat_sub. lia. Qed.

Lemma delta_step_ok last c now win kv :
  windows_ok win → ∃ win', delta_step last c now win kv = Some win' ∧ windows_ok win'.
Proof.
  intros Hw. destruct kv as [key [[q b] k]]. unfold delta_step. case_bool_decide; [eauto|].
  destruct (add_if_ok win (key_rule_id key) Requests (sat_sub q (default (0, 0, 0) (last !! key)).1.1)
    now Hw (sat_sub_nonneg _ _)) as (w1 & -> & H1). cbn.
  destruct (add_if_ok w1 (key_rule_id key) Bytes (sat_sub b (default (0, 0, 0) (last !! key)).1.2)
    now H1 (sat_sub_nonneg _ _)) as (w2 & -> & H2). cbn.
  apply add_if_ok; [done|apply sat_sub_nonneg].
Qed.

Lemma rw_advance_all_ok win now : windows_ok win → windows_ok (rw_advance_all win now).
Proof. intros Hw. apply map_Forall_fmap. intros i w Hi. by apply sw_advance_ok, (Hw i). Qed.

Lemma apply_deltas_ok `{HI : HashIter} sn la c now win :
  windows_ok win → ∃ win', apply_deltas sn la c now win = Some win' ∧ windows_ok win'.
Proof.
  intros Hw. apply (opt_fold_total windows_ok); [done|]. intros; by apply delta_step_ok.
Qed.

(** A [rw_add] touches one window. *)
Definition add_ifw (w : option SlidingWindow) (m : Metric) (d now : Z) : option (option SlidingWindow) :=
  if 0 <? d then w' ← sw_add (default (sw_new now) w) m d now; Some (Some w') else Some w.

Lemma add_if_partial win r m d now :
  add_if win r m d now
  = (w ← add_ifw (win !! r) m d now; Some (partial_alter (λ _, w) r win)).
Proof.
  unfold add_if, add_ifw, rw_add. case_match; cbn.
  - by destruct (sw_add _ _ _ _).
  - by rewrite partial_alter_self.
Qed.

Definition add3w (w : option SlidingWindow) (d : Z * Z * Z) (now : Z) : option (option SlidingWindow) :=
  w ← add_ifw w Requests d.1.1 now;
  w ← add_ifw w Bytes d.1.2 now;
  add_ifw w Connections d.2 now.

Lemma delta_step_partial last c now win key q b k :
  delta_step last c now win (key, (q, b, k))
  = if bool_decide (key_client key ≠ c) then Some win
    else
      let prev := default (0, 0, 0) (last !! key) in
      w ← add3w (win !! key_rule_id key) (sat_sub q prev.1.1, sat_sub b prev.1.2, sat_sub k prev.2) now;
      Some (partial_alter (λ _, w) (key_rule_id key) win).
Proof.
  unfold delta_step, add3w. case_bool_decide; [done|]. cbn.
  rewrite add_if_partial. destruct (add_ifw _ Requests _ _) as [w1|]; cbn; [|done].
  rewrite add_if_partial, lookup_partial_alter_eq.
  destruct (add_ifw _ Bytes _ _) as [w2|]; cbn; [|done].
  rewrite add_if_partial, lookup_partial_alter_eq.
  destruct (add_ifw _ Connections _ _) as [w3|]; cbn; [|done].
  by rewrite !partial_alter_partial_alter_eq.
Qed.

#[local] Arguments delta_step : simpl never.
#[local] Arguments add3w : simpl never.
#[local] Arguments sat_sub : simpl never.

(** The deltas of one client, entry by entry. *)
Definition entry_delta (last : gmap CounterKey (Z * Z * Z)) (k : CounterKey) (v : Z * Z * Z) :
    Z * Z * Z :=
  let prev := default (0, 0, 0) (last !! k) in
  (sat_sub v.1.1 prev.1.1, sat_sub v.1.2 prev.1.2, sat_sub v.2 prev.2).

Lemma delta_step_fold last c now l win win' r :
  NoDup l.*1 → opt_fold (delta_step last c now) l win = Some win' →
  (∀ v, (mkKey c r, v) ∈ l →
     add3w (win !! r) (entry_delta last (mkKey c r) v) now = Some (win' !! r))
  ∧ (mkKey c r ∉ l.*1 → win' !! r = win !! r).
Proof.
  revert win. induction l as [|[key [[q b] k]] l IH]; intros win Hnd; cbn.
  { intros [= <-]. split; [|done]. by intros v ?%elem_of_nil. }
  apply NoDup_cons in Hnd as [Hk Hnd]. rewrite delta_step_partial.
  destruct (decide (key = mkKey c r)) as [->|Hne].
  - cbn. rewrite bool_decide_eq_false_2 by naive_solver. cbn.
    destruct (add3w _ _ _) as [w|] eqn:Ew; cbn; [|done]. intros Hf.
    destruct (IH _ Hnd Hf) as [_ Hn]. specialize (Hn Hk).
    rewrite lookup_partial_alter_eq in Hn. split; [|set_solver].
    intros v [[= ->]|Hin]%elem_of_cons; [by rewrite Hn|].
    exfalso. apply Hk. by apply (list_elem_of_fmap_2 fst) in Hin.
  - intros Hf.
    assert (∃ win1, opt_fold (delta_step last c now) l win1 = Some win' ∧ win1 !! r = win !! r)
      as (win1 & Hf1 & Hr).
    { case_bool_decide as Hc; [by exists win|]. cbn in Hf.
      destruct (add3w _ _ _) as [w|]; cbn in Hf; [|done]. eexists. split; [exact Hf|].
      apply lookup_partial_alter_ne. intros <-. apply Hne. destruct key as [kc kr].
      cbn in *. destruct (decide (kc = c)); [by subst|done]. }
    destruct (IH _ Hnd Hf1) as [H1 H2]. rewrite Hr in *. split.
    + intros v [Hk'|Hin]%elem_of_cons; [|eauto]. injection Hk' as ?. congruence.
    + intros Hn. apply H2. set_solver.
Qed.

Lemma apply_deltas_lookup `{HI : HashIter} sn la c now win win' r :
  apply_deltas sn la c now win = Some win' →
  match sn !! mkKey c r with
  | Some v => add3w (win !! r) (entry_delta la (mkKey c r) v) now = Some (win' !! r)
  | None => win' !! r = win !! r
  end.
Proof.
  intros Hf. destruct (delta_step_fold _ _ _ _ _ _ r (hiter_NoDup sn) Hf) as [H1 H2].
  case_match eqn:Hs.
  - apply H1. by apply hiter_elem.
  - apply H2. intros ([k v] & Ek & Hin)%list_elem_of_fmap. cbn in Ek. subst.
    apply hiter_elem in Hin. congruence.
Qed.

Lemma apply_deltas_hash (H1 H2 : HashIter) sn la c now win :
  windows_ok win →
  @apply_deltas H1 sn la c now win = @apply_deltas H2 sn la c now win.
Proof.
  intros Hw. destruct (@apply_deltas_ok H1 sn la c now win Hw) as (w1 & E1 & _).
  destruct (@apply_deltas_ok H2 sn la c now win Hw) as (w2 & E2 & _).
  rewrite E1, E2. f_equal. apply map_eq. intros r.
  apply (@apply_deltas_lookup H1 _ _ _ _ _ _ r) in E1.
  apply (@apply_deltas_lookup H2 _ _ _ _ _ _ r) in E2.
  destruct (sn !! mkKey c r); congruence.
Qed.

(** ** Policies *)
Lemma evaluate_ok rs win :
  Forall (λ r, action_ok (r_action r)) rs → Forall violation_ok (evaluate rs win).
Proof.
  intros Hr. unfold evaluate. apply Forall_forall. intros v (r & Hin & Hv)%list_elem_of_omap.
  case_match; simplify_eq. unfold violation_ok. cbn. by rewrite Forall_forall in Hr; apply Hr.
Qed.

Lemma auto_of_ok v u : violation_ok v → byte_ok (a_drop_rate (auto_of v u)).
Proof.
  unfold violation_ok, action_ok, auto_of. destruct (v_action v); cbn; [done|].
  split; vm_compute; discriminate.
Qed.

Lemma first_max_ok vs v : first_max vs v → Forall violation_ok vs → violation_ok v.
Proof.
  intros (pre & post & -> & _) Hok. rewrite Forall_app, Forall_cons in Hok. naive_solver.
Qed.

Lemma update_policy_ok p vs now cd :
  policy_ok p → Forall violation_ok vs → (now + cd) / NS ≤ I64_MAX →
  ∃ p', update_policy p vs now cd = Some p' ∧ policy_ok p'.
Proof.
  intros [Hm Ha] Hvs Ht. unfold update_policy.
  assert (∃ best, strongest_auto vs now cd = Some best
    ∧ ∀ a, best = Some a → byte_ok (a_drop_rate a)) as (best & -> & Hb).
  { destruct (decide (vs = [])) as [->|Hne]; [by eexists|].
    destruct (strongest_auto_first_max vs now cd (now + cd)) as (v & Hv & ->);
      [by apply time_add_total|done..|].
    eexists. split; [done|]. intros a [= <-]. by eapply auto_of_ok, first_max_ok. }
  cbn. eexists. split; [done|]. split; cbn.
  - intros m r. destruct (manual p) eqn:E'; [|done]. case_match; [done|]. intros [= ->]. eauto.
  - intros a. destruct best; [intros [= ->]; eauto|]. destruct (auto_ p) eqn:E'; [|done].
    case_match; [done|]. intros [= ->]. eauto.
Qed.

(** ** One client *)
Lemma tick_client_eq `{HI : HashIter} sn la now cd s c :
  tick_client sn la now cd s c
  = (r ← client_tick sn la now cd (rules s) c (windows s !! c) (policies s !! c);
     Some (set_client s c r)).
Proof.
  unfold tick_client, client_tick. destruct (apply_deltas _ _ _ _ _) as [win|]; cbn; [|done].
  change (rules (with_windows s (<[c := win]> (windows s)))) with (rules s).
  destruct (update_policy _ _ _ _) as [p'|]; cbn; [|done].
  by rewrite enforce_eq.
Qed.

Lemma client_tick_ok `{HI : HashIter} sn la now cd rs c w p :
  Forall (λ r, action_ok (r_action r)) rs → (∀ w', w = Some w' → windows_ok w') →
  (∀ p', p = Some p' → policy_ok p') → (now + cd) / NS ≤ I64_MAX →
  ∃ win p' , client_tick sn la now cd rs c w p = Some (win, p', merge_policy p' now)
    ∧ windows_ok win ∧ policy_ok p'.
Proof.
  intros Hrs Hw Hp Ht. unfold client_tick.
  destruct (apply_deltas_ok sn la c now (rw_advance_all (default ∅ w) now)) as (win & -> & Hwin).
  { apply rw_advance_all_ok. destruct w; cbn; [by apply Hw|apply map_Forall_empty]. }
  cbn. destruct (update_policy_ok (default policy0 p) (evaluate rs win) now cd) as (p' & -> & Hp');
    [|by apply evaluate_ok|done|].
  { destruct p; cbn; [by apply Hp|apply policy0_ok]. }
  eexists _, _. split; [done|]. done.
Qed.

Lemma client_tick_hash (H1 H2 : HashIter) sn la now cd rs c w p :
  (∀ w', w = Some w' → windows_ok w') →
  @client_tick H1 sn la now cd rs c w p = @client_tick H2 sn la now cd rs c w p.
Proof.
  intros Hw. unfold client_tick. rewrite (apply_deltas_hash H1 H2); [done|].
  apply rw_advance_all_ok. destruct w; cbn; [by apply Hw|apply map_Forall_empty].
Qed.

(** ** All clients *)
Definition data_ok (s : DaemonState E) : Prop :=
  Forall (λ r, action_ok (r_action r)) (rules s)
  ∧ map_Forall (λ _, windows_ok) (windows s) ∧ map_Forall (λ _, policy_ok) (policies s).

Lemma state_data_ok s : state_ok s → data_ok s.
Proof.
  intros [H1 H2]. split_and!; [|done..]. eapply Forall_impl; [exact H2|]. by intros r [? _].
Qed.

Lemma set_client_data_ok s c r :
  data_ok s → windows_ok r.1.1 → policy_ok r.1.2 → data_ok (set_client s c r).
Proof. intros (H1 & H2 & H3) Hw Hp. split_and!; [done|..]; by apply map_Forall_insert_2. Qed.

Lemma tick_client_ok `{HI : HashIter} sn la now cd s c :
  data_ok s → (now + cd) / NS ≤ I64_MAX →
  ∃ s', tick_client sn la now cd s c = Some s' ∧ data_ok s'.
Proof.
  intros Hs Ht. rewrite tick_client_eq. pose proof Hs as (H1 & H2 & H3).
  destruct (client_tick_ok sn la now cd (rules s) c (windows s !! c) (policies s !! c))
    as (win & p' & -> & Hw & Hp); [done|intros; by eapply H2|intros; by eapply H3|done|].
  cbn. eexists. split; [done|]. by apply set_client_data_ok.
Qed.

(** *** The clients of a tick *)
Lemma elem_of_tick_clients sn (p : PolicyMap) c :
  c ∈ tick_clients sn p ↔ (∃ r, is_Some (sn !! mkKey c r)) ∨ is_Some (p !! c).
Proof.
  unfold tick_clients. rewrite elem_of_union, elem_of_map, elem_of_dom.
  split; intros [Hl|?]; try (by right); left.
  - destruct Hl as ([c' r] & -> & Hk%elem_of_dom). by exists r.
  - destruct Hl as [r Hk]. exists (mkKey c r). split; [done|]. by apply elem_of_dom.
Qed.

Lemma tick_clients_ok (s : DaemonState E) c :
  state_ok s → c ∈ tick_clients (by_rule (counters s)) (policies s) → client_ok c.
Proof.
  intros Hs [[r [v Hk]]|[v Hk]]%elem_of_tick_clients.
  - by apply (ok_counter_keys _ Hs) in Hk.
  - by apply (ok_policy_keys _ Hs) in Hk.
Qed.

(** The effect of the loop over the clients [cs]. *)
Record tick_effect `{HI : HashIter} (sn la : gmap CounterKey (Z * Z * Z)) (now cd : Z)
    (cs : list ClientId) (s s' : DaemonState E) : Prop := {
  te_frame : st_mode s' = st_mode s ∧ st_interface s' = st_interface s ∧ live s' = live s
             ∧ counters s' = counters s ∧ last_counters s' = last_counters s;
  te_in : ∀ c, c ∈ cs → ∃ win p,
    client_tick sn la now cd (rules s) c (windows s !! c) (policies s !! c)
      = Some (win, p, merge_policy p now)
    ∧ windows s' !! c = Some win ∧ policies s' !! c = Some p
    ∧ would_be s' !! c = would_be_set (st_mode s) c (merge_policy p now) (would_be s) !! c;
  te_out : ∀ c, c ∉ cs →
    windows s' !! c = windows s !! c ∧ policies s' !! c = policies s !! c
    ∧ would_be s' !! c = would_be s !! c;
  te_enforcer : enforcer s' =
    (λ e, foldl enf_op e
       ((λ c, (c, eff_act (merge_policy (default policy0 (policies s' !! c)) now))) <$> cs))
    <$> enforcer s
}.

Lemma client_tick_merge `{HI : HashIter} sn la now cd rs c w p r :
  client_tick sn la now cd rs c w p = Some r → r.2 = merge_policy r.1.2 now.
Proof.
  unfold client_tick. destruct (apply_deltas _ _ _ _ _); cbn; [|done].
  destruct (update_policy _ _ _ _); cbn; [|done]. by intros [= <-].
Qed.

Lemma tick_fold_effect `{HI : HashIter} sn la now cd cs s s' :
  NoDup cs → opt_fold (tick_client sn la now cd) cs s = Some s' →
  tick_effect sn la now cd cs s s'.
Proof.
  revert s'. induction cs as [|c cs IH] using rev_ind; intros s' Hnd.
  { cbn. intros [= <-]. constructor; [done| |done|by destruct (enforcer s)].
    by intros c ?%elem_of_nil. }
  apply NoDup_app in Hnd as (Hnd & Hdis & _). rewrite opt_fold_app.
  destruct (opt_fold _ cs s) as [s1|]; [|done]. cbn [mbind option_bind opt_fold].
  rewrite tick_client_eq. destruct (IH s1 Hnd eq_refl) as [Hf Hin Hout He]. clear IH.
  destruct Hf as (Fm & Fi & Fl & Fc & Fla).
  assert (c ∉ cs) as Hc by (intros ?; eapply Hdis; [done|left]).
  destruct (Hout c Hc) as (Hw & Hp & Hwb). unfold rules at 1. rewrite Fl, Hw, Hp.
  change (live_rules (live s)) with (rules s).
  destruct (client_tick _ _ _ _ _ _ _ _) as [[[win p] eff]|] eqn:Ect; [|done].
  cbn [mbind option_bind]. intros [= <-].
  pose proof (client_tick_merge _ _ _ _ _ _ _ _ _ Ect) as Hm. cbn in Hm. subst eff.
  constructor; cbn.
  - done.
  - intros c' [Hc'|Hc'%list_elem_of_singleton]%elem_of_app; [|subst c'].
    + assert (c' ≠ c) as Hne by by intros ->.
      destruct (Hin c' Hc') as (win' & p' & ? & ? & ? & ?).
      exists win', p'. rewrite !lookup_insert_ne, would_be_set_ne by done. done.
    + exists win, p. rewrite !lookup_insert_eq. split_and!; [done..|].
      rewrite !would_be_set_eq, Fm. by case_decide.
  - intros c' [Hc' Hne%not_elem_of_cons]%not_elem_of_app.
    assert (c' ≠ c) by naive_solver. rewrite !lookup_insert_ne, would_be_set_ne by done. by apply Hout.
  - rewrite He. destruct (enforcer s) as [e|]; cbn; [|done]. rewrite fmap_app, foldl_app. cbn.
    rewrite lookup_insert_eq. do 2 f_equal. cbn.
    f_equal. apply list_fmap_ext. intros i c' Hi. cbn.
    rewrite lookup_insert_ne; [done|]. intros <-. by apply list_elem_of_lookup_2 in Hi.
Qed.

Definition tick_iter `{HI : HashIter} (s : DaemonState E) : list ClientId :=
  hset_iter (tick_clients (by_rule (counters s)) (policies s)).

Lemma tick_fold_total `{HI : HashIter} (s : DaemonState E) now :
  data_ok s → (now + tick_cooldown s) / NS ≤ I64_MAX →
  ∃ s1, opt_fold (tick_client (by_rule (counters s)) (last_counters s) now (tick_cooldown s))
          (tick_iter s) s = Some s1 ∧ data_ok s1.
Proof.
  intros Hs Ht. apply (opt_fold_total data_ok); [done|].
  intros c s1 _ Hs1. by apply tick_client_ok.
Qed.

Lemma tick_effect_ok `{HI : HashIter} (s s1 : DaemonState E) now :
  state_ok s → data_ok s1 →
  tick_effect (by_rule (counters s)) (last_counters s) now (tick_cooldown s) (tick_iter s) s s1 →
  state_ok (with_last s1 (by_rule (counters s))).
Proof.
  intros Hok (D1 & D2 & D3) [(Fm & Fi & Fl & Fc & Fla) Hin Hout _].
  assert (∀ c, c ∈ tick_iter s → client_ok c) as Hcs.
  { intros c Hc%hset_iter_elem. by eapply tick_clients_ok. }
  destruct Hok as [O1 O2 O3 O4 O5 O6 O7 O8 O9].
  constructor; cbn; unfold rules in *; cbn; rewrite ?Fl, ?Fc in *; try done.
  - intros c p Hp. destruct (decide (c ∈ tick_iter s)) as [Hc|Hc]; [by apply Hcs|].
    apply Hout in Hc as (_ & Hp' & _). rewrite Hp' in Hp. by eapply O3.
  - intros k v Hk. destruct O7 as [O7 _]. apply O7 in Hk as Hv. split; [exact Hv|].
    exists v. split; [done|]. unfold count3_le. lia.
  - intros c a Ha. rewrite Fm. destruct (decide (c ∈ tick_iter s)) as [Hc|Hc].
    + destruct (Hin c Hc) as (win & p & _ & _ & Hp & Hwb).
      rewrite Ha, would_be_set_eq in Hwb. pose proof (merge_policy_ok p now (D3 _ _ Hp)) as Heff.
      assert (c ∈ dom (policies s1)) as Hd by by apply elem_of_dom.
      case_decide as Hcase.
      * symmetry in Hwb. apply O9 in Hwb. naive_solver.
      * destruct (merge_policy p now) eqn:Em; cbn in Hwb; [done|..]; injection Hwb as ->;
          (split_and!; [done|done|done|]); destruct (st_mode s); naive_solver.
    + destruct (Hout c Hc) as (_ & Hp & Hwb). rewrite Hwb in Ha. apply O9 in Ha as (? & ? & ? & ?).
      split_and!; [|done..]. by rewrite elem_of_dom, Hp, <- elem_of_dom.
Qed.

Lemma tick_run `{HI : HashIter} (s : DaemonState E) now :
  state_ok s → (now + tick_cooldown s) / NS ≤ I64_MAX →
  ∃ s1, tick s now = Some (with_last s1 (by_rule (counters s)))
    ∧ state_ok (with_last s1 (by_rule (counters s)))
    ∧ tick_effect (by_rule (counters s)) (last_counters s) now (tick_cooldown s) (tick_iter s) s s1.
Proof.
  intros Hs Ht. destruct (tick_fold_total s now (state_data_ok s Hs) Ht) as (s1 & E1 & D1).
  pose proof E1 as Heff. apply tick_fold_effect in Heff; [|apply hset_iter_NoDup].
  exists s1. split_and!; [|by apply (tick_effect_ok _ _ now)|done].
  unfold tick, tick_iter, snapshot_rules in *. by rewrite E1.
Qed.

(** Whatever the clock, a tick that returns keeps the state well formed. *)
Lemma update_policy_kept p vs now cd p' :
  policy_ok p → Forall violation_ok vs → update_policy p vs now cd = Some p' → policy_ok p'.
Proof.
  intros Hp Hvs Hu. destruct (decide ((now + cd) / NS ≤ I64_MAX)) as [Ht|Ht].
  { destruct (update_policy_ok p vs now cd Hp Hvs Ht) as (q & Hq & Hok). rewrite Hq in Hu.
    by injection Hu as <-. }
  destruct (decide (vs = [])) as [->|Hne].
  { destruct (update_policy_ok p [] now (- now) Hp Hvs) as (q & Hq & Hok).
    { rewrite Z.add_opp_diag_r. vm_compute. discriminate. }
    unfold update_policy in *. cbn in Hq, Hu. rewrite Hq in Hu. by injection Hu as <-. }
  unfold update_policy in Hu. rewrite (strongest_auto_panic vs now cd) in Hu; [done| |done].
  unfold time_add. by rewrite (proj2 (Z.leb_gt _ _)) by lia.
Qed.

Lemma tick_client_kept `{HI : HashIter} sn la now cd s c s' :
  data_ok s → tick_client sn la now cd s c = Some s' → data_ok s'.
Proof.
  intros Hs. rewrite tick_client_eq. intros ([[win p] eff] & Hct & [= <-])%bind_Some.
  pose proof Hs as (H1 & H2 & H3). unfold client_tick in Hct.
  destruct (apply_deltas_ok sn la c now (rw_advance_all (default ∅ (windows s !! c)) now))
    as (w & Hw & Hwin).
  { apply rw_advance_all_ok. destruct (windows s !! c) eqn:Ew; [by eapply H2|apply map_Forall_empty]. }
  rewrite Hw in Hct. cbn [mbind option_bind] in Hct.
  apply bind_Some in Hct as (q & Hq & [= -> -> _]). apply set_client_data_ok; [done..|]. cbn.
  eapply update_policy_kept; [|by apply evaluate_ok|exact Hq].
  destruct (policies s !! c) eqn:Ep; [by eapply H3|apply policy0_ok].
Qed.

Lemma tick_kept `{HI : HashIter} (s s' : DaemonState E) now :
  state_ok s → tick s now = Some s' →
  ∃ s1, s' = with_last s1 (by_rule (counters s)) ∧ state_ok s'
    ∧ tick_effect (by_rule (counters s)) (last_counters s) now (tick_cooldown s) (tick_iter s) s s1.
Proof.
  intros Hs Ht. unfold tick in Ht. apply bind_Some in Ht as (s1 & Hfold & [= <-]).
  apply tick_fold_effect in Hfold as Heff; [|apply hset_iter_NoDup].
  exists s1. split_and!; [done| |done]. eapply tick_effect_ok; [done| |exact Heff].
  eapply (opt_fold_inv data_ok); [by apply state_data_ok| |exact Hfold].
  intros c y z _. apply tick_client_kept.
Qed.
End decision.

(** ** Window contents *)

(** The three deltas, added to the newest bucket. *)
Definition add3_head (d : Z * Z * Z) (v : list Bucket) : list Bucket :=
  add_head Connections d.2 (add_head Bytes d.1.2 (add_head Requests d.1.1 v)).

(** A window slot holds a good window advanced to [now], or none yet. *)
Definition slot_ok (now : Z) (w : option SlidingWindow) : Prop :=
  ∀ x, w = Some x → window_ok x ∧ elapsed_secs x now = 0%nat.

Definition slot_view (now : Z) (w : option SlidingWindow) : list Bucket :=
  view (default (sw_new now) w).

Lemma slot_default now w : slot_ok now w →
  window_ok (default (sw_new now) w) ∧ elapsed_secs (default (sw_new now) w) now = 0%nat.
Proof.
  intros Hw. destruct w as [x|]; cbn [default]; [by apply Hw|].
  split; [apply sw_new_ok|apply sw_new_elapsed].
Qed.

Lemma add_ifw_view w m d now : slot_ok now w → 0 ≤ d →
  ∃ w', add_ifw w m d now = Some w' ∧ slot_ok now w' ∧ slot_view now w' = add_head m d (slot_view now w).
Proof.
  intros Hs Hd. pose proof (slot_default _ _ Hs) as [Hok He]. unfold add_ifw, slot_view in *.
  destruct (Z.ltb_spec 0 d) as [Hlt|Hge].
  - destruct (sw_add_now _ m d now Hok He Hd) as (w' & -> & ? & ? & Hv). cbn [mbind option_bind].
    exists (Some w'). split; [done|]. split; [by intros x [= <-]|done].
  - assert (d = 0) as -> by lia. exists w. split; [done|]. split; [done|].
    rewrite add_head_0; [done|]. apply view_ok, Hok.
Qed.

Lemma add3w_view w d now : slot_ok now w → 0 ≤ d.1.1 → 0 ≤ d.1.2 → 0 ≤ d.2 →
  ∃ w', add3w w d now = Some w' ∧ slot_ok now w' ∧ slot_view now w' = add3_head d (slot_view now w).
Proof.
  intros Hw H1 H2 H3. unfold add3w, add3_head.
  destruct (add_ifw_view w Requests _ now Hw H1) as (w1 & -> & Hw1 & <-). cbn [mbind option_bind].
  destruct (add_ifw_view w1 Bytes _ now Hw1 H2) as (w2 & -> & Hw2 & <-). cbn [mbind option_bind].
  by apply add_ifw_view.
Qed.

(** The slot of rule [r] after [advance_all]. *)
Lemma advanced_slot (rw : option RuleWindows) r now :
  (∀ x, rw = Some x → windows_ok x) →
  let w := rw_advance_all (default ∅ rw) now !! r in
  let w0 := default (sw_new now) (rw ≫= (.!! r)) in
  slot_ok now w ∧ slot_view now w = shift (elapsed_secs w0 now) (view w0).
Proof.
  intros Hok. unfold rw_advance_all, slot_view. rewrite lookup_fmap.
  destruct rw as [rw|]; cbn [default mbind option_bind].
  - specialize (Hok rw eq_refl). destruct (rw !! r) as [w|] eqn:Er; cbn [default fmap option_fmap option_map].
    + apply Hok in Er as Hw. split.
      * unfold id. rewrite Er. intros x [= <-]. split; [by apply sw_advance_ok|by apply sw_advance_elapsed].
      * unfold id. rewrite Er. destruct Hw as (? & ? & _). by apply sw_advance_view.
    + unfold id. rewrite Er. split; [done|]. by rewrite sw_new_elapsed, shift_0 by apply view_length.
  - rewrite lookup_empty. cbn [default fmap option_fmap option_map]. split; [done|].
    by rewrite sw_new_elapsed, shift_0 by apply view_length.
Qed.

(** ** With a lawful enforcer *)
Section lawful.
Context `{CEL : CelEngine} {E : Type} `{ENF : EnforcerLaws E}.

Lemma set_client_comm (s : DaemonState E) c c' r r' :
  client_ok c → client_ok c' → c ≠ c' →
  set_client (set_client s c r) c' r' = set_client (set_client s c' r') c r.
Proof.
  intros Hc Hc' Hne. unfold set_client. cbn. f_equal.
  - by apply insert_insert_ne.
  - by apply insert_insert_ne.
  - by apply would_be_set_comm.
  - destruct (enforcer s) as [e|]; cbn; [|done]. f_equal. by apply enf_op_comm.
Qed.

Lemma tick_client_comm `{HI : HashIter} sn la now cd (s : DaemonState E) c c' :
  client_ok c → client_ok c' →
  (s1 ← tick_client sn la now cd s c; tick_client sn la now cd s1 c')
  = (s1 ← tick_client sn la now cd s c'; tick_client sn la now cd s1 c).
Proof.
  intros Hc Hc'. destruct (decide (c = c')) as [<-|Hne]; [done|]. rewrite !tick_client_eq.
  destruct (client_tick sn la now cd (rules s) c _ _) as [r|] eqn:Er;
    destruct (client_tick sn la now cd (rules s) c' _ _) as [r'|] eqn:Er'; cbn;
    rewrite ?tick_client_eq; cbn; unfold rules in *; cbn;
    rewrite ?lookup_insert_ne, ?Er, ?Er' by congruence; try done.
  cbn. f_equal. by apply set_client_comm.
Qed.

Lemma in_force_after `{HI : HashIter} sn la now cd cs (s s' : DaemonState E) e e' c :
  tick_effect sn la now cd cs s s' → (∀ c, c ∈ cs → client_ok c) → client_ok c →
  enforcer s = Some e → enforcer s' = Some e' →
  in_force e' c =
    if decide (c ∈ cs)
    then (if supports c then merge_policy (default policy0 (policies s' !! c)) now else EffNone)
    else in_force e c.
Proof.
  intros [_ _ _ He] Hcs Hc Ee Ee'. rewrite Ee, Ee' in He. cbn in He. injection He as ->.
  rewrite in_force_foldl; [|apply Forall_fmap, Forall_forall; exact Hcs|done].
  rewrite last_op_map. case_decide; [|done]. by rewrite eff_act_default.
Qed.

(** What a tick does for one of its clients. *)
Lemma tick_of_client `{HI : HashIter} (s s' : DaemonState E) now c :
  state_ok s → c ∈ tick_clients (by_rule (counters s)) (policies s) → tick s now = Some s' →
  ∃ win p,
    client_tick (by_rule (counters s)) (last_counters s) now (tick_cooldown s) (rules s) c
      (windows s !! c) (policies s !! c) = Some (win, p, merge_policy p now)
    ∧ windows s' !! c = Some win ∧ policies s' !! c = Some p
    ∧ last_counters s' = by_rule (counters s) ∧ counters s' = counters s ∧ live s' = live s
    ∧ state_ok s'
    ∧ ∀ e, enforcer s' = Some e → supports c = true → in_force e c = merge_policy p now.
Proof.
  intros Hs Hc Ht. destruct (tick_kept s s' now Hs Ht) as (s1 & -> & Hok & Heff).
  apply hset_iter_elem in Hc.
  assert (∀ c, c ∈ tick_iter s → client_ok c) as Hcs.
  { intros c' Hc'%hset_iter_elem. exact (tick_clients_ok s c' Hs Hc'). }
  pose proof (te_frame _ _ _ _ _ _ _ Heff) as (_ & _ & Hl & Hcn & _).
  destruct (te_in _ _ _ _ _ _ _ Heff c Hc) as (win & p & Hct & Hw & Hp & _).
  exists win, p. split_and!; try done. intros e He Hsup. cbn in He.
  pose proof (te_enforcer _ _ _ _ _ _ _ Heff) as Hen. rewrite He in Hen.
  destruct (enforcer s) as [e0|] eqn:He0; [|done].
  rewrite (in_force_after _ _ _ _ _ _ _ e0 e c Heff Hcs (Hcs c Hc) He0 He), decide_True by exact Hc.
  by rewrite Hsup, Hp.
Qed.
End lawful.

(** ** What a violation leads to *)
Definition exceeds `{CEL : CelEngine} (win : RuleWindows) (r : Rule) : Prop :=
  r_limit r < rw_sum win (r_id r) (r_metric r) (window_secs (r_window r)).

Lemma evaluate_elem `{CEL : CelEngine} rs win r :
  r ∈ rs → exceeds win r → ∃ v, v ∈ evaluate rs win ∧ v_action v = r_action r.
Proof.
  intros Hin Hex. eexists. split; [|apply (eq_refl : v_action (mkViolation (r_id r)
    (rw_sum win (r_id r) (r_metric r) (window_secs (r_window r))) (r_limit r) (r_action r)) = _)].
  apply list_elem_of_omap. exists r. split; [done|]. cbv zeta.
  unfold exceeds in Hex. by rewrite (proj2 (Z.ltb_lt _ _)).
Qed.

Lemma evaluate_nil `{CEL : CelEngine} rs win :
  evaluate rs win = [] ↔ ∀ r, r ∈ rs → ¬ exceeds win r.
Proof.
  split.
  - intros Hnil r Hin Hex. destruct (evaluate_elem rs win r Hin Hex) as (v & Hv & _).
    rewrite Hnil in Hv. by apply elem_of_nil in Hv.
  - intros Hno. destruct (evaluate rs win) as [|v vs] eqn:Ev; [done|]. exfalso.
    assert (v ∈ evaluate rs win) as (r & Hin & Hv)%list_elem_of_omap by (rewrite Ev; left).
    apply (Hno r Hin). unfold exceeds. cbv zeta in Hv. case_match eqn:Hlt; [|done].
    by apply Z.ltb_lt in Hlt.
Qed.

Lemma first_max_severity vs v w : first_max vs v → w ∈ vs → severity (v_action w) ≤ severity (v_action v).
Proof.
  intros (pre & post & -> & Hpre & Hpost) Hw. rewrite Forall_forall in Hpre, Hpost.
  apply elem_of_app in Hw as [Hw|[->|Hw]%elem_of_cons]; [apply Hpre in Hw; lia|lia|by apply Hpost].
Qed.

(** A live automatic policy made from a violation asks for its action. *)
Lemma merge_auto_of v u : action_ok (v_action v) → merge_auto (Some (auto_of v u)) = action_wants (v_action v).
Proof. unfold auto_of, action_wants. by destruct (v_action v). Qed.

(** A weaker violation during the cooldown replaces the automatic policy, so it
    lifts a block that has not run out. *)
Lemma weaker_violation_lifts_block now cd a v d :
  v_action v = Throttle d → 0 < d → 0 < cd → (now + cd) / NS ≤ I64_MAX →
  a_blocked a = true → auto_is_expired a now = false →
  merge_policy (mkPolicy None (Some a)) now = EffBlock
  ∧ ∃ p, update_policy (mkPolicy None (Some a)) [v] now cd = Some p
      ∧ merge_policy p now = EffThrottle d.
Proof.
  intros Hv Hd Hcd Ht Hb Hx. split.
  { unfold merge_policy, live_auto, live_manual. cbn. by rewrite Hx; cbn; rewrite Hb. }
  destruct v as [id val lim act]. cbn in Hv. subst act.
  unfold update_policy, strongest_auto, time_add. cbn.
  unfold from_action, time_add. rewrite (proj2 (Z.leb_le _ _)) by done. cbn.
  eexists. split; [done|]. unfold merge_policy, live_auto, live_manual, auto_is_expired. cbn.
  rewrite (proj2 (Z.leb_gt _ _)) by lia. cbn. by rewrite (proj2 (Z.ltb_lt _ _)).
Qed.

(** ** A concrete daemon *)
Lemma demo_time : (5 * NS + @tick_cooldown yes_engine _ demo_state) / NS ≤ I64_MAX.
Proof. vm_compute. discriminate. Qed.


(** For every counter, a tick adds to the client's
    window of that rule exactly what the counter grew since the last tick, to
    the newest second of the window shifted by the seconds that passed, and the
    next tick starts from there: nothing is counted twice or lost. *)
Lemma tick_delta_view `{CEL : CelEngine} `{HI : HashIter} {E} `{Enforcer E}
    (s s' : DaemonState E) now c r v :
  state_ok s → (now + tick_cooldown s) / NS ≤ I64_MAX → tick s now = Some s' →
  by_rule (counters s) !! mkKey c r = Some v →
  let prev := default (0, 0, 0) (last_counters s !! mkKey c r) in
  let w := default (sw_new now) (windows s !! c ≫= (.!! r)) in
  let w' := default (sw_new now) (windows s' !! c ≫= (.!! r)) in
  count3_le prev v
  ∧ view w' = add3_head (v.1.1 - prev.1.1, v.1.2 - prev.1.2, v.2 - prev.2)
                (shift (elapsed_secs w now) (view w))
  ∧ last_counters s' !! mkKey c r = Some v.
Proof.
  intros Hs Ht Htick Hv prev w w'. destruct (tick_run s now Hs Ht) as (s1 & Htick' & _ & Heff).
  rewrite Htick' in Htick. injection Htick as <-. destruct Heff as [_ Hin _ _].
  assert (c ∈ tick_iter s) as Hc.
  { apply hset_iter_elem, elem_of_tick_clients. left. by exists r, v. }
  assert (count3_le prev v) as Hle.
  { unfold prev. destruct (last_counters s !! mkKey c r) as [l|] eqn:El; cbn.
    - apply (ok_last _ Hs) in El as (_ & v' & Hv' & ?). congruence.
    - apply (ok_counters _ Hs) in Hv as (? & ? & ?). unfold count3_le, u64_ok in *. cbn. lia. }
  split; [done|]. split; [|done]. destruct (Hin c Hc) as (win & p & Hct & Hw & _).
  unfold client_tick in Hct. destruct (apply_deltas _ _ _ _ _) as [win'|] eqn:Ead; [|done].
  cbn [mbind option_bind] in Hct. destruct (update_policy _ _ _ _); [|done].
  cbn [mbind option_bind] in Hct. injection Hct as -> _.
  apply (apply_deltas_lookup _ _ _ _ _ _ r) in Ead. rewrite Hv in Ead.
  destruct (advanced_slot (windows s !! c) r now) as [Hslot Hview].
  { intros x Hx. by apply (ok_windows _ Hs) in Hx. }
  assert (entry_delta (last_counters s) (mkKey c r) v
    = (v.1.1 - prev.1.1, v.1.2 - prev.1.2, v.2 - prev.2)) as Hd.
  { unfold entry_delta. fold prev. unfold count3_le in Hle. unfold sat_sub.
    f_equal; [f_equal|]; lia. }
  rewrite Hd in Ead. unfold count3_le in Hle.
  destruct (add3w_view _ (v.1.1 - prev.1.1, v.1.2 - prev.1.2, v.2 - prev.2) now Hslot) as (w2 & Ew2 & _ & Hv2);
    [cbn; lia..|].
  rewrite Ew2 in Ead. injection Ead as ->. unfold slot_view in Hv2 at 1.
  assert (w' = default (sw_new now) (win !! r)) as -> by (unfold w'; cbn; by rewrite Hw).
  fold w in Hview. rewrite <- Hview. exact Hv2.
Qed.

(** Exceeded rules are enforced; otherwise the automatic policy runs out. *)
Lemma client_tick_enforces `{CEL : CelEngine} `{HI : HashIter}
    sn la now cd (rs : RuleSet) c w p win p' eff :
  Forall (λ r, action_ok (r_action r)) rs → policy_ok (default policy0 p) → 0 < cd →
  client_tick sn la now cd rs c w p = Some (win, p', eff) →
  eff = merge_policy p' now
  ∧ (∀ r, r ∈ rs → exceeds win r →
       eff_le (action_wants (r_action r)) eff = true
       ∧ ∃ a, auto_ p' = Some a ∧ a_until a = now + cd)
  ∧ ((∀ r, r ∈ rs → ¬ exceeds win r) →
       auto_ p' = live_auto (default policy0 p) now ∧ eff = merge_policy (default policy0 p) now)
  ∧ manual p' = live_manual (default policy0 p) now.
Proof.
  intros Hrs Hp Hcd Hct. pose proof (client_tick_merge _ _ _ _ _ _ _ _ _ Hct) as Heff. cbn in Heff.
  split; [done|]. unfold client_tick in Hct.
  destruct (apply_deltas _ _ _ _ _) as [win'|]; [|done]. cbn [mbind option_bind] in Hct.
  destruct (update_policy _ _ _ _) as [p1|] eqn:Eup; [|done]. cbn [mbind option_bind] in Hct.
  injection Hct as -> -> _. unfold update_policy in Eup.
  destruct (strongest_auto (evaluate rs win) now cd) as [best|] eqn:Est; [|done].
  cbn [mbind option_bind] in Eup. injection Eup as Ep'.
  pose proof (evaluate_ok rs win Hrs) as Hvok. rewrite <- Ep'.
  split_and!; [| |done].
  - intros r Hr Hex. destruct (evaluate_elem rs win r Hr Hex) as (v & Hv & Hact).
    assert (evaluate rs win ≠ []) as Hne by (intros E'; rewrite E' in Hv; by apply elem_of_nil in Hv).
    destruct (time_add now cd) as [u|] eqn:Hu.
    2: { by rewrite strongest_auto_panic in Est. }
    destruct (strongest_auto_first_max _ now cd u Hu Hvok Hne) as (vm & Hvm & Est').
    rewrite Est in Est'. injection Est' as ->. apply time_add_Some in Hu as ->.
    assert (a_until (auto_of vm (now + cd)) = now + cd) as Hun by (unfold auto_of; by destruct (v_action vm)).
    split; [|by eexists].
    pose proof (first_max_ok _ _ Hvm Hvok) as Hmok.
    rewrite Heff, <- Ep'. rewrite merge_is_join.
    2: { destruct Hp as [Hpm _]. split; cbn; [|intros ? [= <-]; by apply auto_of_ok].
         intros m d. destruct (manual (default policy0 p)) eqn:Em; [|done].
         case_match; [done|]. intros [= ->]. eauto. }
    eapply eff_le_trans; [|apply eff_join_ub_r]. unfold live_auto; cbn.
    unfold auto_is_expired. rewrite Hun, (proj2 (Z.leb_gt _ _)) by lia.
    rewrite merge_auto_of by done. rewrite <- Hact. rewrite Forall_forall in Hvok.
    apply severity_wants; [by apply Hvok|by eapply first_max_severity|done].
  - intros Hno%evaluate_nil. rewrite Hno in Est. injection Est as <-. split; [done|].
    rewrite Heff, <- Ep'. unfold merge_policy, live_auto, live_manual; cbn.
    destruct (default policy0 p) as [[m|] [a|]]; cbn;
      repeat (case_match; simplify_eq; try done; try congruence).
Qed.

(** ** Properties *)

(** C2 (tick_refines_client_ticks): a tick never panics while the cooldown fits
    the clock, keeps the state invariant, and does for each touched client (one
    with counters or a policy) exactly its [client_tick], computed from that
    client's own windows and policy: the new windows and policy are stored, the
    enforcer enforces the merged action for every client it supports, and in
    permissive mode the would-be map shows it.  All other clients are left
    alone, and the snapshot becomes the base of the next deltas. *)
Theorem tick_refines_client_ticks `{CEL : CelEngine} `{HI : HashIter} {E} `{EnforcerLaws E}
    (s : DaemonState E) now :
  state_ok s → (now + tick_cooldown s) / NS ≤ I64_MAX →
  let cs := tick_clients (by_rule (counters s)) (policies s) in
  ∃ s', tick s now = Some s' ∧ state_ok s'
  ∧ (∀ c, c ∈ cs → ∃ win p,
       client_tick (by_rule (counters s)) (last_counters s) now (tick_cooldown s) (rules s) c
         (windows s !! c) (policies s !! c) = Some (win, p, merge_policy p now)
       ∧ windows s' !! c = Some win ∧ policies s' !! c = Some p
       ∧ would_be s' !! c
         = (if decide (st_mode s = Permissive) then eff_act (merge_policy p now) else None)
       ∧ ∀ e', enforcer s' = Some e' →
           in_force e' c = if supports c then merge_policy p now else EffNone)
  ∧ (∀ c, c ∉ cs →
       windows s' !! c = windows s !! c ∧ policies s' !! c = policies s !! c
       ∧ would_be s' !! c = would_be s !! c
       ∧ ∀ e e', client_ok c → enforcer s = Some e → enforcer s' = Some e' →
           in_force e' c = in_force e c)
  ∧ last_counters s' = by_rule (counters s)
  ∧ counters s' = counters s ∧ live s' = live s ∧ st_mode s' = st_mode s.
Proof.
  intros Hs Ht cs. destruct (tick_run s now Hs Ht) as (s1 & Htick & Hok & Heff).
  exists (with_last s1 (by_rule (counters s))). split; [done|]. split; [done|].
  pose proof Heff as [(Fm & Fi & Fl & Fc & Fla) Hin Hout He].
  assert (∀ c, c ∈ tick_iter s → client_ok c) as Hcs.
  { intros c Hc%hset_iter_elem. exact (tick_clients_ok s c Hs Hc). }
  split_and!; try done.
  - intros c Hc%hset_iter_elem. destruct (Hin c Hc) as (win & p & Hct & Hw & Hp & Hwb).
    exists win, p. split_and!; [done..| |].
    + cbn. rewrite Hwb, would_be_set_eq. destruct (decide (st_mode s = Permissive)) as [Hm|Hm].
      * by rewrite decide_False by tauto.
      * destruct (decide _) as [_|Hn]; [|revert Hn; destruct (merge_policy p now); [done|naive_solver..]].
        destruct (would_be s !! c) eqn:Eo; [|done]. apply (ok_would_be _ Hs) in Eo. tauto.
    + intros e' Ee'. cbn in Ee'. rewrite Ee' in He. destruct (enforcer s) as [e|] eqn:Ee; [|done].
      rewrite (in_force_after _ _ _ _ _ _ _ e e' c Heff), decide_True, Hp by auto. done.
  - intros c Hc. rewrite <- hset_iter_elem in Hc. destruct (Hout c Hc) as (? & ? & ?).
    split_and!; [done..|]. intros e e' Hcok Ee Ee'.
    by rewrite (in_force_after _ _ _ _ _ _ _ e e' c Heff), decide_False by auto.
Qed.

Lemma tick_refines_client_ticks_witness :
  let H := hash_forward in let C := yes_engine in
  ∃ s', tick demo_state (5 * NS) = Some s' ∧ state_ok s'
    ∧ would_be s' !! demo_client = Some EffBlock.
Proof.
  intros H C.
  destruct (tick_refines_client_ticks demo_state (5 * NS) demo_state_ok demo_time)
    as (s' & E1 & Hok & _).
  exists s'. split; [exact E1|]. split; [exact Hok|].
  assert ((x ← tick demo_state (5 * NS); would_be x !! demo_client) = Some EffBlock) as Hwb
    by (vm_compute; reflexivity).
  rewrite E1 in Hwb. exact Hwb.
Defined.

(** C26 (tick_hash_independent): the state a tick leaves does not depend on the
    order in which the hash maps and sets are iterated. *)
Theorem tick_hash_independent `{CEL : CelEngine} (H1 H2 : HashIter) {E} `{EnforcerLaws E}
    (s : DaemonState E) now :
  state_ok s → (now + tick_cooldown s) / NS ≤ I64_MAX →
  @tick CEL E _ H1 s now = @tick CEL E _ H2 s now.
Proof.
  intros Hs Ht. unfold tick. set (sn := snapshot_rules (counters s)). set (la := last_counters s).
  set (cd := tick_cooldown s) in *. set (cs := tick_clients sn (policies s)).
  assert (∀ c, c ∈ cs → client_ok c) as Hcs by (intros c Hc; exact (tick_clients_ok s c Hs Hc)).
  enough (opt_fold (@tick_client CEL E _ H1 sn la now cd) (@hset_iter H1 _ _ _ cs) s
          = opt_fold (@tick_client CEL E _ H2 sn la now cd) (@hset_iter H2 _ _ _ cs) s) as ->; [done|].
  assert (∀ (HI : HashIter) c y z, data_ok y → tick_client sn la now cd y c = Some z → data_ok z) as Hpres.
  { intros HI c y z Hy Hz. destruct (tick_client_ok sn la now cd y c Hy Ht) as (z' & Hz' & ?). congruence. }
  rewrite (opt_fold_ext data_ok _ (@tick_client CEL E _ H2 sn la now cd)).
  - apply (opt_fold_perm data_ok); [by apply state_data_ok|intros; by eapply (Hpres H2)| |].
    + intros c c' y Hc Hc' _. apply tick_client_comm; apply Hcs; by apply (@hset_iter_elem H1).
    + by rewrite !hset_iter_perm.
  - by apply state_data_ok.
  - intros; by eapply (Hpres H1).
  - intros c y _ (_ & Hw & _). rewrite !tick_client_eq.
    rewrite (client_tick_hash H1 H2); [done|]. intros w' Hw'. by eapply Hw.
Qed.

Lemma tick_hash_independent_witness :
  let C := yes_engine in
  @tick C _ _ hash_forward demo_state (5 * NS) = @tick C _ _ hash_backward demo_state (5 * NS).
Proof.
  intros C. apply (tick_hash_independent hash_forward hash_backward demo_state (5 * NS));
    [exact demo_state_ok|exact demo_time].
Defined.

(** C6 (client_tick_enforces_limits): in the tick of a client, every rule whose
    window sum exceeds its limit is enforced at least as severely as its action
    asks (a block rule blocks), by an automatic policy that lasts one cooldown;
    when no rule is exceeded the automatic policy is kept until it expires; and
    the manual policy is only dropped when it has expired. *)
Theorem client_tick_enforces_limits `{CEL : CelEngine} `{HI : HashIter}
    sn la now cd (rs : RuleSet) c w p win p' eff :
  Forall (λ r, action_ok (r_action r)) rs → policy_ok (default policy0 p) → 0 < cd →
  client_tick sn la now cd rs c w p = Some (win, p', eff) →
  eff = merge_policy p' now
  ∧ (∀ r, r ∈ rs → exceeds win r →
       eff_le (action_wants (r_action r)) eff = true
       ∧ ∃ a, auto_ p' = Some a ∧ a_until a = now + cd)
  ∧ ((∀ r, r ∈ rs → ¬ exceeds win r) →
       auto_ p' = live_auto (default policy0 p) now ∧ eff = merge_policy (default policy0 p) now)
  ∧ manual p' = live_manual (default policy0 p) now.
Proof. apply client_tick_enforces. Qed.

Lemma client_tick_enforces_limits_witness :
  let H := hash_forward in let C := yes_engine in
  ∃ win p eff, client_tick (by_rule (counters demo_state)) ∅ 0 (30 * NS) [demo_rule] demo_client None None
      = Some (win, p, eff) ∧ eff_le EffBlock eff = true.
Proof.
  intros H C. eexists _, _, _. split; [vm_compute; reflexivity|].
  apply (client_tick_enforces_limits (by_rule (counters demo_state)) ∅ 0 (30 * NS) [demo_rule]
    demo_client None None _ _ _ ltac:(repeat constructor) policy0_ok ltac:(reflexivity)
    ltac:(vm_compute; reflexivity)) with (r := demo_rule); [left|reflexivity].
Defined.
