(* ===== verification/Z21.v ===== *)
(** The Z21 LAN detector ([crates/mw-sniffer/src/z21.rs]): it splits a UDP
    payload into records, and is the exact inverse of writing records one after
    the other. *)

From S2P Require Import Prelude.

Record Z21Record := mkZ21 {
  z_header : Z;
  z_xheader : Z;
  z_data_len : Z;
  z_data : list Z
}.

(** ** The detector

    [rest] is the payload from offset [off]; every turn consumes at least four
    bytes, so the length of the payload is fuel enough. *)
Fixpoint z21_loop (fuel : nat) (rest : list Z) : list Z21Record :=
  match fuel with
  | O => []
  | S fuel' =>
      match rest with
      | b0 :: b1 :: b2 :: b3 :: body =>
          let data_len := u16_le b0 b1 in
          let header := u16_le b2 b3 in
          if data_len <? 4 then []
          else
            let total := Z.to_nat data_len in
            if (length rest <? total)%nat then []
            else
              let data := take (total - 4) body in
              let xheader := if header =? 64 then default 0 (head data) else 0 in
              mkZ21 header xheader data_len data :: z21_loop fuel' (drop total rest)
      | _ => []
      end
  end.

Definition detect_z21_records (payload : list Z) : list Z21Record :=
  z21_loop (length payload) payload.

(** ** Specification *)

(** The wire form of a record. *)
Definition z21_bytes (r : Z21Record) : list Z :=
  le16 (z_data_len r) ++ le16 (z_header r) ++ z_data r.

Definition z21_wire (rs : list Z21Record) : list Z := concat (z21_bytes <$> rs).

Record z21_ok (r : Z21Record) : Prop := {
  zo_len : z_data_len r = 4 + Z.of_nat (length (z_data r));
  zo_max : z_data_len r ≤ U16_MAX;
  zo_header : u16_ok (z_header r);
  zo_xheader : z_xheader r = if z_header r =? 64 then default 0 (head (z_data r)) else 0;
  zo_data : bytes_ok (z_data r)
}.

(** What stops the detector: too short for a header, or a length field below
    four or beyond the end. *)
Definition z21_stop (tail : list Z) : Prop :=
  match tail with
  | b0 :: b1 :: _ :: _ :: _ => u16_le b0 b1 < 4 ∨ Z.of_nat (length tail) < u16_le b0 b1
  | _ => True
  end.

(** ** Lemmas *)
Lemma z21_bytes_length r : length (z21_bytes r) = (4 + length (z_data r))%nat.
Proof. done. Qed.

Lemma z21_wire_cons r rs : z21_wire (r :: rs) = z21_bytes r ++ z21_wire rs.
Proof. done. Qed.

Lemma z21_loop_stop fuel tail : z21_stop tail → z21_loop fuel tail = [].
Proof.
  destruct fuel as [|fuel]; [done|]. destruct tail as [|b0 [|b1 [|b2 [|b3 tail]]]]; try done.
  unfold z21_stop. cbn [z21_loop]. intros Hs. destruct (Z.ltb_spec (u16_le b0 b1) 4); [done|].
  destruct (Nat.ltb_spec (length (b0 :: b1 :: b2 :: b3 :: tail)) (Z.to_nat (u16_le b0 b1))); [done|].
  lia.
Qed.

Lemma z21_loop_cons fuel r rest :
  z21_ok r → z21_loop (S fuel) (z21_bytes r ++ rest) = r :: z21_loop fuel rest.
Proof.
  intros [Hlen Hmax Hh Hx Hd].
  assert (u16_ok (z_data_len r)) as Hdl by (unfold u16_ok; lia).
  assert (z21_bytes r ++ rest = z_data_len r mod 256 :: z_data_len r / 256
    :: z_header r mod 256 :: z_header r / 256 :: (z_data r ++ rest)) as Hb by done.
  cbn [z21_loop]. rewrite Hb. cbn [z21_loop]. rewrite <- Hb.
  rewrite !u16_le_le16 by done.
  rewrite (proj2 (Z.ltb_ge _ _)) by lia.
  rewrite (proj2 (Nat.ltb_ge _ _)) by (rewrite length_app, z21_bytes_length; lia).
  replace (Z.to_nat (z_data_len r)) with (length (z21_bytes r)) by (rewrite z21_bytes_length; lia).
  rewrite drop_app_length. rewrite z21_bytes_length.
  replace (4 + length (z_data r) - 4)%nat with (length (z_data r)) by lia.
  rewrite take_app_length. rewrite <- Hx. by destruct r.
Qed.

Lemma z21_loop_wire rs tail fuel :
  Forall z21_ok rs → z21_stop tail → (length rs ≤ fuel)%nat →
  z21_loop fuel (z21_wire rs ++ tail) = rs.
Proof.
  intros Hrs Ht. revert fuel. induction Hrs as [|r rs Hr _ IH]; intros fuel Hf.
  - by apply z21_loop_stop.
  - destruct fuel as [|fuel]; cbn in Hf; [lia|]. rewrite z21_wire_cons, <- app_assoc, z21_loop_cons by done. f_equal. apply IH. lia.
Qed.

Lemma z21_loop_decomposes fuel p :
  bytes_ok p → (length p ≤ fuel)%nat →
  ∃ tail, p = z21_wire (z21_loop fuel p) ++ tail ∧ z21_stop tail
    ∧ Forall z21_ok (z21_loop fuel p).
Proof.
  revert p. induction fuel as [|fuel IH]; intros p Hp Hf.
  { destruct p; [|cbn in Hf; lia]. exists []. repeat split. constructor. }
  destruct p as [|b0 [|b1 [|b2 [|b3 body]]]];
    try (eexists; split_and!; [reflexivity|exact I|constructor]).
  cbn [z21_loop]. unfold bytes_ok in Hp. rewrite !Forall_cons in Hp.
  destruct Hp as (H0 & H1 & H2 & H3 & Hbody).
  pose proof (u16_le_ok b0 b1 H0 H1) as Hl. pose proof (u16_le_ok b2 b3 H2 H3) as Hh.
  destruct (Z.ltb_spec (u16_le b0 b1) 4).
  { eexists. split_and!; [reflexivity|by left|constructor]. }
  set (p := b0 :: b1 :: b2 :: b3 :: body) in *.
  destruct (Nat.ltb_spec (length p) (Z.to_nat (u16_le b0 b1))) as [Hlt|Hge].
  { exists p. split_and!; [reflexivity|right; lia|constructor]. }
  set (total := Z.to_nat (u16_le b0 b1)) in *.
  assert (bytes_ok p) as Hp by (unfold bytes_ok, p; rewrite !Forall_cons; done).
  destruct (IH (drop total p)) as (tail & Htail & Hstop & Hok).
  { by apply Forall_drop. }
  { rewrite length_drop. lia. }
  assert (length (take (total - 4) body) = (total - 4)%nat) as Hdata.
  { rewrite length_take. unfold p in Hge. cbn in Hge. lia. }
  exists tail. split_and!; [|done|].
  - rewrite z21_wire_cons, <- app_assoc, <- Htail. unfold z21_bytes; cbn [z_data_len z_header z_data].
    rewrite !le16_u16_le by done. unfold p.
    replace total with (4 + (total - 4))%nat by lia.
    replace (4 + (total - 4) - 4)%nat with (total - 4)%nat by lia. cbn. by rewrite take_drop.
  - constructor; [|done]. constructor; cbn [z_data_len z_header z_data z_xheader]; try done.
    + rewrite Hdata. lia.
    + unfold u16_ok in Hl. lia.
    + by apply Forall_take.
Qed.

(** The lengths of the records found add up to no more than the payload. *)
Lemma z21_total p : bytes_ok p →
  Forall z21_ok (detect_z21_records p)
  ∧ sumZ (z_data_len <$> detect_z21_records p) ≤ Z.of_nat (length p).
Proof.
  intros Hp. destruct (z21_loop_decomposes (length p) p Hp (le_n _)) as (tail & E & _ & Hok).
  split; [exact Hok|]. fold (detect_z21_records p) in *. rewrite E at 2. rewrite length_app.
  enough (sumZ (z_data_len <$> detect_z21_records p) = Z.of_nat (length (z21_wire (detect_z21_records p))))
    by lia.
  clear E. induction Hok as [|r rs Hr _ IH]; [done|]. rewrite z21_wire_cons, length_app, z21_bytes_length.
  csimpl. cbn [sumZ]. rewrite IH, (zo_len _ Hr). lia.
Qed.

(** ** Properties *)

(** C36 (z21_decomposition): the records found in a payload are the only way to
    read it as well-formed records followed by a tail that no record starts
    (too short, or a length field below 4 or past the end): the payload is
    their wire form plus that tail, and every such decomposition is found. *)
Theorem z21_decomposition p :
  bytes_ok p →
  (∃ tail, p = z21_wire (detect_z21_records p) ++ tail ∧ z21_stop tail
     ∧ Forall z21_ok (detect_z21_records p))
  ∧ ∀ rs tail, Forall z21_ok rs → z21_stop tail → p = z21_wire rs ++ tail →
      detect_z21_records p = rs.
Proof.
  intros Hp. unfold detect_z21_records. split; [by apply z21_loop_decomposes|].
  intros rs tail Hrs Htail E. rewrite E at 2. apply z21_loop_wire; [done..|].
  rewrite E, length_app. clear -Hrs. induction Hrs as [|r rs Hr _ IH]; [cbn; lia|].
  rewrite z21_wire_cons, length_app, z21_bytes_length. cbn [length]; lia.
Qed.

Lemma z21_decomposition_witness :
  detect_z21_records [7; 0; 64; 0; 228; 1; 2; 4; 0; 16; 0; 9]
  = [mkZ21 64 228 7 [228; 1; 2]; mkZ21 16 0 4 []].
Proof.
  apply (z21_decomposition [7; 0; 64; 0; 228; 1; 2; 4; 0; 16; 0; 9]) with (tail := [9]).
  - repeat constructor; vm_compute; discriminate.
  - repeat (constructor; [constructor; cbn; [reflexivity|vm_compute; discriminate
      |split; vm_compute; discriminate|reflexivity|repeat constructor; vm_compute; discriminate]|]).
    constructor.
  - exact I.
  - reflexivity.
Defined.
