(* ===== verification/Ws.v ===== *)
(** The WebSocket frame header detector ([crates/mw-sniffer/src/ws.rs]), shown
    to accept exactly the RFC 6455 headers with a known opcode. *)

From S2P Require Import Prelude.

Record WsFrameHeader := mkWs {
  fin : bool;
  opcode : Z;
  payload_len : Z;
  masked : bool
}.

(** ** The detector *)

(** The [match] on the seven-bit length: payload length and header length. *)
Definition ws_length (payload : list Z) (len7 : Z) : option (Z * nat) :=
  if len7 =? 126 then
    match payload with
    | _ :: _ :: b2 :: b3 :: _ => Some (u16_be b2 b3, 4%nat)
    | _ => None
    end
  else if len7 =? 127 then
    if (length payload <? 10)%nat then None
    else
      let len := be_bytes (take 8 (drop 2 payload)) in
      if negb (Z.land len (Z.shiftl 1 63) =? 0) then None else Some (len, 10%nat)
  else Some (len7, 2%nat).

Definition known_opcode (opcode : Z) : bool :=
  (opcode <=? 2) || ((8 <=? opcode) && (opcode <=? 10)).

Definition detect_ws_frame (payload : list Z) : option WsFrameHeader :=
  match payload with
  | b0 :: b1 :: _ =>
      let fin := negb (Z.land b0 128 =? 0) in
      let opcode := Z.land b0 15 in
      let masked := negb (Z.land b1 128 =? 0) in
      let len7 := Z.land b1 127 in
      '(payload_len, hdr_len) ← ws_length payload len7;
      let need := (hdr_len + if masked : bool then 4 else 0)%nat in
      if (length payload <? need)%nat then None
      else if negb (known_opcode opcode) then None
      else Some (mkWs fin opcode payload_len masked)
  | _ => None
  end.

(** ** Specification: RFC 6455 headers

    The length form (7, 16 or 64 bits; not necessarily the shortest), the
    reserved bits, which the detector ignores, and the mask key. *)
Inductive ws_form := Len7 | Len16 | Len64.

Definition form_holds (f : ws_form) (len : Z) : Prop :=
  match f with
  | Len7 => 0 ≤ len < 126
  | Len16 => u16_ok len
  | Len64 => 0 ≤ len < 2 ^ 63
  end.

Definition form_len7 (f : ws_form) (len : Z) : Z :=
  match f with
  | Len7 => len
  | Len16 => 126
  | Len64 => 127
  end.

Definition form_ext (f : ws_form) (len : Z) : list Z :=
  match f with
  | Len7 => []
  | Len16 => be_enc 2 len
  | Len64 => be_enc 8 len
  end.

Definition flag (b : bool) : Z := if b then 128 else 0.

Definition ws_wire (f : ws_form) (rsv : Z) (h : WsFrameHeader) (key : list Z) : list Z :=
  flag (fin h) + rsv * 16 + opcode h :: flag (masked h) + form_len7 f (payload_len h)
    :: form_ext f (payload_len h) ++ key.

Definition ws_ok (f : ws_form) (rsv : Z) (h : WsFrameHeader) (key : list Z) : Prop :=
  0 ≤ rsv < 8 ∧ 0 ≤ opcode h ∧ known_opcode (opcode h) = true
  ∧ form_holds f (payload_len h) ∧ length key = if masked h then 4%nat else 0%nat.

(** ** Lemmas *)

(** The bit fields of the two fixed bytes. *)
Lemma byte_fields b : byte_ok b →
  b = flag (negb (Z.land b 128 =? 0)) + (Z.land b 112 / 16) * 16 + Z.land b 15
  ∧ 0 ≤ Z.land b 112 / 16 < 8 ∧ 0 ≤ Z.land b 15 < 16
  ∧ b = flag (negb (Z.land b 128 =? 0)) + Z.land b 127 ∧ 0 ≤ Z.land b 127 < 128.
Proof.
  intros Hb.
  pose proof (byte_all (λ b,
    (b =? flag (negb (Z.land b 128 =? 0)) + (Z.land b 112 / 16) * 16 + Z.land b 15)
    && (0 <=? Z.land b 112 / 16) && (Z.land b 112 / 16 <? 8) && (0 <=? Z.land b 15) && (Z.land b 15 <? 16)
    && (b =? flag (negb (Z.land b 128 =? 0)) + Z.land b 127)
    && (0 <=? Z.land b 127) && (Z.land b 127 <? 128)) ltac:(vm_compute; reflexivity) b Hb) as H.
  cbv beta in H. rewrite !andb_true_iff, !Z.eqb_eq, !Z.leb_le, !Z.ltb_lt in H. tauto.
Qed.

Lemma first_byte fi rsv op : 0 ≤ rsv < 8 → 0 ≤ op < 16 →
  negb (Z.land (flag fi + rsv * 16 + op) 128 =? 0) = fi ∧ Z.land (flag fi + rsv * 16 + op) 15 = op.
Proof.
  intros Hr Ho. set (b := flag fi + rsv * 16 + op).
  assert (byte_ok b) as Hb by (unfold byte_ok, U8_MAX, b, flag; destruct fi; lia).
  destruct (byte_fields b Hb) as (E & H1 & H2 & _ & _).
  set (f := negb (Z.land b 128 =? 0)) in *. set (r := Z.land b 112 / 16) in *.
  set (o := Z.land b 15) in *. unfold b, flag in E. destruct fi, f; split; lia || done.
Qed.

Lemma second_byte ma l : 0 ≤ l < 128 →
  negb (Z.land (flag ma + l) 128 =? 0) = ma ∧ Z.land (flag ma + l) 127 = l.
Proof.
  intros Hl. set (b := flag ma + l).
  assert (byte_ok b) as Hb by (unfold byte_ok, U8_MAX, b, flag; destruct ma; lia).
  destruct (byte_fields b Hb) as (_ & _ & _ & E & H).
  set (f := negb (Z.land b 128 =? 0)) in *. set (o := Z.land b 127) in *.
  unfold b, flag in E. destruct ma, f; split; lia || done.
Qed.

Lemma known_opcode_lt op : known_opcode op = true → op < 16.
Proof. unfold known_opcode. lia. Qed.

(** Bit 63 of an unsigned 64-bit integer. *)
Lemma top_bit n : 0 ≤ n < 2 ^ 64 → (Z.land n (Z.shiftl 1 63) =? 0) = (n <? 2 ^ 63).
Proof.
  intros Hn. rewrite Z.shiftl_1_l.
  assert (Z.land n (2 ^ 63) = if Z.testbit n 63 then 2 ^ 63 else 0) as ->.
  { apply Z.bits_inj'. intros i Hi. rewrite Z.land_spec, Z.pow2_bits_eqb by lia.
    destruct (Z.eqb_spec 63 i) as [<-|Hne].
    - rewrite andb_true_r. destruct (Z.testbit n 63); [by rewrite Z.pow2_bits_true|by rewrite Z.bits_0].
    - rewrite andb_false_r. destruct (Z.testbit n 63); [|by rewrite Z.bits_0].
      by rewrite Z.pow2_bits_false by congruence. }
  rewrite Z.testbit_eqb by lia.
  destruct (Z.ltb_spec n (2 ^ 63)) as [Hlt|Hge].
  - rewrite Z.div_small by lia. done.
  - assert (n / 2 ^ 63 = 1) as ->; [|done].
    symmetry. apply (Z.div_unique _ _ _ (n - 2 ^ 63)); lia.
Qed.

Lemma ws_length_form f len b0 b1 rest :
  form_holds f len →
  ws_length (b0 :: b1 :: form_ext f len ++ rest) (form_len7 f len)
  = Some (len, (2 + length (form_ext f len))%nat).
Proof.
  unfold ws_length. destruct f; cbn [form_holds form_len7 form_ext]; intros Hl.
  - rewrite !(proj2 (Z.eqb_neq _ _)) by lia. done.
  - cbn. do 2 f_equal. rewrite u16_be_arith by apply byte_mod. unfold u16_ok, U16_MAX in Hl.
    rewrite (Z.mod_small (len / 256)) by (Z.div_mod_to_equations; lia).
    pose proof (Z.div_mod len 256). lia.
  - change (127 =? 126) with false. change (127 =? 127) with true. cbv iota.
    rewrite (proj2 (Nat.ltb_ge _ _)) by (cbn [length]; rewrite length_app, be_enc_length; lia).
    change (drop 2 (b0 :: b1 :: ?l)) with l. rewrite take_app_length' by (symmetry; apply be_enc_length).
    rewrite be_enc_length, be_bytes_enc by (cbn; lia).
    rewrite top_bit, (proj2 (Z.ltb_lt _ _)) by lia. done.
Qed.

Lemma ws_length_inv p b0 b1 rest len hl :
  p = b0 :: b1 :: rest → bytes_ok p → 0 ≤ Z.land b1 127 < 128 →
  ws_length p (Z.land b1 127) = Some (len, hl) →
  ∃ f rest', form_holds f len ∧ Z.land b1 127 = form_len7 f len ∧ rest = form_ext f len ++ rest'
    ∧ hl = (2 + length (form_ext f len))%nat.
Proof.
  intros -> Hp Hb. unfold bytes_ok in Hp. rewrite !Forall_cons in Hp. destruct Hp as (_ & _ & Hrest).
  unfold ws_length. destruct (Z.eqb_spec (Z.land b1 127) 126) as [E|N1];
    [|destruct (Z.eqb_spec (Z.land b1 127) 127) as [E|N2]].
  - destruct rest as [|b2 [|b3 rest]]; [done..|]. intros [= <- <-]. rewrite !Forall_cons in Hrest.
    destruct Hrest as (H2 & H3 & _). exists Len16, rest.
    destruct (be_enc_bytes [b2; b3]) as [He Hr]; [unfold bytes_ok; by rewrite !Forall_cons|].
    assert (be_bytes [b2; b3] = u16_be b2 b3) as Hbe by done. rewrite Hbe in He, Hr.
    change (256 ^ Z.of_nat (length [b2; b3])) with 65536 in Hr.
    cbn [form_holds form_len7 form_ext]. unfold u16_ok, U16_MAX.
    split_and!; [lia..|done| |done]. cbn [length] in He. by rewrite He.
  - destruct (Nat.ltb_spec (length (b0 :: b1 :: rest)) 10) as [|Hlen]; [done|].
    change (drop 2 (b0 :: b1 :: rest)) with rest. cbn in Hlen.
    destruct (be_enc_bytes (take 8 rest)) as [He Hr]; [by apply Forall_take|].
    rewrite length_take, Nat.min_l in He, Hr by lia.
    rewrite top_bit by exact Hr. case_match eqn:Hlt; [done|]. intros [= <- <-].
    apply negb_false_iff, Z.ltb_lt in Hlt.
    exists Len64, (drop 8 rest). cbn [form_holds form_len7 form_ext]. rewrite He, take_drop.
    split_and!; [lia..|done|done|]. rewrite length_take. lia.
  - intros [= <- <-]. exists Len7, rest. cbn. split_and!; [lia..|done|done|done].
Qed.

(** ** Properties *)

(** C37 (ws_headers_exact): the detector recognises a frame header exactly when
    the payload starts with an RFC 6455 header of a known opcode, in any of the
    three length forms and with any reserved bits, and reads its fields; in
    particular no short payload is read past its end and no length of 2^63 or
    more is accepted. *)
Theorem ws_headers_exact p h :
  bytes_ok p →
  detect_ws_frame p = Some h
  ↔ ∃ f rsv key rest, ws_ok f rsv h key ∧ p = ws_wire f rsv h key ++ rest.
Proof.
  intros Hp. split.
  - destruct p as [|b0 [|b1 rest]]; [done..|]. unfold detect_ws_frame.
    pose proof Hp as Hp'. unfold bytes_ok in Hp'. rewrite !Forall_cons in Hp'.
    destruct Hp' as (H0 & H1 & _).
    destruct (byte_fields b0 H0) as (E0 & Hr & Ho & _). destruct (byte_fields b1 H1) as (_ & _ & _ & E1 & Hl).
    destruct (ws_length _ _) as [[len hl]|] eqn:El; [|done]. cbn [mbind option_bind].
    destruct (ws_length_inv _ b0 b1 rest len hl eq_refl Hp Hl El) as (f & rest' & Hf & Hl7 & -> & ->).
    destruct (Nat.ltb_spec (length (b0 :: b1 :: form_ext f len ++ rest'))
      (2 + length (form_ext f len) + (if negb (Z.land b1 128 =? 0) then 4 else 0))) as [|Hneed]; [done|].
    destruct (known_opcode (Z.land b0 15)) eqn:Hk; [|done]. cbn [negb]. intros [= <-].
    set (m := negb (Z.land b1 128 =? 0)) in *. set (k := if m then 4%nat else 0%nat).
    exists f, (Z.land b0 112 / 16), (take k rest'), (drop k rest').
    cbn [length] in Hneed. rewrite length_app in Hneed. fold k in Hneed.
    unfold ws_ok, ws_wire. cbn [fin opcode payload_len masked]. split.
    + rewrite length_take. split_and!; try lia; try done.
    + rewrite <- E0, <- Hl7, <- E1. cbn. by rewrite <- app_assoc, take_drop.
  - intros (f & rsv & key & rest & (Hr & Ho & Hk & Hf & Hkey) & ->).
    destruct h as [fi op len ma]. cbn [fin opcode payload_len masked] in *.
    pose proof (known_opcode_lt _ Hk) as Hop.
    assert (0 ≤ form_len7 f len < 128) as Hl7 by (destruct f; cbn in *; lia).
    unfold ws_wire, detect_ws_frame. cbn [fin opcode payload_len masked app].
    destruct (first_byte fi rsv op Hr ltac:(lia)) as [-> ->].
    destruct (second_byte ma _ Hl7) as [-> ->].
    rewrite <- app_assoc, ws_length_form by done. cbn [mbind option_bind].
    rewrite (proj2 (Nat.ltb_ge _ _)).
    + by rewrite Hk.
    + cbn [length]. rewrite !length_app, Hkey. lia.
Qed.

Lemma ws_headers_exact_witness :
  detect_ws_frame [129; 133; 1; 2; 3; 4; 0; 0; 0; 0; 0] = Some (mkWs true 1 5 true).
Proof.
  apply (ws_headers_exact [129; 133; 1; 2; 3; 4; 0; 0; 0; 0; 0] (mkWs true 1 5 true)).
  - repeat constructor; vm_compute; discriminate.
  - exists Len7, 0, [1; 2; 3; 4], [0; 0; 0; 0; 0]. split; [|reflexivity].
    repeat split; vm_compute; congruence.
Defined.
