(* ===== verification/Http.v ===== *)
(** The HTTP request detector ([crates/mw-sniffer/src/http.rs]): first-packet
    inspection of the request line and the headers. *)

From S2P Require Import Prelude Text.

Record HttpRequestLine := mkHttp {
  method : str;
  path : str;
  query : str;
  upgrade_ws : bool;
  headers : list (str * str)
}.

(** ** The detector *)

(** [text.split_once("\r\n").or_else(|| text.split_once('\n'))?] *)
Definition split_head (text : str) : option (str * str) :=
  match split_once_crlf text with
  | Some r => Some r
  | None => split_once 10 text
  end.

(** The text before the first [#]. *)
Definition before_hash (s : str) : str := default s (head (split_char 35 s)).

Definition split_target (target : str) : str * str :=
  match split_once 63 target with
  | Some (p, q) => (p, before_hash q)
  | None => (before_hash target, [])
  end.

(** The header loop: it stops at the first empty line and skips lines without a
    colon. *)
Fixpoint header_loop (lines : list str) (upgrade : bool) (acc : list (str * str)) :
    bool * list (str * str) :=
  match lines with
  | [] => (upgrade, acc)
  | line :: lines' =>
      if bool_decide (line = []) then (upgrade, acc)
      else match split_once 58 line with
           | None => header_loop lines' upgrade acc
           | Some (name, value) =>
               let name := to_ascii_lowercase (trim name) in
               let value := trim value in
               let upgrade :=
                 if bool_decide (name = lit "upgrade") && eq_ignore_ascii_case value (lit "websocket")
                 then true else upgrade in
               header_loop lines' upgrade (acc ++ [(name, value)])
           end
  end.

Definition header_lines (rest : str) : list str := split_crlf rest ≫= split_char 10.

Definition parse_request (text : str) : option HttpRequestLine :=
  '(hd, rest) ← split_head text;
  match split_whitespace hd with
  | method :: target :: version :: _ =>
      if negb (starts_with (lit "HTTP/") version) then None
      else if negb (forallb is_ascii_alphabetic method) then None
      else
        let '(path, query) := split_target target in
        let '(upgrade_ws, headers) := header_loop (header_lines rest) false [] in
        Some (mkHttp method path query upgrade_ws headers)
  | _ => None
  end.

Definition detect_http_request (payload : list Z) : option HttpRequestLine :=
  match payload with
  | [] => None
  | b0 :: bs =>
      if match bs with b1 :: _ => (b0 =? 22) && (b1 =? 3) | [] => false end then None
      else if negb (is_ascii_alphabetic b0) then None
      else text ← from_utf8 payload; parse_request text
  end.

(** ** Specification: the requests that clients send *)
Record request := mkRequest {
  rq_method : str;
  rq_path : str;
  rq_query : option str;
  rq_version : str;
  rq_headers : list (str * str);
  rq_body : str
}.

Definition rq_target (r : request) : str :=
  rq_path r ++ match rq_query r with Some q => 63 :: q | None => [] end.

Definition header_line (h : str * str) : str := h.1 ++ [58; 32] ++ h.2.

Definition crlf (s : str) : str := s ++ [13; 10].

Definition request_text (r : request) : str :=
  crlf (rq_method r ++ [32] ++ rq_target r ++ [32] ++ lit "HTTP/" ++ rq_version r)
  ++ concat (crlf ∘ header_line <$> rq_headers r) ++ [13; 10] ++ rq_body r.

(** A word: printable ASCII without blanks; a line: without line breaks. *)
Definition word (s : str) : Prop := Forall (λ c, 33 ≤ c < 127) s.
Definition field (s : str) : Prop := Forall (λ c, 32 ≤ c < 127) s.

Record request_ok (r : request) : Prop := {
  rqo_method : rq_method r ≠ [] ∧ Forall (λ c, is_ascii_alphabetic c = true) (rq_method r);
  rqo_path : word (rq_path r) ∧ rq_path r ≠ [] ∧ Forall (λ c, c ≠ 63 ∧ c ≠ 35) (rq_path r);
  rqo_query : ∀ q, rq_query r = Some q → word q ∧ Forall (λ c, c ≠ 35) q;
  rqo_version : word (rq_version r);
  rqo_headers : Forall (λ h : str * str, word h.1 ∧ h.1 ≠ [] ∧ Forall (λ c, c ≠ 58) h.1 ∧ field h.2)
                  (rq_headers r);
  rqo_body : Forall (λ c, 0 ≤ c < 128) (rq_body r)
}.

(** What the detector should report. *)
Definition stored_header (h : str * str) : str * str :=
  (to_ascii_lowercase (trim h.1), trim h.2).

Definition asks_upgrade (h : str * str) : bool :=
  bool_decide (h.1 = lit "upgrade") && eq_ignore_ascii_case h.2 (lit "websocket").

(** ** Lemmas *)
Lemma alphabetic_range c : is_ascii_alphabetic c = true → 65 ≤ c < 123.
Proof. unfold is_ascii_alphabetic. bool_lia. Qed.

Lemma not_whitespace c : 33 ≤ c < 127 → is_whitespace c = false.
Proof. intros. unfold is_whitespace. bool_lia. Qed.

Lemma word_no_ws s : word s → Forall (λ c, is_whitespace c = false) s.
Proof. intros H. eapply Forall_impl; [exact H|]. intros c. apply not_whitespace. Qed.

Lemma word_field s : word s → field s.
Proof. intros H. eapply Forall_impl; [exact H|]. cbn. lia. Qed.

Lemma field_no_crlf s : field s → no_crlf s.
Proof. intros H. eapply Forall_impl; [exact H|]. cbn. lia. Qed.

Lemma field_ascii s : field s → Forall (λ c, 0 ≤ c < 128) s.
Proof. intros H. eapply Forall_impl; [exact H|]. cbn. lia. Qed.

Lemma field_app a b : field a → field b → field (a ++ b).
Proof. intros. by apply Forall_app. Qed.

Lemma field_blank : field [32].
Proof. constructor; [lia|constructor]. Qed.

Lemma field_colon : field [58; 32].
Proof. constructor; [lia|apply field_blank]. Qed.

Lemma lit_word_http : word (lit "HTTP/").
Proof. repeat constructor; vm_compute; congruence. Qed.

(** Three words separated by blanks. *)
Lemma split_three a b c :
  a ≠ [] → b ≠ [] → c ≠ [] → word a → word b → word c →
  split_whitespace (a ++ [32] ++ b ++ [32] ++ c) = [a; b; c].
Proof.
  intros Ha Hb Hc Wa Wb Wc. unfold split_whitespace. cbn [app].
  rewrite !split_app by (done || by apply word_no_ws). rewrite split_word by by apply word_no_ws.
  rewrite !filter_cons_True by done. done.
Qed.

Lemma split_target_spec r : request_ok r →
  split_target (rq_target r) = (rq_path r, default [] (rq_query r)).
Proof.
  intros [_ (Hw & _ & Hp) Hq _ _ _]. unfold split_target, rq_target.
  assert (∀ s, Forall (λ c, c ≠ 35) s → before_hash s = s) as Hhash.
  { intros s Hs. unfold before_hash, split_char. rewrite split_word; [done|].
    eapply Forall_impl; [exact Hs|]. intros c Hc. by apply Z.eqb_neq. }
  assert (Forall (λ c, c ≠ 63) (rq_path r)) as H63
    by (eapply Forall_impl; [exact Hp|]; naive_solver).
  destruct (rq_query r) as [q|].
  - rewrite split_once_app by done. destruct (Hq q eq_refl) as [_ Hq35]. by rewrite Hhash.
  - rewrite app_nil_r, split_once_None by done. rewrite Hhash; [done|].
    eapply Forall_impl; [exact Hp|]. naive_solver.
Qed.

Lemma field_one_line s : field s → split_char 10 s = [s].
Proof.
  intros H. apply split_word. eapply Forall_impl; [exact H|]. intros c Hc.
  apply Z.eqb_neq. cbn in Hc. lia.
Qed.

Lemma header_lines_spec hs body :
  Forall (λ h : str * str, field (header_line h)) hs →
  ∃ more, header_lines (concat (crlf ∘ header_line <$> hs) ++ 13 :: 10 :: body)
          = (header_line <$> hs) ++ [] :: more.
Proof.
  intros Hhs. unfold header_lines. induction Hhs as [|h hs Hh _ [more IH]].
  - eexists. cbn. reflexivity.
  - exists more. rewrite fmap_cons. cbn [concat]. unfold compose at 1, crlf at 1.
    rewrite <- !app_assoc. cbn [app]. rewrite split_crlf_app by by apply field_no_crlf.
    cbn [mbind list_bind]. rewrite IH, field_one_line by done. done.
Qed.

Lemma header_loop_acc lines up acc up' hs :
  header_loop lines up acc = (up', hs) →
  ∃ new, hs = acc ++ new ∧ up' = up || existsb asks_upgrade new.
Proof.
  revert up acc. induction lines as [|l ls IH]; intros up acc; cbn [header_loop].
  { intros [= <- <-]. exists []. by rewrite app_nil_r, orb_false_r. }
  case_bool_decide; [intros [= <- <-]; exists []; by rewrite app_nil_r, orb_false_r|].
  destruct (split_once 58 l) as [[n v]|]; [|apply IH]. intros H1. apply IH in H1 as (new & -> & ->).
  eexists. rewrite <- app_assoc. split; [done|]. cbn [app existsb]. unfold asks_upgrade at 2. cbn.
  destruct (_ && _); [by rewrite orb_true_r|]. done.
Qed.

Lemma header_loop_spec hs more up acc :
  Forall (λ h : str * str, word h.1 ∧ h.1 ≠ [] ∧ Forall (λ c, c ≠ 58) h.1 ∧ field h.2) hs →
  (header_loop ((header_line <$> hs) ++ [] :: more) up acc).2 = acc ++ (stored_header <$> hs).
Proof.
  intros Hhs. revert up acc. induction Hhs as [|h hs (Hw & Hne & Hc & Hf) _ IH]; intros up acc.
  { cbn. by rewrite app_nil_r. }
  rewrite fmap_cons. cbn [app header_loop].
  rewrite bool_decide_eq_false_2 by (unfold header_line; by destruct h.1).
  assert (split_once 58 (header_line h) = Some (h.1, 32 :: h.2)) as ->.
  { unfold header_line. by apply split_once_app. }
  rewrite IH, <- app_assoc. csimpl. do 2 f_equal.
Qed.

Lemma request_text_ascii r : request_ok r → Forall (λ c, 0 ≤ c < 128) (request_text r).
Proof.
  intros [[_ Hm] (Hp & _ & _) Hq Hv Hh Hb]. unfold request_text, crlf, rq_target.
  rewrite !Forall_app. split_and!; try done.
  - eapply Forall_impl; [exact Hm|]. intros c ?%alphabetic_range. lia.
  - by repeat constructor.
  - by apply field_ascii, word_field.
  - destruct (rq_query r) as [q|]; [|constructor]. destruct (Hq q eq_refl) as [Hq' _].
    constructor; [lia|]. by apply field_ascii, word_field.
  - by repeat constructor.
  - apply field_ascii, word_field, lit_word_http.
  - by apply field_ascii, word_field.
  - by repeat constructor.
  - apply Forall_concat, Forall_fmap. eapply Forall_impl; [exact Hh|].
    intros h (Hw & _ & _ & Hf). cbn. unfold header_line. rewrite !Forall_app.
    split_and!; [by apply field_ascii, word_field|by repeat constructor|by apply field_ascii|by repeat constructor].
  - by repeat constructor.
Qed.

Lemma parse_request_spec r : request_ok r →
  parse_request (request_text r)
  = Some (mkHttp (rq_method r) (rq_path r) (default [] (rq_query r))
            (existsb asks_upgrade (stored_header <$> rq_headers r))
            (stored_header <$> rq_headers r)).
Proof.
  intros Hr. pose proof Hr as [[Hmne Hm] (Hp & Hpne & _) Hq Hv Hh Hb].
  assert (word (rq_method r)) as Wm.
  { eapply Forall_impl; [exact Hm|]. intros c ?%alphabetic_range. lia. }
  assert (word (rq_target r)) as Wt.
  { unfold rq_target. apply Forall_app. split; [done|]. destruct (rq_query r) as [q|]; [|constructor].
    destruct (Hq q eq_refl). constructor; [lia|done]. }
  assert (rq_target r ≠ []) as Tne by (unfold rq_target; by destruct (rq_path r)).
  assert (word (lit "HTTP/" ++ rq_version r)) as Wv by (apply Forall_app; split; [apply lit_word_http|done]).
  assert (lit "HTTP/" ++ rq_version r ≠ []) as Vne by (intros Hx; by apply (f_equal length) in Hx).
  assert (request_text r = (rq_method r ++ [32] ++ rq_target r ++ [32] ++ lit "HTTP/" ++ rq_version r)
    ++ 13 :: 10 :: concat (crlf ∘ header_line <$> rq_headers r) ++ 13 :: 10 :: rq_body r) as ->.
  { unfold request_text, crlf at 1. by rewrite <- !app_assoc. }
  unfold parse_request, split_head. rewrite split_once_crlf_app.
  2: { apply field_no_crlf.
       repeat first [by apply word_field|apply field_blank|apply word_field, lit_word_http
                    |apply field_app]. }
  cbn [mbind option_bind].
  rewrite split_three by done.
  rewrite starts_with_app. cbn [negb].
  rewrite (proj2 (forallb_forall _ _)) by (apply List.Forall_forall; exact Hm). cbn [negb].
  rewrite split_target_spec by done.
  destruct (header_lines_spec (rq_headers r) (rq_body r)) as [more Hl].
  { eapply Forall_impl; [exact Hh|]. intros h (Hw & _ & _ & Hf). unfold header_line.
    repeat apply field_app; [by apply word_field|apply field_colon|done]. }
  rewrite Hl. destruct (header_loop _ _ _) as [up hs] eqn:El.
  pose proof (header_loop_spec (rq_headers r) more false [] Hh) as Hs. rewrite El in Hs. cbn in Hs. subst hs.
  apply header_loop_acc in El as (new & Hnew & ->). cbn in Hnew. by rewrite <- Hnew.
Qed.

Lemma from_utf8_ascii_bad a b : Forall (λ c, 0 ≤ c < 128) a → from_utf8 (a ++ 255 :: b) = None.
Proof.
  induction 1 as [|c a Hc _ IH]; [done|]. cbn [app from_utf8].
  destruct (in_range 0 127 c) eqn:E; [by rewrite IH|]. bool_lia.
Qed.

Lemma request_text_head r : request_ok r →
  ∃ b bs, request_text r = b :: bs ∧ is_ascii_alphabetic b = true ∧ (b =? 22) = false.
Proof.
  intros [[Hne Hm] _ _ _ _ _]. unfold request_text, crlf. destruct (rq_method r) as [|b m]; [done|].
  apply Forall_cons in Hm as [Hb _]. eexists _, _. split; [reflexivity|]. split; [done|].
  apply alphabetic_range in Hb. apply Z.eqb_neq. lia.
Qed.

(** A decidable fact about every character of a concrete text. *)
Ltac eval_all := apply (bool_decide_unpack _); vm_compute; exact I.

(** A request with a query, two headers and a body. *)
Definition demo_request : request :=
  mkRequest (lit "GET") (lit "/ws") (Some (lit "x=1")) (lit "1.1")
    [(lit "Host", lit "a"); (lit "Upgrade", lit "WebSocket ")] (lit "body").

Lemma demo_request_ok : request_ok demo_request.
Proof.
  constructor.
  - split; [done|]. eval_all.
  - split_and!; [eval_all|done|eval_all].
  - intros q [= <-]. split; eval_all.
  - eval_all.
  - repeat (constructor; [split_and!; [eval_all|done|eval_all|eval_all]|]). constructor.
  - eval_all.
Qed.

(** ** Properties *)

(** C38 (http_request_found): every ASCII request of the form [request_ok] in one
    payload (a method of letters, words for path, query and version, header lines
    [name: value]) is detected, whatever its body: the method, the path without query, the query
    and all headers (names in lower case, values trimmed) are reported, and the
    upgrade flag is set exactly when some header asks for a WebSocket. *)
Theorem http_request_found r :
  request_ok r →
  detect_http_request (request_text r)
  = Some (mkHttp (rq_method r) (rq_path r) (default [] (rq_query r))
            (existsb asks_upgrade (stored_header <$> rq_headers r))
            (stored_header <$> rq_headers r)).
Proof.
  intros Hr. destruct (request_text_head r Hr) as (b & bs & E & Hb & H22).
  unfold detect_http_request. rewrite E, H22, Hb, <- E. cbn [negb].
  rewrite from_utf8_ascii by by apply request_text_ascii. cbn [mbind option_bind].
  rewrite parse_request_spec by done. by destruct bs.
Qed.

Lemma http_request_found_witness :
  detect_http_request (request_text demo_request)
  = Some (mkHttp (lit "GET") (lit "/ws") (lit "x=1") true
            [(lit "host", lit "a"); (lit "upgrade", lit "WebSocket")]).
Proof. apply (http_request_found demo_request demo_request_ok). Defined.

(** Whatever is detected comes from a payload that
    is valid UTF-8, starts with a letter and is no TLS record; the method is a
    non-empty ASCII word, the path holds no [?], the query no [#], and the
    upgrade flag says whether the reported headers ask for a WebSocket. *)
Theorem http_detection_shape p h :
  detect_http_request p = Some h →
  (∃ b0 bs text, p = b0 :: bs ∧ is_ascii_alphabetic b0 = true ∧ from_utf8 p = Some text)
  ∧ method h ≠ [] ∧ Forall (λ c, is_ascii_alphabetic c = true) (method h)
  ∧ 63 ∉ path h ∧ 35 ∉ query h
  ∧ upgrade_ws h = existsb asks_upgrade (headers h).
Proof.
  assert (∀ (s : str) c, c ∈ default s (head (split_char 35 s)) → c ∈ s ∧ c ≠ 35) as Hhash.
  { intros s c. unfold split_char. destruct (split (Z.eqb 35) s) as [|w ws] eqn:Es;
      [by destruct (split_nonempty _ _ Es)|]. cbn. intros Hc. split.
    - revert w ws Es Hc. induction s as [|d s IH]; intros w ws; cbn [split].
      + intros Hw Hin. injection Hw as <- <-. by apply elem_of_nil in Hin.
      + destruct (Z.eqb_spec 35 d); [intros Hw Hin; injection Hw as <- _; by apply elem_of_nil in Hin|].
        destruct (split (Z.eqb 35) s) as [|w' ws']; intros [= <- <-]; [set_solver|].
        intros [->|Hc]%elem_of_cons; [left|right]. by eapply IH.
    - assert (w ∈ split (Z.eqb 35) s) as Hw by (rewrite Es; left).
      pose proof (split_pieces _ _ _ _ Hw Hc) as H35. by apply Z.eqb_neq, not_eq_sym in H35. }
  unfold detect_http_request. destruct p as [|b0 bs]; [done|].
  destruct (match bs with b1 :: _ => _ | [] => false end); [done|].
  destruct (is_ascii_alphabetic b0) eqn:Hb; [|done]. cbn [negb].
  destruct (from_utf8 (b0 :: bs)) as [text|]; [|done]. cbn [mbind option_bind].
  unfold parse_request. destruct (split_head text) as [[hd rest]|]; [|done]. cbn [mbind option_bind].
  destruct (split_whitespace hd) as [|m [|target [|version ws]]] eqn:Ew; [done..|].
  destruct (starts_with (lit "HTTP/") version); [|done]. cbn [negb].
  destruct (forallb is_ascii_alphabetic m) eqn:Hm; [|done]. cbn [negb].
  destruct (split_target target) as [pa q] eqn:Et.
  destruct (header_loop _ _ _) as [up hs] eqn:El. intros [= <-]. cbn [method path query upgrade_ws headers].
  apply header_loop_acc in El as (new & -> & ->). split; [by eexists _, _, _|].
  assert (m ≠ []) as Hne.
  { assert (m ∈ split_whitespace hd) as Hin by (rewrite Ew; left).
    unfold split_whitespace in Hin. by apply list_elem_of_filter in Hin as [? _]. }
  split; [done|]. split.
  { apply Forall_forall. intros c Hc. rewrite forallb_forall in Hm. apply Hm.
    by apply list_elem_of_In. }
  unfold split_target, before_hash in Et.
  destruct (split_once 63 target) as [[a b]|] eqn:E63; injection Et as <- <-.
  - split_and!; [| |done].
    + by eapply split_once_before.
    + by intros [_ ?]%Hhash.
  - split_and!; [|by intros ?%elem_of_nil|done]. intros [Hin _]%Hhash.
    by eapply split_once_absent in Hin.
Qed.

Lemma http_detection_shape_witness :
  upgrade_ws (mkHttp (lit "GET") (lit "/") [] false [(lit "host", lit "a")]) = false.
Proof.
  apply (http_detection_shape (lit "GET / HTTP/1.1
Host: a

") (mkHttp (lit "GET") (lit "/") [] false [(lit "host", lit "a")])).
  vm_compute. reflexivity.
Defined.

(** One byte that is not UTF-8 anywhere in
    the payload, for example in the body, hides the whole request from the
    detector. *)
Theorem http_binary_body_hides_request r more :
  request_ok r → detect_http_request (request_text r ++ 255 :: more) = None.
Proof.
  intros Hr. destruct (request_text_head r Hr) as (b & bs & E & Hb & H22).
  pose proof (from_utf8_ascii_bad (request_text r) more (request_text_ascii r Hr)) as Hu.
  unfold detect_http_request. rewrite E in *. cbn [app] in *. rewrite Hb, H22, Hu. cbn [negb andb].
  by destruct (bs ++ 255 :: more).
Qed.

Lemma http_binary_body_hides_request_witness :
  detect_http_request (request_text demo_request ++ [255; 216]) = None.
Proof. apply (http_binary_body_hides_request demo_request [216] demo_request_ok). Defined.
