(* ===== verification/Withrottle.v ===== *)
(** The WiThrottle line detector ([crates/mw-sniffer/src/withrottle.rs]). *)

From S2P Require Import Prelude Text.

Record WithrottleLine := mkWt {
  wt_prefix : str;
  wt_throttle : str;
  wt_command : str
}.

(** ** The detector *)

(** [line.as_bytes()]; [bytes[1] as char] is the Latin-1 character. *)
Definition parse_prefix (line : str) : str * str :=
  match utf8_encode line with
  | [] => ([], [])
  | b0 :: bs =>
      if b0 =? 42 then ([42], [])
      else if (b0 =? 77) && (2 <=? length bs)%nat then (take 3 line, take 1 bs)
      else
        let prefix_len :=
          match bs with
          | b1 :: b2 :: _ =>
              if is_ascii_alphabetic b0 && is_ascii_alphabetic b1 && is_ascii_alphabetic b2 then 3%nat
              else if is_ascii_alphabetic b0 && is_ascii_alphabetic b1 then 2%nat
              else 1%nat
          | b1 :: _ =>
              if is_ascii_alphabetic b0 && is_ascii_alphabetic b1 then 2%nat else 1%nat
          | [] => 1%nat
          end in
        (take prefix_len line, [])
  end.

Definition is_newline (c : Z) : bool := (c =? 10) || (c =? 13).

Definition lnwi_noise : str := lit "AT+CIPSENDBUF=".

(** The body of the loop over the pieces of the text. *)
Definition wt_line (raw : str) : option WithrottleLine :=
  let line := trim raw in
  if bool_decide (line = []) then None
  else if starts_with lnwi_noise line then None
  else
    let '(prefix, throttle) := parse_prefix line in
    Some (mkWt prefix throttle line).

Definition wt_lines (pieces : list str) : list WithrottleLine := omap wt_line pieces.

Definition detect_withrottle_lines (payload : list Z) : list WithrottleLine :=
  match from_utf8 payload with
  | Some text => wt_lines (split is_newline text)
  | None => []
  end.

(** ** Specification *)
Definition wt_ok (l : WithrottleLine) : Prop :=
  wt_command l ≠ [] ∧ trim (wt_command l) = wt_command l
  ∧ Forall (λ c, is_newline c = false) (wt_command l)
  ∧ starts_with lnwi_noise (wt_command l) = false
  ∧ (wt_prefix l, wt_throttle l) = parse_prefix (wt_command l)
  ∧ (∃ rest, wt_command l = wt_prefix l ++ rest) ∧ (1 ≤ length (wt_prefix l) ≤ 3)%nat.

(** ** Lemmas *)
Lemma utf8_encode_char_cons c : ∃ b bs, utf8_encode_char c = b :: bs.
Proof. unfold utf8_encode_char. repeat case_match; eauto. Qed.

Lemma utf8_encode_42 c s b bs :
  utf8_encode (c :: s) = b :: bs → b = 42 → c = 42.
Proof.
  cbn. unfold utf8_encode_char.
  destruct (Z.ltb_spec c 128); [by intros [= <- _]|].
  assert (∀ x y, Z.land 42 x ≠ x → Z.lor x y ≠ 42) as Hl.
  { intros x y Hx E. apply Hx. rewrite <- E. apply Z.bits_inj'. intros i _.
    rewrite Z.land_spec, Z.lor_spec. by destruct (Z.testbit x i), (Z.testbit y i). }
  repeat case_match; intros [= <- _]; intros E; exfalso; revert E; by apply Hl.
Qed.

Lemma parse_prefix_spec line :
  line ≠ [] → (∃ rest, line = (parse_prefix line).1 ++ rest)
  ∧ (1 ≤ length (parse_prefix line).1 ≤ 3)%nat.
Proof.
  intros Hne. destruct line as [|c line]; [done|].
  destruct (utf8_encode_char_cons c) as (b & bs & Eb).
  assert (utf8_encode (c :: line) = b :: (bs ++ utf8_encode line)) as E by (cbn; by rewrite Eb).
  assert (∀ n, (1 ≤ n ≤ 3)%nat → (∃ rest, c :: line = take n (c :: line) ++ rest)
    ∧ (1 ≤ length (take n (c :: line)) ≤ 3)%nat) as Htake.
  { intros n Hn. split; [exists (drop n (c :: line)); by rewrite take_drop|].
    rewrite length_take. cbn [length]. lia. }
  unfold parse_prefix. rewrite E. destruct (Z.eqb_spec b 42) as [Hb|_].
  { pose proof (utf8_encode_42 _ _ _ _ E Hb) as ->. split; [by exists line|]. cbn. lia. }
  case_match; cbn [fst]; [apply Htake; lia|].
  destruct (bs ++ utf8_encode line) as [|b1 [|b2 t]]; cbn [fst]; repeat case_match; apply Htake; lia.
Qed.

Lemma wt_lines_ok pieces :
  Forall (Forall (λ c, is_newline c = false)) pieces → Forall wt_ok (wt_lines pieces).
Proof.
  intros Hp. apply Forall_forall. intros l (raw & Hraw & Hl)%list_elem_of_omap. unfold wt_line in Hl.
  case_bool_decide as Hne; [done|]. destruct (starts_with lnwi_noise (trim raw)) eqn:Hs; [done|].
  destruct (parse_prefix (trim raw)) as [p t] eqn:Ep. injection Hl as <-.
  destruct (parse_prefix_spec _ Hne) as [Hpre Hlen]. rewrite Ep in Hpre, Hlen.
  unfold wt_ok; cbn [wt_command wt_prefix wt_throttle fst] in *.
  split; [done|]. split; [by apply trim_edges|]. split; [|done].
  rewrite Forall_forall in Hp. specialize (Hp raw Hraw). rewrite Forall_forall in Hp |- *.
  intros c Hc%trim_incl. by apply Hp.
Qed.

Lemma wt_lines_cons w ws :
  wt_lines (w :: ws) = match wt_line w with Some l => l :: wt_lines ws | None => wt_lines ws end.
Proof. done. Qed.

Lemma wt_lines_len pieces :
  sumZ ((λ l, utf8_len (wt_command l)) <$> wt_lines pieces)
  ≤ foldr (λ w n, utf8_len w + n) 0 pieces.
Proof.
  induction pieces as [|w ws IH]; [done|]. rewrite wt_lines_cons.
  pose proof (utf8_len_nonneg w). pose proof (utf8_len_trim w). cbn [foldr]. unfold wt_line.
  case_bool_decide; [lia|]. destruct (starts_with _ _); [lia|].
  destruct (parse_prefix (trim w)). csimpl. cbn [sumZ]. lia.
Qed.

Lemma split_pieces_ok s : Forall (Forall (λ c, is_newline c = false)) (split is_newline s).
Proof.
  apply Forall_forall. intros w Hw. apply Forall_forall. intros c Hc. by eapply split_pieces.
Qed.

Lemma wt_total p :
  sumZ ((λ l, utf8_len (wt_command l)) <$> detect_withrottle_lines p) ≤ Z.of_nat (length p).
Proof.
  unfold detect_withrottle_lines. destruct (from_utf8 p) as [text|] eqn:E; [|cbn; lia].
  rewrite <- (from_utf8_len _ _ E). etransitivity; [apply wt_lines_len|apply utf8_len_split].
Qed.

(** ** Properties *)

(** C39 (wt_lines_faithful): every line found in a payload is non-empty, trimmed,
    free of line breaks and of the LNWI noise prefix, and its prefix is a
    non-empty beginning of the command of at most three characters; the bytes
    of all commands together never exceed the payload (so byte rules never
    overcharge); and a list of ASCII commands sent one per line is found again
    in full and in order. *)
Theorem wt_lines_faithful :
  (∀ p, Forall wt_ok (detect_withrottle_lines p)
     ∧ sumZ ((λ l, utf8_len (wt_command l)) <$> detect_withrottle_lines p) ≤ Z.of_nat (length p))
  ∧ (∀ c cs, Forall (λ w, w ≠ [] ∧ trim w = w ∧ starts_with lnwi_noise w = false
         ∧ Forall (λ d, 0 ≤ d < 128 ∧ is_newline d = false) w) (c :: cs) →
       wt_command <$> detect_withrottle_lines (join [10] (c :: cs)) = c :: cs).
Proof.
  split.
  - intros p. split; [|apply wt_total]. unfold detect_withrottle_lines. destruct (from_utf8 p) as [text|] eqn:E.
    + apply wt_lines_ok, split_pieces_ok.
    + constructor.
  - intros c cs Hcs. unfold detect_withrottle_lines.
    assert (Forall (λ d, 0 ≤ d < 128) (join [10] (c :: cs))) as Hascii.
    { clear -Hcs. revert c Hcs. induction cs as [|c' cs IH]; intros c [Hc Hcs]%Forall_cons;
        assert (Forall (λ d, 0 ≤ d < 128) c) as Hd
          by (destruct Hc as (_ & _ & _ & Hc); eapply Forall_impl; [exact Hc|naive_solver]).
      - exact Hd.
      - cbn [join]. apply Forall_app. split; [exact Hd|]. constructor; [lia|]. by apply IH. }
    rewrite from_utf8_ascii, split_join; [|done| |done].
    2: { eapply Forall_impl; [exact Hcs|]. intros w (_ & _ & _ & Hw).
         eapply Forall_impl; [exact Hw|]. naive_solver. }
    clear Hascii. induction Hcs as [|w ws (Hne & Ht & Hs & _) _ IH]; [done|].
    rewrite wt_lines_cons. unfold wt_line.
    rewrite Ht, bool_decide_eq_false_2, Hs by done. destruct (parse_prefix w). csimpl. by rewrite IH.
Qed.
