(* ===== verification/Sniffer.v ===== *)
(** The packet sniffer ([crates/microwaf/src/sniffer.rs]): frame parsing, the
    flow table, and the dispatch of TCP and UDP payloads to the detectors and
    the counters.  The socket and its loop are in [Capture]: here a frame is a list
    of bytes.  What a dispatch does to the counters is the list of its calls on
    the counter store, in order. *)

From S2P Require Import Prelude Text Client Rule Window Policy Counters Enforcer Config State.
From S2P Require Import Z21 Ws Http Withrottle.

Definition ETH_P_IP : Z := 2048.
Definition IPPROTO_TCP : Z := 6.
Definition IPPROTO_UDP : Z := 17.

(** ** The flow table *)
Record FlowKey := mkFlow { fk_src : IpAddr; fk_sport : Z; fk_dst : IpAddr; fk_dport : Z; fk_proto : Z }.

#[export] Instance FlowKey_eq_dec : EqDecision FlowKey.
Proof. solve_decision. Defined.
#[export] Instance FlowKey_countable : Countable FlowKey.
Proof.
  apply (inj_countable' (λ k, (fk_src k, fk_sport k, fk_dst k, fk_dport k, fk_proto k))
    (λ p, mkFlow p.1.1.1.1 p.1.1.1.2 p.1.1.2 p.1.2 p.2)). by intros [].
Defined.

Record FlowTable := mkFlows { flows : gmap FlowKey Z; ft_max : nat; ft_idle : Z }.

Definition flow_table_new : FlowTable := mkFlows ∅ 8192 (from_secs 60).

(** [Iterator::min_by_key]: the first of the smallest. *)
Fixpoint min_by_time (l : list (FlowKey * Z)) : option (FlowKey * Z) :=
  match l with
  | [] => None
  | x :: l' => match min_by_time l' with
               | None => Some x
               | Some y => if x.2 <=? y.2 then Some x else Some y
               end
  end.

(** [FlowTable::observe]: the new table and whether the flow is new. *)
Definition observe `{HI : HashIter} (ft : FlowTable) (key : FlowKey) (now : Z) : FlowTable * bool :=
  let fl := filter (λ kt, sat_since now kt.2 < ft_idle ft) (flows ft) in
  match fl !! key with
  | Some _ => (mkFlows (<[key := now]> fl) (ft_max ft) (ft_idle ft), false)
  | None =>
      let fl :=
        if (ft_max ft <=? size fl)%nat then
          match min_by_time (hiter fl) with
          | Some (old, _) => delete old fl
          | None => fl
          end
        else fl in
      (mkFlows (<[key := now]> fl) (ft_max ft) (ft_idle ft), true)
  end.

(** Connections upgraded to WebSocket. *)
Abbreviation WsConns := (gset (IpAddr * Z * IpAddr * Z)).

(** ** Frames *)

(** [&l[i..]], which panics when [i] is past the end. *)
Definition slice_from (l : list Z) (i : nat) : option (list Z) :=
  if (i <=? length l)%nat then Some (drop i l) else None.

Inductive Segment :=
| TcpSegment (sport dport : Z) (syn : bool) (payload : list Z)
| UdpSegment (sport dport : Z) (payload : list Z).

(** The parsing half of [handle_frame].  The outer [None] is an index out of
    range (a panic), the inner one a frame that is ignored. *)
Definition parse_l4 (proto : Z) (l4 : list Z) : option (option Segment) :=
  if (proto =? IPPROTO_TCP) && (20 <=? length l4)%nat then
    s0 ← l4 !! 0%nat; s1 ← l4 !! 1%nat;
    d0 ← l4 !! 2%nat; d1 ← l4 !! 3%nat;
    flags ← l4 !! 13%nat;
    off ← l4 !! 12%nat;
    let data_off := Z.to_nat (Z.shiftr off 4 * 4) in
    payload ← if (data_off <? length l4)%nat then slice_from l4 data_off else Some [];
    let syn := negb (Z.land flags 2 =? 0) && (Z.land flags 16 =? 0) in
    Some (Some (TcpSegment (u16_be s0 s1) (u16_be d0 d1) syn payload))
  else if (proto =? IPPROTO_UDP) && (8 <=? length l4)%nat then
    s0 ← l4 !! 0%nat; s1 ← l4 !! 1%nat;
    d0 ← l4 !! 2%nat; d1 ← l4 !! 3%nat;
    payload ← slice_from l4 8;
    Some (Some (UdpSegment (u16_be s0 s1) (u16_be d0 d1) payload))
  else Some None.

Definition parse_frame (frame : list Z) : option (option (ClientId * IpAddr * IpAddr * Segment)) :=
  if (length frame <? 14)%nat then Some None
  else
    e0 ← frame !! 12%nat; e1 ← frame !! 13%nat;
    if negb (u16_be e0 e1 =? ETH_P_IP) then Some None
    else
      let mac := take 6 (drop 6 frame) in
      ip ← slice_from frame 14;
      if (length ip <? 20)%nat then Some None
      else
        v ← ip !! 0%nat;
        let ihl := Z.to_nat (Z.land v 15 * 4) in
        if (length ip <? ihl)%nat then Some None
        else
          proto ← ip !! 9%nat;
          a ← ip !! 12%nat; b ← ip !! 13%nat; c ← ip !! 14%nat; d ← ip !! 15%nat;
          a' ← ip !! 16%nat; b' ← ip !! 17%nat; c' ← ip !! 18%nat; d' ← ip !! 19%nat;
          l4 ← slice_from ip ihl;
          seg ← parse_l4 proto l4;
          match seg with
          | Some seg => Some (Some (mkClient mac (V4 a b c d), V4 a b c d, V4 a' b' c' d', seg))
          | None => Some None
          end.

(** ** Match contexts *)

(** A reading of [chrono::Utc::now()]. *)
Record UtcNow := mkUtc { timestamp : Z; hour : Z; dow : Z }.

Definition common_ctx (client : ClientId) (port : Z) (sets : SetsConfig) (utc : UtcNow) : MatchContext :=
  let ctx := empty_ctx in
  let ctx := set_str (lit "client.mac") (mac_string client) ctx in
  let ctx := set_str (lit "client.ip") (show_ip (ip client)) ctx in
  let ctx := set_int (lit "port") port ctx in
  let ctx := set_int (lit "time.epoch") (timestamp utc) ctx in
  let ctx := set_int (lit "time.hour") (hour utc) ctx in
  let ctx := set_int (lit "time.dow") (dow utc) ctx in
  {| bindings := bindings ctx; Rule.sets := sets |}.

Definition ws_ctx (frame : WsFrameHeader) (ctx : MatchContext) : MatchContext :=
  set_int (lit "frame.payloadLen") (payload_len frame)
    (set_int (lit "frame.opcode") (opcode frame) (set_bool (lit "frame.fin") (fin frame) ctx)).

Definition http_ctx (http : HttpRequestLine) (ctx : MatchContext) : MatchContext :=
  set_str (lit "request.path") (path http) (set_str (lit "request.method") (method http) ctx).

Definition wt_ctx (line : WithrottleLine) (ctx : MatchContext) : MatchContext :=
  set_str (lit "withrottle.command") (wt_command line)
    (set_str (lit "withrottle.throttle") (wt_throttle line)
      (set_str (lit "withrottle.prefix") (wt_prefix line) ctx)).

Definition z21_ctx (r : Z21Record) (ctx : MatchContext) : MatchContext :=
  set_int (lit "z21.dataLen") (z_data_len r)
    (set_int (lit "z21.xheader") (z_xheader r) (set_int (lit "z21.header") (z_header r) ctx)).

(** ** Dispatch *)
Section dispatch.
Context `{CEL : CelEngine} `{HI : HashIter}.

(** Every use of the wall clock is a reading of its own: [utc rule k] is the
    [k]-th reading for a rule within one frame. *)
Context (utc : str → nat → UtcNow).
Context (rs : RuleSet) (sets : SetsConfig).

Definition ctx_at (client : ClientId) (dport : Z) (r : Rule) (k : nat) : MatchContext :=
  common_ctx client dport sets (utc (r_id r) k).

(** [if rule.metric == Requests { .. } if rule.metric == Bytes { .. }] *)
Definition count_call (client : ClientId) (r : Rule) (byte_len : Z) : list ccall :=
  match r_metric r with
  | Requests => [CRequests client (r_id r) 1]
  | Bytes => [CBytes client (r_id r) byte_len]
  | Connections => []
  end.

(** The body of the loops over the generic TCP and UDP rules; [opens] is the
    SYN test for TCP and true for UDP. *)
Definition generic_step (client : ClientId) (key : FlowKey) (dport : Z) (opens : bool) (byte_len now : Z)
    (acc : FlowTable * list ccall) (r : Rule) : FlowTable * list ccall :=
  let '(ft, calls) := acc in
  let '(ft, calls) :=
    if bool_decide (r_metric r = Connections) && opens then
      let '(ft', is_new) := observe ft key now in
      if is_new && match_ok r (ctx_at client dport r 0)
      then (ft', calls ++ [CConnections client (r_id r) 1])
      else (ft', calls)
    else (ft, calls) in
  if bool_decide (r_metric r = Bytes) && (0 <? byte_len) && match_ok r (ctx_at client dport r 1)
  then (ft, calls ++ [CBytes client (r_id r) byte_len])
  else (ft, calls).

Definition generic_rules (proto : Protocol) (client : ClientId) (key : FlowKey) (dport : Z)
    (opens : bool) (byte_len now : Z) (ft : FlowTable) : FlowTable * list ccall :=
  foldl (generic_step client key dport opens byte_len now) (ft, []) (matching rs proto dport).

(** A loop over the rules of a parsed protocol, for one detected item. *)
Definition item_calls (client : ClientId) (dport : Z) (r : Rule) (k : nat)
    (add_vars : MatchContext → MatchContext) (byte_len : Z) : list ccall :=
  if match_ok r (add_vars (ctx_at client dport r k)) then count_call client r byte_len else [].

Definition ws_calls (client : ClientId) (dport byte_len : Z) (frame : WsFrameHeader) : list ccall :=
  matching rs WebSocket dport ≫= λ r, item_calls client dport r 2 (ws_ctx frame) byte_len.

Definition http_calls (client : ClientId) (dport byte_len : Z) (http : HttpRequestLine) : list ccall :=
  matching rs Http dport ≫= λ r, item_calls client dport r 2 (http_ctx http) byte_len.

Definition wt_calls (client : ClientId) (dport : Z) (lines : list WithrottleLine) : list ccall :=
  matching rs Withrottle dport ≫= λ r,
    concat (imap (λ i line, item_calls client dport r (2 + i) (wt_ctx line)
                              (utf8_len (wt_command line))) lines).

Definition z21_calls (client : ClientId) (dport : Z) (records : list Z21Record) : list ccall :=
  matching rs Z21 dport ≫= λ r,
    concat (imap (λ i rec, item_calls client dport r (2 + i) (z21_ctx rec) (z_data_len rec)) records).

Definition dispatch_tcp (client : ClientId) (src : IpAddr) (sport : Z) (dst : IpAddr) (dport : Z)
    (syn : bool) (payload : list Z) (ft : FlowTable) (ws_conns : WsConns) (now : Z) :
    FlowTable * WsConns * list ccall :=
  let byte_len := Z.of_nat (length payload) in
  let key := mkFlow src sport dst dport IPPROTO_TCP in
  let '(ft, calls) := generic_rules Tcp client key dport syn byte_len now ft in
  let ws_key := (src, sport, dst, dport) in
  if bool_decide (ws_key ∈ ws_conns) then
    match detect_ws_frame payload with
    | Some frame => (ft, ws_conns, calls ++ ws_calls client dport byte_len frame)
    | None => (ft, ws_conns, calls)
    end
  else
    match detect_http_request payload with
    | Some http =>
        if upgrade_ws http then (ft, {[ws_key]} ∪ ws_conns, calls ++ [CWs client])
        else (ft, ws_conns, calls ++ http_calls client dport byte_len http)
    | None => (ft, ws_conns, calls ++ wt_calls client dport (detect_withrottle_lines payload))
    end.

Definition dispatch_udp (client : ClientId) (src : IpAddr) (sport : Z) (dst : IpAddr) (dport : Z)
    (payload : list Z) (ft : FlowTable) (now : Z) : FlowTable * list ccall :=
  let byte_len := Z.of_nat (length payload) in
  let key := mkFlow src sport dst dport IPPROTO_UDP in
  let '(ft, calls) := generic_rules Udp client key dport true byte_len now ft in
  (ft, calls ++ z21_calls client dport (detect_z21_records payload)).

Definition dispatch (client : ClientId) (src dst : IpAddr) (seg : Segment)
    (ft : FlowTable) (ws_conns : WsConns) (now : Z) : FlowTable * WsConns * list ccall :=
  match seg with
  | TcpSegment sport dport syn payload =>
      dispatch_tcp client src sport dst dport syn payload ft ws_conns now
  | UdpSegment sport dport payload =>
      let '(ft, calls) := dispatch_udp client src sport dst dport payload ft now in
      (ft, ws_conns, calls)
  end.
End dispatch.

(** The whole of [handle_frame]; [None] is a panic. *)
Definition handle_frame `{CEL : CelEngine} `{HI : HashIter} {E} (utc : str → nat → UtcNow)
    (frame : list Z) (s : DaemonState E) (ft : FlowTable) (ws_conns : WsConns) (now : Z) :
    option (DaemonState E * FlowTable * WsConns) :=
  parsed ← parse_frame frame;
  match parsed with
  | None => Some (s, ft, ws_conns)
  | Some (client, src, dst, seg) =>
      let '(ft, ws_conns, calls) :=
        dispatch utc (rules s) (state_sets s) client src dst seg ft ws_conns now in
      Some (with_counters s (foldl exec_call (counters s) calls), ft, ws_conns)
  end.

(** ** Frames: no index is out of range *)
Lemma lookup_byte l i : bytes_ok l → (i < length l)%nat → ∃ b, l !! i = Some b ∧ byte_ok b.
Proof.
  intros Hl Hi. destruct (lookup_lt_is_Some_2 l i Hi) as [b Hb]. exists b. split; [done|].
  by eapply Forall_lookup_1 in Hb.
Qed.

Lemma slice_from_ok l i : (i ≤ length l)%nat → slice_from l i = Some (drop i l).
Proof. intros. unfold slice_from. by rewrite (proj2 (Nat.leb_le _ _)). Qed.

Lemma u16_be_ok a b : byte_ok a → byte_ok b → u16_ok (u16_be a b).
Proof. intros. rewrite u16_be_arith by done. unfold byte_ok, u16_ok, U8_MAX, U16_MAX in *. lia. Qed.

Definition segment_payload (seg : Segment) : list Z :=
  match seg with
  | TcpSegment _ _ _ p | UdpSegment _ _ p => p
  end.

Definition segment_port (seg : Segment) : Z :=
  match seg with
  | TcpSegment _ dport _ _ | UdpSegment _ dport _ => dport
  end.

(** Resolves an index of a parser. *)
Ltac byte_at l i b :=
  let E := fresh "E" in let H := fresh "H" b in
  destruct (lookup_byte l i) as (b & E & H); [assumption|lia|rewrite E; cbn [mbind option_bind]].

Lemma parse_l4_total proto l4 : bytes_ok l4 →
  ∃ seg, parse_l4 proto l4 = Some seg
    ∧ ∀ sg, seg = Some sg → segment_payload sg `suffix_of` l4 ∧ u16_ok (segment_port sg).
Proof.
  intros Hl. unfold parse_l4.
  destruct ((proto =? IPPROTO_TCP) && (20 <=? length l4)%nat) eqn:Et.
  - apply andb_true_iff in Et as [_ Ht%Nat.leb_le].
    byte_at l4 0%nat s0. byte_at l4 1%nat s1. byte_at l4 2%nat d0. byte_at l4 3%nat d1.
    byte_at l4 13%nat fl. byte_at l4 12%nat off.
    assert (∃ p, (if (Z.to_nat (Z.shiftr off 4 * 4) <? length l4)%nat
      then slice_from l4 (Z.to_nat (Z.shiftr off 4 * 4)) else Some []) = Some p ∧ p `suffix_of` l4)
      as (p & -> & Hp).
    { destruct (Nat.ltb_spec (Z.to_nat (Z.shiftr off 4 * 4)) (length l4)) as [Hlt|].
      - rewrite slice_from_ok by lia. eexists. split; [done|]. apply suffix_drop.
      - exists []. split; [done|]. apply suffix_nil. }
    cbn [mbind option_bind]. eexists. split; [done|]. intros sg [= <-]. cbn.
    split; [done|by apply u16_be_ok].
  - destruct ((proto =? IPPROTO_UDP) && (8 <=? length l4)%nat) eqn:Eu; [|by eexists].
    apply andb_true_iff in Eu as [_ Hu%Nat.leb_le].
    byte_at l4 0%nat s0. byte_at l4 1%nat s1. byte_at l4 2%nat d0. byte_at l4 3%nat d1.
    rewrite slice_from_ok by lia. cbn [mbind option_bind]. eexists. split; [done|].
    intros sg [= <-]. cbn. split; [apply suffix_drop|by apply u16_be_ok].
Qed.

(** What a parsed frame says. *)
Definition parsed_ok (frame : list Z) (r : ClientId * IpAddr * IpAddr * Segment) : Prop :=
  let '(client, src, dst, seg) := r in
  client_ok client ∧ ip client = src ∧ ip_ok dst
  ∧ mac client = take 6 (drop 6 frame)
  ∧ (∃ a b c d, src = V4 a b c d ∧ take 4 (drop 26 frame) = [a; b; c; d])
  ∧ take 2 (drop 12 frame) = [8; 0]
  ∧ (34 ≤ length frame)%nat
  ∧ segment_payload seg `suffix_of` frame ∧ u16_ok (segment_port seg).

Lemma ethertype_ip a b : byte_ok a → byte_ok b → u16_be a b = ETH_P_IP → [a; b] = [8; 0].
Proof.
  intros Ha Hb. rewrite u16_be_arith by done. unfold ETH_P_IP, byte_ok, U8_MAX in *. intros.
  f_equal; [lia|f_equal; lia].
Qed.

Lemma ihl_bound v : byte_ok v → 0 ≤ Z.land v 15 * 4 ≤ 60.
Proof.
  intros Hv. pose proof (byte_all (λ v, (0 <=? Z.land v 15 * 4) && (Z.land v 15 * 4 <=? 60))
    ltac:(vm_compute; reflexivity) v Hv) as H. cbv beta in H. lia.
Qed.

Lemma parse_frame_total frame : bytes_ok frame →
  ∃ r, parse_frame frame = Some r ∧ ∀ p, r = Some p → parsed_ok frame p.
Proof.
  intros Hf. unfold parse_frame. destruct (Nat.ltb_spec (length frame) 14) as [|H14]; [by eexists|].
  byte_at frame 12%nat e0. byte_at frame 13%nat e1.
  destruct (Z.eqb_spec (u16_be e0 e1) ETH_P_IP) as [He|]; [|by eexists]. cbn [negb].
  rewrite slice_from_ok by lia. cbn [mbind option_bind]. set (ip := drop 14 frame).
  assert (bytes_ok ip) as Hip by by apply Forall_drop.
  assert (length ip = length frame - 14)%nat as Hlen by apply length_drop.
  destruct (Nat.ltb_spec (length ip) 20) as [|H20]; [by eexists|].
  byte_at ip 0%nat v.
  destruct (Nat.ltb_spec (length ip) (Z.to_nat (Z.land v 15 * 4))) as [|Hihl]; [by eexists|].
  byte_at ip 9%nat proto. byte_at ip 12%nat a. byte_at ip 13%nat b. byte_at ip 14%nat c.
  byte_at ip 15%nat d. byte_at ip 16%nat a'. byte_at ip 17%nat b'. byte_at ip 18%nat c'.
  byte_at ip 19%nat d'. rewrite slice_from_ok by lia. cbn [mbind option_bind].
  destruct (parse_l4_total proto (drop (Z.to_nat (Z.land v 15 * 4)) ip)) as (seg & -> & Hseg);
    [by apply Forall_drop|]. cbn [mbind option_bind].
  destruct seg as [sg|]; [|by eexists]. eexists. split; [done|]. intros p [= <-].
  destruct (Hseg sg eq_refl) as [Hsuf Hport].
  assert (length (take 6 (drop 6 frame)) = 6%nat) as Hmac.
  { rewrite length_take, length_drop. lia. }
  split_and!; cbn [ip mac ip_ok].
  - split_and!; cbn [mac ip ip_ok]; [done|by apply Forall_take, Forall_drop|done].
  - done.
  - done.
  - done.
  - exists a, b, c, d. split; [done|].
    apply list_eq. intros i. destruct (decide (i < 4)%nat) as [Hi|].
    2: { rewrite !lookup_ge_None_2; [done|cbn; lia|rewrite length_take; lia]. }
    rewrite lookup_take_lt by done. unfold ip in *. rewrite lookup_drop in *.
    do 4 (destruct i as [|i]; [by cbn in *|]). lia.
  - rewrite <- (ethertype_ip e0 e1) by done.
    apply list_eq. intros i. destruct (decide (i < 2)%nat) as [Hi|].
    2: { rewrite !lookup_ge_None_2; [done|cbn; lia|rewrite length_take; lia]. }
    rewrite lookup_take_lt, lookup_drop by done.
    do 2 (destruct i as [|i]; [by cbn in *|]). lia.
  - lia.
  - etransitivity; [exact Hsuf|]. etransitivity; [apply suffix_drop|apply suffix_drop].
  - done.
Qed.

(** ** The flow table *)
Definition flow_fresh (ft : FlowTable) (now t : Z) : Prop := sat_since now t < ft_idle ft.

Definition flows_ok (ft : FlowTable) : Prop :=
  (size (flows ft) ≤ ft_max ft)%nat ∧ (1 ≤ ft_max ft)%nat ∧ 0 < ft_idle ft.

Lemma min_by_time_spec l : match min_by_time l with
  | Some (k, t) => (k, t) ∈ l ∧ ∀ k' t', (k', t') ∈ l → t ≤ t'
  | None => l = []
  end.
Proof.
  induction l as [|[k t] l IH]; cbn [min_by_time]; [done|].
  destruct (min_by_time l) as [[k1 t1]|]; cbn [snd].
  - destruct IH as [Hin Hmin]. destruct (Z.leb_spec t t1) as [Hle|Hgt].
    + split; [left|]. intros k' t' [[= -> ->]|H]%elem_of_cons; [lia|]. apply Hmin in H. lia.
    + split; [by right|]. intros k' t' [[= -> ->]|H]%elem_of_cons; [lia|]. by eapply Hmin.
  - subst. split; [left|]. intros k' t' [[= -> ->]|H%elem_of_nil]%elem_of_cons; [lia|done].
Qed.

Section flow_table.
Context `{HI : HashIter}.

(** The entries that [retain] keeps. *)
Definition retained (ft : FlowTable) (now : Z) : gmap FlowKey Z :=
  filter (λ kt, sat_since now kt.2 < ft_idle ft) (flows ft).

Lemma retained_lookup ft now k t :
  retained ft now !! k = Some t ↔ flows ft !! k = Some t ∧ flow_fresh ft now t.
Proof. unfold retained. by rewrite map_lookup_filter_Some. Qed.

Lemma observe_eq ft k now :
  let fl := retained ft now in
  observe ft k now =
    match fl !! k with
    | Some _ => (mkFlows (<[k := now]> fl) (ft_max ft) (ft_idle ft), false)
    | None =>
        (mkFlows (<[k := now]>
           (if (ft_max ft <=? size fl)%nat
            then match min_by_time (hiter fl) with Some (old, _) => delete old fl | None => fl end
            else fl)) (ft_max ft) (ft_idle ft), true)
    end.
Proof. unfold observe, retained. by case_match. Qed.

Lemma observe_again ft k now now' ft' b :
  0 < ft_idle ft → sat_since now' now < ft_idle ft →
  observe ft k now = (ft', b) → (observe ft' k now').2 = false.
Proof.
  intros Hidle Hf. rewrite observe_eq. cbv zeta.
  assert (∀ fl, (observe (mkFlows (<[k := now]> fl) (ft_max ft) (ft_idle ft)) k now').2 = false) as H.
  { intros fl. rewrite observe_eq. cbv zeta.
    assert (retained (mkFlows (<[k := now]> fl) (ft_max ft) (ft_idle ft)) now' !! k = Some now) as ->; [|done].
    apply retained_lookup. cbn. by rewrite lookup_insert_eq. }
  case_match; intros [= <- _]; apply H.
Qed.
End flow_table.

(** ** What the calls of a frame are about *)
Definition call_for `{CEL : CelEngine} (client : ClientId) (rs : RuleSet) (p : Protocol) (dport : Z) (len : Z) (c : ccall) : Prop :=
  (∃ r, r ∈ matching rs p dport ∧ (call_delta c).1 = (client, Some (r_id r)))
  ∧ match c with
    | CRequests _ _ n | CConnections _ _ n => n = 1
    | CBytes _ _ n => 0 ≤ n ≤ len
    | CWs _ => False
    end.

Section calls.
Context `{CEL : CelEngine} `{HI : HashIter}.
Context (utc : str → nat → UtcNow) (rs : RuleSet) (sets : SetsConfig).

Lemma generic_rules_calls p client key dport opens len now ft :
  0 ≤ len →
  Forall (call_for client rs p dport len) (generic_rules utc rs sets p client key dport opens len now ft).2.
Proof.
  intros Hlen. unfold generic_rules.
  assert (∀ l acc, (∀ r, r ∈ l → r ∈ matching rs p dport) →
    Forall (call_for client rs p dport len) acc.2 →
    Forall (call_for client rs p dport len)
      (foldl (generic_step utc sets client key dport opens len now) acc l).2) as H; [|by apply H].
  induction l as [|r l IH]; intros [ft1 calls] Hl Hacc; [done|]. cbn [foldl]. apply IH.
  - intros r' Hr'. apply Hl. by right.
  - assert (r ∈ matching rs p dport) as Hr by (apply Hl; left). cbn in Hacc.
    assert (∀ n, Forall (call_for client rs p dport len) [CConnections client (r_id r) n] ↔ n = 1) as Hc.
    { intros n. rewrite Forall_singleton. unfold call_for. cbn. naive_solver. }
    assert (Forall (call_for client rs p dport len) [CBytes client (r_id r) len]) as Hb.
    { rewrite Forall_singleton. unfold call_for. cbn. split; [eauto|lia]. }
    unfold generic_step. destruct (_ && opens); [destruct (observe ft1 key now) as [ft2 [|]]|];
      cbn [andb]; repeat case_match; simplify_eq/=; rewrite ?Forall_app; auto;
      rewrite ?Hc; auto.
Qed.

Lemma item_calls_for p client dport r k f n len :
  r ∈ matching rs p dport → 0 ≤ n ≤ len →
  Forall (call_for client rs p dport len) (item_calls utc sets client dport r k f n).
Proof.
  intros Hr Hn. unfold item_calls. case_match; [|constructor]. unfold count_call.
  case_match; try constructor; try constructor; unfold call_for; cbn; eauto.
Qed.

Lemma Forall_concat_imap {A B} (P : B → Prop) (f : nat → A → list B) l :
  (∀ i x, x ∈ l → Forall P (f i x)) → Forall P (concat (imap f l)).
Proof.
  intros H. apply Forall_concat, Forall_forall. intros y (i & x & -> & Hx)%elem_of_lookup_imap_1.
  apply H. by eapply list_elem_of_lookup_2.
Qed.

(** Every call of a frame is for its client and for a rule on its port, and
    never counts more bytes than the payload has. *)
Definition frame_call (client : ClientId) (dport len : Z) (c : ccall) : Prop :=
  c = CWs client ∨ ∃ p, call_for client rs p dport len c.

Lemma call_for_frame client p dport len cs :
  Forall (call_for client rs p dport len) cs → Forall (frame_call client dport len) cs.
Proof. intros H. eapply Forall_impl; [exact H|]. intros c Hc. right. by exists p. Qed.

Lemma parsed_calls p client dport len {A} (items : list A) (f : A → MatchContext → MatchContext)
    (n : A → Z) :
  Forall (λ x, 0 ≤ n x ≤ len) items →
  Forall (frame_call client dport len)
    (matching rs p dport ≫= λ r, concat (imap (λ i x, item_calls utc sets client dport r (2 + i) (f x) (n x)) items)).
Proof.
  intros Hn. apply (call_for_frame _ p), Forall_bind. intros r Hr. apply Forall_concat_imap.
  intros i x Hx. apply item_calls_for; [done|]. rewrite Forall_forall in Hn. by apply Hn.
Qed.

Lemma dispatch_calls client src dst seg ft ws now ft' ws' calls :
  bytes_ok (segment_payload seg) →
  dispatch utc rs sets client src dst seg ft ws now = (ft', ws', calls) →
  Forall (frame_call client (segment_port seg) (Z.of_nat (length (segment_payload seg)))) calls
  ∧ ws ⊆ ws'.
Proof.
  intros Hp. destruct seg as [sport dport syn payload|sport dport payload];
    cbn [dispatch segment_payload segment_port] in *; set (len := Z.of_nat (length payload)).
  - unfold dispatch_tcp. fold len.
    pose proof (generic_rules_calls Tcp client (mkFlow src sport dst dport IPPROTO_TCP) dport syn len now ft
      ltac:(lia)) as Hg.
    destruct (generic_rules _ _ _ _ _ _ _ _ _ _ _) as [ft1 calls1]. cbn [snd] in Hg.
    apply call_for_frame in Hg.
    assert (∀ p f, Forall (frame_call client dport len)
      (matching rs p dport ≫= λ r, item_calls utc sets client dport r 2 f len)) as Hitem.
    { intros p f. apply (call_for_frame _ p), Forall_bind. intros r Hr.
      apply item_calls_for; [done|lia]. }
    case_bool_decide as Hws.
    + destruct (detect_ws_frame payload); intros [= <- <- <-]; (split; [|done]); [|done].
      apply Forall_app. split; [done|apply Hitem].
    + destruct (detect_http_request payload) as [http|].
      * destruct (upgrade_ws http); intros [= <- <- <-]; (split; [|set_solver]); apply Forall_app;
          (split; [done|]); [|apply Hitem]. by apply Forall_singleton; left.
      * intros [= <- <- <-]. split; [|done]. apply Forall_app. split; [done|]. apply parsed_calls.
        apply Forall_forall. intros l Hl. split; [apply utf8_len_nonneg|].
        etransitivity; [|apply wt_total]. apply sumZ_elem.
        -- apply Forall_fmap, Forall_forall. intros; apply utf8_len_nonneg.
        -- by apply (list_elem_of_fmap_2 (λ l, utf8_len (wt_command l))).
  - unfold dispatch_udp. fold len.
    pose proof (generic_rules_calls Udp client (mkFlow src sport dst dport IPPROTO_UDP) dport true len now ft
      ltac:(lia)) as Hg.
    destruct (generic_rules _ _ _ _ _ _ _ _ _ _ _) as [ft1 calls1]. cbn [snd] in Hg.
    intros [= <- <- <-]. split; [|done]. apply Forall_app. split; [by eapply call_for_frame|].
    apply parsed_calls. destruct (z21_total payload Hp) as [Hok Hsum].
    assert (Forall (λ x, 0 ≤ z_data_len x) (detect_z21_records payload)) as Hnn.
    { eapply Forall_impl; [exact Hok|]. intros r Hr. rewrite (zo_len _ Hr). lia. }
    apply Forall_forall. intros r Hr. split; [by rewrite Forall_forall in Hnn; apply Hnn|].
    etransitivity; [|exact Hsum]. apply sumZ_elem; [by apply Forall_fmap|].
    by apply (list_elem_of_fmap_2 z_data_len).
Qed.

Lemma frame_call_ok client dport len c :
  len ≤ U64_MAX → frame_call client dport len c → call_ok c.
Proof.
  intros Hlen [->|(p & _ & Hc)]; [done|]. unfold call_ok, u64_ok, U64_MAX in *.
  destruct c; subst; try done; lia.
Qed.

Lemma frame_call_client client dport len c :
  frame_call client dport len c → (call_delta c).1.1 = client.
Proof. intros [->|(p & (r & _ & E) & _)]; [done|]. by rewrite E. Qed.

(** *** The flow table through a frame *)
Lemma observe_ok ft k now : flows_ok ft → flows_ok (observe ft k now).1.
Proof.
  intros (Hsz & Hmax & Hidle). rewrite observe_eq. cbv zeta.
  assert (size (retained ft now) ≤ size (flows ft))%nat as Hr.
  { apply map_size_filter. }
  destruct (retained ft now !! k) as [t|] eqn:Ek; cbn [fst]; split_and!; cbn; try done.
  - rewrite map_size_insert_Some by done. lia.
  - destruct (Nat.leb_spec (ft_max ft) (size (retained ft now))) as [Hle|Hgt].
    + pose proof (min_by_time_spec (hiter (retained ft now))) as Hmin.
      destruct (min_by_time _) as [[old t]|].
      * destruct Hmin as [Hin%hiter_elem _].
        rewrite map_size_insert_None.
        -- rewrite map_size_delete_Some by eauto. lia.
        -- rewrite lookup_delete_None. by right.
      * assert (size (retained ft now) = 0%nat) as Hz.
        { apply map_size_empty_iff, map_empty. intros i. apply eq_None_not_Some. intros [t Ht].
          apply hiter_elem in Ht. rewrite Hmin in Ht. by apply elem_of_nil in Ht. }
        lia.
    + rewrite map_size_insert_None by done. lia.
Qed.

Lemma generic_rules_flows p client key dport opens len now ft :
  flows_ok ft → flows_ok (generic_rules utc rs sets p client key dport opens len now ft).1.
Proof.
  intros Hft. unfold generic_rules. generalize (matching rs p dport) as l.
  assert (∀ l acc, flows_ok acc.1 → flows_ok (foldl (generic_step utc sets client key dport opens len now) acc l).1)
    as H; [|intros; by apply H].
  induction l as [|r l IH]; intros [ft1 calls] Hacc; [done|]. cbn [foldl]. apply IH. cbn in Hacc.
  pose proof (observe_ok ft1 key now Hacc) as Hobs.
  unfold generic_step. destruct (_ && opens); [destruct (observe ft1 key now) as [ft2 [|]]|];
    cbn [andb]; repeat case_match; simplify_eq/=; done.
Qed.

Lemma dispatch_flows client src dst seg ft ws now ft' ws' calls :
  flows_ok ft → dispatch utc rs sets client src dst seg ft ws now = (ft', ws', calls) → flows_ok ft'.
Proof.
  intros Hft. destruct seg as [sport dport syn payload|sport dport payload];
    cbn [dispatch]; unfold dispatch_tcp, dispatch_udp; set (len := Z.of_nat (length payload)).
  - pose proof (generic_rules_flows Tcp client (mkFlow src sport dst dport IPPROTO_TCP) dport syn len now ft Hft) as Hg.
    destruct (generic_rules _ _ _ _ _ _ _ _ _ _ _) as [ft1 calls1]. cbn [fst] in Hg.
    repeat case_match; intros; simplify_eq; done.
  - pose proof (generic_rules_flows Udp client (mkFlow src sport dst dport IPPROTO_UDP) dport true len now ft Hft) as Hg.
    destruct (generic_rules _ _ _ _ _ _ _ _ _ _ _) as [ft1 calls1]. cbn [fst] in Hg.
    intros; simplify_eq; done.
Qed.
End calls.

(** ** The state through a frame *)
Lemma with_calls_ok `{CEL : CelEngine} {E} (s : DaemonState E) cs :
  state_ok s → Forall (λ c, call_ok c ∧ client_ok (call_delta c).1.1) cs →
  state_ok (with_counters s (foldl exec_call (counters s) cs)).
Proof.
  intros Hs Hcs. apply Forall_and in Hcs as [Hok Hcl]. pose proof Hs as [O1 O2 O3 O4 O5 O6 O7 O8 O9].
  constructor; cbn; try done.
  - intros k v Hk. destruct (exec_calls_keys (counters s) cs k) as [[v' Hk']|(c & Hc & E')]; [by eexists|..].
    + by eapply O6.
    + rewrite Forall_forall in Hcl. specialize (Hcl c Hc). by rewrite E' in Hcl.
  - by apply exec_calls_ok.
  - intros k l Hk. destruct (O8 k l Hk) as (Hl & c & Hc & Hle). split; [done|].
    destruct (exec_calls_mono _ cs _ _ O7 Hok Hc) as (v' & Hv' & Hle'). exists v'. split; [done|].
    unfold count3_le in *. lia.
Qed.

(** Filtering the calls of a loop over rules with distinct ids. *)
Lemma filter_rule_calls `{CEL : CelEngine} client (f : Rule → list ccall) (l : list Rule) r :
  NoDup (r_id <$> l) → r ∈ l →
  (∀ r' c, r' ∈ l → c ∈ f r' → (call_delta c).1 = (client, Some (r_id r'))) →
  filter (λ c, for_rule client (r_id r) c = true) (l ≫= f) = f r.
Proof.
  intros Hnd Hr Hf.
  assert (∀ l', (∀ r', r' ∈ l' → r' ∈ l ∧ r_id r' ≠ r_id r) →
    filter (λ c, for_rule client (r_id r) c = true) (l' ≫= f) = []) as Hother.
  { intros l' Hl'. apply filter_none, Forall_bind. intros r' Hr'. apply Forall_forall. intros c Hc.
    destruct (Hl' r' Hr') as [Hin Hne].
    unfold for_rule. rewrite (Hf r' c Hin Hc), bool_decide_eq_true. naive_solver. }
  apply list_elem_of_split in Hr as (l1 & l2 & ->).
  rewrite fmap_app, fmap_cons in Hnd. apply NoDup_app in Hnd as (Hnd1 & Hdis & Hnd2).
  apply NoDup_cons in Hnd2 as [Hr2 _].
  rewrite bind_app, bind_cons, !filter_app, Hother, Hother, app_nil_r; cbn [app].
  - apply filter_all, Forall_forall. intros c Hc. unfold for_rule.
    rewrite (Hf r c); [by apply bool_decide_eq_true|set_solver|done].
  - intros r' Hr'. split; [set_solver|]. intros E'. apply Hr2. rewrite <- E'.
    by apply (list_elem_of_fmap_2 r_id).
  - intros r' Hr'. split; [set_solver|]. intros E'.
    apply (Hdis (r_id r')); [by apply (list_elem_of_fmap_2 r_id)|]. rewrite E'. left.
Qed.

Lemma matching_incl `{CEL : CelEngine} (rs : RuleSet) p dport r : r ∈ matching rs p dport → r ∈ rs.
Proof. by intros [? _]%matching_spec. Qed.

Lemma id_inj `{CEL : CelEngine} (rs : RuleSet) r r' :
  NoDup (r_id <$> rs) → r ∈ rs → r' ∈ rs → r_id r = r_id r' → r = r'.
Proof.
  intros Hnd Hr Hr' E. apply list_elem_of_lookup in Hr as [i Hi]. apply list_elem_of_lookup in Hr' as [j Hj].
  assert (i = j) as <-; [|congruence]. eapply (NoDup_lookup _ _ _ (r_id r) Hnd).
  - by rewrite list_lookup_fmap, Hi.
  - by rewrite list_lookup_fmap, Hj, E.
Qed.

Lemma matching_NoDup `{CEL : CelEngine} (rs : RuleSet) p dport :
  NoDup (r_id <$> rs) → NoDup (r_id <$> matching rs p dport).
Proof.
  intros Hnd. unfold matching. induction rs as [|r rs IH]; [constructor|].
  rewrite fmap_cons in Hnd. apply NoDup_cons in Hnd as [Hr Hnd]. specialize (IH Hnd).
  rewrite filter_cons. case_decide; [|done]. rewrite fmap_cons. apply NoDup_cons. split; [|done].
  intros (r' & E & Hin)%list_elem_of_fmap. apply list_elem_of_filter in Hin as [_ Hin].
  apply Hr. rewrite E. by apply (list_elem_of_fmap_2 r_id).
Qed.

(** Calls for rules of protocol [q] do not count for a rule of protocol [p]. *)
Lemma other_protocol_calls `{CEL : CelEngine} (rs : RuleSet) client p q dport len r cs :
  NoDup (r_id <$> rs) → r ∈ matching rs p dport → p ≠ q →
  Forall (call_for client rs q dport len) cs →
  filter (λ c, for_rule client (r_id r) c = true) cs = [].
Proof.
  intros Hnd Hr Hpq Hcs. apply filter_none. eapply Forall_impl; [exact Hcs|].
  intros c [(r' & Hr' & E) _]. unfold for_rule. rewrite E, bool_decide_eq_true. intros [= E'].
  pose proof (id_inj rs r r' Hnd (matching_incl _ _ _ _ Hr) (matching_incl _ _ _ _ Hr') (eq_sym E')) as <-.
  apply matching_spec in Hr as (_ & <- & _). apply matching_spec in Hr' as (_ & E2 & _). congruence.
Qed.

(** *** A flow already in the table *)
Section starvation.
Context `{CEL : CelEngine} `{HI : HashIter}.
Context (utc : str → nat → UtcNow) (sets : SetsConfig).
Context (client : ClientId) (key : FlowKey) (dport : Z) (opens : bool) (len now : Z).

Definition no_connection (id : str) (calls : list ccall) : Prop := ∀ n, CConnections client id n ∉ calls.

Definition flow_seen (ft : FlowTable) : Prop := flows ft !! key = Some now ∧ 0 < ft_idle ft.

Lemma observe_marks ft : 0 < ft_idle ft → flow_seen (observe ft key now).1.
Proof.
  intros Hi. rewrite observe_eq. cbv zeta. unfold flow_seen.
  case_match; cbn; by rewrite lookup_insert_eq.
Qed.

Lemma observe_seen ft : flow_seen ft → (observe ft key now).2 = false.
Proof.
  intros [Hk Hi]. rewrite observe_eq. cbv zeta.
  assert (retained ft now !! key = Some now) as ->; [|done].
  apply retained_lookup. split; [done|]. unfold flow_fresh, sat_since. lia.
Qed.

Lemma generic_step_other id acc r :
  r_id r ≠ id → no_connection id acc.2 →
  no_connection id (generic_step utc sets client key dport opens len now acc r).2.
Proof.
  intros Hne Hno n. specialize (Hno n). destruct acc as [ft calls]. cbn in Hno.
  unfold generic_step. destruct (_ && opens); [destruct (observe ft key now) as [ft2 [|]]|];
    cbn [andb]; repeat case_match; simplify_eq/=; set_solver.
Qed.

Lemma generic_step_seen id acc r :
  flow_seen acc.1 → no_connection id acc.2 →
  let acc' := generic_step utc sets client key dport opens len now acc r in
  flow_seen acc'.1 ∧ no_connection id acc'.2.
Proof.
  destruct acc as [ft calls]. cbn [fst snd]. intros Hseen Hno.
  pose proof (observe_seen ft Hseen) as Hf. pose proof (observe_marks ft (proj2 Hseen)) as Hm.
  unfold generic_step. destruct (_ && opens).
  - destruct (observe ft key now) as [ft2 b]. cbn in Hf, Hm. subst b. cbn [andb].
    case_match; cbn; (split; [done|]); intros n; specialize (Hno n); set_solver.
  - case_match; cbn; (split; [done|]); intros n; specialize (Hno n); set_solver.
Qed.

Lemma generic_step_idle acc r :
  ft_idle (generic_step utc sets client key dport opens len now acc r).1 = ft_idle acc.1.
Proof.
  destruct acc as [ft calls].
  assert (ft_idle (observe ft key now).1 = ft_idle ft) as Hi by (rewrite observe_eq; cbv zeta; by case_match).
  unfold generic_step. destruct (_ && opens); [destruct (observe ft key now) as [ft2 [|]]|];
    cbn [andb]; repeat case_match; simplify_eq/=; done.
Qed.

Lemma generic_step_opens acc r :
  opens = true → r_metric r = Connections → 0 < ft_idle acc.1 →
  flow_seen (generic_step utc sets client key dport opens len now acc r).1.
Proof.
  intros -> Hr Hi. destruct acc as [ft calls]. cbn in Hi. pose proof (observe_marks ft Hi) as Hm.
  unfold generic_step. rewrite Hr, bool_decide_eq_true_2 by done. cbn [andb].
  destruct (observe ft key now) as [ft2 b]. cbn in Hm.
  rewrite (bool_decide_eq_false_2 (Connections = Bytes)) by done. cbn [andb]. by destruct (b && _).
Qed.

Lemma generic_step_closed id acc r :
  opens = false → no_connection id acc.2 →
  no_connection id (generic_step utc sets client key dport opens len now acc r).2.
Proof.
  intros -> Hno n. specialize (Hno n). destruct acc as [ft calls]. cbn in Hno.
  unfold generic_step. rewrite andb_false_r. case_match; cbn; [|done]. set_solver.
Qed.
End starvation.

(** ** Concrete frames and rules *)

(** An Ethernet frame with a SYN from 10.0.0.7:1000 to 10.0.0.1:80. *)
Definition demo_frame : list Z :=
  [255; 255; 255; 255; 255; 255; 2; 0; 0; 0; 0; 1; 8; 0;
   69; 0; 0; 40; 0; 0; 0; 0; 64; 6; 0; 0; 10; 0; 0; 7; 10; 0; 0; 1;
   3; 232; 0; 80; 0; 0; 0; 0; 0; 0; 0; 0; 80; 2; 0; 0; 0; 0; 0; 0].

Definition demo_utc (_ : str) (_ : nat) : UtcNow := mkUtc 0 0 4.

Definition demo_rule_of (id : string) (p : Protocol) (m : Metric) : @Rule yes_engine :=
  @Build_Rule yes_engine (lit id) p None m PerSecond 10 Block 0 None None.

Lemma flow_table_new_ok : flows_ok flow_table_new.
Proof. split_and!; vm_compute; [lia|lia|done]. Qed.

(** The run of [handle_frame]. *)
Lemma handle_frame_run `{CEL : CelEngine} `{HI : HashIter} {E} utc frame (s : DaemonState E) ft ws now :
  bytes_ok frame → Z.of_nat (length frame) ≤ U64_MAX → state_ok s → flows_ok ft →
  ∃ s' ft' ws' calls,
    handle_frame utc frame s ft ws now = Some (s', ft', ws')
    ∧ state_ok s' ∧ flows_ok ft' ∧ ws ⊆ ws'
    ∧ s' = with_counters s (foldl exec_call (counters s) calls)
    ∧ (parse_frame frame = Some None → calls = [])
    ∧ (∀ client src dst seg, parse_frame frame = Some (Some (client, src, dst, seg)) →
         Forall (frame_call (rules s) client (segment_port seg)
                   (Z.of_nat (length (segment_payload seg)))) calls
         ∧ ∀ c r, c ≠ client → get_rule (counters s') c r = get_rule (counters s) c r).
Proof.
  intros Hf Hlen Hs Hft. unfold handle_frame.
  destruct (parse_frame_total frame Hf) as (p & Ep & Hp). rewrite Ep. cbn [mbind option_bind].
  destruct p as [[[[client src] dst] seg]|].
  - destruct (Hp _ eq_refl) as (Hcl & Hip & _ & _ & _ & _ & _ & Hsuf & _).
    destruct (dispatch _ _ _ _ _ _ _ _ _ _) as [[ft' ws'] calls] eqn:Ed.
    assert (bytes_ok (segment_payload seg)) as Hpay.
    { destruct Hsuf as [k ->]. by apply Forall_app in Hf as [_ ?]. }
    assert (Z.of_nat (length (segment_payload seg)) ≤ U64_MAX) as Hplen.
    { apply suffix_length in Hsuf. lia. }
    destruct (dispatch_calls _ _ _ _ _ _ _ _ _ _ _ _ _ Hpay Ed) as [Hcalls Hws].
    eexists _, ft', ws', calls. split; [done|]. split_and!.
    + apply with_calls_ok; [done|]. eapply Forall_impl; [exact Hcalls|]. intros c Hc. split.
      * by eapply frame_call_ok.
      * by rewrite (frame_call_client _ _ _ _ _ Hc).
    + by eapply dispatch_flows.
    + done.
    + done.
    + done.
    + intros client' src' dst' seg' [= <- <- <- <-]. split; [done|]. intros c r Hne. cbn.
      rewrite get_rule_filter, filter_none; [done|]. eapply Forall_impl; [exact Hcalls|].
      intros c' Hc'. apply frame_call_client in Hc'. unfold for_rule. rewrite bool_decide_eq_true.
      destruct (call_delta c') as [[cl o] d]. cbn in *. naive_solver.
  - exists s, ft, ws, []. split_and!; try done. by destruct s.
Qed.

(** A request without upgrade on a connection not
    marked as WebSocket counts once for every HTTP rule of the port whose
    expression matches, by one request or by the payload bytes according to the
    rule's metric, and leaves the counter of every other HTTP rule alone; the
    connection stays unmarked. *)
Lemma http_counted `{CEL : CelEngine} `{HI : HashIter} utc (rs : RuleSet) sets
    client src sport dst dport syn payload ft ws now ft' ws' calls http r cs :
  NoDup (r_id <$> rs) → (src, sport, dst, dport) ∉ ws →
  detect_http_request payload = Some http → upgrade_ws http = false →
  r ∈ matching rs Http dport →
  dispatch_tcp utc rs sets client src sport dst dport syn payload ft ws now = (ft', ws', calls) →
  ws' = ws
  ∧ get_rule (foldl exec_call cs calls) client (r_id r)
    = if match_ok r (http_ctx http (ctx_at utc sets client dport r 2)) then
        match r_metric r with
        | Requests => bump3 1 0 0 (get_rule cs client (r_id r))
        | Bytes => bump3 0 (Z.of_nat (length payload)) 0 (get_rule cs client (r_id r))
        | Connections => get_rule cs client (r_id r)
        end
      else get_rule cs client (r_id r).
Proof.
  intros Hnd Hws Hdet Hup Hr. unfold dispatch_tcp. set (len := Z.of_nat (length payload)).
  pose proof (generic_rules_calls utc rs sets Tcp client (mkFlow src sport dst dport IPPROTO_TCP) dport
    syn len now ft ltac:(lia)) as Hg.
  destruct (generic_rules _ _ _ _ _ _ _ _ _ _ _) as [ft1 calls1]. cbn [snd] in Hg.
  rewrite bool_decide_eq_false_2, Hdet, Hup by done. intros [= <- <- <-]. split; [done|].
  rewrite get_rule_filter, filter_app.
  rewrite (other_protocol_calls rs client Http Tcp dport len r calls1 Hnd Hr ltac:(done) Hg). cbn [app].
  unfold http_calls. rewrite filter_rule_calls; [|by apply matching_NoDup|done|].
  - unfold item_calls, count_call. destruct (match_ok _ _); [|done].
    assert (for_rule client (r_id r) = λ c, bool_decide ((call_delta c).1 = (client, Some (r_id r)))) as Hfr
      by done.
    destruct (r_metric r); cbn [foldl]; rewrite ?get_rule_call, ?Hfr; try done;
      by rewrite bool_decide_eq_true_2.
  - intros r' c Hr'. unfold item_calls, count_call. repeat case_match; intros Hc;
      by apply list_elem_of_singleton in Hc as -> || by apply elem_of_nil in Hc.
Qed.

(** ** Properties *)

(** C10 (handle_frame_safe): whatever bytes arrive, a frame is handled without an
    index out of range, keeps the state and flow table invariants, and changes
    nothing of the state but the counters.  Every counter call is for the client
    read from the frame and, but for the count of WebSocket handshakes, which is
    kept per client, for a rule on the frame's destination port, and counts at
    most the payload; so the counters of every other client stay as
    they are. *)
Theorem handle_frame_safe `{CEL : CelEngine} `{HI : HashIter} {E} utc frame (s : DaemonState E) ft ws now :
  bytes_ok frame → Z.of_nat (length frame) ≤ U64_MAX → state_ok s → flows_ok ft →
  ∃ s' ft' ws' calls,
    handle_frame utc frame s ft ws now = Some (s', ft', ws')
    ∧ state_ok s' ∧ flows_ok ft' ∧ ws ⊆ ws'
    ∧ s' = with_counters s (foldl exec_call (counters s) calls)
    ∧ (parse_frame frame = Some None → calls = [])
    ∧ (∀ client src dst seg, parse_frame frame = Some (Some (client, src, dst, seg)) →
         Forall (frame_call (rules s) client (segment_port seg)
                   (Z.of_nat (length (segment_payload seg)))) calls
         ∧ ∀ c r, c ≠ client → get_rule (counters s') c r = get_rule (counters s) c r).
Proof. apply handle_frame_run. Qed.

Lemma handle_frame_safe_witness :
  let C := yes_engine in let H := hash_forward in
  ∃ s' ft' ws', handle_frame demo_utc demo_frame demo_state flow_table_new ∅ 0 = Some (s', ft', ws')
    ∧ state_ok s' ∧ flows_ok ft'.
Proof.
  intros C H.
  destruct (handle_frame_safe demo_utc demo_frame demo_state flow_table_new ∅ 0)
    as (s' & ft' & ws' & calls & E & H1 & H2 & _).
  - apply (bool_decide_unpack _). vm_compute. exact I.
  - vm_compute. discriminate.
  - exact demo_state_ok.
  - exact flow_table_new_ok.
  - exists s', ft', ws'. split; [exact E|]. split; [exact H1|exact H2].
Defined.

(** C30 (flow_table_observe): observing a flow reports it as new exactly when the
    table holds no entry for it younger than the idle time; afterwards it is
    present with the current time; every other entry in the table was there and
    is still fresh, none is invented; all fresh entries survive unless the table
    is full, when one oldest entry makes room; and the table never exceeds its
    maximum. *)
Theorem flow_table_observe `{HI : HashIter} ft k now :
  flows_ok ft →
  let '(ft', is_new) := observe ft k now in
  flows_ok ft' ∧ ft_max ft' = ft_max ft ∧ ft_idle ft' = ft_idle ft
  ∧ (is_new = true ↔ ∀ t, flows ft !! k = Some t → ¬ flow_fresh ft now t)
  ∧ flows ft' !! k = Some now
  ∧ (∀ k' t, k' ≠ k → flows ft' !! k' = Some t → flows ft !! k' = Some t ∧ flow_fresh ft now t)
  ∧ ((is_new = false ∨ size (retained ft now) < ft_max ft)%nat →
       ∀ k' t, k' ≠ k → flows ft !! k' = Some t → flow_fresh ft now t → flows ft' !! k' = Some t)
  ∧ (∀ k' t, k' ≠ k → flows ft !! k' = Some t → flow_fresh ft now t → flows ft' !! k' = None →
       ∀ k2 t2, k2 ≠ k → flows ft !! k2 = Some t2 → flow_fresh ft now t2 →
         t ≤ t2 ∧ (k2 ≠ k' → flows ft' !! k2 = Some t2)).
Proof.
  intros Hok. pose proof (observe_ok ft k now Hok) as Hok'. destruct Hok as (Hsz & Hmax & Hidle).
  rewrite observe_eq in *. cbv zeta in *.
  assert (∀ t, retained ft now !! k = Some t ↔ flows ft !! k = Some t ∧ flow_fresh ft now t) as Hk
    by apply retained_lookup.
  assert (∀ k' t, flows ft !! k' = Some t → flow_fresh ft now t → retained ft now !! k' = Some t) as Hret.
  { intros. by apply retained_lookup. }
  destruct (retained ft now !! k) as [t0|] eqn:Ek; cbn [fst] in *.
  - split; [done|]. cbn [ft_max ft_idle flows]. split_and!; try done.
    + split; [done|]. intros H. exfalso. destruct (Hk t0) as [[? ?] _]; [done|]. by eapply H.
    + by rewrite lookup_insert_eq.
    + intros k' t Hne. rewrite lookup_insert_ne by done. apply retained_lookup.
    + intros _ k' t Hne H1 H2. rewrite lookup_insert_ne by done. by apply Hret.
    + intros k' t Hne H1 H2 H3. rewrite lookup_insert_ne in H3 by done.
      rewrite (Hret _ _ H1 H2) in H3. done.
  - split; [done|]. cbn [ft_max ft_idle flows].
    set (fl := if (_ <=? _)%nat then _ else _).
    assert (∀ k' t, fl !! k' = Some t → retained ft now !! k' = Some t) as Hsub.
    { intros k' t. unfold fl. case_match; [|done]. case_match; [|done]. case_match.
      by intros [_ ?]%lookup_delete_Some. }
    split_and!; try done.
    + split; [|done]. intros _ t Ht Hfr. by rewrite (Hret _ _ Ht Hfr) in Ek.
    + by rewrite lookup_insert_eq.
    + intros k' t Hne. rewrite lookup_insert_ne by done. intros H%Hsub. by apply retained_lookup.
    + intros [?|Hlt] k' t Hne H1 H2; [done|]. rewrite lookup_insert_ne by done. unfold fl.
      rewrite (proj2 (Nat.leb_gt _ _)) by done. by apply Hret.
    + intros k' t Hne H1 H2. rewrite lookup_insert_ne by done. unfold fl.
      pose proof (Hret _ _ H1 H2) as H1'.
      destruct (ft_max ft <=? size (retained ft now))%nat; [|by rewrite H1'].
      pose proof (min_by_time_spec (hiter (retained ft now))) as Hmin.
      destruct (min_by_time _) as [[old told]|]; [|by rewrite H1'].
      destruct Hmin as [Hin Hmin]. rewrite lookup_delete_None.
      intros [->|?]; [|congruence]. intros k2 t2 Hne2 H3 H4. pose proof (Hret _ _ H3 H4) as H3'.
      apply hiter_elem in Hin. assert (told = t) as -> by congruence. split.
      * apply (Hmin k2). by apply hiter_elem.
      * intros Hk2. rewrite lookup_insert_ne, lookup_delete_ne by done. done.
Qed.

Lemma flow_table_observe_witness :
  let H := hash_forward in
  flows (observe flow_table_new (mkFlow (V4 1 2 3 4) 5 (V4 6 7 8 9) 80 6) 12).1
    !! mkFlow (V4 1 2 3 4) 5 (V4 6 7 8 9) 80 6 = Some 12.
Proof.
  intros H.
  pose proof (flow_table_observe flow_table_new (mkFlow (V4 1 2 3 4) 5 (V4 6 7 8 9) 80 6) 12
    flow_table_new_ok) as Hobs.
  destruct (observe _ _ _) as [ft' b]. destruct Hobs as (_ & _ & _ & _ & Hk & _). exact Hk.
Defined.

(** C31 (one_connection_rule_per_flow): when several connection rules match the
    same port, only the first ever counts a new flow: it marks the flow as seen
    (whether its own match holds or not), and every later connection rule then
    finds the flow old and adds nothing. *)
Theorem one_connection_rule_per_flow `{CEL : CelEngine} `{HI : HashIter} utc (rs : RuleSet) sets
    p client key dport opens len now ft pre r1 mid r2 post n :
  flows_ok ft → NoDup (r_id <$> rs) →
  matching rs p dport = pre ++ r1 :: mid ++ r2 :: post →
  r_metric r1 = Connections →
  CConnections client (r_id r2) n ∉ (generic_rules utc rs sets p client key dport opens len now ft).2.
Proof.
  intros (_ & _ & Hidle) Hnd Hm H1. pose proof (matching_NoDup rs p dport Hnd) as Hndm.
  unfold generic_rules. rewrite Hm in *.
  set (step := generic_step utc sets client key dport opens len now).
  enough (no_connection client (r_id r2) (foldl step (ft, []) (pre ++ r1 :: mid ++ r2 :: post)).2) as Hno
    by apply Hno.
  assert (∀ l acc, ft_idle acc.1 = ft_idle ft → ft_idle (foldl step acc l).1 = ft_idle ft) as Hid.
  { induction l as [|r l IH]; intros acc Ha; [done|]. apply IH. unfold step. by rewrite generic_step_idle. }
  assert (∀ l acc, (∀ r, r ∈ l → r_id r ≠ r_id r2) → no_connection client (r_id r2) acc.2 →
    no_connection client (r_id r2) (foldl step acc l).2) as Hother.
  { induction l as [|r l IH]; intros acc Hl Ha; [done|]. apply IH; [intros; apply Hl; by right|].
    apply generic_step_other; [apply Hl; left|done]. }
  assert (∀ l acc, flow_seen key now acc.1 → no_connection client (r_id r2) acc.2 →
    no_connection client (r_id r2) (foldl step acc l).2) as Hseen.
  { induction l as [|r l IH]; intros acc Hs Ha; [done|]. cbn [foldl].
    destruct (generic_step_seen utc sets client key dport opens len now (r_id r2) acc r Hs Ha). by apply IH. }
  assert (∀ l acc, opens = false → no_connection client (r_id r2) acc.2 →
    no_connection client (r_id r2) (foldl step acc l).2) as Hclosed.
  { induction l as [|r l IH]; intros acc Ho Ha; [done|]. apply IH; [done|]. by apply generic_step_closed. }
  assert (∀ r, r ∈ pre ++ [r1] → r_id r ≠ r_id r2) as Hpre.
  { intros r Hr E. replace (pre ++ r1 :: mid ++ r2 :: post) with ((pre ++ [r1]) ++ mid ++ r2 :: post) in Hndm
      by by rewrite <- app_assoc.
    rewrite fmap_app in Hndm. apply NoDup_app in Hndm as (_ & Hdis & _).
    apply (Hdis (r_id r)); [by apply (list_elem_of_fmap_2 r_id)|]. rewrite E.
    apply (list_elem_of_fmap_2 r_id). set_solver. }
  destruct opens eqn:Ho; [|by apply Hclosed; [done|intros ? ?%elem_of_nil]].
  rewrite foldl_app. cbn [foldl].
  assert (no_connection client (r_id r2) (foldl step (ft, []) pre).2) as Hp.
  { apply Hother; [intros r Hr; apply Hpre; set_solver|by intros ? ?%elem_of_nil]. }
  apply (Hseen (mid ++ r2 :: post)).
  - apply generic_step_opens; [done|done|]. by rewrite Hid.
  - apply generic_step_other; [apply Hpre; set_solver|done].
Qed.

Lemma one_connection_rule_per_flow_witness :
  let C := yes_engine in let H := hash_forward in
  CConnections demo_client (lit "b") 1 ∉
    (generic_rules demo_utc [demo_rule_of "a" Tcp Connections; demo_rule_of "b" Tcp Connections] ∅
       Tcp demo_client (mkFlow (V4 10 0 0 7) 1000 (V4 10 0 0 1) 80 6) 80 true 0 0 flow_table_new).2.
Proof.
  intros C H.
  apply (one_connection_rule_per_flow demo_utc
    [demo_rule_of "a" Tcp Connections; demo_rule_of "b" Tcp Connections] ∅ Tcp demo_client
    (mkFlow (V4 10 0 0 7) 1000 (V4 10 0 0 1) 80 6) 80 true 0 0 flow_table_new
    [] (demo_rule_of "a" Tcp Connections) [] (demo_rule_of "b" Tcp Connections) [] 1).
  - exact flow_table_new_ok.
  - apply (bool_decide_unpack _). vm_compute. exact I.
  - reflexivity.
  - reflexivity.
Defined.

(** An upgrade request marks its connection and
    counts one handshake for the client; from then on nothing ever removes the
    mark, and no payload with the same addresses and ports reaches the HTTP or
    WiThrottle rules again, not even an HTTP request of a new connection that
    reuses the port: their counters stay as they are. *)
Theorem ws_mark_is_permanent `{CEL : CelEngine} `{HI : HashIter} utc (rs : RuleSet) sets
    client src sport dst dport syn payload ft ws now ft' ws' calls :
  NoDup (r_id <$> rs) →
  dispatch_tcp utc rs sets client src sport dst dport syn payload ft ws now = (ft', ws', calls) →
  ((src, sport, dst, dport) ∉ ws →
     (∃ http, detect_http_request payload = Some http ∧ upgrade_ws http = true) →
     (src, sport, dst, dport) ∈ ws' ∧ CWs client ∈ calls)
  ∧ ((src, sport, dst, dport) ∈ ws →
     ws' = ws ∧ ∀ p r cs, p = Http ∨ p = Withrottle → r ∈ matching rs p dport →
       get_rule (foldl exec_call cs calls) client (r_id r) = get_rule cs client (r_id r)).
Proof.
  intros Hnd. unfold dispatch_tcp. set (len := Z.of_nat (length payload)).
  pose proof (generic_rules_calls utc rs sets Tcp client (mkFlow src sport dst dport IPPROTO_TCP) dport
    syn len now ft ltac:(lia)) as Hg.
  destruct (generic_rules _ _ _ _ _ _ _ _ _ _ _) as [ft1 calls1]. cbn [snd] in Hg.
  intros Hd. split; intros Hws.
  - rewrite bool_decide_eq_false_2 in Hd by done. intros (http & Hdet & Hup).
    rewrite Hdet, Hup in Hd. injection Hd as <- <- <-. set_solver.
  - rewrite bool_decide_eq_true_2 in Hd by done. split; [by case_match; simplify_eq|].
    intros p r cs Hp Hr. rewrite get_rule_filter, filter_none; [done|].
    assert (∀ q l, p ≠ q → Forall (call_for client rs q dport len) l →
      Forall (λ c, ¬ for_rule client (r_id r) c = true) l) as Hno.
    { intros q l Hq Hl. apply Forall_forall. intros c Hc Hfr.
      assert (c ∈ filter (λ c, for_rule client (r_id r) c = true) l) as Hin
        by by apply list_elem_of_filter.
      rewrite (other_protocol_calls rs client p q dport len r l Hnd Hr Hq Hl) in Hin.
      by apply elem_of_nil in Hin. }
    assert (p ≠ Tcp ∧ p ≠ WebSocket) as [Ht Hw] by (destruct Hp as [->| ->]; done).
    destruct (detect_ws_frame payload) as [frame|]; injection Hd as <- <- <-; [|by apply (Hno Tcp)].
    apply Forall_app. split; [by apply (Hno Tcp)|]. apply (Hno WebSocket); [done|].
    apply Forall_bind. intros r' Hr'. apply item_calls_for; [done|lia].
Qed.

Lemma ws_mark_is_permanent_witness :
  let C := yes_engine in let H := hash_forward in
  let ws := {[ (V4 10 0 0 7, 1000, V4 10 0 0 1, 80) ]} : WsConns in
  let '(_, ws', _) := dispatch_tcp demo_utc [demo_rule_of "h" Http Requests] ∅ demo_client (V4 10 0 0 7)
    1000 (V4 10 0 0 1) 80 true (request_text demo_request) flow_table_new ws 0 in ws' = ws.
Proof.
  intros C H ws. destruct (dispatch_tcp _ _ _ _ _ _ _ _ _ _ _ _ _) as [[ft' ws'] calls] eqn:Ed.
  apply (ws_mark_is_permanent demo_utc [demo_rule_of "h" Http Requests] ∅ demo_client (V4 10 0 0 7)
    1000 (V4 10 0 0 1) 80 true (request_text demo_request) flow_table_new ws 0 ft' ws' calls).
  - apply (bool_decide_unpack _). vm_compute. exact I.
  - exact Ed.
  - apply (bool_decide_unpack _). vm_compute. exact I.
Defined.
