(* ===== verification/Ebpf.v ===== *)
(** The XDP program ([crates/mw-ebpf/src/lib.rs]) and the enforcer behind it
    ([crates/microwaf/src/ebpf.rs]).  The choice of the interfaces to
    attach to is in [Daemon]; the kernel map is an argument of the program. *)

From S2P Require Import Prelude Text Client Rule Window Policy Counters Enforcer Config State Sniffer.

(** ** The XDP program *)
Record ClientPolicyEntry := mkEntry { e_blocked : Z; e_drop_rate : Z; e_until_unix : Z }.

Inductive xdp_action := XDP_PASS | XDP_DROP.

#[export] Instance xdp_action_eq_dec : EqDecision xdp_action.
Proof. solve_decision. Defined.

Definition ETH_HDR_LEN : nat := 14.
Definition IP_HDR_MIN : Z := 20.
(** [size_of::<EthHdr>()] and [size_of::<Ipv4Hdr>()]. *)
Definition ETH_SIZE : nat := 14.
Definition IPV4_SIZE : nat := 20.

(** [ptr_at]: the bytes of a header, if they lie within the packet. *)
Definition ptr_at (frame : list Z) (offset size : nat) : option (list Z) :=
  if (length frame <? offset + size)%nat then None else Some (take size (drop offset frame)).

(** [frame] is the packet, [rand] the random word; [Err(())] is [None]. *)
Definition try_microwaf (policy_map : gmap (list Z) ClientPolicyEntry) (rand : Z) (frame : list Z) :
    option xdp_action :=
  eth ← ptr_at frame 0 ETH_SIZE;
  (* u16::from_be of the raw field: bytes 12 and 13, most significant first *)
  if negb (be_bytes (take 2 (drop 12 eth)) =? ETH_P_IP) then Some XDP_PASS
  else
    ip ← ptr_at frame ETH_HDR_LEN IPV4_SIZE;
    let ihl := Z.land (default 0 (head ip)) 15 * 4 in
    if ihl <? IP_HDR_MIN then Some XDP_PASS
    else
      (* the native bytes of saddr are the bytes of the packet *)
      let key := take 6 (drop 6 eth) ++ take 4 (drop 12 ip) in
      match policy_map !! key with
      | None => Some XDP_PASS
      | Some policy =>
          if negb (e_blocked policy =? 0) then Some XDP_DROP
          else if (0 <? e_drop_rate policy) && (rand mod 100 <? e_drop_rate policy)
          then Some XDP_DROP
          else Some XDP_PASS
      end.

Definition microwaf (policy_map : gmap (list Z) ClientPolicyEntry) (rand : Z) (frame : list Z) :
    xdp_action :=
  match try_microwaf policy_map rand frame with
  | Some action => action
  | None => XDP_PASS
  end.

(** ** The userspace enforcer *)
Record BpfHandle := mkHandle { bpf_policies : gmap (list Z) (bool * Z) }.
Record BpfEnforcer := mkBpf { handle : BpfHandle }.

Definition bpf_key (client : ClientId) : option (list Z) :=
  match ip client with
  | V4 a b c d => Some (mac client ++ [a; b; c; d])
  | V6 _ => None
  end.

Definition bpf_clear (e : BpfEnforcer) (client : ClientId) : BpfEnforcer :=
  match bpf_key client with
  | Some key => mkBpf (mkHandle (delete key (bpf_policies (handle e))))
  | None => e
  end.

Definition bpf_apply (e : BpfEnforcer) (client : ClientId) (action : EffectiveAction) : BpfEnforcer :=
  match bpf_key client with
  | None => e
  | Some key =>
      match action with
      | EffNone => bpf_clear e client
      | EffBlock => mkBpf (mkHandle (<[key := (true, 100)]> (bpf_policies (handle e))))
      | EffThrottle drop_rate =>
          mkBpf (mkHandle (<[key := (false, drop_rate)]> (bpf_policies (handle e))))
      end
  end.

#[export] Instance bpf_enforcer : Enforcer BpfEnforcer := {
  apply := bpf_apply;
  clear := bpf_clear
}.

(** ** The enforcer satisfies the laws of the trait *)
Definition mirror_action (o : option (bool * Z)) : EffectiveAction :=
  match o with
  | Some (true, _) => EffBlock
  | Some (false, d) => EffThrottle d
  | None => EffNone
  end.

Definition bpf_in_force (e : BpfEnforcer) (c : ClientId) : EffectiveAction :=
  mirror_action (k ← bpf_key c; bpf_policies (handle e) !! k).

Lemma bpf_key_inj c c' k :
  client_ok c → client_ok c' → bpf_key c = Some k → bpf_key c' = Some k → c = c'.
Proof.
  intros (Hl & _) (Hl' & _). unfold bpf_key. destruct c as [m [a b c d|]], c' as [m' [a' b' c' d'|]];
    cbn in *; try done. intros [= <-] [= E]. apply app_inj_1 in E as [-> E]; [|congruence].
  by injection E as -> -> -> ->.
Qed.

Lemma bpf_in_force_update (e : BpfEnforcer) (c c' : ClientId) (k : list Z) (o : option (bool * Z)) (up : gmap (list Z) (bool * Z) → gmap (list Z) (bool * Z)) :
  client_ok c → client_ok c' → bpf_key c = Some k →
  (∀ m, up m !! k = o) → (∀ m k', k' ≠ k → up m !! k' = m !! k') →
  bpf_in_force (mkBpf (mkHandle (up (bpf_policies (handle e))))) c'
  = if bool_decide (c' = c) then mirror_action o else bpf_in_force e c'.
Proof.
  intros Hc Hc' Hk Heq Hne. unfold bpf_in_force. cbn. case_bool_decide as E.
  - subst. rewrite Hk. cbn. by rewrite Heq.
  - destruct (bpf_key c') as [k'|] eqn:Hk'; cbn; [|done]. rewrite Hne; [done|].
    intros ->. apply E. by eapply bpf_key_inj.
Qed.

Lemma bpf_clear_in_force e c c' :
  client_ok c → client_ok c' →
  bpf_in_force (bpf_clear e c) c' = if bool_decide (c' = c) then EffNone else bpf_in_force e c'.
Proof.
  intros Hc Hc'. unfold bpf_clear. destruct (bpf_key c) as [k|] eqn:Hk.
  - rewrite (bpf_in_force_update e c c' k None (delete k)); try done.
    + intros. apply lookup_delete_eq.
    + intros. by apply lookup_delete_ne.
  - case_bool_decide; [|done]. subst. unfold bpf_in_force. by rewrite Hk.
Qed.

(** Every operation writes one key of its client. *)
Definition bpf_write (k : list Z) (o : option (bool * Z)) (e : BpfEnforcer) : BpfEnforcer :=
  mkBpf (mkHandle (partial_alter (λ _, o) k (bpf_policies (handle e)))).

Lemma bpf_clear_write e c :
  bpf_clear e c = match bpf_key c with Some k => bpf_write k None e | None => e end.
Proof. done. Qed.

Definition action_entry (a : EffectiveAction) : option (bool * Z) :=
  match a with
  | EffNone => None
  | EffBlock => Some (true, 100)
  | EffThrottle d => Some (false, d)
  end.

Lemma bpf_apply_write e c a :
  bpf_apply e c a = match bpf_key c with Some k => bpf_write k (action_entry a) e | None => e end.
Proof. unfold bpf_apply, bpf_clear. by destruct (bpf_key c), a. Qed.

Lemma bpf_write_comm k k' o o' e :
  k ≠ k' → bpf_write k o (bpf_write k' o' e) = bpf_write k' o' (bpf_write k o e).
Proof. intros. unfold bpf_write. cbn. do 2 f_equal. by apply partial_alter_partial_alter_ne. Qed.

Lemma bpf_ops_comm e c c' o o' :
  client_ok c → client_ok c' → c ≠ c' →
  let w c o e := match bpf_key c with Some k => bpf_write k o e | None => e end in
  w c' o' (w c o e) = w c o (w c' o' e).
Proof.
  intros Hc Hc' Hne w. unfold w. destruct (bpf_key c) as [k|] eqn:Hk; [|done].
  destruct (bpf_key c') as [k'|] eqn:Hk'; [|done]. apply bpf_write_comm. intros ->.
  apply Hne. by eapply bpf_key_inj.
Qed.

#[export] Instance bpf_laws : EnforcerLaws BpfEnforcer.
Proof.
  refine {| supports c := bool_decide (is_Some (bpf_key c)); in_force := bpf_in_force |}.
  - intros e c c' a Hc Hc'. cbn. rewrite bpf_apply_write. destruct (bpf_key c) as [k|] eqn:Hk.
    + rewrite (bool_decide_eq_true_2 (is_Some (Some k))), andb_true_r by by eexists.
      unfold bpf_write. rewrite (bpf_in_force_update e c c' k (action_entry a)); try done.
      * case_bool_decide; [by destruct a|done].
      * intros. apply lookup_partial_alter_eq.
      * intros. by apply lookup_partial_alter_ne.
    + rewrite (bool_decide_eq_false_2 (is_Some None)), andb_false_r by by intros []. done.
  - intros. by apply bpf_clear_in_force.
  - intros e c Hs%bool_decide_eq_false. unfold bpf_in_force.
    destruct (bpf_key c); [|done]. exfalso. apply Hs. by eexists.
  - intros e c c' a a'. cbn. rewrite !bpf_apply_write. by apply bpf_ops_comm.
  - intros e c c' a. cbn. rewrite !bpf_apply_write, !bpf_clear_write. apply (bpf_ops_comm e c c').
  - intros e c c'. cbn. rewrite !bpf_clear_write. apply (bpf_ops_comm e c c').
Defined.

(** ** Lemmas on the program *)

Lemma ptr_at_ok frame offset size :
  (offset + size ≤ length frame)%nat →
  ptr_at frame offset size = Some (take size (drop offset frame)).
Proof. intros. unfold ptr_at. by rewrite (proj2 (Nat.ltb_ge _ _)). Qed.

Lemma microwaf_empty rand frame : microwaf ∅ rand frame = XDP_PASS.
Proof.
  unfold microwaf, try_microwaf.
  destruct (ptr_at frame 0 ETH_SIZE) as [eth|]; cbn [mbind option_bind]; [|done].
  destruct (negb _); [done|]. destruct (ptr_at frame _ _) as [ip|]; cbn [mbind option_bind]; [|done].
  destruct (_ <? IP_HDR_MIN); [done|]. by rewrite lookup_empty.
Qed.

Lemma microwaf_parsed policy_map rand frame c src dst seg :
  bytes_ok frame → parse_frame frame = Some (Some (c, src, dst, seg)) →
  20 ≤ Z.land (default 0 (frame !! 14%nat)) 15 * 4 →
  ∃ k, bpf_key c = Some k
    ∧ microwaf policy_map rand frame
      = match policy_map !! k with
        | None => XDP_PASS
        | Some p => if negb (e_blocked p =? 0) then XDP_DROP
                    else if (0 <? e_drop_rate p) && (rand mod 100 <? e_drop_rate p)
                    then XDP_DROP else XDP_PASS
        end.
Proof.
  intros Hf Hp Hihl. destruct (parse_frame_total frame Hf) as (r & Er & Hr).
  rewrite Hp in Er. injection Er as <-. destruct (Hr _ eq_refl) as (_ & Hip & _ & Hmac & Hsrc & Het & Hlen & _).
  destruct Hsrc as (a & b & c' & d & -> & Hsrc).
  exists (take 6 (drop 6 frame) ++ take 4 (drop 26 frame)). split.
  { unfold bpf_key. by rewrite Hip, Hmac, Hsrc. }
  unfold microwaf, try_microwaf, ETH_SIZE, ETH_HDR_LEN, IPV4_SIZE.
  rewrite (ptr_at_ok frame 0 14) by lia. cbn [mbind option_bind].
  change (drop 0 frame) with frame.
  assert (take 2 (drop 12 (take 14 frame)) = [8; 0]) as ->.
  { rewrite <- Het, !skipn_firstn_comm, take_take. done. }
  change (be_bytes [8; 0] =? ETH_P_IP) with true. cbn [negb].
  rewrite (ptr_at_ok frame 14 20) by lia. cbn [mbind option_bind].
  assert (default 0 (head (take 20 (drop 14 frame))) = default 0 (frame !! 14%nat)) as ->.
  { f_equal. rewrite head_lookup, lookup_take_lt, lookup_drop by lia. done. }
  unfold IP_HDR_MIN. rewrite (proj2 (Z.ltb_ge _ _)) by done.
  assert (take 6 (drop 6 (take 14 frame)) = take 6 (drop 6 frame)) as ->.
  { rewrite !skipn_firstn_comm, take_take. done. }
  assert (take 4 (drop 12 (take 20 (drop 14 frame))) = take 4 (drop 26 frame)) as ->.
  { rewrite !skipn_firstn_comm, take_take, drop_drop. done. }
  destruct (policy_map !! _) as [pe|]; [|done].
  destruct (negb _); [done|]. by destruct (_ && _).
Qed.

(** The test on the random number, for every rate. *)
Definition drops (d rand : Z) : bool := (0 <? d) && (rand mod 100 <? d).

Lemma drops_count d : 0 ≤ d ≤ 100 →
  length (filter (λ r, drops d (Z.of_nat r) = true) (seq 0 100)) = Z.to_nat d.
Proof.
  intros Hd.
  assert (forallb (λ d, (100 <? d) ||
    bool_decide (length (filter (λ r, drops d (Z.of_nat r) = true) (seq 0 100)) = Z.to_nat d))
    (map Z.of_nat (seq 0 256)) = true) as Hall by (vm_compute; reflexivity).
  pose proof (byte_all _ Hall d) as H. cbv beta in H.
  rewrite orb_true_iff, bool_decide_eq_true, Z.ltb_lt in H.
  destruct H as [H|H]; [unfold byte_ok, U8_MAX; lia|lia|exact H].
Qed.

(** A header length below the minimum passes the packet. *)
Lemma microwaf_short_header policy_map rand frame :
  Z.land (default 0 (frame !! 14%nat)) 15 * 4 < 20 → microwaf policy_map rand frame = XDP_PASS.
Proof.
  intros Hihl. unfold microwaf, try_microwaf.
  destruct (ptr_at frame 0 ETH_SIZE) as [eth|]; cbn [mbind option_bind]; [|done].
  destruct (negb _); [done|]. unfold ptr_at, ETH_HDR_LEN, IPV4_SIZE.
  destruct (Nat.ltb_spec (length frame) (14 + 20)) as [|Hlen]; [done|]. cbn [mbind option_bind].
  assert (default 0 (head (take 20 (drop 14 frame))) = default 0 (frame !! 14%nat)) as ->.
  { f_equal. rewrite head_lookup, lookup_take_lt, lookup_drop by lia. done. }
  unfold IP_HDR_MIN. by rewrite (proj2 (Z.ltb_lt _ _)).
Qed.

(** What the program does to a packet whose key has the entry [p]. *)
Definition verdict (p : option ClientPolicyEntry) (rand : Z) : xdp_action :=
  match p with
  | None => XDP_PASS
  | Some p => if decide (e_blocked p ≠ 0 ∨ rand mod 100 < e_drop_rate p) then XDP_DROP else XDP_PASS
  end.

Lemma microwaf_verdict frame c src dst seg k :
  bytes_ok frame → parse_frame frame = Some (Some (c, src, dst, seg)) →
  20 ≤ Z.land (default 0 (frame !! 14%nat)) 15 * 4 → bpf_key c = Some k →
  ∀ policy_map rand, 0 ≤ rand → microwaf policy_map rand frame = verdict (policy_map !! k) rand.
Proof.
  intros Hf Hp Hihl Hk policy_map rand Hrand.
  destruct (microwaf_parsed policy_map rand frame c src dst seg Hf Hp Hihl) as (k' & Hk' & ->).
  rewrite Hk in Hk'. injection Hk' as <-. destruct (policy_map !! k) as [p|]; [|done]. cbn [verdict].
  pose proof (Z.mod_pos_bound rand 100 ltac:(lia)).
  destruct (Z.eqb_spec (e_blocked p) 0), (Z.ltb_spec 0 (e_drop_rate p)),
    (Z.ltb_spec (rand mod 100) (e_drop_rate p)); cbn [negb andb]; case_decide; done || lia.
Qed.

(** A client gets the residues below its rate. *)
Lemma microwaf_rate policy_map frame c src dst seg k d until :
  bytes_ok frame → parse_frame frame = Some (Some (c, src, dst, seg)) →
  20 ≤ Z.land (default 0 (frame !! 14%nat)) 15 * 4 →
  bpf_key c = Some k → policy_map !! k = Some (mkEntry 0 d until) → 0 ≤ d ≤ 100 →
  length (filter (λ r, microwaf policy_map (Z.of_nat r) frame = XDP_DROP) (seq 0 100)) = Z.to_nat d.
Proof.
  intros Hf Hp Hihl Hk Hm Hd.
  transitivity (length (filter (λ r, drops d (Z.of_nat r) = true) (seq 0 100))).
  - f_equal. apply list_filter_iff. intros r.
    destruct (microwaf_parsed policy_map (Z.of_nat r) frame c src dst seg Hf Hp Hihl) as (k' & Hk' & ->).
    rewrite Hk in Hk'. injection Hk' as <-. rewrite Hm. unfold drops. cbn. by destruct (_ && _).
  - apply drops_count. lia.
Qed.

(** A client without an entry in the enforcer passes, when the kernel has no entry
    more. *)
Lemma free_client_passes (e : BpfEnforcer) (policy_map : gmap (list Z) ClientPolicyEntry) rand frame c src dst seg :
  (supports c = true → in_force e c = EffNone) →
  (∀ k, bpf_policies (handle e) !! k = None → policy_map !! k = None) →
  bytes_ok frame → parse_frame frame = Some (Some (c, src, dst, seg)) →
  20 ≤ Z.land (default 0 (frame !! 14%nat)) 15 * 4 → microwaf policy_map rand frame = XDP_PASS.
Proof.
  intros Hfree Hmap Hf Hp Hihl.
  destruct (microwaf_parsed policy_map rand frame c src dst seg Hf Hp Hihl) as (k & Hk & ->).
  cbn [supports in_force bpf_laws] in Hfree. unfold bpf_in_force in Hfree. rewrite Hk in Hfree.
  specialize (Hfree ltac:(by apply bool_decide_eq_true_2; eexists)). cbn [mbind option_bind] in Hfree.
  rewrite Hmap; [done|]. by destruct (bpf_policies (handle e) !! k) as [[[] d]|].
Qed.

Lemma bpf_apply_lookup e c a k k' :
  bpf_key c = Some k →
  bpf_policies (handle (bpf_apply e c a)) !! k'
  = if decide (k' = k) then action_entry a else bpf_policies (handle e) !! k'.
Proof.
  intros Hk. rewrite bpf_apply_write, Hk. cbn. case_decide as Hkk.
  - subst. by rewrite lookup_partial_alter_eq.
  - by rewrite lookup_partial_alter_ne.
Qed.

(** ** Properties *)

(** C14 (xdp_per_client): let the sniffer attribute a packet to a client.  With a
    legal header length, the XDP program decides the packet, whatever the kernel
    map holds, by the entry of one key: the key under which the enforcer files
    what it applies to this client, and to no other.  Without an entry the packet
    passes; a blocking entry drops it; a rate drops it when the residue of the
    random number is below the rate, so [d] of the 100 residues for a rate of
    [d].  With a shorter header length than the minimum the packet passes. *)
Theorem xdp_per_client frame c src dst seg :
  bytes_ok frame → parse_frame frame = Some (Some (c, src, dst, seg)) →
  let header := Z.land (default 0 (frame !! 14%nat)) 15 * 4 in
  (20 ≤ header → ∃ k,
     (∀ c', client_ok c' → bpf_key c' = Some k ↔ c' = c)
     ∧ (∀ e a k', bpf_policies (handle (bpf_apply e c a)) !! k'
          = if decide (k' = k) then action_entry a else bpf_policies (handle e) !! k')
     ∧ ∀ policy_map : gmap (list Z) ClientPolicyEntry,
         (∀ rand, 0 ≤ rand → microwaf policy_map rand frame
            = match policy_map !! k with
              | None => XDP_PASS
              | Some p => if decide (e_blocked p ≠ 0 ∨ rand mod 100 < e_drop_rate p) then XDP_DROP else XDP_PASS
              end)
         ∧ ∀ d until, policy_map !! k = Some (mkEntry 0 d until) → 0 ≤ d ≤ 100 →
             length (filter (λ r, microwaf policy_map (Z.of_nat r) frame = XDP_DROP) (seq 0 100)) = Z.to_nat d)
  ∧ (header < 20 → ∀ policy_map rand, microwaf policy_map rand frame = XDP_PASS).
Proof.
  intros Hf Hp header. split; [|by intros ? ? ?; apply microwaf_short_header]. intros Hihl.
  destruct (microwaf_parsed ∅ 0 frame c src dst seg Hf Hp Hihl) as (k & Hk & _). exists k.
  assert (client_ok c) as Hc.
  { destruct (parse_frame_total frame Hf) as (r & Er & Hr). rewrite Hp in Er. injection Er as <-.
    apply (Hr _ eq_refl). }
  split_and!.
  - intros c' Hc'. split; [|by intros ->]. intros Hk'. by eapply bpf_key_inj.
  - intros e a k'. by apply bpf_apply_lookup.
  - intros policy_map. split; [by eapply microwaf_verdict|]. intros d until. by eapply microwaf_rate.
Qed.

Lemma xdp_per_client_witness :
  ∃ k, bpf_key demo_client = Some k
    ∧ ∀ rand, 0 ≤ rand → microwaf {[ k := mkEntry 1 0 0 ]} rand demo_frame = XDP_DROP.
Proof.
  destruct (xdp_per_client demo_frame demo_client (V4 10 0 0 7) (V4 10 0 0 1) (TcpSegment 1000 80 true []))
    as [Hlong _].
  - apply (bool_decide_unpack _). vm_compute. exact I.
  - vm_compute. reflexivity.
  - destruct Hlong as (k & Hk & _ & Hmap); [vm_compute; discriminate|]. exists k. split.
    + apply Hk; [|reflexivity]. split; [reflexivity|]. split; [apply (bool_decide_unpack _); vm_compute; exact I|].
      apply (bool_decide_unpack _). vm_compute. exact I.
    + intros rand Hrand. rewrite (proj1 (Hmap _) rand Hrand), lookup_singleton_eq. reflexivity.
Defined.

(** With an empty kernel map, which is what the map
    stays since no operation of the enforcer writes it, the program passes every
    packet, whatever the enforcer's own mirror says. *)
Theorem xdp_empty_map_passes rand frame (e : BpfEnforcer) ops :
  microwaf ∅ rand frame = XDP_PASS
  ∧ (∀ c, client_ok c → supports c = true → Forall (λ o, client_ok o.1) ops →
       last_op c ops = Some (Some EffBlock) → in_force (foldl enf_op e ops) c = EffBlock).
Proof.
  split; [apply microwaf_empty|]. intros c Hc Hs Hops Hlast.
  by rewrite in_force_foldl, Hlast, Hs.
Qed.
