(* ===== verification/Locks.v ===== *)
(** The locks of the daemon threads.  Each function is the sequence of its lock
    acquisitions and releases; threads run interleaved.  A general theorem on
    ranked locks shows that all functions but [top] can never deadlock; [top]
    takes two of the locks in the opposite order of [list_clients].

    Sources: [decision.rs] (tick), [ipc.rs] (top, list_clients, throttle, block
    and the two clear functions), [state.rs] (apply, clear), [store.rs]
    (snapshot_stats), [counters.rs]. *)

From S2P Require Import Prelude Rule Policy Enforcer State.

(** The mutexes.  [LInner] is the one inside the enforcer, [LStore] the one
    inside the store. *)
Inductive Lock :=
| LLast | LWindows | LPolicies | LWouldBe | LEnforcer | LInner | LStore | LByRule | LByClient.

#[export] Instance Lock_eq_dec : EqDecision Lock.
Proof. solve_decision. Defined.

Inductive lop := Acq (l : Lock) | Rel (l : Lock).

(** A critical section on one lock around [body]. *)
Definition locked (l : Lock) (body : list lop) : list lop := Acq l :: body ++ [Rel l].

(** ** The functions *)

(** [DaemonState::apply] and [clear]. *)
Definition apply_ops (mode : Mode) : list lop :=
  (if decide (mode = Permissive) then locked LWouldBe [] else [])
  ++ locked LEnforcer (locked LInner []).

Definition clear_ops : list lop := locked LWouldBe [] ++ locked LEnforcer (locked LInner []).

Definition enforce_ops (mode : Mode) (eff : EffectiveAction) : list lop :=
  match eff with
  | EffNone => clear_ops
  | _ => apply_ops mode
  end.

(** One tick, for the effective actions of its clients. *)
Definition tick_ops (mode : Mode) (effs : list EffectiveAction) : list lop :=
  locked LByRule []
  ++ locked LLast (locked LWindows (locked LPolicies (effs ≫= enforce_ops mode))).

Definition list_clients_ops : list lop := locked LPolicies (locked LWouldBe (locked LByClient [])).

Definition top_ops : list lop :=
  locked LWindows (locked LWouldBe (locked LPolicies (locked LByClient []))).

(** [throttle], [block], [clear_manual_*]: with or without a store access. *)
Definition manual_ops (persists : bool) : list lop :=
  locked LPolicies (if persists then locked LStore [] else []).

(** One counter call of the sniffer, and a statistics snapshot. *)
Definition counter_add_ops : list lop := locked LByRule [] ++ locked LByClient [].
Definition ws_connection_ops : list lop := locked LByClient [].
Definition snapshot_stats_ops (nonempty : bool) : list lop :=
  locked LByClient [] ++ (if nonempty then locked LStore [] else []).

(** ** Interleaved execution

    A thread is the locks it holds and what it has left to do. *)
Abbreviation thread := (list Lock * list lop)%type.

Definition start (prog : list lop) : thread := ([], prog).

Definition is_free (l : Lock) (ts : list thread) : bool :=
  forallb (λ t : thread, negb (bool_decide (l ∈ t.1))) ts.

(** Removes one occurrence. *)
Fixpoint drop_lock (l : Lock) (held : list Lock) : list Lock :=
  match held with
  | [] => []
  | h :: held' => if decide (h = l) then held' else h :: drop_lock l held'
  end.

(** Thread [i] takes its next step, if it can. *)
Definition step_thread (ts : list thread) (i : nat) : option (list thread) :=
  t ← ts !! i;
  match t.2 with
  | [] => None
  | Acq l :: ops => if is_free l ts then Some (<[i := (l :: t.1, ops)]> ts) else None
  | Rel l :: ops => if bool_decide (l ∈ t.1) then Some (<[i := (drop_lock l t.1, ops)]> ts) else None
  end.

Definition lock_step (ts ts' : list thread) : Prop := ∃ i, step_thread ts i = Some ts'.

Inductive reachable (ts0 : list thread) : list thread → Prop :=
| reach_refl : reachable ts0 ts0
| reach_step ts ts' : reachable ts0 ts → lock_step ts ts' → reachable ts0 ts'.

Definition all_done (ts : list thread) : Prop := Forall (λ t : thread, t.2 = []) ts.
Definition deadlocked (ts : list thread) : Prop := ¬ all_done ts ∧ ∀ ts', ¬ lock_step ts ts'.

(** ** Ranked programs *)
Definition rank (l : Lock) : nat :=
  match l with
  | LByRule => 0
  | LLast => 1
  | LWindows => 2
  | LPolicies => 3
  | LWouldBe => 4
  | LEnforcer => 5
  | LInner => 6
  | LStore => 7
  | LByClient => 8
  end.

(** Every lock is taken above all held ones and everything is released. *)
Fixpoint ranked (held : list Lock) (ops : list lop) : Prop :=
  match ops with
  | [] => held = []
  | Acq l :: ops' => Forall (λ h, (rank h < rank l)%nat) held ∧ ranked (l :: held) ops'
  | Rel l :: ops' => l ∈ held ∧ ranked (drop_lock l held) ops'
  end.

Definition below (n : nat) (held : list Lock) : Prop := Forall (λ h, (rank h < n)%nat) held.

(** [steady n ops]: from locks ranked below [n], [ops] comes back to them. *)
Definition steady (n : nat) (ops : list lop) : Prop :=
  ∀ held rest, below n held → ranked held rest → ranked held (ops ++ rest).

Lemma steady_nil n : steady n [].
Proof. by intros held rest. Qed.

Lemma steady_app n a b : steady n a → steady n b → steady n (a ++ b).
Proof. intros Ha Hb held rest Hh Hr. rewrite <- app_assoc. apply Ha; [done|]. by apply Hb. Qed.

Lemma steady_locked n l body :
  (n ≤ rank l)%nat → steady (S (rank l)) body → steady n (locked l body).
Proof.
  intros Hl Hb held rest Hh Hr. unfold locked. cbn [app ranked]. split.
  - eapply Forall_impl; [exact Hh|]. cbn. lia.
  - rewrite <- app_assoc. apply Hb.
    + constructor; [lia|]. eapply Forall_impl; [exact Hh|]. cbn. lia.
    + cbn [app ranked drop_lock]. split; [left|]. by rewrite decide_True.
Qed.

Lemma steady_bind {A} n (f : A → list lop) l : (∀ x, steady n (f x)) → steady n (l ≫= f).
Proof. intros H. induction l; csimpl; [apply steady_nil|by apply steady_app]. Qed.

Lemma steady_ranked ops : steady 0 ops → ranked [] ops.
Proof. intros H. rewrite <- (app_nil_r ops). apply H; constructor. Qed.

Ltac steady :=
  repeat first
    [ apply steady_nil | apply steady_app | apply steady_bind; intros
    | apply steady_locked; [cbn; lia|] ].

Lemma enforce_ops_steady mode eff : steady 4 (enforce_ops mode eff).
Proof.
  unfold enforce_ops, clear_ops, apply_ops.
  destruct eff, (decide (mode = Permissive)); steady.
Qed.

(** The daemon functions, [top] apart. *)
Inductive ordered_fn : list lop → Prop :=
| of_tick mode effs : ordered_fn (tick_ops mode effs)
| of_list_clients : ordered_fn list_clients_ops
| of_manual persists : ordered_fn (manual_ops persists)
| of_counter : ordered_fn counter_add_ops
| of_ws : ordered_fn ws_connection_ops
| of_snapshot nonempty : ordered_fn (snapshot_stats_ops nonempty)
| of_seq a b : ordered_fn a → ordered_fn b → ordered_fn (a ++ b).

Lemma ordered_steady ops : ordered_fn ops → steady 0 ops.
Proof.
  induction 1.
  - unfold tick_ops. steady. apply enforce_ops_steady.
  - unfold list_clients_ops. steady.
  - unfold manual_ops. destruct persists; steady.
  - unfold counter_add_ops. steady.
  - unfold ws_connection_ops. steady.
  - unfold snapshot_stats_ops. destruct nonempty; steady.
  - by apply steady_app.
Qed.

(** ** Ranked threads cannot deadlock *)
Definition threads_ok (ts : list thread) : Prop := Forall (λ t : thread, ranked t.1 t.2) ts.

Lemma step_thread_ok ts i ts' : threads_ok ts → step_thread ts i = Some ts' → threads_ok ts'.
Proof.
  intros Hts. unfold step_thread. destruct (ts !! i) as [[held ops]|] eqn:Ei; [|done].
  cbn [mbind option_bind fst snd]. pose proof (Forall_lookup_1 _ _ _ _ Hts Ei) as Ht. cbn in Ht.
  destruct ops as [|[l|l] ops]; [done|..]; cbn in Ht.
  - destruct (is_free l ts); [|done]. intros [= <-]. apply Forall_insert; [done|]. apply Ht.
  - destruct (bool_decide (l ∈ held)); [|done]. intros [= <-]. apply Forall_insert; [done|]. apply Ht.
Qed.

Lemma reachable_ok ts0 ts : threads_ok ts0 → reachable ts0 ts → threads_ok ts.
Proof. intros H0. induction 1 as [|ts ts' _ IH [i Hi]]; [done|]. by eapply step_thread_ok. Qed.

Lemma is_free_false l ts : is_free l ts = false → ∃ j t, ts !! j = Some t ∧ l ∈ t.1.
Proof.
  induction ts as [|t ts IH]; cbn; [done|]. rewrite andb_false_iff, negb_false_iff, bool_decide_eq_true.
  intros [Hl|Hts]; [by exists 0%nat, t|]. destruct (IH Hts) as (j & t' & Hj & Hl). by exists (S j), t'.
Qed.

(** A schedule names the thread of each step. *)
Lemma schedule_reachable ts0 sched ts ts' :
  reachable ts0 ts → opt_fold step_thread sched ts = Some ts' → reachable ts0 ts'.
Proof.
  revert ts. induction sched as [|i sched IH]; intros ts Hr; cbn; [by intros [= <-]|].
  destruct (step_thread ts i) as [ts1|] eqn:E; [|done]. apply IH. eapply reach_step; [done|by exists i].
Qed.

(** A waiting thread whose lock is held finds another one waiting higher up, so
    some thread can move. *)
Lemma can_move ts n i held l ops :
  threads_ok ts → ts !! i = Some (held, Acq l :: ops) → (9 ≤ rank l + n)%nat →
  ∃ j ts', step_thread ts j = Some ts'.
Proof.
  revert i held l ops. induction n as [|n IH]; intros i held l ops Hts Hi Hn.
  { destruct l; cbn in Hn; lia. }
  destruct (is_free l ts) eqn:Hfree.
  { exists i. unfold step_thread. rewrite Hi. cbn. rewrite Hfree. by eexists. }
  apply is_free_false in Hfree as (j & [held' ops'] & Hj & Hl). cbn in Hl.
  pose proof (Forall_lookup_1 _ _ _ _ Hts Hj) as Hr. cbn in Hr.
  destruct ops' as [|[l'|l'] ops']; cbn in Hr.
  - subst. by apply elem_of_nil in Hl.
  - destruct Hr as [Hr _]. rewrite Forall_forall in Hr. specialize (Hr l Hl).
    eapply (IH j); [done|exact Hj|lia].
  - exists j. unfold step_thread. rewrite Hj. cbn. rewrite bool_decide_eq_true_2 by apply Hr. by eexists.
Qed.

Lemma progress ts : threads_ok ts → all_done ts ∨ ∃ ts', lock_step ts ts'.
Proof.
  intros Hts. destruct (decide (Forall (λ t : thread, t.2 = []) ts)) as [|Hnd]; [by left|]. right.
  apply not_Forall_Exists in Hnd; [|intros ?; apply _].
  apply Exists_exists in Hnd as ([held ops] & Hin & Hne).
  apply list_elem_of_lookup in Hin as [i Hi]. cbn in Hne.
  destruct ops as [|[l|l] ops]; [done|..].
  - destruct (can_move ts 9 i held l ops Hts Hi) as (j & ts' & Hs); [lia|]. by exists ts', j.
  - pose proof (Forall_lookup_1 _ _ _ _ Hts Hi) as [Hl _]. cbn in Hl.
    exists (<[i := (drop_lock l held, ops)]> ts), i. unfold step_thread. rewrite Hi. cbn.
    by rewrite bool_decide_eq_true_2.
Qed.

(** Every step uses up one operation. *)
Definition work (ts : list thread) : nat := sum_list ((λ t : thread, length t.2) <$> ts).

Lemma work_cons t ts : work (t :: ts) = (length t.2 + work ts)%nat.
Proof. done. Qed.

Lemma work_insert (ts : list thread) i held l ops held' :
  ts !! i = Some (held, l :: ops) → work ts = S (work (<[i := (held', ops)]> ts)).
Proof.
  revert i. induction ts as [|t ts IH]; intros [|i] Hi; [done|done|..].
  - injection Hi as ->. by rewrite !work_cons.
  - change (<[S i := (held', ops)]> (t :: ts)) with (t :: <[i := (held', ops)]> ts).
    rewrite !work_cons, (IH i Hi). lia.
Qed.

Lemma lock_step_work ts ts' : lock_step ts ts' → work ts = S (work ts').
Proof.
  intros [i Hs]. unfold step_thread in Hs. destruct (ts !! i) as [[held ops]|] eqn:Ei; [|done]. cbn in Hs.
  destruct ops as [|[l|l] ops]; [done|..]; (case_match; [|done]); injection Hs as <-; by eapply work_insert.
Qed.

Lemma can_finish ts : threads_ok ts → ∃ ts', rtc lock_step ts ts' ∧ all_done ts'.
Proof.
  remember (work ts) as n eqn:Hn. revert ts Hn. induction n as [|n IH]; intros ts Hn Hts.
  - destruct (progress ts Hts) as [|[ts' Hs]]; [by exists ts|]. apply lock_step_work in Hs. lia.
  - destruct (progress ts Hts) as [|[ts' Hs]]; [by exists ts|].
    destruct (IH ts') as (ts'' & Hr & Hd); [apply lock_step_work in Hs; lia| |].
    + destruct Hs as [i Hs]. by eapply step_thread_ok.
    + exists ts''. split; [|done]. by eapply rtc_l.
Qed.

(** ** Properties *)

(** C27 (ordered_functions_never_deadlock): any number of threads running ticks,
    client lists, manual policy changes, counter calls and snapshots, in any
    interleaving, never deadlock: from every reachable state that is not
    finished some thread can move, every step uses up one operation, and all
    threads can run to their end. *)
Theorem ordered_functions_never_deadlock progs ts :
  Forall ordered_fn progs → reachable (start <$> progs) ts →
  ¬ deadlocked ts
  ∧ (∀ ts', lock_step ts ts' → work ts = S (work ts'))
  ∧ ∃ ts', rtc lock_step ts ts' ∧ all_done ts'.
Proof.
  intros Hp Hr. assert (threads_ok ts) as Hts.
  { eapply reachable_ok; [|exact Hr]. apply Forall_fmap. eapply Forall_impl; [exact Hp|].
    intros ops Ho. by apply steady_ranked, ordered_steady. }
  split_and!.
  - intros [Hnd Hstuck]. destruct (progress ts Hts) as [|[ts' Hs]]; [done|]. by apply (Hstuck ts').
  - intros ts'. apply lock_step_work.
  - by apply can_finish.
Qed.

Lemma ordered_functions_never_deadlock_witness :
  ¬ deadlocked (start <$> [tick_ops Permissive [EffBlock; EffNone]; list_clients_ops; manual_ops true]).
Proof.
  apply (ordered_functions_never_deadlock
    [tick_ops Permissive [EffBlock; EffNone]; list_clients_ops; manual_ops true]).
  - repeat constructor.
  - constructor.
Defined.

(** C28 (top_and_list_clients_deadlock): a [top] and a [list_clients] request
    served at the same time can deadlock: [top] holds the would-be lock and
    waits for the policies, [list_clients] holds the policies and waits for the
    would-be lock; a tick that comes later is stuck behind them as well. *)
Theorem top_and_list_clients_deadlock mode effs :
  ∃ ts, reachable (start <$> [top_ops; list_clients_ops; tick_ops mode effs]) ts ∧ deadlocked ts.
Proof.
  set (rest := locked LPolicies (effs ≫= enforce_ops mode)).
  exists [([LWouldBe; LWindows], drop 2 top_ops); ([LPolicies], drop 1 list_clients_ops);
          ([LLast], Acq LWindows :: rest ++ [Rel LWindows; Rel LLast])].
  split.
  - assert (tick_ops mode effs = Acq LByRule :: Rel LByRule :: Acq LLast :: Acq LWindows
      :: rest ++ [Rel LWindows; Rel LLast]) as Et.
    { unfold tick_ops, locked, rest. cbn. by rewrite <- !app_assoc. }
    rewrite Et. clearbody rest. clear Et.
    eapply (schedule_reachable _ [0; 0; 1; 2; 2; 2]%nat); [apply reach_refl|reflexivity].
  - split.
    + intros Hd. apply Forall_cons in Hd as [Hd _]. discriminate Hd.
    + intros ts' [i Hi]. do 3 (destruct i as [|i]; [discriminate Hi|]). discriminate Hi.
Qed.
