(* ===== verification/Json.v ===== *)
(** JSON values and the serde traits: [Serialize] and [Deserialize] as classes,
    the shape of derived implementations (structs with renamed, optional and
    defaulted fields), and the round-trip law that the wire types and the stored
    types discharge.  The JSON text printer and parser of serde_json are the
    parameter [JsonText]. *)

From S2P Require Import Prelude.

(** ** Values *)

(** [serde_json::Value]; an integral number is a [u64] or a negative [i64], a
    float is kept as its text.  Keys are unique. *)
Inductive Json :=
| JNull
| JBool (b : bool)
| JInt (n : Z)
| JFloat (repr : str)
| JStr (s : str)
| JArr (l : list Json)
| JObj (fs : list (str * Json)).

Fixpoint assoc (k : str) (fs : list (str * Json)) : option Json :=
  match fs with
  | [] => None
  | (k', v) :: fs' => if bool_decide (k = k') then Some v else assoc k fs'
  end.

(** What serde_json can print and read back: integers in range, unique keys,
    nesting below the recursion limit (the [fuel]). *)
Fixpoint json_ok (fuel : nat) (j : Json) : bool :=
  match fuel with
  | O => false
  | S fuel' =>
      match j with
      | JInt n => (- (I64_MAX + 1) <=? n) && (n <=? U64_MAX)
      | JFloat _ => false
      | JArr l => forallb (json_ok fuel') l
      | JObj fs => bool_decide (NoDup fs.*1) && forallb (λ kv, json_ok fuel' kv.2) fs
      | _ => true
      end
  end.

Definition RECURSION_LIMIT : nat := 127.

(** ** Derived implementations *)
Class Serialize (A : Type) := to_json : A → Json.
Class Deserialize (A : Type) := of_json : Json → option A.

(** The round trip, on the values of the Rust type ([wf]); no [Serialize] of the
    program prints [null]. *)
Class RoundTrip (A : Type) `{Serialize A, Deserialize A} := {
  wf : A → Prop;
  of_to_json : ∀ a, wf a → of_json (to_json a) = Some a;
  to_json_not_null : ∀ a, to_json a ≠ JNull
}.

(** A derived [Serialize] of a struct: the fields in order, a skipped field is
    [None]. *)
Definition obj (fields : list (str * option Json)) : Json :=
  JObj (omap (λ f, (f.1,.) <$> f.2) fields).

(** A derived [Deserialize] of a struct reads an object (unknown keys are
    ignored) or an array of at most as many values as there are fields. *)
Definition struct_of (names : list str) (j : Json) : option (list (option Json)) :=
  match j with
  | JObj fs => Some ((λ n, assoc n fs) <$> names)
  | JArr l => if (length l <=? length names)%nat
              then Some ((Some <$> l) ++ replicate (length names - length l) None)
              else None
  | _ => None
  end.

(** Field readers: required, [Option] with a default, any type with a
    default. *)
Definition req {A} `{Deserialize A} (o : option Json) : option A := o ≫= of_json.

Definition opt {A} `{Deserialize A} (o : option Json) : option (option A) :=
  match o with
  | None | Some JNull => Some None
  | Some j => Some <$> of_json j
  end.

Definition dflt {A} `{Deserialize A} (d : A) (o : option Json) : option A :=
  match o with
  | None => Some d
  | Some j => of_json j
  end.

(** Field writers. *)
Definition out {A} `{Serialize A} (a : A) : option Json := Some (to_json a).
Definition out_opt {A} `{Serialize A} (o : option A) : option Json := to_json <$> o.
Definition out_unless {A} `{Serialize A} (skip : A → bool) (a : A) : option Json :=
  if skip a then None else Some (to_json a).

Definition is_empty {A} (l : list A) : bool := match l with [] => true | _ => false end.

(** ** The basic types *)
#[export] Instance str_ser : Serialize str := JStr.
#[export] Instance str_de : Deserialize str := λ j,
  match j with JStr s => Some s | _ => None end.
#[export] Instance bool_ser : Serialize bool := JBool.
#[export] Instance bool_de : Deserialize bool := λ j,
  match j with JBool b => Some b | _ => None end.
#[export] Instance vec_ser {A} `{Serialize A} : Serialize (list A) | 10 := λ l, JArr (to_json <$> l).
#[export] Instance vec_de {A} `{Deserialize A} : Deserialize (list A) | 10 := λ j,
  match j with JArr l => mapM of_json l | _ => None end.

(** Unsigned integers of a width. *)
Definition int_to (n : Z) : Json := JInt n.
Definition int_of (max : Z) (j : Json) : option Z :=
  match j with
  | JInt n => if (0 <=? n) && (n <=? max) then Some n else None
  | _ => None
  end.

Definition req_int (max : Z) (o : option Json) : option Z := o ≫= int_of max.
Definition opt_int (max : Z) (o : option Json) : option (option Z) :=
  match o with
  | None | Some JNull => Some None
  | Some j => Some <$> int_of max j
  end.
Definition dflt_int (max d : Z) (o : option Json) : option Z :=
  match o with
  | None => Some d
  | Some j => int_of max j
  end.
Definition out_int (n : Z) : option Json := Some (int_to n).
Definition out_opt_int (o : option Z) : option Json := int_to <$> o.

(** [Vec] of an integer type. *)
Definition ints_to (l : list Z) : Json := JArr (int_to <$> l).
Definition ints_of (max : Z) (j : Json) : option (list Z) :=
  match j with
  | JArr l => mapM (int_of max) l
  | _ => None
  end.

(** ** serde_json's text form *)
Class JsonText := {
  json_print : Json → result str str;
  json_parse : str → result Json str
}.

Class JsonTextLaws `{JsonText} :=
  json_text_round_trip : ∀ j, json_ok RECURSION_LIMIT j = true →
    ∃ s, json_print j = Ok s ∧ json_parse s = Ok j.

(** ** Lemmas *)
Lemma assoc_obj n (fields : list (str * option Json)) :
  NoDup fields.*1 →
  assoc n (omap (λ f, (f.1,.) <$> f.2) fields) = (list_find (λ f, f.1 = n) fields) ≫= λ p, p.2.2.
Proof.
  induction fields as [|[k o] fields IH]; [done|]. intros [Hk Hnd]%NoDup_cons.
  csimpl. case_decide as Hd; cbn in Hd.
  - subst n. destruct o as [v|]; csimpl; [by rewrite bool_decide_eq_true_2|].
    rewrite IH by done. replace (list_find _ fields) with (@None (nat * (str * option Json))); [done|].
    symmetry. apply list_find_None. apply Forall_forall. intros [k' o'] Hin E. cbn in E. subst k'.
    apply Hk. exact (list_elem_of_fmap_2 fst _ _ Hin).
  - destruct o as [v|]; csimpl; [rewrite bool_decide_eq_false_2 by congruence|]; rewrite IH by done;
      by destruct (list_find _ fields) as [[? [? ?]]|].
Qed.

Lemma list_find_NoDup (fields : list (str * option Json)) k o :
  NoDup fields.*1 → (k, o) ∈ fields →
  (list_find (λ f, f.1 = k) fields ≫= λ p, p.2.2) = o.
Proof.
  induction fields as [|[k' o'] fields IH]; [by intros _ ?%elem_of_nil|].
  intros [Hk Hnd]%NoDup_cons [[= -> ->]|Hin]%elem_of_cons; csimpl.
  - by rewrite decide_True by done.
  - case_decide as Hd; cbn in Hd.
    + subst k'. destruct Hk. exact (list_elem_of_fmap_2 fst _ _ Hin).
    + rewrite <- (IH Hnd Hin). by destruct (list_find _ fields) as [[? [? ?]]|].
Qed.

(** A derived reader sees the fields the derived writer wrote. *)
Lemma struct_of_obj fields :
  NoDup fields.*1 → struct_of fields.*1 (obj fields) = Some fields.*2.
Proof.
  intros Hnd. unfold struct_of, obj. f_equal. rewrite <- list_fmap_compose.
  apply list_fmap_ext. intros i [k o] Hi. cbn. rewrite assoc_obj by done.
  apply list_find_NoDup; [done|]. by eapply list_elem_of_lookup_2.
Qed.

Lemma struct_of_obj_names names fields :
  names = fields.*1 → bool_decide (NoDup names) = true →
  struct_of names (obj fields) = Some fields.*2.
Proof. intros -> H. apply struct_of_obj. by apply bool_decide_eq_true in H. Qed.

(** A derived struct is printable when its fields are. *)
Lemma omap_fields_sublist (fields : list (str * option Json)) :
  (omap (λ f, (f.1,.) <$> f.2) fields).*1 `sublist_of` fields.*1.
Proof.
  induction fields as [|[k [v|]] fields IH]; csimpl; [done|by apply sublist_skip|by apply sublist_cons].
Qed.

Lemma json_ok_obj fuel fields :
  bool_decide (NoDup fields.*1) = true →
  forallb (λ f, from_option (json_ok fuel) true f.2) fields = true →
  json_ok (S fuel) (obj fields) = true.
Proof.
  intros Hnd%bool_decide_eq_true Hok. cbn. apply andb_true_intro. split.
  - apply bool_decide_eq_true. eapply sublist_NoDup; [|apply omap_fields_sublist]. done.
  - induction fields as [|[k [v|]] fields IH]; csimpl; [done|..];
      apply NoDup_cons in Hnd as [_ Hnd]; cbn in Hok.
    + apply andb_prop in Hok as [Hv Hok]. rewrite Hv. by apply IH.
    + by apply IH.
Qed.

Lemma json_ok_int fuel n : - (I64_MAX + 1) ≤ n ≤ U64_MAX → json_ok (S fuel) (int_to n) = true.
Proof. intros [H0 H1]. cbn. by rewrite (proj2 (Z.leb_le _ _) H0), (proj2 (Z.leb_le _ _) H1). Qed.

Section readers.
Context {A : Type} `{RoundTrip A}.

Lemma req_out a : wf a → req (out a) = Some a.
Proof. intros. by apply of_to_json. Qed.

Lemma opt_out o : (∀ a, o = Some a → wf a) → opt (out_opt o) = Some o.
Proof.
  destruct o as [a|]; [|done]. intros Ha. unfold opt, out_opt. cbn.
  pose proof (to_json_not_null a) as Hn. pose proof (of_to_json a (Ha a eq_refl)) as E.
  destruct (to_json a); [done|..]; by rewrite E.
Qed.

Lemma dflt_out d a : wf a → dflt d (out a) = Some a.
Proof. intros. by apply of_to_json. Qed.

Lemma dflt_out_unless d skip a :
  wf a → (skip a = true → a = d) → dflt d (out_unless skip a) = Some a.
Proof.
  intros Ha Hs. unfold out_unless. destruct (skip a); cbn; [by rewrite Hs|by apply of_to_json].
Qed.
End readers.

#[export] Instance str_rt : RoundTrip str.
Proof. by refine {| wf _ := True |}. Defined.
#[export] Instance bool_rt : RoundTrip bool.
Proof. by refine {| wf _ := True |}. Defined.

Lemma mapM_of_to {A} `{RoundTrip A} (l : list A) :
  Forall wf l → mapM of_json (to_json <$> l) = Some l.
Proof.
  intros Hl. apply mapM_Some, Forall2_fmap_l, Forall_Forall2_diag.
  apply (Forall_impl _ _ _ Hl). intros a. apply of_to_json.
Qed.

#[export] Instance vec_rt {A} `{RoundTrip A} : RoundTrip (list A) | 10.
Proof.
  refine {| wf l := Forall wf l |}; [|done]. intros l Hl. by apply mapM_of_to.
Defined.

Lemma int_of_to max n : 0 ≤ n ≤ max → int_of max (int_to n) = Some n.
Proof.
  intros [H0 H1]. unfold int_of, int_to.
  by rewrite (proj2 (Z.leb_le _ _) H0), (proj2 (Z.leb_le _ _) H1).
Qed.

Lemma req_int_out max n : 0 ≤ n ≤ max → req_int max (out_int n) = Some n.
Proof. apply int_of_to. Qed.

Lemma opt_int_out max o : (∀ n, o = Some n → 0 ≤ n ≤ max) → opt_int max (out_opt_int o) = Some o.
Proof.
  destruct o as [n|]; [|done]. intros Hn. unfold opt_int, out_opt_int. cbn [fmap option_fmap option_map int_to].
  by rewrite (int_of_to max n) by auto.
Qed.

Lemma ints_of_to max l : Forall (λ n, 0 ≤ n ≤ max) l → ints_of max (ints_to l) = Some l.
Proof.
  intros Hl. apply mapM_Some, Forall2_fmap_l, Forall_Forall2_diag.
  apply (Forall_impl _ _ _ Hl). intros n Hn. by apply int_of_to.
Qed.

Lemma is_empty_nil {A} (l : list A) : is_empty l = true → l = [].
Proof. by destruct l. Qed.

(** ** A concrete text form, used to evaluate examples *)
Fixpoint json_tree (j : Json) : gen_tree (bool + Z + str + str) :=
  match j with
  | JNull => GenNode 0 []
  | JBool b => GenLeaf (inl (inl (inl b)))
  | JInt n => GenLeaf (inl (inl (inr n)))
  | JFloat r => GenLeaf (inl (inr r))
  | JStr s => GenLeaf (inr s)
  | JArr l => GenNode 1 (json_tree <$> l)
  | JObj fs => GenNode 2 ((λ kv, GenNode 3 [GenLeaf (inr kv.1); json_tree kv.2]) <$> fs)
  end.

Fixpoint tree_json (t : gen_tree (bool + Z + str + str)) : Json :=
  match t with
  | GenLeaf (inl (inl (inl b))) => JBool b
  | GenLeaf (inl (inl (inr n))) => JInt n
  | GenLeaf (inl (inr r)) => JFloat r
  | GenLeaf (inr s) => JStr s
  | GenNode 1 ts => JArr (tree_json <$> ts)
  | GenNode 2 ts =>
      JObj ((λ t', match t' with
                   | GenNode _ [GenLeaf (inr k); v] => (k, tree_json v)
                   | _ => ([], JNull)
                   end) <$> ts)
  | GenNode _ _ => JNull
  end.

Fixpoint tree_json_tree (j : Json) : tree_json (json_tree j) = j.
Proof.
  destruct j as [| | | | |l|fs]; cbn; [reflexivity..| |].
  - f_equal. induction l as [|j l IH]; csimpl; [reflexivity|].
    rewrite IH. f_equal. exact (tree_json_tree j).
  - f_equal. induction fs as [|[k j] fs IH]; csimpl; [reflexivity|].
    rewrite IH. do 2 f_equal. exact (tree_json_tree j).
Qed.

#[export] Instance Json_eq_dec : EqDecision Json.
Proof.
  intros j j'. destruct (decide (json_tree j = json_tree j')) as [E|E].
  - left. rewrite <- (tree_json_tree j), E. apply tree_json_tree.
  - right. by intros ->.
Defined.
#[export] Instance Json_countable : Countable Json.
Proof. apply (inj_countable' json_tree tree_json), tree_json_tree. Defined.

#[export] Instance coded_text : JsonText := {|
  json_print j := Ok [Z.pos (encode j)];
  json_parse s := match s with
                  | [Z.pos p] => ok_or (lit "invalid") (decode p)
                  | _ => Err (lit "invalid")
                  end
|}.

#[export] Instance coded_text_laws : JsonTextLaws.
Proof. intros j _. eexists. split; [done|]. cbn. by rewrite decode_encode. Qed.
