(* ===== verification/Wire.v ===== *)
(** The wire protocol ([crates/mw-proto/src/wire.rs]): requests, responses and
    their bodies, with the JSON forms their serde attributes derive. *)

From S2P Require Import Prelude Json.

(** ** Requests *)
Inductive RequestKind :=
| KInfo | KTop | KListClients | KThrottle | KUnthrottle | KBlock | KUnblock | KListRules.

#[export] Instance RequestKind_eq_dec : EqDecision RequestKind.
Proof. solve_decision. Defined.

Definition kind_names : list (str * RequestKind) :=
  [(lit "info", KInfo); (lit "top", KTop); (lit "listClients", KListClients);
   (lit "throttle", KThrottle); (lit "unthrottle", KUnthrottle); (lit "block", KBlock);
   (lit "unblock", KUnblock); (lit "listRules", KListRules)].

Definition kind_name (k : RequestKind) : str :=
  from_option fst [] (head (filter (λ p, p.2 = k) kind_names)).

Definition kind_of_name (s : str) : option RequestKind :=
  snd <$> head (filter (λ p, p.1 = s) kind_names).

#[export] Instance kind_ser : Serialize RequestKind := λ k, JStr (kind_name k).

(** A unit variant is its name, or an object with its name and [null]. *)
#[export] Instance kind_de : Deserialize RequestKind := λ j,
  match j with
  | JStr s | JObj [(s, JNull)] => kind_of_name s
  | _ => None
  end.

Record ClientRef := mkRef { ref_mac : str; ref_ip : option str }.
Record TopParams := mkTop {
  tp_limit : Z;
  tp_rule_id : option str;
  tp_protocol : option str;
  tp_metric : option str
}.
Record ThrottleParams := mkThrottleParams {
  th_client : ClientRef;
  th_rate : option Z;
  th_duration_secs : option Z
}.
Record ClientParams := mkClientParams { cp_client : ClientRef }.
Record BlockParams := mkBlockParams { bl_client : ClientRef; bl_duration_secs : option Z }.

Inductive Params :=
| PTop (p : TopParams)
| PThrottle (p : ThrottleParams)
| PClient (p : ClientParams)
| PBlock (p : BlockParams).

Record Request := mkRequest { rq_kind : RequestKind; rq_params : option Params }.

Definition request_new (kind : RequestKind) : Request := mkRequest kind None.
Definition with_params (kind : RequestKind) (params : Params) : Request :=
  mkRequest kind (Some params).

#[export] Instance ref_ser : Serialize ClientRef := λ r,
  obj [(lit "mac", out (ref_mac r)); (lit "ip", out_opt (ref_ip r))].
#[export] Instance ref_de : Deserialize ClientRef := λ j,
  match struct_of [lit "mac"; lit "ip"] j with
  | Some [m; i] => m ← req m; i ← opt i; Some (mkRef m i)
  | _ => None
  end.

#[export] Instance top_ser : Serialize TopParams := λ p,
  obj [(lit "limit", out_int (tp_limit p)); (lit "ruleId", out_opt (tp_rule_id p));
       (lit "protocol", out_opt (tp_protocol p)); (lit "metric", out_opt (tp_metric p))].
#[export] Instance top_de : Deserialize TopParams := λ j,
  match struct_of [lit "limit"; lit "ruleId"; lit "protocol"; lit "metric"] j with
  | Some [l; r; p; m] =>
      l ← req_int U64_MAX l; r ← opt r; p ← opt p; m ← opt m; Some (mkTop l r p m)
  | _ => None
  end.

#[export] Instance throttle_ser : Serialize ThrottleParams := λ p,
  obj [(lit "client", out (th_client p)); (lit "rate", out_opt_int (th_rate p));
       (lit "durationSecs", out_opt_int (th_duration_secs p))].
#[export] Instance throttle_de : Deserialize ThrottleParams := λ j,
  match struct_of [lit "client"; lit "rate"; lit "durationSecs"] j with
  | Some [c; r; d] =>
      c ← req c; r ← opt_int U8_MAX r; d ← opt_int U64_MAX d; Some (mkThrottleParams c r d)
  | _ => None
  end.

#[export] Instance client_params_ser : Serialize ClientParams := λ p,
  obj [(lit "client", out (cp_client p))].
#[export] Instance client_params_de : Deserialize ClientParams := λ j,
  match struct_of [lit "client"] j with
  | Some [c] => c ← req c; Some (mkClientParams c)
  | _ => None
  end.

#[export] Instance block_ser : Serialize BlockParams := λ p,
  obj [(lit "client", out (bl_client p)); (lit "durationSecs", out_opt_int (bl_duration_secs p))].
#[export] Instance block_de : Deserialize BlockParams := λ j,
  match struct_of [lit "client"; lit "durationSecs"] j with
  | Some [c; d] => c ← req c; d ← opt_int U64_MAX d; Some (mkBlockParams c d)
  | _ => None
  end.

(** An untagged enum is read as the first variant that accepts the value. *)
Definition or_else {A} (a b : option A) : option A := match a with Some _ => a | None => b end.

#[export] Instance params_ser : Serialize Params := λ p,
  match p with
  | PTop p => to_json p
  | PThrottle p => to_json p
  | PClient p => to_json p
  | PBlock p => to_json p
  end.
#[export] Instance params_de : Deserialize Params := λ j,
  or_else (PTop <$> of_json j)
    (or_else (PThrottle <$> of_json j)
       (or_else (PClient <$> of_json j) (PBlock <$> of_json j))).

#[export] Instance request_ser : Serialize Request := λ r,
  obj [(lit "type", out (rq_kind r)); (lit "params", out_opt (rq_params r))].
#[export] Instance request_de : Deserialize Request := λ j,
  match struct_of [lit "type"; lit "params"] j with
  | Some [k; p] => k ← req k; p ← opt p; Some (mkRequest k p)
  | _ => None
  end.

(** ** Results *)
Inductive ActionWire := AWThrottle (drop_rate : Z) | AWBlock | AWNone.

Record ViolationWire := mkViolationWire {
  vw_rule_id : str;
  vw_value : Z;
  vw_limit : Z;
  vw_action : ActionWire
}.
Record ClientStatsWire := mkStatsWire {
  sw_requests : Z;
  sw_bytes : Z;
  sw_connections : Z;
  sw_ws_connections : Z
}.
Record ClientEntry := mkEntry {
  ce_client : ClientRef;
  ce_action : option ActionWire;
  ce_would_be_action : option ActionWire;
  ce_violations : list ViolationWire;
  ce_hot : bool;
  ce_stats : option ClientStatsWire
}.
Record TopColumn := mkColumn {
  tc_rule_id : str;
  tc_window : str;
  tc_limit : Z;
  tc_min_threshold : Z
}.
Record ClientsResult := mkClients { cr_clients : list ClientEntry; cr_columns : list TopColumn }.
Abbreviation TopResult := ClientsResult.
Record RuleWire := mkRuleWire {
  rw_id : str;
  rw_protocol : str;
  rw_ports : list Z;
  rw_metric : str;
  rw_window : str;
  rw_limit : Z;
  rw_action : ActionWire;
  rw_min_threshold : Z;
  rw_match : option str
}.
Record RulesResult := mkRules { rr_rules : list RuleWire }.
Record InfoResult := mkInfo {
  in_version : str;
  in_commit : str;
  in_build_time : str;
  in_mode : str;
  in_interface : str
}.
Inductive EmptyResult := mkEmpty.
Inductive ResultBody :=
| RInfo (r : InfoResult)
| RClients (r : ClientsResult)
| RRules (r : RulesResult)
| REmpty (r : EmptyResult).

Record ErrorBody := mkError { er_code : str; er_message : str }.
Record Response := mkResponse {
  rs_kind : RequestKind;
  rs_result : option ResultBody;
  rs_error : option ErrorBody
}.

Definition response_ok (kind : RequestKind) (result : ResultBody) : Response :=
  mkResponse kind (Some result) None.
Definition response_err (kind : RequestKind) (error : ErrorBody) : Response :=
  mkResponse kind None (Some error).

Definition forbidden (message : str) : ErrorBody := mkError (lit "forbidden") message.
Definition not_found (message : str) : ErrorBody := mkError (lit "notFound") message.
Definition invalid (message : str) : ErrorBody := mkError (lit "invalid") message.
Definition busy (message : str) : ErrorBody := mkError (lit "busy") message.

(** *** Their JSON forms *)

(** An internally tagged enum: [struct_of] of the variant reads the value
    without its tag; a unit variant ignores the other keys. *)
Definition action_tag (j : Json) : option nat :=
  match j with
  | JStr s => if decide (s = lit "throttle") then Some 0%nat
              else if decide (s = lit "block") then Some 1%nat
              else if decide (s = lit "none") then Some 2%nat else None
  | JInt n => if (0 <=? n) && (n <? 3) then Some (Z.to_nat n) else None
  | _ => None
  end.

Definition tag_split (j : Json) : option (nat * Json) :=
  match j with
  | JObj fs =>
      t ← assoc (lit "kind") fs ≫= action_tag;
      Some (t, JObj (filter (λ f, f.1 ≠ lit "kind") fs))
  | JArr (t :: l) => t ← action_tag t; Some (t, JArr l)
  | _ => None
  end.

#[export] Instance action_ser : Serialize ActionWire := λ a,
  match a with
  | AWThrottle d => obj [(lit "kind", Some (JStr (lit "throttle"))); (lit "dropRate", out_int d)]
  | AWBlock => obj [(lit "kind", Some (JStr (lit "block")))]
  | AWNone => obj [(lit "kind", Some (JStr (lit "none")))]
  end.
#[export] Instance action_de : Deserialize ActionWire := λ j,
  '(t, rest) ← tag_split j;
  match t with
  | 0%nat =>
      match struct_of [lit "dropRate"] rest with
      | Some [d] => AWThrottle <$> req_int U8_MAX d
      | _ => None
      end
  | _ =>
      match struct_of [] rest with
      | Some _ => Some (if decide (t = 1%nat) then AWBlock else AWNone)
      | None => None
      end
  end.

#[export] Instance violation_ser : Serialize ViolationWire := λ v,
  obj [(lit "ruleId", out (vw_rule_id v)); (lit "value", out_int (vw_value v));
       (lit "limit", out_int (vw_limit v)); (lit "action", out (vw_action v))].
#[export] Instance violation_de : Deserialize ViolationWire := λ j,
  match struct_of [lit "ruleId"; lit "value"; lit "limit"; lit "action"] j with
  | Some [r; v; l; a] =>
      r ← req r; v ← req_int U64_MAX v; l ← req_int U64_MAX l; a ← req a;
      Some (mkViolationWire r v l a)
  | _ => None
  end.

#[export] Instance stats_ser : Serialize ClientStatsWire := λ s,
  obj [(lit "requests", out_int (sw_requests s)); (lit "bytes", out_int (sw_bytes s));
       (lit "connections", out_int (sw_connections s));
       (lit "wsConnections", out_int (sw_ws_connections s))].
#[export] Instance stats_de : Deserialize ClientStatsWire := λ j,
  match struct_of [lit "requests"; lit "bytes"; lit "connections"; lit "wsConnections"] j with
  | Some [r; b; c; w] =>
      r ← dflt_int U64_MAX 0 r; b ← dflt_int U64_MAX 0 b;
      c ← dflt_int U64_MAX 0 c; w ← dflt_int U64_MAX 0 w;
      Some (mkStatsWire r b c w)
  | _ => None
  end.

#[export] Instance entry_ser : Serialize ClientEntry := λ e,
  obj [(lit "client", out (ce_client e)); (lit "action", out_opt (ce_action e));
       (lit "wouldBeAction", out_opt (ce_would_be_action e));
       (lit "violations", out_unless is_empty (ce_violations e));
       (lit "hot", out_unless negb (ce_hot e)); (lit "stats", out_opt (ce_stats e))].
#[export] Instance entry_de : Deserialize ClientEntry := λ j,
  match struct_of [lit "client"; lit "action"; lit "wouldBeAction"; lit "violations";
                   lit "hot"; lit "stats"] j with
  | Some [c; a; w; v; h; s] =>
      c ← req c; a ← opt a; w ← opt w; v ← dflt [] v; h ← dflt false h; s ← opt s;
      Some (mkEntry c a w v h s)
  | _ => None
  end.

#[export] Instance column_ser : Serialize TopColumn := λ c,
  obj [(lit "ruleId", out (tc_rule_id c)); (lit "window", out (tc_window c));
       (lit "limit", out_int (tc_limit c)); (lit "minThreshold", out_int (tc_min_threshold c))].
#[export] Instance column_de : Deserialize TopColumn := λ j,
  match struct_of [lit "ruleId"; lit "window"; lit "limit"; lit "minThreshold"] j with
  | Some [r; w; l; m] =>
      r ← req r; w ← req w; l ← req_int U64_MAX l; m ← req_int U64_MAX m;
      Some (mkColumn r w l m)
  | _ => None
  end.

#[export] Instance clients_ser : Serialize ClientsResult := λ r,
  obj [(lit "clients", out (cr_clients r)); (lit "columns", out_unless is_empty (cr_columns r))].
#[export] Instance clients_de : Deserialize ClientsResult := λ j,
  match struct_of [lit "clients"; lit "columns"] j with
  | Some [c; k] => c ← req c; k ← dflt [] k; Some (mkClients c k)
  | _ => None
  end.

Definition ports_of (o : option Json) : option (list Z) :=
  match o with
  | None => Some []
  | Some j => ints_of U16_MAX j
  end.

#[export] Instance rule_ser : Serialize RuleWire := λ r,
  obj [(lit "id", out (rw_id r)); (lit "protocol", out (rw_protocol r));
       (lit "ports", if is_empty (rw_ports r) then None else Some (ints_to (rw_ports r)));
       (lit "metric", out (rw_metric r)); (lit "window", out (rw_window r));
       (lit "limit", out_int (rw_limit r)); (lit "action", out (rw_action r));
       (lit "minThreshold", out_int (rw_min_threshold r)); (lit "match", out_opt (rw_match r))].
#[export] Instance rule_de : Deserialize RuleWire := λ j,
  match struct_of [lit "id"; lit "protocol"; lit "ports"; lit "metric"; lit "window"; lit "limit";
                   lit "action"; lit "minThreshold"; lit "match"] j with
  | Some [i; p; ps; m; w; l; a; t; x] =>
      i ← req i; p ← req p; ps ← ports_of ps; m ← req m; w ← req w; l ← req_int U64_MAX l;
      a ← req a; t ← req_int U64_MAX t; x ← opt x;
      Some (mkRuleWire i p ps m w l a t x)
  | _ => None
  end.

#[export] Instance rules_ser : Serialize RulesResult := λ r, obj [(lit "rules", out (rr_rules r))].
#[export] Instance rules_de : Deserialize RulesResult := λ j,
  match struct_of [lit "rules"] j with
  | Some [r] => mkRules <$> req r
  | _ => None
  end.

#[export] Instance info_ser : Serialize InfoResult := λ r,
  obj [(lit "version", out (in_version r)); (lit "commit", out_unless is_empty (in_commit r));
       (lit "buildTime", out_unless is_empty (in_build_time r)); (lit "mode", out (in_mode r));
       (lit "interface", out_unless is_empty (in_interface r))].
#[export] Instance info_de : Deserialize InfoResult := λ j,
  match struct_of [lit "version"; lit "commit"; lit "buildTime"; lit "mode"; lit "interface"] j with
  | Some [v; c; b; m; i] =>
      v ← req v; c ← dflt [] c; b ← dflt [] b; m ← req m; i ← dflt [] i;
      Some (mkInfo v c b m i)
  | _ => None
  end.

#[export] Instance empty_ser : Serialize EmptyResult := λ _, obj [].
#[export] Instance empty_de : Deserialize EmptyResult := λ j, (λ _, mkEmpty) <$> struct_of [] j.

#[export] Instance body_ser : Serialize ResultBody := λ b,
  match b with
  | RInfo r => to_json r
  | RClients r => to_json r
  | RRules r => to_json r
  | REmpty r => to_json r
  end.
#[export] Instance body_de : Deserialize ResultBody := λ j,
  or_else (RInfo <$> of_json j)
    (or_else (RClients <$> of_json j)
       (or_else (RRules <$> of_json j) (REmpty <$> of_json j))).

#[export] Instance error_ser : Serialize ErrorBody := λ e,
  obj [(lit "code", out (er_code e)); (lit "message", out (er_message e))].
#[export] Instance error_de : Deserialize ErrorBody := λ j,
  match struct_of [lit "code"; lit "message"] j with
  | Some [c; m] => c ← req c; m ← req m; Some (mkError c m)
  | _ => None
  end.

#[export] Instance response_ser : Serialize Response := λ r,
  obj [(lit "type", out (rs_kind r)); (lit "result", out_opt (rs_result r));
       (lit "error", out_opt (rs_error r))].
#[export] Instance response_de : Deserialize Response := λ j,
  match struct_of [lit "type"; lit "result"; lit "error"] j with
  | Some [k; r; e] => k ← req k; r ← opt r; e ← opt e; Some (mkResponse k r e)
  | _ => None
  end.

(** ** Values of the Rust types: the integers fit their widths *)
Definition opt_u64 (o : option Z) : Prop := ∀ n, o = Some n → u64_ok n.
Definition throttle_params_ok (p : ThrottleParams) : Prop :=
  (∀ n, th_rate p = Some n → byte_ok n) ∧ opt_u64 (th_duration_secs p).
Definition action_wire_ok (a : ActionWire) : Prop := ∀ d, a = AWThrottle d → byte_ok d.
Definition violation_wire_ok (v : ViolationWire) : Prop :=
  u64_ok (vw_value v) ∧ u64_ok (vw_limit v) ∧ action_wire_ok (vw_action v).
Definition stats_wire_ok (s : ClientStatsWire) : Prop :=
  u64_ok (sw_requests s) ∧ u64_ok (sw_bytes s) ∧ u64_ok (sw_connections s)
  ∧ u64_ok (sw_ws_connections s).
Definition entry_ok (e : ClientEntry) : Prop :=
  (∀ a, ce_action e = Some a → action_wire_ok a)
  ∧ (∀ a, ce_would_be_action e = Some a → action_wire_ok a)
  ∧ Forall violation_wire_ok (ce_violations e)
  ∧ (∀ s, ce_stats e = Some s → stats_wire_ok s).
Definition column_ok (c : TopColumn) : Prop := u64_ok (tc_limit c) ∧ u64_ok (tc_min_threshold c).
Definition clients_ok (r : ClientsResult) : Prop :=
  Forall entry_ok (cr_clients r) ∧ Forall column_ok (cr_columns r).
Definition rule_wire_ok (r : RuleWire) : Prop :=
  Forall u16_ok (rw_ports r) ∧ u64_ok (rw_limit r) ∧ action_wire_ok (rw_action r)
  ∧ u64_ok (rw_min_threshold r).
Definition body_ok (b : ResultBody) : Prop :=
  match b with
  | RClients r => clients_ok r
  | RRules r => Forall rule_wire_ok (rr_rules r)
  | _ => True
  end.
Definition response_wf (r : Response) : Prop := ∀ b, rs_result r = Some b → body_ok b.

(** ** Lemmas *)

Ltac rt_side :=
  first [ exact I | done | intros; exact I | by eauto using is_empty_nil ].

Ltac fields_rt :=
  repeat first
    [ rewrite req_out by rt_side | rewrite opt_out by rt_side | rewrite dflt_out by rt_side
    | rewrite dflt_out_unless by rt_side
    | rewrite req_int_out by rt_side | rewrite opt_int_out by rt_side
    | progress cbn [mbind option_bind fmap option_fmap option_map] ].

(** The round trip of a derived struct: the reader sees the written fields, and
    each field reads back. *)
Ltac struct_rt de ser :=
  unfold of_json, to_json, de, ser;
  erewrite struct_of_obj_names; [|reflexivity|vm_compute; reflexivity]; cbn [fmap list_fmap snd];
  fields_rt.

Lemma kind_name_back k : kind_of_name (kind_name k) = Some k.
Proof. by destruct k. Qed.

#[export] Instance kind_rt : RoundTrip RequestKind.
Proof. refine {| wf _ := True |}; [|done]. intros k _. apply kind_name_back. Defined.

#[export] Instance ref_rt : RoundTrip ClientRef.
Proof.
  refine {| wf _ := True |}; [|done]. intros [m i] _. struct_rt ref_de ref_ser. done.
Defined.
#[export] Instance top_rt : RoundTrip TopParams.
Proof.
  refine {| wf p := u64_ok (tp_limit p) |}; [|done].
  intros [l r p m] Hl. struct_rt top_de top_ser. done.
Defined.

#[export] Instance throttle_rt : RoundTrip ThrottleParams.
Proof.
  refine {| wf := throttle_params_ok |}; [|done].
  intros [c r d] [Hr Hd]. struct_rt throttle_de throttle_ser. done.
Defined.

#[export] Instance action_rt : RoundTrip ActionWire.
Proof.
  refine {| wf := action_wire_ok |}; [|by intros []]. intros [d| |] Hd; [|done..].
  specialize (Hd d eq_refl). change (AWThrottle <$> int_of U8_MAX (int_to d) = Some (AWThrottle d)).
  by rewrite int_of_to.
Defined.

#[export] Instance violation_rt : RoundTrip ViolationWire.
Proof.
  refine {| wf := violation_wire_ok |}; [|done].
  intros [r v l a] (Hv & Hl & Ha). struct_rt violation_de violation_ser. done.
Defined.

#[export] Instance stats_rt : RoundTrip ClientStatsWire.
Proof.
  refine {| wf := stats_wire_ok |}; [|done]. intros [r b c w] (Hr & Hb & Hc & Hw).
  unfold of_json, to_json, stats_de, stats_ser.
  erewrite struct_of_obj_names; [|reflexivity|vm_compute; reflexivity].
  cbn [fmap list_fmap snd dflt_int out_int]. by rewrite !int_of_to by done.
Defined.

#[export] Instance entry_rt : RoundTrip ClientEntry.
Proof.
  refine {| wf := entry_ok |}; [|done]. intros [c a w v h s] (Ha & Hw & Hv & Hs).
  struct_rt entry_de entry_ser. rewrite dflt_out_unless; [|done|by destruct h].
  fields_rt. done.
Defined.

#[export] Instance column_rt : RoundTrip TopColumn.
Proof.
  refine {| wf := column_ok |}; [|done]. intros [r w l m] [Hl Hm].
  struct_rt column_de column_ser. done.
Defined.

#[export] Instance clients_rt : RoundTrip ClientsResult.
Proof.
  refine {| wf := clients_ok |}; [|done]. intros [c k] [Hc Hk].
  struct_rt clients_de clients_ser. done.
Defined.

Lemma ports_of_to ps : Forall u16_ok ps →
  ports_of (if is_empty ps then None else Some (ints_to ps)) = Some ps.
Proof.
  intros Hps. destruct ps as [|p ps]; [done|]. by apply ints_of_to.
Qed.

#[export] Instance rule_rt : RoundTrip RuleWire.
Proof.
  refine {| wf := rule_wire_ok |}; [|done]. intros [i p ps m w l a t x] (Hps & Hl & Ha & Ht).
  struct_rt rule_de rule_ser. rewrite ports_of_to by done. fields_rt. done.
Defined.

#[export] Instance rules_rt : RoundTrip RulesResult.
Proof.
  refine {| wf r := Forall rule_wire_ok (rr_rules r) |}; [|done].
  intros [r] Hr. struct_rt rules_de rules_ser. done.
Defined.

#[export] Instance info_rt : RoundTrip InfoResult.
Proof.
  refine {| wf _ := True |}; [|done]. intros [v c b m i] _. struct_rt info_de info_ser. done.
Defined.

#[export] Instance error_rt : RoundTrip ErrorBody.
Proof.
  refine {| wf _ := True |}; [|done]. intros [c m] _. struct_rt error_de error_ser. done.
Defined.

Lemma body_of_json j : (of_json j : option ResultBody) =
  or_else (RInfo <$> of_json j) (or_else (RClients <$> of_json j)
    (or_else (RRules <$> of_json j) (REmpty <$> of_json j))).
Proof. reflexivity. Qed.

Lemma params_of_json j : (of_json j : option Params) =
  or_else (PTop <$> of_json j) (or_else (PThrottle <$> of_json j)
    (or_else (PClient <$> of_json j) (PBlock <$> of_json j))).
Proof. reflexivity. Qed.

#[export] Instance body_rt : RoundTrip ResultBody.
Proof.
  refine {| wf := body_ok |}; [|by intros []]. intros [r|r|r|[]] Hr; rewrite body_of_json.
  - change (to_json (RInfo r)) with (to_json r). by rewrite of_to_json.
  - change (to_json (RClients r)) with (to_json r). rewrite of_to_json by exact Hr.
    by destruct r as [c [|k ks]].
  - change (to_json (RRules r)) with (to_json r). by rewrite of_to_json by exact Hr.
  - reflexivity.
Defined.

#[export] Instance response_rt : RoundTrip Response.
Proof.
  refine {| wf := response_wf |}; [|done]. intros [k b e] Hb. unfold response_wf in Hb.
  struct_rt response_de response_ser. done.
Defined.

(** How the four variants of [Params] read back: the readers of [Throttle] and
    [Client] accept what [Client] and [Block] write. *)
Definition params_ok (p : Params) : Prop :=
  match p with
  | PTop p => u64_ok (tp_limit p)
  | PThrottle p => throttle_params_ok p
  | PClient _ => True
  | PBlock p => opt_u64 (bl_duration_secs p)
  end.

Definition read_as (p : Params) : Params :=
  match p with
  | PTop p => PTop p
  | PThrottle p => PThrottle p
  | PClient p => PThrottle (mkThrottleParams (cp_client p) None None)
  | PBlock p => PThrottle (mkThrottleParams (bl_client p) None (bl_duration_secs p))
  end.

Lemma params_first j p :
  (of_json j : option TopParams) = None → (of_json j : option ThrottleParams) = Some p →
  (of_json j : option Params) = Some (PThrottle p).
Proof. intros H1 H2. by rewrite params_of_json, H1, H2. Qed.

(** An absent optional field prints like a skipped one. *)
Lemma obj_skip fields k : obj (fields ++ [(k, None)]) = obj fields.
Proof. unfold obj. by rewrite omap_app, app_nil_r. Qed.

Lemma client_params_as_throttle p :
  (to_json p : Json) = to_json (mkThrottleParams (cp_client p) None None).
Proof. reflexivity. Qed.

Lemma block_params_as_throttle p :
  (to_json p : Json) = to_json (mkThrottleParams (bl_client p) None (bl_duration_secs p)).
Proof. by destruct p as [c [d|]]. Qed.

Lemma throttle_not_top (p : ThrottleParams) : (of_json (to_json p) : option TopParams) = None.
Proof. by destruct p as [c [r|] [d|]]. Qed.

Lemma params_read_as p : params_ok p → of_json (to_json p) = Some (read_as p).
Proof.
  assert (∀ p, throttle_params_ok p →
    (of_json (to_json p) : option Params) = Some (PThrottle p)) as Hth.
  { intros q Hq. apply params_first; [apply throttle_not_top|by apply of_to_json]. }
  destruct p as [p|p|p|p]; intros Hp.
  - rewrite params_of_json. change (to_json (PTop p)) with (to_json p). by rewrite of_to_json by exact Hp.
  - by apply Hth.
  - change (to_json (PClient p)) with (to_json p). rewrite client_params_as_throttle.
    apply Hth. by split.
  - change (to_json (PBlock p)) with (to_json p). rewrite block_params_as_throttle.
    apply Hth. by split.
Qed.

Lemma request_read_as k p :
  (∀ q, p = Some q → params_ok q) →
  of_json (to_json (mkRequest k p)) = Some (mkRequest k (read_as <$> p)).
Proof.
  intros Hp. unfold of_json, to_json, request_de, request_ser.
  erewrite struct_of_obj_names; [|reflexivity|vm_compute; reflexivity].
  cbn [fmap list_fmap snd rq_kind rq_params]. rewrite req_out by done. cbn [mbind option_bind].
  destruct p as [p|]; [|done]. unfold opt, out_opt. cbn [fmap option_fmap option_map].
  pose proof (params_read_as p (Hp p eq_refl)) as E. unfold of_json, to_json in E |- *.
  destruct (params_ser p) eqn:Hj; [by destruct p|..]; by rewrite E.
Qed.

(** Whatever reads as [Block] from an object reads as [Client] before it. *)
Lemma object_never_block fs p : (of_json (JObj fs) : option Params) ≠ Some (PBlock p).
Proof.
  rewrite params_of_json. intros H.
  assert (∀ q, (of_json (JObj fs) : option BlockParams) = Some q →
    is_Some (of_json (JObj fs) : option ClientParams)) as Hc.
  { unfold of_json, block_de, client_params_de, struct_of. cbn [fmap list_fmap]. intros q Hq.
    apply bind_Some in Hq as (c & -> & _). by eexists. }
  destruct (of_json (JObj fs) : option TopParams); [done|].
  destruct (of_json (JObj fs) : option ThrottleParams); [done|].
  destruct (of_json (JObj fs) : option ClientParams); [done|].
  destruct (of_json (JObj fs) : option BlockParams) as [q|]; [|done].
  destruct (Hc q eq_refl) as [? [=]].
Qed.

Lemma block_needs_array fs r p :
  of_json (JObj fs) = Some r → rq_params r = Some (PBlock p) →
  ∃ l, assoc (lit "params") fs = Some (JArr l).
Proof.
  unfold of_json, request_de, struct_of. cbn [fmap list_fmap]. intros Hr Hp.
  apply bind_Some in Hr as (k & _ & Hr). apply bind_Some in Hr as (q & Hq & [= <-]).
  cbn in Hp. subst q. destruct (assoc (lit "params") fs) as [j|]; [|done].
  destruct j as [| | | | |l|fs']; try done; [by eexists|]. cbn in Hq.
  apply fmap_Some in Hq as (q & Hq & [= <-]). by destruct (object_never_block fs' p).
Qed.

(** ** Properties *)

(** C24 (response_round_trip): every response the daemon can build reads back
    from its JSON form unchanged: the untagged result bodies are never taken for
    one another, and skipped fields come back as their defaults. *)
Theorem response_round_trip r : response_wf r → of_json (to_json r) = Some r.
Proof. apply (of_to_json (RoundTrip := response_rt) r). Qed.

Lemma response_round_trip_witness :
  let e := mkEntry (mkRef (lit "02:00:00:00:00:01") (Some (lit "10.0.0.7"))) (Some AWBlock) None
             [mkViolationWire (lit "r") 12 10 (AWThrottle 50)] true
             (Some (mkStatsWire 1 2 3 4)) in
  let r := response_ok KTop (RClients (mkClients [e] [mkColumn (lit "r") (lit "per-second") 10 0])) in
  of_json (to_json r) = Some r.
Proof.
  intros e r. apply (response_round_trip r). intros b [= <-]. split; apply Forall_singleton.
  - split_and!; [by intros a [= <-]|done| |intros s [= <-]; by split_and!].
    apply Forall_singleton. split_and!; [done..|by intros d [= <-]].
  - by split.
Defined.

(** the parameters of a request are untagged, and a
    decoder that only needs the client reads them as throttle parameters before
    the client and block variants are tried.  So a request reads back unchanged
    exactly for [top] and [throttle] parameters; the parameters of [block],
    [unblock] and [unthrottle] always read back as throttle parameters, and no
    request whose parameters are a JSON object is ever read as a block. *)
Theorem request_params_decoded :
  (∀ k p, (∀ q, p = Some q → params_ok q) →
     of_json (to_json (mkRequest k p)) = Some (mkRequest k (read_as <$> p)))
  ∧ (∀ p, params_ok p → (read_as p = p ↔ match p with PTop _ | PThrottle _ => True | _ => False end))
  ∧ (∀ fs r p, of_json (JObj fs) = Some r → rq_params r = Some (PBlock p) →
       ∃ l, assoc (lit "params") fs = Some (JArr l)).
Proof.
  split_and!; [apply request_read_as| |apply block_needs_array].
  by intros [p|p|p|p] _.
Qed.
