(* ===== verification/Store.v ===== *)
(** Persistence: the store traits ([crates/mw-core/src/store.rs]) as classes with
    the laws their clients rely on, the in-memory store
    ([crates/mw-store/src/memory.rs]), the Redis store
    ([crates/mw-store/src/redis_store.rs]) over a Redis connection that is a
    parameter, and the wiring of the daemon ([crates/microwaf/src/store.rs]). *)

From S2P Require Import Prelude Text Client Rule Window Policy Counters Enforcer Config State Json.

(** ** Data *)
Record RuleWindowSnapshot := mkWinSnap {
  ws_rule_id : str;
  ws_metric : Metric;
  ws_buckets : list Z;
  ws_cursor : Z;
  ws_last_advance_unix_secs : Z
}.
Record StoredClientStats := mkStoredStats {
  cumulative : CumulativeCounters;
  ss_windows : list RuleWindowSnapshot;
  updated_unix_secs : Z
}.
Record StoreError := Backend { backend_msg : str }.

Definition SCHEMA_VERSION : Z := 1.

(** *** Their JSON forms *)
#[export] Instance stored_ser : Serialize StoredManualPolicy := λ p,
  obj [(lit "throttle", out_opt_int (st_throttle p)); (lit "blocked", out (st_blocked p));
       (lit "untilUnixSecs", out_opt_int (st_until_unix_secs p))].
#[export] Instance stored_de : Deserialize StoredManualPolicy := λ j,
  match struct_of [lit "throttle"; lit "blocked"; lit "untilUnixSecs"] j with
  | Some [t; b; u] =>
      t ← opt_int U8_MAX t; b ← dflt false b; u ← opt_int U64_MAX u; Some (mkStored t b u)
  | _ => None
  end.

#[export] Instance metric_ser : Serialize Metric := λ m, JStr (metric_as_str m).
#[export] Instance metric_de : Deserialize Metric := λ j,
  match j with
  | JStr s | JObj [(s, JNull)] =>
      head (filter (λ m, metric_as_str m = s) [Requests; Bytes; Connections])
  | _ => None
  end.

#[export] Instance cum_ser : Serialize CumulativeCounters := λ c,
  obj [(lit "requests", out_int (requests c)); (lit "bytes", out_int (bytes c));
       (lit "connections", out_int (connections c)); (lit "wsConnections", out_int (ws_connections c))].
#[export] Instance cum_de : Deserialize CumulativeCounters := λ j,
  match struct_of [lit "requests"; lit "bytes"; lit "connections"; lit "wsConnections"] j with
  | Some [r; b; c; w] =>
      r ← req_int U64_MAX r; b ← req_int U64_MAX b; c ← req_int U64_MAX c;
      w ← req_int U64_MAX w; Some (mkCum r b c w)
  | _ => None
  end.

#[export] Instance win_snap_ser : Serialize RuleWindowSnapshot := λ w,
  obj [(lit "ruleId", out (ws_rule_id w)); (lit "metric", out (ws_metric w));
       (lit "buckets", Some (ints_to (ws_buckets w))); (lit "cursor", out_int (ws_cursor w));
       (lit "lastAdvanceUnixSecs", out_int (ws_last_advance_unix_secs w))].
#[export] Instance win_snap_de : Deserialize RuleWindowSnapshot := λ j,
  match struct_of [lit "ruleId"; lit "metric"; lit "buckets"; lit "cursor";
                   lit "lastAdvanceUnixSecs"] j with
  | Some [r; m; b; c; l] =>
      r ← req r; m ← req m; b ← b ≫= ints_of U64_MAX; c ← req_int U64_MAX c;
      l ← req_int U64_MAX l; Some (mkWinSnap r m b c l)
  | _ => None
  end.

#[export] Instance stored_stats_ser : Serialize StoredClientStats := λ s,
  obj [(lit "cumulative", out (cumulative s)); (lit "windows", out (ss_windows s));
       (lit "updatedUnixSecs", out_int (updated_unix_secs s))].
#[export] Instance stored_stats_de : Deserialize StoredClientStats := λ j,
  match struct_of [lit "cumulative"; lit "windows"; lit "updatedUnixSecs"] j with
  | Some [c; w; u] =>
      c ← req c; w ← dflt [] w; u ← req_int U64_MAX u; Some (mkStoredStats c w u)
  | _ => None
  end.

Definition stored_ok (p : StoredManualPolicy) : Prop :=
  (∀ t, st_throttle p = Some t → byte_ok t) ∧ (∀ u, st_until_unix_secs p = Some u → u64_ok u).

(** ** The traits

    A store is a state; an operation may fail after any prefix of its effect. *)
Class ManualPolicyStore (S : Type) := {
  load_all : S → S * result (list (ClientId * StoredManualPolicy)) StoreError;
  put : Z → S → ClientId → StoredManualPolicy → S * result unit StoreError;
  remove : S → ClientId → S * result unit StoreError
}.

Class ClientStatsStore (S : Type) := {
  stats_load_all : S → S * result (list (ClientId * StoredClientStats)) StoreError;
  put_batch : S → list (ClientId * StoredClientStats) → S * result unit StoreError
}.

(** Policies with an expiry may lapse while they are stored, the others stay. *)
Definition lapse (m m' : gmap ClientId StoredManualPolicy) : Prop :=
  m' ⊆ m ∧ ∀ c p, m !! c = Some p → st_until_unix_secs p = None → m' !! c = Some p.

(** What a policy store promises: it holds a finite map ([store_rel]), which a
    successful operation updates; a failed operation has happened or not; and a
    successful load is a snapshot of the map at one moment. *)
Class ManualStoreLaws (S : Type) `{ManualPolicyStore S} := {
  store_rel : S → gmap ClientId StoredManualPolicy → Prop;
  put_spec : ∀ now s m c p s' r,
    store_rel s m → client_ok c → stored_ok p → put now s c p = (s', r) →
    ∃ m0, lapse m m0 ∧ (store_rel s' (<[c := p]> m0) ∨ (store_rel s' m0 ∧ r ≠ Ok tt));
  remove_spec : ∀ s m c s' r, store_rel s m → client_ok c → remove s c = (s', r) →
    ∃ m0, lapse m m0 ∧ (store_rel s' (delete c m0) ∨ (store_rel s' m0 ∧ r ≠ Ok tt));
  load_spec : ∀ s m s' r, store_rel s m → load_all s = (s', r) →
    ∃ m0 m1, lapse m m0 ∧ lapse m0 m1 ∧ store_rel s' m1
      ∧ (∀ l, r = Ok l → l ≡ₚ map_to_list m0);
  store_rel_ok : ∀ s m, store_rel s m → keys_ok m ∧ map_Forall (λ _, stored_ok) m
}.

(** ** The in-memory store *)
Section memory.
Context `{HI : HashIter}.

Record MemoryStore := mkMemory {
  mem_policies : gmap str StoredManualPolicy;
  mem_stats : gmap str StoredClientStats
}.
Definition memory0 : MemoryStore := mkMemory ∅ ∅.

Definition mem_ref_error (e : ClientRefParseError) : StoreError := Backend (show_ref_error e).

(** The loop of both [load_all]s. *)
Fixpoint mem_load {A} (kvs : list (str * A)) : result (list (ClientId * A)) StoreError :=
  match kvs with
  | [] => Ok []
  | (k, v) :: kvs' =>
      (let? client := map_err mem_ref_error (client_from_str k) in
       let? out := mem_load kvs' in
       Ok ((client, v) :: out))%mwaf
  end.

#[export] Instance memory_policies : ManualPolicyStore MemoryStore := {
  load_all s := (s, mem_load (hiter (mem_policies s)));
  put _ s c p := (mkMemory (<[storage_key c := p]> (mem_policies s)) (mem_stats s), Ok tt);
  remove s c := (mkMemory (delete (storage_key c) (mem_policies s)) (mem_stats s), Ok tt)
}.

#[export] Instance memory_stats : ClientStatsStore MemoryStore := {
  stats_load_all s := (s, mem_load (hiter (mem_stats s)));
  put_batch s stats :=
    (mkMemory (mem_policies s)
       (foldl (λ m cs, <[storage_key cs.1 := cs.2]> m) (mem_stats s) stats), Ok tt)
}.
End memory.

(** ** The Redis store *)

(** The commands of the [redis] crate that the store uses.  [Conn] is the
    connection together with the server behind it; every command may fail. *)
Class Redis := {
  Conn : Type;
  redis_open : str → result Conn str;
  redis_get : Conn → str → Conn * result (option str) str;
  redis_set : Conn → str → str → Conn * result unit str;
  redis_set_ex : Conn → str → str → Z → Conn * result unit str;
  redis_del : Conn → list str → Conn * result unit str;
  redis_keys : Conn → str → Conn * result (list str) str
}.

(** A computation on the connection that may fail. *)
Abbreviation RedisM := (SE Conn StoreError).

Section redis.
Context `{RD : Redis} `{JT : JsonText}.

(** A command, its error turned into a [StoreError]. *)
Definition cmd {A} (f : Conn → Conn * result A str) : RedisM A := λ c,
  let '(c', r) := f c in (c', map_err Backend r).

Definition fail {A} (msg : str) : RedisM A := λ c, (c, Err (Backend msg)).

Definition KEY_SCHEMA : str := lit "microwaf:schema_version".
Definition PREFIX_POLICY : str := lit "microwaf:policy:manual:".
Definition PREFIX_STATS : str := lit "microwaf:stats:".
Definition ALL_KEYS : str := lit "microwaf:".
Definition glob (prefix : str) : str := prefix ++ [42].

Definition stamp_schema : RedisM () :=
  cmd (λ c, redis_set c KEY_SCHEMA (show_dec SCHEMA_VERSION)).

Definition ensure_schema : RedisM () :=
  current ← cmd (λ c, redis_get c KEY_SCHEMA);
  match current with
  | None => stamp_schema
  | Some v =>
      let parsed := default 0 (from_str_radix 10 4294967295 v) in
      if decide (parsed = SCHEMA_VERSION) then mret ()
      else
        keys ← cmd (λ c, redis_keys c (glob ALL_KEYS));
        _ ← (if is_empty keys then mret () else cmd (λ c, redis_del c keys));
        stamp_schema
  end.

Definition policy_key (c : ClientId) : str := PREFIX_POLICY ++ storage_key c.
Definition stats_key (c : ClientId) : str := PREFIX_STATS ++ storage_key c.

Definition parse_client_from_key (key prefix : str) : result ClientId StoreError :=
  (let? rest := ok_or (Backend (lit "bad key " ++ key)) (strip_prefix prefix key) in
   map_err (λ e, Backend (show_ref_error e)) (client_from_str rest))%mwaf.

(** [conn.get] typed as [String]: a missing key is a type error. *)
Definition get_string (key : str) : RedisM str :=
  v ← cmd (λ c, redis_get c key);
  match v with
  | Some s => mret s
  | None => fail (lit "Response type not string compatible")
  end.

(** [serde_json::to_string] and [serde_json::from_str]. *)
Definition to_string {A} `{Serialize A} (a : A) : result str StoreError :=
  map_err Backend (json_print (to_json a)).
Definition from_string {A} `{Deserialize A} (s : str) : result A StoreError :=
  (let? j := map_err Backend (json_parse s) in
   ok_or (Backend (lit "invalid value")) (of_json j))%mwaf.

Fixpoint load_keys {A} `{Deserialize A} (prefix : str) (keys : list str) :
    RedisM (list (ClientId * A)) :=
  match keys with
  | [] => mret []
  | key :: keys' =>
      raw ← get_string key;
      a ← se_lift (from_string raw);
      client ← se_lift (parse_client_from_key key prefix);
      out ← load_keys prefix keys';
      mret ((client, a) :: out)
  end.

(** The body of both [load_all]s. *)
Definition load_prefix {A} `{Deserialize A} (prefix : str) : RedisM (list (ClientId * A)) :=
  keys ← cmd (λ c, redis_keys c (glob prefix));
  load_keys prefix keys.

Definition redis_put (now_sys : Z) (client : ClientId) (policy : StoredManualPolicy) : RedisM () :=
  raw ← se_lift (to_string policy);
  let key := policy_key client in
  match st_until_unix_secs policy with
  | Some secs =>
      let now := as_secs (Z.max 0 now_sys) in
      let ttl := Z.max (sat_sub secs now) 1 in
      cmd (λ c, redis_set_ex c key raw ttl)
  | None => cmd (λ c, redis_set c key raw)
  end.

Definition redis_remove (client : ClientId) : RedisM () :=
  cmd (λ c, redis_del c [policy_key client]).

Fixpoint redis_put_batch (stats : list (ClientId * StoredClientStats)) : RedisM () :=
  match stats with
  | [] => mret ()
  | (client, s) :: stats' =>
      raw ← se_lift (to_string s);
      _ ← cmd (λ c, redis_set c (stats_key client) raw);
      redis_put_batch stats'
  end.

Record RedisStore := mkRedis { conn : Conn }.

(** A computation run on the store's connection. *)
Definition with_conn {A} (m : RedisM A) (s : RedisStore) : RedisStore * result A StoreError :=
  let '(c, r) := m (conn s) in (mkRedis c, r).

(** [RedisStore::connect]. *)
Definition redis_connect (url : str) : result RedisStore StoreError :=
  (let? c := map_err Backend (redis_open url) in
   match ensure_schema c with
   | (c', Ok _) => Ok (mkRedis c')
   | (_, Err e) => Err e
   end)%mwaf.

#[export] Instance redis_policies : ManualPolicyStore RedisStore := {
  load_all s := with_conn (load_prefix PREFIX_POLICY) s;
  put now_sys s c p := with_conn (redis_put now_sys c p) s;
  remove s c := with_conn (redis_remove c) s
}.

#[export] Instance redis_stats : ClientStatsStore RedisStore := {
  stats_load_all s := with_conn (load_prefix PREFIX_STATS) s;
  put_batch s stats := with_conn (redis_put_batch stats) s
}.
End redis.

(** ** The daemon's backend and its wiring *)
Section daemon.
Context `{HI : HashIter} `{RD : Redis} `{JT : JsonText} `{CEL : CelEngine} {E : Type}.

(** [StoreBackend] of [crates/microwaf/src/cli/daemon.rs]. *)
Inductive StoreBackend := SRedis (s : RedisStore) | SMemory (s : MemoryStore).

Definition on_redis {A} (p : RedisStore * A) : StoreBackend * A := (SRedis p.1, p.2).
Definition on_memory {A} (p : MemoryStore * A) : StoreBackend * A := (SMemory p.1, p.2).

#[export] Instance as_manual : ManualPolicyStore StoreBackend := {
  load_all b :=
    match b with
    | SRedis s => on_redis (load_all s)
    | SMemory s => on_memory (load_all s)
    end;
  put now_sys b c p :=
    match b with
    | SRedis s => on_redis (put now_sys s c p)
    | SMemory s => on_memory (put now_sys s c p)
    end;
  remove b c :=
    match b with
    | SRedis s => on_redis (remove s c)
    | SMemory s => on_memory (remove s c)
    end
}.

#[export] Instance as_stats : ClientStatsStore StoreBackend := {
  stats_load_all b :=
    match b with
    | SRedis s => on_redis (stats_load_all s)
    | SMemory s => on_memory (stats_load_all s)
    end;
  put_batch b stats :=
    match b with
    | SRedis s => on_redis (put_batch s stats)
    | SMemory s => on_memory (put_batch s stats)
    end
}.

(** [hydrate]; [sys c] is the wall clock at the conversion of [c]'s policy. *)
Definition hydrate_step (now : Z) (sys : ClientId → Z) (s : DaemonState E)
    (p : ClientId * StoredManualPolicy) : option (DaemonState E) :=
  m ← to_runtime p.2 now (sys p.1);
  Some (with_policies s (<[p.1 := mkPolicy (Some m) None]> (policies s))).

Definition hydrate {S} `{ManualPolicyStore S} (now : Z) (sys : ClientId → Z)
    (s : DaemonState E) (store : S) : option (DaemonState E * S * result () StoreError) :=
  match load_all store with
  | (store', Err e) => Some (s, store', Err e)
  | (store', Ok policies) =>
      s' ← opt_fold (hydrate_step now sys) policies s;
      Some (s', store', Ok tt)
  end.

Definition persist_manual {S} `{ManualPolicyStore S} (now_sys : Z) (store : S) (client : ClientId)
    (policy : option StoredManualPolicy) : S * result () StoreError :=
  match policy with
  | Some p => put now_sys store client p
  | None => remove store client
  end.

Definition stats_batch (now_sys : Z) (clients : list (ClientId * CumulativeCounters)) :
    list (ClientId * StoredClientStats) :=
  (λ p, (p.1, mkStoredStats p.2 [] (as_secs (Z.max 0 now_sys)))) <$> clients.

Definition snapshot_stats {S} `{ClientStatsStore S} (now_sys : Z) (s : DaemonState E) (store : S) :
    S * result () StoreError :=
  let clients := hiter (snapshot_clients (counters s)) in
  let batch := stats_batch now_sys clients in
  if is_empty batch then (store, Ok tt) else put_batch store batch.

(** The choice of the backend in [daemon::run]: Redis when it answers, after
    hydration; otherwise an empty memory store. *)
Definition open_store (url : str) (now : Z) (sys : ClientId → Z) (s : DaemonState E) :
    option (result (DaemonState E * StoreBackend) StoreError) :=
  match redis_connect url with
  | Ok store =>
      '(s', store', r) ← hydrate now sys s store;
      Some (let? _ := r in Ok (s', SRedis store'))%mwaf
  | Err _ => Some (Ok (s, SMemory memory0))
  end.
End daemon.

(** ** What Redis promises

    [db] is the content of the server: the value of each key and whether it has
    an expiry.  Expiring keys may be gone at every command; a command that
    reports an error has been executed or not.  [KEYS] is used with a literal
    prefix followed by [*]. *)
Definition expire (d d' : gmap str (str * bool)) : Prop :=
  d' ⊆ d ∧ ∀ k v, d !! k = Some (v, false) → d' !! k = Some (v, false).

Definition glob_free (p : str) : bool :=
  forallb (λ c, bool_decide (c ∉ [42; 63; 91; 92; 93; 94])) p.

Class RedisLaws `{Redis} := {
  db : Conn → gmap str (str * bool);
  redis_get_db : ∀ c k c' r, redis_get c k = (c', r) →
    expire (db c) (db c') ∧ (∀ v, r = Ok v → v = fst <$> db c' !! k);
  redis_set_db : ∀ c k v c' r, redis_set c k v = (c', r) →
    ∃ d, expire (db c) d ∧ (db c' = <[k := (v, false)]> d ∨ (db c' = d ∧ r ≠ Ok tt));
  redis_set_ex_db : ∀ c k v ttl c' r, 0 < ttl → redis_set_ex c k v ttl = (c', r) →
    ∃ d, expire (db c) d ∧ (db c' = <[k := (v, true)]> d ∨ (db c' = d ∧ r ≠ Ok tt));
  redis_del_db : ∀ c ks c' r, redis_del c ks = (c', r) →
    ∃ d, expire (db c) d ∧ (db c' = foldr delete d ks ∨ (db c' = d ∧ r ≠ Ok tt));
  redis_keys_db : ∀ c p c' r, glob_free p = true → redis_keys c (glob p) = (c', r) →
    expire (db c) (db c') ∧
    (∀ ks, r = Ok ks → NoDup ks
       ∧ ∀ k, k ∈ ks ↔ starts_with p k = true ∧ is_Some (db c' !! k))
}.

(** ** Lemmas *)
#[export] Instance expire_po : PreOrder expire.
Proof.
  split; [by split|]. intros d1 d2 d3 [H1 H1'] [H2 H2']. split; [by etransitivity|]. eauto.
Qed.
#[export] Instance lapse_po : PreOrder lapse.
Proof.
  split; [by split|]. intros d1 d2 d3 [H1 H1'] [H2 H2']. split; [by etransitivity|]. eauto.
Qed.

#[export] Instance stored_rt : RoundTrip StoredManualPolicy.
Proof.
  refine {| wf := stored_ok |}; [|done]. intros [t b u] [Ht Hu].
  unfold of_json, to_json, stored_de, stored_ser.
  erewrite struct_of_obj_names; [|reflexivity|vm_compute; reflexivity].
  cbn [fmap list_fmap snd st_throttle st_blocked st_until_unix_secs].
  rewrite !opt_int_out by done. cbn [mbind option_bind]. by rewrite dflt_out.
Defined.

Lemma stored_json_ok p : stored_ok p → json_ok RECURSION_LIMIT (to_json p) = true.
Proof.
  intros [Ht Hu]. apply json_ok_obj; [vm_compute; reflexivity|].
  cbn [forallb snd]. rewrite andb_true_r. apply andb_true_intro. split.
  - destruct (st_throttle p) as [t|]; [|done]. apply json_ok_int.
    specialize (Ht _ eq_refl). unfold byte_ok, U8_MAX, I64_MAX, U64_MAX in *. lia.
  - destruct (st_until_unix_secs p) as [u|]; [|done]. apply json_ok_int.
    specialize (Hu _ eq_refl). unfold u64_ok, I64_MAX, U64_MAX in *. lia.
Qed.

Lemma storage_key_inj c c' :
  client_ok c → client_ok c' → storage_key c = storage_key c' → c = c'.
Proof.
  intros Hc Hc' E. pose proof (client_round_trip c Hc) as H.
  rewrite E, (client_round_trip c' Hc') in H. congruence.
Qed.

(** *** Maps keyed by the text of a client

    [keyed]: the part of [d] whose keys are [owned] is the map [m], keys and
    values encoded. *)
Section keyed.
Context {A V : Type} (key : ClientId → str) (enc : A → V) (owned : str → Prop).
Context (key_inj : ∀ c c', client_ok c → client_ok c' → key c = key c' → c = c').
Context (key_owned : ∀ c, owned (key c)).

Definition keyed (d : gmap str V) (m : gmap ClientId A) : Prop :=
  keys_ok m
  ∧ (∀ c, client_ok c → d !! key c = enc <$> m !! c)
  ∧ (∀ k, owned k → is_Some (d !! k) → ∃ c, client_ok c ∧ k = key c).

Lemma keyed_insert d m c a :
  keyed d m → client_ok c → keyed (<[key c := enc a]> d) (<[c := a]> m).
Proof.
  intros (Hk & Hl & Ho) Hc. split_and!.
  - by apply map_Forall_insert_2.
  - intros c' Hc'. destruct (decide (c' = c)) as [->|Hne]; [by rewrite !lookup_insert_eq|].
    rewrite !lookup_insert_ne by (done || intros E; apply key_inj in E; congruence). by apply Hl.
  - intros k Hok [v [[<- _]|[_ Hv]]%lookup_insert_Some]; eauto.
Qed.

Lemma keyed_delete d m c :
  keyed d m → client_ok c → keyed (delete (key c) d) (delete c m).
Proof.
  intros (Hk & Hl & Ho) Hc. split_and!.
  - by apply map_Forall_delete.
  - intros c' Hc'. destruct (decide (c' = c)) as [->|Hne]; [by rewrite !lookup_delete_eq|].
    rewrite !lookup_delete_ne by (done || intros E; apply key_inj in E; congruence). by apply Hl.
  - intros k Hok [v [_ Hv]%lookup_delete_Some]. eauto.
Qed.

(** The owned keys are those of the map. *)
Lemma keyed_keys d m ks :
  keyed d m → NoDup ks → (∀ k, k ∈ ks ↔ owned k ∧ is_Some (d !! k)) →
  ∃ l, ks = map (λ p, key p.1) l ∧ l ≡ₚ map_to_list m.
Proof.
  intros (Hk & Hl & Ho) Hnd Hks.
  destruct (Permutation_map_inv (λ p, key p.1) (map_to_list m) (l1 := ks)) as (l & -> & Hp).
  - apply NoDup_Permutation; [done| |].
    + apply (NoDup_fmap_2_strong (λ p, key p.1)); [|apply NoDup_map_to_list].
      intros [c a] [c' a'] H1%elem_of_map_to_list H2%elem_of_map_to_list E. cbn in E.
      apply key_inj in E; [|by eapply Hk..]. subst c'. congruence.
    + intros k. rewrite Hks. split.
      * intros [Hok Hv]. destruct (Ho k Hok Hv) as (c & Hc & ->). rewrite (Hl c Hc) in Hv.
        apply fmap_is_Some in Hv as [a Ha].
        apply (list_elem_of_fmap_2 (λ p, key p.1) _ (c, a)). by apply elem_of_map_to_list.
      * intros ([c a] & -> & Hin%elem_of_map_to_list)%list_elem_of_fmap. cbn. split; [done|].
        rewrite Hl by (by eapply Hk). rewrite Hin. by eexists.
  - exists l. by split.
Qed.

Lemma keyed_lookup d m c a : keyed d m → m !! c = Some a → client_ok c ∧ d !! key c = Some (enc a).
Proof.
  intros (Hk & Hl & _) Hc. pose proof (Hk _ _ Hc) as Hok. split; [done|]. by rewrite Hl, Hc.
Qed.

Lemma keyed_empty : keyed ∅ ∅.
Proof.
  split_and!; [apply map_Forall_empty| |].
  - intros c _. by rewrite !lookup_empty.
  - intros k _ [v Hv]. by rewrite lookup_empty in Hv.
Qed.

(** Losing entries of the text map loses the same entries of the client map. *)
Lemma keyed_subseteq d d' m :
  keyed d m → d' ⊆ d →
  ∃ m', m' ⊆ m ∧ keyed d' m' ∧ (∀ c a, m !! c = Some a → d' !! key c = d !! key c → m' !! c = Some a).
Proof.
  intros (Hk & Hl & Ho) Hsub. exists (filter (λ p, is_Some (d' !! key p.1)) m). split_and!.
  - apply map_filter_subseteq.
  - split_and!.
    + intros c a [Ha _]%map_lookup_filter_Some. by eapply Hk.
    + intros c Hc. destruct (d' !! key c) as [v|] eqn:Hv.
      * pose proof (lookup_weaken _ _ _ _ Hv Hsub) as Hv'. rewrite (Hl c Hc) in Hv'.
        apply fmap_Some in Hv' as (a & Ha & ->).
        replace (filter _ m !! c) with (Some a); [done|]. symmetry.
        apply map_lookup_filter_Some. split; [done|]. cbn. by eexists.
      * replace (filter _ m !! c) with (@None A); [done|]. symmetry.
        apply map_lookup_filter_None. right. intros a _ [v H]. cbn in H. congruence.
    + intros k Hok [v Hv]. apply (Ho k Hok). exists v. by eapply lookup_weaken.
  - intros c a Ha E. apply map_lookup_filter_Some. split; [done|]. cbn. rewrite E, Hl, Ha.
    + by eexists.
    + by eapply Hk.
Qed.
End keyed.

(** *** The in-memory store keeps its promise *)
Section memory_laws.
Context `{HI : HashIter}.

Definition mem_keyed {A} : gmap str A → gmap ClientId A → Prop :=
  keyed storage_key id (λ _, True).

Lemma mem_load_keys {A} (l : list (ClientId * A)) :
  Forall (λ p, client_ok p.1) l →
  mem_load ((λ p, (storage_key p.1, p.2)) <$> l) = Ok l.
Proof.
  induction 1 as [|[c a] l Hc _ IH]; csimpl; [done|]. cbn [mem_load fst snd].
  by rewrite client_round_trip, IH.
Qed.

Lemma mem_load_spec {A} (d : gmap str A) m :
  mem_keyed d m → ∃ l, mem_load (hiter d) = Ok l ∧ l ≡ₚ map_to_list m.
Proof.
  intros Hd.
  destruct (keyed_keys storage_key id (λ _, True) storage_key_inj (λ _, I) d m (hiter d).*1)
    as (l & Hl & Hp); [done|apply hiter_NoDup| |].
  { intros k. rewrite list_elem_of_fmap. split.
    - intros ([k' v] & -> & Hv%hiter_elem). by split; [|eexists].
    - intros [_ [v Hv]]. exists (k, v). by rewrite hiter_elem. }
  exists l. split; [|done]. rewrite <- mem_load_keys.
  - f_equal. apply list_eq_same_length with (length l); [by rewrite length_fmap| |].
    + apply (f_equal length) in Hl. by rewrite length_fmap, length_map in Hl.
    + intros i [k v] [k' v'] _ H1 H2. apply list_lookup_fmap_Some in H2 as ([c a] & E & Hi).
      cbn in E. injection E as -> ->.
      assert (Hk : (hiter d).*1 !! i = Some k) by (by rewrite list_lookup_fmap, H1).
      rewrite Hl in Hk. apply list_lookup_fmap_Some in Hk as (p & -> & Hi').
      rewrite Hi in Hi'. injection Hi' as <-. cbn. f_equal.
      assert (m !! c = Some a) as Hc.
      { apply elem_of_map_to_list. rewrite <- Hp. by eapply list_elem_of_lookup_2. }
      apply (keyed_lookup storage_key id (λ _, True) d) in Hc as [_ Hc]; [|done].
      apply list_elem_of_lookup_2, hiter_elem in H1. cbn in H1. rewrite Hc in H1. by injection H1.
  - apply Forall_forall. intros [c a] Hin. rewrite Hp in Hin. apply elem_of_map_to_list in Hin.
    by eapply (proj1 Hd).
Qed.

#[export] Instance memory_laws : ManualStoreLaws MemoryStore.
Proof.
  refine {| store_rel s m := mem_keyed (mem_policies s) m ∧ map_Forall (λ _, stored_ok) m |}.
  - intros now s m c p s' r [Hm Hok] Hc Hp [= <- <-]. exists m. split; [done|]. left. split.
    + by apply (keyed_insert storage_key id (λ _, True) storage_key_inj).
    + by apply map_Forall_insert_2.
  - intros s m c s' r [Hm Hok] Hc [= <- <-]. exists m. split; [done|]. left. split.
    + by apply (keyed_delete storage_key id (λ _, True) storage_key_inj).
    + by apply map_Forall_delete.
  - intros s m s' r [Hm Hok] [= <- <-]. exists m, m. split_and!; try done.
    intros l Hl. destruct (mem_load_spec _ _ Hm) as (l' & E & Hp). congruence.
  - intros s m [Hm Hok]. split; [by apply Hm|done].
Defined.

Lemma memory0_rel : store_rel memory0 ∅.
Proof. split; [apply keyed_empty|apply map_Forall_empty]. Qed.
End memory_laws.

(** *** The Redis store keeps its promise *)
Section redis_laws.
Context `{RD : Redis} `{!RedisLaws} `{JT : JsonText} `{!JsonTextLaws}.

(** The text stored for a policy. *)
Definition policy_text (p : StoredManualPolicy) : str :=
  match to_string p with
  | Ok s => s
  | Err _ => []
  end.
Definition policy_entry (p : StoredManualPolicy) : str * bool :=
  (policy_text p, bool_decide (is_Some (st_until_unix_secs p))).
Definition policy_owned (k : str) : Prop := starts_with PREFIX_POLICY k = true.

Definition redis_rel (d : gmap str (str * bool)) (m : gmap ClientId StoredManualPolicy) : Prop :=
  keyed policy_key policy_entry policy_owned d m ∧ map_Forall (λ _, stored_ok) m.

Lemma policy_key_inj c c' : client_ok c → client_ok c' → policy_key c = policy_key c' → c = c'.
Proof. intros ?? E. apply storage_key_inj; [done..|]. by apply (app_inv_head PREFIX_POLICY). Qed.

Lemma policy_key_owned c : policy_owned (policy_key c).
Proof. apply starts_with_app. Qed.

Lemma policy_text_spec p : stored_ok p →
  to_string p = Ok (policy_text p) ∧ from_string (policy_text p) = Ok p.
Proof.
  intros Hp. destruct (json_text_round_trip _ (stored_json_ok p Hp)) as (s & H1 & H2).
  unfold policy_text, to_string, from_string. rewrite H1. cbn [map_err]. split; [done|].
  rewrite H2. cbn [map_err res_bind]. by rewrite of_to_json by exact Hp.
Qed.

Lemma redis_rel_expire d d' m :
  redis_rel d m → expire d d' → ∃ m', lapse m m' ∧ redis_rel d' m'.
Proof.
  intros [Hm Hok] [Hsub Hperm].
  destruct (keyed_subseteq policy_key policy_entry policy_owned d d' m Hm Hsub)
    as (m' & Hs & Hm' & Hkeep).
  exists m'. split; [|split; [done|]].
  - split; [done|]. intros c p Hc Hu. apply Hkeep; [done|].
    destruct (keyed_lookup _ _ _ _ _ _ _ Hm Hc) as [_ E]. rewrite E.
    assert (policy_entry p = (policy_text p, false)) as Hpe.
    { unfold policy_entry. by rewrite Hu, bool_decide_eq_false_2 by (intros [? [=]]). }
    rewrite Hpe in *. by apply Hperm.
  - intros c p Hc. eapply Hok. by eapply lookup_weaken.
Qed.

Lemma redis_rel_insert d m c p :
  redis_rel d m → client_ok c → stored_ok p →
  redis_rel (<[policy_key c := policy_entry p]> d) (<[c := p]> m).
Proof.
  intros [Hm Hok] Hc Hp. split; [|by apply map_Forall_insert_2].
  by apply (keyed_insert _ _ _ policy_key_inj).
Qed.

Lemma redis_rel_delete d m c :
  redis_rel d m → client_ok c → redis_rel (delete (policy_key c) d) (delete c m).
Proof.
  intros [Hm Hok] Hc. split; [|by apply map_Forall_delete].
  by apply (keyed_delete _ _ _ policy_key_inj).
Qed.

(** A key that is not a policy key does not matter. *)
Lemma redis_rel_other d m k v : redis_rel d m → ¬ policy_owned k → redis_rel (<[k := v]> d) m.
Proof.
  intros [(Hk & Hl & Ho) Hok] Hno. split; [|done]. split_and!; [done| |].
  - intros c Hc. rewrite lookup_insert_ne; [by apply Hl|]. intros ->. by destruct Hno, (policy_key_owned c).
  - intros k' Hk' [x [[<- _]|[_ Hx]]%lookup_insert_Some]; [done|]. eauto.
Qed.

(** A command of the store as a step on the client map. *)
Lemma redis_put_spec now m c p s s' r :
  redis_rel (db s) m → client_ok c → stored_ok p → redis_put now c p s = (s', r) →
  ∃ m0, lapse m m0 ∧ (redis_rel (db s') (<[c := p]> m0) ∨ (redis_rel (db s') m0 ∧ r ≠ Ok tt)).
Proof.
  intros Hm Hc Hp. destruct (policy_text_spec p Hp) as [Ht _].
  unfold redis_put. rewrite Ht, se_lift_bind. unfold cmd.
  pose proof (redis_rel_insert) as Hins.
  assert (∀ d b x, expire (db s) d → b = bool_decide (is_Some (st_until_unix_secs p)) →
    (db s' = <[policy_key c := (policy_text p, b)]> d ∨ (db s' = d ∧ x ≠ Ok tt)) →
    r = map_err Backend x →
    ∃ m0, lapse m m0 ∧ (redis_rel (db s') (<[c := p]> m0) ∨ (redis_rel (db s') m0 ∧ r ≠ Ok tt))) as K.
  { intros d b x Hd -> Hdb ->. destruct (redis_rel_expire _ _ _ Hm Hd) as (m0 & Hl & Hm0).
    exists m0. split; [done|]. destruct Hdb as [->|[-> Hx]]; [left; by apply Hins|right].
    split; [done|]. destruct x as [[]|]; done. }
  destruct (st_until_unix_secs p) as [u|] eqn:Hu.
  - destruct (redis_set_ex s _ _ _) as [s1 x] eqn:Hx. intros [= <- <-].
    apply redis_set_ex_db in Hx as (d & Hd & Hdb); [|lia]. by eapply K.
  - destruct (redis_set s _ _) as [s1 x] eqn:Hx. intros [= <- <-].
    apply redis_set_db in Hx as (d & Hd & Hdb). by eapply K.
Qed.

Lemma redis_remove_spec m c s s' r :
  redis_rel (db s) m → client_ok c → redis_remove c s = (s', r) →
  ∃ m0, lapse m m0 ∧ (redis_rel (db s') (delete c m0) ∨ (redis_rel (db s') m0 ∧ r ≠ Ok tt)).
Proof.
  intros Hm Hc. unfold redis_remove, cmd. destruct (redis_del s _) as [s1 x] eqn:Hx.
  intros [= <- <-]. apply redis_del_db in Hx as (d & Hd & Hdb).
  destruct (redis_rel_expire _ _ _ Hm Hd) as (m0 & Hl & Hm0).
  exists m0. split; [done|]. destruct Hdb as [->|[-> Hx]]; [left; by apply redis_rel_delete|right].
  split; [done|]. destruct x as [[]|]; done.
Qed.

Lemma get_string_spec key s s' r :
  get_string key s = (s', r) →
  expire (db s) (db s') ∧ (∀ v, r = Ok v → ∃ b, db s' !! key = Some (v, b)).
Proof.
  unfold get_string. rewrite se_bind_run. unfold cmd.
  destruct (redis_get s key) as [s1 x] eqn:Hx. apply redis_get_db in Hx as [He Hv].
  destruct x as [o|e]; cbn [map_err]; [specialize (Hv _ eq_refl); destruct o as [v|]|];
    intros [= <- <-]; (split; [done|]); try done. intros ? [= <-].
  destruct (db s1 !! key) as [[v' b]|]; [|done]. injection Hv as ->. by exists b.
Qed.

Lemma parse_policy_key c : client_ok c → parse_client_from_key (policy_key c) PREFIX_POLICY = Ok c.
Proof.
  intros Hc. unfold parse_client_from_key, policy_key. rewrite strip_prefix_app. cbn [ok_or res_bind].
  by rewrite client_round_trip by done.
Qed.

(** Reading the keys back one by one: a key that expires meanwhile is an error. *)
Lemma load_keys_spec d0 m0 l s s' r :
  redis_rel d0 m0 → expire d0 (db s) → Forall (λ p, m0 !! p.1 = Some p.2) l →
  load_keys PREFIX_POLICY (map (λ p, policy_key p.1) l) s = (s', r) →
  expire (db s) (db s') ∧ (∀ l', r = Ok l' → l' = l).
Proof.
  intros Hm. revert s s' r. induction l as [|[c a] l IH]; intros s s' r Hd Hl.
  { intros [= <- <-]. split; [done|]. by intros l' [= <-]. }
  apply Forall_cons in Hl as [Hc Hl]. cbn in Hc. cbn [map load_keys fst]. rewrite se_bind_run.
  destruct (get_string (policy_key c) s) as [s1 [v|e]] eqn:Hx; apply get_string_spec in Hx as [He Hv].
  2: { intros [= <- <-]. by split. }
  destruct (Hv v eq_refl) as [b Hb].
  destruct (keyed_lookup _ _ _ _ _ _ _ (proj1 Hm) Hc) as [Hcok Ha].
  assert (v = policy_text a) as ->.
  { pose proof (lookup_weaken _ _ _ _ Hb (proj1 (transitivity Hd He))) as E.
    rewrite Ha in E. by injection E. }
  destruct (policy_text_spec a) as [_ Hft]; [by apply (proj2 Hm c)|].
  rewrite Hft, se_lift_bind, parse_policy_key, se_lift_bind, se_bind_run by done.
  destruct (load_keys PREFIX_POLICY _ s1) as [s2 r2] eqn:Hr.
  apply IH in Hr as [He2 Hr2]; [|by etransitivity|done].
  destruct r2 as [l2|e]; intros [= <- <-]; (split; [by etransitivity|]); [|done].
  intros l' [= <-]. by rewrite (Hr2 l2).
Qed.

Lemma redis_load_spec m s s' r :
  redis_rel (db s) m → load_prefix PREFIX_POLICY s = (s', r) →
  ∃ m0 m1, lapse m m0 ∧ lapse m0 m1 ∧ redis_rel (db s') m1
    ∧ (∀ l, r = Ok l → l ≡ₚ map_to_list m0).
Proof.
  intros Hm. unfold load_prefix. rewrite se_bind_run. unfold cmd.
  destruct (redis_keys s _) as [s1 x] eqn:Hx. apply redis_keys_db in Hx as [He Hks]; [|reflexivity].
  destruct (redis_rel_expire _ _ _ Hm He) as (m0 & Hl0 & Hm0).
  destruct x as [ks|e]; cbn [map_err].
  2: { intros [= <- <-]. by exists m0, m0. }
  destruct (Hks ks eq_refl) as [Hnd Hin].
  destruct (keyed_keys _ _ _ policy_key_inj policy_key_owned _ _ ks (proj1 Hm0) Hnd Hin)
    as (l & -> & Hp).
  intros Hr. apply (load_keys_spec _ _ _ _ _ _ Hm0) in Hr as [He2 Hr]; [|done|].
  - destruct (redis_rel_expire _ _ _ Hm0 He2) as (m1 & Hl1 & Hm1).
    exists m0, m1. split_and!; try done. intros l' Hl'. by rewrite (Hr l' Hl').
  - apply Forall_forall. intros [c a] Hca. rewrite Hp in Hca. by apply elem_of_map_to_list in Hca.
Qed.

#[export] Instance redis_laws : ManualStoreLaws RedisStore.
Proof.
  refine {| store_rel s m := redis_rel (db (conn s)) m |}.
  - intros now [s] m c p s' r Hm Hc Hp. cbn. unfold with_conn. cbn [conn].
    destruct (redis_put now c p s) as [s1 x] eqn:Hx. intros [= <- <-]. by eapply redis_put_spec.
  - intros [s] m c s' r Hm Hc. cbn. unfold with_conn. cbn [conn].
    destruct (redis_remove c s) as [s1 x] eqn:Hx. intros [= <- <-]. by eapply redis_remove_spec.
  - intros [s] m s' r Hm. cbn [load_all redis_policies]. unfold with_conn. cbn [conn].
    destruct (load_prefix PREFIX_POLICY s) as [s1 x] eqn:Hx. intros [= <- <-].
    by eapply redis_load_spec.
  - intros s m [Hm Hok]. split; [by apply Hm|done].
Defined.
End redis_laws.

(** *** Statistics leave the policies alone *)
Class StatsLaws (S : Type) `{ManualStoreLaws S} `{ClientStatsStore S} :=
  put_batch_spec : ∀ s m stats s' r, store_rel s m → put_batch s stats = (s', r) →
    ∃ m', lapse m m' ∧ store_rel s' m'.

#[export] Instance memory_stats_laws `{HI : HashIter} : StatsLaws MemoryStore.
Proof. intros s m stats s' r Hm [= <- <-]. by exists m. Qed.

Lemma stats_key_not_owned c : ¬ policy_owned (stats_key c).
Proof. unfold policy_owned. intros H. vm_compute in H. discriminate. Qed.

#[export] Instance redis_stats_laws `{RD : Redis} `{!RedisLaws} `{JT : JsonText} `{!JsonTextLaws} :
  StatsLaws RedisStore.
Proof.
  intros [c] m stats [c'] r. cbn [store_rel redis_laws put_batch redis_stats]. unfold with_conn.
  cbn [conn]. intros Hm. destruct (redis_put_batch stats c) as [c1 x] eqn:Hx. intros [= <- _].
  revert c m x Hm Hx. induction stats as [|[cl s] stats IH]; intros c m x Hm; cbn [redis_put_batch].
  { intros [= <- _]. by exists m. }
  destruct (to_string s) as [raw|e]; [rewrite se_lift_bind|intros [= <- _]; by exists m].
  rewrite se_bind_run. unfold cmd. destruct (redis_set c (stats_key cl) raw) as [c2 [[]|e]] eqn:Hs;
    cbn [map_err]; apply redis_set_db in Hs as (d & Hd & Hdb);
    destruct (redis_rel_expire _ _ _ Hm Hd) as (m0 & Hl & Hm0);
    assert (redis_rel (db c2) m0) as Hm2 by
      (destruct Hdb as [->|[-> _]]; [by apply redis_rel_other, stats_key_not_owned|done]).
  - intros Hx. destruct (IH _ _ _ Hm2 Hx) as (m' & Hl' & Hm'). exists m'. split; [|done].
    by etransitivity.
  - intros [= <- _]. by exists m0.
Qed.

(** *** Either backend keeps the promise *)
Section backend_laws.
Context `{HI : HashIter} `{RD : Redis} `{!RedisLaws} `{JT : JsonText} `{!JsonTextLaws}.

#[export] Instance backend_laws : ManualStoreLaws StoreBackend.
Proof.
  refine {| store_rel b m := match b with
                             | SRedis s => store_rel s m
                             | SMemory s => store_rel s m
                             end |}.
  - intros now [s|s] m c p s' r Hm Hc Hp Heq.
    + change (on_redis (put now s c p) = (s', r)) in Heq.
      destruct (put now s c p) as [s1 x] eqn:Hx. injection Heq as <- <-. by eapply put_spec.
    + injection Heq as <- <-. by eapply (put_spec now s).
  - intros [s|s] m c s' r Hm Hc Heq.
    + change (on_redis (remove s c) = (s', r)) in Heq.
      destruct (remove s c) as [s1 x] eqn:Hx. injection Heq as <- <-. by eapply remove_spec.
    + injection Heq as <- <-. by eapply (remove_spec s).
  - intros [s|s] m s' r Hm Heq.
    + change (on_redis (load_all s) = (s', r)) in Heq.
      destruct (load_all s) as [s1 x] eqn:Hx. injection Heq as <- <-. exact (load_spec s m s1 x Hm Hx).
    + injection Heq as <- <-. exact (load_spec s m s _ Hm eq_refl).
  - intros [s|s] m Hm; exact (store_rel_ok s m Hm).
Defined.

#[export] Instance backend_stats_laws : StatsLaws StoreBackend.
Proof.
  intros [s|s] m stats s' r Hm Heq.
  - change (on_redis (put_batch s stats) = (s', r)) in Heq.
    destruct (put_batch s stats) as [s1 x] eqn:Hx. injection Heq as <- <-.
    exact (put_batch_spec s m stats s1 x Hm Hx).
  - injection Heq as <- <-. by exists m.
Qed.
End backend_laws.

(** *** Histories of writes *)
Definition store_op : Type := ClientId * option StoredManualPolicy.

Definition op_apply (m : gmap ClientId StoredManualPolicy) (o : store_op) :
    gmap ClientId StoredManualPolicy :=
  match o.2 with
  | Some p => <[o.1 := p]> m
  | None => delete o.1 m
  end.

Definition op_ok (o : store_op) : Prop := client_ok o.1 ∧ ∀ p, o.2 = Some p → stored_ok p.

(** Writes one after the other, each with its wall clock, up to the first
    failure. *)
Fixpoint persist_all {S} `{ManualPolicyStore S} (store : S) (ops : list (Z * store_op)) :
    S * result () StoreError :=
  match ops with
  | [] => (store, Ok tt)
  | (now_sys, o) :: ops' =>
      match persist_manual now_sys store o.1 o.2 with
      | (store', Ok _) => persist_all store' ops'
      | (store', Err e) => (store', Err e)
      end
  end.

Lemma lapse_op m m0 o : lapse m m0 → lapse (op_apply m o) (op_apply m0 o).
Proof.
  intros [Hsub Hp]. destruct o as [c [p|]]; unfold op_apply; cbn; split.
  - by apply insert_mono.
  - intros c' p' [[<- <-]|[Hne Hc]]%lookup_insert_Some Hu; [apply lookup_insert_eq|].
    rewrite lookup_insert_ne by done. eauto.
  - by apply delete_mono.
  - intros c' p' [Hne Hc]%lookup_delete_Some Hu. rewrite lookup_delete_ne by done. eauto.
Qed.

Lemma lapse_ops m m0 ops : lapse m m0 → lapse (foldl op_apply m ops) (foldl op_apply m0 ops).
Proof. revert m m0. induction ops as [|o ops IH]; intros m m0 Hl; [done|]. by apply IH, lapse_op. Qed.

Section history.
Context {S : Type} `{ManualStoreLaws S}.

Lemma persist_spec now_sys (s : S) m o s' r :
  store_rel s m → op_ok o → persist_manual now_sys s o.1 o.2 = (s', r) →
  ∃ m0, lapse m m0 ∧ (store_rel s' (op_apply m0 o) ∨ (store_rel s' m0 ∧ r ≠ Ok tt)).
Proof.
  intros Hm [Hc Hp]. destruct o as [c [p|]]; cbn; intros Hx.
  - eapply put_spec; eauto.
  - eapply remove_spec; eauto.
Qed.

Lemma persist_all_spec (s : S) m ops s' :
  store_rel s m → Forall (λ o, op_ok o.2) ops → persist_all s ops = (s', Ok tt) →
  ∃ m', lapse (foldl op_apply m ops.*2) m' ∧ store_rel s' m'.
Proof.
  revert s m. induction ops as [|[now_sys o] ops IH]; intros s m Hm Hok; cbn [persist_all].
  { intros [= <-]. by exists m. }
  apply Forall_cons in Hok as [Ho Hok].
  destruct (persist_manual now_sys s o.1 o.2) as [s1 [[]|e]] eqn:Hx; [|done]. intros Hall.
  destruct (persist_spec _ _ _ _ _ _ Hm Ho Hx) as (m0 & Hl & [H1|[_ ?]]); [|done].
  destruct (IH _ _ H1 Hok Hall) as (m' & Hl' & Hm'). exists m'. split; [|done].
  etransitivity; [|done]. cbn. by apply lapse_ops, lapse_op.
Qed.
End history.

Section hydrate.
Context `{CEL : CelEngine} {E : Type}.
Implicit Types s : DaemonState E.

(** The policy map after hydration. *)
Definition hydrated (now : Z) (sys : ClientId → Z) (c : ClientId) (o : option StoredManualPolicy)
    (old : option ClientPolicy) : option ClientPolicy :=
  match o with
  | Some p => (λ m, mkPolicy (Some m) None) <$> to_runtime p now (sys c)
  | None => old
  end.

Lemma hydrate_fold now sys l s :
  NoDup l.*1 → (∀ c p, (c, p) ∈ l → is_Some (to_runtime p now (sys c))) →
  ∃ s', opt_fold (hydrate_step now sys) l s = Some s' ∧ s' = with_policies s (policies s')
    ∧ ∀ c, policies s' !! c = hydrated now sys c ((list_to_map l : gmap _ _) !! c) (policies s !! c).
Proof.
  revert s. induction l as [|[c p] l IH]; intros s Hnd Ht.
  { exists s. split_and!; [done|by destruct s|done]. }
  apply NoDup_cons in Hnd as [Hc Hnd]. cbn [fst] in Hc.
  destruct (Ht c p) as [mp Hmp]; [left|]. cbn [opt_fold]. unfold hydrate_step at 1. cbn [fst snd].
  rewrite Hmp. cbn [mbind option_bind].
  destruct (IH (with_policies s (<[c := mkPolicy (Some mp) None]> (policies s))) Hnd)
    as (s' & -> & Hs' & Hp).
  { intros c' p' Hin. apply Ht. by right. }
  exists s'. split_and!; [done|by rewrite Hs' at 1|]. intros c'. rewrite Hp. cbn [policies with_policies].
  rewrite list_to_map_cons. destruct (decide (c' = c)) as [->|Hne].
  - rewrite !lookup_insert_eq, (not_elem_of_list_to_map_1 l c Hc). cbn [hydrated]. by rewrite Hmp.
  - by rewrite !lookup_insert_ne.
Qed.
End hydrate.

(** *** A concrete server, used to evaluate examples: every command succeeds and
    nothing expires *)
#[export] Instance mini_redis : Redis := {|
  Conn := gmap str (str * bool);
  redis_open _ := Ok ∅;
  redis_get c k := (c, Ok (fst <$> c !! k));
  redis_set c k v := (<[k := (v, false)]> c, Ok tt);
  redis_set_ex c k v _ := (<[k := (v, true)]> c, Ok tt);
  redis_del c ks := (foldr delete c ks, Ok tt);
  redis_keys c pat :=
    (c, Ok (filter (λ k, starts_with (removelast pat) k = true) (map_to_list c).*1))
|}.

#[export] Instance mini_redis_laws : RedisLaws.
Proof.
  refine {| db c := c |}.
  - intros c k c' r [= <- <-]. split; [done|]. by intros v [= <-].
  - intros c k v c' r [= <- <-]. exists c. split; [done|by left].
  - intros c k v ttl c' r _ [= <- <-]. exists c. split; [done|by left].
  - intros c ks c' r [= <- <-]. exists c. split; [done|by left].
  - intros c p c' r _ [= <- <-]. split; [done|]. intros ks [= <-]. unfold glob.
    rewrite removelast_last. split.
    + apply NoDup_filter, NoDup_fst_map_to_list.
    + intros k. rewrite list_elem_of_filter, list_elem_of_fmap. split.
      * intros [Hk ([k' v] & -> & Hv%elem_of_map_to_list)]. by split; [|eexists].
      * intros [Hk [v Hv]]. split; [done|]. exists (k, v). by rewrite elem_of_map_to_list.
Defined.

Definition mini0 : RedisStore := mkRedis (∅ : gmap str (str * bool)).

Lemma mini_redis_rel : store_rel mini0 ∅.
Proof. split; [apply keyed_empty|apply map_Forall_empty]. Qed.

(** ** Properties *)

(** C18 (restart_restores_manual_policies): take any store that keeps the promise
    of the trait (the memory store, Redis with expiring keys, or the daemon's
    backend), any history of successful writes, and a daemon that starts from
    the store.  The start does not panic when the expiries fit the clock; a
    failed load changes nothing; and after a successful one the policy map holds
    exactly manual policies that were the last written for their client, among
    them every permanent one, and nothing else of the state has changed. *)
Theorem restart_restores_manual_policies `{CEL : CelEngine} {E S} `{ManualStoreLaws S}
    (store store' : S) m ops now sys (st : DaemonState E) :
  let want := foldl op_apply m ops.*2 in
  store_rel store m → Forall (λ o, op_ok o.2) ops → persist_all store ops = (store', Ok tt) →
  policies st = ∅ → (∀ c p, want !! c = Some p → is_Some (to_runtime p now (sys c))) →
  ∃ st' store'' r, hydrate now sys st store' = Some (st', store'', r)
    ∧ st' = with_policies st (policies st')
    ∧ (r ≠ Ok tt → st' = st)
    ∧ (∀ c pol, policies st' !! c = Some pol → ∃ p mp, want !! c = Some p
         ∧ to_runtime p now (sys c) = Some mp ∧ pol = mkPolicy (Some mp) None)
    ∧ (r = Ok tt → ∀ c p, want !! c = Some p → st_until_unix_secs p = None →
         policies st' !! c
         = Some (mkPolicy (Some (mkManual (st_throttle p) (st_blocked p) None)) None)).
Proof.
  intros want Hm Hops Hall Hempty Ht.
  destruct (persist_all_spec _ _ _ _ Hm Hops Hall) as (m' & Hl & Hm'). fold want in Hl.
  unfold hydrate. destruct (load_all store') as [s2 r] eqn:Hld.
  destruct (load_spec _ _ _ _ Hm' Hld) as (m0 & m1 & Hl0 & _ & _ & Hr).
  pose proof (transitivity Hl Hl0) as [Hsub Hperm].
  destruct r as [l|e]; [|exists st, s2, (Err e); split_and!; try done; [by destruct st|]].
  2: { intros c pol. by rewrite Hempty, lookup_empty. }
  specialize (Hr l eq_refl). assert (NoDup l.*1) as Hnd.
  { rewrite Hr. apply NoDup_fst_map_to_list. }
  assert ((list_to_map l : gmap _ _) = m0) as Hlm.
  { by rewrite (list_to_map_proper l (map_to_list m0)), list_to_map_to_list. }
  destruct (hydrate_fold now sys l st Hnd) as (st' & -> & Hst & Hp).
  { intros c p Hin. rewrite Hr in Hin. apply elem_of_map_to_list in Hin. eapply Ht.
    by eapply lookup_weaken. }
  rewrite Hlm, Hempty in Hp. cbn. exists st', s2, (Ok tt). split_and!; [done..| |].
  - intros c pol. rewrite Hp, lookup_empty. destruct (m0 !! c) as [p|] eqn:Hc; [|done].
    intros (mp & Hmp & ->)%fmap_Some. exists p, mp. split_and!; [by eapply lookup_weaken|done..].
  - intros _ c p Hc Hu. rewrite Hp, (Hperm c p Hc Hu). cbn. unfold to_runtime. by rewrite Hu.
Qed.

Lemma restart_restores_manual_policies_witness :
  let p := mkStored (Some 30) true None in
  let store' := (persist_all mini0
                   [(0, (demo_client, Some p)); (5, (demo_client, Some p))]).1 in
  ∃ st' store'' r, hydrate 7 (λ _, 9) (state_new (E := PermissiveEnforcer) Enforce (lit "any")
      (mkLive default_config ∅ []) : @DaemonState yes_engine _) store' = Some (st', store'', r)
    ∧ policies st' !! demo_client = Some (mkPolicy (Some (mkManual (Some 30) true None)) None).
Proof.
  intros p store'.
  destruct (restart_restores_manual_policies (CEL := yes_engine) (E := PermissiveEnforcer)
    mini0 store' ∅
    [(0, (demo_client, Some p)); (5, (demo_client, Some p))] 7 (λ _, 9)
    (state_new Enforce (lit "any") (mkLive default_config ∅ [])))
    as (st' & store'' & r & Hh & _ & _ & _ & Hr).
  - exact mini_redis_rel.
  - assert (op_ok (demo_client, Some p)) as Hop.
    { split; [exact demo_client_ok|]. intros q [= <-]. split; [|done].
      intros t [= <-]. split; vm_compute; discriminate. }
    by repeat (apply Forall_cons; split; [exact Hop|]).
  - rewrite (surjective_pairing (persist_all _ _)). apply (f_equal (pair store')).
    vm_compute. reflexivity.
  - reflexivity.
  - intros c q Hq. cbn in Hq. rewrite insert_insert_eq in Hq.
    apply lookup_singleton_Some in Hq as [_ <-]. by eexists.
  - exists st', store'', r. split; [exact Hh|]. refine (Hr _ demo_client p _ eq_refl).
    + destruct r as [[]|e]; [reflexivity|].
      apply (f_equal (option_map (λ x, is_ok x.2))) in Hh. vm_compute in Hh. discriminate.
    + apply lookup_insert_eq.
Defined.

Lemma foldr_delete_lookup {V} (d : gmap str V) ks k :
  foldr delete d ks !! k = if decide (k ∈ ks) then None else d !! k.
Proof.
  induction ks as [|k' ks IH]; cbn; [done|]. destruct (decide (k = k')) as [->|Hne].
  - rewrite lookup_delete_eq, decide_True by left. done.
  - rewrite lookup_delete_ne, IH by done. repeat case_decide; set_solver.
Qed.

(** The keys that a schema change discards. *)
Definition own_key (k : str) : bool := starts_with ALL_KEYS k.

Lemma stamp_schema_spec `{RedisLaws} s s' :
  stamp_schema s = (s', Ok tt) →
  ∃ d, expire (db s) d ∧ db s' = <[KEY_SCHEMA := (show_dec SCHEMA_VERSION, false)]> d.
Proof.
  unfold stamp_schema, cmd. destruct (redis_set s _ _) as [s1 [[]|e]] eqn:Hx; [|done].
  intros [= <-]. apply redis_set_db in Hx as (d & Hd & [Hdb|[_ ?]]); [|done]. by exists d.
Qed.

(** C35 (ensure_schema_spec): when the connection is set up without error, the
    version key is current.  If the stored version parses to the current one,
    nothing was written; otherwise the key holds the current version, and when
    an older version (or anything unreadable) was found none of the program's
    keys survives, while the keys of other programs are untouched: only expiring
    keys may be missing. *)
Theorem ensure_schema_spec `{RedisLaws} s s' :
  ensure_schema s = (s', Ok tt) →
  ∃ d, expire (db s) d ∧
    match fst <$> d !! KEY_SCHEMA with
    | None => ∃ d', expire d d'
        ∧ db s' = <[KEY_SCHEMA := (show_dec SCHEMA_VERSION, false)]> d'
    | Some v =>
        if decide (default 0 (from_str_radix 10 4294967295 v) = SCHEMA_VERSION) then db s' = d
        else db s' !! KEY_SCHEMA = Some (show_dec SCHEMA_VERSION, false)
             ∧ (∀ k, own_key k = true → k ≠ KEY_SCHEMA → db s' !! k = None)
             ∧ (∀ k x, own_key k = false → db s' !! k = Some x → d !! k = Some x)
             ∧ (∀ k v', own_key k = false → d !! k = Some (v', false) → db s' !! k = Some (v', false))
    end.
Proof.
  unfold ensure_schema. rewrite se_bind_run. unfold cmd at 1.
  destruct (redis_get s KEY_SCHEMA) as [s1 x] eqn:Hx. apply redis_get_db in Hx as [He Hv].
  destruct x as [o|e]; cbn [map_err]; [|done]. specialize (Hv o eq_refl).
  intros Hrun. exists (db s1). split; [done|]. rewrite <- Hv.
  destruct o as [v|]; [|by apply stamp_schema_spec in Hrun].
  case_decide as Hver; [by injection Hrun as <-|]. revert Hrun. rewrite se_bind_run. unfold cmd at 1.
  destruct (redis_keys s1 (glob ALL_KEYS)) as [s2 x] eqn:Hx.
  apply redis_keys_db in Hx as [He2 Hks]; [|reflexivity].
  destruct x as [ks|e]; cbn [map_err]; [|done]. specialize (Hks ks eq_refl) as [_ Hin].
  rewrite se_bind_run.
  destruct ((if is_empty ks then mret () else cmd (λ c, redis_del c ks)) s2)
    as [s3 [[]|e]] eqn:Hdel; [|done].
  intros Hst. assert (∃ d3, expire (db s2) d3 ∧ db s3 = foldr delete d3 ks) as (d3 & He3 & E3).
  { destruct ks as [|k ks]; cbn [is_empty] in Hdel; [by injection Hdel as <-; exists (db s2)|].
    unfold cmd in Hdel. destruct (redis_del s2 (k :: ks)) as [s4 [[]|e]] eqn:Hx; [|done].
    injection Hdel as <-. apply redis_del_db in Hx as (d3 & Hd3 & [E|[_ ?]]); [|done]. by exists d3. }
  apply stamp_schema_spec in Hst as (d4 & He4 & E4). rewrite E3 in He4.
  pose proof (transitivity He2 He3) as He23. rewrite E4. split_and!.
  - apply lookup_insert_eq.
  - intros k Hown Hne. rewrite lookup_insert_ne by done. destruct (d4 !! k) as [y|] eqn:Hk; [|done].
    pose proof (lookup_weaken _ _ _ _ Hk (proj1 He4)) as H3. rewrite foldr_delete_lookup in H3.
    case_decide as Hk'; [done|]. destruct Hk'. apply Hin. split; [done|].
    exists y. by eapply lookup_weaken, He3.
  - intros k y Hown. rewrite lookup_insert_ne by (intros <-; by vm_compute in Hown). intros Hk.
    pose proof (lookup_weaken _ _ _ _ Hk (proj1 He4)) as H3. rewrite foldr_delete_lookup in H3.
    case_decide; [done|]. by eapply lookup_weaken, He23.
  - intros k v' Hown Hk. rewrite lookup_insert_ne by (intros <-; by vm_compute in Hown).
    apply (proj2 He4). rewrite foldr_delete_lookup, decide_False.
    + by apply (proj2 He23).
    + intros [Hp _]%Hin. unfold own_key in Hown. congruence.
Qed.

Lemma ensure_schema_spec_witness :
  let old : gmap str (str * bool) :=
    <[KEY_SCHEMA := (lit "7", false)]> (<[policy_key demo_client := (lit "x", false)]>
      (<[lit "other" := (lit "y", false)]> ∅)) in
  db (ensure_schema old).1 !! lit "other" = Some (lit "y", false)
  ∧ db (ensure_schema old).1 !! policy_key demo_client = None.
Proof.
  intros old.
  destruct (ensure_schema_spec (old : @Conn mini_redis) (ensure_schema (old : @Conn mini_redis)).1)
    as (d & He & Hd); [vm_compute; reflexivity|].
  assert (fst <$> d !! KEY_SCHEMA = Some (lit "7")) as E.
  { rewrite (proj2 He KEY_SCHEMA (lit "7")); [reflexivity|vm_compute; reflexivity]. }
  rewrite E in Hd. destruct Hd as (_ & Hown & _ & Hother). split.
  - apply Hother; [reflexivity|]. apply (proj2 He). vm_compute. reflexivity.
  - apply Hown; [reflexivity|]. vm_compute. discriminate.
Defined.
