(* ===== verification/Ipc.v ===== *)
(** The IPC handlers ([crates/microwaf/src/ipc.rs]) over the daemon state, any
    policy store and the wire types, with the build information they report
    ([crates/microwaf/src/version.rs]). *)

From S2P Require Import Prelude Text Client Rule Window Policy Counters Enforcer Config State Json Wire Store.

(** ** Build information; the two options are the build-time environment *)
Record Info := mkBuild { bi_version : str; bi_commit : str; bi_build_time : str }.

Definition version_info (git_commit build_time : option str) : Info :=
  mkBuild (lit "dev") (default (lit "unknown") git_commit) (default [] build_time).

(** ** Wire forms *)
Definition action_to_wire (a : Action) : ActionWire :=
  match a with
  | Throttle drop_rate => AWThrottle drop_rate
  | Block => AWBlock
  end.

Definition effective_to_wire (a : EffectiveAction) : ActionWire :=
  match a with
  | EffNone => AWNone
  | EffThrottle drop_rate => AWThrottle drop_rate
  | EffBlock => AWBlock
  end.

Definition client_to_ref (c : ClientId) : ClientRef := mkRef (mac_string c) (Some (show_ip (ip c))).

Definition parse_ref (r : ClientRef) : result ClientId str :=
  let s := match ref_ip r with
           | Some ip => ref_mac r ++ [64] ++ ip
           | None => ref_mac r
           end in
  map_err show_ref_error (client_from_str s).

(** [Display] of [StoreError]. *)
Definition show_store_error (e : StoreError) : str := lit "store error: " ++ backend_msg e.

Definition stats_to_wire (s : CumulativeCounters) : ClientStatsWire :=
  mkStatsWire (requests s) (bytes s) (connections s) (ws_connections s).

Definition rule_to_wire `{CEL : CelEngine} (r : Rule) : RuleWire :=
  mkRuleWire (r_id r) (protocol_as_str (r_protocol r)) (default [] (r_ports r))
    (metric_as_str (r_metric r)) (window_as_str (r_window r)) (r_limit r)
    (action_to_wire (r_action r)) (r_min_threshold r) (r_match_src r).

(** ** Queries *)
Section queries.
Context `{HI : HashIter} `{CEL : CelEngine} {E : Type}.

Definition info_result (v : Info) (s : DaemonState E) : InfoResult :=
  mkInfo (bi_version v) (bi_commit v) (bi_build_time v) (mode_as_str (st_mode s)) (st_interface s).

Definition list_rules (s : DaemonState E) : RulesResult := mkRules (rule_to_wire <$> rules s).

(** The would-be action of a row: the recorded one, else in permissive mode the
    effective one. *)
Definition would_be_wire (s : DaemonState E) (client : ClientId) (eff : EffectiveAction) :
    option ActionWire :=
  match would_be s !! client with
  | Some a => Some (effective_to_wire a)
  | None => if decide (st_mode s = Permissive) then Some (effective_to_wire eff) else None
  end.

Definition policy_row (now : Z) (s : DaemonState E) (p : ClientId * ClientPolicy) : ClientEntry :=
  let eff := merge_policy p.2 now in
  mkEntry (client_to_ref p.1) (Some (effective_to_wire eff)) (would_be_wire s p.1 eff) [] false
    (stats_to_wire <$> snapshot_clients (counters s) !! p.1).

Definition stats_row (p : ClientId * CumulativeCounters) : ClientEntry :=
  mkEntry (client_to_ref p.1) (Some AWNone) None [] false (Some (stats_to_wire p.2)).

Definition list_clients (now : Z) (s : DaemonState E) : ClientsResult :=
  let seen := dom (policies s) in
  mkClients
    ((policy_row now s <$> hiter (policies s))
     ++ (stats_row <$> filter (λ p, p.1 ∉ seen) (hiter (snapshot_clients (counters s)))))
    [].

(** *** [top] *)
Definition rule_selected (params : TopParams) (r : Rule) : bool :=
  from_option (λ id, bool_decide (r_id r = id)) true (tp_rule_id params)
  && from_option (λ p, bool_decide (protocol_as_str (r_protocol r) = p)) true (tp_protocol params)
  && from_option (λ m, bool_decide (metric_as_str (r_metric r) = m)) true (tp_metric params).

Definition matching_rules (params : TopParams) (rs : list Rule) : list Rule :=
  filter (λ r, rule_selected params r = true) rs.

Definition rule_column (r : Rule) : TopColumn :=
  mkColumn (r_id r) (window_as_str (r_window r)) (r_limit r) (r_min_threshold r).

Definition observation (r : Rule) (value : Z) : ViolationWire :=
  mkViolationWire (r_id r) value (r_limit r) (action_to_wire (r_action r)).

Definition zero_observations (rs : list Rule) : list ViolationWire := (λ r, observation r 0) <$> rs.

(** The loop of [score_client]. *)
Definition score_step (win : RuleWindows) (acc : Z * bool * list ViolationWire) (r : Rule) :
    Z * bool * list ViolationWire :=
  let '(best, hot, observations) := acc in
  let value := rw_sum win (r_id r) (r_metric r) (window_secs (r_window r)) in
  (Z.max best value,
   if (r_min_threshold r <=? value) && (0 <? value) then true else hot,
   observations ++ [observation r value]).

Definition score_client (win : RuleWindows) (rs : list Rule) : Z * bool * list ViolationWire :=
  foldl (score_step win) (0, false, []) rs.

(** A row before rendering. *)
Definition scored_row : Type := ClientId * (Z * bool * list ViolationWire).
Definition row_score (r : scored_row) : Z := r.2.1.1.
Definition row_hot (r : scored_row) : bool := r.2.1.2.

(** [Ord] of [IpAddr]: every IPv4 address is below every IPv6 address. *)
Definition ip_cmp (a b : IpAddr) : comparison :=
  match a, b with
  | V4 a1 a2 a3 a4, V4 b1 b2 b3 b4 => lex [a1; a2; a3; a4] [b1; b2; b3; b4]
  | V4 _ _ _ _, V6 _ => Lt
  | V6 _, V4 _ _ _ _ => Gt
  | V6 s, V6 t => lex s t
  end.

Definition bool_cmp (a b : bool) : comparison :=
  match a, b with
  | false, true => Lt
  | true, false => Gt
  | _, _ => Eq
  end.

(** The comparison of [sort_by]. *)
Definition row_cmp (a b : scored_row) : comparison :=
  then_with (bool_cmp (row_hot b) (row_hot a))
    (then_with (row_score b ?= row_score a)
       (then_with (lex (mac a.1) (mac b.1)) (ip_cmp (ip a.1) (ip b.1)))).

Definition row_le (a b : scored_row) : Prop := row_cmp a b ≠ Gt.

#[export] Instance row_le_dec a b : Decision (row_le a b).
Proof. unfold row_le. apply _. Defined.

(** [scored] of [top]: the clients with windows, then those with a policy, then
    those with counters. *)
Definition scored (s : DaemonState E) (rs : list Rule) : list scored_row :=
  let zero := (0, false, zero_observations rs) in
  let w := hiter (windows s) in
  let p := filter (λ p, p.1 ∉ dom (windows s)) (hiter (policies s)) in
  let c := filter (λ p, p.1 ∉ dom (windows s) ∪ dom (policies s))
             (hiter (snapshot_clients (counters s))) in
  ((λ cw, (cw.1, score_client cw.2 rs)) <$> w) ++ ((λ p, (p.1, zero)) <$> p)
  ++ ((λ p, (p.1, zero)) <$> c).

Definition top_row (now : Z) (s : DaemonState E) (r : scored_row) : ClientEntry :=
  let eff := from_option (λ p, merge_policy p now) EffNone (policies s !! r.1) in
  mkEntry (client_to_ref r.1) (Some (effective_to_wire eff)) (would_be_wire s r.1 eff) r.2.2
    (row_hot r) (stats_to_wire <$> snapshot_clients (counters s) !! r.1).

Definition truncate {A} (limit : Z) (l : list A) : list A :=
  if 0 <? limit then take (Z.to_nat limit) l else l.

(** [sort_by] is a stable sort; the rows have distinct clients. *)
Definition top (now : Z) (s : DaemonState E) (params : TopParams) : TopResult :=
  let rs := matching_rules params (rules s) in
  mkClients (top_row now s <$> truncate (tp_limit params) (merge_sort row_le (scored s rs)))
    (rule_column <$> rs).
End queries.

(** ** Manual policies *)
Section commands.
Context `{CEL : CelEngine} {E S : Type} `{MS : ManualPolicyStore S}.

(** Three clocks: the monotonic one, the wall clock when the policy is turned
    into its stored form, and the wall clock in the store. *)
Record Clocks := mkClocks { clk_now : Z; clk_sys : Z; clk_store : Z }.

Definition manual0 : ManualPolicy := mkManual None false None.

(** [duration_secs.map(|s| now + Duration::from_secs(s))]; [None] is the panic. *)
Definition expiry (now : Z) (duration_secs : option Z) : option (option Z) :=
  match duration_secs with
  | Some s => u ← time_add now (from_secs s); Some (Some u)
  | None => Some None
  end.

Definition set_manual (s : DaemonState E) (client : ClientId) (m : option ManualPolicy) :
    DaemonState E :=
  with_policies s
    (<[client := mkPolicy m (auto_ (default policy0 (policies s !! client)))]> (policies s)).

(** [persist_manual] with the error as text. *)
Definition persist (k : Clocks) (store : S) (client : ClientId) (m : option ManualPolicy) :
    S * result () str :=
  let '(store', r) :=
    persist_manual (clk_store k) store client
      ((λ m, from_runtime m (clk_now k) (clk_sys k)) <$> m) in
  (store', map_err show_store_error r).

(** The body that [throttle] and [block] share: change the manual policy of the
    entry, set its expiry, store it. *)
Definition update_manual (k : Clocks) (s : DaemonState E) (store : S) (client : ClientId)
    (until : option Z) (f : ManualPolicy → ManualPolicy) : DaemonState E * S * result () str :=
  let manual := default manual0 (manual (default policy0 (policies s !! client))) in
  let manual := f manual in
  let manual := mkManual (m_throttle manual) (m_blocked manual) until in
  let '(store', r) := persist k store client (Some manual) in
  (set_manual s client (Some manual), store', r).

Definition throttle (k : Clocks) (s : DaemonState E) (store : S) (p : ThrottleParams) :
    option (DaemonState E * S * result () str) :=
  match parse_ref (th_client p) with
  | Err e => Some (s, store, Err e)
  | Ok client =>
      until ← expiry (clk_now k) (th_duration_secs p);
      let rate := default 50 (th_rate p) in
      Some (update_manual k s store client until
              (λ m, mkManual (Some rate) (m_blocked m) (m_until m)))
  end.

Definition block (k : Clocks) (s : DaemonState E) (store : S) (p : BlockParams) :
    option (DaemonState E * S * result () str) :=
  match parse_ref (bl_client p) with
  | Err e => Some (s, store, Err e)
  | Ok client =>
      until ← expiry (clk_now k) (bl_duration_secs p);
      Some (update_manual k s store client until (λ m, mkManual (m_throttle m) true (m_until m)))
  end.

(** The body that the two clear commands share; [keep] says whether anything of
    the changed manual policy is left. *)
Definition clear_manual (k : Clocks) (s : DaemonState E) (store : S) (cref : ClientRef)
    (f : ManualPolicy → ManualPolicy) (keep : ManualPolicy → bool) :
    DaemonState E * S * result () str :=
  match parse_ref cref with
  | Err e => (s, store, Err e)
  | Ok client =>
      match policies s !! client with
      | Some (mkPolicy (Some m) _) =>
          let m := f m in
          let m' := if keep m then Some m else None in
          let '(store', r) := persist k store client m' in
          (set_manual s client m', store', r)
      | _ => (s, store, Ok tt)
      end
  end.

Definition clear_manual_throttle (k : Clocks) (s : DaemonState E) (store : S) (cref : ClientRef) :
    DaemonState E * S * result () str :=
  clear_manual k s store cref (λ m, mkManual None (m_blocked m) (m_until m)) m_blocked.

Definition clear_manual_block (k : Clocks) (s : DaemonState E) (store : S) (cref : ClientRef) :
    DaemonState E * S * result () str :=
  clear_manual k s store cref (λ m, mkManual (m_throttle m) false (m_until m))
    (λ m, bool_decide (is_Some (m_throttle m))).
End commands.

(** ** Dispatch *)
Section dispatch.
Context `{HI : HashIter} `{CEL : CelEngine} {E S : Type} `{MS : ManualPolicyStore S}.

Definition default_top : TopParams := mkTop 10 None None None.

(** The reply to a command that returns [Result<(), String>]. *)
Definition reply (kind : RequestKind) (r : result () str) : Response :=
  match r with
  | Ok _ => response_ok kind (REmpty mkEmpty)
  | Err e => response_err kind (invalid e)
  end.

Definition replied (kind : RequestKind) (x : DaemonState E * S * result () str) :
    DaemonState E * S * Response :=
  let '(s, store, r) := x in (s, store, reply kind r).

Definition dispatch (v : Info) (k : Clocks) (req : Request) (s : DaemonState E) (store : S) :
    option (DaemonState E * S * Response) :=
  let kind := rq_kind req in
  let refuse msg := Some (s, store, response_err kind (invalid msg)) in
  match kind with
  | KInfo => Some (s, store, response_ok kind (RInfo (info_result v s)))
  | KListRules => Some (s, store, response_ok kind (RRules (list_rules s)))
  | KListClients => Some (s, store, response_ok kind (RClients (list_clients (clk_now k) s)))
  | KTop =>
      let params := match rq_params req with
                    | Some (PTop p) => p
                    | _ => default_top
                    end in
      Some (s, store, response_ok kind (RClients (top (clk_now k) s params)))
  | KThrottle =>
      match rq_params req with
      | Some (PThrottle p) => replied kind <$> throttle k s store p
      | _ => refuse (lit "missing throttle params")
      end
  | KUnthrottle =>
      match rq_params req with
      | Some (PClient p) => Some (replied kind (clear_manual_throttle k s store (cp_client p)))
      | _ => refuse (lit "missing client")
      end
  | KBlock =>
      match rq_params req with
      | Some (PBlock p) => replied kind <$> block k s store p
      | _ => refuse (lit "missing block params")
      end
  | KUnblock =>
      match rq_params req with
      | Some (PClient p) => Some (replied kind (clear_manual_block k s store (cp_client p)))
      | _ => refuse (lit "missing client")
      end
  end.

(** [execute] of every command and the error hook: the body is read as a
    request; [describe] is the text of serde_json's error. *)
Definition execute (describe : Json → str) (v : Info) (k : Clocks) (body : Json)
    (s : DaemonState E) (store : S) : option (DaemonState E * S * Response) :=
  match of_json body with
  | Some req => dispatch v k req s store
  | None => Some (s, store, response_err KInfo (invalid (describe body)))
  end.
End dispatch.

(** *** The router and its hooks

    The names that [mw_router] registers, in its order; the replies to an unknown
    type and to a peer that is not admitted ([auth] tells whether the reason is
    the authorisation; other reasons get no reply). *)
Definition commands : list str :=
  [lit "info"; lit "top"; lit "listClients"; lit "throttle"; lit "unthrottle"; lit "block";
   lit "unblock"; lit "listRules"].

Definition unknown_reply : Response := response_err KInfo (invalid (lit "unknown type")).

Definition reject (auth : bool) : option Response :=
  if auth then Some (response_err KInfo (forbidden (lit "peer user not in allowlist"))) else None.

(** Every request kind has exactly one command, under the name that the wire
    gives it. *)
Lemma commands_complete : NoDup commands ∧ ∀ n, n ∈ commands ↔ is_Some (kind_of_name n).
Proof.
  split; [apply (bool_decide_unpack _); vm_compute; exact I|]. intros n. split.
  - intros Hn. assert (Forall (λ n, is_Some (kind_of_name n)) commands) as Hall
      by (apply (bool_decide_unpack _); vm_compute; exact I).
    rewrite Forall_forall in Hall. by apply Hall.
  - unfold kind_of_name. intros [k Hk].
    apply fmap_Some in Hk as ([n' k'] & Hh & ->). apply head_Some_elem_of in Hh.
    apply list_elem_of_filter in Hh as [Hn Hin]. cbn in Hn. subst n'.
    change commands with kind_names.*1. apply list_elem_of_fmap. by exists (n, k').
Qed.

(** ** Lemmas *)

(** *** The order of the [top] rows *)
(** The rows are compared like lists of integers: hot first, larger score
    first, then the MAC (self-delimiting) and the address. *)
Fixpoint enc_list (l : list Z) : list Z :=
  match l with
  | [] => [0]
  | x :: l' => 1 :: x :: enc_list l'
  end.

Definition ip_key (i : IpAddr) : list Z :=
  match i with
  | V4 a b c d => [0; a; b; c; d]
  | V6 s => 1 :: s
  end.

Definition row_key (r : scored_row) : list Z :=
  (if row_hot r then 0 else 1) :: - row_score r :: enc_list (mac r.1) ++ ip_key (ip r.1).

Lemma lex_enc_list l l' r r' :
  lex (enc_list l ++ r) (enc_list l' ++ r') = then_with (lex l l') (lex r r').
Proof.
  revert l'. induction l as [|x l IH]; intros [|y l']; cbn; try done.
  destruct (x ?= y); cbn; done || apply IH.
Qed.

Lemma lex_ip_key i j : lex (ip_key i) (ip_key j) = ip_cmp i j.
Proof. by destruct i, j. Qed.

Lemma row_cmp_key a b : row_cmp a b = lex (row_key a) (row_key b).
Proof.
  unfold row_cmp, row_key. cbn [lex]. rewrite lex_enc_list, lex_ip_key.
  rewrite Z.compare_opp.
  by destruct (row_hot a), (row_hot b), (row_score b ?= row_score a).
Qed.

Lemma row_cmp_eq a b : row_cmp a b = Eq → a.1 = b.1.
Proof.
  unfold row_cmp, then_with.
  destruct (bool_cmp (row_hot b) (row_hot a)), (row_score b ?= row_score a); try done.
  destruct (lex (mac a.1) (mac b.1)) eqn:Hm; try done. apply lex_eq in Hm.
  rewrite <- lex_ip_key. intros Hi%lex_eq. destruct a as [[ma ia] ?], b as [[mb ib] ?]. cbn in *.
  subst. f_equal. destruct ia, ib; cbn in Hi; congruence.
Qed.

#[export] Instance row_le_trans : Transitive row_le.
Proof. intros a b c. unfold row_le. rewrite !row_cmp_key. apply lex_trans. Qed.

#[export] Instance row_le_total : Total row_le.
Proof.
  intros a b. unfold row_le. rewrite !row_cmp_key, (lex_antisym (row_key a) (row_key b)).
  destruct (lex (row_key a) (row_key b)); cbn; (by left) || (by right).
Qed.

(** A sorted list of rows with distinct clients is determined by its rows. *)
Lemma rows_unique l l' :
  NoDup l.*1 → l ≡ₚ l' → merge_sort row_le l = merge_sort row_le l'.
Proof.
  intros Hnd Hp. apply (StronglySorted_unique_strong row_le).
  - intros a b Ha Hb H1 H2. rewrite merge_sort_Permutation in Ha, Hb. rewrite <- Hp in Hb.
    assert (a.1 = b.1) as E.
    { apply row_cmp_eq. unfold row_le in *. rewrite row_cmp_key in *.
      rewrite lex_antisym in H2. by destruct (lex (row_key a) (row_key b)). }
    destruct a as [c x], b as [c' y]. cbn in E. subst c'. f_equal.
    assert (Some x = Some y) as [= ->]; [|done].
    rewrite <- (elem_of_list_to_map_1 (M := gmap ClientId) l c x Hnd Ha).
    by apply (elem_of_list_to_map_1 (M := gmap ClientId)).
  - apply (StronglySorted_merge_sort row_le).
  - apply (StronglySorted_merge_sort row_le).
  - by rewrite !merge_sort_Permutation.
Qed.

(** *** The rows of [top] *)
Definition rule_value `{CEL : CelEngine} (win : RuleWindows) (r : Rule) : Z :=
  rw_sum win (r_id r) (r_metric r) (window_secs (r_window r)).

Definition rule_hot `{CEL : CelEngine} (win : RuleWindows) (r : Rule) : bool :=
  (r_min_threshold r <=? rule_value win r) && (0 <? rule_value win r).

Section top.
Context `{CEL : CelEngine} {E : Type}.
Implicit Types (s : DaemonState E) (rs : list Rule).

Lemma score_fold win rs b h o :
  foldl (score_step win) (b, h, o) rs
  = (foldl Z.max b (rule_value win <$> rs), h || existsb (rule_hot win) rs,
     o ++ ((λ r, observation r (rule_value win r)) <$> rs)).
Proof.
  revert b h o. induction rs as [|r rs IH]; intros b h o; csimpl.
  - by rewrite orb_false_r, app_nil_r.
  - rewrite IH, <- app_assoc. f_equal. f_equal. unfold rule_hot, rule_value.
    destruct (_ && _), h; done.
Qed.

Lemma score_client_spec win rs :
  score_client win rs
  = (foldl Z.max 0 (rule_value win <$> rs), existsb (rule_hot win) rs,
     (λ r, observation r (rule_value win r)) <$> rs).
Proof. apply score_fold. Qed.

(** The row of a client; one without windows has only zeros. *)
Definition row_of s rs (c : ClientId) : scored_row :=
  (c, score_client (default ∅ (windows s !! c)) rs).

Lemma rule_value_empty r : rule_value ∅ r = 0.
Proof. done. Qed.

Lemma score_client_empty rs : score_client ∅ rs = (0, false, zero_observations rs).
Proof.
  rewrite score_client_spec. f_equal. f_equal.
  - induction rs as [|r rs IH]; csimpl; [done|]. by rewrite rule_value_empty.
  - induction rs as [|r rs IH]; csimpl; [done|]. rewrite IH. unfold rule_hot.
    by rewrite rule_value_empty, andb_false_r.
Qed.

Lemma filter_fst {A} (P : ClientId → Prop) `{∀ c, Decision (P c)} (l : list (ClientId * A)) :
  (filter (λ p, P p.1) l).*1 = filter P l.*1.
Proof.
  induction l as [|[c a] l IH]; [done|]. rewrite filter_cons. csimpl. rewrite filter_cons.
  case_decide; csimpl; by f_equal.
Qed.

(** The clients of the rows, in the order of the three loops. *)
Definition row_clients `{HashIter} s : list ClientId :=
  (hiter (windows s)).*1
  ++ filter (λ c, c ∉ dom (windows s)) (hiter (policies s)).*1
  ++ filter (λ c, c ∉ dom (windows s) ∪ dom (policies s))
       (hiter (snapshot_clients (counters s))).*1.

Lemma scored_rows `{HashIter} s rs : scored s rs = row_of s rs <$> row_clients s.
Proof.
  unfold scored, row_clients.
  rewrite <- (filter_fst (λ c, c ∉ dom (windows s))),
    <- (filter_fst (λ c, c ∉ dom (windows s) ∪ dom (policies s))).
  rewrite !fmap_app, <- !list_fmap_compose. f_equal; [|f_equal].
  - apply list_fmap_ext. intros i [c w] Hi. apply list_elem_of_lookup_2, hiter_elem in Hi.
    unfold row_of. cbn. by rewrite Hi.
  - apply list_fmap_ext. intros i [c p] Hi. apply list_elem_of_lookup_2 in Hi.
    apply list_elem_of_filter in Hi as [Hc%not_elem_of_dom _]. cbn in Hc.
    unfold row_of. cbn. rewrite Hc. cbn. by rewrite score_client_empty.
  - apply list_fmap_ext. intros i [c p] Hi. apply list_elem_of_lookup_2 in Hi.
    apply list_elem_of_filter in Hi as [Hc _]. cbn in Hc.
    rewrite elem_of_union in Hc. assert (windows s !! c = None) as Hw.
    { apply not_elem_of_dom. naive_solver. }
    unfold row_of. cbn. rewrite Hw. cbn. by rewrite score_client_empty.
Qed.

Lemma hiter_dom `{HashIter} {A} (m : gmap ClientId A) c : c ∈ (hiter m).*1 ↔ c ∈ dom m.
Proof.
  rewrite elem_of_dom, list_elem_of_fmap. split.
  - intros ([c' a] & -> & Ha%hiter_elem). by eexists.
  - intros [a Ha]. exists (c, a). by rewrite hiter_elem.
Qed.

Lemma row_clients_elem `{HashIter} s c :
  c ∈ row_clients s ↔ c ∈ dom (windows s) ∪ dom (policies s) ∪ dom (snapshot_clients (counters s)).
Proof.
  unfold row_clients. rewrite !elem_of_app, !list_elem_of_filter, !hiter_dom, !elem_of_union.
  destruct (decide (c ∈ dom (windows s))), (decide (c ∈ dom (policies s))); naive_solver.
Qed.

Lemma row_clients_NoDup `{HashIter} s : NoDup (row_clients s).
Proof.
  unfold row_clients. apply NoDup_app. split_and!.
  - apply hiter_NoDup.
  - intros c Hc%hiter_dom. rewrite elem_of_app, !list_elem_of_filter, elem_of_union. naive_solver.
  - apply NoDup_app. split_and!; [apply NoDup_filter, hiter_NoDup| |apply NoDup_filter, hiter_NoDup].
    intros c [_ Hc%hiter_dom]%list_elem_of_filter.
    rewrite list_elem_of_filter, elem_of_union. naive_solver.
Qed.

Lemma row_clients_perm (HI1 HI2 : HashIter) s : @row_clients HI1 s ≡ₚ @row_clients HI2 s.
Proof.
  apply NoDup_Permutation; [apply row_clients_NoDup..|]. intros c. by rewrite !row_clients_elem.
Qed.

Lemma row_of_fst s rs l : (row_of s rs <$> l).*1 = l.
Proof. rewrite <- list_fmap_compose. apply list_fmap_id. Qed.

Lemma sorted_rows `{HashIter} s rs :
  ∃ cs, merge_sort row_le (scored s rs) = row_of s rs <$> cs ∧ cs ≡ₚ row_clients s.
Proof.
  destruct (Permutation_map_inv (row_of s rs) (row_clients s)
    (l1 := merge_sort row_le (scored s rs))) as (cs & Hcs & Hp); [|by exists cs].
  rewrite merge_sort_Permutation. by rewrite scored_rows.
Qed.

(** The order of the rows, on the clients. *)
Definition ip_before (i j : IpAddr) : Prop :=
  match i, j with
  | V4 a b c d, V4 a' b' c' d' => lex [a; b; c; d] [a'; b'; c'; d'] = Lt
  | V4 _ _ _ _, V6 _ => True
  | V6 _, V4 _ _ _ _ => False
  | V6 x, V6 y => lex x y = Lt
  end.

Definition client_before (a b : ClientId) : Prop :=
  lex (mac a) (mac b) = Lt ∨ mac a = mac b ∧ ip_before (ip a) (ip b).

Lemma foldl_max_foldr l b : foldl Z.max b l = Z.max b (foldr Z.max 0 l) ∨ b < 0.
Proof.
  revert b. induction l as [|x l IH]; intros b; cbn [foldl foldr]; [lia|].
  destruct (Z.lt_ge_cases b 0); [by right|]. destruct (IH (Z.max b x)) as [->|?]; [left|]; lia.
Qed.

Lemma row_score_of s rs c :
  row_score (row_of s rs c) = foldr Z.max 0 (rule_value (default ∅ (windows s !! c)) <$> rs).
Proof.
  unfold row_of, row_score. rewrite score_client_spec. cbn [fst snd].
  assert (0 ≤ foldr Z.max 0 (rule_value (default ∅ (windows s !! c)) <$> rs)) as Hpos.
  { induction rs as [|r rs IH]; cbn [fmap list_fmap foldr]; lia. }
  destruct (foldl_max_foldr (rule_value (default ∅ (windows s !! c)) <$> rs) 0); lia.
Qed.

Lemma row_hot_of s rs c :
  row_hot (row_of s rs c) = existsb (rule_hot (default ∅ (windows s !! c))) rs.
Proof. unfold row_of, row_hot. by rewrite score_client_spec. Qed.

Lemma top_row_of s rs now c :
  top_row now s (row_of s rs c)
  = let win := default ∅ (windows s !! c) in
    let eff := from_option (λ p, merge_policy p now) EffNone (policies s !! c) in
    mkEntry (client_to_ref c) (Some (effective_to_wire eff)) (would_be_wire s c eff)
      ((λ r, observation r (rule_value win r)) <$> rs) (existsb (rule_hot win) rs)
      (stats_to_wire <$> snapshot_clients (counters s) !! c).
Proof. unfold top_row. rewrite row_hot_of. unfold row_of at 1 2 3 4 5. by rewrite score_client_spec. Qed.

Lemma row_cmp_before a b :
  row_cmp a b = Lt →
  (row_hot a = true ∧ row_hot b = false)
  ∨ row_hot a = row_hot b ∧ (row_score b < row_score a ∨ row_score a = row_score b ∧ client_before a.1 b.1).
Proof.
  unfold row_cmp. destruct (row_hot a), (row_hot b); cbn [bool_cmp then_with]; intros Hlt; try done; [|by left|];
    right; (split; [done|]); revert Hlt; unfold then_with.
  all: destruct (Z.compare_spec (row_score b) (row_score a)); [|by left|done].
  all: intros Hlt; right; (split; [done|]); unfold client_before.
  all: destruct (lex (mac a.1) (mac b.1)) eqn:Hm; [|by left|done].
  all: right; apply lex_eq in Hm; (split; [done|]); revert Hlt; by destruct (ip a.1), (ip b.1).
Qed.

Lemma sorted_lookup {A} (R : A → A → Prop) l i j a b :
  StronglySorted R l → (i < j)%nat → l !! i = Some a → l !! j = Some b → R a b.
Proof.
  intros Hs. revert i j. induction Hs as [|x l _ IH Hx]; intros i j Hij Ha Hb; [done|].
  destruct i as [|i], j as [|j]; [lia| |lia|].
  - injection Ha as ->. cbn in Hb. by eapply Forall_lookup_1 in Hb.
  - apply (IH i j); [lia|done..].
Qed.

Lemma rows_ordered s rs cs i j a b :
  NoDup cs → StronglySorted row_le (row_of s rs <$> cs) → (i < j)%nat → cs !! i = Some a → cs !! j = Some b →
  let value c r := rule_value (default ∅ (windows s !! c)) r in
  let score c := foldr Z.max 0 (value c <$> rs) in
  let hot c := existsb (rule_hot (default ∅ (windows s !! c))) rs in
  (hot a = true ∧ hot b = false) ∨ hot a = hot b ∧ (score b < score a ∨ score a = score b ∧ client_before a b).
Proof.
  intros Hnd Hs Hij Ha Hb value score hot.
  assert (row_le (row_of s rs a) (row_of s rs b)) as Hle.
  { eapply sorted_lookup; [exact Hs|exact Hij|by rewrite list_lookup_fmap, Ha|by rewrite list_lookup_fmap, Hb]. }
  assert (row_cmp (row_of s rs a) (row_of s rs b) = Lt) as Hlt.
  { unfold row_le in Hle. destruct (row_cmp _ _) eqn:Hc; [|done..]. apply row_cmp_eq in Hc. cbn in Hc. subst b.
    pose proof (NoDup_lookup _ _ _ _ Hnd Ha Hb). lia. }
  apply row_cmp_before in Hlt. rewrite !row_hot_of, !row_score_of in Hlt. exact Hlt.
Qed.
End top.

(** *** Manual commands *)
Lemma set_manual_frame `{CEL : CelEngine} {E} (s : DaemonState E) c m :
  set_manual s c m = with_policies s (policies (set_manual s c m))
  ∧ (∀ c', c' ≠ c → policies (set_manual s c m) !! c' = policies s !! c')
  ∧ policies (set_manual s c m) !! c
    = Some (mkPolicy m (auto_ (default policy0 (policies s !! c)))).
Proof.
  unfold set_manual. cbn [policies with_policies]. split_and!; [done| |apply lookup_insert_eq].
  intros c' Hne. by rewrite lookup_insert_ne.
Qed.

Lemma default_policy_ok `{CEL : CelEngine} {E} (s : DaemonState E) c :
  map_Forall (λ _, policy_ok) (policies s) → policy_ok (default policy0 (policies s !! c)).
Proof. intros Hp. destruct (policies s !! c) eqn:Hc; [by eapply Hp|apply policy0_ok]. Qed.

Lemma from_runtime_ok m now sys :
  (∀ r, m_throttle m = Some r → byte_ok r) → stored_ok (from_runtime m now sys).
Proof.
  intros Hr. split; [done|]. intros u. unfold from_runtime. cbn. destruct (m_until m) as [t|]; [|done].
  intros [= <-]. apply sat_add_ok; apply as_secs_nonneg; [lia|unfold sat_since; lia].
Qed.

Lemma parse_ref_ok r c : parse_ref r = Ok c → client_ok c.
Proof. intros Hc. apply map_err_Ok in Hc. by eapply client_from_str_ok. Qed.

Lemma parse_client_to_ref c : client_ok c → parse_ref (client_to_ref c) = Ok c.
Proof. intros Hc. apply map_err_Ok. by apply client_round_trip. Qed.

(** The stored side of a manual change. *)
Definition stored_change (k : Clocks) (c : ClientId) (m : option ManualPolicy) : store_op :=
  (c, (λ m, from_runtime m (clk_now k) (clk_sys k)) <$> m).

Section commands.
Context `{CEL : CelEngine} {E S : Type} `{ML : ManualStoreLaws S}.
Implicit Types s : DaemonState E.

Lemma persist_change k (st st' : S) m c o r :
  store_rel st m → client_ok c → (∀ mp t, o = Some mp → m_throttle mp = Some t → byte_ok t) →
  persist k st c o = (st', r) →
  ∃ m0, lapse m m0 ∧ (store_rel st' (op_apply m0 (stored_change k c o))
                      ∨ (store_rel st' m0 ∧ r ≠ Ok tt)).
Proof.
  intros Hm Hc Ho. unfold persist.
  destruct (persist_manual _ st c _) as [st1 x] eqn:Hx. intros [= <- <-].
  destruct (persist_spec (clk_store k) st m (stored_change k c o) st1 x Hm) as (m0 & Hl & H1);
    [|exact Hx|].
  - split; [done|]. cbn. intros p (mp & -> & ->)%fmap_Some. apply from_runtime_ok. eauto.
  - exists m0. split; [done|]. destruct H1 as [H1|[H1 H2]]; [by left|right]. split; [done|].
    by destruct x as [[]|].
Qed.

(** What a manual command does once its client is known: the manual policy of
    that client alone becomes [new], in memory and (unless an error is
    reported, in which case it may have failed) in the store. *)
Definition manual_changed (k : Clocks) s (m : gmap ClientId StoredManualPolicy) (c : ClientId)
    (new : option ManualPolicy) (x : DaemonState E * S * result () str) : Prop :=
  let '(s', st', r) := x in
  s' = with_policies s (policies s')
  ∧ (∀ c', c' ≠ c → policies s' !! c' = policies s !! c')
  ∧ policies s' !! c = Some (mkPolicy new (auto_ (default policy0 (policies s !! c))))
  ∧ ∃ m0, lapse m m0 ∧ (store_rel st' (op_apply m0 (stored_change k c new))
                        ∨ (store_rel st' m0 ∧ r ≠ Ok tt)).

Lemma set_persist_changed k s (st : S) m c new :
  store_rel st m → client_ok c →
  (∀ mp t, new = Some mp → m_throttle mp = Some t → byte_ok t) →
  manual_changed k s m c new
    (let '(st', r) := persist k st c new in (set_manual s c new, st', r)).
Proof.
  intros Hm Hc Ho. destruct (persist k st c new) as [st' r] eqn:Hx.
  destruct (set_manual_frame s c new) as (H1 & H2 & H3). split_and!; [done..|].
  by eapply persist_change.
Qed.

Definition old_manual s (c : ClientId) : ManualPolicy :=
  default manual0 (manual (default policy0 (policies s !! c))).

Lemma old_manual_ok s c t :
  map_Forall (λ _, policy_ok) (policies s) → m_throttle (old_manual s c) = Some t → byte_ok t.
Proof.
  intros Hp. pose proof (proj1 (default_policy_ok s c Hp)) as Hm. unfold old_manual.
  destruct (manual (default policy0 (policies s !! c))) as [m|]; [|done]. cbn. eauto.
Qed.

Lemma throttle_changed k s (st : S) m p c until :
  store_rel st m → map_Forall (λ _, policy_ok) (policies s) → throttle_params_ok p →
  parse_ref (th_client p) = Ok c → expiry (clk_now k) (th_duration_secs p) = Some until →
  ∃ x, throttle k s st p = Some x
    ∧ manual_changed k s m c
        (Some (mkManual (Some (default 50 (th_rate p))) (m_blocked (old_manual s c)) until)) x.
Proof.
  intros Hm Hp [Hr _] Hc Hu. unfold throttle. rewrite Hc, Hu. cbn [mbind option_bind].
  eexists. split; [done|]. apply set_persist_changed; [done|by eapply parse_ref_ok|].
  intros mp t [= <-] [= <-]. destruct (th_rate p) eqn:Hth; cbn; [by apply Hr|].
  unfold byte_ok, U8_MAX. lia.
Qed.

Lemma block_changed k s (st : S) m p c until :
  store_rel st m → map_Forall (λ _, policy_ok) (policies s) →
  parse_ref (bl_client p) = Ok c → expiry (clk_now k) (bl_duration_secs p) = Some until →
  ∃ x, block k s st p = Some x
    ∧ manual_changed k s m c (Some (mkManual (m_throttle (old_manual s c)) true until)) x.
Proof.
  intros Hm Hp Hc Hu. unfold block. rewrite Hc, Hu. cbn [mbind option_bind].
  eexists. split; [done|]. apply set_persist_changed; [done|by eapply parse_ref_ok|].
  intros mp t [= <-]. apply (old_manual_ok s c t Hp).
Qed.

Lemma clear_changed k s (st : S) m r c mp (f : ManualPolicy → ManualPolicy)
    (keep : ManualPolicy → bool) :
  store_rel st m → map_Forall (λ _, policy_ok) (policies s) → parse_ref r = Ok c →
  (∀ mp t, m_throttle (f mp) = Some t → m_throttle mp = Some t) →
  from_option manual None (policies s !! c) = Some mp →
  manual_changed k s m c (if keep (f mp) then Some (f mp) else None)
    (clear_manual k s st r f keep).
Proof.
  intros Hm Hp Hc Hf Hmp. unfold clear_manual. rewrite Hc.
  destruct (policies s !! c) as [[[mp'|] a]|] eqn:Hpc; try done. injection Hmp as ->.
  apply set_persist_changed; [done|by eapply parse_ref_ok|].
  intros mp' t Hk Ht. destruct (keep (f mp)); [|done]. injection Hk as <-.
  apply Hf in Ht. by apply (proj1 (Hp _ _ Hpc) mp).
Qed.

Lemma clear_nothing k s (st : S) r c f keep :
  parse_ref r = Ok c → from_option manual None (policies s !! c) = None →
  clear_manual k s st r f keep = (s, st, Ok tt).
Proof.
  intros Hc Hmp. unfold clear_manual. rewrite Hc.
  by destruct (policies s !! c) as [[[mp'|] a]|].
Qed.
End commands.

(** *** Commands keep the state well formed *)
Section state_ok.
Context `{HI : HashIter} `{CEL : CelEngine} {E S : Type} `{MS : ManualPolicyStore S}.
Implicit Types s : DaemonState E.

Definition request_ok (req : Request) : Prop := ∀ p, rq_params req = Some p → params_ok p.

Lemma set_manual_ok s c m :
  state_ok s → client_ok c → (∀ mp t, m = Some mp → m_throttle mp = Some t → byte_ok t) →
  state_ok (set_manual s c m).
Proof.
  intros Hs Hc Hm. apply insert_policy_ok; [done..|]. split; cbn; [naive_solver|].
  apply default_policy_ok, Hs.
Qed.

Lemma update_manual_ok k s (st : S) c until f :
  state_ok s → client_ok c →
  (∀ t, m_throttle (f (old_manual s c)) = Some t → byte_ok t) →
  state_ok (update_manual k s st c until f).1.1.
Proof.
  intros Hs Hc Hf. unfold update_manual. destruct (persist k st c _) as [st' r]. cbn.
  apply set_manual_ok; [done..|]. intros mp t [= <-]. apply Hf.
Qed.

Lemma clear_manual_ok k s (st : S) r f keep :
  state_ok s → (∀ mp t, m_throttle (f mp) = Some t → m_throttle mp = Some t) →
  state_ok (clear_manual k s st r f keep).1.1.
Proof.
  intros Hs Hf. unfold clear_manual. destruct (parse_ref r) as [c|e] eqn:Hc; [|done].
  destruct (policies s !! c) as [[[mp|] a]|] eqn:Hp; try done.
  destruct (persist k st c _) as [st' x]. cbn. apply set_manual_ok; [done|by eapply parse_ref_ok|].
  intros mp' t Hk Ht. destruct (keep (f mp)); [|done]. injection Hk as <-. apply Hf in Ht.
  by apply (proj1 (ok_policies _ Hs _ _ Hp) mp).
Qed.

Lemma dispatch_state_ok v k req s (st : S) s' st' resp :
  state_ok s → request_ok req → dispatch v k req s st = Some (s', st', resp) → state_ok s'.
Proof.
  intros Hs Hr. destruct req as [kd ps]. unfold dispatch. cbn [rq_kind rq_params].
  destruct kd; try (by intros [= <- _ _]); destruct ps as [[p|p|p|p]|]; try (by intros [= <- _ _]).
  - pose proof (Hr _ eq_refl) as [Hq _]. intros ([[s1 st1] r] & Hx & [= -> _ _])%fmap_Some.
    unfold throttle in Hx. destruct (parse_ref _) as [c|e] eqn:Hc; [|by injection Hx as -> _ _].
    apply bind_Some in Hx as (u & _ & Hx). injection Hx as Hx. apply (f_equal (λ x, x.1.1)) in Hx.
    cbn in Hx. rewrite <- Hx. apply update_manual_ok; [done|by eapply parse_ref_ok|].
    intros t [= <-]. destruct (th_rate p) eqn:Hth; cbn; [by apply Hq|]. unfold byte_ok, U8_MAX. lia.
  - intros [= H]. apply (f_equal (λ x, x.1.1)) in H. cbn in H.
    pose proof (clear_manual_ok k s st (cp_client p)
      (λ m, mkManual None (m_blocked m) (m_until m)) m_blocked Hs) as Hok.
    unfold clear_manual_throttle in H. destruct (clear_manual _ _ _ _ _ _) as [[s1 st1] r].
    cbn in H. subst. by apply Hok.
  - intros ([[s1 st1] r] & Hx & [= -> _ _])%fmap_Some.
    unfold block in Hx. destruct (parse_ref _) as [c|e] eqn:Hc; [|by injection Hx as -> _ _].
    apply bind_Some in Hx as (u & _ & Hx). injection Hx as Hx. apply (f_equal (λ x, x.1.1)) in Hx.
    cbn in Hx. rewrite <- Hx. apply update_manual_ok; [done|by eapply parse_ref_ok|].
    intros t Ht. by eapply old_manual_ok; [apply Hs|].
  - intros [= H]. apply (f_equal (λ x, x.1.1)) in H. cbn in H.
    pose proof (clear_manual_ok k s st (cp_client p)
      (λ m, mkManual (m_throttle m) false (m_until m)) (λ m, bool_decide (is_Some (m_throttle m))) Hs)
      as Hok.
    unfold clear_manual_block in H. destruct (clear_manual _ _ _ _ _ _) as [[s1 st1] r].
    cbn in H. subst. by apply Hok.
Qed.
End state_ok.

(** *** Decoded requests fit their types *)
Lemma int_of_range max j n : int_of max j = Some n → 0 ≤ n ≤ max.
Proof.
  destruct j; try done. cbn. destruct (Z.leb_spec 0 n0), (Z.leb_spec n0 max); try done.
  intros [= ->]. lia.
Qed.

Lemma opt_int_range max o v n : opt_int max o = Some v → v = Some n → 0 ≤ n ≤ max.
Proof.
  destruct o as [j|]; [|by intros [= <-]]. unfold opt_int.
  destruct j; try done; try (by intros [= <-]);
    intros (x & Hx & ->)%fmap_Some [= ->]; by eapply int_of_range.
Qed.

Lemma decoded_throttle_ok j p : of_json j = Some p → throttle_params_ok p.
Proof.
  unfold of_json, throttle_de. destruct (struct_of _ j) as [[|c [|r [|d [|]]]]|]; try done.
  intros Hp. apply bind_Some in Hp as (c' & _ & Hp). apply bind_Some in Hp as (r' & Hr & Hp).
  apply bind_Some in Hp as (d' & Hd & [= <-]). split; cbn.
  - intros n Hn. by eapply opt_int_range.
  - intros n Hn. by eapply opt_int_range.
Qed.

Lemma decoded_block_ok j p : of_json j = Some p → opt_u64 (bl_duration_secs p).
Proof.
  unfold of_json, block_de. destruct (struct_of _ j) as [[|c [|d [|]]]|]; try done.
  intros Hp. apply bind_Some in Hp as (c' & _ & Hp). apply bind_Some in Hp as (d' & Hd & [= <-]).
  intros n Hn. by eapply opt_int_range.
Qed.

Lemma decoded_top_ok j p : of_json j = Some p → u64_ok (tp_limit p).
Proof.
  unfold of_json, top_de. destruct (struct_of _ j) as [[|l [|r [|q [|m [|]]]]]|]; try done.
  intros Hp. apply bind_Some in Hp as (l' & Hl & Hp). apply bind_Some in Hp as (? & _ & Hp).
  apply bind_Some in Hp as (? & _ & Hp). apply bind_Some in Hp as (? & _ & [= <-]).
  destruct l as [l|]; [|done]. by eapply int_of_range.
Qed.

Lemma decoded_params_ok j p : of_json j = Some p → params_ok p.
Proof.
  rewrite params_of_json. unfold or_else.
  destruct (of_json j : option TopParams) as [q|] eqn:H1.
  { intros [= <-]. by eapply decoded_top_ok. }
  destruct (of_json j : option ThrottleParams) as [q|] eqn:H2.
  { intros [= <-]. by eapply decoded_throttle_ok. }
  destruct (of_json j : option ClientParams) as [q|] eqn:H3; [by intros [= <-]|].
  destruct (of_json j : option BlockParams) as [q|] eqn:H4; [|done].
  intros [= <-]. by eapply decoded_block_ok.
Qed.

Lemma decoded_request_ok j req : of_json j = Some req → request_ok req.
Proof.
  unfold of_json, request_de. destruct (struct_of _ j) as [[|k [|p [|]]]|]; try done.
  intros Hr. apply bind_Some in Hr as (k' & _ & Hr). apply bind_Some in Hr as (p' & Hp & [= <-]).
  intros q Hq. cbn in Hq. subst p'. destruct p as [jp|]; [|done].
  destruct jp; try done; apply fmap_Some in Hp as (q' & Hq & [= ->]); by eapply decoded_params_ok.
Qed.

(** *** Replies fit the wire types *)
Section typed.
Context `{HI : HashIter} `{CEL : CelEngine} {E S : Type} `{MS : ManualPolicyStore S}.
Implicit Types s : DaemonState E.

Lemma action_to_wire_ok a : action_ok a → action_wire_ok (action_to_wire a).
Proof. by destruct a; intros ? d [= <-]. Qed.

Lemma effective_to_wire_ok a : eff_ok a → action_wire_ok (effective_to_wire a).
Proof. by destruct a; intros ? d [= <-]. Qed.

Lemma would_be_wire_ok s c eff a :
  state_ok s → eff_ok eff → would_be_wire s c eff = Some a → action_wire_ok a.
Proof.
  intros Hs He. unfold would_be_wire. destruct (would_be s !! c) eqn:Hw.
  - intros [= <-]. apply effective_to_wire_ok. by apply (ok_would_be _ Hs) in Hw as (_ & _ & ? & _).
  - case_decide; [|done]. intros [= <-]. by apply effective_to_wire_ok.
Qed.

Lemma stats_to_wire_ok s c x :
  state_ok s → snapshot_clients (counters s) !! c = Some x → stats_wire_ok (stats_to_wire x).
Proof. intros Hs Hx. by apply (ok_counters _ Hs) in Hx. Qed.

Lemma client_stats_ok s c w :
  state_ok s → stats_to_wire <$> snapshot_clients (counters s) !! c = Some w → stats_wire_ok w.
Proof. intros Hs (x & Hx & ->)%fmap_Some. by eapply stats_to_wire_ok. Qed.

Lemma policy_eff_ok s c p now : state_ok s → policies s !! c = Some p → eff_ok (merge_policy p now).
Proof. intros Hs Hp. apply merge_policy_ok. by eapply (ok_policies _ Hs). Qed.

Lemma list_clients_typed now s : state_ok s → clients_ok (list_clients now s).
Proof.
  intros Hs. split; [|constructor]. apply Forall_app. split; apply Forall_fmap, Forall_forall.
  - intros [c p] Hp%hiter_elem. split_and!; cbn; [| |constructor|].
    + intros a [= <-]. by eapply effective_to_wire_ok, policy_eff_ok.
    + intros a. by eapply would_be_wire_ok, policy_eff_ok.
    + intros w. by apply client_stats_ok.
  - intros [c x] [_ Hx%hiter_elem]%list_elem_of_filter. split_and!; cbn; [|done|constructor|].
    + by intros a [= <-] d.
    + intros w [= <-]. by eapply stats_to_wire_ok.
Qed.

Lemma observation_ok r value : rule_typed r → u64_ok value → violation_wire_ok (observation r value).
Proof. intros (Ha & Hl & _) Hv. split_and!; [done..|]. by apply action_to_wire_ok. Qed.

Lemma score_client_ok win rs :
  windows_ok win → Forall rule_typed rs → Forall violation_wire_ok (score_client win rs).2.
Proof.
  intros Hw Hrs. rewrite score_client_spec. cbn. apply Forall_fmap.
  eapply Forall_impl; [exact Hrs|]. intros r Hr. cbn. apply observation_ok; [done|].
  by apply rw_sum_ok.
Qed.

Lemma row_of_ok s rs c :
  state_ok s → Forall rule_typed rs → Forall violation_wire_ok (row_of s rs c).2.2.
Proof.
  intros Hs Hrs. apply score_client_ok; [|done].
  destruct (windows s !! c) eqn:Hw; [by eapply (ok_windows _ Hs)|apply map_Forall_empty].
Qed.

Lemma truncate_incl {A : Type} n (l : list A) x : x ∈ truncate n l → x ∈ l.
Proof. unfold truncate. case_match; [|done]. apply subseteq_take. Qed.

Lemma top_typed now s params : state_ok s → clients_ok (top now s params).
Proof.
  intros Hs. assert (Forall rule_typed (matching_rules params (rules s))) as Hrs.
  { apply Forall_forall. intros r [_ Hr]%list_elem_of_filter. pose proof (ok_types _ Hs) as Ht.
    rewrite Forall_forall in Ht. by apply Ht. }
  split; cbn; apply Forall_fmap.
  - apply Forall_forall. intros row Hrow%truncate_incl. rewrite merge_sort_Permutation, scored_rows in Hrow.
    apply list_elem_of_fmap in Hrow as (c & -> & _).
    assert (eff_ok (from_option (λ p, merge_policy p now) EffNone (policies s !! c))) as He.
    { destruct (policies s !! c) eqn:Hp; [by eapply policy_eff_ok|done]. }
    split_and!; cbn.
    + intros a [= <-]. by apply effective_to_wire_ok.
    + intros a. by apply would_be_wire_ok.
    + by apply row_of_ok.
    + intros w. by apply client_stats_ok.
  - eapply Forall_impl; [exact Hrs|]. by intros r (_ & ? & ? & _).
Qed.

Lemma list_rules_typed s : state_ok s → Forall rule_wire_ok (rr_rules (list_rules s)).
Proof.
  intros Hs. cbn. apply Forall_fmap. eapply Forall_impl; [apply (ok_types _ Hs)|].
  intros r (Ha & Hl & Ht & Hp). split_and!; [done..| |done]. by apply action_to_wire_ok.
Qed.

Lemma reply_typed kd (r : result () str) : response_wf (reply kd r).
Proof. by destruct r; intros b [= <-]. Qed.

Lemma replied_typed kd (x : DaemonState E * S * result () str) : response_wf (replied kd x).2.
Proof. destruct x as [[s st] r]. apply reply_typed. Qed.

Lemma dispatch_typed v k req s (st : S) s' st' resp :
  state_ok s → dispatch v k req s st = Some (s', st', resp) → response_wf resp.
Proof.
  intros Hs. destruct req as [kd ps]. unfold dispatch. cbn [rq_kind rq_params].
  destruct kd; try (by intros [= _ _ <-] b [= <-]).
  - intros [= _ _ <-] b [= <-]. by apply top_typed.
  - intros [= _ _ <-] b [= <-]. by apply list_clients_typed.
  - destruct ps as [[p|p|p|p]|]; try (by intros [= _ _ <-]).
    intros (x & _ & Hx)%fmap_Some. apply (f_equal snd) in Hx. cbn [snd] in Hx. rewrite Hx. apply replied_typed.
  - destruct ps as [[p|p|p|p]|]; try (by intros [= _ _ <-]).
    intros [= Hx]. apply (f_equal snd) in Hx. cbn [snd] in Hx. rewrite <- Hx. apply replied_typed.
  - destruct ps as [[p|p|p|p]|]; try (by intros [= _ _ <-]).
    intros (x & _ & Hx)%fmap_Some. apply (f_equal snd) in Hx. cbn [snd] in Hx. rewrite Hx. apply replied_typed.
  - destruct ps as [[p|p|p|p]|]; try (by intros [= _ _ <-]).
    intros [= Hx]. apply (f_equal snd) in Hx. cbn [snd] in Hx. rewrite <- Hx. apply replied_typed.
  - intros [= _ _ <-] b [= <-]. by apply list_rules_typed.
Qed.

Lemma execute_typed describe v k body s s' (st st' : S) resp :
  state_ok s → execute describe v k body s st = Some (s', st', resp) →
  state_ok s' ∧ response_wf resp.
Proof.
  intros Hs. unfold execute. destruct (of_json body) as [req|] eqn:Hreq; [|by intros [= <- _ <-]].
  apply decoded_request_ok in Hreq. intros Hx. split.
  - exact (dispatch_state_ok v k req s st s' st' resp Hs Hreq Hx).
  - exact (dispatch_typed v k req s st s' st' resp Hs Hx).
Qed.
End typed.

(** ** Properties *)

(** C19 (top_ranking): the answer to [top] does not depend on the iteration order
    of any hash map.  Its rows are the clients with windows, a policy or
    counters, each once, cut at the limit (0 is no limit).  Hot clients come
    first; among clients that are both hot or both not, the larger score comes
    first; with the same score, the smaller MAC, then the smaller address, IPv4
    before IPv6.  The score of a client is the largest windowed value over the
    selected rules (0 without any); it is hot when the value of some rule is
    positive and at least the threshold of the rule, so a threshold of zero alone
    makes nobody hot.  A row has the effective action, the observations, which
    are the windowed values, one per column and in the columns' order, and the
    statistics of its client. *)
Theorem top_ranking `{CEL : CelEngine} {E} (s : DaemonState E) now params :
  let rs := matching_rules params (rules s) in
  let value c r := rw_sum (default ∅ (windows s !! c)) (r_id r) (r_metric r) (window_secs (r_window r)) in
  let score c := foldr Z.max 0 (value c <$> rs) in
  let hot c := existsb (λ r, (r_min_threshold r <=? value c r) && (0 <? value c r)) rs in
  let action c := from_option (λ p, merge_policy p now) EffNone (policies s !! c) in
  let row c := mkEntry (client_to_ref c) (Some (effective_to_wire (action c))) (would_be_wire s c (action c))
                 ((λ r, mkViolationWire (r_id r) (value c r) (r_limit r) (action_to_wire (r_action r))) <$> rs)
                 (hot c) (stats_to_wire <$> snapshot_clients (counters s) !! c) in
  ∃ cs, NoDup cs
    ∧ (∀ c, c ∈ cs ↔ c ∈ dom (windows s) ∪ dom (policies s) ∪ dom (snapshot_clients (counters s)))
    ∧ (∀ i j a b, (i < j)%nat → cs !! i = Some a → cs !! j = Some b →
         (hot a = true ∧ hot b = false)
         ∨ hot a = hot b ∧ (score b < score a ∨ score a = score b ∧ client_before a b))
    ∧ ∀ HI : HashIter,
        cr_clients (top now s params)
          = row <$> (if decide (tp_limit params ≤ 0) then cs else take (Z.to_nat (tp_limit params)) cs)
        ∧ tc_rule_id <$> cr_columns (top now s params) = r_id <$> rs.
Proof.
  intros rs value score hot action row.
  destruct (sorted_rows (H := hash_forward) s rs) as (cs & Hcs & Hp). exists cs.
  assert (NoDup cs) as Hnd by (rewrite Hp; apply row_clients_NoDup). split_and!.
  - exact Hnd.
  - intros c. rewrite Hp. apply row_clients_elem.
  - pose proof (StronglySorted_merge_sort row_le (@scored hash_forward _ _ s rs)) as Hsort. rewrite Hcs in Hsort.
    intros i j a b Hij Ha Hb. apply (rows_ordered s rs cs i j a b Hnd Hsort Hij Ha Hb).
  - intros HI. split.
    + unfold top. cbn [cr_clients]. fold rs.
      assert (merge_sort row_le (scored s rs) = row_of s rs <$> cs) as ->.
      { rewrite <- Hcs. apply rows_unique.
        - rewrite scored_rows, row_of_fst. apply row_clients_NoDup.
        - rewrite !scored_rows. apply fmap_Permutation, row_clients_perm. }
      unfold truncate. destruct (Z.ltb_spec 0 (tp_limit params)); case_decide; try lia;
        rewrite <- ?fmap_take, <- list_fmap_compose; apply list_fmap_ext; intros i c _; apply top_row_of.
    + unfold top. cbn [cr_columns]. fold rs. by rewrite <- list_fmap_compose.
Qed.

(** C16 (manual_commands_spec): with any store that keeps its promise, a manual
    command whose client parses changes the manual policy of that client alone,
    in memory and in the store, and keeps its automatic policy: [throttle] sets
    the rate (50 by default) and keeps the block, [block] sets the block and
    keeps the rate, both replace the one expiry that rate and block share;
    the clear commands drop their half and, when nothing is left, the whole
    manual policy; with nothing to clear they do nothing.  A client that does
    not parse changes nothing and is reported; the only panic is an expiry that
    does not fit the clock. *)
Theorem manual_commands_spec `{CEL : CelEngine} {E S} `{ML : ManualStoreLaws S} k
    (s : DaemonState E) (st : S) m r :
  store_rel st m → map_Forall (λ _, policy_ok) (policies s) →
  match parse_ref r with
  | Err e =>
      (∀ d, block k s st (mkBlockParams r d) = Some (s, st, Err e))
      ∧ (∀ q d, throttle k s st (mkThrottleParams r q d) = Some (s, st, Err e))
      ∧ clear_manual_block k s st r = (s, st, Err e)
      ∧ clear_manual_throttle k s st r = (s, st, Err e)
  | Ok c =>
      let old := old_manual s c in
      (∀ d, match expiry (clk_now k) d with
            | None => block k s st (mkBlockParams r d) = None
            | Some until => ∃ x, block k s st (mkBlockParams r d) = Some x
                ∧ manual_changed k s m c (Some (mkManual (m_throttle old) true until)) x
            end)
      ∧ (∀ q d, (∀ n, q = Some n → byte_ok n) → opt_u64 d →
            match expiry (clk_now k) d with
            | None => throttle k s st (mkThrottleParams r q d) = None
            | Some until => ∃ x, throttle k s st (mkThrottleParams r q d) = Some x
                ∧ manual_changed k s m c
                    (Some (mkManual (Some (default 50 q)) (m_blocked old) until)) x
            end)
      ∧ match from_option manual None (policies s !! c) with
        | None => clear_manual_block k s st r = (s, st, Ok tt)
                  ∧ clear_manual_throttle k s st r = (s, st, Ok tt)
        | Some mp =>
            manual_changed k s m c
              (match m_throttle mp with
               | Some q => Some (mkManual (Some q) false (m_until mp))
               | None => None
               end) (clear_manual_block k s st r)
            ∧ manual_changed k s m c
                (if m_blocked mp then Some (mkManual None true (m_until mp)) else None)
                (clear_manual_throttle k s st r)
        end
  end.
Proof.
  intros Hm Hp. destruct (parse_ref r) as [c|e] eqn:Hc.
  - intros old. split_and!.
    + intros d. destruct (expiry (clk_now k) d) as [u|] eqn:Hu.
      * by apply (block_changed k s st m (mkBlockParams r d) c u).
      * unfold block. cbn [bl_client bl_duration_secs]. by rewrite Hc, Hu.
    + intros q d Hq Hd. destruct (expiry (clk_now k) d) as [u|] eqn:Hu.
      * by apply (throttle_changed k s st m (mkThrottleParams r q d) c u).
      * unfold throttle. cbn [th_client th_duration_secs]. by rewrite Hc, Hu.
    + destruct (from_option manual None (policies s !! c)) as [mp|] eqn:Hmp.
      * split.
        -- pose proof (clear_changed k s st m r c mp
             (λ m, mkManual (m_throttle m) false (m_until m))
             (λ m, bool_decide (is_Some (m_throttle m))) Hm Hp Hc (λ _ _ H, H) Hmp) as H1.
           cbn [m_throttle m_until] in H1. by destruct (m_throttle mp).
        -- pose proof (clear_changed k s st m r c mp
             (λ m, mkManual None (m_blocked m) (m_until m)) m_blocked Hm Hp Hc) as H1.
           cbn [m_blocked m_throttle m_until] in H1. by destruct (m_blocked mp); apply H1.
      * by split; eapply clear_nothing.
  - unfold block, throttle, clear_manual_block, clear_manual_throttle, clear_manual.
    cbn [bl_client th_client]. by rewrite Hc.
Qed.

Lemma manual_commands_spec_witness :
  let r := client_to_ref demo_client in
  ∃ x, block (mkClocks 0 0 0) demo_state memory0 (mkBlockParams r (Some 60)) = Some x
    ∧ manual_changed (ML := memory_laws (HI := hash_forward)) (mkClocks 0 0 0) demo_state ∅ demo_client
        (Some (mkManual None true (Some (60 * NS)))) x.
Proof.
  intros r.
  pose proof (manual_commands_spec (ML := memory_laws (HI := hash_forward)) (mkClocks 0 0 0)
    demo_state memory0 ∅ r (memory0_rel (HI := hash_forward)) (ok_policies _ demo_state_ok)) as H.
  assert (parse_ref r = Ok demo_client) as Hc by (vm_compute; reflexivity).
  rewrite Hc in H. destruct H as [H _]. exact (H (Some 60)).
Defined.

(** What the client library sends and what it is answered: [body] is the JSON
    object of a request. *)
Lemma dispatch_read `{HI : HashIter} `{CEL : CelEngine} {E S} `{MS : ManualPolicyStore S}
    describe v k req (s : DaemonState E) (st : S) :
  (∀ q, rq_params req = Some q → params_ok q) →
  execute describe v k (to_json req) s st
  = dispatch v k (mkRequest (rq_kind req) (read_as <$> rq_params req)) s st.
Proof. intros Hp. unfold execute. destruct req as [kd p]. by rewrite request_read_as. Qed.

(** C15 (wire_rejects_block_and_clears): no [block], [unblock] or [unthrottle]
    command of a client gets through: whatever the client reference and the
    duration, the daemon reads the parameters as throttle parameters, answers
    that the parameters are missing, and changes neither its state nor the
    store.  More generally no JSON object whose [params] is not an array is
    ever executed as a block. *)
Theorem wire_rejects_block_and_clears `{HI : HashIter} `{CEL : CelEngine} {E S}
    `{MS : ManualPolicyStore S} describe v k (s : DaemonState E) (st : S) :
  (∀ p, opt_u64 (bl_duration_secs p) →
     execute describe v k (to_json (with_params KBlock (PBlock p))) s st
     = Some (s, st, response_err KBlock (invalid (lit "missing block params"))))
  ∧ (∀ p, execute describe v k (to_json (with_params KUnblock (PClient p))) s st
          = Some (s, st, response_err KUnblock (invalid (lit "missing client"))))
  ∧ (∀ p, execute describe v k (to_json (with_params KUnthrottle (PClient p))) s st
          = Some (s, st, response_err KUnthrottle (invalid (lit "missing client"))))
  ∧ (∀ fs req, of_json (JObj fs) = Some req → rq_kind req = KBlock →
       (∀ l, assoc (lit "params") fs ≠ Some (JArr l)) →
       execute describe v k (JObj fs) s st
       = Some (s, st, response_err KBlock (invalid (lit "missing block params")))).
Proof.
  split_and!.
  - intros p Hp. by rewrite dispatch_read by (intros q [= <-]; done).
  - intros p. by rewrite dispatch_read by (intros q [= <-]; done).
  - intros p. by rewrite dispatch_read by (intros q [= <-]; done).
  - intros fs [kd ps] Hr Hk Hl. unfold execute. rewrite Hr. cbn in Hk. subst kd. cbn.
    destruct ps as [[p|p|p|p]|]; try done.
    destruct (block_needs_array fs _ p Hr eq_refl) as [l Hj]. by destruct (Hl l).
Qed.

(** C17 (replies_typed): whatever JSON value a request is, the state stays well
    formed and the reply is a value of the wire types (counters, limits and
    windowed values are [u64], rates [u8], ports [u16]), which the client reads
    back as it was sent. *)
Theorem replies_typed `{HI : HashIter} `{CEL : CelEngine} {E S} `{MS : ManualPolicyStore S} describe
    v k body (s s' : DaemonState E) (st st' : S) resp :
  state_ok s → execute describe v k body s st = Some (s', st', resp) →
  state_ok s' ∧ response_wf resp ∧ of_json (to_json resp) = Some resp.
Proof.
  intros Hs Hx. destruct (execute_typed _ _ _ _ _ _ _ _ _ Hs Hx) as [H1 H2].
  split_and!; [exact H1|exact H2|by apply of_to_json].
Qed.

Lemma replies_typed_witness :
  let H := hash_forward in let C := yes_engine in
  let x := execute (λ _, []) (version_info None None) (mkClocks 0 0 0)
             (to_json (request_new KTop)) demo_state memory0 in
  ∃ s' st' resp, x = Some (s', st', resp) ∧ state_ok s' ∧ of_json (to_json resp) = Some resp.
Proof.
  intros H C x. destruct x as [[[s' st'] resp]|] eqn:Hx.
  - exists s', st', resp. split; [reflexivity|].
    destruct (replies_typed (λ _, []) (version_info None None) (mkClocks 0 0 0)
      (to_json (request_new KTop)) demo_state s' memory0 st' resp demo_state_ok Hx) as (H1 & _ & H3).
    split; [exact H1|exact H3].
  - exfalso. apply (f_equal (from_option (λ _, true) false)) in Hx. vm_compute in Hx. discriminate.
Defined.
