(* ===== verification/Sdk.v ===== *)
(** The Rust client library ([crates/mw-client]): the socket it talks to, one
    request and one response per connection, and what it makes of the answers of
    the daemon. *)

From S2P Require Import Prelude Text Client Rule Window Policy Counters Enforcer Config State Json Wire Store Ipc.

(** ** The transport

    A Unix stream and the length-prefixed JSON frames of the shared daemon
    library, over a world [W].  [read_frame] yields the JSON value of a frame;
    [bad_shape] is the frame error for a value that does not deserialise. *)
Class Transport (W : Type) := {
  Stream : Type;
  IoError : Type;
  FrameError : Type;
  unix_connect : str → SE W IoError Stream;
  set_timeouts : Stream → Z → W → W;
  write_frame : Stream → Json → SE W FrameError ();
  read_frame : Stream → SE W FrameError Json;
  bad_shape : Json → FrameError
}.

(** The text that a derived [Debug] prints, used in one error message only. *)
Class DebugText := debug_body : ResultBody → str.

Section sdk.
Context `{TR : Transport W} `{DBG : DebugText}.

(** ** Errors *)
Inductive ClientError :=
| CFrame (e : FrameError)
| CServer (code message : str)
| CUnexpected (what : str)
| CConnect (e : IoError).

Definition from_body (e : ErrorBody) : ClientError := CServer (er_code e) (er_message e).

(** ** The client *)
Definition DEFAULT_SOCKET : str := lit "/data/run/microwaf/microwaf.sock".
Definition DEFAULT_TIMEOUT : Z := from_secs 10.

(** [env] is [std::env::var]; [data_socket] is what the shared library resolves
    from the data directory. *)
Definition resolve_socket (env : str → option str) (data_socket : str) (override_path : option str) :
    str :=
  match override_path with
  | Some p => p
  | None => match env (lit "MICROWAF_SOCKET") with
            | Some p => p
            | None => data_socket
            end
  end.

Record WafClient := mkWafClient { socket : str; timeout : Z }.

Definition with_socket (s : str) : WafClient := mkWafClient s DEFAULT_TIMEOUT.

Abbreviation ClientM := (SE W ClientError).

(** A fallible call with its error converted ([map_err], [?]). *)
Definition converted {A F} (f : F → ClientError) (m : SE W F A) : ClientM A := λ w,
  let '(w', r) := m w in (w', map_err f r).

(** Both timeouts; a failure to set them is ignored. *)
Definition timed (stream : Stream) (t : Z) : ClientM Stream := λ w,
  (set_timeouts stream t w, Ok stream).

Definition connect (c : WafClient) : ClientM Stream :=
  stream ← converted CConnect (unix_connect (socket c));
  timed stream (timeout c).

(** The read side of [read_frame::<Response>]. *)
Definition decode_response (j : Json) : result Response FrameError :=
  match of_json j with
  | Some r => Ok r
  | None => Err (bad_shape j)
  end.

Definition round_trip (c : WafClient) (req : Request) : ClientM ResultBody :=
  stream ← connect c;
  _ ← converted CFrame (write_frame stream (to_json req));
  j ← converted CFrame (read_frame stream);
  resp ← converted CFrame (se_lift (decode_response j));
  se_lift
    match rs_error resp with
    | Some err => Err (from_body err)
    | None => match rs_result resp with
              | Some b => Ok b
              | None => Err (CUnexpected (lit "missing result"))
              end
    end.

(** The [match] of each method on the result. *)
Definition expect {A} (f : ResultBody → option A) (m : ClientM ResultBody) : ClientM A :=
  b ← m;
  se_lift match f b with
          | Some a => Ok a
          | None => Err (CUnexpected (debug_body b))
          end.

Definition as_info (b : ResultBody) : option InfoResult :=
  match b with RInfo r => Some r | _ => None end.
Definition as_clients (b : ResultBody) : option ClientsResult :=
  match b with RClients r => Some r | _ => None end.
Definition as_rules (b : ResultBody) : option RulesResult :=
  match b with RRules r => Some r | _ => None end.
Definition as_empty (b : ResultBody) : option () :=
  match b with REmpty _ => Some tt | _ => None end.

Definition sdk_info (c : WafClient) : ClientM InfoResult :=
  expect as_info (round_trip c (request_new KInfo)).
Definition sdk_top (c : WafClient) (params : TopParams) : ClientM TopResult :=
  expect as_clients (round_trip c (with_params KTop (PTop params))).
Definition sdk_list_clients (c : WafClient) : ClientM ClientsResult :=
  expect as_clients (round_trip c (request_new KListClients)).
Definition sdk_list_rules (c : WafClient) : ClientM RulesResult :=
  expect as_rules (round_trip c (request_new KListRules)).
Definition sdk_throttle (c : WafClient) (params : ThrottleParams) : ClientM () :=
  expect as_empty (round_trip c (with_params KThrottle (PThrottle params))).
Definition sdk_unthrottle (c : WafClient) (client : ClientRef) : ClientM () :=
  expect as_empty (round_trip c (with_params KUnthrottle (PClient (mkClientParams client)))).
Definition sdk_block (c : WafClient) (params : BlockParams) : ClientM () :=
  expect as_empty (round_trip c (with_params KBlock (PBlock params))).
Definition sdk_unblock (c : WafClient) (client : ClientRef) : ClientM () :=
  expect as_empty (round_trip c (with_params KUnblock (PClient (mkClientParams client)))).
End sdk.

(** ** The daemon at the other end

    What is assumed of the transport when the daemon listens on the socket and
    nothing else happens meanwhile: connecting and reading leave the daemon
    alone; a request written to a stream is handled once, by [execute], or lost
    (broken connection, panic of the handler); only its reply can be read. *)
Section served.
Context `{HI : HashIter} `{CEL : CelEngine} {E S : Type} `{MS : ManualPolicyStore S}.
Context `{TR : Transport W} `{DBG : DebugText}.

Definition handled (describe : Json → str) (v : Info) (old new : DaemonState E * S) (j : Json)
    (reply : option Json) : Prop :=
  (∃ k resp, execute describe v k j old.1 old.2 = Some (new, resp) ∧ reply = Some (to_json resp))
  ∨ (new = old ∧ reply = None).

Class DaemonTransport := {
  daemon : W → DaemonState E * S;
  pending : W → Stream → option Json;
  served_describe : Json → str;
  served_info : Info;
  connect_quiet : ∀ s w w' r, unix_connect s w = (w', r) → daemon w' = daemon w;
  timeouts_quiet : ∀ st t w, daemon (set_timeouts st t w) = daemon w;
  write_handled : ∀ st j w w' r, write_frame st j w = (w', r) →
    handled served_describe served_info (daemon w) (daemon w') j (pending w' st);
  read_quiet : ∀ st w w' r, read_frame st w = (w', r) →
    daemon w' = daemon w ∧ ∀ j, r = Ok j → pending w st = Some j
}.
Context `{DT : DaemonTransport}.

(** The outcomes of a round trip. *)
Definition answered (req : Request) (w w' : W) (r : result ResultBody ClientError) : Prop :=
  (daemon w' = daemon w ∧ ∀ b, r ≠ Ok b)
  ∨ ∃ k resp, execute served_describe served_info k (to_json req) (daemon w).1 (daemon w).2
              = Some (daemon w', resp)
      ∧ ∀ b, r = Ok b → rs_error resp = None ∧ rs_result resp = Some b.

Lemma converted_run {A F} (f : F → ClientError) (m : SE W F A) w :
  converted f m w = ((m w).1, map_err f (m w).2).
Proof. unfold converted. by destruct (m w). Qed.

Lemma round_trip_answered c req w w' r :
  state_ok (daemon w).1 → round_trip c req w = (w', r) → answered req w w' r.
Proof.
  intros Hs. unfold answered, round_trip, connect. rewrite se_bind_run, se_bind_run, converted_run.
  destruct (unix_connect (socket c) w) as [w1 [stream|e]] eqn:Hc; cbn.
  2: { intros [= <- <-]. left. by apply connect_quiet in Hc. }
  apply connect_quiet in Hc. rewrite se_bind_run, converted_run.
  pose proof (timeouts_quiet stream (timeout c) w1) as Ht.
  destruct (write_frame stream (to_json req) (set_timeouts stream (timeout c) w1)) as [w2 rw] eqn:Hw.
  apply write_handled in Hw as Hh. rewrite Ht, Hc in Hh. cbn.
  assert (rw = Ok tt → ∀ w3 rr, read_frame stream w2 = (w3, rr) →
    daemon w3 = daemon w2 ∧ ∀ j, rr = Ok j → pending w2 stream = Some j) as Hread.
  { intros _ w3 rr Hrd. by apply read_quiet in Hrd. }
  destruct rw as [[]|e]; cbn.
  2: { intros [= <- <-]. destruct Hh as [(k & [] & Hx & _)|[Hd _]]; [right|by left].
       eexists k, _. split; [exact Hx|done]. }
  rewrite se_bind_run, converted_run. destruct (read_frame stream w2) as [w3 rr].
  destruct (Hread eq_refl w3 rr eq_refl) as [Hd3 Hj]. cbn. destruct rr as [j|e]; cbn.
  2: { intros [= <- <-]. rewrite Hd3. destruct Hh as [(k & resp & Hx & _)|[Hd _]]; [right|by left].
       exists k, resp. by split. }
  specialize (Hj j eq_refl). destruct Hh as [(k & resp & Hx & Hp)|[Hd Hp]].
  2: { by rewrite Hj in Hp. }
  rewrite Hj in Hp. injection Hp as ->. rewrite <- Hd3 in Hx.
  destruct (execute_typed served_describe served_info k (to_json req) (daemon w).1
    (daemon w3).1 (daemon w).2 (daemon w3).2 resp Hs) as [_ Hwf].
  { rewrite Hx. by destruct (daemon w3). }
  rewrite se_bind_run, converted_run. cbn. unfold decode_response.
  rewrite (of_to_json (RoundTrip := response_rt) resp) by exact Hwf. cbn.
  intros [= <- <-]. right. exists k, resp. split; [exact Hx|]. intros b.
  destruct (rs_error resp); [done|]. by destruct (rs_result resp); intros [= <-].
Qed.

Lemma expect_run {A} (f : ResultBody → option A) m w w' r :
  expect f m w = (w', r) →
  ∃ rb, m w = (w', rb) ∧ ∀ a, r = Ok a → ∃ b, rb = Ok b ∧ f b = Some a.
Proof.
  unfold expect. rewrite se_bind_run. destruct (m w) as [w1 [b|e]]; cbn; intros [= <- <-].
  - exists (Ok b). split; [done|]. intros a. destruct (f b) eqn:Hf; intros [= <-]. by exists b.
  - by eexists.
Qed.

(** A method: the answer of the daemon, of the expected kind, or an error. *)
Lemma method_answered {A} (f : ResultBody → option A) c req w w' r :
  state_ok (daemon w).1 → (∀ q, rq_params req = Some q → params_ok q) →
  expect f (round_trip c req) w = (w', r) →
  (daemon w' = daemon w ∧ ∀ a, r ≠ Ok a)
  ∨ ∃ k resp, dispatch served_info k (mkRequest (rq_kind req) (read_as <$> rq_params req))
                (daemon w).1 (daemon w).2 = Some (daemon w', resp)
      ∧ ∀ a, r = Ok a → rs_error resp = None ∧ ∃ b, rs_result resp = Some b ∧ f b = Some a.
Proof.
  intros Hs Hp (rb & Hrun & Ha)%expect_run.
  destruct (round_trip_answered _ _ _ _ _ Hs Hrun) as [[Hd Hb]|(k & resp & Hx & Hb)].
  - left. split; [done|]. intros a Hr. destruct (Ha a Hr) as (b & Hrb & _). by apply (Hb b).
  - right. rewrite dispatch_read in Hx by exact Hp. exists k, resp. split; [exact Hx|].
    intros a Hr. destruct (Ha a Hr) as (b & Hrb & Hf). destruct (Hb b Hrb) as [H1 H2].
    split; [done|]. by exists b.
Qed.

(** A query: it changes nothing, answered or not, and its answer is a function of
    the state. *)
Lemma method_query {A} (f : ResultBody → option A) c req w w' r (body : Clocks → DaemonState E → ResultBody) :
  state_ok (daemon w).1 → (∀ q, rq_params req = Some q → params_ok q) →
  (∀ k (s : DaemonState E) (st : S),
     dispatch served_info k (mkRequest (rq_kind req) (read_as <$> rq_params req)) s st
     = Some (s, st, response_ok (rq_kind req) (body k s))) →
  expect f (round_trip c req) w = (w', r) →
  daemon w' = daemon w ∧ ∀ a, r = Ok a → ∃ k, f (body k (daemon w).1) = Some a.
Proof.
  intros Hs Hp Hq Hrun.
  destruct (method_answered _ _ _ _ _ _ Hs Hp Hrun) as [[Hd Hn]|(k & resp & Hx & Ha)].
  - split; [done|]. intros a Hr. by destruct (Hn a).
  - rewrite Hq, <- surjective_pairing in Hx. injection Hx as <- <-. split; [done|].
    intros a Hr. destruct (Ha a Hr) as [_ (b & [= <-] & Hf)]. by exists k.
Qed.

Lemma sdk_info_run c w w' r :
  state_ok (daemon w).1 → sdk_info c w = (w', r) →
  daemon w' = daemon w ∧ ∀ i, r = Ok i → i = info_result served_info (daemon w).1.
Proof.
  intros Hs Hm. apply (method_query _ _ _ _ _ _ (λ _ s, RInfo (info_result served_info s))) in Hm
    as [Hd Hi]; [|done..]. split; [done|]. intros i Hr. by destruct (Hi i Hr) as (k & [= <-]).
Qed.

Lemma sdk_list_rules_run c w w' r :
  state_ok (daemon w).1 → sdk_list_rules c w = (w', r) →
  daemon w' = daemon w ∧ ∀ i, r = Ok i → i = list_rules (daemon w).1.
Proof.
  intros Hs Hm. apply (method_query _ _ _ _ _ _ (λ _ s, RRules (list_rules s))) in Hm
    as [Hd Hi]; [|done..]. split; [done|]. intros i Hr. by destruct (Hi i Hr) as (k & [= <-]).
Qed.

Lemma sdk_list_clients_run c w w' r :
  state_ok (daemon w).1 → sdk_list_clients c w = (w', r) →
  daemon w' = daemon w ∧ ∀ i, r = Ok i → ∃ now, i = list_clients now (daemon w).1.
Proof.
  intros Hs Hm. apply (method_query _ _ _ _ _ _ (λ k s, RClients (list_clients (clk_now k) s))) in Hm
    as [Hd Hi]; [|done..]. split; [done|]. intros i Hr. destruct (Hi i Hr) as (k & [= <-]). by eexists.
Qed.

Lemma sdk_top_run c p w w' r :
  state_ok (daemon w).1 → u64_ok (tp_limit p) → sdk_top c p w = (w', r) →
  daemon w' = daemon w ∧ ∀ i, r = Ok i → ∃ now, i = top now (daemon w).1 p.
Proof.
  intros Hs Hp Hm. apply (method_query _ _ _ _ _ _ (λ k s, RClients (top (clk_now k) s p))) in Hm
    as [Hd Hi]; [|done|intros q Hq; by injection Hq as <-|done].
  split; [done|]. intros i Hr. destruct (Hi i Hr) as (k & [= <-]). by eexists.
Qed.

(** A command that the daemon refuses without changing anything. *)
Lemma method_refused c req w w' r msg :
  state_ok (daemon w).1 → (∀ q, rq_params req = Some q → params_ok q) →
  (∀ k (s : DaemonState E) (st : S),
     dispatch served_info k (mkRequest (rq_kind req) (read_as <$> rq_params req)) s st
     = Some (s, st, response_err (rq_kind req) msg)) →
  expect as_empty (round_trip c req) w = (w', r) → daemon w' = daemon w ∧ r ≠ Ok tt.
Proof.
  intros Hs Hp Href Hrun.
  destruct (method_answered _ _ _ _ _ _ Hs Hp Hrun) as [[Hd Ha]|(k & resp & Hx & Ha)]; [by split|].
  rewrite Href in Hx. rewrite <- surjective_pairing in Hx. injection Hx as <- <-.
  split; [done|]. intros Hr. by destruct (Ha tt Hr) as [? _].
Qed.

Lemma sdk_throttle_Ok c p w w' :
  state_ok (daemon w).1 → throttle_params_ok p → sdk_throttle c p w = (w', Ok tt) →
  ∃ k, throttle k (daemon w).1 (daemon w).2 p = Some (daemon w', Ok tt).
Proof.
  intros Hs Hp Hm. apply method_answered in Hm as [[_ Hn]|(k & resp & Hx & Ha)];
    [by destruct (Hn tt)| |done|intros q Hq; by injection Hq as <-].
  exists k. cbn in Hx. apply fmap_Some in Hx as ([[s' st'] x] & Hx & Hr). rewrite Hx.
  injection Hr as Hd ->. rewrite Hd. destruct (Ha tt eq_refl) as [He _]. by destruct x as [[]|e].
Qed.

Lemma sdk_block_refused c p w w' r :
  state_ok (daemon w).1 → opt_u64 (bl_duration_secs p) → sdk_block c p w = (w', r) →
  daemon w' = daemon w ∧ r ≠ Ok tt.
Proof.
  intros Hs Hp Hm. by refine (method_refused _ _ _ _ _ (invalid (lit "missing block params")) Hs _ _ Hm);
    [intros q Hq; injection Hq as <-|].
Qed.

Lemma sdk_clear_refused c cref w w' r :
  state_ok (daemon w).1 → sdk_unblock c cref w = (w', r) ∨ sdk_unthrottle c cref w = (w', r) →
  daemon w' = daemon w ∧ r ≠ Ok tt.
Proof.
  intros Hs [Hm|Hm]; by refine (method_refused _ _ _ _ _ (invalid (lit "missing client")) Hs _ _ Hm);
    [intros q Hq; injection Hq as <-|].
Qed.
End served.

(** *** A concrete transport, used to evaluate examples: every call succeeds *)
Section local.
Context `{HI : HashIter} `{CEL : CelEngine} {E S : Type} `{MS : ManualPolicyStore S}.

Record LocalWorld := mkLocal { lw_daemon : DaemonState E * S; lw_reply : option Json }.

#[export] Instance local_transport : Transport LocalWorld := {|
  Stream := unit;
  IoError := unit;
  FrameError := unit;
  unix_connect _ w := (w, Ok tt);
  set_timeouts _ _ w := w;
  write_frame _ j w :=
    match execute (λ _, []) (version_info None None) (mkClocks 0 0 0) j (lw_daemon w).1 (lw_daemon w).2 with
    | Some (d, resp) => (mkLocal d (Some (to_json resp)), Ok tt)
    | None => (mkLocal (lw_daemon w) None, Ok tt)
    end;
  read_frame _ w := (w, from_option Ok (Err tt) (lw_reply w));
  bad_shape _ := tt
|}.

#[export] Instance local_daemon : DaemonTransport (E := E) (S := S) (W := LocalWorld).
Proof.
  refine {| daemon := lw_daemon; pending w _ := lw_reply w; served_describe _ := [];
            served_info := version_info None None |}.
  - by intros s w w' r [= <- _].
  - done.
  - intros [] j w w' r. cbn. destruct (execute _ _ _ _ _ _) as [[d resp]|] eqn:Hx; intros [= <- <-]; cbn.
    + left. by exists (mkClocks 0 0 0), resp.
    + by right.
  - intros [] w w' r [= <- <-]. split; [done|]. intros j. by destruct (lw_reply w); intros [= <-].
Defined.
End local.

Arguments LocalWorld {CEL} E S.

(** ** Properties *)

(** C21 (client_library_faithful): what the client library reports is what the
    daemon did.  A query changes nothing, and when it succeeds it returns the
    daemon's own answer ([info_result], [list_rules], [list_clients], [top]); a
    throttle that succeeds was carried out by the daemon, without error; [block],
    [unblock] and [unthrottle] never succeed and never change the daemon. *)
Theorem client_library_faithful `{HI : HashIter} `{CEL : CelEngine} {E S} `{MS : ManualPolicyStore S}
    `{TR : Transport W} `{DBG : DebugText} `{DT : !DaemonTransport (E := E) (S := S) (W := W)} c (w : W) :
  let s := (daemon w).1 in
  state_ok s →
  (∀ w' r, sdk_info c w = (w', r) →
     daemon w' = daemon w ∧ ∀ i, r = Ok i → i = info_result served_info s)
  ∧ (∀ w' r, sdk_list_rules c w = (w', r) →
       daemon w' = daemon w ∧ ∀ i, r = Ok i → i = list_rules s)
  ∧ (∀ w' r, sdk_list_clients c w = (w', r) →
       daemon w' = daemon w ∧ ∀ i, r = Ok i → ∃ now, i = list_clients now s)
  ∧ (∀ p w' r, u64_ok (tp_limit p) → sdk_top c p w = (w', r) →
       daemon w' = daemon w ∧ ∀ i, r = Ok i → ∃ now, i = top now s p)
  ∧ (∀ p w', throttle_params_ok p → sdk_throttle c p w = (w', Ok tt) →
       ∃ k, throttle k s (daemon w).2 p = Some (daemon w', Ok tt))
  ∧ (∀ p w' r, opt_u64 (bl_duration_secs p) → sdk_block c p w = (w', r) →
       daemon w' = daemon w ∧ r ≠ Ok tt)
  ∧ (∀ cref w' r, sdk_unblock c cref w = (w', r) ∨ sdk_unthrottle c cref w = (w', r) →
       daemon w' = daemon w ∧ r ≠ Ok tt).
Proof.
  intros s Hs. split_and!.
  - intros w' r. by apply sdk_info_run.
  - intros w' r. by apply sdk_list_rules_run.
  - intros w' r. by apply sdk_list_clients_run.
  - intros p w' r. by apply sdk_top_run.
  - intros p w'. by apply sdk_throttle_Ok.
  - intros p w' r. by apply sdk_block_refused.
  - intros cref w' r. by apply sdk_clear_refused.
Qed.

Lemma client_library_faithful_witness :
  let H := hash_forward in let C := yes_engine in let D : DebugText := λ _, [] in
  let w := mkLocal (demo_state, memory0) None in
  let c := with_socket DEFAULT_SOCKET in
  ∃ w' r, sdk_list_rules c w = (w', Ok r) ∧ lw_daemon w' = (demo_state, memory0)
    ∧ r = list_rules demo_state.
Proof.
  intros H C D w c.
  destruct (client_library_faithful (DT := local_daemon) c w demo_state_ok) as (_ & Hq & _).
  destruct (sdk_list_rules c w) as [w' x] eqn:Hx. destruct x as [r|e].
  - exists w', r. destruct (Hq w' (Ok r) eq_refl) as [Hd Hr]. split; [reflexivity|]. split; [exact Hd|].
    exact (Hr r eq_refl).
  - exfalso. apply (f_equal (λ x, is_ok x.2)) in Hx. vm_compute in Hx. discriminate.
Defined.
