(* ===== verification/Top.v ===== *)
(** The table that [microwaf top] prints ([crates/microwaf/src/cli/top.rs]): one
    frame from the answer of the daemon, and the checks around it. *)

From S2P Require Import Prelude Text Client Rule Window Policy Counters Enforcer Config State Json Wire Store Ipc.

(** ** Padding of [format!]: the width counts characters *)
Definition fill (c : Z) (n : nat) : str := replicate n c.
Definition pad_left (c : Z) (w : nat) (s : str) : str := s ++ fill c (w - length s).
Definition pad_right (w : nat) (s : str) : str := fill 32 (w - length s) ++ s.
Definition pad_center (w : nat) (s : str) : str :=
  let n := (w - length s)%nat in fill 32 (n / 2) ++ s ++ fill 32 (n - n / 2).

(** [str::len]: bytes. *)
Definition byte_len (s : str) : nat := Z.to_nat (utf8_len s).

(** ** Cells *)
Definition value_for_column (entry : ClientEntry) (col : TopColumn) (index : nat) : Z :=
  let by_id :=
    match list_find (λ v, vw_rule_id v = tc_rule_id col) (ce_violations entry) with
    | Some (_, v) => vw_value v
    | None => 0
    end in
  match ce_violations entry !! index with
  | Some v => if bool_decide (vw_rule_id v = tc_rule_id col) then vw_value v else by_id
  | None => by_id
  end.

Definition window_unit (window : str) : str :=
  default [] (str_match [(["per-second"; "per_second"; "second"; "1s"], lit "/s");
                         (["per-minute"; "per_minute"; "minute"; "60s"], lit "/m")]%string window).

Definition format_rate (value : Z) (unit : str) : str := show_dec value ++ unit.

Definition format_client (c : ClientRef) : str :=
  match ref_ip c with
  | Some ip => ref_mac c ++ [64] ++ ip
  | None => ref_mac c
  end.

Definition format_action (a : option ActionWire) : str :=
  match a with
  | None | Some AWNone => lit "-"
  | Some AWBlock => lit "block"
  | Some (AWThrottle drop_rate) => lit "thr " ++ show_dec drop_rate ++ lit "%"
  end.

(** The cell of a client in the column of index [i]. *)
Definition cell (entry : ClientEntry) (col : TopColumn) (i : nat) : str :=
  format_rate (value_for_column entry col i) (window_unit (tc_window col)).

(** ** Widths *)
Definition column_width (clients : list ClientEntry) (i : nat) (col : TopColumn) : nat :=
  Nat.max (foldl (λ w entry, Nat.max w (byte_len (cell entry col i))) (byte_len (tc_rule_id col)) clients) 3.

Definition column_widths (columns : list TopColumn) (clients : list ClientEntry) : list nat :=
  imap (column_width clients) columns.

(** [max().unwrap_or(6).max(6)]. *)
Definition client_width (clients : list ClientEntry) : nat :=
  Nat.max (from_option (λ w, w) 6%nat
             (match (λ c, byte_len (format_client (ce_client c))) <$> clients with
              | [] => None
              | w :: ws => Some (foldl Nat.max w ws)
              end)) 6.

Definition action_w : nat := 10.
Definition would_w : nat := 10.

(** ** Lines *)
Definition gap : str := lit "  ".

Definition header (columns : list TopColumn) (client_w : nat) (col_widths : list nat) : str :=
  lit " " ++ pad_right 3 (lit "#") ++ gap ++ pad_left 32 client_w (lit "CLIENT") ++ gap
  ++ pad_left 32 action_w (lit "ACTION") ++ gap ++ pad_left 32 would_w (lit "WOULD")
  ++ concat (zip_with (λ col w, gap ++ pad_center w (tc_rule_id col)) columns col_widths).

(** A line of one repeated character: dashes under the header, dots above the
    clients that are not hot. *)
Definition rule_line (c : Z) (client_w : nat) (col_widths : list nat) : str :=
  lit " " ++ pad_left c 3 [] ++ gap ++ pad_left c client_w [] ++ gap
  ++ pad_left c action_w [] ++ gap ++ pad_left c would_w []
  ++ concat ((λ w, gap ++ pad_left c w []) <$> col_widths).

Definition format_row (rank : nat) (entry : ClientEntry) (columns : list TopColumn)
    (col_widths : list nat) (client_w : nat) : str :=
  let mark := if ce_hot entry then 42 else 32 in
  [mark] ++ pad_right 3 (show_dec (Z.of_nat rank)) ++ gap
  ++ pad_left 32 client_w (format_client (ce_client entry)) ++ gap
  ++ pad_left 32 action_w (format_action (ce_action entry)) ++ gap
  ++ pad_left 32 would_w (format_action (ce_would_be_action entry))
  ++ concat (imap (λ i cw, gap ++ pad_right cw.2 (cell entry cw.1 i)) (zip columns col_widths)).

(** The loop over the rows, from index [i]; [saw_rest] says whether a client
    that is not hot has been seen. *)
Fixpoint rows (i : nat) (saw_rest : bool) (columns : list TopColumn) (col_widths : list nat)
    (client_w : nat) (entries : list ClientEntry) : list str :=
  match entries with
  | [] => []
  | entry :: entries' =>
      let divider :=
        if negb (ce_hot entry) && negb saw_rest && (0 <? i)%nat
        then [rule_line 183 client_w col_widths] else [] in
      divider ++ format_row (S i) entry columns col_widths client_w
      :: rows (S i) (saw_rest || negb (ce_hot entry)) columns col_widths client_w entries'
  end.

Definition table (result : TopResult) : list str :=
  let client_w := client_width (cr_clients result) in
  let col_widths := column_widths (cr_columns result) (cr_clients result) in
  header (cr_columns result) client_w col_widths :: rule_line 45 client_w col_widths
  :: match cr_clients result with
     | [] => [lit " (no known clients)"]
     | entries => rows 0 false (cr_columns result) col_widths client_w entries
     end.

(** [interval] is the text of the refresh interval. *)
Definition title (result : TopResult) (limit : Z) (interval : str) (live : bool) : str :=
  let hot_n := show_dec (Z.of_nat (length (filter (λ c, ce_hot c = true) (cr_clients result)))) in
  if live
  then lit "microwaf top  -n " ++ show_dec limit ++ lit "  hot=" ++ hot_n ++ lit "  interval="
       ++ interval ++ lit "  q/Ctrl+C quit"
  else lit "microwaf top  hot=" ++ hot_n.

Definition render_frame (result : TopResult) (limit : Z) (interval : str) (live : bool) : str :=
  concat ((λ l, l ++ [10]) <$> (title result limit interval live :: table result)).

(** ** The live view *)

(** One refresh: the frame, or the error in its place; [show_error] is its text. *)
Definition live_frame {Err} (show_error : Err → str) (answer : result TopResult Err) (limit : Z)
    (interval : str) : str :=
  let frame :=
    match answer with
    | Ok r => render_frame r limit interval true
    | Err e => lit "microwaf top  -n " ++ show_dec limit ++ lit "  interval=" ++ interval
               ++ lit "  q/Ctrl+C quit" ++ [10; 10] ++ lit "error: " ++ show_error e ++ [10]
    end in
  [27] ++ lit "[H" ++ frame ++ [27] ++ lit "[J".

(** Whether a read from the terminal ends the view: end of file, [q], [Q] or
    Ctrl+C. *)
Definition wants_quit (buf : list Z) : bool :=
  match buf with
  | [] => true
  | _ => existsb (λ b, (b =? 113) || (b =? 81) || (b =? 3)) buf
  end.

(** ** Lemmas *)
Lemma length_utf8 s : (length s ≤ byte_len s)%nat.
Proof.
  unfold byte_len. induction s as [|c s IH]; [cbn; lia|]. cbn [length utf8_len foldr].
  change (foldr (λ c n, utf8_len_char c + n) 0 s) with (utf8_len s).
  pose proof (utf8_len_char_pos c). pose proof (utf8_len_nonneg s). lia.
Qed.

Lemma pad_left_length c w s : (length s ≤ w)%nat → length (pad_left c w s) = w.
Proof. intros. unfold pad_left, fill. rewrite length_app, length_replicate. lia. Qed.

Lemma pad_right_length w s : (length s ≤ w)%nat → length (pad_right w s) = w.
Proof. intros. unfold pad_right, fill. rewrite length_app, length_replicate. lia. Qed.

Lemma pad_center_length w s : (length s ≤ w)%nat → length (pad_center w s) = w.
Proof.
  intros. unfold pad_center, fill. rewrite !length_app, !length_replicate.
  assert ((w - length s) / 2 ≤ w - length s)%nat by (apply Nat.Div0.div_le_upper_bound; lia). lia.
Qed.

(** At most [k] digits below [10^k]. *)
Lemma digits_aux_length f k n acc :
  (0 < k)%nat → 0 ≤ n < 10 ^ Z.of_nat k → (length (digits_aux 10 f n acc) ≤ k + length acc)%nat.
Proof.
  revert f n acc. induction k as [|k IH]; intros f n acc Hk Hn; [lia|].
  destruct f as [|f]; [cbn; lia|]. rewrite digits_aux_S. case_match eqn:Hz; [cbn; lia|].
  apply Z.eqb_neq in Hz. rewrite Nat2Z.inj_succ, Z.pow_succ_r in Hn by lia.
  destruct k as [|k].
  { exfalso. apply Hz. apply Z.div_small. change (10 ^ Z.of_nat 0) with 1 in Hn. lia. }
  etrans; [apply IH; [lia|]|cbn; lia].
  split; [apply Z.div_pos; lia|]. apply Z.div_lt_upper_bound; lia.
Qed.

Lemma show_dec_length k n : (0 < k)%nat → 0 ≤ n < 10 ^ Z.of_nat k → (length (show_dec n) ≤ k)%nat.
Proof. intros Hk Hn. unfold show_dec. pose proof (digits_aux_length 20 k n [] Hk Hn). cbn in *. lia. Qed.

Lemma format_action_length a :
  (∀ x, a = Some x → action_wire_ok x) → (length (format_action a) ≤ action_w)%nat.
Proof.
  intros Ha. destruct a as [[d| |]|]; [|apply Nat.leb_le; reflexivity..]. unfold format_action.
  rewrite !length_app. pose proof (show_dec_length 3 d ltac:(lia)) as Hd.
  destruct (Ha _ eq_refl d eq_refl) as [H1 H2]. unfold U8_MAX in H2.
  change (10 ^ Z.of_nat 3) with 1000 in Hd. specialize (Hd ltac:(lia)). unfold action_w.
  change (length (lit "thr ")) with 4%nat. change (length (lit "%")) with 1%nat. lia.
Qed.

(** Running maxima. *)
Lemma foldl_max_le {A : Type} (f : A → nat) l w :
  (w ≤ foldl (λ w x, Nat.max w (f x)) w l)%nat
  ∧ Forall (λ x, (f x ≤ foldl (λ w x, Nat.max w (f x)) w l)%nat) l.
Proof.
  revert w. induction l as [|x l IH]; intros w; cbn [foldl]; [split; [lia|constructor]|].
  destruct (IH (Nat.max w (f x))) as [H1 H2]. split; [lia|]. apply Forall_cons. split; [lia|done].
Qed.

Lemma client_width_ge clients e :
  e ∈ clients → (length (format_client (ce_client e)) ≤ client_width clients)%nat.
Proof.
  intros He. unfold client_width. destruct clients as [|c clients]; [by apply elem_of_nil in He|].
  cbn [fmap list_fmap from_option].
  destruct (foldl_max_le (λ w, w) ((λ c, byte_len (format_client (ce_client c))) <$> clients)
    (byte_len (format_client (ce_client c)))) as [H1 H2].
  change (λ w x : nat, Nat.max w x) with Nat.max in H1, H2.
  pose proof (length_utf8 (format_client (ce_client e))) as H3.
  apply elem_of_cons in He as [->|He]; [lia|].
  rewrite Forall_fmap, Forall_forall in H2. specialize (H2 e He).
  unfold compose in H2. cbv beta in H2. lia.
Qed.

Lemma column_width_ge clients i col :
  (length (tc_rule_id col) ≤ column_width clients i col)%nat
  ∧ ∀ e, e ∈ clients → (length (cell e col i) ≤ column_width clients i col)%nat.
Proof.
  unfold column_width.
  destruct (foldl_max_le (λ e, byte_len (cell e col i)) clients (byte_len (tc_rule_id col))) as [H1 H2].
  revert H1 H2. generalize (foldl (λ w e, Nat.max w (byte_len (cell e col i)))
    (byte_len (tc_rule_id col)) clients). intros w H1 H2.
  split; [pose proof (length_utf8 (tc_rule_id col)); lia|].
  intros e He. pose proof (length_utf8 (cell e col i)).
  rewrite Forall_forall in H2. specialize (H2 e He). cbv beta in H2. lia.
Qed.

(** *** Every line of the table is as wide as the columns need *)
Definition columns_width (ws : list nat) : nat := sum_list ((λ w, 2 + w)%nat <$> ws).
Definition table_width (client_w : nat) (ws : list nat) : nat :=
  (4 + (2 + client_w) + (2 + action_w) + (2 + would_w) + columns_width ws)%nat.

Lemma concat_cells_length {A : Type} (f : nat → A → str) (ws : list nat) (l : list A) :
  length ws = length l → (∀ i w x, ws !! i = Some w → l !! i = Some x → length (f i x) = (2 + w)%nat) →
  length (concat (imap f l)) = columns_width ws.
Proof.
  revert f ws. induction l as [|x l IH]; intros f [|w ws] Hl Hf; try done.
  rewrite imap_cons. cbn [concat]. rewrite length_app, (Hf 0%nat w x eq_refl eq_refl).
  rewrite (IH (f ∘ S) ws); [done|by injection Hl|]. intros i w' x'. apply (Hf (S i)).
Qed.

Lemma rule_line_length c client_w ws : length (rule_line c client_w ws) = table_width client_w ws.
Proof.
  unfold rule_line, table_width. rewrite !length_app, !pad_left_length by (cbn; lia).
  rewrite <- (concat_cells_length (λ _ w, gap ++ pad_left c w []) ws ws); [|done|].
  - rewrite (imap_const (λ w, gap ++ pad_left c w [])). change (length gap) with 2%nat.
    change (length (lit " ")) with 1%nat. lia.
  - intros i w x Hw Hx. rewrite Hw in Hx. injection Hx as <-.
    rewrite length_app, pad_left_length by (cbn; lia). done.
Qed.

Lemma header_length columns clients :
  length (header columns (client_width clients) (column_widths columns clients))
  = table_width (client_width clients) (column_widths columns clients).
Proof.
  unfold header, table_width. rewrite !length_app.
  rewrite pad_right_length by (apply Nat.leb_le; reflexivity).
  rewrite !(pad_left_length 32) by (first [apply Nat.leb_le; reflexivity|apply Nat.le_max_r]).
  assert (concat (zip_with (λ col w, gap ++ pad_center w (tc_rule_id col)) columns
            (column_widths columns clients))
          = concat (imap (λ i col, gap ++ pad_center (column_width clients i col) (tc_rule_id col)) columns))
    as ->.
  { f_equal. apply list_eq. intros i. unfold column_widths.
    rewrite lookup_zip_with, !list_lookup_imap. by destruct (columns !! i). }
  rewrite (concat_cells_length _ (column_widths columns clients)).
  - change (length gap) with 2%nat. change (length (lit " ")) with 1%nat. lia.
  - apply length_imap.
  - intros i w col Hw Hc. unfold column_widths in Hw. rewrite list_lookup_imap, Hc in Hw.
    injection Hw as <-. rewrite length_app, pad_center_length; [done|]. apply column_width_ge.
Qed.

Lemma row_length rank entry columns clients :
  entry ∈ clients → entry_ok entry → (rank < 1000)%nat →
  length (format_row rank entry columns (column_widths columns clients) (client_width clients))
  = table_width (client_width clients) (column_widths columns clients).
Proof.
  intros He (Ha & Hb & _) Hr. unfold format_row, table_width. rewrite !length_app.
  rewrite pad_right_length by (apply show_dec_length; [lia|change (10 ^ Z.of_nat 3) with 1000; lia]).
  rewrite !pad_left_length by (first [by apply client_width_ge|by apply format_action_length]).
  rewrite (concat_cells_length _ (column_widths columns clients)).
  - change (length gap) with 2%nat. change (length [if ce_hot entry then 42 else 32]) with 1%nat. lia.
  - unfold column_widths. rewrite length_zip_with, length_imap. lia.
  - intros i w [col w'] Hw Hz. rewrite lookup_zip_with, Hw in Hz.
    destruct (columns !! i) as [col'|] eqn:Hc; [|done]. injection Hz as -> <-.
    unfold column_widths in Hw. rewrite list_lookup_imap, Hc in Hw. injection Hw as <-.
    cbn [fst snd]. rewrite length_app, pad_right_length; [done|]. by apply column_width_ge.
Qed.

Lemma rows_length i saw columns clients entries :
  Forall (λ e, e ∈ clients ∧ entry_ok e) entries → (i + length entries < 1000)%nat →
  Forall (λ l, length l = table_width (client_width clients) (column_widths columns clients))
    (rows i saw columns (column_widths columns clients) (client_width clients) entries).
Proof.
  intros Hall. revert i saw. induction Hall as [|e entries [He Hok] _ IH]; intros i saw Hi; [constructor|].
  cbn [length] in Hi. cbn [rows]. apply Forall_app. split.
  - case_match; [|constructor]. apply Forall_singleton, rule_line_length.
  - apply Forall_cons. split; [apply row_length; [done..|lia]|]. apply IH. lia.
Qed.

(** *** Hot clients, a divider, the others *)
Definition numbered (first : nat) (columns : list TopColumn) (ws : list nat) (client_w : nat)
    (entries : list ClientEntry) : list str :=
  imap (λ k e, format_row (first + k) e columns ws client_w) entries.

Lemma numbered_cons first columns ws client_w e entries :
  numbered first columns ws client_w (e :: entries)
  = format_row first e columns ws client_w :: numbered (S first) columns ws client_w entries.
Proof.
  unfold numbered. rewrite imap_cons, Nat.add_0_r. f_equal. apply imap_ext. intros k x _. cbn.
  by rewrite Nat.add_succ_r.
Qed.

Lemma rows_cold i columns ws client_w cs :
  Forall (λ e, ce_hot e = false) cs →
  rows i true columns ws client_w cs = numbered (S i) columns ws client_w cs.
Proof.
  intros Hc. revert i. induction Hc as [|e cs He _ IH]; intros i; [done|].
  rewrite numbered_cons. cbn [rows]. rewrite andb_false_r. cbn. by rewrite IH.
Qed.

Lemma rows_split i columns ws client_w hs cs :
  Forall (λ e, ce_hot e = true) hs → Forall (λ e, ce_hot e = false) cs →
  rows i false columns ws client_w (hs ++ cs)
  = numbered (S i) columns ws client_w hs
    ++ (if negb (is_empty cs) && (0 <? i + length hs)%nat then [rule_line 183 client_w ws] else [])
    ++ numbered (S (i + length hs)) columns ws client_w cs.
Proof.
  intros Hh Hc. revert i. induction Hh as [|e hs He _ IH]; intros i.
  - cbn [app length]. rewrite Nat.add_0_r. destruct Hc as [|e cs He Hc]; [done|].
    rewrite numbered_cons. cbn [rows]. rewrite He. cbn. rewrite rows_cold by done. done.
  - rewrite numbered_cons. cbn [app rows]. rewrite He. cbn. rewrite IH. cbn [length].
    by rewrite Nat.add_succ_r.
Qed.

(** A list sorted by an order that puts hot elements first splits. *)
Lemma sorted_split {A : Type} (R : A → A → Prop) (hot : A → bool) l :
  (∀ a b, R a b → hot b = true → hot a = true) → StronglySorted R l →
  ∃ hs cs, l = hs ++ cs ∧ Forall (λ a, hot a = true) hs ∧ Forall (λ a, hot a = false) cs.
Proof.
  intros HR. induction 1 as [|a l Hs IH Ha]; [by exists [], []|].
  destruct (hot a) eqn:E.
  - destruct IH as (hs & cs & -> & Hh & Hc). exists (a :: hs), cs. by split_and!; [|constructor|].
  - exists [], (a :: l). split_and!; [done|done|]. constructor; [done|].
    eapply Forall_impl; [exact Ha|]. intros b Hb. destruct (hot b) eqn:Eb; [|done].
    by rewrite (HR a b Hb Eb) in E.
Qed.

Lemma row_le_hot a b : row_le a b → row_hot b = true → row_hot a = true.
Proof.
  unfold row_le, row_cmp. intros Hle Hb. rewrite Hb in Hle. by destruct (row_hot a).
Qed.

Lemma StronglySorted_take {A : Type} (R : A → A → Prop) n l : StronglySorted R l → StronglySorted R (take n l).
Proof.
  intros Hs. revert n. induction Hs as [|a l Hs IH Ha]; intros [|n]; cbn; try constructor; [done|].
  by apply Forall_take.
Qed.

Lemma StronglySorted_truncate {A : Type} (R : A → A → Prop) n l :
  StronglySorted R l → StronglySorted R (truncate n l).
Proof. unfold truncate. case_match; [apply StronglySorted_take|done]. Qed.

(** *** The values shown *)
Section values.
Context `{HI : HashIter} `{CEL : CelEngine} {E : Type}.
Implicit Types s : DaemonState E.

Lemma shown_value now s rs c j r :
  rs !! j = Some r →
  value_for_column (top_row now s (row_of s rs c)) (rule_column r) j
  = rule_value (default ∅ (windows s !! c)) r.
Proof.
  intros Hr. unfold value_for_column, top_row, row_of. cbn [ce_violations snd].
  rewrite score_client_spec. cbn [snd]. rewrite list_lookup_fmap, Hr. cbn.
  by rewrite bool_decide_true.
Qed.

Lemma top_entries now s params :
  ∃ cs, cr_clients (top now s params)
        = top_row now s <$> (row_of s (matching_rules params (rules s)) <$> cs)
    ∧ StronglySorted row_le (row_of s (matching_rules params (rules s)) <$> cs).
Proof.
  destruct (sorted_rows s (matching_rules params (rules s))) as (cs & Hcs & _).
  pose proof (StronglySorted_merge_sort row_le (scored s (matching_rules params (rules s)))) as Hsort.
  apply (StronglySorted_truncate _ (tp_limit params)) in Hsort. rewrite Hcs in Hsort.
  assert (truncate (tp_limit params) (row_of s (matching_rules params (rules s)) <$> cs)
          = row_of s (matching_rules params (rules s)) <$> truncate (tp_limit params) cs) as Ht.
  { unfold truncate. case_match; [|done]. by rewrite fmap_take. }
  exists (truncate (tp_limit params) cs). rewrite <- Ht. split; [|done].
  cbn [cr_clients top]. by rewrite Hcs.
Qed.

Lemma top_hot_first now s params :
  ∃ hs cs, cr_clients (top now s params) = hs ++ cs
    ∧ Forall (λ e, ce_hot e = true) hs ∧ Forall (λ e, ce_hot e = false) cs.
Proof.
  destruct (top_entries now s params) as (l & -> & Hs).
  destruct (sorted_split row_le row_hot _ row_le_hot Hs) as (hs & cs & -> & Hh & Hc).
  exists (top_row now s <$> hs), (top_row now s <$> cs). rewrite fmap_app.
  split_and!; [done|by apply Forall_fmap..].
Qed.
End values.

(** ** Properties *)

(** C23 (top_table_faithful): the table of [microwaf top] for the daemon's own
    answer lists the hot clients numbered from 1, then, below one dotted line if
    there are both, the others with the numbers that follow; each cell is the
    client's windowed value for the rule of its column; and up to 999 clients
    every line has the same width, so that the columns line up. *)
Theorem top_table_faithful `{HI : HashIter} `{CEL : CelEngine} {E} (s : DaemonState E) now params :
  state_ok s →
  let rs := matching_rules params (rules s) in
  let result := top now s params in
  let ws := column_widths (cr_columns result) (cr_clients result) in
  let cw := client_width (cr_clients result) in
  (∃ hs cs, cr_clients result = hs ++ cs
     ∧ Forall (λ e, ce_hot e = true) hs ∧ Forall (λ e, ce_hot e = false) cs
     ∧ (hs ++ cs ≠ [] → table result
          = [header (cr_columns result) cw ws; rule_line 45 cw ws]
            ++ numbered 1 (cr_columns result) ws cw hs
            ++ (if negb (is_empty cs) && negb (is_empty hs) then [rule_line 183 cw ws] else [])
            ++ numbered (S (length hs)) (cr_columns result) ws cw cs))
  ∧ (∀ e, e ∈ cr_clients result → ∃ c, ce_client e = client_to_ref c ∧ ∀ j r, rs !! j = Some r →
       value_for_column e (rule_column r) j = rule_value (default ∅ (windows s !! c)) r)
  ∧ ((length (cr_clients result) < 1000)%nat → cr_clients result ≠ [] →
       Forall (λ l, length l = table_width cw ws) (table result)).
Proof.
  intros Hs rs result ws cw. split_and!.
  - destruct (top_hot_first now s params) as (hs & cs & Hl & Hh & Hc). fold result in Hl.
    exists hs, cs. split_and!; [done..|]. intros Hne. unfold table. fold ws cw.
    rewrite Hl. destruct (hs ++ cs) as [|e l] eqn:Hcons; [done|].
    rewrite <- Hcons, rows_split by done. cbn [app Nat.add]. do 2 f_equal. f_equal.
    by destruct hs.
  - intros e He. destruct (top_entries now s params) as (cs & Hcs & _). fold result in Hcs.
    rewrite Hcs in He. apply list_elem_of_fmap in He as (row & -> & Hrow).
    apply list_elem_of_fmap in Hrow as (c & -> & _).
    exists c. split; [done|]. intros j r. apply shown_value.
  - intros Hlen Hne. unfold table. fold ws cw. constructor; [apply header_length|].
    constructor; [apply rule_line_length|].
    assert (Forall (λ l, length l = table_width cw ws)
      (rows 0 false (cr_columns result) ws cw (cr_clients result))) as Hrows.
    { apply rows_length; [|done]. apply Forall_forall. intros x Hx. split; [done|].
      destruct (top_typed now s params Hs) as [Hok _]. fold result in Hok.
      rewrite Forall_forall in Hok. by apply Hok. }
    by destruct (cr_clients result).
Qed.

Lemma top_table_faithful_witness :
  let H := hash_forward in let C := yes_engine in
  let result := top 0 demo_state (mkTop 0 None None None) in
  length (table result) = 3%nat ∧ Forall (λ l, length l = 61%nat) (table result).
Proof.
  intros H C result.
  destruct (top_table_faithful demo_state 0 (mkTop 0 None None None) demo_state_ok) as (_ & _ & Hw).
  split; [vm_compute; reflexivity|].
  eapply Forall_impl; [apply Hw; vm_compute; [lia|discriminate]|]. intros l ->.
  vm_compute. reflexivity.
Defined.
