(* ===== verification/Cli.v ===== *)
(** The command line ([crates/microwaf/src/cli/mod.rs], [cli/client.rs],
    [main.rs]) and the client commands it runs, with the live view of [top]
    ([cli/top.rs]). *)

From S2P Require Import Prelude Text Client Rule Window Policy Counters Enforcer Config State Json Wire Store Ipc Sdk Top.

(** ** Arguments

    What clap parses; a [humantime::Duration] is its length in nanoseconds. *)
Record DaemonArgs := mkDaemonArgs {
  da_interface : option str;
  da_redis_url : option str;
  da_config_dir : option str;
  da_mode : option Mode
}.

Inductive Command :=
| CmdDaemon (args : DaemonArgs)
| CmdInfo (json : bool) (timeout : Z)
| CmdTop (limit : Z) (rule_id protocol metric : option str) (interval : Z) (once json : bool) (timeout : Z)
| CmdClients (json : bool) (timeout : Z)
| CmdThrottle (client : str) (duration : option Z) (rate : Z) (json : bool) (timeout : Z)
| CmdUnthrottle (client : str) (json : bool) (timeout : Z)
| CmdBlock (client : str) (duration : option Z) (json : bool) (timeout : Z)
| CmdUnblock (client : str) (json : bool) (timeout : Z)
| CmdRules (json : bool) (timeout : Z).

Record Cli := mkCli {
  cli_command : option Command;
  cli_socket : option str;
  cli_verbose : bool;
  cli_interface : option str;
  cli_redis_url : option str;
  cli_config_dir : option str;
  cli_mode : option Mode
}.

(** [main] runs the daemon for no subcommand and for [daemon]. *)
Definition runs_daemon (cli : Cli) : bool :=
  match cli_command cli with
  | None | Some (CmdDaemon _) => true
  | Some _ => false
  end.

(** The exit code of [main], and what it prints on the error stream. *)
Definition exit_of (r : result () str) : Z * str :=
  match r with
  | Ok _ => (0, [])
  | Err e => (1, lit "error: " ++ e ++ [10])
  end.

(** ** Texts *)
Definition parse_client (s : str) : result ClientRef str :=
  (let? id := map_err show_ref_error (client_from_str s) in
   Ok (mkRef (mac_string id) (Some (show_ip (ip id)))))%mwaf.

(** [{:?}] of an action and of an optional one. *)
Definition debug_action (a : ActionWire) : str :=
  match a with
  | AWThrottle d => lit "Throttle { drop_rate: " ++ show_dec d ++ lit " }"
  | AWBlock => lit "Block"
  | AWNone => lit "None"
  end.

Definition debug_opt_action (a : option ActionWire) : str :=
  match a with
  | Some a => lit "Some(" ++ debug_action a ++ lit ")"
  | None => lit "None"
  end.

Definition ok_json : str := lit "{" ++ [34] ++ lit "ok" ++ [34] ++ lit ":true}".

Definition info_line (r : InfoResult) : str :=
  lit "microwaf " ++ in_version r ++ lit " commit=" ++ in_commit r ++ lit " mode=" ++ in_mode r
  ++ lit " interface=" ++ in_interface r.

Definition client_line (c : ClientEntry) : str :=
  format_client (ce_client c) ++ lit " action=" ++ debug_opt_action (ce_action c)
  ++ lit " wouldBe=" ++ debug_opt_action (ce_would_be_action c).

Definition rule_text (r : RuleWire) : str :=
  rw_id r ++ lit " proto=" ++ rw_protocol r ++ lit " metric=" ++ rw_metric r ++ lit " window="
  ++ rw_window r ++ lit " limit=" ++ show_dec (rw_limit r) ++ lit " action="
  ++ debug_action (rw_action r).

(** ** The terminal

    The attributes of the terminal, as the flags of [termios], and the two calls
    of the C library on them. *)
Record Termios := mkTermios { local_flags : Z; input_flags : Z; other_attrs : list Z }.

Class Terminal (W : Type) := {
  tcgetattr : SE W str Termios;
  tcsetattr : Termios → SE W str ()
}.

(** The flags of Linux. *)
Definition ICANON : Z := 2.
Definition ECHO : Z := 8.
Definition INLCR : Z := 64.
Definition ICRNL : Z := 256.
Definition IXON : Z := 1024.

Definition raw_attrs (t : Termios) : Termios :=
  mkTermios (Z.ldiff (local_flags t) (Z.lor ECHO ICANON))
    (Z.ldiff (input_flags t) (Z.lor IXON (Z.lor ICRNL INLCR))) (other_attrs t).

(** ** Running a client command

    The state is the world of the transport and the text printed so far.
    [pretty] is serde_json's printer, [format_duration] humantime's, [show_error]
    the text of a client error. *)
Section run.
Context `{TR : Transport W} `{TTY : Terminal W} `{DBG : DebugText}.
Context (pretty : Json → str) (format_duration : Z → str) (show_error : ClientError → str).

Inductive CliError := CliClient (e : ClientError) | CliText (msg : str).
Abbreviation CliM := (SE (W * str) CliError).

Definition call {A} (m : SE W ClientError A) : CliM A := λ s,
  let '(w', r) := m s.1 in ((w', s.2), map_err CliClient r).

Definition print (t : str) : CliM () := λ s, ((s.1, s.2 ++ t), Ok tt).
Definition println (t : str) : CliM () := print (t ++ [10]).
Fixpoint print_lines (ts : list str) : CliM () :=
  match ts with
  | [] => mret tt
  | t :: ts' => _ ← println t; print_lines ts'
  end.

Definition parsed (s : str) : CliM ClientRef := se_lift (map_err CliText (parse_client s)).

(** *** [top::run] *)
Definition enter_screen : str := [27] ++ lit "[?1049h" ++ [27] ++ lit "[?25l".
Definition leave_screen : str := [27] ++ lit "[?25h" ++ [27] ++ lit "[?1049l".

(** One round of [wait_quit_or_timeout]: the time that remains, the answer of
    [poll] and the bytes read from the terminal.  [None] means that it is still
    waiting after these rounds. *)
Record KeyRead := mkKeyRead { kr_remaining : Z; kr_polled : result Z str; kr_read : result (list Z) str }.

Fixpoint wait_quit_or_timeout (rounds : list KeyRead) : option (result bool str) :=
  match rounds with
  | [] => None
  | r :: rounds' =>
      if kr_remaining r =? 0 then Some (Ok false)
      else match kr_polled r with
           | Err e => Some (Err (lit "poll stdin: " ++ e))
           | Ok n =>
               if n =? 0 then Some (Ok false)
               else match kr_read r with
                    | Err e => Some (Err (lit "read stdin: " ++ e))
                    | Ok buf => if wants_quit buf then Some (Ok true) else wait_quit_or_timeout rounds'
                    end
           end
  end.

(** The refresh loop; [waits] is what [wait_quit_or_timeout] answers each time,
    [None] in the result means that the loop is still running after them. *)
Fixpoint live_loop (c : WafClient) (params : TopParams) (interval : Z) (waits : list (result bool str)) :
    CliM (option ()) :=
  match waits with
  | [] => mret None
  | wait :: waits' =>
      answer ← (λ s, let '(w', r) := sdk_top c params s.1 in ((w', s.2), Ok r));
      _ ← print (live_frame show_error answer (tp_limit params) (format_duration interval));
      quit ← se_lift (map_err CliText wait);
      if quit : bool then mret (Some tt) else live_loop c params interval waits'
  end.

(** [RawMode::enter]: the attributes to restore. *)
Definition raw_enter : SE W str Termios := λ w,
  match tcgetattr w with
  | (w, Err e) => (w, Err (lit "enable terminal raw mode: tcgetattr: " ++ e))
  | (w, Ok orig) =>
      match tcsetattr (raw_attrs orig) w with
      | (w, Err e) => (w, Err (lit "enable terminal raw mode: tcsetattr: " ++ e))
      | (w, Ok _) => (w, Ok orig)
      end
  end.

(** Screen and attributes are restored on every way out, in this order ([Drop]). *)
Definition run_live (c : WafClient) (params : TopParams) (interval : Z)
    (waits : list (result bool str)) : CliM (option ()) := λ s,
  let interval := Z.max interval 50000000 in
  match raw_enter s.1 with
  | (w, Err e) => ((w, s.2), Err (CliText e))
  | (w, Ok orig) =>
      let '(s1, _) := print enter_screen (w, s.2) in
      match live_loop c params interval waits s1 with
      | (s2, Ok None) => (s2, Ok None)
      | (s2, r) =>
          let '(s3, _) := print leave_screen s2 in
          (((tcsetattr orig s3.1).1, s3.2), r)
      end
  end.

Definition top_run (tty : bool) (c : WafClient) (params : TopParams) (interval : Z) (once json : bool)
    (waits : list (result bool str)) : CliM (option ()) :=
  if json then
    r ← call (sdk_top c params);
    _ ← println (pretty (to_json r));
    mret (Some tt)
  else if negb (negb once && tty) then
    r ← call (sdk_top c params);
    _ ← print (render_frame r (tp_limit params) (format_duration interval) false);
    mret (Some tt)
  else run_live c params interval waits.

(** *** [client::run] *)
Definition report (json : bool) (text : str) : CliM () :=
  println (if json then ok_json else text).

Definition client_run (tty : bool) (waits : list (result bool str)) (socket : str) (cli : Cli) :
    CliM (option ()) :=
  let client := λ timeout, mkWafClient socket timeout in
  match cli_command cli with
  | Some (CmdInfo json timeout) =>
      r ← call (sdk_info (client timeout));
      _ ← println (if json : bool then pretty (to_json r) else info_line r);
      mret (Some tt)
  | Some (CmdTop limit rule_id protocol metric interval once json timeout) =>
      top_run tty (client timeout) (mkTop limit rule_id protocol metric) interval once json waits
  | Some (CmdClients json timeout) =>
      r ← call (sdk_list_clients (client timeout));
      _ ← (if json : bool then println (pretty (to_json r))
           else print_lines (client_line <$> cr_clients r));
      mret (Some tt)
  | Some (CmdThrottle cref duration rate json timeout) =>
      target ← parsed cref;
      _ ← call (sdk_throttle (client timeout)
                  (mkThrottleParams target (Some rate) (as_secs <$> duration)));
      _ ← report json (lit "throttled " ++ cref);
      mret (Some tt)
  | Some (CmdUnthrottle cref json timeout) =>
      target ← parsed cref;
      _ ← call (sdk_unthrottle (client timeout) target);
      _ ← report json (lit "unthrottled " ++ cref);
      mret (Some tt)
  | Some (CmdBlock cref duration json timeout) =>
      target ← parsed cref;
      _ ← call (sdk_block (client timeout) (mkBlockParams target (as_secs <$> duration)));
      _ ← report json (lit "blocked " ++ cref);
      mret (Some tt)
  | Some (CmdUnblock cref json timeout) =>
      target ← parsed cref;
      _ ← call (sdk_unblock (client timeout) target);
      _ ← report json (lit "unblocked " ++ cref);
      mret (Some tt)
  | Some (CmdRules json timeout) =>
      r ← call (sdk_list_rules (client timeout));
      _ ← (if json : bool then println (pretty (to_json r))
           else print_lines (rule_text <$> rr_rules r));
      mret (Some tt)
  | Some (CmdDaemon _) | None =>
      se_lift (Err (CliText (lit "internal: daemon command in client runner")))
  end.
End run.

(** ** Lemmas *)

(** The wait ends with [true] exactly at the first read of a quit key, or of the
    end of the input, that comes before the deadline and before any fault. *)
Definition ignored (r : KeyRead) : Prop :=
  kr_remaining r ≠ 0
  ∧ ∃ n buf, kr_polled r = Ok n ∧ n ≠ 0 ∧ kr_read r = Ok buf ∧ wants_quit buf = false.

Lemma wait_quit_spec rounds :
  wait_quit_or_timeout rounds = Some (Ok true) ↔
  ∃ pre r post n buf, rounds = pre ++ r :: post ∧ Forall ignored pre
    ∧ kr_remaining r ≠ 0 ∧ kr_polled r = Ok n ∧ n ≠ 0 ∧ kr_read r = Ok buf ∧ wants_quit buf = true.
Proof.
  split.
  - induction rounds as [|r rounds IH]; [done|]. cbn [wait_quit_or_timeout].
    destruct (Z.eqb_spec (kr_remaining r) 0) as [|Hr]; [done|].
    destruct (kr_polled r) as [n|e] eqn:Hp; [|done]. destruct (Z.eqb_spec n 0) as [|Hn]; [done|].
    destruct (kr_read r) as [buf|e] eqn:Hb; [|done]. destruct (wants_quit buf) eqn:Hw.
    + intros _. exists [], r, rounds, n, buf. by split_and!.
    + intros (pre & r' & post & n' & b' & -> & Hpre & Hrest)%IH. exists (r :: pre), r', post, n', b'.
      split_and!; try apply Hrest; [done|]. constructor; [|done]. split; [done|]. by exists n, buf.
  - intros (pre & r & post & n & buf & -> & Hpre & Hr & Hp & Hn & Hb & Hw).
    induction Hpre as [|r' pre (Hr' & n' & b' & Hp' & Hn' & Hb' & Hw') Hpre IH]; cbn.
    + apply Z.eqb_neq in Hr as ->. rewrite Hp. apply Z.eqb_neq in Hn as ->. by rewrite Hb, Hw.
    + apply Z.eqb_neq in Hr' as ->. rewrite Hp'. apply Z.eqb_neq in Hn' as ->. by rewrite Hb', Hw'.
Qed.

(** *** The commands *)
Lemma parse_client_ref s r :
  parse_client s = Ok r → ∃ c, client_from_str s = Ok c ∧ r = client_to_ref c ∧ parse_ref r = Ok c.
Proof.
  intros (c & Hc & [= <-])%res_bind_Ok. apply map_err_Ok in Hc. exists c. split_and!; [done|done|].
  change (mkRef (mac_string c) (Some (show_ip (ip c)))) with (client_to_ref c).
  apply parse_client_to_ref. by eapply client_from_str_ok.
Qed.

Section lemmas.
Context `{HI : HashIter} `{CEL : CelEngine} {E S : Type} `{MS : ManualPolicyStore S}.
Context `{TR : Transport W} `{TTY : Terminal W} `{DBG : DebugText}
  `{DT : !DaemonTransport (E := E) (S := S) (W := W)}.
Context (pretty : Json → str) (format_duration : Z → str) (show_error : ClientError → str).

Lemma call_run {A} (m : SE W ClientError A) w o :
  call m (w, o) = (((m w).1, o), map_err CliClient (m w).2).
Proof. unfold call. cbn. by destruct (m w). Qed.

Lemma parsed_run s x : parsed s x = (x, map_err CliText (parse_client s)).
Proof. done. Qed.

(** *** The live view leaves the terminal as it was *)
Lemma live_loop_cons c params interval q waits s :
  live_loop format_duration show_error c params interval (q :: waits) s
  = let s1 := ((sdk_top c params s.1).1,
               s.2 ++ live_frame show_error (sdk_top c params s.1).2 (tp_limit params)
                        (format_duration interval)) in
    match q with
    | Err e => (s1, Err (CliText e))
    | Ok true => (s1, Ok (Some tt))
    | Ok false => live_loop format_duration show_error c params interval waits s1
    end.
Proof.
  cbn [live_loop]. rewrite se_bind_run. destruct (sdk_top c params s.1) as [w1 a].
  by destruct q as [[|]|e].
Qed.

Lemma live_loop_text c params interval waits s s' r :
  live_loop format_duration show_error c params interval waits s = (s', r) → ∃ t, s'.2 = s.2 ++ t.
Proof.
  revert s. induction waits as [|q waits IH]; intros s.
  { intros [= <- _]. exists []. by rewrite app_nil_r. }
  rewrite live_loop_cons. cbv zeta. destruct q as [[|]|e]; [intros [= <- _]; by eexists| |intros [= <- _]; by eexists].
  intros (t & ->)%IH. cbn [snd]. eexists. by rewrite <- app_assoc.
Qed.

Lemma run_live_restores c params interval waits s s' r w1 orig :
  run_live format_duration show_error c params interval waits s = (s', r) → r ≠ Ok None →
  raw_enter s.1 = (w1, Ok orig) →
  ∃ w2 t, s'.1 = (tcsetattr orig w2).1 ∧ s'.2 = s.2 ++ enter_screen ++ t ++ leave_screen.
Proof.
  unfold run_live. intros Hrun Hr Hraw. rewrite Hraw in Hrun. cbn in Hrun.
  destruct (live_loop _ _ _ _ _ _ _) as [s2 x] eqn:Hl. apply live_loop_text in Hl as [t Ht].
  cbn in Ht. assert (s' = ((tcsetattr orig s2.1).1, s2.2 ++ leave_screen)) as ->.
  { destruct x as [[[]|]|e]; by simplify_eq. }
  exists s2.1, t. split; [done|]. cbn. by rewrite Ht, <- !app_assoc.
Qed.

(** The calls on the terminal leave the daemon alone. *)
Class QuietTerminal := {
  get_quiet : ∀ w, daemon (tcgetattr w).1 = daemon w;
  set_quiet : ∀ t w, daemon (tcsetattr t w).1 = daemon w
}.
Context `{!QuietTerminal}.

Lemma live_loop_quiet c params interval waits s s' r :
  state_ok (daemon s.1).1 → u64_ok (tp_limit params) →
  live_loop format_duration show_error c params interval waits s = (s', r) → daemon s'.1 = daemon s.1.
Proof.
  intros Hs Hp. revert s Hs. induction waits as [|q waits IH]; intros s Hs; [by intros [= <- _]|].
  rewrite live_loop_cons. cbv zeta. destruct (sdk_top c params s.1) as [w1 a] eqn:Ht.
  apply sdk_top_run in Ht as [Hd _]; [|done..]. cbn [fst snd].
  destruct q as [[|]|e]; [by intros [= <- _]| |by intros [= <- _]].
  intros Hl. apply IH in Hl; cbn [fst] in *; [by rewrite Hl|by rewrite Hd].
Qed.

Lemma raw_enter_quiet w : daemon (raw_enter w).1 = daemon w.
Proof.
  unfold raw_enter. pose proof (get_quiet w) as Hg. destruct (tcgetattr w) as [w1 [t|e]]; [|done].
  pose proof (set_quiet (raw_attrs t) w1) as Hq. cbn in Hg. rewrite Hg in Hq.
  by destruct (tcsetattr (raw_attrs t) w1) as [w2 [[]|e]].
Qed.

Lemma run_live_quiet c params interval waits s s' r :
  state_ok (daemon s.1).1 → u64_ok (tp_limit params) →
  run_live format_duration show_error c params interval waits s = (s', r) → daemon s'.1 = daemon s.1.
Proof.
  intros Hs Hp. unfold run_live. pose proof (raw_enter_quiet s.1) as Hq.
  destruct (raw_enter s.1) as [w1 [orig|e]]; cbn [fst] in Hq; [|by intros [= <- _]].
  unfold print at 1. destruct (live_loop _ _ _ _ _ _ _) as [s2 x] eqn:Hl.
  apply live_loop_quiet in Hl; cbn [fst] in *; [|by rewrite Hq|done]. rewrite Hq in Hl.
  destruct x as [[[]|]|e]; intros Hx; injection Hx as <- _; cbn [fst]; by rewrite ?set_quiet.
Qed.

(** *** What the commands print *)
Lemma print_lines_run ts (s : W * str) :
  print_lines ts s = ((s.1, s.2 ++ concat ((λ t, t ++ [10]) <$> ts)), Ok tt).
Proof.
  revert s. induction ts as [|t ts IH]; intros s; cbn [print_lines].
  { unfold mret, se_ret. cbn. rewrite app_nil_r. by destruct s. }
  rewrite se_bind_run. cbn. rewrite IH. cbn. by rewrite <- app_assoc.
Qed.

(** A command that asks a question and prints the answer. *)
Lemma query_run {A} (m : SE W ClientError A) (p : A → SE (W * str) CliError ()) (out : A → str) w o x r :
  (∀ a s, p a s = ((s.1, s.2 ++ out a), Ok tt)) →
  (a ← call m; _ ← p a; mret (Some tt)) (w, o) = (x, r) →
  ∃ ra, m w = (x.1, ra)
    ∧ match ra with
      | Ok a => x.2 = o ++ out a ∧ r = Ok (Some tt)
      | Err _ => x.2 = o ∧ ∀ b, r ≠ Ok b
      end.
Proof.
  intros Hp. rewrite se_bind_run, call_run. destruct (m w) as [w1 [a|e]]; cbn.
  - rewrite se_bind_run, Hp. intros [= <- <-]. by exists (Ok a).
  - intros [= <- <-]. by exists (Err e).
Qed.

(** The lines of an answer: JSON text, or one line per entry. *)
Definition shown (json : bool) (j : Json) (lines : list str) : str :=
  if json then pretty j ++ [10] else concat ((λ t, t ++ [10]) <$> lines).

Lemma print_shown_line (json : bool) j line (s : W * str) :
  println (if json then pretty j else line) s = ((s.1, s.2 ++ shown json j [line]), Ok tt).
Proof. destruct json; cbn; by rewrite ?app_nil_r. Qed.

Lemma print_shown_lines (json : bool) j lines (s : W * str) :
  (if json then println (pretty j) else print_lines lines) s = ((s.1, s.2 ++ shown json j lines), Ok tt).
Proof. destruct json; [done|]. apply print_lines_run. Qed.

Lemma top_run_quiet tty c params interval (once json : bool) waits w o w' o' r :
  state_ok (daemon w).1 → u64_ok (tp_limit params) →
  top_run pretty format_duration show_error tty c params interval once json waits (w, o) = ((w', o'), r) →
  daemon w' = daemon w
  ∧ (json || (once || negb tty) = true → ∀ a, r = Ok a → ∃ now,
       let answer := top now (daemon w).1 params in
       o' = o ++ (if json then pretty (to_json answer) ++ [10]
                  else render_frame answer (tp_limit params) (format_duration interval) false)).
Proof.
  intros Hs Hp. unfold top_run. destruct json.
  - intros Hrun. apply (query_run _ _ (λ i, pretty (to_json i) ++ [10])) in Hrun as (ra & Hm & Hra); [|done].
    apply sdk_top_run in Hm as [Hd Hi]; [|done..]. split; [done|]. intros _ a Hr.
    destruct ra as [i|e]; [|by destruct Hra as [_ Hn]; apply Hn in Hr].
    destruct (Hi i eq_refl) as [now ->]. exists now. exact (proj1 Hra).
  - assert (negb (negb once && tty) = once || negb tty) as -> by by destruct once, tty.
    destruct (once || negb tty) eqn:Hone.
    + intros Hrun. apply (query_run _ _ (λ i, render_frame i (tp_limit params) (format_duration interval) false))
        in Hrun as (ra & Hm & Hra); [|done].
      apply sdk_top_run in Hm as [Hd Hi]; [|done..]. split; [done|]. intros _ a Hr.
      destruct ra as [i|e]; [|by destruct Hra as [_ Hn]; apply Hn in Hr].
      destruct (Hi i eq_refl) as [now ->]. exists now. exact (proj1 Hra).
    + intros Hrun. split; [|done]. by apply run_live_quiet in Hrun.
Qed.

(** A command that names a client, from the lines it shares with the others. *)
Lemma named_run (m : ClientRef → SE W ClientError ()) cref json text w o x r :
  (target ← parsed cref; _ ← call (m target); _ ← report json text; mret (Some tt)) (w, o) = (x, r) →
  match parse_client cref with
  | Ok target => ∃ ra, m target w = (x.1, ra)
      ∧ (ra = Ok tt → x.2 = o ++ (if json : bool then ok_json else text) ++ [10] ∧ r = Ok (Some tt))
      ∧ (ra ≠ Ok tt → x.2 = o ∧ ∀ a, r ≠ Ok a)
  | Err _ => x = (w, o) ∧ ∀ a, r ≠ Ok a
  end.
Proof.
  rewrite se_bind_run, parsed_run. destruct (parse_client cref) as [target|e]; cbn.
  2: { intros [= <- <-]. by split. }
  rewrite se_bind_run, call_run. destruct (m target w) as [w' [[]|e]] eqn:Hm; cbn.
  - intros [= <- <-]. exists (Ok tt). by split_and!.
  - intros [= <- <-]. exists (Err e). by split_and!.
Qed.

Lemma named_refused (m : ClientRef → SE W ClientError ()) cref json text w o x r :
  (∀ target w' ra, m target w = (w', ra) → daemon w' = daemon w ∧ ra ≠ Ok tt) →
  (target ← parsed cref; _ ← call (m target); _ ← report json text; mret (Some tt)) (w, o) = (x, r) →
  daemon x.1 = daemon w ∧ x.2 = o ∧ ∀ a, r ≠ Ok a.
Proof.
  intros Hm Hrun%named_run. destruct (parse_client cref) as [target|e].
  - destruct Hrun as (ra & Hx & _ & Herr). apply Hm in Hx as [Hd Hra].
    destruct (Herr Hra) as [Ho Hr]. by split_and!.
  - by destruct Hrun as [-> Hr].
Qed.

(** A throttle that reports success has set the manual policy. *)
Lemma throttle_done k (s : DaemonState E) (st : S) p c d' :
  parse_ref (th_client p) = Ok c → throttle k s st p = Some (d', Ok tt) →
  ∃ until, expiry (clk_now k) (th_duration_secs p) = Some until
    ∧ d'.1 = set_manual s c
               (Some (mkManual (Some (default 50 (th_rate p))) (m_blocked (old_manual s c)) until)).
Proof.
  intros Hc. unfold throttle. rewrite Hc. intros (until & Hu & Hx)%bind_Some. exists until.
  split; [done|]. injection Hx as Hx. unfold update_manual in Hx.
  destruct (persist k st c _) as [st' r]. by injection Hx as <- _.
Qed.
End lemmas.

(** ** Properties *)

(** C22 (command_line_faithful): what the command line prints is true.  When
    [microwaf throttle] succeeds, the client it names has, in the daemon, a manual
    throttle of the given rate (with its previous block, until the given duration
    has passed), no other client's policy has changed, and the confirmation is
    printed.  [info], [rules], [clients] and [top] (the live view too) never
    change the daemon, and print exactly its answer when they succeed.
    [block], [unblock] and [unthrottle] always fail, print nothing and change
    nothing in the daemon. *)
Theorem command_line_faithful `{HI : HashIter} `{CEL : CelEngine} {E S} `{MS : ManualPolicyStore S}
    `{TR : Transport W} `{TTY : Terminal W} `{DBG : DebugText}
    `{DT : !DaemonTransport (E := E) (S := S) (W := W)} `{!QuietTerminal}
    pretty format_duration show_error tty waits socket cli (w w' : W) o o' r :
  let s := (daemon w).1 in
  state_ok s →
  client_run pretty format_duration show_error tty waits socket cli (w, o) = ((w', o'), r) →
  match cli_command cli with
  | Some (CmdThrottle cref duration rate json _) =>
      byte_ok rate → opt_u64 (as_secs <$> duration) → r = Ok (Some tt) →
      ∃ c k until, client_from_str cref = Ok c
        ∧ expiry (clk_now k) (as_secs <$> duration) = Some until
        ∧ (daemon w').1 = set_manual s c (Some (mkManual (Some rate) (m_blocked (old_manual s c)) until))
        ∧ o' = o ++ (if json then ok_json else lit "throttled " ++ cref) ++ [10]
  | Some (CmdBlock _ duration _ _) =>
      opt_u64 (as_secs <$> duration) → daemon w' = daemon w ∧ o' = o ∧ ∀ a, r ≠ Ok a
  | Some (CmdUnblock _ _ _) | Some (CmdUnthrottle _ _ _) =>
      daemon w' = daemon w ∧ o' = o ∧ ∀ a, r ≠ Ok a
  | Some (CmdInfo json _) =>
      let i := info_result served_info s in
      daemon w' = daemon w
      ∧ (r = Ok (Some tt) → o' = o ++ shown pretty json (to_json i) [info_line i])
  | Some (CmdRules json _) =>
      let i := list_rules s in
      daemon w' = daemon w
      ∧ (r = Ok (Some tt) → o' = o ++ shown pretty json (to_json i) (rule_text <$> rr_rules i))
  | Some (CmdClients json _) =>
      daemon w' = daemon w
      ∧ (r = Ok (Some tt) → ∃ now, let i := list_clients now s in
           o' = o ++ shown pretty json (to_json i) (client_line <$> cr_clients i))
  | Some (CmdTop limit rule_id protocol metric interval once json _) =>
      let params := mkTop limit rule_id protocol metric in
      u64_ok limit →
      daemon w' = daemon w
      ∧ (json || (once || negb tty) = true → ∀ a, r = Ok a → ∃ now, let i := top now s params in
           o' = o ++ (if json then pretty (to_json i) ++ [10]
                      else render_frame i limit (format_duration interval) false))
  | Some (CmdDaemon _) | None => w' = w ∧ o' = o ∧ ∀ a, r ≠ Ok a
  end.
Proof.
  intros s Hs Hrun. unfold client_run in Hrun.
  destruct (cli_command cli) as [[a|j t|l i p m iv on j t|j t|cr d ra j t|cr j t|cr d j t|cr j t|j t]|].
  - by injection Hrun as <- <- <-.
  - apply (query_run _ _ (λ i, shown pretty j (to_json i) [info_line i])) in Hrun
      as (ra & Hm & Hra); [|by intros; apply print_shown_line].
    apply sdk_info_run in Hm as [Hd Hi]; [|done]. split; [done|]. intros Hr.
    destruct ra as [i|e]; [|by destruct Hra as [_ Hn]; apply Hn in Hr].
    rewrite (Hi i eq_refl) in Hra. apply Hra.
  - intros params Hl. by apply top_run_quiet in Hrun.
  - apply (query_run _ _ (λ i, shown pretty j (to_json i) (client_line <$> cr_clients i))) in Hrun
      as (ra & Hm & Hra); [|by intros; apply print_shown_lines].
    apply sdk_list_clients_run in Hm as [Hd Hi]; [|done]. split; [done|]. intros Hr.
    destruct ra as [i|e]; [|by destruct Hra as [_ Hn]; apply Hn in Hr].
    destruct (Hi i eq_refl) as [now ->]. exists now. apply Hra.
  - intros Hra Hd Hr. apply named_run in Hrun. destruct (parse_client cr) as [target|e] eqn:Hp.
    2: { by destruct Hrun as [_ Hn]; apply Hn in Hr. }
    destruct Hrun as (rb & Hm & Hok & Herr). destruct (parse_client_ref _ _ Hp) as (c & Hc & -> & Href).
    destruct rb as [[]|e]; [|by destruct (Herr ltac:(done)) as [_ Hn]; apply Hn in Hr].
    apply sdk_throttle_Ok in Hm as (k & Hx); [|done|split; [|done]; by intros n [= <-]].
    destruct (throttle_done k _ _ (mkThrottleParams _ _ _) c _ Href Hx) as (until & Hu & Hd').
    exists c, k, until. by split_and!; [| | |apply Hok].
  - eapply named_refused in Hrun; [exact Hrun|]. intros. by eapply sdk_clear_refused; [|right].
  - intros Hd. eapply named_refused in Hrun; [exact Hrun|]. intros. by eapply sdk_block_refused; [| |done].
  - eapply named_refused in Hrun; [exact Hrun|]. intros. by eapply sdk_clear_refused; [|left].
  - apply (query_run _ _ (λ i, shown pretty j (to_json i) (rule_text <$> rr_rules i))) in Hrun
      as (ra & Hm & Hra); [|by intros; apply print_shown_lines].
    apply sdk_list_rules_run in Hm as [Hd Hi]; [|done]. split; [done|]. intros Hr.
    destruct ra as [i|e]; [|by destruct Hra as [_ Hn]; apply Hn in Hr].
    rewrite (Hi i eq_refl) in Hra. apply Hra.
  - by injection Hrun as <- <- <-.
Qed.

(** A terminal without attributes, for the concrete transport. *)
#[local] Instance local_terminal {E S} `{CEL : CelEngine} : Terminal (LocalWorld E S) := {|
  tcgetattr w := (w, Ok (mkTermios 0 0 []));
  tcsetattr _ w := (w, Ok tt)
|}.

#[local] Instance local_quiet {E S} `{HI : HashIter} `{CEL : CelEngine} `{MS : ManualPolicyStore S} :
  QuietTerminal (DT := local_daemon (E := E) (S := S)).
Proof. by split. Qed.

Lemma command_line_faithful_witness :
  let H := hash_forward in let C := yes_engine in let D : DebugText := λ _, [] in
  let w := mkLocal (demo_state, memory0) None in
  let target := mac_string demo_client ++ [64] ++ show_ip (ip demo_client) in
  let cli := mkCli (Some (CmdThrottle target (Some (60 * NS)) 30 false DEFAULT_TIMEOUT))
               None false None None None None in
  ∃ w' o' until, client_run (λ _, []) (λ _, []) (λ _, []) true [] DEFAULT_SOCKET cli (w, [])
           = ((w', o'), Ok (Some tt))
    ∧ (lw_daemon w').1 = set_manual demo_state demo_client
                           (Some (mkManual (Some 30) false until))
    ∧ o' = lit "throttled " ++ target ++ [10].
Proof.
  intros H C D w target cli.
  destruct (client_run (λ _, []) (λ _, []) (λ _, []) true [] DEFAULT_SOCKET cli (w, []))
    as [[w' o'] r] eqn:Hrun.
  assert (r = Ok (Some tt)) as Hr.
  { apply (f_equal (λ x, match x.2 with Ok (Some tt) => true | _ => false end)) in Hrun.
    vm_compute in Hrun. destruct r as [[[]|]|e]; (reflexivity || discriminate). }
  pose proof (command_line_faithful (DT := local_daemon) _ _ _ _ _ _ cli w w' [] o' r demo_state_ok Hrun) as Hc.
  destruct Hc as (c & k & until & Hc & Hu & Hd & Ho); [split; vm_compute; discriminate| |exact Hr|].
  { intros n [= <-]. split; vm_compute; discriminate. }
  assert (client_from_str target = Ok demo_client) as Hcl by (vm_compute; reflexivity).
  rewrite Hcl in Hc. injection Hc as <-.
  exists w', o', until. split; [by rewrite Hr|]. split; [exact Hd|exact Ho].
Defined.
