(* ===== verification/Live.v ===== *)
(** The configuration directory ([crates/microwaf/src/config.rs]): default files,
    loading and hot reload, over a file system with directories, files and
    faults. *)

From S2P Require Import Prelude Text Client Rule Window Policy Counters Enforcer Config State.

(** ** The file system

    A path is its list of components; a file is its text ([None]: not UTF-8).
    [fault op p] is the error, if any, that the system answers to an operation
    on [p] besides the errors that follow from the tree. *)
Abbreviation path := (list str).

Inductive Node := Dir | File (text : option str).
Abbreviation Fs := (gmap path Node).

Inductive fs_op := OpMkdir | OpWrite | OpRead | OpList | OpStat.

Class FsFaults := fault : fs_op → path → option str.

Inductive LoadError :=
| FsError (op : fs_op) (p : path) (e : str)
| YamlError (file : str) (e : str)
| RulesError (p : path) (e : ConfigError)
| CompileError (e : ConfigError).

Abbreviation FsM := (SE Fs LoadError).

Definition is_file (n : option Node) : bool :=
  match n with
  | Some (File _) => true
  | _ => false
  end.

(** The prefixes of a path, from the root to the path itself. *)
Definition prefixes (p : path) : list path := (λ n, take n p) <$> seq 0 (S (length p)).

Section fs.
Context `{HI : HashIter} `{FF : FsFaults}.

Definition fs_do {A} (f : Fs → Fs * result A LoadError) : FsM A := f.

Definition checked (op : fs_op) (p : path) : FsM () := λ fs,
  match fault op p with
  | Some e => (fs, Err (FsError op p e))
  | None => (fs, Ok tt)
  end.

Definition fs_fail {A} (op : fs_op) (p : path) (msg : string) : FsM A :=
  λ fs, (fs, Err (FsError op p (lit msg))).

(** [fs::create_dir_all]: nothing to do, or to fail, when it is a directory. *)
Definition create_dir_all (p : path) : FsM () := λ fs,
  match fs !! p with
  | Some Dir => (fs, Ok tt)
  | _ =>
      (checked OpMkdir p ≫= λ _, fs_do (λ fs,
         if existsb (λ q, is_file (fs !! q)) (prefixes p)
         then fs_fail OpMkdir p "Not a directory" fs
         else (foldr (λ q fs, <[q := Dir]> fs) fs (prefixes p), Ok tt))) fs
  end.

(** [fs::write]: the parent must be a directory, the path no directory. *)
Definition fs_write (p : path) (text : str) : FsM () :=
  _ ← checked OpWrite p;
  fs_do (λ fs, match fs !! removelast p, fs !! p with
        | Some Dir, Some Dir => fs_fail OpWrite p "Is a directory" fs
        | Some Dir, _ => (<[p := File (Some text)]> fs, Ok tt)
        | _, _ => fs_fail OpWrite p "No such file or directory" fs
        end).

(** [fs::read_to_string]. *)
Definition read_to_string (p : path) : FsM str :=
  _ ← checked OpRead p;
  fs_do (λ fs, match fs !! p with
        | Some (File (Some text)) => (fs, Ok text)
        | Some (File None) => fs_fail OpRead p "stream did not contain valid UTF-8" fs
        | Some Dir => fs_fail OpRead p "Is a directory" fs
        | None => fs_fail OpRead p "No such file or directory" fs
        end).

(** [Path::exists]: an error counts as absence. *)
Definition exists_ (p : path) (fs : Fs) : bool :=
  match fault OpStat p, fs !! p with
  | None, Some _ => true
  | _, _ => false
  end.

(** The name of an entry of [d]. *)
Definition child_of (d p : path) : option str :=
  if decide (p ≠ [] ∧ removelast p = d) then last p else None.

(** [fs::read_dir], the names in an unspecified order. *)
Definition read_dir (d : path) : FsM (list str) :=
  _ ← checked OpList d;
  fs_do (λ fs, match fs !! d with
        | Some Dir => (fs, Ok (omap (λ kv, child_of d kv.1) (hiter fs)))
        | Some _ => fs_fail OpList d "Not a directory" fs
        | None => fs_fail OpList d "No such file or directory" fs
        end).
End fs.

(** ** Names *)

(** [Path::extension]: the text after the last dot, unless the only dot leads. *)
Definition extension (name : str) : option str :=
  if decide (name = lit "..") then None
  else match split_once 46 (reverse name) with
       | Some (_, []) | None => None
       | Some (rev_ext, _) => Some (reverse rev_ext)
       end.

Definition is_rules_yaml (name : str) : bool :=
  if ends_with (lit ".example") name then false
  else match extension name with
       | Some e => bool_decide (e = lit "yaml") || bool_decide (e = lit "yml")
       | None => false
       end.

(** [example_path] of a path with a file name. *)
Definition example_path (p : path) : path :=
  match last p with
  | Some name => removelast p ++ [name ++ lit ".example"]
  | None => p
  end.

(** ** The default files *)
Definition DEFAULT_DAEMON_YAML : str :=
  lit "mode: enforce
# NIC name, or `any` to sniff on all interfaces (default)
interface: any
cooldownSecs: 30
statsSnapshotSecs: 5
allowUsers:
  - root
  - bigfred
  - bigfred-wizard
".

Definition DEFAULT_SETS_YAML : str :=
  lit "allowlist:
  - 10.0.0.0/8
  - 192.168.0.0/16
".

Definition DEFAULT_RULES_YAML : str :=
  lit "- id: http-rps-100
  protocol: http
  ports: [80, 443]
  metric: requests
  window: per-second
  limit: 100
  action: { kind: throttle, dropRate: 50 }
  minThreshold: 50

- id: z21-rps
  protocol: z21
  ports: [21105, 21106]
  metric: requests
  window: per-second
  limit: 500
  action: { kind: throttle, dropRate: 50 }
  minThreshold: 200

- id: wt-speed-spam
  protocol: withrottle
  ports: [12090]
  metric: requests
  window: per-second
  limit: 30
  action: { kind: block }
  minThreshold: 10
  match: 'withrottle.prefix == " ++ [34] ++ lit "M0A" ++ [34] ++ lit "'

- id: tcp-conn-per-sec
  protocol: tcp
  ports: [5000]
  metric: connections
  window: per-second
  limit: 20
  action: { kind: throttle, dropRate: 60 }
  minThreshold: 10
".

(** ** Seeding *)
Section live.
Context `{HI : HashIter} `{FF : FsFaults}.

Definition with_newline (body : str) : str :=
  if ends_with [10] body then body else body ++ [10].

Definition write_text (p : path) (body : str) : FsM () :=
  _ ← create_dir_all (removelast p);
  fs_write p (with_newline body).

Definition write_example (p : path) (body : str) : FsM path :=
  _ ← write_text (example_path p) body;
  mret (example_path p).

Definition seed_if_missing (p : path) (body : str) : FsM bool := λ fs,
  if exists_ p fs then (fs, Ok false)
  else (write_text p body ≫= λ _, mret true) fs.

(** A directory that cannot be read counts as empty. *)
Definition rules_dir_has_yaml (d : path) (fs : Fs) : bool :=
  match read_dir d fs with
  | (_, Ok names) => existsb is_rules_yaml names
  | (_, Err _) => false
  end.

(** An error that is only logged. *)
Definition logged {A} (m : FsM A) : FsM () := λ fs, ((m fs).1, Ok tt).

Definition rules_d (dir : path) : path := dir ++ [lit "rules.d"].
Definition daemon_yaml (dir : path) : path := dir ++ [lit "daemon.yaml"].
Definition sets_yaml (dir : path) : path := dir ++ [lit "sets.yaml"].
Definition baseline_yaml (dir : path) : path := rules_d dir ++ [lit "00-baseline.yaml"].

Definition seed_baseline (dir : path) : FsM () := λ fs,
  if rules_dir_has_yaml (rules_d dir) fs then (fs, Ok tt)
  else (_ ← seed_if_missing (baseline_yaml dir) DEFAULT_RULES_YAML; mret tt) fs.

Definition ensure_config_files (dir : path) : FsM () :=
  _ ← create_dir_all dir;
  _ ← create_dir_all (rules_d dir);
  _ ← logged (write_example (daemon_yaml dir) DEFAULT_DAEMON_YAML);
  _ ← logged (write_example (sets_yaml dir) DEFAULT_SETS_YAML);
  _ ← logged (write_example (baseline_yaml dir) DEFAULT_RULES_YAML);
  _ ← seed_if_missing (daemon_yaml dir) DEFAULT_DAEMON_YAML;
  _ ← seed_if_missing (sets_yaml dir) DEFAULT_SETS_YAML;
  seed_baseline dir.

(** ** Loading *)

(** [serde_yaml] for the two other files. *)
Class ConfigYaml := {
  daemon_from_str : str → result DaemonConfig str;
  sets_from_str : str → result SetsConfig str
}.

Context `{CEL : CelEngine} `{YAML : YamlEngine} `{CY : ConfigYaml}.

Definition load_file {A} (p : path) (what : str) (d : A) (parse : str → result A str) : FsM A := λ fs,
  if exists_ p fs
  then (text ← read_to_string p; se_lift (map_err (YamlError what) (parse text))) fs
  else (fs, Ok d).

Definition load_daemon (dir : path) : FsM DaemonConfig :=
  load_file (daemon_yaml dir) (lit "daemon.yaml") default_config daemon_from_str.

Definition load_sets (dir : path) : FsM SetsConfig :=
  load_file (sets_yaml dir) (lit "sets.yaml") ∅ sets_from_str.

(** The loop over the sorted files. *)
Fixpoint load_rule_files (d : path) (names : list str) : FsM (list ConfigRule) :=
  match names with
  | [] => mret []
  | name :: names' =>
      text ← read_to_string (d ++ [name]);
      cfgs ← se_lift (map_err (RulesError (d ++ [name])) (parse_rules_yaml text));
      rest ← load_rule_files d names';
      mret (cfgs ++ rest)
  end.

Definition load_rules (dir : path) : FsM RuleSet := λ fs,
  let d := rules_d dir in
  if exists_ d fs
  then (names ← read_dir d;
        let files := merge_sort lex_le (filter (λ n, is_rules_yaml n = true) names) in
        all ← load_rule_files d files;
        se_lift (map_err CompileError (compile_ruleset all))) fs
  else (fs, Ok []).

Definition live_load (dir : path) : FsM LiveConfig :=
  _ ← ensure_config_files dir;
  daemon ← load_daemon dir;
  sets ← load_sets dir;
  rules ← load_rules dir;
  mret (mkLive daemon sets rules).

(** ** Hot reload *)
Definition set_mode (c : DaemonConfig) (m : Mode) : DaemonConfig :=
  mkDaemonConfig m (cfg_interface c) (cooldown_secs c) (stats_snapshot_secs c) (cfg_allow_users c).

Definition try_reload {E} (dir : path) (s : DaemonState E) (fs : Fs) : DaemonState E * Fs :=
  match live_load dir fs with
  | (fs', Ok l) =>
      (swap_live s (mkLive (set_mode (live_daemon l) (st_mode s)) (live_sets l) (live_rules l)), fs')
  | (fs', Err _) => (s, fs')
  end.
End live.

(** What is assumed of the YAML parser where states are typed: drop rates are
    [u8], ports [u16], limits and thresholds [u64]. *)
Definition config_rule_typed (c : ConfigRule) : Prop :=
  (∀ d, cr_action c = CfgThrottle d → byte_ok d) ∧ u64_ok (cr_limit c)
  ∧ u64_ok (cr_min_threshold c) ∧ Forall u16_ok (default [] (cr_ports c)).

Class YamlTyped `{YAML : YamlEngine} :=
  yaml_typed : ∀ text cfgs, parse_rules_yaml text = Ok cfgs → Forall config_rule_typed cfgs.

(** ** Lemmas *)

Lemma prefixes_self p : p ∈ prefixes p.
Proof.
  apply list_elem_of_fmap. exists (length p). split; [by rewrite take_ge|apply elem_of_seq; lia].
Qed.

Lemma prefixes_prefix p q : q ∈ prefixes p → q `prefix_of` p.
Proof. intros (n & -> & _)%list_elem_of_fmap. apply prefix_take. Qed.

#[local] Opaque prefixes.

(** *** No live file is overwritten

    [keeps X fs fs']: what exists outside [X] stays as it is. *)
Definition keeps (X : list path) (fs fs' : Fs) : Prop :=
  ∀ p n, fs !! p = Some n → p ∉ X → fs' !! p = Some n.

#[export] Instance keeps_po (X : list path) : PreOrder (keeps X).
Proof. split; [by intros fs p n|]. intros f1 f2 f3 H1 H2 p n Hp Hx. eauto. Qed.

Lemma keeps_insert (X : list path) (fs : Fs) p n : p ∈ X ∨ fs !! p = None → keeps X fs (<[p := n]> fs).
Proof.
  intros Hp q m Hq Hx. rewrite lookup_insert_ne; [done|]. intros <-. naive_solver.
Qed.

Section keeps.
Context `{HI : HashIter} `{FF : FsFaults}.

Lemma checked_run op p fs fs' r : checked op p fs = (fs', r) →
  fs' = fs ∧ (r = Ok tt ↔ fault op p = None).
Proof. unfold checked. destruct (fault op p); intros [= <- <-]; naive_solver. Qed.

Lemma dirs_lookup (ps : list path) (fs : Fs) q :
  foldr (λ q fs, <[q := Dir]> fs) fs ps !! q = if decide (q ∈ ps) then Some Dir else fs !! q.
Proof.
  induction ps as [|p ps IH]; cbn; [done|]. destruct (decide (q = p)) as [->|Hne].
  - by rewrite lookup_insert_eq, decide_True by left.
  - rewrite lookup_insert_ne, IH by done. repeat case_decide; set_solver.
Qed.

Lemma create_dir_keeps (X : list path) p fs fs' r : create_dir_all p fs = (fs', r) →
  keeps X fs fs' ∧ (r = Ok tt → fs' !! p = Some Dir).
Proof.
  unfold create_dir_all. destruct (fs !! p) as [[|t]|] eqn:Hp; [by intros [= <- <-]|..].
  all: rewrite se_bind_run; destruct (checked OpMkdir p fs) as [f1 [[]|e]] eqn:Hc;
    apply checked_run in Hc as [-> _]; [|by intros [= <- <-]];
    unfold fs_do; destruct (existsb _ _) eqn:Hex; intros [= <- <-]; [done|].
  all: split; [|intros _; rewrite dirs_lookup, decide_True; [done|]].
  2, 4: by apply prefixes_self.
  all: intros q n Hq _; rewrite dirs_lookup; case_decide as Hin; [|done];
    destruct n as [|t']; [done|]; exfalso;
    apply not_true_iff_false in Hex; apply Hex, existsb_exists;
    exists q; (split; [by apply list_elem_of_In|by rewrite Hq]).
Qed.

Lemma fs_write_run p text fs fs' r : fs_write p text fs = (fs', r) →
  (fs' = fs ∧ r ≠ Ok tt) ∨ (fs' = <[p := File (Some text)]> fs ∧ r = Ok tt).
Proof.
  unfold fs_write. rewrite se_bind_run. destruct (checked OpWrite p fs) as [f1 [[]|e]] eqn:Hc;
    apply checked_run in Hc as [-> _]; [|intros [= <- <-]; by left].
  unfold fs_do, fs_fail. destruct (fs !! removelast p) as [[|t]|], (fs !! p) as [[|t']|];
    intros [= <- <-]; (by left) || (by right).
Qed.

(** Writing a text: nothing outside [X] changes if the target is in [X] or
    missing; on success the target holds the text. *)
Lemma write_text_keeps (X : list path) p body fs fs' r : write_text p body fs = (fs', r) →
  p ∈ X ∨ fs !! p = None → ¬ p `prefix_of` removelast p →
  keeps X fs fs' ∧ (r = Ok tt → fs' !! p = Some (File (Some (with_newline body)))).
Proof.
  intros Hw Hp Hnp. unfold write_text in Hw. rewrite se_bind_run in Hw.
  destruct (create_dir_all (removelast p) fs) as [f1 r1] eqn:Hd.
  pose proof (create_dir_keeps X _ _ _ _ Hd) as [Hk _].
  destruct r1 as [[]|e]; [|by injection Hw as <- <-].
  apply fs_write_run in Hw as [[-> Hr]|[-> ->]]; [by split|].
  split; [|intros _; apply lookup_insert_eq]. etransitivity; [exact Hk|]. apply keeps_insert.
  destruct Hp as [Hp|Hp]; [by left|right].
  unfold create_dir_all in Hd. destruct (fs !! removelast p) as [[|t]|] eqn:Hpar;
    [by injection Hd as <-|..].
  all: rewrite se_bind_run in Hd; destruct (checked OpMkdir _ fs) as [f2 [[]|e]] eqn:Hc;
    apply checked_run in Hc as [-> _]; [|done]; unfold fs_do in Hd;
    destruct (existsb _ _); [done|]; injection Hd as <-; rewrite dirs_lookup, decide_False; [done|];
    intros Hin; by apply Hnp, prefixes_prefix.
Qed.

Definition examples (dir : path) : list path :=
  [example_path (daemon_yaml dir); example_path (sets_yaml dir); example_path (baseline_yaml dir)].

Lemma prefix_length_absurd (p : path) : p ≠ [] → ¬ p `prefix_of` removelast p.
Proof.
  intros Hp Hpre%prefix_length. destruct p as [|x p _] using rev_ind; [done|].
  rewrite removelast_last, length_app in Hpre. cbn in Hpre. lia.
Qed.

Lemma example_snoc d n : example_path (d ++ [n]) = d ++ [n ++ lit ".example"].
Proof. unfold example_path. by rewrite last_snoc, removelast_last. Qed.

Lemma examples_eq dir : examples dir =
  [dir ++ [lit "daemon.yaml" ++ lit ".example"]; dir ++ [lit "sets.yaml" ++ lit ".example"];
   rules_d dir ++ [lit "00-baseline.yaml" ++ lit ".example"]].
Proof. unfold examples, daemon_yaml, sets_yaml, baseline_yaml. by rewrite !example_snoc. Qed.

Lemma snoc_ne (d : path) n : d ++ [n] ≠ [].
Proof. by destruct d. Qed.

(** A logged write of an example touches only that example. *)
Lemma logged_example_keeps (X : list path) d n body fs fs' r :
  d ++ [n ++ lit ".example"] ∈ X →
  logged (write_example (d ++ [n]) body) fs = (fs', r) → keeps X fs fs' ∧ r = Ok tt.
Proof.
  intros Hx. unfold logged. intros [= <- <-]. split; [|done]. unfold write_example.
  rewrite example_snoc, se_bind_run.
  destruct (write_text _ body fs) as [f1 r1] eqn:Hw.
  apply (write_text_keeps X) in Hw as [Hk _]; [|by left|apply prefix_length_absurd, snoc_ne].
  by destruct r1 as [[]|].
Qed.

(** *** What is created

    [creates Y fs fs']: what appears is in [Y]. *)
Definition creates (Y : list path) (fs fs' : Fs) : Prop :=
  ∀ p, fs !! p = None → is_Some (fs' !! p) → p ∈ Y.

#[export] Instance creates_po (Y : list path) : PreOrder (creates Y).
Proof.
  split; [by intros fs p -> [??]|]. intros f1 f2 f3 H1 H2 p Hp Hs.
  destruct (f2 !! p) eqn:E; [|eauto]. apply H1; [done|]. rewrite E. by eexists.
Qed.

Lemma creates_mono (Y Y' : list path) fs fs' : Y ⊆ Y' → creates Y fs fs' → creates Y' fs fs'.
Proof. intros Hy Hc p Hp Hs. by apply Hy, Hc. Qed.

Lemma create_dir_creates p fs : creates (prefixes p) fs (create_dir_all p fs).1.
Proof.
  unfold create_dir_all. destruct (fs !! p) as [[|t]|] eqn:Hp; [done|..].
  all: rewrite se_bind_run; destruct (checked OpMkdir p fs) as [f1 [[]|e]] eqn:Hc;
    apply checked_run in Hc as [-> _]; [|done]; unfold fs_do; destruct (existsb _ _); [done|].
  all: intros q Hq; cbn [fst]; rewrite dirs_lookup, Hq; case_decide; [done|by intros [??]].
Qed.

Lemma write_text_creates p body fs :
  creates (p :: prefixes (removelast p)) fs (write_text p body fs).1.
Proof.
  unfold write_text. rewrite se_bind_run.
  pose proof (create_dir_creates (removelast p) fs) as Hd.
  destruct (create_dir_all (removelast p) fs) as [f1 [[]|e]]; cbn [fst] in Hd;
    (apply (creates_mono _ (p :: prefixes (removelast p))) in Hd; [|set_solver]); [|done].
  etransitivity; [exact Hd|]. destruct (fs_write p (with_newline body) f1) as [f2 r] eqn:Hw.
  apply fs_write_run in Hw as [[-> _]|[-> _]]; cbn [fst]; [done|].
  intros q Hq. destruct (decide (q = p)) as [->|Hne]; [by left|].
  rewrite lookup_insert_ne, Hq by done. by intros [??].
Qed.

Lemma logged_example_creates d n body fs :
  creates ((d ++ [n ++ lit ".example"]) :: prefixes d) fs (logged (write_example (d ++ [n]) body) fs).1.
Proof.
  unfold logged, write_example. cbn [fst]. rewrite example_snoc, se_bind_run.
  pose proof (write_text_creates (d ++ [n ++ lit ".example"]) body fs) as Hc.
  rewrite removelast_last in Hc. by destruct (write_text _ body fs) as [f1 [[]|e]].
Qed.

Section stat.
Context (Hstat : ∀ p, fault OpStat p = None).

Lemma exists_lookup p fs : exists_ p fs = bool_decide (is_Some (fs !! p)).
Proof. unfold exists_. rewrite Hstat. by destruct (fs !! p). Qed.

Lemma seed_keeps (X : list path) p body fs fs' r :
  p ≠ [] → seed_if_missing p body fs = (fs', r) →
  keeps X fs fs' ∧ (∀ b, r = Ok b → is_Some (fs' !! p)
    ∧ (fs !! p = None → fs' !! p = Some (File (Some (with_newline body))))).
Proof.
  intros Hne. unfold seed_if_missing. rewrite exists_lookup. case_bool_decide as He.
  { intros [= <- <-]. split; [done|]. intros b _. split; [done|]. intros Hn. rewrite Hn in He.
    by destruct He. }
  rewrite se_bind_run. destruct (write_text p body fs) as [f1 r1] eqn:Hw.
  apply (write_text_keeps X) in Hw as [Hk Hok];
    [|right; by apply eq_None_not_Some|by apply prefix_length_absurd].
  destruct r1 as [[]|e]; intros [= <- <-]; (split; [done|]); [|done].
  intros b _. rewrite Hok by done. split; [by eexists|done].
Qed.

(** The names of an existing directory. *)
Lemma read_dir_run d fs : fault OpList d = None → fs !! d = Some Dir →
  ∃ names, read_dir d fs = (fs, Ok names) ∧ ∀ n, n ∈ names ↔ is_Some (fs !! (d ++ [n])).
Proof.
  intros Hf Hd. unfold read_dir. rewrite se_bind_run. unfold checked, fs_do. rewrite Hf, Hd.
  eexists. split; [done|]. intros n. rewrite list_elem_of_omap. split.
  - intros ([q x] & Hq%hiter_elem & Hc). cbn in Hc. unfold child_of in Hc.
    case_decide as Hp; [|done]. destruct Hp as [Hne <-].
    destruct q as [|y q _] using rev_ind; [done|]. rewrite last_snoc in Hc. injection Hc as ->.
    rewrite removelast_last. by exists x.
  - intros [x Hx]. exists (d ++ [n], x). rewrite hiter_elem. split; [done|]. unfold child_of. cbn.
    rewrite decide_True; [apply last_snoc|]. split; [apply snoc_ne|apply removelast_last].
Qed.

Lemma has_yaml_elem d fs : fault OpList d = None → fs !! d = Some Dir →
  rules_dir_has_yaml d fs = true ↔ ∃ n, is_rules_yaml n = true ∧ is_Some (fs !! (d ++ [n])).
Proof.
  intros Hf Hd. destruct (read_dir_run d fs Hf Hd) as (names & Hr & Hn).
  unfold rules_dir_has_yaml. rewrite Hr, existsb_exists. setoid_rewrite <- Hn.
  setoid_rewrite list_elem_of_In. naive_solver.
Qed.

Lemma seed_baseline_keeps (X : list path) dir fs fs' r :
  seed_baseline dir fs = (fs', r) →
  keeps X fs fs' ∧ (r = Ok tt → fault OpList (rules_d dir) = None → fs !! rules_d dir = Some Dir →
                      rules_d dir ∉ X → rules_dir_has_yaml (rules_d dir) fs' = true).
Proof.
  unfold seed_baseline. destruct (rules_dir_has_yaml (rules_d dir) fs) eqn:Hy.
  { by intros [= <- <-]. }
  rewrite se_bind_run. destruct (seed_if_missing _ _ fs) as [f1 r1] eqn:Hs.
  apply (seed_keeps X) in Hs as [Hk Hok]; [|apply snoc_ne].
  destruct r1 as [b|e]; intros [= <- <-]; (split; [done|]); [|done].
  intros _ Hf Hd Hx. apply has_yaml_elem; [done|by apply Hk|].
  exists (lit "00-baseline.yaml"). split; [reflexivity|]. by apply (Hok b).
Qed.

Lemma seed_creates p body fs fs' r : seed_if_missing p body fs = (fs', r) →
  creates (p :: prefixes (removelast p)) fs fs'.
Proof.
  unfold seed_if_missing. destruct (exists_ p fs); [by intros [= <- _]|]. rewrite se_bind_run.
  pose proof (write_text_creates p body fs) as Hc.
  destruct (write_text p body fs) as [f1 [[]|e]]; by intros [= <- _].
Qed.

(** With a rules file the seed does nothing; without one it puts the baseline file
    in place, if that is missing, and creates nothing else. *)
Lemma seed_baseline_Ok dir fs fs' :
  seed_baseline dir fs = (fs', Ok tt) →
  if rules_dir_has_yaml (rules_d dir) fs then fs' = fs
  else is_Some (fs' !! baseline_yaml dir)
    ∧ (fs !! baseline_yaml dir = None →
         fs' !! baseline_yaml dir = Some (File (Some (with_newline DEFAULT_RULES_YAML))))
    ∧ creates (baseline_yaml dir :: prefixes (rules_d dir)) fs fs'.
Proof.
  unfold seed_baseline. destruct (rules_dir_has_yaml (rules_d dir) fs); [by intros [= <-]|].
  intros (f1 & b & Hs & [= <-])%se_bind_Ok. pose proof (seed_creates _ _ _ _ _ Hs) as Hc.
  unfold baseline_yaml in Hc at 2. rewrite removelast_last in Hc.
  apply (seed_keeps []) in Hs as [_ Hok]; [|apply snoc_ne]. by destruct (Hok b eq_refl).
Qed.

Lemma example_not_live d n dir : is_rules_yaml n = true ∨ n = lit "rules.d" →
  d ++ [n] ∉ examples dir.
Proof.
  intros Hn Hin. assert (∃ d' m, d ++ [n] = d' ++ [m ++ lit ".example"]) as (d' & m & E).
  { rewrite examples_eq in Hin.
    rewrite !elem_of_cons, elem_of_nil in Hin. destruct Hin as [->|[->|[->|[]]]]; by do 2 eexists. }
  apply app_inj_tail in E as [_ ->]. destruct Hn as [Hn|Hn].
  - unfold is_rules_yaml, ends_with in Hn. rewrite reverse_app, starts_with_app in Hn. done.
  - apply (f_equal reverse) in Hn. by rewrite reverse_app in Hn.
Qed.

Lemma not_in_prefixes d n m : n ≠ m → d ++ [n] ∉ prefixes (d ++ [m]).
Proof.
  intros Hne Hp%prefixes_prefix. apply prefix_app_inv in Hp.
  by apply prefix_cons_inv_1 in Hp.
Qed.

Lemma not_in_own_prefixes d n : d ++ [n] ∉ prefixes d.
Proof. intros Hp%prefixes_prefix%prefix_length. rewrite length_app in Hp. cbn in Hp. lia. Qed.

(** A seeded file: present afterwards, with the default text if it was missing. *)
Definition seeded (fs fs' : Fs) (p : path) (body : str) : Prop :=
  is_Some (fs' !! p) ∧ (fs !! p = None → fs' !! p = Some (File (Some (with_newline body)))).

(** What the steps before the seeds create. *)
Definition created_first (dir : path) : list path :=
  examples dir ++ prefixes dir ++ prefixes (rules_d dir).

Lemma live_not_created dir n : is_rules_yaml n = true →
  dir ++ [n] ∉ created_first dir.
Proof.
  intros Hn. unfold created_first. rewrite !elem_of_app. intros [H|[H|H]]; revert H.
  - by apply example_not_live; left.
  - apply not_in_own_prefixes.
  - apply not_in_prefixes. by intros ->.
Qed.

Lemma rules_not_created dir n : is_rules_yaml n = true → rules_d dir ++ [n] ∉ created_first dir.
Proof.
  intros Hn. unfold created_first. rewrite !elem_of_app. intros [H|[H|H]]; revert H.
  - by apply example_not_live; left.
  - intros Hp%prefixes_prefix%prefix_length. unfold rules_d in Hp. rewrite !length_app in Hp. cbn in Hp. lia.
  - apply not_in_own_prefixes.
Qed.

(** A path of the rules directory is none of the files of the directory above. *)
Lemma rules_not_above dir n m : rules_d dir ++ [n] ∉ (dir ++ [m]) :: prefixes dir.
Proof.
  intros [E|Hp%prefixes_prefix%prefix_length]%elem_of_cons; unfold rules_d in *.
  - apply (f_equal length) in E. rewrite !length_app in E. cbn in E. lia.
  - rewrite !length_app in Hp. cbn in Hp. lia.
Qed.

Lemma unchanged (X Y : list path) fs fs' p :
  keeps X fs fs' → creates Y fs fs' → p ∉ X → p ∉ Y → fs' !! p = fs !! p.
Proof.
  intros Hk Hc Hx Hy. destruct (fs !! p) as [n|] eqn:Hp; [by apply Hk|].
  destruct (fs' !! p) eqn:Hp'; [|done]. destruct Hy. apply Hc; [done|]. rewrite Hp'. by eexists.
Qed.

Lemma keeps_bind {A B : Type} (X : list path) (m : FsM A) (f : A → FsM B) (fs : Fs) :
  keeps X fs (m fs).1 → (∀ a fs1, keeps X fs1 (f a fs1).1) → keeps X fs ((m ≫= f) fs).1.
Proof.
  intros Hm Hf. rewrite se_bind_run. destruct (m fs) as [fs1 [a|e]]; cbn in *; [|done].
  etransitivity; [exact Hm|apply Hf].
Qed.

Lemma ensure_keeps dir fs : keeps (examples dir) fs (ensure_config_files dir fs).1.
Proof.
  assert (∀ d n body fs, d ++ [n ++ lit ".example"] ∈ examples dir →
    keeps (examples dir) fs (logged (write_example (d ++ [n]) body) fs).1) as Hex.
  { intros d n body f Hin. destruct (logged _ f) as [f' r] eqn:Hl.
    by apply (logged_example_keeps (examples dir)) in Hl as [? _]. }
  assert (∀ p fs, keeps (examples dir) fs (create_dir_all p fs).1) as Hcd.
  { intros p f. destruct (create_dir_all p f) as [f' r] eqn:Hl. by eapply create_dir_keeps. }
  assert (∀ p n body fs, keeps (examples dir) fs (seed_if_missing (p ++ [n]) body fs).1) as Hsd.
  { intros p n body f. destruct (seed_if_missing _ body f) as [f' r] eqn:Hl.
    apply (seed_keeps (examples dir)) in Hl as [? _]; [done|apply snoc_ne]. }
  unfold ensure_config_files.
  repeat (apply keeps_bind;
    [first [apply Hcd|apply Hsd|apply Hex; rewrite examples_eq; repeat constructor]|intros ? ?]).
  match goal with |- keeps _ ?f (?m ?f).1 => destruct (m f) as [f' r] eqn:Hl end.
  by eapply seed_baseline_keeps.
Qed.

Lemma create_dir_Ok p fs fs' :
  create_dir_all p fs = (fs', Ok tt) →
  fs' !! p = Some Dir ∧ creates (prefixes p) fs fs' ∧ (∀ X, keeps X fs fs').
Proof.
  intros H. pose proof (create_dir_creates p fs) as Hc. rewrite H in Hc. split_and!; [|done|].
  - by eapply (create_dir_keeps []).
  - intros X. by eapply create_dir_keeps.
Qed.

Lemma logged_example_Ok (X : list path) d n body fs fs' :
  d ++ [n ++ lit ".example"] ∈ X →
  logged (write_example (d ++ [n]) body) fs = (fs', Ok tt) →
  keeps X fs fs' ∧ creates ((d ++ [n ++ lit ".example"]) :: prefixes d) fs fs'.
Proof.
  intros Hx H. pose proof (logged_example_creates d n body fs) as Hc. rewrite H in Hc.
  split; [by eapply logged_example_keeps|done].
Qed.

(** What is missing before the seeds is still missing when its turn comes. *)
Lemma still_missing (Y : list path) (fs f : Fs) p :
  creates Y fs f → p ∉ Y → fs !! p = None → f !! p = None.
Proof.
  intros Hc Hp Hn. destruct (f !! p) eqn:E; [|done]. destruct Hp. apply Hc; [done|].
  rewrite E. by eexists.
Qed.

(** The rules files after the seeds: those that were there, and the baseline file
    if no rules file could be seen. *)
Definition rules_seeded (dir : path) (fs fs' : Fs) : Prop :=
  let file n := rules_d dir ++ [n] in
  let seen := fault OpList (rules_d dir) = None ∧ ∃ n, is_rules_yaml n = true ∧ is_Some (fs !! file n) in
  (seen → ∀ n, is_rules_yaml n = true → fs' !! file n = fs !! file n)
  ∧ (¬ seen → seeded fs fs' (baseline_yaml dir) DEFAULT_RULES_YAML
       ∧ ∀ n, is_rules_yaml n = true → n ≠ lit "00-baseline.yaml" → fs' !! file n = fs !! file n).

Lemma has_yaml_seen d fs :
  fs !! d = Some Dir →
  rules_dir_has_yaml d fs = true ↔
    fault OpList d = None ∧ ∃ n, is_rules_yaml n = true ∧ is_Some (fs !! (d ++ [n])).
Proof.
  intros Hd. destruct (fault OpList d) as [e|] eqn:Hf.
  - split; [|by intros [? _]]. unfold rules_dir_has_yaml, read_dir. rewrite se_bind_run.
    unfold checked. by rewrite Hf.
  - rewrite has_yaml_elem by done. naive_solver.
Qed.

(** From a state with the same rules files. *)
Lemma baseline_seeded dir fs f fs' :
  f !! rules_d dir = Some Dir →
  (∀ n, is_rules_yaml n = true → f !! (rules_d dir ++ [n]) = fs !! (rules_d dir ++ [n])) →
  seed_baseline dir f = (fs', Ok tt) → rules_seeded dir fs fs'.
Proof.
  intros Hd Hsame Hrun. pose proof (has_yaml_seen _ _ Hd) as Hseen.
  assert ((∃ n, is_rules_yaml n = true ∧ is_Some (f !! (rules_d dir ++ [n])))
          ↔ ∃ n, is_rules_yaml n = true ∧ is_Some (fs !! (rules_d dir ++ [n]))) as Hiff.
  { split; intros (n & Hn & Hs); exists n; (split; [done|]); by rewrite Hsame in *. }
  rewrite Hiff in Hseen. pose proof (seed_baseline_keeps [] _ _ _ _ Hrun) as [Hk _].
  apply seed_baseline_Ok in Hrun. split; intros Hs.
  - rewrite (proj2 Hseen Hs) in Hrun. subst fs'. exact Hsame.
  - destruct (rules_dir_has_yaml (rules_d dir) f); [by destruct Hs; apply Hseen|].
    destruct Hrun as (Hb & Hnew & Hc). split.
    + split; [exact Hb|]. intros Hn. apply Hnew. unfold baseline_yaml. by rewrite Hsame.
    + intros n Hn Hne. rewrite <- Hsame by done. eapply unchanged; [exact Hk|exact Hc|apply not_elem_of_nil|].
      rewrite elem_of_cons. unfold baseline_yaml. intros [E|Hin]; [by apply app_inj_tail in E as [_ ?]|].
      by apply not_in_own_prefixes in Hin.
Qed.

Lemma ensure_Ok dir fs fs' :
  ensure_config_files dir fs = (fs', Ok tt) →
  seeded fs fs' (daemon_yaml dir) DEFAULT_DAEMON_YAML
  ∧ seeded fs fs' (sets_yaml dir) DEFAULT_SETS_YAML
  ∧ fs' !! rules_d dir = Some Dir
  ∧ rules_seeded dir fs fs'.
Proof.
  unfold ensure_config_files.
  intros (f1 & [] & H1 & H)%se_bind_Ok. apply se_bind_Ok in H as (f2 & [] & H2 & H).
  apply se_bind_Ok in H as (f3 & [] & H3 & H). apply se_bind_Ok in H as (f4 & [] & H4 & H).
  apply se_bind_Ok in H as (f5 & [] & H5 & H). apply se_bind_Ok in H as (f6 & b6 & H6 & H).
  apply se_bind_Ok in H as (f7 & b7 & H7 & H8).
  apply create_dir_Ok in H1 as (_ & C1 & K1). apply create_dir_Ok in H2 as (Hrd & C2 & K2).
  assert (∀ d n body f f', d ++ [n ++ lit ".example"] ∈ examples dir →
    prefixes d ⊆ created_first dir → logged (write_example (d ++ [n]) body) f = (f', Ok tt) →
    keeps (examples dir) f f' ∧ creates (created_first dir) f f') as Hex.
  { intros d n body f f' Hin Hpre Hl. apply (logged_example_Ok (examples dir)) in Hl as [Hk Hc]; [|done].
    split; [done|]. eapply creates_mono, Hc. intros q [->|Hq]%elem_of_cons; [|by apply Hpre].
    unfold created_first. rewrite !elem_of_app. auto. }
  assert (prefixes dir ⊆ created_first dir ∧ prefixes (rules_d dir) ⊆ created_first dir) as [Hp1 Hp2].
  { unfold created_first. split; intros q Hq; rewrite !elem_of_app; auto. }
  apply Hex in H3 as [K3 C3], H4 as [K4 C4], H5 as [K5 C5];
    try (rewrite examples_eq; repeat constructor); try done.
  assert (creates (created_first dir) fs f5) as C.
  { etransitivity; [by eapply creates_mono, C1|]. etransitivity; [by eapply creates_mono, C2|].
    etransitivity; [exact C3|]. etransitivity; [exact C4|exact C5]. }
  assert (keeps (examples dir) fs f5) as K.
  { etransitivity; [apply K1|]. etransitivity; [apply K2|]. etransitivity; [exact K3|].
    etransitivity; [exact K4|exact K5]. }
  pose proof (seed_creates _ _ _ _ _ H6) as C6. pose proof (seed_creates _ _ _ _ _ H7) as C7.
  apply (seed_keeps []) in H6 as [K6 S6], H7 as [K7 S7]; try apply snoc_ne.
  pose proof (seed_baseline_keeps [] _ _ _ _ H8) as [K8 _].
  destruct (S6 b6 eq_refl) as [Hd6 Hc6], (S7 b7 eq_refl) as [Hd7 Hc7].
  assert (∀ p, is_Some (f6 !! p) → is_Some (fs' !! p)) as Hsome.
  { intros p [n Hn]. exists n. apply K8; [apply K7; [done|]|]; apply not_elem_of_nil. }
  assert (f7 !! rules_d dir = Some Dir) as Hrd7.
  { assert (rules_d dir ∉ examples dir) as Hne by (apply example_not_live; by right).
    apply K7, not_elem_of_nil. apply K6, not_elem_of_nil. by apply K5, Hne; apply K4, Hne; apply K3. }
  split_and!.
  - split; [by apply Hsome|]. intros Hn. apply K8; [apply K7|]; try apply not_elem_of_nil.
    apply Hc6. eapply still_missing; [exact C|by apply live_not_created|done].
  - split.
    + destruct Hd7 as [n Hn]. exists n. apply K8; [done|apply not_elem_of_nil].
    + intros Hn. apply K8; [|apply not_elem_of_nil]. apply Hc7.
      eapply still_missing; [exact C6| |].
      * rewrite elem_of_cons. unfold daemon_yaml, sets_yaml. rewrite removelast_last.
        intros [E|Hin]; [by apply app_inj_tail in E as [_ ?]|]. by apply not_in_own_prefixes in Hin.
      * eapply still_missing; [exact C|by apply live_not_created|done].
  - apply K8; [done|apply not_elem_of_nil].
  - apply (baseline_seeded dir fs f7); [exact Hrd7| |exact H8]. intros n Hn.
    assert (rules_d dir ++ [n] ∉ examples dir) as Hne by (apply example_not_live; by left).
    unfold daemon_yaml, sets_yaml in C6, C7. rewrite removelast_last in C6, C7.
    rewrite (unchanged [] _ _ _ _ K7 C7) by (apply not_elem_of_nil || apply rules_not_above).
    rewrite (unchanged [] _ _ _ _ K6 C6) by (apply not_elem_of_nil || apply rules_not_above).
    apply (unchanged (examples dir) _ _ _ _ K C); [done|by apply rules_not_created].
Qed.
End stat.
End keeps.

(** *** Loading does not depend on the order of directory entries *)
Lemma bind_ext {A B : Type} (m1 m2 : FsM A) (f1 f2 : A → FsM B) (fs : Fs) :
  m1 fs = m2 fs → (∀ a fs', f1 a fs' = f2 a fs') → (m1 ≫= f1) fs = (m2 ≫= f2) fs.
Proof. intros Hm Hf. rewrite !se_bind_run, Hm. destruct (m2 fs) as [fs' [a|e]]; auto. Qed.

Section order.
Context `{FF : FsFaults} `{CEL : CelEngine} `{YAML : YamlEngine} `{CY : ConfigYaml}.

Lemma read_dir_perm (H1 H2 : HashIter) d fs :
  ∃ fs' r1 r2, @read_dir H1 _ d fs = (fs', r1) ∧ @read_dir H2 _ d fs = (fs', r2)
    ∧ match r1, r2 with
      | Ok n1, Ok n2 => n1 ≡ₚ n2
      | Err e1, Err e2 => e1 = e2
      | _, _ => False
      end.
Proof.
  unfold read_dir. rewrite !se_bind_run. unfold checked, fs_do, fs_fail.
  destruct (fault OpList d); [by do 3 eexists|]. destruct (fs !! d) as [[|t]|]; do 3 eexists;
    (split; [done|]); (split; [done|]); try done.
  apply omap_Permutation. by rewrite (@hiter_perm H1), (@hiter_perm H2).
Qed.

Lemma has_yaml_order (H1 H2 : HashIter) d fs :
  @rules_dir_has_yaml H1 _ d fs = @rules_dir_has_yaml H2 _ d fs.
Proof.
  unfold rules_dir_has_yaml. destruct (read_dir_perm H1 H2 d fs) as (f & r1 & r2 & -> & -> & Hr).
  destruct r1 as [n1|], r2 as [n2|]; try done. apply eq_iff_eq_true.
  rewrite !existsb_exists. setoid_rewrite <- list_elem_of_In. by setoid_rewrite Hr.
Qed.

Lemma load_rules_order (H1 H2 : HashIter) dir fs :
  @load_rules H1 _ _ _ dir fs = @load_rules H2 _ _ _ dir fs.
Proof.
  unfold load_rules. destruct (exists_ _ fs); [|done]. rewrite !se_bind_run.
  destruct (read_dir_perm H1 H2 (rules_d dir) fs) as (f & r1 & r2 & -> & -> & Hr).
  destruct r1 as [n1|], r2 as [n2|]; try done; [|by f_equal; f_equal].
  replace (merge_sort lex_le (filter _ n1)) with (merge_sort lex_le (filter (λ n, is_rules_yaml n = true) n2));
    [done|].
  apply (StronglySorted_unique lex_le); [apply (StronglySorted_merge_sort lex_le)..|].
  rewrite !merge_sort_Permutation. by rewrite Hr.
Qed.

Lemma ensure_order (H1 H2 : HashIter) dir fs :
  @ensure_config_files H1 _ dir fs = @ensure_config_files H2 _ dir fs.
Proof.
  unfold ensure_config_files. repeat (apply bind_ext; [done|intros ? ?]).
  unfold seed_baseline. by rewrite (has_yaml_order H1 H2).
Qed.

Lemma live_load_order (H1 H2 : HashIter) dir fs :
  @live_load H1 _ _ _ _ dir fs = @live_load H2 _ _ _ _ dir fs.
Proof.
  unfold live_load. apply bind_ext; [apply ensure_order|]. intros _ f1.
  apply bind_ext; [done|]. intros dm f2. apply bind_ext; [done|]. intros st f3.
  apply bind_ext; [apply load_rules_order|done].
Qed.

Context `{HI : HashIter}.

(** What is loaded, told from the files.  A file that is there must be readable
    text that parses; a missing one stands for the default. *)
Definition file_text (fs : Fs) (p : path) (text : str) : Prop :=
  fault OpRead p = None ∧ fs !! p = Some (File (Some text)).

Definition file_loads {A} (p : path) (d : A) (parse : str → result A str) (fs : Fs) (c : A) : Prop :=
  if exists_ p fs then ∃ text, file_text fs p text ∧ parse text = Ok c else c = d.

(** The rules files in name order, each parsed, concatenated and compiled. *)
Definition rules_load (dir : path) (fs : Fs) (rs : RuleSet) : Prop :=
  let d := rules_d dir in
  if exists_ d fs then
    fault OpList d = None ∧ fs !! d = Some Dir ∧ ∃ files css,
      StronglySorted lex_le files ∧ NoDup files
      ∧ (∀ n, n ∈ files ↔ is_rules_yaml n = true ∧ is_Some (fs !! (d ++ [n])))
      ∧ Forall2 (λ n cs, ∃ text, file_text fs (d ++ [n]) text ∧ parse_rules_yaml text = Ok cs) files css
      ∧ compile_ruleset (concat css) = Ok rs
  else rs = [].

Definition loads (dir : path) (fs : Fs) (l : LiveConfig) : Prop :=
  file_loads (daemon_yaml dir) default_config daemon_from_str fs (live_daemon l)
  ∧ file_loads (sets_yaml dir) ∅ sets_from_str fs (live_sets l)
  ∧ rules_load dir fs (live_rules l).

Lemma read_to_string_spec p fs :
  ∃ r, read_to_string p fs = (fs, r) ∧ ∀ text, r = Ok text ↔ file_text fs p text.
Proof.
  unfold read_to_string, file_text. rewrite se_bind_run. unfold checked, fs_do, fs_fail.
  destruct (fault OpRead p); [eexists; split; [done|naive_solver]|].
  destruct (fs !! p) as [[|[t|]]|]; (eexists; split; [done|naive_solver]).
Qed.

Lemma read_dir_spec d fs :
  ∃ r, read_dir d fs = (fs, r) ∧ (is_ok r = true ↔ fault OpList d = None ∧ fs !! d = Some Dir)
    ∧ ∀ names, r = Ok names → NoDup names ∧ ∀ n, n ∈ names ↔ is_Some (fs !! (d ++ [n])).
Proof.
  destruct (fault OpList d) as [e|] eqn:Hf.
  { unfold read_dir. rewrite se_bind_run. unfold checked. rewrite Hf. eexists. split; [done|]. naive_solver. }
  destruct (fs !! d) as [[|t]|] eqn:Hd;
    [|unfold read_dir; rewrite se_bind_run; unfold checked, fs_do, fs_fail; rewrite Hf, Hd;
      eexists; split; [done|]; naive_solver..].
  destruct (read_dir_run d fs Hf Hd) as (names & Hr & Hn). exists (Ok names). split; [exact Hr|].
  split; [done|]. intros names' [= <-]. split; [|exact Hn].
  unfold read_dir in Hr. rewrite se_bind_run in Hr. unfold checked, fs_do in Hr. rewrite Hf, Hd in Hr.
  injection Hr as <-. apply (NoDup_fmap_1 (λ n, d ++ [n])).
  eapply sublist_NoDup; [exact (hiter_NoDup fs)|]. clear Hn. induction (hiter fs) as [|[q x] l IH]; [done|].
  cbn [omap list_omap fmap list_fmap fst]. unfold child_of at 1. case_decide as Hq; [|by apply sublist_cons].
  destruct Hq as [Hne <-]. destruct q as [|y q _] using rev_ind; [done|].
  rewrite last_snoc, removelast_last in *. by apply sublist_skip.
Qed.

Lemma load_file_spec {A} p what (d : A) parse fs :
  ∃ r, load_file p what d parse fs = (fs, r) ∧ ∀ c, r = Ok c ↔ file_loads p d parse fs c.
Proof.
  unfold load_file, file_loads. destruct (exists_ p fs); [|eexists; split; [done|naive_solver]].
  rewrite se_bind_run. destruct (read_to_string_spec p fs) as (r & -> & Hr).
  destruct r as [text|e]; eexists; (split; [done|]); intros c.
  - rewrite map_err_Ok. split; [intros Hc; exists text; split; [by apply Hr|exact Hc]|].
    intros (text' & Ht & Hc). apply Hr in Ht as [= <-]. exact Hc.
  - split; [done|]. intros (text & Ht & _). by apply Hr in Ht.
Qed.

Lemma load_rule_files_spec d names fs :
  ∃ r, load_rule_files d names fs = (fs, r) ∧ ∀ cfgs, r = Ok cfgs ↔
    ∃ css, Forall2 (λ n cs, ∃ text, file_text fs (d ++ [n]) text ∧ parse_rules_yaml text = Ok cs) names css
      ∧ cfgs = concat css.
Proof.
  induction names as [|n names IH]; cbn [load_rule_files].
  { eexists. split; [done|]. intros cfgs. split.
    - intros [= <-]. by exists [].
    - intros (css & ->%Forall2_nil_inv_l & ->). done. }
  rewrite se_bind_run. destruct (read_to_string_spec (d ++ [n]) fs) as (r & -> & Hr).
  destruct r as [text|e].
  2: { eexists. split; [done|]. intros cfgs. split; [done|].
       intros (css & (cs & css' & (text & Ht & _) & _)%Forall2_cons_inv_l & _). by apply Hr in Ht. }
  rewrite se_bind_run. unfold se_lift at 1. destruct (parse_rules_yaml text) as [cs|e] eqn:Hp; cbn [map_err].
  2: { eexists. split; [done|]. intros cfgs. split; [done|].
       intros (css & (cs & css' & (text' & Ht & Hp') & _)%Forall2_cons_inv_l & _). apply Hr in Ht as [= <-].
       by rewrite Hp in Hp'. }
  rewrite se_bind_run. destruct IH as (r2 & -> & Hr2). destruct r2 as [rest|e].
  - eexists. split; [done|]. intros cfgs. split.
    + intros [= <-]. destruct (proj1 (Hr2 rest) eq_refl) as (css & Hf & ->). exists (cs :: css).
      split; [|done]. constructor; [|done]. exists text. split; [by apply Hr|done].
    + intros (css & (cs' & css' & (text' & Ht & Hp') & Hf & ->)%Forall2_cons_inv_l & ->).
      apply Hr in Ht as [= <-]. rewrite Hp in Hp'. injection Hp' as <-.
      assert (Ok rest = Ok (E := LoadError) (concat css')) as [= ->] by (apply Hr2; eauto). done.
  - eexists. split; [done|]. intros cfgs. split; [done|].
    intros (css & (cs' & css' & _ & Hf & ->)%Forall2_cons_inv_l & ->).
    assert (Err e = Ok (concat css')) by (apply Hr2; eauto). done.
Qed.

Lemma load_rules_spec dir fs :
  ∃ r, load_rules dir fs = (fs, r) ∧ ∀ rs, r = Ok rs ↔ rules_load dir fs rs.
Proof.
  unfold load_rules, rules_load. destruct (exists_ (rules_d dir) fs); [|eexists; split; [done|naive_solver]].
  rewrite se_bind_run. destruct (read_dir_spec (rules_d dir) fs) as (rd & -> & Hd & Hnames).
  destruct rd as [names|e].
  2: { eexists. split; [done|]. intros rs. split; [done|]. intros (Hf & Hdir & _).
       discriminate (proj2 Hd (conj Hf Hdir)). }
  destruct (proj1 Hd eq_refl) as [Hf Hdir]. destruct (Hnames names eq_refl) as [Hnd Hn].
  set (files := merge_sort lex_le (filter (λ n, is_rules_yaml n = true) names)).
  assert (NoDup files ∧ (∀ n, n ∈ files ↔ is_rules_yaml n = true ∧ is_Some (fs !! (rules_d dir ++ [n])))
          ∧ StronglySorted lex_le files) as (Hfnd & Hfiles & Hsort).
  { unfold files. split_and!; [rewrite merge_sort_Permutation; by apply NoDup_filter| |apply (StronglySorted_merge_sort lex_le)].
    intros n. rewrite merge_sort_Permutation, list_elem_of_filter, Hn. done. }
  rewrite se_bind_run. destruct (load_rule_files_spec (rules_d dir) files fs) as (r & -> & Hr).
  assert (∀ files', StronglySorted lex_le files' → NoDup files' →
    (∀ n, n ∈ files' ↔ is_rules_yaml n = true ∧ is_Some (fs !! (rules_d dir ++ [n]))) → files' = files) as Huniq.
  { intros files' Hs' Hnd' Hf'. apply (StronglySorted_unique lex_le); [done..|].
    apply NoDup_Permutation; [done..|]. intros n. by rewrite Hf', Hfiles. }
  destruct r as [cfgs|e]; eexists; (split; [done|]); intros rs.
  - rewrite map_err_Ok. destruct (proj1 (Hr cfgs) eq_refl) as (css & Hfa & ->). split.
    + intros Hc. split_and!; [done..|]. by exists files, css.
    + intros (_ & _ & files' & css' & Hs' & Hnd' & Hf' & Hfa' & Hc). rewrite (Huniq files') in Hfa' by done.
      assert (Ok (concat css) = Ok (E := LoadError) (concat css')) as E by (apply Hr; eauto).
      injection E as ->. exact Hc.
  - split; [done|]. intros (_ & _ & files' & css' & Hs' & Hnd' & Hf' & Hfa' & _).
    rewrite (Huniq files') in Hfa' by done. assert (Err e = Ok (concat css')) by (apply Hr; eauto). done.
Qed.

(** Loading succeeds exactly when the files are in place and each of them loads,
    and only [ensure_config_files] writes. *)
Lemma live_load_spec dir fs fs1 r1 :
  ensure_config_files dir fs = (fs1, r1) →
  ∃ r, live_load dir fs = (fs1, r) ∧ ∀ l, r = Ok l ↔ r1 = Ok tt ∧ loads dir fs1 l.
Proof.
  intros He. unfold live_load. rewrite se_bind_run, He. destruct r1 as [[]|e].
  2: { eexists. split; [done|]. intros l. split; [done|]. by intros [? _]. }
  rewrite se_bind_run. destruct (load_file_spec (daemon_yaml dir) (lit "daemon.yaml") default_config daemon_from_str fs1)
    as (rd & Hd & Hds). unfold load_daemon. rewrite Hd.
  destruct rd as [dm|e].
  2: { eexists. split; [done|]. intros l. split; [done|]. intros (_ & Hl & _). by apply Hds in Hl. }
  rewrite se_bind_run. destruct (load_file_spec (sets_yaml dir) (lit "sets.yaml") (∅ : SetsConfig) sets_from_str fs1)
    as (rs & Hs & Hss). unfold load_sets. rewrite Hs.
  destruct rs as [st|e].
  2: { eexists. split; [done|]. intros l. split; [done|]. intros (_ & _ & Hl & _). by apply Hss in Hl. }
  rewrite se_bind_run. destruct (load_rules_spec dir fs1) as (rr & -> & Hrs). destruct rr as [rules|e].
  - eexists. split; [done|]. intros l. split.
    + intros [= <-]. split; [done|]. split_and!; [by apply Hds|by apply Hss|by apply Hrs].
    + intros (_ & Hl1 & Hl2 & Hl3). apply Hds in Hl1. apply Hss in Hl2. apply Hrs in Hl3.
      destruct l. cbn in *. congruence.
  - eexists. split; [done|]. intros l. split; [done|]. intros (_ & _ & _ & Hl). by apply Hrs in Hl.
Qed.

Lemma load_rule_files_typed `{!YamlTyped} d names fs fs' cfgs :
  load_rule_files d names fs = (fs', Ok cfgs) → Forall config_rule_typed cfgs.
Proof.
  revert fs cfgs. induction names as [|n names IH]; intros fs cfgs; cbn [load_rule_files].
  { by intros [= <- <-]. }
  intros (f1 & text & _ & Hx)%se_bind_Ok. apply se_bind_Ok in Hx as (f2 & cs & Hcs & Hx).
  apply se_bind_Ok in Hx as (f3 & rest & Hr & [= <- <-]). injection Hcs as <- Hcs.
  apply map_err_Ok, yaml_typed in Hcs. apply Forall_app. split; [done|by eapply IH].
Qed.

Lemma compile_typed cfgs rs :
  Forall config_rule_typed cfgs → compile_ruleset cfgs = Ok rs → Forall rule_typed rs.
Proof.
  intros Hc. unfold compile_ruleset. destruct (_ <? _)%nat; [done|].
  intros (rs' & Hall & Hn)%res_bind_Ok. apply ruleset_new_ok in Hn as (-> & _).
  apply compile_all_Ok in Hall. induction Hall as [|c r cs rs Hcr _ IH]; [constructor|].
  apply Forall_cons in Hc as [(Ha & Hl & Ht & Hp) Hcs]. constructor; [|by apply IH]. unfold rule_typed.
  rewrite (ct_action _ _ Hcr), (ct_limit _ _ Hcr), (ct_threshold _ _ Hcr), (ct_ports _ _ Hcr).
  split_and!; [|done..]. unfold action_from_config. destruct (cr_action c) eqn:E; [|done].
  by apply Ha.
Qed.
End order.

(** *** A reload keeps the state well formed *)
Lemma swap_live_ok `{CEL : CelEngine} {E} (s : DaemonState E) l :
  state_ok s → ruleset_ok (live_rules l) → Forall rule_typed (live_rules l) →
  state_ok (swap_live s l).
Proof. intros Hs Hr Ha. constructor; cbn; try done; apply Hs. Qed.

Lemma live_load_typed `{HI : HashIter} `{FF : FsFaults} `{CEL : CelEngine} `{YAML : YamlEngine}
    `{CY : ConfigYaml} `{!YamlTyped} dir fs fs' l :
  live_load dir fs = (fs', Ok l) → ruleset_ok (live_rules l) ∧ Forall rule_typed (live_rules l).
Proof.
  intros Hl. unfold live_load in Hl. apply se_bind_Ok in Hl as (f1 & [] & _ & Hl).
  apply se_bind_Ok in Hl as (f2 & dm & _ & Hl). apply se_bind_Ok in Hl as (f3 & st & _ & Hl).
  apply se_bind_Ok in Hl as (f4 & rs & Hrs & [= <- <-]).
  unfold load_rules in Hrs. destruct (exists_ _ f3); [|injection Hrs as <- <-].
  2: { split; [|constructor]. split; [vm_compute; lia|]. split; [constructor|constructor]. }
  apply se_bind_Ok in Hrs as (f5 & names & _ & Hrs). apply se_bind_Ok in Hrs as (f6 & cfgs & Hf & Hc).
  injection Hc as _ Hc. apply map_err_Ok in Hc.
  apply load_rule_files_typed in Hf. cbn. split; [|by eapply compile_typed].
  unfold compile_ruleset in Hc. destruct (_ <? _)%nat; [done|].
  apply res_bind_Ok in Hc as (rs' & _ & Hn). by apply ruleset_new_ok in Hn as [-> ?].
Qed.

Lemma try_reload_ok `{HI : HashIter} `{FF : FsFaults} `{CEL : CelEngine} `{YAML : YamlEngine}
    `{CY : ConfigYaml} `{!YamlTyped} {E} dir (s : DaemonState E) fs :
  state_ok s → state_ok (try_reload dir s fs).1.
Proof.
  intros Hs. unfold try_reload. destruct (live_load dir fs) as [fs' [l|e]] eqn:Hl; [|done].
  apply live_load_typed in Hl as [Hr Ht]. by apply swap_live_ok.
Qed.

(** *** Concrete parsers and a system without faults, used to evaluate examples *)
#[export] Instance no_faults : FsFaults := λ _ _, None.

#[export] Instance demo_yaml : YamlEngine := {|
  YValue := str;
  yaml_from_str := Ok;
  is_sequence _ := true;
  is_mapping _ := false;
  rules_from_value s :=
    Ok [mkConfigRule s (lit "tcp") None (lit "bytes") (lit "per-second") 10 (CfgThrottle 20) 0 None];
  rule_from_value _ := Err []
|}.

#[export] Instance demo_typed : YamlTyped.
Proof.
  intros text cfgs [= <-]. apply Forall_singleton.
  split_and!; [intros d [= <-]|..]; try (vm_compute; split; discriminate). constructor.
Qed.

#[export] Instance demo_config_yaml : ConfigYaml := {|
  daemon_from_str _ := Ok default_config;
  sets_from_str _ := Ok ∅
|}.

(** ** Properties *)

(** C34 (ensure_config_spec): setting up the configuration directory, when the
    system can tell which files exist, never changes an existing file other
    than the three [.example] files.  When it succeeds, [daemon.yaml] and
    [sets.yaml] exist and hold the default texts if they were missing.  A rules
    directory that can be listed and has a rules file keeps its rules files as
    they are and gets none; any other (one that an operator has emptied, a new
    one, one that cannot be listed) has [00-baseline.yaml], with the text of the
    default rules if it was missing, and otherwise keeps its rules files and gets
    none. *)
Theorem ensure_config_spec `{HI : HashIter} `{FF : FsFaults} dir fs fs' r :
  (∀ p, fault OpStat p = None) → ensure_config_files dir fs = (fs', r) →
  (∀ p n, fs !! p = Some n → p ∉ examples dir → fs' !! p = Some n)
  ∧ (r = Ok tt →
       let file n := rules_d dir ++ [n] in
       let text body := Some (File (Some (with_newline body))) in
       let default_in p body := is_Some (fs' !! p) ∧ (fs !! p = None → fs' !! p = text body) in
       let seen := fault OpList (rules_d dir) = None ∧ ∃ n, is_rules_yaml n = true ∧ is_Some (fs !! file n) in
       default_in (daemon_yaml dir) DEFAULT_DAEMON_YAML
       ∧ default_in (sets_yaml dir) DEFAULT_SETS_YAML
       ∧ fs' !! rules_d dir = Some Dir
       ∧ (seen → ∀ n, is_rules_yaml n = true → fs' !! file n = fs !! file n)
       ∧ (¬ seen → default_in (baseline_yaml dir) DEFAULT_RULES_YAML
            ∧ ∀ n, is_rules_yaml n = true → n ≠ lit "00-baseline.yaml" → fs' !! file n = fs !! file n)).
Proof.
  intros Hstat Hrun. split.
  - pose proof (ensure_keeps Hstat dir fs) as Hk. rewrite Hrun in Hk. exact Hk.
  - intros ->. destruct (ensure_Ok Hstat dir fs fs' Hrun) as (H1 & H2 & H3 & H4 & H5).
    exact (conj H1 (conj H2 (conj H3 (conj H4 H5)))).
Qed.

(** A directory with a configuration and an emptied rules directory. *)
Lemma ensure_config_spec_witness :
  let H := hash_forward in
  let dir := [lit "waf"] in
  let fs : Fs := <[[] := Dir]> (<[dir := Dir]> (<[rules_d dir := Dir]>
                   (<[daemon_yaml dir := File (Some (lit "mode: permissive"))]> ∅))) in
  ∃ fs', ensure_config_files dir fs = (fs', Ok tt)
    ∧ fs' !! daemon_yaml dir = Some (File (Some (lit "mode: permissive")))
    ∧ fs' !! baseline_yaml dir = Some (File (Some (with_newline DEFAULT_RULES_YAML))).
Proof.
  intros H dir fs.
  assert (is_ok (ensure_config_files dir fs).2 = true) as Hok by (vm_compute; reflexivity).
  destruct (ensure_config_files dir fs) as [fs' r] eqn:Hrun. destruct r as [[]|e]; [|discriminate].
  exists fs'. split; [reflexivity|].
  destruct (ensure_config_spec dir fs fs' (Ok tt) (λ _, eq_refl) Hrun) as [Hk Hseed]. split.
  - apply Hk.
    + vm_compute. reflexivity.
    + apply (bool_decide_unpack _). vm_compute. exact I.
  - destruct (Hseed eq_refl) as (_ & _ & _ & _ & Hempty).
    apply Hempty; [|vm_compute; reflexivity]. intros (_ & n & Hn & [x Hx]).
    assert (map_Forall (λ p _, ∀ n, p = rules_d dir ++ [n] → is_rules_yaml n = false) fs) as Hnone.
    { unfold fs. repeat (apply map_Forall_insert_2; [intros m; vm_compute; discriminate|]). apply map_Forall_empty. }
    specialize (Hnone _ _ Hx n eq_refl). rewrite Hn in Hnone. discriminate Hnone.
Defined.

(** C20 (reload_spec): a hot reload puts the configuration files in place
    ([ensure_config_files]) and writes nothing else.  When that succeeds and what
    is then on the disk loads, the live configuration becomes exactly that, but
    for the run mode, which stays the one the daemon was started with: the text
    of [daemon.yaml] and of [sets.yaml], parsed; the rules of every file of the
    rules directory with a rules name (no [.example] files) and of no other, each
    file once, parsed, concatenated in the order of the names, and compiled.  In
    every other case (a file that cannot be read or parsed, rules that do not
    compile, a directory that cannot be listed) the previous configuration stays.
    Nothing else of the state changes, it stays well formed, and the outcome does
    not depend on the order in which the directory is listed.  ([exists_] is
    [Path::exists], for which a failing [stat] is absence: the default, or no
    rules, is then loaded.) *)
Theorem reload_spec `{HI : HashIter} `{FF : FsFaults} `{CEL : CelEngine} `{YAML : YamlEngine}
    `{CY : ConfigYaml} `{!YamlTyped} {E} dir (s : DaemonState E) fs fs' r1 :
  state_ok s → ensure_config_files dir fs = (fs', r1) →
  let s' := (try_reload dir s fs).1 in
  try_reload dir s fs = (s', fs')
  ∧ state_ok s' ∧ s' = swap_live s (live s')
  ∧ (∀ HI' : HashIter, try_reload (HI := HI') dir s fs = (s', fs'))
  ∧ (∀ l, r1 = Ok tt → loads dir fs' l →
       cfg_mode (daemon_cfg s') = st_mode s
       ∧ set_mode (daemon_cfg s') (cfg_mode (live_daemon l)) = live_daemon l
       ∧ state_sets s' = live_sets l ∧ rules s' = live_rules l)
  ∧ ((∀ l, ¬ (r1 = Ok tt ∧ loads dir fs' l)) → s' = s).
Proof.
  intros Hs He s'. pose proof (try_reload_ok dir s fs Hs) as Hok.
  destruct (live_load_spec dir fs fs' r1 He) as (r & Hl & Hr).
  assert (try_reload dir s fs = (s', fs')) as Hrun.
  { unfold s', try_reload. rewrite Hl. by destruct r. }
  split; [exact Hrun|]. split; [exact Hok|]. unfold s', try_reload in *. rewrite Hl. split_and!.
  - by destruct r, s.
  - intros HI'. by rewrite (live_load_order HI' HI), Hl; destruct r.
  - intros l Hr1 Hloads. assert (r = Ok l) as -> by by apply Hr.
    cbn. split_and!; [done| |done..]. by destruct l as [[]].
  - intros Hnone. destruct r as [l|e]; [|done]. destruct (Hnone l). by apply Hr.
Qed.

(** Two rules files and an example; the rules of the example parser carry the text
    of their file. *)
Definition rules_disk : Fs :=
  let d := rules_d [lit "waf"] in
  <[[] := Dir]> (<[[lit "waf"] := Dir]> (<[d := Dir]>
    (<[d ++ [lit "b.yml"] := File (Some (lit "second"))]>
    (<[d ++ [lit "a.yaml"] := File (Some (lit "first"))]>
    {[d ++ [lit "c.yaml.example"] := File (Some (lit "third"))]})))).

Definition rules_loaded `{CEL : CelEngine} : LiveConfig :=
  let rule id := mkConfigRule id (lit "tcp") None (lit "bytes") (lit "per-second") 10 (CfgThrottle 20) 0 None in
  mkLive default_config ∅
    match compile_ruleset [rule (lit "first"); rule (lit "second")] with Ok rs => rs | Err _ => [] end.

Lemma reload_spec_witness :
  let C := yes_engine in let H := hash_forward in
  let s' := (try_reload [lit "waf"] demo_state rules_disk).1 in
  state_ok s' ∧ s' = swap_live demo_state (live s') ∧ r_id <$> rules s' = [lit "first"; lit "second"].
Proof.
  intros C H s'.
  assert (is_ok (ensure_config_files [lit "waf"] rules_disk).2 = true) as Hok by (vm_compute; reflexivity).
  destruct (ensure_config_files [lit "waf"] rules_disk) as [fs' r1] eqn:He. destruct r1 as [[]|]; [|discriminate].
  destruct (reload_spec [lit "waf"] demo_state rules_disk fs' (Ok tt) demo_state_ok He)
    as (_ & H1 & H2 & _ & H3 & _).
  split; [exact H1|]. split; [exact H2|].
  destruct (H3 rules_loaded eq_refl) as (_ & _ & _ & Hrules).
  - apply (f_equal fst) in He. cbn [fst] in He. subst fs'.
    destruct (live_load_spec [lit "waf"] rules_disk _ _ (surjective_pairing _)) as (r & Hl & Hr).
    apply Hr. apply (f_equal snd) in Hl. cbn [snd] in Hl. rewrite <- Hl. vm_compute. reflexivity.
  - unfold s'. rewrite Hrules. vm_compute. reflexivity.
Defined.
