(* ===== verification/System.v ===== *)
(** The daemon as a whole ([crates/microwaf/src/cli/daemon.rs]):
    the threads (sniffer, decision loop, IPC server, configuration watcher) as
    events on the shared state, interleaved in any order. *)

From S2P Require Import Prelude Text Client Rule Window Policy Counters Enforcer Config State Decision Sniffer Json Wire Store Ipc Live.

Section system.
Context `{HI : HashIter} `{FF : FsFaults} `{CEL : CelEngine} `{YAML : YamlEngine} `{CY : ConfigYaml}.
Context {E : Type} `{ENF : Enforcer E} {S : Type} `{MS : ManualPolicyStore S} `{CS : ClientStatsStore S}.

(** ** State and events *)
Record System := mkSystem {
  y_state : DaemonState E;
  y_store : S;
  y_flows : FlowTable;
  y_ws : WsConns;
  y_fs : Fs
}.

Inductive event :=
| EFrame (utc : str → nat → UtcNow) (frame : list Z) (now : Z)
| ETick (now : Z)
| ESnapshot (now_sys : Z)
| EIpc (describe : Json → str) (v : Info) (k : Clocks) (body : Json)
| EReload (dir : path).

(** [None] is a panic. *)
Definition sys_step (y : System) (e : event) : option System :=
  match e with
  | EFrame utc frame now =>
      '(s, ft, ws) ← handle_frame utc frame (y_state y) (y_flows y) (y_ws y) now;
      Some (mkSystem s (y_store y) ft ws (y_fs y))
  | ETick now =>
      s ← tick (y_state y) now;
      Some (mkSystem s (y_store y) (y_flows y) (y_ws y) (y_fs y))
  | ESnapshot now_sys =>
      Some (mkSystem (y_state y) (snapshot_stats now_sys (y_state y) (y_store y)).1
              (y_flows y) (y_ws y) (y_fs y))
  | EIpc describe v k body =>
      '(s, st, _) ← execute describe v k body (y_state y) (y_store y);
      Some (mkSystem s st (y_flows y) (y_ws y) (y_fs y))
  | EReload dir =>
      let '(s, fs) := try_reload dir (y_state y) (y_fs y) in
      Some (mkSystem s (y_store y) (y_flows y) (y_ws y) fs)
  end.

Definition sys_run : list event → System → option System := opt_fold sys_step.

(** What the kernel delivers: bytes, at most a [usize] of them. *)
Definition event_ok (e : event) : Prop :=
  match e with
  | EFrame _ frame _ => bytes_ok frame ∧ Z.of_nat (length frame) ≤ U64_MAX
  | _ => True
  end.

(** The duration that a request asks for. *)
Definition asked_duration (req : Request) : option Z :=
  match rq_params req with
  | Some (PThrottle p) => th_duration_secs p
  | Some (PBlock p) => bl_duration_secs p
  | _ => None
  end.

(** The one reason for a panic: an expiry beyond the clock. *)
Definition clock_overflow (y : System) (e : event) : Prop :=
  match e with
  | ETick now => I64_MAX < (now + tick_cooldown (y_state y)) / NS
  | EIpc _ _ k body =>
      match of_json body with
      | Some req => expiry (clk_now k) (asked_duration req) = None
      | None => False
      end
  | _ => False
  end.
End system.

Arguments System {CEL} E S.

#[export] Instance clock_overflow_dec `{CEL : CelEngine} {E S} (y : System E S) e :
  Decision (clock_overflow y e).
Proof. destruct e; cbn; try apply _. destruct (of_json _); apply _. Defined.

(** ** Lemmas *)

(** *** One event *)
Section steps.
Context `{HI : HashIter} `{FF : FsFaults} `{CEL : CelEngine} `{YAML : YamlEngine} `{CY : ConfigYaml}.
Context `{!YamlTyped} {E : Type} `{EL : EnforcerLaws E} {S : Type} `{SL : StatsLaws S}.
Implicit Types s : DaemonState E.

Definition stores (st : S) : Prop := ∃ m, store_rel st m.

Definition sys_ok (y : System E S) : Prop :=
  state_ok (y_state y) ∧ flows_ok (y_flows y) ∧ stores (y_store y).

Lemma op_rel (m m0 : gmap ClientId StoredManualPolicy) (st : S) o (r : result () str) :
  store_rel st (op_apply m0 o) ∨ (store_rel st m0 ∧ r ≠ Ok tt) → stores st.
Proof. intros [Hx|[Hx _]]; by eexists. Qed.

Lemma changed_stores k s m c new (x : DaemonState E * S * result () str) :
  manual_changed k s m c new x → stores x.1.2.
Proof.
  destruct x as [[s' st'] r]. intros (_ & _ & _ & m0 & _ & Hx). by eapply op_rel.
Qed.

Lemma clear_stores k s (st : S) r f keep :
  stores st → state_ok s → (∀ mp t, m_throttle (f mp) = Some t → m_throttle mp = Some t) →
  stores (clear_manual k s st r f keep).1.2.
Proof.
  intros [m Hm] Hs Hf. destruct (parse_ref r) as [c|e] eqn:Hc.
  - destruct (from_option manual None (policies s !! c)) as [mp|] eqn:Hmp.
    + eapply changed_stores, (clear_changed k s st m r c mp f keep); try done. apply Hs.
    + rewrite (clear_nothing k s st r c f keep Hc Hmp). by exists m.
  - unfold clear_manual. rewrite Hc. by exists m.
Qed.

Lemma replied_stores kd (x : DaemonState E * S * result () str) s' st' resp :
  replied kd x = (s', st', resp) → x.1.2 = st'.
Proof. destruct x as [[s1 st1] r]. by intros [= _ -> _]. Qed.

Lemma dispatch_stores v k req s (st : S) s' st' resp :
  stores st → state_ok s → request_ok req → dispatch v k req s st = Some (s', st', resp) → stores st'.
Proof.
  intros Hst Hs Hr. pose proof Hst as [m Hm]. destruct req as [kd ps]. unfold dispatch.
  cbn [rq_kind rq_params].
  destruct kd; try (by intros [= _ <- _]); destruct ps as [[p|p|p|p]|]; try (by intros [= _ <- _]).
  - intros (x & Hx & Hrep)%fmap_Some. symmetry in Hrep. apply replied_stores in Hrep as <-.
    destruct (parse_ref (th_client p)) as [c|e] eqn:Hc.
    + destruct (expiry (clk_now k) (th_duration_secs p)) as [u|] eqn:Hu.
      * destruct (throttle_changed k s st m p c u Hm (ok_policies _ Hs) (Hr _ eq_refl) Hc Hu)
          as (x' & Hx' & Hch). rewrite Hx' in Hx. injection Hx as <-. by eapply changed_stores.
      * unfold throttle in Hx. by rewrite Hc, Hu in Hx.
    + unfold throttle in Hx. rewrite Hc in Hx. by injection Hx as <-.
  - intros [= Hrep]. apply replied_stores in Hrep as <-. by apply clear_stores.
  - intros (x & Hx & Hrep)%fmap_Some. symmetry in Hrep. apply replied_stores in Hrep as <-.
    destruct (parse_ref (bl_client p)) as [c|e] eqn:Hc.
    + destruct (expiry (clk_now k) (bl_duration_secs p)) as [u|] eqn:Hu.
      * destruct (block_changed k s st m p c u Hm (ok_policies _ Hs) Hc Hu)
          as (x' & Hx' & Hch). rewrite Hx' in Hx. injection Hx as <-. by eapply changed_stores.
      * unfold block in Hx. by rewrite Hc, Hu in Hx.
    + unfold block in Hx. rewrite Hc in Hx. by injection Hx as <-.
  - intros [= Hrep]. apply replied_stores in Hrep as <-. by apply clear_stores.
Qed.

(** A command panics only on its expiry. *)
Lemma dispatch_total v k req s (st : S) :
  expiry (clk_now k) (asked_duration req) ≠ None → dispatch v k req s st ≠ None.
Proof.
  destruct req as [kd ps]. unfold dispatch, asked_duration. cbn [rq_kind rq_params]. intros Hu.
  destruct kd; try done; destruct ps as [[p|p|p|p]|]; try done.
  - unfold throttle. destruct (parse_ref _); [|done]. by destruct (expiry _ _).
  - unfold block. destruct (parse_ref _); [|done]. by destruct (expiry _ _).
Qed.

Lemma sys_step_ok (y y' : System E S) e :
  sys_ok y → event_ok e → sys_step y e = Some y' → sys_ok y'.
Proof.
  intros (Hs & Hf & Hst) He. destruct e as [utc frame now|now|now|describe v k body|dir]; cbn.
  - destruct He as [Hb Hl].
    destruct (handle_frame_run utc frame (y_state y) (y_flows y) (y_ws y) now Hb Hl Hs Hf)
      as (s' & ft' & ws' & calls & -> & Hs' & Hf' & _). by intros [= <-].
  - intros (s' & Ht & [= <-])%bind_Some. by destruct (tick_kept _ _ _ Hs Ht) as (s1 & _ & Hok & _).
  - intros [= <-]. split_and!; [done..|]. cbn. unfold snapshot_stats.
    destruct (is_empty _); [done|]. destruct (put_batch _ _) as [st' r] eqn:Hp. cbn.
    destruct Hst as [m Hm]. destruct (put_batch_spec _ _ _ _ _ Hm Hp) as (m' & _ & Hm'). by exists m'.
  - unfold execute. destruct (of_json body) as [req|] eqn:Hreq; [|by intros [= <-]].
    apply decoded_request_ok in Hreq.
    destruct (dispatch v k req (y_state y) (y_store y)) as [[[s' st'] resp]|] eqn:Hd; [|done].
    intros [= <-]. split_and!; [by eapply dispatch_state_ok|done|by eapply dispatch_stores].
  - pose proof (try_reload_ok dir (y_state y) (y_fs y) Hs) as Hok.
    destruct (try_reload dir (y_state y) (y_fs y)) as [s' fs']. by intros [= <-].
Qed.

Lemma sys_step_total (y : System E S) e :
  sys_ok y → event_ok e → ¬ clock_overflow y e → is_Some (sys_step y e).
Proof.
  intros (Hs & Hf & Hst) He Hno. destruct e as [utc frame now|now|now|describe v k body|dir]; cbn in *.
  - destruct He as [Hb Hl].
    destruct (handle_frame_run utc frame (y_state y) (y_flows y) (y_ws y) now Hb Hl Hs Hf)
      as (s' & ft' & ws' & calls & -> & _). by eexists.
  - destruct (tick_run (y_state y) now Hs ltac:(lia)) as (s1 & -> & _). by eexists.
  - by eexists.
  - unfold execute. destruct (of_json body) as [req|]; [|by eexists].
    pose proof (dispatch_total v k req (y_state y) (y_store y) Hno) as Htot.
    by destruct (dispatch v k req (y_state y) (y_store y)) as [[[s' st'] resp]|]; [eexists|].
  - destruct (try_reload dir (y_state y) (y_fs y)) as [s' fs']. by eexists.
Qed.
End steps.

(** *** A manual policy holds *)
Section holds.
Context `{HI : HashIter} `{FF : FsFaults} `{CEL : CelEngine} `{YAML : YamlEngine} `{CY : ConfigYaml}.
Context {E : Type} `{ENF : Enforcer E} {S : Type} `{MS : ManualPolicyStore S} `{CS : ClientStatsStore S}.
Implicit Types s : DaemonState E.

Definition manual_of s (c : ClientId) : option ManualPolicy := policies s !! c ≫= manual.

(** The client that the parameters of a request name. *)
Definition named (req : Request) : option ClientRef :=
  match rq_params req with
  | Some (PThrottle p) => Some (th_client p)
  | Some (PBlock p) => Some (bl_client p)
  | Some (PClient p) => Some (cp_client p)
  | _ => None
  end.

(** An event that is not a command for [c], and not after the expiry [m] has. *)
Definition spares (c : ClientId) (m : ManualPolicy) (e : event) : Prop :=
  match e with
  | ETick now => manual_is_expired m now = false
  | EIpc _ _ _ body =>
      ∀ req r, of_json body = Some req → named req = Some r → parse_ref r ≠ Ok c
  | _ => True
  end.

Lemma set_manual_other s c c' m : c' ≠ c → manual_of (set_manual s c m) c' = manual_of s c'.
Proof. intros Hne. unfold manual_of, set_manual. cbn. by rewrite lookup_insert_ne. Qed.

Lemma set_manual_same s c m : manual_of (set_manual s c m) c = m.
Proof. unfold manual_of, set_manual. cbn. by rewrite lookup_insert_eq. Qed.

Lemma update_manual_other k s (st : S) c c' u f :
  c' ≠ c → manual_of (update_manual k s st c u f).1.1 c' = manual_of s c'.
Proof.
  intros Hne. unfold update_manual. destruct (persist k st c _). cbn. by apply set_manual_other.
Qed.

Lemma clear_manual_other k s (st : S) r f keep c' :
  parse_ref r ≠ Ok c' → manual_of (clear_manual k s st r f keep).1.1 c' = manual_of s c'.
Proof.
  intros Hne. unfold clear_manual. destruct (parse_ref r) as [c|e] eqn:Hc; [|done].
  destruct (policies s !! c) as [[[m|] a]|]; try done.
  destruct (persist k st c _). cbn. apply set_manual_other. congruence.
Qed.

Lemma replied_state kd (x : DaemonState E * S * result () str) s' st' resp :
  replied kd x = (s', st', resp) → x.1.1 = s'.
Proof. destruct x as [[s1 st1] r]. by intros [= -> _ _]. Qed.

Lemma dispatch_other v k req s (st : S) s' st' resp c :
  (∀ r, named req = Some r → parse_ref r ≠ Ok c) →
  dispatch v k req s st = Some (s', st', resp) → manual_of s' c = manual_of s c.
Proof.
  intros Hn. destruct req as [kd ps]. unfold dispatch, named in *. cbn [rq_kind rq_params] in *.
  destruct kd; try (by intros [= <- _ _]); destruct ps as [[p|p|p|p]|]; try (by intros [= <- _ _]);
    specialize (Hn _ eq_refl).
  - intros (x & Hx & Hrep)%fmap_Some. symmetry in Hrep. apply replied_state in Hrep as <-.
    unfold throttle in Hx. destruct (parse_ref _) as [c'|e]; [|by injection Hx as <-].
    apply bind_Some in Hx as (u & _ & [= <-]). apply update_manual_other. congruence.
  - intros [= Hrep]. apply replied_state in Hrep as <-. by apply clear_manual_other.
  - intros (x & Hx & Hrep)%fmap_Some. symmetry in Hrep. apply replied_state in Hrep as <-.
    unfold block in Hx. destruct (parse_ref _) as [c'|e]; [|by injection Hx as <-].
    apply bind_Some in Hx as (u & _ & [= <-]). apply update_manual_other. congruence.
  - intros [= Hrep]. apply replied_state in Hrep as <-. by apply clear_manual_other.
Qed.

Lemma update_policy_manual p vs now cd p' :
  update_policy p vs now cd = Some p' → manual p' = live_manual p now.
Proof. unfold update_policy. intros (b & _ & [= <-])%bind_Some. done. Qed.

Lemma live_manual_live p m now :
  manual p = Some m → manual_is_expired m now = false → live_manual p now = Some m.
Proof. intros Hp Hm. unfold live_manual. by rewrite Hp, Hm. Qed.
End holds.

Section runs.
Context `{HI : HashIter} `{FF : FsFaults} `{CEL : CelEngine} `{YAML : YamlEngine} `{CY : ConfigYaml}.
Context `{!YamlTyped} {E : Type} `{EL : EnforcerLaws E} {S : Type} `{SL : StatsLaws S}.
Implicit Types (s : DaemonState E) (y : System E S).

(** A tick keeps a manual policy that has not expired and enforces it. *)
Lemma tick_holds s s' now c m :
  state_ok s → manual_of s c = Some m → manual_is_expired m now = false → tick s now = Some s' →
  manual_of s' c = Some m
  ∧ ∀ e, enforcer s' = Some e → supports c = true →
      eff_le (manual_wants (Some m)) (in_force e c) = true.
Proof.
  intros Hs Hm Hx Ht. apply bind_Some in Hm as (p & Hp & Hmp).
  assert (c ∈ tick_clients (by_rule (counters s)) (policies s)) as Hc.
  { apply elem_of_tick_clients. right. by eexists. }
  destruct (tick_of_client s s' now c Hs Hc Ht) as (win & p' & Hct & _ & Hp' & _ & _ & _ & Hok & Hin).
  unfold client_tick in Hct. apply bind_Some in Hct as (w & _ & (q & Hq & [= -> ->])%bind_Some).
  apply update_policy_manual in Hq as Hm'.
  rewrite Hp in Hm'. cbn [default from_option id] in Hm'. rewrite (live_manual_live _ _ _ Hmp Hx) in Hm'.
  split; [unfold manual_of; by rewrite Hp'|].
  intros e He Hsup. rewrite (Hin e He Hsup), merge_is_join.
  - rewrite (live_manual_live _ _ _ Hm' Hx). apply eff_join_ub_l.
  - by eapply (ok_policies _ Hok).
Qed.

Lemma step_holds y y' e c m :
  sys_ok y → event_ok e → spares c m e → manual_of (y_state y) c = Some m →
  sys_step y e = Some y' → manual_of (y_state y') c = Some m.
Proof.
  intros (Hs & Hf & _) He Hsp Hm. destruct e as [utc frame now|now|now|describe v k body|dir]; cbn.
  - destruct He as [Hb Hl].
    destruct (handle_frame_run utc frame (y_state y) (y_flows y) (y_ws y) now Hb Hl Hs Hf)
      as (s' & ft' & ws' & calls & -> & _ & _ & _ & -> & _). by intros [= <-].
  - intros (s' & Ht & [= <-])%bind_Some. by eapply tick_holds.
  - by intros [= <-].
  - unfold execute. destruct (of_json body) as [req|] eqn:Hreq; [|by intros [= <-]].
    destruct (dispatch v k req (y_state y) (y_store y)) as [[[s' st'] resp]|] eqn:Hd; [|done].
    intros [= <-]. cbn. rewrite <- Hm. eapply dispatch_other; [|exact Hd]. intros r. by apply Hsp.
  - unfold try_reload. destruct (live_load dir (y_fs y)) as [fs' [l|e]]; by intros [= <-].
Qed.

Lemma run_ok y y' evs :
  sys_ok y → Forall event_ok evs → sys_run evs y = Some y' → sys_ok y'.
Proof.
  intros Hy Hev. apply (opt_fold_inv sys_ok); [done|]. intros e y1 y2 He Hy1.
  apply sys_step_ok; [done|]. rewrite Forall_forall in Hev. by apply Hev.
Qed.

Lemma run_holds y y' evs c m :
  sys_ok y → Forall event_ok evs → Forall (spares c m) evs → manual_of (y_state y) c = Some m →
  sys_run evs y = Some y' → manual_of (y_state y') c = Some m.
Proof.
  intros Hy Hev Hsp Hm Hrun. rewrite Forall_forall in Hev, Hsp.
  apply (opt_fold_inv (λ y, sys_ok y ∧ manual_of (y_state y) c = Some m)) in Hrun; [by apply Hrun|done|].
  intros e y1 y2 He [Hy1 Hm1] Hstep. split; [by eapply sys_step_ok; eauto|by eapply step_holds; eauto].
Qed.

(** Either all events run, or the clock stops them. *)
Lemma run_total y evs :
  sys_ok y → Forall event_ok evs →
  is_Some (sys_run evs y)
  ∨ ∃ pre e post y', evs = pre ++ e :: post ∧ sys_run pre y = Some y' ∧ clock_overflow y' e.
Proof.
  intros Hy Hev. revert y Hy. induction Hev as [|e evs He Hev IH]; intros y Hy; [left; by eexists|].
  destruct (sys_step y e) as [y1|] eqn:Hs.
  - destruct (IH y1) as [[y' Hy']|(pre & e' & post & y' & -> & Hrun & Ho)];
      [by eapply sys_step_ok|left|right].
    + exists y'. unfold sys_run in *. cbn. by rewrite Hs.
    + exists (e :: pre), e', post, y'. split_and!; [done| |done]. unfold sys_run in *. cbn. by rewrite Hs.
  - right. exists [], e, evs, y. split_and!; [done..|].
    destruct (decide (clock_overflow y e)) as [Ho|Hno]; [done|].
    destruct (sys_step_total y e Hy He Hno) as [y' Hy']. by rewrite Hs in Hy'.
Qed.
End runs.

(** *** The throttle command *)
Lemma throttle_step `{HI : HashIter} `{FF : FsFaults} `{CEL : CelEngine} `{YAML : YamlEngine}
    `{CY : ConfigYaml} {E} `{Enforcer E} {S} `{ML : ManualStoreLaws S} `{ClientStatsStore S}
    (y y' : System E S) describe v k p c until :
  sys_ok y → throttle_params_ok p → parse_ref (th_client p) = Ok c →
  expiry (clk_now k) (th_duration_secs p) = Some until →
  sys_step y (EIpc describe v k (to_json (with_params KThrottle (PThrottle p)))) = Some y' →
  manual_of (y_state y') c
  = Some (mkManual (Some (default 50 (th_rate p))) (m_blocked (old_manual (y_state y) c)) until).
Proof.
  intros (Hs & _ & [m Hm]) Hp Hc Hu. cbn [sys_step].
  rewrite dispatch_read by (intros q [= <-]; done). unfold dispatch.
  cbn [rq_kind rq_params with_params fmap option_fmap option_map read_as].
  destruct (throttle_changed k (y_state y) (y_store y) m p c until Hm (ok_policies _ Hs) Hp Hc Hu)
    as ([[s1 st1] r] & -> & _ & _ & Hch & _).
  cbn. intros [= <-]. cbn. unfold manual_of. by rewrite Hch.
Qed.

(** ** Properties *)

(** C1 (system_safe): take any interleaving of the daemon's work: frames of any
    bytes, decision ticks, statistics snapshots, IPC requests with any JSON
    body, and configuration reloads.  Either all of it runs without a panic and
    leaves a well-formed state, flow table and store, or it runs up to a
    well-formed state in which the next event needs an expiry beyond the clock. *)
Theorem system_safe `{HI : HashIter} `{FF : FsFaults} `{CEL : CelEngine} `{YAML : YamlEngine}
    `{CY : ConfigYaml} `{!YamlTyped} {E} `{EL : EnforcerLaws E} {S} `{SL : StatsLaws S}
    (y : System E S) evs :
  sys_ok y → Forall event_ok evs →
  (∃ y', sys_run evs y = Some y' ∧ sys_ok y')
  ∨ (∃ pre e post y', evs = pre ++ e :: post ∧ sys_run pre y = Some y' ∧ sys_ok y'
       ∧ clock_overflow y' e).
Proof.
  intros Hy Hev. destruct (run_total y evs Hy Hev) as [[y' Hrun]|(pre & e & post & y' & -> & Hrun & Ho)].
  - left. exists y'. split; [done|by eapply run_ok].
  - right. exists pre, e, post, y'. apply Forall_app in Hev as [Hpre _].
    split_and!; [done..|by eapply run_ok|done].
Qed.

(** The daemon of [State], on the memory store. *)
Definition demo_system : @System yes_engine PermissiveEnforcer MemoryStore :=
  @mkSystem yes_engine _ _ demo_state memory0 flow_table_new ∅ ∅.

Definition demo_throttle : Json :=
  to_json (with_params KThrottle (PThrottle (mkThrottleParams (client_to_ref demo_client) (Some 30) None))).

Definition demo_events : list event :=
  [EIpc (λ _, []) (version_info None None) (mkClocks 0 0 0) demo_throttle;
   EReload [lit "waf"]; EFrame (λ _ _, mkUtc 0 0 0) [0; 1; 2] 5; ESnapshot 6].

#[local] Existing Instance hash_forward.
#[local] Existing Instance yes_engine.

Lemma demo_system_ok : sys_ok demo_system.
Proof.
  split; [exact demo_state_ok|]. split; [exact flow_table_new_ok|]. exists ∅. exact memory0_rel.
Qed.

Lemma demo_events_ok : Forall event_ok demo_events.
Proof. repeat (apply Forall_cons; split); try done. cbn. split; [|done]. apply (bool_decide_unpack _). vm_compute. exact I. Qed.

Lemma system_safe_witness :
  (∃ y', sys_run demo_events demo_system = Some y' ∧ sys_ok y')
  ∨ (∃ pre e post y', demo_events = pre ++ e :: post ∧ sys_run pre demo_system = Some y'
       ∧ sys_ok y' ∧ clock_overflow y' e).
Proof. exact (system_safe demo_system demo_events demo_system_ok demo_events_ok). Defined.

(** C7 (throttle_stays_in_force): a [throttle] request that the client library
    encodes is decoded as such, and whatever happens afterwards (frames, ticks,
    reloads, snapshots, other commands), as long as no command names the same
    client and the throttle has not expired, every decision tick leaves at
    least the requested drop rate in force for the client, if the enforcer
    supports it: the rules and the automatic policies can only strengthen it. *)
Theorem throttle_stays_in_force `{HI : HashIter} `{FF : FsFaults} `{CEL : CelEngine}
    `{YAML : YamlEngine} `{CY : ConfigYaml} `{!YamlTyped} {E} `{EL : EnforcerLaws E} {S}
    `{SL : StatsLaws S} (y y' : System E S) describe v k p c until evs now :
  let rate := default 50 (th_rate p) in
  let m := mkManual (Some rate) (m_blocked (old_manual (y_state y) c)) until in
  sys_ok y → throttle_params_ok p → parse_ref (th_client p) = Ok c →
  expiry (clk_now k) (th_duration_secs p) = Some until →
  Forall event_ok evs → Forall (spares c m) evs → manual_is_expired m now = false →
  sys_run (EIpc describe v k (to_json (with_params KThrottle (PThrottle p))) :: evs ++ [ETick now]) y
    = Some y' →
  manual_of (y_state y') c = Some m
  ∧ ∀ e, enforcer (y_state y') = Some e → supports c = true →
      eff_le (EffThrottle rate) (in_force e c) = true.
Proof.
  intros rate m Hy Hp Hc Hu Hev Hsp Hx Hrun. unfold sys_run in Hrun. cbn [opt_fold] in Hrun.
  apply bind_Some in Hrun as (y1 & Hs1 & Hrun). rewrite opt_fold_app in Hrun.
  apply bind_Some in Hrun as (y2 & Hs2 & Hrun). cbn [opt_fold] in Hrun.
  apply bind_Some in Hrun as (y3 & Hs3 & [= <-]).
  assert (sys_ok y1) as Hy1 by (by refine (sys_step_ok _ _ _ Hy _ Hs1)).
  pose proof (throttle_step y y1 describe v k p c until Hy Hp Hc Hu Hs1) as Hm1.
  pose proof (run_holds y1 y2 evs c m Hy1 Hev Hsp Hm1 Hs2) as Hm2.
  pose proof (run_ok y1 y2 evs Hy1 Hev Hs2) as Hy2.
  cbn in Hs3. apply bind_Some in Hs3 as (s3 & Ht & [= <-]). cbn [y_state].
  destruct (tick_holds _ _ _ _ _ (proj1 Hy2) Hm2 Hx Ht) as [Hm3 Hf]. split; [exact Hm3|].
  intros e He Hsup. eapply eff_le_trans; [|by apply Hf]. unfold m, rate. cbn.
  destruct (m_blocked _); [done|apply Z.leb_refl].
Qed.

Lemma throttle_stays_in_force_witness :
  let p := mkThrottleParams (client_to_ref demo_client) (Some 30) None in
  let m := mkManual (Some 30) false None in
  ∃ y', sys_run (demo_events ++ [ETick (5 * NS)]) demo_system = Some y'
    ∧ manual_of (y_state y') demo_client = Some m
    ∧ ∀ e, enforcer (y_state y') = Some e → eff_le (EffThrottle 30) (in_force e demo_client) = true.
Proof.
  intros p m.
  destruct (sys_run (demo_events ++ [ETick (5 * NS)]) demo_system) as [y'|] eqn:Hrun.
  2: { exfalso. assert (from_option (λ _, true) false
         (sys_run (demo_events ++ [ETick (5 * NS)]) demo_system) = true) as Ht
         by (vm_compute; reflexivity). by rewrite Hrun in Ht. }
  exists y'. split; [reflexivity|].
  destruct (throttle_stays_in_force demo_system y' (λ _, []) (version_info None None)
    (mkClocks 0 0 0) p demo_client None
    [EReload [lit "waf"]; EFrame (λ _ _, mkUtc 0 0 0) [0; 1; 2] 5; ESnapshot 6] (5 * NS))
    as [Hm Hf].
  - exact demo_system_ok.
  - split; [|by intros n]. intros n [= <-]. split; vm_compute; discriminate.
  - vm_compute. reflexivity.
  - reflexivity.
  - exact (Forall_inv_tail demo_events_ok).
  - by repeat (apply Forall_cons; split).
  - reflexivity.
  - exact Hrun.
  - split; [exact Hm|]. intros e He. exact (Hf e He eq_refl).
Defined.
