(* ===== verification/Daemon.v ===== *)
(** The start of the daemon ([crates/microwaf/src/cli/daemon.rs]): options and
    their precedence, the directories of [config.rs], the interface checks of
    [iface.rs], the choice of store and enforcer, and the decision loop
    ([decision.rs]) and the configuration watcher ([config.rs]) as runs of the
    system. *)

From S2P Require Import Prelude Text Client Rule Window Policy Counters Enforcer Config State Decision Sniffer Ebpf Json Wire Store Ipc Sdk Top Cli Live System.

(** ** Network interfaces

    The C library's interface table and the listing of [/sys/class/net], with
    the error texts of the system.  An entry of [if_nameindex] is its index and
    its name; index 0 or no name ends the array. *)
Class NetIfaces := {
  if_nametoindex : str → result Z str;
  if_nameindex : result (list (Z * option str)) str;
  sysfs_net : result (list str) str
}.

Definition ANY : str := lit "any".
Definition is_any (name : str) : bool := eq_ignore_ascii_case name ANY.

Section ifaces.
Context `{NI : NetIfaces}.

Definition no_such_iface (name err : str) : str :=
  lit "interface `" ++ name ++ lit "` does not exist (" ++ err ++ lit ")".

(** A name with a NUL byte is no C string. *)
Definition ifindex (name : str) : result Z str :=
  if is_any name then Ok 0
  else if bool_decide (0 ∈ name) then Err (lit "interface name")
  else match if_nametoindex name with
       | Ok idx => Ok idx
       | Err err => Err (no_such_iface name err)
       end.

Definition ensure_exists (name : str) : result () str :=
  match name with
  | [] => Err (lit "interface name is empty (use a NIC name or `any`)")
  | _ => (let? _ := ifindex name in Ok tt)%mwaf
  end.

Fixpoint attachable (entries : list (Z * option str)) : list str :=
  match entries with
  | (idx, Some name) :: entries' =>
      if idx =? 0 then []
      else if negb (bool_decide (name = lit "lo")) && negb (is_any name)
      then name :: attachable entries' else attachable entries'
  | _ => []
  end.

Definition list_via_if_nameindex : result (list str) str :=
  (let? entries := if_nameindex in Ok (attachable entries))%mwaf.

Definition list_via_sysfs : result (list str) str :=
  (let? names := sysfs_net in
   Ok (merge_sort lex_le (filter (λ n, n ≠ lit "lo") names)))%mwaf.

Definition list_attachable : result (list str) str :=
  match list_via_if_nameindex with
  | Ok l => Ok l
  | Err _ => list_via_sysfs
  end.
End ifaces.

(** ** The XDP loader: crate [aya] loads the object and attaches it to each
    interface, or fails; without the [ebpf] feature there is no loader. *)
Class XdpLoader := attach_xdp : option (list str → result () str).

Definition load_and_attach `{NI : NetIfaces} `{XL : XdpLoader} (interface : str) : result BpfHandle str :=
  match attach_xdp with
  | Some attach =>
      (let? ifaces :=
         if is_any interface then
           let? ifaces := list_attachable in
           if bool_decide (ifaces = [])
           then Err (lit "interface=any but no attachable NICs found") else Ok ifaces
         else Ok [interface] in
       let? _ := attach ifaces in
       Ok (mkHandle ∅))%mwaf
  | None => Ok (mkHandle ∅)
  end.

(** ** [Arc<dyn Enforcer>] *)
Inductive DynEnforcer := DBpf (e : BpfEnforcer) | DPermissive (e : PermissiveEnforcer).

#[export] Instance dyn_enforcer : Enforcer DynEnforcer := {
  apply e c a := match e with
                 | DBpf b => DBpf (apply b c a)
                 | DPermissive p => DPermissive (apply p c a)
                 end;
  clear e c := match e with
               | DBpf b => DBpf (clear b c)
               | DPermissive p => DPermissive (clear p c)
               end
}.

Definition choose_enforcer `{NI : NetIfaces} `{XL : XdpLoader} (mode : Mode) (interface : str) : DynEnforcer :=
  match mode with
  | Enforce =>
      match load_and_attach interface with
      | Ok bpf => DBpf (mkBpf bpf)
      | Err _ => DPermissive (mkPermissive (mkLog ∅))
      end
  | Permissive => DPermissive (mkPermissive (mkLog ∅))
  end.

(** ** Options *)
Definition either {A} (a b : option A) : option A := match a with Some _ => a | None => b end.

(** The flags of [daemon] come before the global ones. *)
Definition daemon_flags (cli : Cli) : option str * option str * option str * option Mode :=
  match cli_command cli with
  | Some (CmdDaemon a) =>
      (either (da_interface a) (cli_interface cli), either (da_redis_url a) (cli_redis_url cli),
       either (da_config_dir a) (cli_config_dir cli), either (da_mode a) (cli_mode cli))
  | _ => (cli_interface cli, cli_redis_url cli, cli_config_dir cli, cli_mode cli)
  end.

(** [PathBuf::join] with a relative path. *)
Definition path_join (a b : str) : str :=
  match last a with
  | None => b
  | Some c => if c =? 47 then a ++ b else a ++ [47] ++ b
  end.

Definition resolve_config_dir (env : str → option str) (override_path : option str) : str :=
  match override_path with
  | Some p => p
  | None =>
      match env (lit "MICROWAF_CONFIG_DIR") with
      | Some p => p
      | None =>
          let data := default (lit "/etc") (either (env (lit "BIGFRED_DATA_DIR")) (env (lit "DATA_DIR"))) in
          if bool_decide (data = lit "/etc") then lit "/etc/microwaf"
          else path_join data (lit "etc/microwaf")
      end
  end.

(** The components of a path text; a leading slash is the root component. *)
Definition components (p : str) : path :=
  (if starts_with [47] p then [[47]] else [])
  ++ filter (λ c, c ≠ [] ∧ c ≠ [46]) (split_char 47 p).

Definition default_redis_url : str := lit "redis://127.0.0.1:6379/0".

(** ** Start-up *)
Inductive StartError :=
| StartLoad (e : LoadError)
| StartIface (interface e : str)
| StartBind (e : str)
| StartStore (e : StoreError).

Section start.
Context `{HI : HashIter} `{FF : FsFaults} `{CEL : CelEngine} `{YAML : YamlEngine} `{CY : ConfigYaml}.
Context `{NI : NetIfaces} `{XL : XdpLoader} `{RD : Redis} `{JT : JsonText}.

(** [run] up to the start of the threads: [env] and [data_socket] are the
    environment, [bind] the claim of the socket, [now] and [sys] the clocks at
    hydration.  [None] is a panic. *)
Definition daemon_start (env : str → option str) (data_socket : str) (bind : str → result () str)
    (now : Z) (sys : ClientId → Z) (cli : Cli) (fs : Fs) :
    option (Fs * result (System DynEnforcer StoreBackend) StartError) :=
  let '(iface_cli, redis_cli, config_cli, mode_cli) := daemon_flags cli in
  let config_dir := resolve_config_dir env config_cli in
  match live_load (components config_dir) fs with
  | (fs, Err e) => Some (fs, Err (StartLoad e))
  | (fs, Ok live) =>
      let mode := default (cfg_mode (live_daemon live)) mode_cli in
      let interface := default ANY (either iface_cli (cfg_interface (live_daemon live))) in
      match ensure_exists interface with
      | Err e => Some (fs, Err (StartIface interface e))
      | Ok _ =>
          let redis_url := default default_redis_url redis_cli in
          match bind (resolve_socket env data_socket (cli_socket cli)) with
          | Err e => Some (fs, Err (StartBind e))
          | Ok _ =>
              r ← open_store redis_url now sys (state_new mode interface live);
              match r with
              | Err e => Some (fs, Err (StartStore e))
              | Ok (state, store) =>
                  let state := set_enforcer state (choose_enforcer mode interface) in
                  Some (fs, Ok (mkSystem state store flow_table_new ∅ fs))
              end
          end
      end
  end.
End start.

(** ** The decision loop

    One iteration of [decision::run]: the tick, then, when the snapshot interval
    has passed, a snapshot of the statistics.  The readings are the clocks at the
    tick, at the check of the interval, in the snapshot (wall clock) and after
    it; the result carries the time of the last snapshot. *)
Section decision_loop.
Context `{HI : HashIter} `{FF : FsFaults} `{CEL : CelEngine} `{YAML : YamlEngine} `{CY : ConfigYaml}.
Context {E : Type} `{ENF : Enforcer E} {S : Type} `{MS : ManualPolicyStore S} `{CS : ClientStatsStore S}.

Record Reading := mkReading { rd_now : Z; rd_later : Z; rd_sys : Z; rd_done : Z }.

Definition decision_iter (y : System E S * Z) (r : Reading) : option (System E S * Z) :=
  let '(y, last_snapshot) := y in
  s ← tick (y_state y) (rd_now r);
  let snapshot_secs := Z.max (stats_snapshot_secs (daemon_cfg s)) 1 in
  let y := mkSystem s (y_store y) (y_flows y) (y_ws y) (y_fs y) in
  if from_secs snapshot_secs <=? sat_since (rd_later r) last_snapshot
  then Some (mkSystem s (snapshot_stats (rd_sys r) s (y_store y)).1 (y_flows y) (y_ws y) (y_fs y),
             rd_done r)
  else Some (y, last_snapshot).

Definition decision_run (rs : list Reading) (y : System E S * Z) : option (System E S * Z) :=
  opt_fold decision_iter rs y.
End decision_loop.

(** ** The configuration watcher

    One round of [watch_loop]: what the channel of the watcher answers and
    whether a SIGHUP has come since the last round; [true] in the result ends
    the thread. *)
Section watch.
Context `{HI : HashIter} `{FF : FsFaults} `{CEL : CelEngine} `{YAML : YamlEngine} `{CY : ConfigYaml}.
Context {E S : Type}.

Inductive Received := Changed | RecvTimeout | Disconnected.

Definition watch_iter (dir : path) (y : System E S) (r : Received * bool) : System E S * bool :=
  match r.1 with
  | Disconnected => (y, true)
  | _ =>
      let got := match r.1 with Changed => true | _ => false end in
      let got := if r.2 then true else got in
      if got then
        let '(s, fs) := try_reload dir (y_state y) (y_fs y) in
        (mkSystem s (y_store y) (y_flows y) (y_ws y) fs, false)
      else (y, false)
  end.

Fixpoint watch_loop (dir : path) (rs : list (Received * bool)) (y : System E S) : System E S * bool :=
  match rs with
  | [] => (y, false)
  | r :: rs' =>
      let '(y, stop) := watch_iter dir y r in
      if stop then (y, true) else watch_loop dir rs' y
  end.
End watch.

(** ** Lemmas *)

(** *** The watcher as events: one reload for each round with a change or a
    SIGHUP, until the channel is closed *)
Fixpoint watch_events (dir : path) (rs : list (Received * bool)) : list event :=
  match rs with
  | (Disconnected, _) :: _ | [] => []
  | (RecvTimeout, false) :: rs' => watch_events dir rs'
  | _ :: rs' => EReload dir :: watch_events dir rs'
  end.

Lemma watch_loop_events `{HI : HashIter} `{FF : FsFaults} `{CEL : CelEngine} `{YAML : YamlEngine}
    `{CY : ConfigYaml} {E} `{Enforcer E} {S} `{ManualPolicyStore S} `{ClientStatsStore S}
    dir rs (y : System E S) :
  sys_run (watch_events dir rs) y = Some (watch_loop dir rs y).1.
Proof.
  revert y. induction rs as [|[r hup] rs IH]; intros y; [done|].
  assert (sys_run (EReload dir :: watch_events dir rs) y
          = Some (let '(s, fs) := try_reload dir (y_state y) (y_fs y) in
                  watch_loop dir rs (mkSystem s (y_store y) (y_flows y) (y_ws y) fs)).1) as Hreload.
  { unfold sys_run. cbn [opt_fold sys_step]. destruct (try_reload dir (y_state y) (y_fs y)). apply IH. }
  cbn [watch_events watch_loop]. unfold watch_iter.
  destruct r, hup; cbn [fst snd]; try apply IH; try done;
    rewrite Hreload; by destruct (try_reload dir (y_state y) (y_fs y)).
Qed.

(** *** The chosen enforcer keeps the promise of the trait, for IPv4 clients *)
Definition dyn_in_force (e : DynEnforcer) (c : ClientId) : EffectiveAction :=
  match e with
  | DBpf b => in_force b c
  | DPermissive p => if bool_decide (is_Some (bpf_key c)) then in_force p c else EffNone
  end.

#[export] Instance dyn_laws : EnforcerLaws DynEnforcer.
Proof.
  refine {| supports c := bool_decide (is_Some (bpf_key c)); in_force := dyn_in_force |}.
  - intros [b|p] c c' a Hc Hc'; cbn [dyn_in_force apply dyn_enforcer].
    + by rewrite (in_force_apply b c c' a Hc Hc').
    + rewrite (in_force_apply p c c' a Hc Hc'). cbn [supports permissive_laws].
      destruct (bool_decide (c' = c)) eqn:Hcc; cbn; [|done].
      apply bool_decide_eq_true in Hcc as ->. by destruct (bool_decide (is_Some _)).
  - intros [b|p] c c' Hc Hc'; cbn [dyn_in_force clear dyn_enforcer].
    + by rewrite (in_force_clear b c c' Hc Hc').
    + rewrite (in_force_clear p c c' Hc Hc'). by destruct (bool_decide (is_Some _)), (bool_decide (c' = c)).
  - intros [b|p] c Hs; cbn [dyn_in_force]; [by apply (in_force_unsupported b c)|by rewrite Hs].
  - intros [b|p] c c' a a' Hc Hc' Hne; cbn [apply dyn_enforcer]; f_equal; by apply apply_apply_comm.
  - intros [b|p] c c' a Hc Hc' Hne; cbn [apply clear dyn_enforcer]; f_equal; by apply apply_clear_comm.
  - intros [b|p] c c' Hc Hc' Hne; cbn [clear dyn_enforcer]; f_equal; by apply clear_clear_comm.
Defined.

(** *** Flags *)
(** The flag [f] of the [daemon] command, else the global flag [g]. *)
Definition flag_of {A} (f : DaemonArgs → option A) (g : option A) (cli : Cli) : option A :=
  from_option Some g (match cli_command cli with Some (CmdDaemon a) => f a | _ => None end).

Lemma either_from_option {A} (a b : option A) : either a b = from_option Some b a.
Proof. by destruct a. Qed.

Lemma daemon_flags_of cli :
  daemon_flags cli
  = (flag_of da_interface (cli_interface cli) cli, flag_of da_redis_url (cli_redis_url cli) cli,
     flag_of da_config_dir (cli_config_dir cli) cli, flag_of da_mode (cli_mode cli) cli).
Proof. unfold daemon_flags, flag_of. destruct (cli_command cli) as [[]|]; by rewrite ?either_from_option. Qed.

(** *** Hydration *)
Section hydration.
Context `{CEL : CelEngine} {E : Type}.
Implicit Types s : DaemonState E.

Lemma hydrate_ok {S} `{ManualStoreLaws S} now sys s (st st' : S) s' r :
  state_ok s → stores st → hydrate now sys s st = Some (s', st', r) → state_ok s' ∧ stores st'.
Proof.
  intros Hs [m Hm]. unfold hydrate. destruct (load_all st) as [st1 x] eqn:Hl.
  destruct (load_spec _ _ _ _ Hm Hl) as (m0 & m1 & Hl0 & _ & Hm1 & Hx).
  destruct x as [l|e]; [|intros [= <- <- _]; split; [done|by exists m1]].
  intros (s1 & Hfold & [= <- <- _])%bind_Some. split; [|by exists m1].
  destruct (store_rel_ok _ _ Hm) as [Hk Hp].
  eapply (opt_fold_inv state_ok); [exact Hs| |exact Hfold].
  intros [c p] y z Hin Hy. unfold hydrate_step. intros (mp & Hmp & [= <-])%bind_Some. cbn [fst snd] in *.
  rewrite (Hx l eq_refl) in Hin. apply elem_of_map_to_list in Hin.
  assert (m !! c = Some p) as Hin' by (eapply lookup_weaken; [exact Hin|apply Hl0]).
  apply insert_policy_ok; [done|by apply Hk in Hin'|].
  split; cbn; [|done]. intros m' t [= <-] Ht. destruct (Hp _ _ Hin') as [Hr _].
  apply Hr. unfold to_runtime in Hmp. destruct (st_until_unix_secs p).
  - apply bind_Some in Hmp as (u & _ & [= <-]). exact Ht.
  - injection Hmp as <-. exact Ht.
Qed.

End hydration.

(** What a load found, in the policy map. *)
Lemma hydrate_policies `{CEL : CelEngine} {E} {S} `{ManualStoreLaws S} now sys (s : DaemonState E) (st : S) m l :
  store_rel st m → (load_all st).2 = Ok l → (∀ c p, m !! c = Some p → is_Some (to_runtime p now (sys c))) →
  ∃ s' m0, hydrate now sys s st = Some (s', (load_all st).1, Ok tt) ∧ s' = with_policies s (policies s')
    ∧ lapse m m0 ∧ ∀ c, policies s' !! c = hydrated now sys c (m0 !! c) (policies s !! c).
Proof.
  intros Hm Hl Ht. unfold hydrate. destruct (load_all st) as [st1 x] eqn:Hload. cbn [snd fst] in *. subst x.
  destruct (load_spec _ _ _ _ Hm Hload) as (m0 & m1 & Hlapse & _ & _ & Hx). specialize (Hx l eq_refl).
  destruct (hydrate_fold now sys l s) as (s' & -> & Hs' & Hp).
  { rewrite Hx. apply NoDup_fst_map_to_list. }
  { intros c p Hin. rewrite Hx in Hin. apply elem_of_map_to_list in Hin. eapply Ht, lookup_weaken; [exact Hin|].
    apply Hlapse. }
  exists s', m0. split_and!; [done..|]. intros c. rewrite Hp. do 2 f_equal.
  rewrite <- (list_to_map_to_list m0). apply list_to_map_proper; [|done].
  rewrite Hx. apply NoDup_fst_map_to_list.
Qed.

Lemma open_store_run `{HI : HashIter} `{CEL : CelEngine} {E} `{RD : Redis} `{!RedisLaws} `{JT : JsonText}
    `{!JsonTextLaws} url now sys (s : DaemonState E) stored :
  state_ok s →
  (∀ r, redis_connect url = Ok r → store_rel (SRedis r) stored) →
  (∀ c p, stored !! c = Some p → is_Some (to_runtime p now (sys c))) →
  ∃ x, open_store url now sys s = Some x ∧
    match redis_connect url with
    | Err _ => x = Ok (s, SMemory memory0)
    | Ok r =>
        match (load_all r).2 with
        | Err e => x = Err e
        | Ok _ => ∃ s' m0, x = Ok (s', SRedis (load_all r).1) ∧ state_ok s' ∧ stores (SRedis (load_all r).1)
            ∧ s' = with_policies s (policies s')
            ∧ lapse stored m0 ∧ ∀ c, policies s' !! c = hydrated now sys c (m0 !! c) (policies s !! c)
        end
    end.
Proof.
  intros Hs Hr Ht. unfold open_store. destruct (redis_connect url) as [r|e]; [|by eexists].
  specialize (Hr r eq_refl). destruct ((load_all r).2) as [l|e] eqn:Hl.
  - destruct (hydrate_policies now sys s r stored l Hr Hl Ht) as (s' & m0 & Hh & Hs' & Hlapse & Hp).
    rewrite Hh. cbn [mbind option_bind res_bind]. eexists. split; [done|]. exists s', m0.
    destruct (hydrate_ok now sys s r _ s' _ Hs (ex_intro _ stored Hr) Hh) as [Hs1 [m1 Hm1]].
    split_and!; try done. by exists m1.
  - unfold hydrate. destruct (load_all r) as [r1 x]. cbn [snd] in Hl. subst x. cbn [mbind option_bind res_bind].
    by eexists.
Qed.

Lemma load_and_attach_handle `{NI : NetIfaces} `{XL : XdpLoader} interface h :
  load_and_attach interface = Ok h → h = mkHandle ∅.
Proof.
  unfold load_and_attach. destruct attach_xdp as [attach|]; [|by intros [= <-]].
  intros (ifaces & _ & (u & _ & [= <-])%res_bind_Ok)%res_bind_Ok. done.
Qed.

Lemma choose_enforcer_eq `{NI : NetIfaces} `{XL : XdpLoader} mode interface :
  choose_enforcer mode interface
  = match mode with
    | Enforce => if is_ok (load_and_attach interface) then DBpf (mkBpf (mkHandle ∅))
                 else DPermissive (mkPermissive (mkLog ∅))
    | Permissive => DPermissive (mkPermissive (mkLog ∅))
    end.
Proof.
  unfold choose_enforcer. destruct mode; [|done].
  destruct (load_and_attach interface) as [h|e] eqn:Hl; [|done]. by rewrite (load_and_attach_handle _ _ Hl).
Qed.

Lemma ensure_exists_Ok `{NI : NetIfaces} i :
  ensure_exists i = Ok tt ↔ i ≠ [] ∧ (is_any i = true ∨ 0 ∉ i ∧ is_ok (if_nametoindex i) = true).
Proof.
  unfold ensure_exists, ifindex. destruct i as [|x i]; [naive_solver|]. cbn [res_bind].
  destruct (is_any (x :: i)); [naive_solver|]. case_bool_decide as Hz; [naive_solver|].
  destruct (if_nametoindex (x :: i)); naive_solver.
Qed.

(** *** The decision loop as events *)
Section loop.
Context `{HI : HashIter} `{FF : FsFaults} `{CEL : CelEngine} `{YAML : YamlEngine} `{CY : ConfigYaml}.

Definition snapshot_due (secs last : Z) (r : Reading) : bool :=
  from_secs secs <=? sat_since (rd_later r) last.

(** The ticks and snapshots of a run of the loop with a snapshot interval of
    [secs], and the time of the last snapshot. *)
Fixpoint loop_events (secs last : Z) (rs : list Reading) : list event * Z :=
  match rs with
  | [] => ([], last)
  | r :: rs' =>
      if snapshot_due secs last r then
        let '(evs, last') := loop_events secs (rd_done r) rs' in
        (ETick (rd_now r) :: ESnapshot (rd_sys r) :: evs, last')
      else
        let '(evs, last') := loop_events secs last rs' in (ETick (rd_now r) :: evs, last')
  end.

Lemma tick_live {E} `{Enforcer E} (s s' : DaemonState E) now : tick s now = Some s' → live s' = live s.
Proof.
  unfold tick. intros (s1 & Hfold & [= <-])%bind_Some. cbn.
  apply tick_fold_effect in Hfold; [|apply hset_iter_NoDup].
  by destruct (te_frame _ _ _ _ _ _ _ Hfold) as (_ & _ & ? & _).
Qed.

Definition snapshot_interval {E} (s : DaemonState E) : Z := Z.max (stats_snapshot_secs (daemon_cfg s)) 1.

Lemma decision_run_events {E} `{Enforcer E} {S} `{ManualPolicyStore S} `{ClientStatsStore S}
    (y : System E S) last rs :
  decision_run rs (y, last)
  = (λ y', (y', (loop_events (snapshot_interval (y_state y)) last rs).2))
      <$> sys_run (loop_events (snapshot_interval (y_state y)) last rs).1 y.
Proof.
  revert y last. induction rs as [|r rs IH]; intros y last; [done|].
  unfold decision_run. cbn [opt_fold]. unfold decision_iter at 1. cbn [loop_events].
  destruct (tick (y_state y) (rd_now r)) as [s|] eqn:Ht.
  2: { destruct (snapshot_due _ _ _), (loop_events _ _ _); unfold sys_run; cbn; by rewrite Ht. }
  cbn [mbind option_bind]. apply tick_live in Ht as Hl.
  assert (snapshot_interval (y_state y) = snapshot_interval s) as ->.
  { unfold snapshot_interval, daemon_cfg. by rewrite Hl. }
  change (Z.max (stats_snapshot_secs (daemon_cfg s)) 1) with (snapshot_interval s).
  unfold snapshot_due. destruct (_ <=? _).
  - change (opt_fold decision_iter rs ?x) with (decision_run rs x). rewrite IH. cbn [y_state].
    destruct (loop_events (snapshot_interval s) (rd_done r) rs) as [evs last'].
    unfold sys_run. cbn [opt_fold sys_step fst snd]. by rewrite Ht.
  - change (opt_fold decision_iter rs ?x) with (decision_run rs x). rewrite IH. cbn [y_state].
    destruct (loop_events (snapshot_interval s) last rs) as [evs last'].
    unfold sys_run. cbn [opt_fold sys_step fst snd]. by rewrite Ht.
Qed.

Context `{!YamlTyped} {E : Type} `{EL : EnforcerLaws E} {S : Type} `{SL : StatsLaws S}.

(** The tick of a reading fits the clock. *)
Definition in_time (s : DaemonState E) (r : Reading) : Prop := (rd_now r + tick_cooldown s) / NS ≤ I64_MAX.

Lemma decision_iter_ok (y : System E S) last r :
  sys_ok y → in_time (y_state y) r →
  ∃ y' last', decision_iter (y, last) r = Some (y', last') ∧ sys_ok y'
    ∧ live (y_state y') = live (y_state y).
Proof.
  intros Hy Ht. unfold decision_iter.
  destruct (sys_step_total y (ETick (rd_now r)) Hy I) as [y1 Hs1]; [cbn; unfold in_time in Ht; lia|].
  pose proof (sys_step_ok _ _ (ETick (rd_now r)) Hy I Hs1) as Hy1. cbn in Hs1.
  apply bind_Some in Hs1 as (s & Hs & [= <-]). rewrite Hs. cbn [mbind option_bind].
  apply tick_live in Hs. cbv zeta. destruct (_ <=? _).
  - eexists _, _. split; [done|]. split; [|done].
    exact (sys_step_ok _ _ (ESnapshot (rd_sys r)) Hy1 I eq_refl).
  - eexists _, _. by split_and!.
Qed.

Lemma decision_run_ok (y : System E S) last rs :
  sys_ok y → Forall (in_time (y_state y)) rs →
  ∃ y' last', decision_run rs (y, last) = Some (y', last') ∧ sys_ok y'.
Proof.
  intros Hy Hrs. revert y last Hy Hrs. induction rs as [|r rs IH]; intros y last Hy Hrs; [by exists y, last|].
  apply Forall_cons in Hrs as [Hr Hrs].
  destruct (decision_iter_ok y last r Hy Hr) as (y1 & l1 & Hit & Hy1 & Hl).
  destruct (IH y1 l1 Hy1) as (y2 & l2 & Hrun & Hy2).
  { eapply Forall_impl; [exact Hrs|]. intros x. unfold in_time, tick_cooldown, daemon_cfg. by rewrite Hl. }
  exists y2, l2. split; [|done]. unfold decision_run in *. cbn [opt_fold]. by rewrite Hit.
Qed.
End loop.

(** ** Properties *)

(** C11 (daemon_start_spec): starting the daemon never panics while the stored
    expiries fit the clock, and its outcome is this.  A flag of the [daemon]
    command counts before the global flag of the same name, an interface flag
    before [daemon.yaml] and that before [any], a mode flag before [daemon.yaml].
    The start fails, in this order, when the configuration does not load, when
    the interface is unknown (it must be [any] or one that the system knows),
    when the socket is taken, and when Redis answers but its policies do not load,
    and in no other case.  Otherwise the daemon has the loaded configuration,
    this mode and interface, no counts, windows or flows, and: with Redis, that
    store and the manual policies in it, those with an expiry possibly gone,
    converted to the daemon's clock; without Redis, no policies and the empty
    memory store.  It enforces with BPF, from an empty table, when the mode is
    [enforce] and the program could be attached, and else only logs. *)
Theorem daemon_start_spec `{HI : HashIter} `{FF : FsFaults} `{CEL : CelEngine} `{YAML : YamlEngine}
    `{CY : ConfigYaml} `{!YamlTyped} `{NI : NetIfaces} `{XL : XdpLoader} `{RD : Redis} `{!RedisLaws}
    `{JT : JsonText} `{!JsonTextLaws} env data_socket bind now sys cli fs stored :
  let url := default (lit "redis://127.0.0.1:6379/0") (flag_of da_redis_url (cli_redis_url cli) cli) in
  let config_dir := resolve_config_dir env (flag_of da_config_dir (cli_config_dir cli) cli) in
  let loaded := live_load (components config_dir) fs in
  let known i := i ≠ [] ∧ (is_any i = true ∨ 0 ∉ i ∧ is_ok (if_nametoindex i) = true) in
  (∀ r, redis_connect url = Ok r → store_rel (SRedis r) stored) →
  (∀ c p, stored !! c = Some p → is_Some (to_runtime p now (sys c))) →
  ∃ r, daemon_start env data_socket bind now sys cli fs = Some (loaded.1, r)
    ∧ match loaded.2 with
      | Err e => r = Err (StartLoad e)
      | Ok l =>
          let mode := default (cfg_mode (live_daemon l)) (flag_of da_mode (cli_mode cli) cli) in
          let interface := default (lit "any")
            (from_option Some (cfg_interface (live_daemon l)) (flag_of da_interface (cli_interface cli) cli)) in
          let socket := resolve_socket env data_socket (cli_socket cli) in
          let enforce := match mode with
                         | Enforce => if is_ok (load_and_attach interface) then DBpf (mkBpf (mkHandle ∅))
                                      else DPermissive (mkPermissive (mkLog ∅))
                         | Permissive => DPermissive (mkPermissive (mkLog ∅))
                         end in
          let running ps store :=
            let s := mkState mode interface l ps ∅ counters0 ∅ ∅ (Some enforce) in
            r = Ok (mkSystem s store flow_table_new ∅ loaded.1) ∧ sys_ok (mkSystem s store flow_table_new ∅ loaded.1) in
          (¬ known interface → ∃ e, r = Err (StartIface interface e))
          ∧ (known interface → ∀ e, bind socket = Err e → r = Err (StartBind e))
          ∧ (known interface → bind socket = Ok tt →
               match redis_connect url with
               | Err _ => running ∅ (SMemory memory0)
               | Ok c =>
                   match (load_all c).2 with
                   | Err e => r = Err (StartStore e)
                   | Ok _ => ∃ ps m0, running ps (SRedis (load_all c).1) ∧ lapse stored m0
                       ∧ ∀ c, ps !! c = p ← m0 !! c; m ← to_runtime p now (sys c); Some (mkPolicy (Some m) None)
                   end
               end)
      end.
Proof.
  intros url config_dir loaded known Hr Ht. unfold daemon_start. rewrite daemon_flags_of.
  change (live_load (components (resolve_config_dir env (flag_of da_config_dir (cli_config_dir cli) cli))) fs) with loaded.
  destruct loaded as [fs' [l|e]] eqn:Hl; cbn [fst snd]; [|by eexists]. subst loaded.
  apply live_load_typed in Hl as [Hrs Hty]. rewrite either_from_option. cbv zeta.
  set (mode := default (cfg_mode (live_daemon l)) (flag_of da_mode (cli_mode cli) cli)).
  change (lit "any") with ANY.
  set (interface := default ANY (from_option Some (cfg_interface (live_daemon l))
                                   (flag_of da_interface (cli_interface cli) cli))).
  set (socket := resolve_socket env data_socket (cli_socket cli)).
  pose proof (ensure_exists_Ok interface) as Hex. fold (known interface) in Hex |- *.
  destruct (ensure_exists interface) as [[]|e].
  2: { eexists. split; [done|]. split_and!; [by eexists|intros Hk; by apply Hex in Hk..]. }
  assert (known interface) as Hk by by apply Hex.
  destruct (bind socket) as [[]|e]; [|eexists; split; [done|]; naive_solver].
  change default_redis_url with (lit "redis://127.0.0.1:6379/0"). fold url.
  destruct (open_store_run (E := DynEnforcer) url now sys (state_new mode interface l) stored
    (state_new_ok mode interface l Hrs Hty) Hr Ht) as (x & Hx & Hcase).
  rewrite Hx. cbn [mbind option_bind]. rewrite choose_enforcer_eq.
  destruct (redis_connect url) as [c|e].
  - destruct (load_all c).2 as [ps|e].
    + destruct Hcase as (s' & m0 & -> & Hs' & Hst & Hw & Hlapse & Hp). eexists. split; [done|].
      split_and!; [naive_solver..|]. intros _ _. exists (policies s'), m0. rewrite Hw in Hs'. split_and!.
      * by rewrite Hw.
      * split_and!; [exact (set_enforcer_ok _ _ Hs')|apply flow_table_new_ok|done].
      * exact Hlapse.
      * intros c'. rewrite Hp. unfold hydrated. by destruct (m0 !! c').
    + subst x. eexists. split; [done|]. naive_solver.
  - subst x. eexists. split; [done|]. split_and!; [naive_solver..|]. intros _ _. split; [done|].
    split_and!; [|apply flow_table_new_ok|].
    + exact (set_enforcer_ok _ _ (state_new_ok mode interface l Hrs Hty)).
    + exists ∅. apply memory0_rel.
Qed.

(** C12 (decision_loop_runs): while its ticks fit the clock, every number of
    iterations of the decision loop completes and leaves a well-formed system.
    The run is exactly one tick per iteration, in order, with a snapshot after
    the tick whenever the configured interval (at least one second) has passed
    since the last one. *)
Theorem decision_loop_runs `{HI : HashIter} `{FF : FsFaults} `{CEL : CelEngine} `{YAML : YamlEngine}
    `{CY : ConfigYaml} `{!YamlTyped} {E} `{EL : EnforcerLaws E} {S} `{SL : StatsLaws S}
    (y : System E S) last rs :
  let secs := snapshot_interval (y_state y) in
  sys_ok y → Forall (in_time (y_state y)) rs →
  ∃ y', decision_run rs (y, last) = Some (y', (loop_events secs last rs).2) ∧ sys_ok y'
    ∧ sys_run (loop_events secs last rs).1 y = Some y' ∧ 1 ≤ secs.
Proof.
  intros secs Hy Hrs. destruct (decision_run_ok y last rs Hy Hrs) as (y' & last' & Hrun & Hy').
  rewrite decision_run_events in Hrun. fold secs in Hrun.
  apply fmap_Some in Hrun as (y2 & Hev & [= -> ->]). exists y2.
  rewrite decision_run_events. fold secs. rewrite Hev. split_and!; [done..|]. apply Z.le_max_r.
Qed.

#[local] Existing Instance hash_forward.
#[local] Existing Instance yes_engine.

Lemma decision_loop_runs_witness :
  let rs := [mkReading (1 * NS) (1 * NS) 7 (1 * NS); mkReading (9 * NS) (9 * NS) 8 (9 * NS)] in
  ∃ y', decision_run rs (demo_system, 0) = Some (y', 9 * NS) ∧ sys_ok y'.
Proof.
  intros rs. destruct (decision_loop_runs demo_system 0 rs demo_system_ok) as (y' & Hrun & Hy & _).
  - apply Forall_cons; split; [|apply Forall_cons; split; [|constructor]]; vm_compute; discriminate.
  - exists y'. split; [exact Hrun|exact Hy].
Defined.

(** One network card, [eth0], besides the loopback; no XDP program. *)
#[local] Instance demo_ifaces : NetIfaces := {|
  if_nametoindex n := if bool_decide (n = lit "eth0") then Ok 2 else Err (lit "No such device");
  if_nameindex := Ok [(1, Some (lit "lo")); (2, Some (lit "eth0")); (0, None)];
  sysfs_net := Err []
|}.
#[local] Instance demo_loader : XdpLoader := None.

(** The daemon on [eth0] with the files of an operator who keeps the defaults. *)
Definition demo_cli : Cli :=
  mkCli (Some (CmdDaemon (mkDaemonArgs (Some (lit "eth0")) None (Some (lit "waf")) None))) None false None
    None None None.

Definition demo_disk : Fs :=
  <[[] := Dir]> (<[[lit "waf"] := Dir]> (<[rules_d [lit "waf"] := Dir]> ∅)).

Definition started {A B e} (r : option (A * result B e)) : bool :=
  match r with Some (_, Ok _) => true | _ => false end.

Lemma daemon_start_spec_witness :
  ∃ y, (snd <$> daemon_start (λ _, None) (lit "/run") (λ _, Ok tt) 7 (λ _, 9) demo_cli demo_disk)
       = Some (Ok y)
    ∧ sys_ok y ∧ st_interface (y_state y) = lit "eth0".
Proof.
  assert (started (daemon_start (λ _, None) (lit "/run") (λ _, Ok tt) 7 (λ _, 9) demo_cli demo_disk) = true)
    as Hok by (vm_compute; reflexivity).
  assert (is_ok (live_load (components (lit "waf")) demo_disk).2 = true) as Hload by (vm_compute; reflexivity).
  destruct (daemon_start_spec (λ _, None) (lit "/run") (λ _, Ok tt) 7 (λ _, 9) demo_cli demo_disk ∅)
    as (r & Hd & Hr).
  - intros c [= <-]. exact (redis_rel_other ∅ ∅ KEY_SCHEMA _ mini_redis_rel (λ H, ltac:(by vm_compute in H))).
  - intros c p Hc. by rewrite lookup_empty in Hc.
  - rewrite Hd in Hok |- *. cbn [fmap option_fmap option_map snd].
    change (resolve_config_dir (λ _, None) (flag_of da_config_dir (cli_config_dir demo_cli) demo_cli))
      with (lit "waf") in Hr.
    destruct ((live_load (components (lit "waf")) demo_disk).2) as [l|e]; [|discriminate Hload].
    destruct Hr as (_ & _ & Hr). specialize (Hr ltac:(split; [discriminate|right; split;
      [apply (bool_decide_unpack _); vm_compute; exact I|reflexivity]]) eq_refl).
    destruct (redis_connect _) as [c|e]; [destruct ((load_all c).2) as [ps|e]|].
    + destruct Hr as (ps' & m0 & [-> Hy] & _). eexists. split; [reflexivity|]. split; [exact Hy|reflexivity].
    + rewrite Hr in Hok. discriminate Hok.
    + destruct Hr as [-> Hy]. eexists. split; [reflexivity|]. split; [exact Hy|reflexivity].
Defined.
