(* ===== verification/Capture.v ===== *)
(** The capture thread ([run], [open_af_packet] and [sniff_loop] of
    [crates/microwaf/src/sniffer.rs]): opening the packet socket, and the loop
    that hands every frame to [handle_frame], as a run of the system. *)

From S2P Require Import Prelude Text Client Rule Window Policy Counters Enforcer Config State Decision Sniffer Json Wire Store Ipc Cli Live System Daemon.

(** ** Packet sockets

    The calls of the C library, with the error texts of the system: [socket]
    answers a descriptor that is not in use, [bind] ties one to an interface
    index. *)
Class PacketSockets := {
  af_socket : gset Z → result Z str;
  af_bind : Z → Z → result () str
}.

Class PacketSocketLaws `{PS : PacketSockets} :=
  af_socket_fresh fds fd : af_socket fds = Ok fd → fd ∉ fds.

(** [u32 as i32]. *)
Definition as_i32 (i : Z) : Z := if i <? 2147483648 then i else i - 4294967296.

Section open.
Context `{NI : NetIfaces} `{PS : PacketSockets}.

(** The state is the set of open descriptors. *)
Definition open_af_packet (interface : str) : SE (gset Z) str Z := λ fds,
  match af_socket fds with
  | Err e => (fds, Err (lit "socket AF_PACKET: " ++ e))
  | Ok fd =>
      let fds := {[fd]} ∪ fds in
      match ifindex interface with
      | Err e => (fds ∖ {[fd]}, Err e)
      | Ok index =>
          match af_bind fd (as_i32 index) with
          | Err e => (fds ∖ {[fd]}, Err (lit "bind AF_PACKET: " ++ e))
          | Ok _ => (fds, Ok fd)
          end
      end
  end.
End open.

(** ** The loop *)

(** One return of [recv]: a packet, an interruption by a signal, or a failure. *)
Inductive Recv := RecvPacket (packet : list Z) | RecvInterrupted | RecvFailed (e : str).

(** With the clocks at which the packet is handled. *)
Record Arrival := mkArrival { ar_recv : Recv; ar_utc : str → nat → UtcNow; ar_now : Z }.

Definition BUF_LEN : nat := Z.to_nat 65536.

Section loop.
Context `{HI : HashIter} `{CEL : CelEngine} {E : Type}.

Abbreviation Sniffing := (DaemonState E * FlowTable * WsConns)%type.

(** [None] is a panic; an error ends the thread, no error means that the loop
    waits for the next packet. *)
Fixpoint sniff_loop (arrivals : list Arrival) (x : Sniffing) : option (Sniffing * option str) :=
  match arrivals with
  | [] => Some (x, None)
  | a :: arrivals' =>
      match ar_recv a with
      | RecvInterrupted => sniff_loop arrivals' x
      | RecvFailed e => Some (x, Some (lit "recv: " ++ e))
      | RecvPacket packet =>
          let frame := take BUF_LEN packet in
          x ← handle_frame (ar_utc a) frame x.1.1 x.1.2 x.2 (ar_now a);
          sniff_loop arrivals' x
      end
  end.

(** [run]: without a socket the thread sleeps forever. *)
Definition sniffer_run `{NI : NetIfaces} `{PS : PacketSockets} (interface : str) (fds : gset Z)
    (arrivals : list Arrival) (s : DaemonState E) : option (gset Z * Sniffing * option str) :=
  match open_af_packet interface fds with
  | (fds, Ok _) => (λ r, (fds, r.1, r.2)) <$> sniff_loop arrivals (s, flow_table_new, ∅)
  | (fds, Err _) => Some (fds, (s, flow_table_new, ∅), None)
  end.
End loop.

(** ** Lemmas *)

(** The frames that the loop handles: those before the first failure, cut at the
    length of the buffer. *)
Fixpoint frames (arrivals : list Arrival) : list event :=
  match arrivals with
  | [] => []
  | a :: arrivals' =>
      match ar_recv a with
      | RecvPacket packet => EFrame (ar_utc a) (take BUF_LEN packet) (ar_now a) :: frames arrivals'
      | RecvInterrupted => frames arrivals'
      | RecvFailed _ => []
      end
  end.

Definition packet_ok (a : Arrival) : Prop :=
  match ar_recv a with RecvPacket packet => bytes_ok packet | _ => True end.

Lemma frame_ok utc packet now : bytes_ok packet → event_ok (EFrame utc (take BUF_LEN packet) now).
Proof.
  intros Hp. split; [by apply Forall_take|]. rewrite length_take. unfold BUF_LEN, U64_MAX. lia.
Qed.

Section capture.
Context `{HI : HashIter} `{FF : FsFaults} `{CEL : CelEngine} `{YAML : YamlEngine} `{CY : ConfigYaml}.
Context `{!YamlTyped} {E : Type} `{EL : EnforcerLaws E} {S : Type} `{SL : StatsLaws S}.

(** The part of the system that the loop works on. *)
Definition sniffing (y : System E S) : DaemonState E * FlowTable * WsConns :=
  (y_state y, y_flows y, y_ws y).

(** One frame, as an event of the system. *)
Lemma frame_step (y : System E S) utc frame now :
  sys_ok y → event_ok (EFrame utc frame now) →
  ∃ y1, sys_step y (EFrame utc frame now) = Some y1 ∧ sys_ok y1
    ∧ handle_frame utc frame (y_state y) (y_flows y) (y_ws y) now = Some (sniffing y1).
Proof.
  intros Hy He. destruct (sys_step_total y _ Hy He (λ H, H)) as [y1 Hs]. exists y1.
  pose proof (sys_step_ok _ _ _ Hy He Hs) as Hy1. split_and!; [done..|].
  cbn [sys_step] in Hs. by apply bind_Some in Hs as ([[s ft] ws] & -> & [= <-]).
Qed.

(** The loop never panics, whatever the packets, and handles exactly the frames
    before the first failure, in order; only a failure ends it. *)
Theorem sniff_loop_runs arrivals (y : System E S) :
  sys_ok y → Forall packet_ok arrivals →
  ∃ y' r, sniff_loop arrivals (sniffing y) = Some (sniffing y', r)
    ∧ sys_run (frames arrivals) y = Some y' ∧ sys_ok y'
    ∧ (r = None ↔ Forall (λ a, ∀ e, ar_recv a ≠ RecvFailed e) arrivals).
Proof.
  intros Hy Hok. revert y Hy. induction Hok as [|a arrivals Ha Hok IH]; intros y Hy.
  { exists y, None. by split_and!. }
  unfold packet_ok in Ha. cbn [sniff_loop frames]. destruct (ar_recv a) as [packet| |e] eqn:Hr.
  - destruct (frame_step y _ _ _ Hy (frame_ok (ar_utc a) packet (ar_now a) Ha)) as (y1 & Hs & Hy1 & Hf).
    destruct (IH y1 Hy1) as (y' & r & Hl & Hrun & Hy' & Hn).
    exists y', r. unfold sys_run in *. cbn [opt_fold]. rewrite Hs. cbn [sniffing fst snd]. rewrite Hf.
    split_and!; [exact Hl|done..|]. rewrite Forall_cons, Hn, Hr. split; [by split|by intros [_ ?]].
  - destruct (IH y Hy) as (y' & r & Hl & Hrun & Hy' & Hn). exists y', r. split_and!; [done..|].
    rewrite Forall_cons, Hn, Hr. split; [by split|by intros [_ ?]].
  - exists y, (Some (lit "recv: " ++ e)). split_and!; [done..|]. split; [done|].
    rewrite Forall_cons, Hr. by intros [Hne _]; destruct (Hne e).
Qed.
End capture.

(** Opening the socket leaves at most the returned descriptor open. *)
Lemma open_af_packet_descriptors `{NI : NetIfaces} `{PS : PacketSockets} `{!PacketSocketLaws} interface fds :
  match open_af_packet interface fds with
  | (fds', Ok fd) => fd ∉ fds ∧ fds' = {[fd]} ∪ fds
  | (fds', Err _) => fds' = fds
  end.
Proof.
  unfold open_af_packet. destruct (af_socket fds) as [fd|e] eqn:Hs; [|done].
  apply af_socket_fresh in Hs as Hfd. destruct (ifindex interface) as [i|e]; [|set_solver].
  destruct (af_bind fd (as_i32 i)) as [[]|e]; [done|set_solver].
Qed.

(** The sniffer thread: it never panics, keeps one descriptor at most, and
    without a socket it changes nothing. *)
Theorem sniffer_run_spec `{HI : HashIter} `{FF : FsFaults} `{CEL : CelEngine} `{YAML : YamlEngine}
    `{CY : ConfigYaml} `{!YamlTyped} {E} `{EL : EnforcerLaws E} {S} `{SL : StatsLaws S}
    `{NI : NetIfaces} `{PS : PacketSockets} `{!PacketSocketLaws}
    interface fds arrivals (s : DaemonState E) (store : S) fs :
  sys_ok (mkSystem s store flow_table_new ∅ fs) → Forall packet_ok arrivals →
  ∃ fds' s' ft ws r, sniffer_run interface fds arrivals s = Some (fds', (s', ft, ws), r)
    ∧ sys_ok (mkSystem s' store ft ws fs)
    ∧ ((fds' = fds ∧ s' = s ∧ r = None) ∨ ∃ fd, fd ∉ fds ∧ fds' = {[fd]} ∪ fds).
Proof.
  intros Hy Hok. pose proof (open_af_packet_descriptors interface fds) as Hfd. unfold sniffer_run.
  destruct (open_af_packet interface fds) as [fds' [fd|e]].
  - destruct (sniff_loop_runs arrivals _ Hy Hok) as (y' & r & Hl & Hrun & Hy' & _).
    change (sniffing (mkSystem s store flow_table_new ∅ fs)) with (s, flow_table_new, ∅ : WsConns) in Hl.
    rewrite Hl.
    eexists _, _, _, _, _. split; [done|]. split; [|right; by exists fd].
    destruct Hy' as (Hs' & Hf' & _), Hy as (_ & _ & Hst). by split_and!.
  - subst fds'. eexists _, _, _, _, _. split; [done|]. split; [done|by left].
Qed.
