(* ===== verification/Phases.v ===== *)
(** The decision tick in phases.  In [tick] of [crates/microwaf/src/decision.rs]
    the rules, the cooldown and the counters are read one after the other before
    the locks of the windows and the policies are taken, so the other threads may
    run in between; the counters, too, are updated a half call at a time.  Every
    such run is equal to one in which the tick is a single step. *)

From S2P Require Import Prelude Text Client Rule Window Policy Counters Enforcer Config State Decision Sniffer Ebpf Json Wire Store Ipc Live System.

Section phases.
Context `{HI : HashIter} `{FF : FsFaults} `{CEL : CelEngine} `{YAML : YamlEngine} `{CY : ConfigYaml}.
Context {E : Type} `{ENF : Enforcer E} {S : Type} `{MS : ManualPolicyStore S} `{CS : ClientStatsStore S}.
Implicit Types (s : DaemonState E) (y : System E S).

(** ** The phases of the tick *)

Definition with_state y s : System E S := mkSystem s (y_store y) (y_flows y) (y_ws y) (y_fs y).

Definition with_rules s (rs : RuleSet) : DaemonState E :=
  swap_live s (mkLive (daemon_cfg s) (state_sets s) rs).

(** The part under the locks, with the rules, the cooldown and the counters read
    before. *)
Definition tick_locked (rs : RuleSet) (cooldown : Z) (snapshot : gmap CounterKey (Z * Z * Z))
    (now : Z) s : option (DaemonState E) :=
  let last := last_counters s in
  let clients := hset_iter (tick_clients snapshot (policies s)) in
  s' ← opt_fold (tick_client snapshot last now cooldown) clients (with_rules s rs);
  Some (swap_live (with_last s' snapshot) (live s)).

(** ** What other threads do meanwhile

    A whole event; the part of [handle_frame] before the counters; half a call on
    the counters. *)
Inductive mstep :=
| Whole (e : event)
| Tables (utc : str → nat → UtcNow) (frame : list Z) (now : Z)
| Count (st : cstep).

Definition mstep_run (m : mstep) y : option (System E S) :=
  match m with
  | Whole e => sys_step y e
  | Tables utc frame now =>
      '(_, ft, ws) ← handle_frame utc frame (y_state y) (y_flows y) (y_ws y) now;
      Some (mkSystem (y_state y) (y_store y) ft ws (y_fs y))
  | Count st =>
      Some (with_state y (with_counters (y_state y) (exec_step (counters (y_state y)) st)))
  end.

Definition msteps_run (ms : list mstep) y : option (System E S) := opt_fold (λ y m, mstep_run m y) ms y.

(** The tick, with the steps of other threads between its phases. *)
Definition tick_phases (now : Z) (ms0 ms1 ms2 : list mstep) y : option (System E S) :=
  let rs := rules (y_state y) in
  y ← msteps_run ms0 y;
  let cooldown := tick_cooldown (y_state y) in
  y ← msteps_run ms1 y;
  let snapshot := snapshot_rules (counters (y_state y)) in
  y ← msteps_run ms2 y;
  s ← tick_locked rs cooldown snapshot now (y_state y);
  Some (with_state y s).

(** ** Two sides of the daemon

    The commands and the locked part of the tick work on one side, the sniffer
    and the configuration watcher on the other. *)
Record PolicySide := mkSide {
  ps_mode : Mode;
  ps_interface : str;
  ps_policies : PolicyMap;
  ps_windows : gmap ClientId RuleWindows;
  ps_last : gmap CounterKey (Z * Z * Z);
  ps_would_be : gmap ClientId EffectiveAction;
  ps_enforcer : option E;
  ps_store : S
}.

Record Traffic := mkTraffic {
  tr_live : LiveConfig;
  tr_counters : CounterStore;
  tr_flows : FlowTable;
  tr_ws : WsConns;
  tr_fs : Fs
}.

Definition side y : PolicySide :=
  let s := y_state y in
  mkSide (st_mode s) (st_interface s) (policies s) (windows s) (last_counters s) (would_be s)
    (enforcer s) (y_store y).

Definition traffic y : Traffic :=
  mkTraffic (live (y_state y)) (counters (y_state y)) (y_flows y) (y_ws y) (y_fs y).

Definition unite (p : PolicySide) (t : Traffic) : System E S :=
  mkSystem (mkState (ps_mode p) (ps_interface p) (tr_live t) (ps_policies p) (ps_windows p)
              (tr_counters t) (ps_last p) (ps_would_be p) (ps_enforcer p))
    (ps_store p) (tr_flows t) (tr_ws t) (tr_fs t).

Implicit Types (f g : System E S → option (System E S)) (p : PolicySide) (t : Traffic).

(** A step that reads and writes only the policy side (and leaves the mode), and
    one that reads only the mode of it. *)
Definition on_policies f : Prop :=
  ∀ p t t', f (unite p t') = (λ y, unite (side y) t') <$> f (unite p t)
    ∧ ∀ y, f (unite p t) = Some y → ps_mode (side y) = ps_mode p.

Definition on_traffic f : Prop :=
  ∀ p p' t, ps_mode p' = ps_mode p → f (unite p' t) = (λ y, unite p' (traffic y)) <$> f (unite p t).

Lemma unite_eta y : unite (side y) (traffic y) = y.
Proof. by destruct y as [[] ? ? ? ?]. Qed.

Lemma side_unite p t : side (unite p t) = p.
Proof. by destruct p. Qed.

Lemma traffic_unite p t : traffic (unite p t) = t.
Proof. by destruct t. Qed.

Lemma on_policies_eq f p t y : on_policies f → f (unite p t) = Some y → y = unite (side y) t.
Proof. intros Hf Hy. destruct (Hf p t t) as [He _]. rewrite Hy in He. by injection He. Qed.

Lemma on_traffic_eq f p t y : on_traffic f → f (unite p t) = Some y → y = unite p (traffic y).
Proof. intros Hf Hy. specialize (Hf p p t eq_refl) as He. rewrite Hy in He. by injection He. Qed.

(** Steps on different sides commute, panics included. *)
Lemma sides_commute f g y : on_policies f → on_traffic g → (f y ≫= g) = (g y ≫= f).
Proof.
  intros Hf Hg. rewrite <- (unite_eta y). set (p := side y). set (t := traffic y). clearbody p t.
  destruct (f (unite p t)) as [y1|] eqn:Hy1.
  - pose proof (on_policies_eq _ _ _ _ Hf Hy1) as E1. destruct (Hf p t t) as [_ Hm].
    specialize (Hm _ Hy1). cbn [mbind option_bind]. rewrite E1, (Hg p (side y1) t Hm).
    destruct (g (unite p t)) as [y2|] eqn:Hy2; [|done]. cbn [fmap option_fmap option_map mbind option_bind].
    pose proof (on_traffic_eq _ _ _ _ Hg Hy2) as E2. rewrite E2.
    destruct (Hf p t (traffic y2)) as [-> _]. rewrite Hy1. cbn. by rewrite traffic_unite.
  - destruct (g (unite p t)) as [y2|] eqn:Hy2; [|done]. cbn [mbind option_bind].
    pose proof (on_traffic_eq _ _ _ _ Hg Hy2) as E2. rewrite E2.
    destruct (Hf p t (traffic y2)) as [-> _]. by rewrite Hy1.
Qed.

(** ** Each step is on one side *)
Lemma ipc_on_policies describe v k body : on_policies (λ y, sys_step y (EIpc describe v k body)).
Proof.
  intros p t t'. cbn [sys_step unite y_state y_store]. unfold execute.
  destruct (of_json body) as [req|]; [|by split; [done|intros y [= <-]]].
  unfold dispatch, throttle, block, clear_manual_throttle, clear_manual_block, clear_manual,
    update_manual, set_manual, replied.
  destruct (rq_kind req); cbn; repeat case_match; simplify_eq/=;
    try (destruct (expiry _ _) as [u|]; cbn [fmap option_fmap option_map mbind option_bind]; [|done]);
    try destruct (persist _ _ _ _); (split; [done|]); by intros y [= <-].
Qed.

Lemma frame_on_traffic utc frame now : on_traffic (λ y, sys_step y (EFrame utc frame now)).
Proof.
  intros p p' t _. cbn [sys_step unite y_state y_store y_flows y_ws y_fs]. unfold handle_frame.
  destruct (parse_frame frame) as [[[[[c src] dst] seg]|]|]; [|done..].
  cbn [mbind option_bind]. unfold rules, state_sets. cbn [live counters].
  by destruct (Sniffer.dispatch _ _ _ _ _ _ _ _ _ _) as [[ft ws] calls].
Qed.

Lemma tables_on_traffic utc frame now : on_traffic (mstep_run (Tables utc frame now)).
Proof.
  intros p p' t _. cbn [mstep_run unite y_state y_store y_flows y_ws y_fs]. unfold handle_frame.
  destruct (parse_frame frame) as [[[[[c src] dst] seg]|]|]; [|done..].
  cbn [mbind option_bind]. unfold rules, state_sets. cbn [live counters].
  by destruct (Sniffer.dispatch _ _ _ _ _ _ _ _ _ _) as [[ft ws] calls].
Qed.

Lemma count_on_traffic st : on_traffic (mstep_run (Count st)).
Proof. done. Qed.

Lemma reload_on_traffic dir : on_traffic (λ y, sys_step y (EReload dir)).
Proof.
  intros p p' t Hm. cbn [sys_step unite y_state y_store y_flows y_ws y_fs]. unfold try_reload.
  destruct (live_load dir (tr_fs t)) as [fs [l|e]]; [|done].
  cbn [fmap option_fmap option_map st_mode]. unfold unite, traffic. cbn. by rewrite Hm.
Qed.

(** The loop over the clients reads of the traffic side only the rules. *)
Definition retraffic s (l : LiveConfig) (c : CounterStore) : DaemonState E :=
  swap_live (with_counters s c) l.

Lemma tick_client_retraffic sn la now cd s k l c :
  live_rules l = rules s →
  tick_client sn la now cd (retraffic s l c) k
  = (λ s', retraffic s' l c) <$> tick_client sn la now cd s k.
Proof.
  intros Hl. destruct s as [sm si sl sp sw sc sla swb se]. unfold tick_client, retraffic, rules in *.
  cbn [swap_live with_counters with_windows windows policies live] in *.
  destruct (apply_deltas _ _ _ _ _) as [win|]; [|done]. cbn [mbind option_bind]. rewrite Hl.
  destruct (update_policy _ _ _ _) as [pol|]; [|done]. cbn [mbind option_bind].
  unfold enforce, state_clear, state_apply. destruct (merge_policy pol now); cbn;
    repeat case_match; by simplify_eq/=.
Qed.

Lemma tick_client_rules sn la now cd s s' k :
  tick_client sn la now cd s k = Some s' → rules s' = rules s ∧ st_mode s' = st_mode s.
Proof.
  unfold tick_client. destruct (apply_deltas _ _ _ _ _) as [win|]; [|done]. cbn [mbind option_bind].
  destruct (update_policy _ _ _ _) as [pol|]; [|done]. cbn [mbind option_bind]. intros [= <-].
  unfold enforce, state_clear, state_apply. destruct (merge_policy pol now); cbn;
    repeat case_match; by simplify_eq/=.
Qed.

Lemma tick_loop_retraffic sn la now cd ks s l c :
  live_rules l = rules s →
  opt_fold (tick_client sn la now cd) ks (retraffic s l c)
  = (λ s', retraffic s' l c) <$> opt_fold (tick_client sn la now cd) ks s.
Proof.
  revert s. induction ks as [|k ks IH]; intros s Hl; [done|]. cbn [opt_fold].
  rewrite tick_client_retraffic by done. destruct (tick_client sn la now cd s k) as [s1|] eqn:Hk; [|done].
  cbn [fmap option_fmap option_map]. apply IH. apply tick_client_rules in Hk as [-> _]. done.
Qed.

Lemma tick_loop_mode sn la now cd ks s s' :
  opt_fold (tick_client sn la now cd) ks s = Some s' → st_mode s' = st_mode s.
Proof.
  revert s. induction ks as [|k ks IH]; intros s; cbn [opt_fold]; [by intros [= <-]|].
  destruct (tick_client sn la now cd s k) as [s1|] eqn:Hk; [|done].
  intros ->%IH. by apply tick_client_rules in Hk as [_ ->].
Qed.

Definition locked_step rs cooldown snapshot now y : option (System E S) :=
  s ← tick_locked rs cooldown snapshot now (y_state y); Some (with_state y s).

Lemma locked_on_policies rs cd sn now : on_policies (locked_step rs cd sn now).
Proof.
  intros p t t'. unfold locked_step, tick_locked.
  set (s := with_rules (y_state (unite p t)) rs).
  assert (with_rules (y_state (unite p t')) rs
          = retraffic s (mkLive (live_daemon (tr_live t')) (live_sets (tr_live t')) rs) (tr_counters t'))
    as -> by done.
  change (policies (y_state (unite p t'))) with (policies (y_state (unite p t))).
  change (last_counters (y_state (unite p t'))) with (last_counters (y_state (unite p t))).
  rewrite tick_loop_retraffic by done.
  destruct (opt_fold _ _ s) as [s'|] eqn:Hs; [|done]. cbn. split; [done|].
  intros y [= <-]. cbn. by apply tick_loop_mode in Hs.
Qed.

(** The tick is its locked part, run on what it reads at the start. *)
Lemma tick_is_locked s now : tick s now = tick_locked (rules s) (tick_cooldown s) (snapshot_rules (counters s)) now s.
Proof.
  unfold tick, tick_locked. assert (with_rules s (rules s) = s) as -> by by destruct s as [? ? []].
  destruct (opt_fold _ _ s) as [s'|] eqn:Hs; [|done]. cbn [mbind option_bind]. f_equal.
  apply tick_fold_effect in Hs; [|apply hset_iter_NoDup].
  destruct (te_frame _ _ _ _ _ _ _ Hs) as (_ & _ & Hl & _). rewrite <- Hl. by destruct s'.
Qed.

(** ** Runs of several steps *)
Definition policy_step (m : mstep) : bool :=
  match m with Whole (EIpc _ _ _ _) => true | _ => false end.

Definition traffic_step (m : mstep) : bool :=
  match m with
  | Whole (EFrame _ _ _) | Whole (EReload _) | Tables _ _ _ | Count _ => true
  | _ => false
  end.

Definition is_reload (m : mstep) : bool := match m with Whole (EReload _) => true | _ => false end.

(** A step of a thread other than the decision loop. *)
Definition other_thread (m : mstep) : bool := policy_step m || traffic_step m.

Lemma policy_step_side m : policy_step m = true → on_policies (mstep_run m).
Proof. destruct m as [[]| |]; try done. intros _. apply ipc_on_policies. Qed.

Lemma traffic_step_side m : traffic_step m = true → on_traffic (mstep_run m).
Proof.
  destruct m as [[]|utc frame now|st]; try done; intros _.
  - apply frame_on_traffic.
  - apply reload_on_traffic.
  - apply tables_on_traffic.
Qed.

Lemma msteps_run_cons m ms y : msteps_run (m :: ms) y = mstep_run m y ≫= msteps_run ms.
Proof. unfold msteps_run. cbn. by destruct (mstep_run m y). Qed.

Lemma msteps_run_app ms ms' y : msteps_run (ms ++ ms') y = msteps_run ms y ≫= msteps_run ms'.
Proof. unfold msteps_run. rewrite opt_fold_app. by destruct (opt_fold _ ms y). Qed.

Lemma on_policies_compose f g : on_policies f → on_policies g → on_policies (λ y, f y ≫= g).
Proof.
  intros Hf Hg p t t'. destruct (Hf p t t') as [-> Hm].
  destruct (f (unite p t)) as [y1|] eqn:Hy1; [|by split].
  specialize (Hm y1 eq_refl). pose proof (on_policies_eq _ _ _ _ Hf Hy1) as E1.
  cbn [fmap option_fmap option_map mbind option_bind].
  destruct (Hg (side y1) t t') as [-> Hm']. rewrite <- E1 in *. split; [done|].
  intros y Hy. by rewrite (Hm' y Hy), Hm.
Qed.

Lemma policy_steps_side ms : Forall (λ m, policy_step m = true) ms → on_policies (msteps_run ms).
Proof.
  induction 1 as [|m ms Hm _ IH].
  { intros p t t'. split; [|by intros y [= <-]]. cbn. by rewrite side_unite. }
  pose proof (on_policies_compose _ _ (policy_step_side m Hm) IH) as Hc. intros p t t'.
  rewrite !msteps_run_cons. apply Hc.
Qed.

(** A step that ends a run may be taken before the steps on the other side. *)
Lemma end_earlier f ms y :
  on_policies f → Forall (λ m, other_thread m = true) ms →
  (msteps_run ms y ≫= f)
  = ((msteps_run (filter (λ m, policy_step m = true) ms) y ≫= f)
       ≫= msteps_run (filter (λ m, traffic_step m = true) ms)).
Proof.
  intros Hf Hms. revert y. induction Hms as [|m ms Hm _ IH]; intros y.
  { cbn. by destruct (f y). }
  rewrite msteps_run_cons, !filter_cons. unfold other_thread in Hm.
  destruct (policy_step m) eqn:Hp.
  - assert (traffic_step m = false) as Ht by by destruct m as [[]| |].
    destruct (decide (true = true)); [|done]. destruct (decide (traffic_step m = true)); [congruence|].
    rewrite msteps_run_cons. destruct (mstep_run m y) as [y1|]; [|done]. apply IH.
  - cbn [orb] in Hm. destruct (decide (false = true)); [done|]. destruct (decide (traffic_step m = true)); [|done].
    set (ps := filter (λ m, policy_step m = true) ms) in *.
    set (ts := filter (λ m, traffic_step m = true) ms) in *.
    assert (on_policies (λ y, msteps_run ps y ≫= f)) as Hside.
    { apply on_policies_compose; [|done]. apply policy_steps_side. unfold ps.
      apply Forall_forall. intros x Hx. by apply list_elem_of_filter in Hx as [? _]. }
    transitivity ((mstep_run m y ≫= λ y, msteps_run ps y ≫= f) ≫= msteps_run ts).
    { destruct (mstep_run m y) as [y1|]; [apply IH|done]. }
    rewrite <- (sides_commute _ _ y Hside (traffic_step_side m Hm)).
    destruct (msteps_run ps y ≫= f) as [y1|]; [|done]. cbn [mbind option_bind]. by rewrite msteps_run_cons.
Qed.

(** Without a reload, the configuration stays. *)
Lemma mstep_live m y y' :
  other_thread m = true → is_reload m = false → mstep_run m y = Some y' → live (y_state y') = live (y_state y).
Proof.
  intros Hm Hr Hy. unfold other_thread in Hm. destruct (policy_step m) eqn:Hp.
  - pose proof (policy_step_side m Hp) as Hs. rewrite <- (unite_eta y) in Hy.
    apply (on_policies_eq _ _ _ _ Hs) in Hy. by rewrite Hy.
  - clear Hp. destruct m as [[utc frame now|now|now|describe v k body|dir]|utc frame now|st]; try done;
      cbn [mstep_run sys_step] in Hy.
    + unfold handle_frame in Hy. destruct (parse_frame frame) as [[[[[c src] dst] seg]|]|];
        [|by injection Hy as <-|done]. cbn [mbind option_bind] in Hy.
      destruct (Sniffer.dispatch _ _ _ _ _ _ _ _ _ _) as [[ft ws] calls]. by injection Hy as <-.
    + destruct (handle_frame _ _ _ _ _ _) as [[[s ft] ws]|]; [|done]. by injection Hy as <-.
    + by injection Hy as <-.
Qed.

Lemma msteps_live ms y y' :
  Forall (λ m, other_thread m = true) ms → Forall (λ m, is_reload m = false) ms →
  msteps_run ms y = Some y' → live (y_state y') = live (y_state y).
Proof.
  intros Ho Hr. revert y. induction Ho as [|m ms Hm _ IH]; intros y; [by intros [= <-]|].
  apply Forall_cons in Hr as [Hrm Hr]. rewrite msteps_run_cons.
  destruct (mstep_run m y) as [y1|] eqn:Hy1; [|done]. intros ->%(IH Hr). by eapply mstep_live.
Qed.

(** A frame is its tables followed by its counter steps. *)
Lemma frame_as_steps utc frame now y y' :
  sys_step y (EFrame utc frame now) = Some y' →
  ∃ cs, msteps_run (Tables utc frame now :: (Count <$> cs)) y = Some y'.
Proof.
  assert (∀ cs y, msteps_run (Count <$> cs) y
    = Some (with_state y (with_counters (y_state y) (foldl exec_step (counters (y_state y)) cs)))) as Hcs.
  { induction cs as [|c cs IH]; intros y0; [by destruct y0 as [[] ? ? ? ?]|].
    rewrite fmap_cons, msteps_run_cons. cbn [mstep_run mbind option_bind]. by rewrite IH. }
  cbn [sys_step]. intros Hy. rewrite <- (unite_eta y). unfold handle_frame in Hy.
  destruct (parse_frame frame) as [[[[[c src] dst] seg]|]|] eqn:Hp; [| |done]; cbn [mbind option_bind] in Hy.
  - destruct (Sniffer.dispatch _ _ _ _ _ _ _ _ _ _) as [[ft ws] calls] eqn:Hd.
    cbn [mbind option_bind] in Hy. injection Hy as <-. exists (concat (call_steps <$> calls)).
    rewrite unite_eta, msteps_run_cons. cbn [mstep_run]. unfold handle_frame. rewrite Hp. cbn [mbind option_bind].
    rewrite Hd. cbn [mbind option_bind]. by rewrite Hcs, <- exec_calls_steps.
  - injection Hy as <-. exists []. rewrite unite_eta, msteps_run_cons. cbn [mstep_run]. unfold handle_frame.
    rewrite Hp. by destruct y.
Qed.
End phases.

(** ** Properties *)

(** C8 (tick_serialisable): let the other threads do anything between the phases
    of a tick (whole frames, requests and reloads, the table updates of a frame,
    single counter steps), with no reload before the counters are read.  The run
    then ends exactly like one in which the tick is a single step: it comes after
    everything that was done before its counters were read and after the requests
    served before its locks were taken, and before the traffic of that time.  It
    panics exactly when that run does.  Every frame is such a sequence of table
    update and counter steps. *)
Theorem tick_serialisable `{HI : HashIter} `{FF : FsFaults} `{CEL : CelEngine} `{YAML : YamlEngine}
    `{CY : ConfigYaml} {E} `{ENF : Enforcer E} {S} `{MS : ManualPolicyStore S} `{CS : ClientStatsStore S}
    (y : System E S) now ms0 ms1 ms2 :
  Forall (λ m, other_thread m = true) (ms0 ++ ms1 ++ ms2) →
  Forall (λ m, is_reload m = false) (ms0 ++ ms1) →
  tick_phases now ms0 ms1 ms2 y
  = msteps_run (ms0 ++ ms1 ++ filter (λ m, policy_step m = true) ms2
                ++ Whole (ETick now) :: filter (λ m, traffic_step m = true) ms2) y
  ∧ ∀ utc frame at_ y1 y2, sys_step y1 (EFrame utc frame at_) = Some y2 →
      ∃ cs, msteps_run (Tables utc frame at_ :: (Count <$> cs)) y1 = Some y2.
Proof.
  intros [Ho0 [Ho1 Ho2]%Forall_app]%Forall_app [Hr0 Hr1]%Forall_app.
  split; [|intros utc frame at_ y1 y2; apply frame_as_steps].
  unfold tick_phases. rewrite msteps_run_app.
  destruct (msteps_run ms0 y) as [y1|] eqn:H1; [|done]. cbn [mbind option_bind]. rewrite msteps_run_app.
  destruct (msteps_run ms1 y1) as [y2|] eqn:H2; [|done]. cbn [mbind option_bind].
  apply msteps_live in H1; [|done..]. apply msteps_live in H2; [|done..].
  transitivity (msteps_run ms2 y2 ≫= locked_step (S := S) (rules (y_state y)) (tick_cooldown (y_state y1))
                 (snapshot_rules (counters (y_state y2))) now); [done|].
  rewrite end_earlier by (done || apply locked_on_policies).
  rewrite msteps_run_app.
  set (ps := filter (λ m, policy_step m = true) ms2).
  assert (on_policies (msteps_run (E := E) (S := S) ps)) as Hps.
  { apply policy_steps_side, Forall_forall. intros x Hx. by apply list_elem_of_filter in Hx as [? _]. }
  destruct (msteps_run ps y2) as [y3|] eqn:H3; [|done]. cbn [mbind option_bind].
  rewrite msteps_run_cons. cbn [mstep_run sys_step]. rewrite <- (unite_eta y2) in H3.
  apply (on_policies_eq _ _ _ _ Hps) in H3.
  assert (live (y_state y3) = live (y_state y2) ∧ counters (y_state y3) = counters (y_state y2))
    as [Hl Hc] by by rewrite H3.
  f_equal. unfold locked_step. rewrite tick_is_locked, Hc. unfold rules, tick_cooldown, daemon_cfg.
  by rewrite Hl, H2, H1.
Qed.

#[local] Existing Instance hash_forward.
#[local] Existing Instance yes_engine.

(** A read-only file system. *)
#[local] Instance read_only : FsFaults := λ op _, match op with OpWrite => Some [] | _ => None end.

(** A daemon without rules, over a directory with a rules file: a reload brings a
    rule. *)
Definition seeded_system : System PermissiveEnforcer MemoryStore :=
  mkSystem (state_new Enforce (lit "any") (mkLive default_config ∅ [])) memory0 flow_table_new ∅
    (<[[] := Dir]> (<[[lit "waf"] := Dir]> (<[rules_d [lit "waf"] := Dir]>
       (<[rules_d [lit "waf"] ++ [lit "a.yaml"] := File (Some (lit "x"))]>
         (<[daemon_yaml [lit "waf"] := File (Some [])]> (<[sets_yaml [lit "waf"] := File (Some [])]> ∅)))))).

Definition a_reload : mstep := Whole (EReload [lit "waf"]).
Definition a_frame : mstep := Whole (EFrame (λ _ _, mkUtc 0 0 0) (demo_frame ++ replicate 20 65) NS).
Definition a_throttle : mstep := Whole (EIpc (λ _, []) (version_info None None) (mkClocks 0 0 0) demo_throttle).

Lemma tick_serialisable_witness :
  tick_phases NS [a_frame] [a_throttle] [a_reload; a_throttle; a_frame] seeded_system
  = msteps_run [a_frame; a_throttle; a_throttle; Whole (ETick NS); a_reload; a_frame] seeded_system.
Proof.
  apply (tick_serialisable seeded_system NS [a_frame] [a_throttle] [a_reload; a_throttle; a_frame]);
    repeat constructor.
Defined.

(** How many rules have counters in the last snapshot, and for each client
    whether it is under an automatic policy. *)
Definition outcome (y : option (System PermissiveEnforcer MemoryStore)) : option (nat * list bool) :=
  (λ y, (size (last_counters (y_state y)),
         (λ p, bool_decide (is_Some (auto_ p.2))) <$> map_to_list (policies (y_state y)))) <$> y.

(** A reload after the rules are read, and a frame after it, cannot be
    serialised: the tick takes the frame's counters, made under the new rules,
    and judges them by the old ones. *)
Lemma reload_inside_tick :
  outcome (tick_phases NS [] [a_reload; a_frame] [] seeded_system) = Some (1%nat, [false])
  ∧ (λ ms, outcome (msteps_run ms seeded_system)) <$> permutations [a_reload; a_frame; Whole (ETick NS)]
    = Some (1%nat, [true]) :: replicate 5 (Some (0%nat, [])).
Proof. split; vm_compute; reflexivity. Qed.
