(* ===== verification/Pipeline.v ===== *)
(** From packets to the packet filter: what a client sends between two ticks
    goes through the sniffer, the counters, the windows, the rules and the
    policies to the entries of the enforcer and the XDP program
    ([crates/microwaf/src/sniffer.rs], [decision.rs], [ebpf.rs],
    [crates/mw-ebpf/src/lib.rs], composed by the threads of [System]). *)

From S2P Require Import Prelude Text Client Rule Window Policy Counters Enforcer Config State Decision Http Sniffer Ebpf Json Wire Store Ipc Live System.

(** ** Growth of a counter in a tick *)

Definition triple_get (m : Metric) (d : Z * Z * Z) : Z :=
  match m with
  | Requests => d.1.1
  | Bytes => d.1.2
  | Connections => d.2
  end.

Lemma add3_head_cons d b v m :
  ∃ b', add3_head d (b :: v) = b' :: v ∧ bucket_get b' m = sat_add (bucket_get b m) (triple_get m d).
Proof. eexists. split; [done|]. by destruct m. Qed.

Lemma shift_ok k v : Forall bucket_ok v → Forall bucket_ok (shift k v).
Proof.
  intros Hv. apply Forall_take, Forall_app. split; [|done]. apply Forall_replicate, bucket0_ok.
Qed.

(** A sum reaches at least what is added to the newest second. *)
Lemma newest_sum w v m d n :
  window_ok w → Forall bucket_ok v → length v = 60%nat → view w = add3_head d v →
  u64_ok (triple_get m d) → (1 ≤ n ≤ 60)%nat → triple_get m d ≤ sw_sum w m n.
Proof.
  intros (_ & _ & Hb) Hv Hl Hview Hd Hn. rewrite sw_sum_view by done.
  pose proof (view_ok _ Hb) as Hvok. rewrite Hview in Hvok |- *.
  destruct v as [|b v]; [done|]. apply Forall_cons in Hv as [Hbok _].
  destruct (add3_head_cons d b v m) as (b' & -> & Hb'). destruct n as [|n]; [lia|].
  cbn [take fmap list_fmap sumZ]. apply Forall_cons in Hvok as [_ Hvok].
  assert (0 ≤ sumZ ((λ b, bucket_get b m) <$> take n v)) as Hrest.
  { apply sumZ_nonneg, Forall_fmap, Forall_take. eapply Forall_impl; [exact Hvok|].
    intros x Hx. by apply (bucket_get_ok _ m) in Hx as [? _]. }
  rewrite Hb'. apply (bucket_get_ok _ m) in Hbok. unfold sat_add, u64_ok in *. lia.
Qed.

Section growth.
Context `{CEL : CelEngine} `{HI : HashIter} {E : Type} `{EL : EnforcerLaws E}.
Implicit Types s : DaemonState E.

(** What the counter of a rule grew since the last tick. *)
Definition growth s (c : ClientId) (r : Rule) : Z :=
  triple_get (r_metric r) (get_rule (counters s) c (r_id r))
  - triple_get (r_metric r) (default (0, 0, 0) (last_counters s !! mkKey c (r_id r))).

Lemma slot_window_ok s now c id :
  state_ok s → window_ok (default (sw_new now) (windows s !! c ≫= (.!! id))).
Proof.
  intros Hs. destruct (windows s !! c) as [rw|] eqn:Ec; cbn [mbind option_bind]; [|apply sw_new_ok].
  destruct (rw !! id) as [x|] eqn:Ex; cbn [default from_option]; [|apply sw_new_ok].
  by apply (ok_windows _ Hs _ _ Ec) in Ex.
Qed.

Lemma growth_exceeds s s' now c r v win :
  state_ok s → (now + tick_cooldown s) / NS ≤ I64_MAX →
  tick s now = Some s' →
  by_rule (counters s) !! mkKey c (r_id r) = Some v →
  windows s' !! c = Some win → windows_ok win →
  0 ≤ r_limit r → r_limit r < growth s c r → exceeds win r.
Proof.
  intros Hs Ht Htick Hv Hw Hwin Hr Hlt.
  destruct (tick_delta_view s _ now c (r_id r) v Hs Ht Htick Hv) as (Hle & Hview & _). cbv zeta in *.
  set (prev := default (0, 0, 0) (last_counters s !! mkKey c (r_id r))) in *.
  set (d := (v.1.1 - prev.1.1, v.1.2 - prev.1.2, v.2 - prev.2)) in *.
  assert (growth s c r = triple_get (r_metric r) d) as Hg.
  { unfold growth, get_rule. rewrite Hv. cbn [default from_option id]. fold prev. by destruct (r_metric r). }
  rewrite Hg in Hlt.
  assert (u64_ok (triple_get (r_metric r) d)) as Hd.
  { pose proof (proj1 (ok_counters _ Hs) _ _ Hv) as (H4 & H5 & H6).
    assert (count3_ok prev) as (H7 & H8 & H9).
    { unfold prev. destruct (last_counters s !! _) as [l|] eqn:El; [by apply (ok_last _ Hs) in El as [? _]|].
      vm_compute. repeat split; discriminate. }
    unfold count3_le in Hle. clear -H4 H5 H6 H7 H8 H9 Hle. unfold u64_ok in *. subst d.
    destruct (r_metric r); cbn; lia. }
  destruct (slot_window_ok s now c (r_id r) Hs) as (_ & _ & Hw0%view_ok).
  set (w0 := default (sw_new now) (windows s !! c ≫= (.!! r_id r))) in *. clearbody w0.
  rewrite Hw in Hview. cbn [mbind option_bind] in Hview.
  unfold exceeds, rw_sum. destruct (win !! r_id r) as [w'|] eqn:Ew'; cbn [default from_option id] in Hview.
  - eapply Z.lt_le_trans; [exact Hlt|]. eapply newest_sum; [by eapply Hwin|..|exact Hview|done|].
    + by apply shift_ok.
    + by apply shift_length, view_length.
    + by destruct (r_window r); cbn; lia.
  - exfalso. pose proof (newest_sum (sw_new now) _ (r_metric r) d 60 (sw_new_ok now)
      (shift_ok (elapsed_secs w0 now) _ Hw0) ltac:(by apply shift_length, view_length) Hview Hd ltac:(lia)) as Hbad.
    assert (sw_sum (sw_new now) (r_metric r) 60 = 0) as H0 by by destruct (r_metric r).
    rewrite H0 in Hbad. lia.
Qed.

Lemma tick_cooldown_pos s : 0 < tick_cooldown s.
Proof. unfold tick_cooldown, from_secs, NS. lia. Qed.

(** A tick enforces every rule whose counter grew past the limit. *)
Lemma tick_enforces_growth s now c r v :
  state_ok s → (now + tick_cooldown s) / NS ≤ I64_MAX →
  r ∈ rules s → by_rule (counters s) !! mkKey c (r_id r) = Some v → r_limit r < growth s c r →
  ∃ s' p a, tick s now = Some s' ∧ state_ok s'
    ∧ policies s' !! c = Some p ∧ auto_ p = Some a ∧ a_until a = now + tick_cooldown s
    ∧ eff_le (action_wants (r_action r)) (merge_policy p now) = true
    ∧ ∀ e, enforcer s' = Some e → supports c = true → in_force e c = merge_policy p now.
Proof.
  intros Hs Ht Hr Hv Hlt. destruct (tick_run s now Hs Ht) as (s1 & Htick & _).
  assert (c ∈ tick_clients (by_rule (counters s)) (policies s)) as Hc.
  { apply elem_of_tick_clients. left. by exists (r_id r), v. }
  destruct (tick_of_client s _ now c Hs Hc Htick) as (win & p & Hct & Hw & Hp & _ & _ & _ & Hok & Hin).
  assert (0 ≤ r_limit r) as Hlim.
  { pose proof (ok_types _ Hs) as Hty. rewrite Forall_forall in Hty. apply Hty in Hr as (_ & [? _] & _). done. }
  assert (exceeds win r) as Hex.
  { eapply (growth_exceeds s _ now c r v win); try done. by eapply (ok_windows _ Hok). }
  pose proof (default_policy_ok s c (ok_policies _ Hs)) as Hpol.
  destruct (client_tick_enforces _ _ _ _ _ _ _ _ _ _ _
    (proj1 (state_data_ok s Hs)) Hpol (tick_cooldown_pos s) Hct) as (_ & Henf & _).
  destruct (Henf r Hr Hex) as (Hle & a & Ha & Hun). by eexists _, p, a.
Qed.
End growth.

(** ** What happens between two ticks *)
Section flood.
Context `{HI : HashIter} `{FF : FsFaults} `{CEL : CelEngine} `{YAML : YamlEngine} `{CY : ConfigYaml}.
Context `{!YamlTyped} {E : Type} `{EL : EnforcerLaws E} {S : Type} `{SL : StatsLaws S}.
Implicit Types (s : DaemonState E) (y : System E S).

Definition is_tick (e : event) : bool := match e with ETick _ => true | _ => false end.

(** No tick, and no change of the rules. *)
Definition between_ticks (e : event) : bool :=
  match e with ETick _ | EReload _ => false | _ => true end.

(** A frame with an HTTP request of [c] that rule [r] matches, on a connection
    that is not a WebSocket. *)
Definition http_hit (r : Rule) (c : ClientId) y (e : event) : bool :=
  match e with
  | EFrame utc frame _ =>
      match parse_frame frame with
      | Some (Some (client, src, dst, TcpSegment sport dport _ payload)) =>
          bool_decide (client = c) && bool_decide (r_protocol r = Http) && matches_port r dport
          && bool_decide ((src, sport, dst, dport) ∉ y_ws y)
          && match detect_http_request payload with
             | Some http =>
                 negb (upgrade_ws http)
                 && match_ok r (http_ctx http (ctx_at utc (state_sets (y_state y)) c dport r 2))
             | None => false
             end
      | _ => false
      end
  | _ => false
  end.

(** The number of such frames in a run. *)
Fixpoint http_hits (r : Rule) (c : ClientId) (evs : list event) y : Z :=
  match evs with
  | [] => 0
  | e :: evs => Z.b2z (http_hit r c y e) + from_option (http_hits r c evs) 0 (sys_step y e)
  end.

Lemma http_hits_nonneg r c evs y : 0 ≤ http_hits r c evs y.
Proof.
  revert y. induction evs as [|e evs IH]; intros y; [done|]. cbn [http_hits].
  assert (0 ≤ from_option (http_hits r c evs) 0 (sys_step y e)) by (destruct (sys_step y e); [apply IH|done]).
  destruct (http_hit r c y e); cbn [Z.b2z]; lia.
Qed.

(** What the steps of this time leave alone. *)
Definition tick_base s : LiveConfig * gmap CounterKey (Z * Z * Z) * option E :=
  (live s, last_counters s, enforcer s).

Lemma ipc_step_keeps y y' describe v k body :
  sys_step y (EIpc describe v k body) = Some y' →
  tick_base (y_state y') = tick_base (y_state y) ∧ counters (y_state y') = counters (y_state y).
Proof.
  cbn [sys_step]. unfold execute. destruct (of_json body) as [req|]; [|by intros [= <-]].
  unfold Ipc.dispatch, throttle, block, clear_manual_throttle, clear_manual_block, clear_manual,
    update_manual, set_manual, replied.
  destruct (rq_kind req); cbn; repeat case_match; simplify_eq/=;
    try (destruct (expiry _ _) as [u|]; cbn [fmap option_fmap option_map mbind option_bind]; [|done]);
    try destruct (persist _ _ _ _); by intros [= <-].
Qed.

Lemma frame_step_keeps y y' utc frame now c rid :
  sys_ok y → event_ok (EFrame utc frame now) → sys_step y (EFrame utc frame now) = Some y' →
  tick_base (y_state y') = tick_base (y_state y)
  ∧ (get_rule (counters (y_state y)) c rid).1.1 ≤ (get_rule (counters (y_state y')) c rid).1.1.
Proof.
  intros (Hs & Hf & _) [Hb Hl]. cbn [sys_step].
  destruct (handle_frame_run utc frame (y_state y) (y_flows y) (y_ws y) now Hb Hl Hs Hf)
    as (s' & ft' & ws' & calls & -> & Hok & _ & _ & -> & Hnone & Hsome). cbn [mbind option_bind].
  intros [= <-]. split; [done|]. cbn [y_state counters with_counters].
  assert (Forall call_ok calls) as Hcalls.
  { destruct (parse_frame_total frame Hb) as (p & Ep & Hp). destruct p as [[[[client src] dst] seg]|].
    2: { by rewrite (Hnone Ep). }
    destruct (Hsome _ _ _ _ Ep) as [Hc _]. destruct (Hp _ eq_refl) as (_ & _ & _ & _ & _ & _ & _ & Hsuf & _).
    apply suffix_length in Hsuf. eapply Forall_impl; [exact Hc|]. intros x Hx.
    eapply (frame_call_ok utc); [|exact Hx]. lia. }
  unfold get_rule. destruct (by_rule (counters (y_state y)) !! mkKey c rid) as [v|] eqn:Hv.
  - destruct (exec_calls_mono _ calls _ v (ok_counters _ Hs) Hcalls Hv) as (v' & -> & Hle & _). exact Hle.
  - cbn [default from_option id fst]. destruct (by_rule (foldl _ _ _) !! _) as [v'|] eqn:Hv'; [|done].
    by apply (ok_counters _ Hok) in Hv' as [[? _] _].
Qed.

(** A frame that is a hit counts. *)
Lemma hit_counts y y' utc frame now r c :
  sys_ok y → r ∈ rules (y_state y) → r_metric r = Requests →
  http_hit r c y (EFrame utc frame now) = true → sys_step y (EFrame utc frame now) = Some y' →
  (get_rule (counters (y_state y')) c (r_id r)).1.1
  = sat_add (get_rule (counters (y_state y)) c (r_id r)).1.1 1.
Proof.
  intros (Hs & _) Hr Hm. cbn [http_hit sys_step]. unfold handle_frame.
  destruct (parse_frame frame) as [[[[[client src] dst] [sport dport syn payload|]]|]|]; try done.
  rewrite !andb_true_iff, !bool_decide_eq_true. intros [[[[-> Hp] Hport] Hws] Hdet].
  destruct (detect_http_request payload) as [http|] eqn:Hhttp; [|done].
  apply andb_true_iff in Hdet as [Hup%negb_true_iff Hmatch]. cbn [mbind option_bind Sniffer.dispatch].
  destruct (dispatch_tcp _ _ _ _ _ _ _ _ _ _ _ _ _) as [[ft' ws'] calls] eqn:Hd.
  intros [= <-]. cbn [y_state counters with_counters].
  assert (r ∈ matching (rules (y_state y)) Http dport) as Hin by by apply matching_spec.
  destruct (http_counted _ _ _ _ _ _ _ _ _ _ _ _ _ _ _ _ http r (counters (y_state y))
    (proj1 (proj2 (ok_rules _ Hs))) Hws Hhttp Hup Hin Hd) as [_ Hg].
  rewrite Hmatch, Hm in Hg. rewrite Hg.
  by destruct (get_rule (counters (y_state y)) c (r_id r)) as [[q b] k].
Qed.

(** The hits of a run are in the counter. *)
Lemma hits_counted evs y y' r c :
  sys_ok y → Forall event_ok evs → Forall (λ e, between_ticks e = true) evs →
  r ∈ rules (y_state y) → r_metric r = Requests → sys_run evs y = Some y' →
  sys_ok y' ∧ tick_base (y_state y') = tick_base (y_state y)
  ∧ ∀ n, n ≤ (get_rule (counters (y_state y)) c (r_id r)).1.1 → n + http_hits r c evs y ≤ U64_MAX →
      n + http_hits r c evs y ≤ (get_rule (counters (y_state y')) c (r_id r)).1.1.
Proof.
  intros Hy Hevs Hbt Hr Hm. revert y Hy Hr.
  induction Hevs as [|e evs He Hevs IH]; intros y Hy Hr.
  { intros [= <-]. split_and!; [done..|]. cbn [http_hits]. lia. }
  apply Forall_cons in Hbt as [Hb Hbt]. specialize (IH Hbt).
  cbn [http_hits sys_run opt_fold]. destruct (sys_step y e) as [y1|] eqn:Hy1; [|done]. intros Hrun.
  cbn [from_option]. pose proof (sys_step_ok y y1 e Hy He Hy1) as Hok1.
  assert (tick_base (y_state y1) = tick_base (y_state y)
    ∧ ∀ n, n ≤ (get_rule (counters (y_state y)) c (r_id r)).1.1 → n + Z.b2z (http_hit r c y e) ≤ U64_MAX →
        n + Z.b2z (http_hit r c y e) ≤ (get_rule (counters (y_state y1)) c (r_id r)).1.1) as [Hbase Hcount].
  { destruct e as [utc frame now|now|now|describe v k body|dir]; try done.
    - destruct (frame_step_keeps y y1 utc frame now c (r_id r) Hy He Hy1) as [? Hle]. split; [done|].
      destruct (http_hit r c y _) eqn:Hh; cbn [Z.b2z]; [|lia].
      rewrite (hit_counts y y1 utc frame now r c Hy Hr Hm Hh Hy1). unfold sat_add. lia.
    - injection Hy1 as <-. split; [done|]. cbn [http_hit Z.b2z y_state]. lia.
    - destruct (ipc_step_keeps y y1 describe v k body Hy1) as [? Hc]. split; [done|].
      rewrite Hc. cbn [http_hit Z.b2z]. lia. }
  destruct (IH y1 Hok1) as (Hok & Hb' & Hrest); [|exact Hrun|].
  { unfold rules in *. unfold tick_base in Hbase. injection Hbase as -> _ _. done. }
  split_and!; [done|congruence|]. intros n Hn Hu. pose proof (http_hits_nonneg r c evs y1).
  specialize (Hcount n Hn ltac:(lia)). specialize (Hrest _ Hcount ltac:(lia)). lia.
Qed.

(** Only a tick touches the enforcer. *)
Lemma step_enforcer y y' e :
  is_tick e = false → sys_step y e = Some y' → enforcer (y_state y') = enforcer (y_state y).
Proof.
  destruct e as [utc frame now|now|now|describe v k body|dir]; [|done|..]; intros _.
  - cbn [sys_step]. unfold handle_frame.
    destruct (parse_frame frame) as [[[[[c src] dst] seg]|]|]; [|by intros [= <-]|done].
    cbn [mbind option_bind]. destruct (Sniffer.dispatch _ _ _ _ _ _ _ _ _ _) as [[ft ws] calls].
    by intros [= <-].
  - by intros [= <-].
  - intros [Hb _]%ipc_step_keeps. by injection Hb.
  - cbn [sys_step]. unfold try_reload.
    destruct (live_load dir (y_fs y)) as [fs [l|err]]; by intros [= <-].
Qed.

Lemma run_enforcer evs y y' :
  Forall (λ e, is_tick e = false) evs → sys_run evs y = Some y' →
  enforcer (y_state y') = enforcer (y_state y).
Proof.
  intros Hevs. revert y. induction Hevs as [|e evs He _ IH]; intros y; [by intros [= <-]|].
  cbn [sys_run opt_fold]. destruct (sys_step y e) as [y1|] eqn:Hy1; [|done].
  intros ->%IH. by eapply step_enforcer.
Qed.
End flood.

(** The counter of the last tick is not above the present one. *)
Lemma first_count_bounds `{CEL : CelEngine} {E} (s : DaemonState E) c rid :
  state_ok s →
  0 ≤ (get_rule (counters s) c rid).1.1
  ∧ (default (0, 0, 0) (last_counters s !! mkKey c rid)).1.1 ≤ (get_rule (counters s) c rid).1.1.
Proof.
  intros Hs. unfold get_rule. destruct (by_rule (counters s) !! mkKey c rid) as [v|] eqn:Hv.
  - pose proof (proj1 (ok_counters _ Hs) _ _ Hv) as ([? _] & _). cbn [default from_option]. split; [done|].
    destruct (last_counters s !! _) as [l|] eqn:Hl; [|done].
    apply (ok_last _ Hs) in Hl as (_ & v' & Hv' & Hle & _). by simplify_eq.
  - cbn [default from_option]. split; [done|]. destruct (last_counters s !! _) as [l|] eqn:Hl; [|done].
    apply (ok_last _ Hs) in Hl as (_ & v' & Hv' & _). by simplify_eq.
Qed.

(** ** Properties *)

(** C3 (flood_is_blocked): let a client send, between two ticks, more HTTP
    requests that a block rule matches than the limit of that rule, mixed with
    any other frames, commands and snapshots.  The next tick puts the client
    under an automatic block for one cooldown, its effective action is then to
    block, and from then until the tick after it, whatever else happens (reloads
    and manual commands included), that is the action in force for the client in
    the enforcer of the daemon, which any enforcer that keeps the promise of the
    trait may be.  (No code hands the entries of [BpfEnforcer] to the kernel:
    [Ebpf.xdp_empty_map_passes].) *)
Theorem flood_is_blocked `{HI : HashIter} `{FF : FsFaults} `{CEL : CelEngine} `{YAML : YamlEngine}
    `{CY : ConfigYaml} `{!YamlTyped} {E} `{EL : EnforcerLaws E} {S} `{SL : StatsLaws S}
    (y y1 : System E S) evs r c now :
  let cooldown := tick_cooldown (y_state y) in
  let hits := http_hits r c evs y in
  sys_ok y → Forall event_ok evs → Forall (λ e, between_ticks e = true) evs → sys_run evs y = Some y1 →
  r ∈ rules (y_state y) → r_metric r = Requests → r_action r = Block →
  (get_rule (counters (y_state y)) c (r_id r)).1.1 + hits ≤ U64_MAX →
  r_limit r < hits → (now + cooldown) / NS ≤ I64_MAX →
  ∃ y2 p a, sys_step y1 (ETick now) = Some y2 ∧ sys_ok y2
    ∧ policies (y_state y2) !! c = Some p ∧ auto_ p = Some a ∧ a_until a = now + cooldown
    ∧ merge_policy p now = EffBlock
    ∧ ∀ later y3 e,
        Forall (λ e, is_tick e = false) later → sys_run later y2 = Some y3 →
        enforcer (y_state y3) = Some e → supports c = true → in_force e c = EffBlock.
Proof.
  intros cooldown hits Hy Hevs Hbt Hrun Hr Hm Hact Hu Hlim Ht.
  destruct (hits_counted evs y y1 r c Hy Hevs Hbt Hr Hm Hrun) as (Hok1 & Hbase & Hcount).
  specialize (Hcount _ (Z.le_refl _) Hu). fold hits in Hcount. unfold tick_base in Hbase.
  injection Hbase as Hlive Hlast _. pose proof (proj1 Hok1) as Hs1.
  assert (rules (y_state y1) = rules (y_state y)) as Hrules by (unfold rules; by rewrite Hlive).
  assert (tick_cooldown (y_state y1) = cooldown) as Hcd by (unfold tick_cooldown, daemon_cfg; by rewrite Hlive).
  assert (0 ≤ r_limit r) as Hlim0.
  { pose proof (ok_types _ (proj1 Hy)) as Hty. rewrite Forall_forall in Hty. by apply Hty in Hr as (_ & [? _] & _). }
  pose proof (first_count_bounds (y_state y) c (r_id r) (proj1 Hy)) as [Hpos Hprev].
  destruct (by_rule (counters (y_state y1)) !! mkKey c (r_id r)) as [v|] eqn:Hv.
  2: { exfalso. assert (get_rule (counters (y_state y1)) c (r_id r) = (0, 0, 0)) as Hz
         by (unfold get_rule; by rewrite Hv).
       rewrite Hz in Hcount. cbn [fst] in Hcount. lia. }
  destruct (tick_enforces_growth (y_state y1) now c r v Hs1) as (s' & p & a & Hs' & Hok' & Hp & Ha & Hun & Hle & Hin);
    [by rewrite Hcd|by rewrite Hrules|done| |].
  { unfold growth. rewrite Hm, Hlast. cbn [triple_get]. lia. }
  rewrite Hact in Hle. assert (merge_policy p now = EffBlock) as Hblock by by destruct (merge_policy p now).
  assert (sys_step y1 (ETick now) = Some (mkSystem s' (y_store y1) (y_flows y1) (y_ws y1) (y_fs y1))) as Hstep.
  { cbn [sys_step]. by rewrite Hs'. }
  eexists _, p, a. split; [exact Hstep|]. split_and!; [|done|done|by rewrite <- Hcd|done|].
  { by eapply sys_step_ok; [exact Hok1| |exact Hstep]. }
  intros later y3 e Hl Hrun3 He Hsupp. apply run_enforcer in Hrun3; [|done]. rewrite He in Hrun3.
  by rewrite (Hin e (eq_sym Hrun3) Hsupp), Hblock.
Qed.

#[local] Existing Instance hash_forward.
#[local] Existing Instance yes_engine.

(** At most one HTTP request a second, and two requests in two frames. *)
Definition flood_rule : Rule :=
  @Build_Rule yes_engine (lit "h") Http (Some [80]) Requests PerSecond 1 Block 0 None None.

Definition flood_system : System BpfEnforcer MemoryStore :=
  mkSystem (set_enforcer (state_new Enforce (lit "any") (mkLive default_config ∅ [flood_rule]))
              (mkBpf (mkHandle ∅)))
    memory0 flow_table_new ∅ ∅.

Definition flood_frame : list Z := demo_frame ++ lit "GET / HTTP/1.1
".

Definition flood_events : list event :=
  [EFrame demo_utc flood_frame 1; EFrame demo_utc [1; 2; 3] 2; ESnapshot 3; EFrame demo_utc flood_frame 4].

Lemma flood_system_ok : sys_ok flood_system.
Proof.
  split; [|split; [exact flow_table_new_ok|exists ∅; exact memory0_rel]].
  apply set_enforcer_ok, state_new_ok.
  - split; [vm_compute; lia|]. split; [by apply NoDup_singleton|]. apply Forall_singleton, validate_ok. done.
  - apply Forall_singleton. split_and!; try done. repeat constructor; vm_compute; discriminate.
Qed.

Lemma flood_events_ok : Forall event_ok flood_events.
Proof.
  repeat (apply Forall_cons; split); try done; (split; [apply (bool_decide_unpack _); vm_compute; exact I|done]).
Qed.

Lemma flood_is_blocked_witness :
  ∃ y2 p, sys_run (flood_events ++ [ETick NS]) flood_system = Some y2
    ∧ policies (y_state y2) !! demo_client = Some p ∧ merge_policy p NS = EffBlock
    ∧ ∀ later y3 e, Forall (λ e, is_tick e = false) later → sys_run later y2 = Some y3 →
        enforcer (y_state y3) = Some e → in_force e demo_client = EffBlock.
Proof.
  destruct (sys_run flood_events flood_system) as [y1|] eqn:Hrun.
  2: { exfalso. assert (from_option (λ _, true) false (sys_run flood_events flood_system) = true) as Ht
         by (vm_compute; reflexivity). by rewrite Hrun in Ht. }
  destruct (flood_is_blocked flood_system y1 flood_events flood_rule demo_client NS flood_system_ok
    flood_events_ok) as (y2 & p & a & Hstep & _ & Hp & _ & _ & Hblock & Hin).
  - repeat constructor.
  - exact Hrun.
  - left.
  - reflexivity.
  - reflexivity.
  - vm_compute. discriminate.
  - vm_compute. reflexivity.
  - vm_compute. discriminate.
  - exists y2, p. split; [|split; [exact Hp|split; [exact Hblock|]]].
    + unfold sys_run in *. rewrite opt_fold_app, Hrun. cbn [mbind option_bind opt_fold]. by rewrite Hstep.
    + intros later y3 e Hl Hr He. apply (Hin later y3 e Hl Hr He). reflexivity.
Defined.
