(* ===== verification/Loader.v ===== *)
(** The BPF object on its way into the kernel: the build script that finds or
    builds it and puts it where the daemon embeds it ([crates/microwaf/build.rs]),
    and the loader that reads and attaches it ([crates/microwaf/src/ebpf.rs]).
    [cargo] and the crate [aya] are parameters. *)

From S2P Require Import Prelude Text Client Rule Window Policy Counters Enforcer Config State Decision Sniffer Ebpf Json Wire Store Ipc Sdk Top Cli Live System Daemon.

(** ** Files of bytes

    As the files of [Live], with the faults of [FsFaults], but holding bytes. *)
Inductive Entry := ADir | AFile (bytes : list Z).

#[export] Instance entry_eq_dec : EqDecision Entry.
Proof. solve_decision. Defined.

Abbreviation Disk := (gmap path Entry).

Inductive DiskError := DiskFault (op : fs_op) (p : path).
Abbreviation DiskM := (SE Disk DiskError).

Section disk.
Context `{FF : FsFaults}.

(** [Path::is_file]: an error counts as no. *)
Definition disk_is_file (d : Disk) (p : path) : bool :=
  match fault OpStat p, d !! p with
  | None, Some (AFile _) => true
  | _, _ => false
  end.

(** [fs::read]. *)
Definition disk_read (p : path) : DiskM (list Z) := λ d,
  match fault OpRead p, d !! p with
  | None, Some (AFile bytes) => (d, Ok bytes)
  | _, _ => (d, Err (DiskFault OpRead p))
  end.

(** [fs::write]. *)
Definition disk_write (p : path) (bytes : list Z) : DiskM () := λ d,
  match fault OpWrite p, d !! removelast p, d !! p with
  | None, Some ADir, Some ADir => (d, Err (DiskFault OpWrite p))
  | None, Some ADir, _ => (<[p := AFile bytes]> d, Ok tt)
  | _, _, _ => (d, Err (DiskFault OpWrite p))
  end.

(** [fs::create_dir_all]; the empty path is the current directory. *)
Definition disk_mkdir (p : path) : DiskM () := λ d,
  if bool_decide (p = []) then (d, Ok tt)
  else if bool_decide (d !! p = Some ADir) then (d, Ok tt)
  else if bool_decide (fault OpMkdir p = None)
          && negb (existsb (λ q, match d !! q with Some (AFile _) => true | _ => false end) (prefixes p))
  then (foldr (λ q d, <[q := ADir]> d) d (prefixes p), Ok tt)
  else (d, Err (DiskFault OpMkdir p)).

(** [fs::copy]: the target is truncated before the source is read. *)
Definition disk_copy (src dest : path) : DiskM () :=
  bytes ← disk_read src;
  disk_write dest (if bool_decide (src = dest) then [] else bytes).
End disk.

(** [Path::parent]: none for the empty path and for the root. *)
Definition path_parent (p : path) : option path :=
  if bool_decide (p = [] ∨ p = [[47]]) then None else Some (removelast p).

(** ** The build script *)
Inductive Directive :=
| RerunIfChanged (file : str)
| RerunIfEnvChanged (var : str)
| RustcEnv (var : str) (file : path).

Inductive BuildError :=
| NotAFile (p : path)
| SpawnFailed (e : str)
| CargoFailed
| OutMissing (out : path).

(** A call of cargo: arguments, directory, the directory put before [PATH], the
    old [PATH], and the target directory. *)
Record CargoCall := mkCargo {
  cg_args : list str;
  cg_dir : path;
  cg_path_first : option path;
  cg_path : str;
  cg_target : path
}.

(** What the call does to the files, and whether it is successful. *)
Class Cargo := cargo_status : CargoCall → Disk → Disk * result bool str.

Definition bpf_candidates (workspace_root : path) : list path :=
  [workspace_root ++ [lit "target"; lit "bpfel-unknown-none"; lit "release"; lit "libmw_ebpf.so"];
   workspace_root ++ [lit "target"; lit "bpfel-unknown-none"; lit "debug"; lit "libmw_ebpf.so"];
   workspace_root ++ [lit "dist"; lit "libmw_ebpf.so"]].

Definition BPF_OBJECT_VAR : str := lit "MICROWAF_BPF_OBJECT".
Definition BPF_EXTRACT_VAR : str := lit "MICROWAF_BPF_EXTRACT".

Section build.
Context `{FF : FsFaults} `{CG : Cargo} (env : str → option str).

Definition bpf_cargo_call (workspace_root : path) : CargoCall :=
  mkCargo [lit "+nightly"; lit "build"; lit "--release"] (workspace_root ++ [lit "crates"; lit "mw-ebpf"])
    ((λ home, components home ++ [lit ".cargo"; lit "bin"]) <$> env (lit "HOME"))
    (default [] (env (lit "PATH"))) (workspace_root ++ [lit "target"]).

Definition build_bpf_object (workspace_root : path) : SE Disk BuildError path := λ d,
  let out := workspace_root ++ [lit "target"; lit "bpfel-unknown-none"; lit "release"; lit "libmw_ebpf.so"] in
  match cargo_status (bpf_cargo_call workspace_root) d with
  | (d, Err e) => (d, Err (SpawnFailed e))
  | (d, Ok false) => (d, Err CargoFailed)
  | (d, Ok true) => if disk_is_file d out then (d, Ok out) else (d, Err (OutMissing out))
  end.

Definition resolve_bpf_object (workspace_root : path) : SE Disk BuildError path := λ d,
  match env BPF_OBJECT_VAR with
  | Some p =>
      if disk_is_file d (components p) then (d, Ok (components p)) else (d, Err (NotAFile (components p)))
  | None =>
      match List.find (disk_is_file d) (bpf_candidates workspace_root) with
      | Some p => (d, Ok p)
      | None => build_bpf_object workspace_root d
      end
  end.

Definition build_reruns : list Directive :=
  [RerunIfChanged (lit "../mw-ebpf/src/lib.rs"); RerunIfChanged (lit "../mw-ebpf/Cargo.toml");
   RerunIfChanged (lit "../mw-ebpf/.cargo/config.toml"); RerunIfEnvChanged BPF_OBJECT_VAR;
   RerunIfEnvChanged (lit "CARGO_FEATURE_EBPF")].

(** [main] of the script: the files and the printed directives.  [None] is a
    panic, which fails the build. *)
Definition build_main (d : Disk) : option (Disk * list Directive) :=
  match env (lit "CARGO_FEATURE_EBPF") with
  | None => Some (d, build_reruns)
  | Some _ =>
      manifest_dir ← env (lit "CARGO_MANIFEST_DIR");
      crates ← path_parent (components manifest_dir);
      workspace_root ← path_parent crates;
      out_dir ← env (lit "OUT_DIR");
      let dest := components out_dir ++ [lit "libmw_ebpf.so"] in
      match resolve_bpf_object workspace_root d with
      | (d, Err _) => None
      | (d, Ok src) =>
          match disk_copy src dest d with
          | (d, Ok _) => Some (d, build_reruns ++ [RustcEnv (lit "MICROWAF_BPF_SOURCE") src])
          | (d, Err _) => None
          end
      end
  end.
End build.

(** ** The crate [aya]

    A loaded object; each step may fail. *)
Class Aya := {
  Bpf : Type;
  ebpf_load : list Z → result Bpf str;
  program_mut : Bpf → str → option (result () str);   (* the program as an XDP program *)
  prog_load : Bpf → result Bpf str;
  prog_attach : Bpf → str → result Bpf str;
  take_map : Bpf → str → option (Bpf * result () str)  (* the map with its key and value sizes *)
}.

(** Documented behaviour: the object is attached to exactly the interfaces it
    was attached to. *)
Class AyaLaws `{AY : Aya} := {
  links : Bpf → list str;
  load_links bytes b : ebpf_load bytes = Ok b → links b = [];
  prog_load_links b b' : prog_load b = Ok b' → links b' = links b;
  attach_links b i b' : prog_attach b i = Ok b' → links b' = links b ++ [i];
  take_map_links b m b' r : take_map b m = Some (b', r) → links b' = links b
}.

Inductive AttachError :=
| ReadObject (file : str)
| Mkdir (dir : path)
| ExtractObject (file : str)
| ParseObject (e : str)
| MissingProgram
| NotXdp (e : str)
| ProgramLoad (e : str)
| AttachFailed (iface e : str)
| MissingMap
| MapType (e : str).

(** [with_context]. *)
Definition context {S A B F} (f : B) (m : SE S A F) : SE S B F := λ s,
  match m s with
  | (s, Ok x) => (s, Ok x)
  | (s, Err _) => (s, Err f)
  end.
Arguments context {S A B F} f m.

Section loader.
Context `{FF : FsFaults} `{AY : Aya} (env : str → option str) (EMBEDDED_BPF : list Z).

Definition bpf_object_bytes : SE Disk AttachError (list Z) :=
  match env BPF_OBJECT_VAR with
  | Some p => context (ReadObject p) (disk_read (components p))
  | None =>
      _ ← match env BPF_EXTRACT_VAR with
          | Some extract =>
              _ ← match path_parent (components extract) with
                  | Some parent => context (Mkdir parent) (disk_mkdir parent)
                  | None => mret tt
                  end;
              context (ExtractObject extract) (disk_write (components extract) EMBEDDED_BPF)
          | None => mret tt
          end;
      mret EMBEDDED_BPF
  end.

Fixpoint attach_each (interfaces : list str) (b : Bpf) : result Bpf AttachError :=
  match interfaces with
  | [] => Ok b
  | i :: interfaces' =>
      match prog_attach b i with
      | Ok b => attach_each interfaces' b
      | Err e => Err (AttachFailed i e)
      end
  end.

(** The object stays in the kernel ([mem::forget]); its map is dropped. *)
Definition attach_object (bytes : list Z) (interfaces : list str) : result (Bpf * BpfHandle) AttachError :=
  (let? b := map_err ParseObject (ebpf_load bytes) in
   let? _ := match program_mut b (lit "microwaf") with
             | None => Err MissingProgram
             | Some r => map_err NotXdp r
             end in
   let? b := map_err ProgramLoad (prog_load b) in
   let? b := attach_each interfaces b in
   match take_map b (lit "CLIENT_POLICY") with
   | None => Err MissingMap
   | Some (b, r) => let? _ := map_err MapType r in Ok (b, mkHandle ∅)
   end)%mwaf.

Definition load_and_attach_aya_multi (interfaces : list str) : SE Disk AttachError (Bpf * BpfHandle) :=
  bytes ← bpf_object_bytes;
  se_lift (attach_object bytes interfaces).

(** The loader that the start of the daemon uses, over the files of that time;
    the error texts are only logged. *)
Definition aya_loader (show : AttachError → str) (d : Disk) : XdpLoader :=
  Some (λ ifaces, match (load_and_attach_aya_multi ifaces d).2 with
                  | Ok _ => Ok tt
                  | Err e => Err (show e)
                  end).
End loader.

(** ** Lemmas *)

(** Where the build takes the object from, and the files then: the file that the
    environment names; else the first candidate that is a file; else what a
    successful cargo leaves at the first candidate. *)
Definition object_source `{FF : FsFaults} `{CG : Cargo} (env : str → option str) (root : path) (d : Disk)
    (src : path) (d1 : Disk) : Prop :=
  disk_is_file d1 src = true
  ∧ match env BPF_OBJECT_VAR with
    | Some p => src = components p ∧ d1 = d
    | None =>
        (d1 = d ∧ ∃ pre post, bpf_candidates root = pre ++ src :: post
           ∧ Forall (λ p, disk_is_file d p = false) pre)
        ∨ (Forall (λ p, disk_is_file d p = false) (bpf_candidates root)
           ∧ cargo_status (bpf_cargo_call env root) d = (d1, Ok true)
           ∧ head (bpf_candidates root) = Some src)
    end.

Lemma find_first {A} (f : A → bool) l :
  match List.find f l with
  | Some x => f x = true ∧ ∃ pre post, l = pre ++ x :: post ∧ Forall (λ y, f y = false) pre
  | None => Forall (λ y, f y = false) l
  end.
Proof.
  induction l as [|a l IH]; cbn [List.find]; [constructor|]. destruct (f a) eqn:Ha.
  - split; [done|]. by exists [], l.
  - destruct (List.find f l) as [x|]; [|by constructor].
    destruct IH as (Hx & pre & post & -> & Hpre). split; [done|]. exists (a :: pre), post.
    split; [done|by constructor].
Qed.

Lemma resolve_source `{FF : FsFaults} `{CG : Cargo} env root d d1 src :
  resolve_bpf_object env root d = (d1, Ok src) → object_source env root d src d1.
Proof.
  unfold resolve_bpf_object, object_source. destruct (env BPF_OBJECT_VAR) as [p|].
  { destruct (disk_is_file d (components p)) eqn:Hf; [|done]. by intros [= <- <-]. }
  pose proof (find_first (disk_is_file d) (bpf_candidates root)) as Hfind.
  destruct (List.find _ _) as [p|].
  { destruct Hfind as [Hp Hex]. intros [= <- <-]. split; [done|]. by left. }
  unfold build_bpf_object. destruct (cargo_status _ d) as [d2 [[]|e]]; try done.
  destruct (disk_is_file d2 _) eqn:Hf; [|done]. intros [= <- <-]. split; [done|]. by right.
Qed.

Lemma disk_is_file_bytes `{FF : FsFaults} d p : disk_is_file d p = true → ∃ bytes, d !! p = Some (AFile bytes).
Proof.
  unfold disk_is_file. destruct (fault OpStat p); [done|]. destruct (d !! p) as [[|bytes]|]; [done| |done].
  by exists bytes.
Qed.

Lemma disk_copy_Ok `{FF : FsFaults} src dest d d' bytes :
  d !! src = Some (AFile bytes) → disk_copy src dest d = (d', Ok tt) →
  d' = <[dest := AFile (if bool_decide (src = dest) then [] else bytes)]> d.
Proof.
  intros Hsrc. unfold disk_copy. rewrite se_bind_run. unfold disk_read. rewrite Hsrc.
  destruct (fault OpRead src); [done|]. unfold disk_write.
  destruct (fault OpWrite dest); [done|]. destruct (d !! removelast dest) as [[|]|]; [|done..].
  destruct (d !! dest) as [[|]|]; [done|..]; by intros [= <-].
Qed.

Section attach.
Context `{FF : FsFaults} `{AL : AyaLaws}.

Lemma attach_each_links ifaces b b' : attach_each ifaces b = Ok b' → links b' = links b ++ ifaces.
Proof.
  revert b. induction ifaces as [|i ifaces IH]; intros b; cbn [attach_each].
  { intros [= <-]. by rewrite app_nil_r. }
  destruct (prog_attach b i) as [b1|e] eqn:Hb; [|done]. intros ->%IH.
  by rewrite (attach_links _ _ _ Hb), <- app_assoc.
Qed.

Lemma attach_object_Ok bytes ifaces b h :
  attach_object bytes ifaces = Ok (b, h) →
  h = mkHandle ∅ ∧ links b = ifaces ∧ is_ok (ebpf_load bytes) = true.
Proof.
  unfold attach_object. destruct (ebpf_load bytes) as [b0|e] eqn:H0; [|done]. cbn [map_err res_bind].
  destruct (program_mut b0 _) as [[[]|e]|]; [|done..]. cbn [map_err res_bind].
  destruct (prog_load b0) as [b1|e] eqn:H1; [|done]. cbn [map_err res_bind].
  destruct (attach_each ifaces b1) as [b2|e] eqn:H2; [|done]. cbn [res_bind].
  destruct (take_map b2 _) as [[b3 [[]|e]]|] eqn:H3; [|done..]. cbn [map_err res_bind]. intros [= <- <-].
  split; [done|]. split; [|done].
  by rewrite (take_map_links _ _ _ _ H3), (attach_each_links _ _ _ H2), (prog_load_links _ _ H1),
    (load_links _ _ H0).
Qed.

(** Creating directories makes only directories, where there was nothing. *)
Definition new_dirs (p : path) (d d' : Disk) : Prop :=
  ∀ q, d' !! q = d !! q ∨ (d !! q = None ∧ d' !! q = Some ADir ∧ q ∈ prefixes p).

#[local] Opaque prefixes.

Lemma disk_mkdir_new p d d' r : disk_mkdir p d = (d', r) → new_dirs p d d'.
Proof.
  unfold disk_mkdir. case_bool_decide; [intros [= <- <-]; by left|].
  case_bool_decide; [intros [= <- <-]; by left|]. destruct (_ && _) eqn:Hok; intros [= <- <-]; [|by left].
  apply andb_true_iff in Hok as [_ Hok%negb_true_iff]. intros q.
  assert (∀ ps : list path, foldr (λ q d, <[q := ADir]> d) d ps !! q = if decide (q ∈ ps) then Some ADir else d !! q) as Hl.
  { intros ps. induction ps as [|x ps IH]; cbn [foldr]; [done|]. destruct (decide (q = x)) as [->|Hne].
    - by rewrite lookup_insert_eq, decide_True by left.
    - rewrite lookup_insert_ne, IH by done. repeat case_decide; set_solver. }
  rewrite Hl. case_decide as Hq; [|by left]. destruct (d !! q) as [[|bytes]|] eqn:Hdq; [by left| |by right].
  exfalso. apply not_true_iff_false in Hok. apply Hok, existsb_exists. exists q.
  split; [by apply list_elem_of_In|by rewrite Hdq].
Qed.

(** Which bytes are loaded. *)
Lemma bpf_object_bytes_Ok env embedded d d' bytes :
  bpf_object_bytes env embedded d = (d', Ok bytes) →
  match env BPF_OBJECT_VAR with
  | Some p => d' = d ∧ d !! components p = Some (AFile bytes)
  | None => bytes = embedded
      ∧ match env BPF_EXTRACT_VAR with
        | Some p => d' !! components p = Some (AFile embedded)
            ∧ ∀ q, q ≠ components p →
                d' !! q = d !! q
                ∨ (d !! q = None ∧ d' !! q = Some ADir ∧ q ∈ prefixes (removelast (components p)))
        | None => d' = d
        end
  end.
Proof.
  unfold bpf_object_bytes. destruct (env BPF_OBJECT_VAR) as [p|].
  { unfold context, disk_read. destruct (fault OpRead _); [done|].
    destruct (d !! components p) as [[|]|]; [done| |done]. by intros [= <- <-]. }
  destruct (env BPF_EXTRACT_VAR) as [p|]; [|by intros [= <- <-]].
  intros (d1 & [] & Hw & [= <- <-])%se_bind_Ok. split; [done|].
  apply se_bind_Ok in Hw as (d2 & [] & Hdir & Hw).
  assert (new_dirs (removelast (components p)) d d2) as Hnew.
  { unfold path_parent in Hdir. case_bool_decide; [injection Hdir as <-; by left|].
    unfold context in Hdir. destruct (disk_mkdir _ d) as [d3 [[]|e]] eqn:Hm; [|done]. injection Hdir as <-.
    by eapply disk_mkdir_new. }
  unfold context, disk_write in Hw.
  destruct (fault OpWrite _); [done|]. destruct (d2 !! removelast _) as [[|]|]; [|done..].
  destruct (d2 !! components p) as [[|]|]; [done|..]; injection Hw as <-;
    (split; [by rewrite lookup_insert_eq|]); intros q Hq; rewrite lookup_insert_ne by done; apply Hnew.
Qed.

(** Which interfaces the daemon asks for. *)
Definition targets `{NI : NetIfaces} (i : str) (ifaces : list str) : Prop :=
  if is_any i then list_attachable = Ok ifaces ∧ ifaces ≠ [] else ifaces = [i].

Lemma choose_enforcer_aya `{NI : NetIfaces} env embedded show rd i :
  let attached := ∃ ifaces rd' b, targets i ifaces
    ∧ load_and_attach_aya_multi env embedded ifaces rd = (rd', Ok (b, mkHandle ∅)) ∧ links b = ifaces in
  (attached ∧ choose_enforcer (XL := aya_loader env embedded show rd) Enforce i = DBpf (mkBpf (mkHandle ∅)))
  ∨ (¬ attached ∧ choose_enforcer (XL := aya_loader env embedded show rd) Enforce i
                  = DPermissive (mkPermissive (mkLog ∅))).
Proof.
  intros attached. unfold choose_enforcer, load_and_attach, aya_loader, attach_xdp.
  assert (∀ ifaces, targets i ifaces →
    let r := (load_and_attach_aya_multi env embedded ifaces rd).2 in
    (is_ok r = true → attached) ∧ (attached → is_ok r = true)) as Hload.
  { intros ifaces Ht r. split.
    - intros Hr. exists ifaces. subst r. unfold load_and_attach_aya_multi in *. rewrite se_bind_run in *.
      destruct (bpf_object_bytes env embedded rd) as [rd1 [loaded|e]]; [|done]. cbn [snd se_lift] in *.
      destruct (attach_object loaded ifaces) as [[b h]|e] eqn:Ha; [|done].
      destruct (attach_object_Ok _ _ _ _ Ha) as (-> & Hl & _). by exists rd1, b.
    - intros (ifaces' & rd' & b & Ht' & Hr & _). assert (ifaces' = ifaces) as ->.
      { unfold targets in *. destruct (is_any i); [|congruence]. destruct Ht as [Ht _], Ht' as [Ht' _].
        rewrite Ht in Ht'. by injection Ht'. }
      subst r. by rewrite Hr. }
  assert ((∀ ifaces, ¬ targets i ifaces) → ¬ attached) as Hno.
  { intros Hn (ifaces & _ & _ & Ht & _). by eapply Hn. }
  unfold targets in Hload, Hno. destruct (is_any i) eqn:Hany.
  - destruct list_attachable as [ifaces|e] eqn:Hla; cbn [res_bind].
    + case_bool_decide as He; cbn [res_bind].
      * right. split; [|done]. apply Hno. intros l [[= <-] Hne]. done.
      * destruct (Hload ifaces (conj eq_refl He)) as [H1 H2].
        destruct (load_and_attach_aya_multi env embedded ifaces rd).2; cbn [res_bind is_ok] in *; [left; auto|].
        right. split; [|done]. intros Hx. by specialize (H2 Hx).
    + right. split; [|done]. apply Hno. by intros l [? _].
  - destruct (Hload [i] eq_refl) as [H1 H2]. cbn [res_bind].
    destruct (load_and_attach_aya_multi env embedded [i] rd).2; cbn [res_bind is_ok] in *; [left; auto|].
    right. split; [|done]. intros Hx. by specialize (H2 Hx).
Qed.
End attach.

(** ** Properties *)

(** C13 (object_reaches_the_kernel): a build with the [ebpf] feature that
    succeeds embeds exactly the bytes of the object it chose, unless that is the
    file it copies to, which the copy empties: the file named by
    [MICROWAF_BPF_OBJECT], or an error if that is no file; else the first
    existing candidate; cargo runs only when there is none.  A daemon with these
    bytes that loads an object loads them, or the file that its own
    [MICROWAF_BPF_OBJECT] names, attaches it to exactly the given interfaces in
    order, and starts with an empty table of policies.  It writes nothing, but
    for [MICROWAF_BPF_EXTRACT], which without [MICROWAF_BPF_OBJECT] makes it
    write the bytes to the file named there and create missing directories on the
    way to it, nothing else.  In enforce mode the daemon enforces exactly when
    the object is attached to its interface, or for [any] to all attachable ones,
    of which there must be one; otherwise it starts with the enforcer that only
    logs. *)
Theorem object_reaches_the_kernel `{FF : FsFaults} `{CG : Cargo} `{AL : AyaLaws} benv d d' out f :
  benv (lit "CARGO_FEATURE_EBPF") = Some f → build_main benv d = Some (d', out) →
  ∃ root out_dir src d1 bytes,
    let dest := components out_dir ++ [lit "libmw_ebpf.so"] in
    benv (lit "OUT_DIR") = Some out_dir
    ∧ object_source benv root d src d1 ∧ d1 !! src = Some (AFile bytes)
    ∧ out = build_reruns ++ [RustcEnv (lit "MICROWAF_BPF_SOURCE") src]
    ∧ d' = <[dest := AFile (if bool_decide (src = dest) then [] else bytes)]> d1
    ∧ ∀ embedded renv rd, d' !! dest = Some (AFile embedded) →
        (∀ ifaces rd' b h, load_and_attach_aya_multi renv embedded ifaces rd = (rd', Ok (b, h)) →
           h = mkHandle ∅ ∧ links b = ifaces
           ∧ ∃ loaded, is_ok (ebpf_load loaded) = true
             ∧ match renv BPF_OBJECT_VAR, renv BPF_EXTRACT_VAR with
               | Some p, _ => rd' = rd ∧ rd !! components p = Some (AFile loaded)
               | None, Some p => loaded = embedded ∧ rd' !! components p = Some (AFile loaded)
                   ∧ ∀ q, q ≠ components p →
                       rd' !! q = rd !! q
                       ∨ (rd !! q = None ∧ rd' !! q = Some ADir ∧ q ∈ prefixes (removelast (components p)))
               | None, None => loaded = embedded ∧ rd' = rd
               end)
        ∧ ∀ (NI : NetIfaces) show i,
            let attached := ∃ ifaces rd' b,
              (if is_any i then list_attachable = Ok ifaces ∧ ifaces ≠ [] else ifaces = [i])
              ∧ load_and_attach_aya_multi renv embedded ifaces rd = (rd', Ok (b, mkHandle ∅))
              ∧ links b = ifaces in
            let chosen := choose_enforcer (XL := aya_loader renv embedded show rd) Enforce i in
            (attached ∧ chosen = DBpf (mkBpf (mkHandle ∅)))
            ∨ (¬ attached ∧ chosen = DPermissive (mkPermissive (mkLog ∅))).
Proof.
  intros Hf. unfold build_main. rewrite Hf.
  intros (md & _ & (crates & _ & (root & _ & (out_dir & Hout & Hm)%bind_Some)%bind_Some)%bind_Some)%bind_Some.
  destruct (resolve_bpf_object benv root d) as [d1 [src|e]] eqn:Hres; [|done].
  apply resolve_source in Hres as Hsrc. destruct (disk_is_file_bytes _ _ (proj1 Hsrc)) as [bytes Hbytes].
  destruct (disk_copy src _ d1) as [d2 [[]|e]] eqn:Hcopy; [|done]. injection Hm as <- <-.
  apply (disk_copy_Ok _ _ _ _ _ Hbytes) in Hcopy.
  exists root, out_dir, src, d1, bytes. cbv zeta.
  split; [exact Hout|]. split; [exact Hsrc|]. split; [exact Hbytes|]. split; [done|]. split; [exact Hcopy|].
  intros embedded renv rd _. split; [|intros NI show i; apply choose_enforcer_aya].
  intros ifaces rd' b h Hload. unfold load_and_attach_aya_multi in Hload.
  apply se_bind_Ok in Hload as (rd1 & loaded & Hb & Ha). injection Ha as <- Ha.
  apply attach_object_Ok in Ha as (-> & Hl & Hok). split; [done|]. split; [done|].
  exists loaded. split; [done|]. apply bpf_object_bytes_Ok in Hb.
  destruct (renv BPF_OBJECT_VAR); [done|]. destruct Hb as [-> Hb]. by destruct (renv BPF_EXTRACT_VAR).
Qed.

(** A crate that loads every object, a cargo that is never installed, and a
    checkout whose [dist] directory has an object. *)
#[local] Instance demo_aya : Aya := {|
  Bpf := list str;
  ebpf_load _ := Ok [];
  program_mut _ _ := Some (Ok tt);
  prog_load b := Ok b;
  prog_attach b i := Ok (b ++ [i]);
  take_map b _ := Some (b, Ok tt)
|}.

#[local] Instance demo_aya_laws : AyaLaws.
Proof.
  refine {| links := λ b, b : list str |}; cbn; intros; congruence.
Defined.

#[local] Instance no_cargo : Cargo := λ _ d, (d, Err (lit "No such file or directory")).

Definition demo_env (v : str) : option str :=
  if decide (v = lit "CARGO_FEATURE_EBPF") then Some (lit "1")
  else if decide (v = lit "CARGO_MANIFEST_DIR") then Some (lit "/w/crates/microwaf")
  else if decide (v = lit "OUT_DIR") then Some (lit "/o") else None.

Definition demo_checkout : Disk :=
  <[components (lit "/o") := ADir]>
    {[ components (lit "/w/dist/libmw_ebpf.so") := AFile [127; 69; 76; 70] ]}.

Definition demo_dest : path := components (lit "/o/libmw_ebpf.so").

Lemma object_reaches_the_kernel_witness :
  ∃ d' out, build_main demo_env demo_checkout = Some (d', out)
    ∧ d' !! demo_dest = Some (AFile [127; 69; 76; 70])
    ∧ ∀ rd' b h, load_and_attach_aya_multi (λ _, None) [127; 69; 76; 70] [lit "eth0"; lit "eth1"] ∅
        = (rd', Ok (b, h)) → h = mkHandle ∅ ∧ links b = [lit "eth0"; lit "eth1"].
Proof.
  destruct (build_main demo_env demo_checkout) as [[d' out]|] eqn:Hb.
  2: { exfalso. assert (is_Some (build_main demo_env demo_checkout)) as [x Hx]
         by (apply (bool_decide_unpack _); vm_compute; exact I). by rewrite Hb in Hx. }
  assert ((λ x, x.1 !! demo_dest) <$> build_main demo_env demo_checkout
    = Some (Some (AFile [127; 69; 76; 70]))) as Hd by (vm_compute; reflexivity).
  rewrite Hb in Hd. injection Hd as Hd. cbn [fst] in Hd.
  exists d', out. split; [done|]. split; [exact Hd|].
  destruct (object_reaches_the_kernel demo_env demo_checkout d' out (lit "1") ltac:(vm_compute; reflexivity) Hb)
    as (root & out_dir & src & d1 & bytes & Hout & _ & _ & _ & _ & Hload).
  vm_compute in Hout. injection Hout as <-.
  intros rd' b h Hl.
  destruct (Hload [127; 69; 76; 70] (λ _, None) ∅ Hd) as [Ha _].
  destruct (Ha [lit "eth0"; lit "eth1"] rd' b h Hl) as (Hh & Hlinks & _). split; [exact Hh|exact Hlinks].
Defined.
