(* ===== verification/Sighup.v ===== *)
(** SIGHUP and the reload ([setup_sighup] and [watch_loop] of
    [crates/microwaf/src/config.rs]): the signal handler, the bridge thread and
    the watcher thread share two atomic flags.  Each atomic operation is one
    step, in any interleaving; [Daemon.watch_loop] is the watcher at the level of
    whole rounds. *)

From S2P Require Import Prelude Text Client Rule Window Policy Counters Enforcer Config State Decision Sniffer Ebpf Json Wire Store Ipc Sdk Top Cli Live System Daemon.

(** ** The threads *)

(** The bridge is before its [swap], or between it and its [store]. *)
Inductive BridgePc := BSwap | BStore.

(** The watcher waits on its channel, is before its [swap], before its reload, or
    has ended. *)
Inductive WatchPc := WRecv | WSwap (got : bool) | WReload | WEnded.

Record Hup := mkHup {
  flag : bool;
  SIGHUP_FLAG : bool;
  bridge : BridgePc;
  watcher : WatchPc
}.

Definition hup0 : Hup := mkHup false false BSwap WRecv.

(** A signal, a step of the bridge, a step of the watcher (with what the channel
    answers, if it waits), or an event of another thread. *)
Inductive hstep :=
| HSignal
| HBridge
| HWatch (r : Received)
| HOther (e : event).

(** [install_sighup_flag] has the handler store [true]. *)
Definition on_signal (h : Hup) : Hup := mkHup true (SIGHUP_FLAG h) (bridge h) (watcher h).

Definition bridge_step (h : Hup) : Hup :=
  match bridge h with
  | BSwap => mkHup false (SIGHUP_FLAG h) (if flag h then BStore else BSwap) (watcher h)
  | BStore => mkHup (flag h) true BSwap (watcher h)
  end.

(** With whether the configuration is reloaded. *)
Definition watch_step (r : Received) (h : Hup) : Hup * bool :=
  match watcher h with
  | WRecv =>
      (mkHup (flag h) (SIGHUP_FLAG h) (bridge h)
         (match r with Changed => WSwap true | RecvTimeout => WSwap false | Disconnected => WEnded end),
       false)
  | WSwap got =>
      let got := if SIGHUP_FLAG h then true else got in
      (mkHup (flag h) false (bridge h) (if got then WReload else WRecv), false)
  | WReload => (mkHup (flag h) (SIGHUP_FLAG h) (bridge h) WRecv, true)
  | WEnded => (h, false)
  end.

Definition hup_step (st : hstep) (h : Hup) : Hup :=
  match st with
  | HSignal => on_signal h
  | HBridge => bridge_step h
  | HWatch r => (watch_step r h).1
  | HOther _ => h
  end.

Definition hup_run (sts : list hstep) (h : Hup) : Hup := foldl (λ h st, hup_step st h) h sts.

(** The events of the daemon in such a run. *)
Fixpoint hup_events (dir : path) (sts : list hstep) (h : Hup) : list event :=
  match sts with
  | [] => []
  | st :: sts' =>
      (match st with
       | HWatch r => if (watch_step r h).2 then [EReload dir] else []
       | HOther e => [e]
       | _ => []
       end) ++ hup_events dir sts' (hup_step st h)
  end.

Definition count_steps (f : hstep → bool) (sts : list hstep) : nat := length (filter (λ st, f st = true) sts).

Definition is_signal (st : hstep) : bool := match st with HSignal => true | _ => false end.
Definition is_bridge (st : hstep) : bool := match st with HBridge => true | _ => false end.
Definition is_watch (st : hstep) : bool := match st with HWatch _ => true | _ => false end.
Definition is_change (st : hstep) : bool := match st with HWatch Changed => true | _ => false end.
Definition is_closed (st : hstep) : bool := match st with HWatch Disconnected => true | _ => false end.
Definition is_other_reload (st : hstep) : bool := match st with HOther (EReload _) => true | _ => false end.
Definition is_reload (e : event) : bool := match e with EReload _ => true | _ => false end.

Lemma count_steps_cons f st sts : count_steps f (st :: sts) = ((if f st then 1 else 0) + count_steps f sts)%nat.
Proof. unfold count_steps. rewrite filter_cons. by destruct (f st); case_decide. Qed.

(** ** No signal is lost

    How many steps of the bridge it takes until the watcher sees a signal, and
    then how many of the watcher until it reloads. *)
Definition bridge_left (h : Hup) : option nat :=
  match watcher h with
  | WReload => Some 0
  | _ =>
      if SIGHUP_FLAG h then Some 0
      else match bridge h, flag h with
           | BStore, _ => Some 1
           | BSwap, true => Some 2
           | BSwap, false => None
           end
  end%nat.

(** Steps of the watcher to its next reload, when a reload is due. *)
Definition watch_left (w : WatchPc) : nat :=
  match w with
  | WReload => 1
  | WSwap _ => 2
  | WRecv => 3
  | WEnded => 0
  end.

Definition due (dir : path) (evs : list event) : Prop := EReload dir ∈ evs.

(** The invariant of a pending signal, with the steps still to go. *)
Definition pending (n m : nat) (h : Hup) : Prop :=
  watcher h ≠ WEnded ∧ (∃ k, bridge_left h = Some k ∧ (k ≤ n)%nat)
  ∧ (n = 0%nat → (watch_left (watcher h) ≤ m)%nat).

Definition emits (st : hstep) (h : Hup) : bool :=
  match st with HWatch r => (watch_step r h).2 | _ => false end.

(** A step reloads, or leaves the signal pending and no further away. *)
Lemma pending_step n m h st :
  pending n m h → is_closed st = false →
  emits st h = true
  ∨ pending (if is_bridge st then pred n else n)
      (match n with O => if is_watch st then pred m else m | _ => 3%nat end) (hup_step st h).
Proof.
  intros (Hw & (k & Hk & Hkn) & Hm) Hc. destruct h as [f s b w].
  unfold pending, bridge_left in *. cbn [watcher bridge flag SIGHUP_FLAG] in *.
  destruct st as [| |r|e]; cbn [emits is_bridge is_watch hup_step] in *.
  - right. split; [done|]. cbn [on_signal watcher bridge flag SIGHUP_FLAG].
    split; [|destruct n, w; cbn in *; lia].
    destruct w, s, b, f; simplify_eq; eexists; (split; [reflexivity|lia]).
  - right. unfold bridge_step. cbn [watcher bridge flag SIGHUP_FLAG].
    destruct b, f; cbn [watcher bridge flag SIGHUP_FLAG]; (split; [done|]);
      (split; [|destruct n, w; cbn in *; lia]);
      destruct w, s; simplify_eq; eexists; (split; [reflexivity|lia]).
  - destruct w as [|got| |]; cbn [watch_step watcher bridge flag SIGHUP_FLAG fst snd]; [| |by left|done].
    + right. split; [by destruct r|]. split; [|destruct n, r; cbn in *; lia].
      destruct r, s, b, f; simplify_eq; eexists; (split; [reflexivity|lia]).
    + right. split; [by destruct s, got|]. split; [|destruct n, s, got; cbn in *; try lia].
      * destruct s, got, b, f; simplify_eq; eexists; (split; [reflexivity|lia]).
      * destruct b, f; simplify_eq; lia.
  - right. split; [done|]. split; [by exists k|]. destruct n, w; cbn in *; lia.
Qed.

Lemma emits_due dir st sts h : emits st h = true → due dir (hup_events dir (st :: sts) h).
Proof. intros He. unfold due. destruct st; try done. cbn in *. rewrite He. left. Qed.

Lemma due_later dir st sts h : due dir (hup_events dir sts (hup_step st h)) → due dir (hup_events dir (st :: sts) h).
Proof. intros Hd. unfold due. cbn [hup_events]. apply elem_of_app. by right. Qed.

Lemma hup_events_app dir sts sts' h :
  hup_events dir (sts ++ sts') h = hup_events dir sts h ++ hup_events dir sts' (hup_run sts h).
Proof.
  revert h. induction sts as [|st sts IH]; intros h; [done|]. cbn [app hup_events]. by rewrite IH, app_assoc.
Qed.

(** While the bridge runs, the signal comes nearer to the watcher. *)
Lemma bridge_phase dir n h sts :
  pending n 3 h → Forall (λ st, is_closed st = false) sts → (n ≤ count_steps is_bridge sts)%nat →
  due dir (hup_events dir sts h) ∨ pending 0 3 (hup_run sts h).
Proof.
  intros Hp Hc. revert n h Hp. induction Hc as [|st sts Hst _ IH]; intros n h Hp.
  { cbn. intros Hn. right. by assert (n = 0)%nat as -> by lia. }
  rewrite count_steps_cons. intros Hn. destruct (pending_step n 3 h st Hp Hst) as [He|Hp'].
  { left. by apply emits_due. }
  assert (pending (if is_bridge st then pred n else n) 3 (hup_step st h)) as Hp3.
  { destruct Hp' as (Hw & Hk & Hm). split; [done|]. split; [done|]. intros H0. specialize (Hm H0).
    destruct n; [destruct (is_watch st)|]; lia. }
  destruct (IH _ _ Hp3) as [Hd|Hd]; [destruct (is_bridge st); lia| |by right].
  left. by apply due_later.
Qed.

(** Then the watcher reloads. *)
Lemma watch_phase dir m h sts :
  pending 0 m h → Forall (λ st, is_closed st = false) sts → (m ≤ count_steps is_watch sts)%nat →
  due dir (hup_events dir sts h).
Proof.
  intros Hp Hc. revert m h Hp. induction Hc as [|st sts Hst _ IH]; intros m h Hp.
  { cbn. intros Hm. destruct Hp as (Hw & _ & Hl). specialize (Hl eq_refl). exfalso.
    by destruct (watcher h); cbn in *; try lia. }
  rewrite count_steps_cons. intros Hm. destruct (pending_step 0 m h st Hp Hst) as [He|Hp'].
  { by apply emits_due. }
  apply due_later. apply (IH (if is_watch st then pred m else m)).
  - by destruct (is_bridge st).
  - destruct (is_watch st); lia.
Qed.

Lemma signal_pending h : watcher h ≠ WEnded → pending 2 3 (on_signal h).
Proof.
  intros Hw. destruct h as [f s b w]. split; [done|]. split; [|done]. unfold bridge_left. cbn.
  destruct w, s, b; simplify_eq; eexists; (split; [reflexivity|lia]).
Qed.

(** ** No reload without a cause *)
Definition credit (h : Hup) : nat :=
  Nat.b2n (flag h) + Nat.b2n (SIGHUP_FLAG h)
  + match bridge h with BStore => 1 | BSwap => 0 end
  + match watcher h with WReload | WSwap true => 1 | _ => 0 end.

Definition reloads (evs : list event) : nat := length (filter (λ e, is_reload e = true) evs).

Lemma reloads_app evs evs' : reloads (evs ++ evs') = (reloads evs + reloads evs')%nat.
Proof. unfold reloads. by rewrite filter_app, length_app. Qed.

Lemma reloads_bounded dir sts h :
  Forall (λ st, is_other_reload st = false) sts →
  (reloads (hup_events dir sts h) ≤ credit h + count_steps is_signal sts + count_steps is_change sts)%nat.
Proof.
  intros Hs. revert h. induction Hs as [|st sts Hst _ IH]; intros h; [cbn; lia|].
  cbn [hup_events]. rewrite reloads_app, !count_steps_cons. specialize (IH (hup_step st h)).
  enough (reloads (match st with
                   | HWatch r => if (watch_step r h).2 then [EReload dir] else []
                   | HOther e => [e]
                   | _ => [] end) + credit (hup_step st h)
          ≤ credit h + Nat.b2n (is_signal st) + Nat.b2n (is_change st))%nat as Hstep
    by (destruct (is_signal st), (is_change st); cbn [Nat.b2n] in *; lia).
  clear IH. destruct h as [f s b w]. destruct st as [| |r|e]; cbn [hup_step is_signal is_change Nat.b2n].
  - destruct f; cbn; lia.
  - unfold bridge_step. cbn. destruct b, f, s; cbn; lia.
  - destruct w as [|got| |]; cbn [watch_step watcher fst snd]; [destruct r|destruct s, got|..];
      repeat first [change (reloads [EReload dir]) with 1%nat | change (reloads []) with 0%nat];
      destruct f, b; cbn; try lia; destruct s; cbn; lia.
  - assert (reloads [e] = 0)%nat as -> by (destruct e; done). cbn. lia.
Qed.

(** ** Properties *)

(** C33 (sighup_reloads): however the threads interleave, a SIGHUP is followed by
    a reload that starts after it, once the bridge has made two more steps and
    then the watcher three, unless the watcher's channel is closed.  Signals may
    share a reload, but every reload has its own signal or change of a file.  And
    a round of the watcher that runs alone is the one of [watch_loop]. *)
Theorem sighup_reloads dir h a b :
  watcher h ≠ WEnded → Forall (λ st, is_closed st = false) (a ++ b) →
  (2 ≤ count_steps is_bridge a)%nat → (3 ≤ count_steps is_watch b)%nat →
  EReload dir ∈ hup_events dir (a ++ b) (hup_step HSignal h)
  ∧ (∀ sts, Forall (λ st, is_other_reload st = false) sts →
       (reloads (hup_events dir sts hup0) ≤ count_steps is_signal sts + count_steps is_change sts)%nat)
  ∧ (∀ r, watcher h = WRecv → r ≠ Disconnected →
       let got := match r with Changed => true | _ => SIGHUP_FLAG h end in
       let round := HWatch r :: HWatch r :: if got then [HWatch r] else [] in
       hup_events dir round h = watch_events dir [(r, SIGHUP_FLAG h)]
       ∧ hup_run round h = mkHup (flag h) false (bridge h) WRecv).
Proof.
  intros Hw [Ha Hb]%Forall_app Hna Hnb. split_and!.
  - rewrite hup_events_app. apply elem_of_app.
    destruct (bridge_phase dir 2 (on_signal h) a (signal_pending h Hw) Ha Hna) as [Hd|Hp]; [by left|].
    right. by apply (watch_phase dir 3).
  - intros sts Hs. by apply (reloads_bounded dir sts hup0).
  - intros r Hr Hd. destruct h as [f s br w]. cbn in Hr. subst w. by destruct r, s.
Qed.

Lemma sighup_reloads_witness :
  EReload [lit "waf"] ∈ hup_events [lit "waf"]
    [HBridge; HWatch RecvTimeout; HBridge; HWatch RecvTimeout; HOther (ETick 0); HWatch RecvTimeout;
     HSignal; HWatch RecvTimeout] (hup_step HSignal hup0).
Proof.
  apply (sighup_reloads [lit "waf"] hup0 [HBridge; HWatch RecvTimeout; HBridge]
    [HWatch RecvTimeout; HOther (ETick 0); HWatch RecvTimeout; HSignal; HWatch RecvTimeout]).
  - discriminate.
  - by repeat constructor.
  - vm_compute. lia.
  - vm_compute. lia.
Defined.
