(* ===== verification/Release.v ===== *)
(** The way out of an automatic policy: when a client falls silent, its windows
    drain, the rules stop firing, the cooldown runs out and the packet filter
    lets the client through again ([crates/mw-core/src/window.rs],
    [crates/microwaf/src/decision.rs], over the threads of [System]). *)

From S2P Require Import Prelude Text Client Rule Window Policy Counters Enforcer Config State Decision Sniffer Ebpf Json Wire Store Ipc Live System Pipeline.

(** ** A window drains

    The seconds that the advance of a window loses are fewer than those it
    shifts, so a window that takes nothing is empty after twice its length. *)
Definition DRAIN : Z := 120 * NS.

Definition drained (t0 : Z) (w : SlidingWindow) : Prop :=
  window_ok w ∧ ∃ z, Forall (λ b, b = bucket0) (take z (view w)) ∧ last_advance w ≤ t0 + 2 * Z.of_nat z * NS.

Lemma shift_zeros k z v :
  Forall (λ b, b = bucket0) (take z v) → Forall (λ b, b = bucket0) (take (k + z) (shift k v)).
Proof.
  intros Hz. unfold shift. rewrite take_take. apply Forall_forall. intros b Hb.
  assert (b ∈ take (k + z) (replicate k bucket0 ++ v)) as Hb'.
  { apply list_elem_of_lookup in Hb as [i Hi]. apply lookup_take_Some in Hi as [Hi Hlt].
    apply list_elem_of_lookup. exists i. apply lookup_take_Some. split; [done|lia]. }
  rewrite take_app in Hb'. apply elem_of_app in Hb' as [Hb'|Hb'].
  - apply list_elem_of_lookup in Hb' as [i Hi]. apply lookup_take_Some in Hi as [Hi _].
    by apply lookup_replicate in Hi as [-> _].
  - rewrite length_replicate in Hb'. replace (k + z - k)%nat with z in Hb' by lia.
    by rewrite Forall_forall in Hz; apply Hz.
Qed.

Lemma drained_advance t0 w now : drained t0 w → drained t0 (sw_advance w now).
Proof.
  intros (Hw & z & Hz & Hla). split; [by apply sw_advance_ok|].
  pose proof Hw as (Hl & Hc & _). destruct (sw_advance_view w now Hl Hc) as (-> & _ & _ & Hla').
  exists (elapsed_secs w now + z)%nat. split; [by apply shift_zeros|]. rewrite Hla'.
  destruct (Nat.eqb_spec (elapsed_secs w now) 0) as [He|He]; [rewrite He; unfold NS in *; lia|].
  assert (last_advance w ≤ now) as Hle.
  { unfold elapsed_secs, sat_since, as_secs in He. destruct (Z.le_gt_cases (last_advance w) now); [done|].
    rewrite Z.max_l in He by lia. done. }
  pose proof (elapsed_bounds w now Hle). unfold NS in *. lia.
Qed.

Lemma drained_start t0 w : window_ok w → last_advance w ≤ t0 → drained t0 w.
Proof. intros Hw Hla. split; [done|]. exists 0%nat. split; [constructor|]. unfold NS. lia. Qed.

(** Two minutes later every sum is zero. *)
Lemma drained_empty t0 w now m n :
  drained t0 w → t0 + DRAIN ≤ now → (1 ≤ n ≤ 60)%nat → sw_sum (sw_advance w now) m n = 0.
Proof.
  intros Hd Hnow Hn. destruct (drained_advance _ _ now Hd) as (Hok & z & Hz & Hla).
  destruct Hd as [Hw _]. pose proof (sw_advance_elapsed w now Hw) as He.
  assert (60 ≤ z)%nat as Hz60.
  { unfold elapsed_secs, sat_since, as_secs, DRAIN, NS in *.
    assert ((Z.max 0 (now - last_advance (sw_advance w now))) / 1000000000 = 0) as Hq.
    { pose proof (Z.div_pos (Z.max 0 (now - last_advance (sw_advance w now))) 1000000000). lia. }
    apply Z.div_small_iff in Hq; lia. }
  rewrite sw_sum_view by (done || apply Hok).
  assert (Forall (λ b, b = bucket0) (take n (view (sw_advance w now)))) as Hall.
  { assert (take n (view (sw_advance w now)) = take n (take z (view (sw_advance w now)))) as ->
      by (rewrite take_take; f_equal; lia).
    by apply Forall_take. }
  assert (sumZ ((λ b, bucket_get b m) <$> take n (view (sw_advance w now))) = 0) as ->.
  { revert Hall. generalize (take n (view (sw_advance w now))). intros l. induction 1 as [|b l -> _ IH]; [done|].
    cbn [fmap list_fmap sumZ]. rewrite IH. by destruct m. }
  unfold U64_MAX. lia.
Qed.

(** ** One client in a tick *)

(** Windows that were last advanced by [t0]. *)
Definition aged (t0 : Z) (w : SlidingWindow) : Prop := window_ok w ∧ last_advance w ≤ t0.

Lemma aged_drained t0 w : aged t0 w → drained t0 w.
Proof. intros [Hw Hla]. by apply drained_start. Qed.

Lemma aged_advance t0 w : aged t0 w → aged t0 (sw_advance w t0).
Proof.
  intros [Hw Hla]. split; [by apply sw_advance_ok|]. pose proof Hw as (Hl & Hc & _).
  destruct (sw_advance_view w t0 Hl Hc) as (_ & _ & _ & ->). by case_match.
Qed.

Lemma aged_add_if t0 w m d w' :
  (∀ x, w = Some x → aged t0 x) → 0 ≤ d → add_ifw w m d t0 = Some w' → ∀ x, w' = Some x → aged t0 x.
Proof.
  intros Hw Hd. unfold add_ifw. destruct (0 <? d); [|by intros [= <-]].
  assert (aged t0 (default (sw_new t0) w)) as Hdef.
  { destruct w as [x|]; [by apply Hw|]. split; [apply sw_new_ok|done]. }
  destruct (sw_add_view _ m d t0 (proj1 Hdef) Hd) as (w1 & -> & Hok & Hla & _). cbn [mbind option_bind].
  intros [= <-] x [= <-]. split; [done|]. rewrite Hla. by apply aged_advance.
Qed.

Lemma aged_add3 t0 w d w' :
  (∀ x, w = Some x → aged t0 x) → 0 ≤ d.1.1 → 0 ≤ d.1.2 → 0 ≤ d.2 →
  add3w w d t0 = Some w' → ∀ x, w' = Some x → aged t0 x.
Proof.
  intros Hw H1 H2 H3 Hadd. unfold add3w in Hadd.
  apply bind_Some in Hadd as (w1 & Hw1 & (w2 & Hw2 & Hw3)%bind_Some).
  pose proof (aged_add_if t0 w _ _ w1 Hw H1 Hw1) as Ha1.
  pose proof (aged_add_if t0 w1 _ _ w2 Ha1 H2 Hw2) as Ha2. exact (aged_add_if t0 w2 _ _ w' Ha2 H3 Hw3).
Qed.

Section client.
Context `{CEL : CelEngine} `{HI : HashIter}.

Lemma aged_apply_deltas sn la c t0 win win' :
  map_Forall (λ _, aged t0) win → apply_deltas sn la c t0 win = Some win' → map_Forall (λ _, aged t0) win'.
Proof.
  intros Hw Ha r x Hx. apply (apply_deltas_lookup _ _ _ _ _ _ r) in Ha.
  destruct (sn !! mkKey c r) as [v|].
  - refine (aged_add3 t0 (win !! r) (entry_delta la (mkKey c r) v) (win' !! r) _ _ _ _ Ha x Hx);
      [intros y Hy; by apply (Hw r)|apply sat_sub_nonneg..].
  - rewrite Ha in Hx. by apply (Hw r).
Qed.

(** Counters that stand still add nothing. *)
Lemma still_apply_deltas sn la c now win win' :
  (∀ r, default (0, 0, 0) (sn !! mkKey c r) = default (0, 0, 0) (la !! mkKey c r)) →
  apply_deltas sn la c now win = Some win' → win' = win.
Proof.
  intros Hs Ha. apply map_eq. intros r. apply (apply_deltas_lookup _ _ _ _ _ _ r) in Ha. specialize (Hs r).
  destruct (sn !! mkKey c r) as [v|]; [|done]. cbn [default from_option id] in Hs.
  unfold entry_delta in Ha. rewrite <- Hs in Ha. unfold sat_sub in Ha. rewrite !Z.sub_diag in Ha.
  by injection Ha.
Qed.

Lemma advance_all_drained t0 rw now :
  map_Forall (λ _, drained t0) rw → map_Forall (λ _, drained t0) (rw_advance_all rw now).
Proof. intros Hw. apply map_Forall_fmap. intros r w Hr. cbn. by apply drained_advance, (Hw r). Qed.

Lemma advance_all_aged t0 rw :
  map_Forall (λ _, aged t0) rw → map_Forall (λ _, aged t0) (rw_advance_all rw t0).
Proof. intros Hw. apply map_Forall_fmap. intros r w Hr. cbn. by apply aged_advance, (Hw r). Qed.

Lemma drained_exceeds_not t0 rw now r :
  map_Forall (λ _, drained t0) rw → t0 + DRAIN ≤ now → 0 ≤ r_limit r → ¬ exceeds (rw_advance_all rw now) r.
Proof.
  intros Hw Hnow Hl. unfold exceeds, rw_sum, rw_advance_all. rewrite lookup_fmap.
  destruct (rw !! r_id r) as [w|] eqn:Hr; cbn [fmap option_fmap option_map]; [|lia].
  rewrite (drained_empty t0 w now); [lia|by eapply Hw|done|destruct (r_window r); cbn; lia].
Qed.

Lemma client_tick_run sn la now cd rs c w p win p' eff :
  client_tick sn la now cd rs c w p = Some (win, p', eff) →
  apply_deltas sn la c now (rw_advance_all (default ∅ w) now) = Some win
  ∧ update_policy (default policy0 p) (evaluate rs win) now cd = Some p'.
Proof. unfold client_tick. by intros (x & ? & (q & ? & [= -> -> _])%bind_Some)%bind_Some. Qed.

Lemma update_policy_auto p vs now cd p' :
  Forall violation_ok vs → update_policy p vs now cd = Some p' →
  (∀ a, auto_ p' = Some a → a_until a = now + cd ∨ auto_ p = Some a)
  ∧ (vs = [] → auto_ p' = live_auto p now) ∧ manual p' = live_manual p now.
Proof.
  intros Hv Hu. unfold update_policy in Hu. apply bind_Some in Hu as (best & Hb & [= <-]). split_and!.
  - cbn [auto_]. intros a Ha. destruct best as [b|].
    + injection Ha as ->. left. destruct (decide (vs = [])) as [->|Hne]; [done|].
      destruct (time_add now cd) as [u|] eqn:Hu; [|by rewrite strongest_auto_panic in Hb].
      destruct (strongest_auto_first_max vs now cd u Hu Hv Hne) as (v & _ & Hb').
      rewrite Hb in Hb'. injection Hb' as ->. apply time_add_Some in Hu as ->.
      unfold auto_of. by destruct (v_action v).
    + right. destruct (auto_ p) as [a'|]; [|done]. by destruct (auto_is_expired a' now).
  - intros ->. cbn in Hb. injection Hb as <-. done.
  - done.
Qed.
End client.

(** ** The daemon while the client is silent *)
Section silence.
Context `{HI : HashIter} `{FF : FsFaults} `{CEL : CelEngine} `{YAML : YamlEngine} `{CY : ConfigYaml}.
Context `{!YamlTyped} {E : Type} `{EL : EnforcerLaws E} {S : Type} `{SL : StatsLaws S}.
Implicit Types (s : DaemonState E) (y : System E S).

Definition auto_of s (c : ClientId) : option AutoPolicy := policies s !! c ≫= auto_.

Definition until_by (B : Z) s (c : ClientId) : Prop := ∀ a, auto_of s c = Some a → a_until a ≤ B.

Definition windows_of (P : SlidingWindow → Prop) s (c : ClientId) : Prop :=
  ∀ rw, windows s !! c = Some rw → map_Forall (λ _, P) rw.

(** Nothing is left to count, the windows drain from [t0] on, and the automatic
    policy runs out by [B]. *)
Record silent (t0 B : Z) (c : ClientId) s : Prop := {
  si_counts r : get_rule (counters s) c r = default (0, 0, 0) (last_counters s !! mkKey c r);
  si_windows : windows_of (drained t0) s c;
  si_auto : until_by B s c;
  si_policy : is_Some (policies s !! c)
}.

(** Neither a packet of the client nor a reload. *)
Definition quiet_event (c : ClientId) (e : event) : bool :=
  match e with
  | EFrame _ frame _ =>
      match parse_frame frame with
      | Some (Some (client, _, _, _)) => bool_decide (client ≠ c)
      | _ => true
      end
  | EReload _ => false
  | _ => true
  end.

Lemma windows_of_default P s c : windows_of P s c → map_Forall (λ _, P) (default ∅ (windows s !! c)).
Proof.
  intros Hw. destruct (windows s !! c) as [rw|] eqn:Hc; [by apply Hw|]. apply map_Forall_empty.
Qed.

Lemma rules_limits s : state_ok s → ∀ r, r ∈ rules s → 0 ≤ r_limit r.
Proof.
  intros Hs r Hr. pose proof (ok_types _ Hs) as Hty. rewrite Forall_forall in Hty.
  by apply Hty in Hr as (_ & [? _] & _).
Qed.

Lemma rules_violations s win : state_ok s → Forall violation_ok (evaluate (rules s) win).
Proof. intros Hs. apply evaluate_ok. exact (proj1 (state_data_ok s Hs)). Qed.

(** The first tick takes what the client has sent. *)
Lemma first_tick s s' t0 B c :
  state_ok s → is_Some (policies s !! c) → windows_of (aged t0) s c → until_by B s c →
  t0 + tick_cooldown s ≤ B → tick s t0 = Some s' → silent t0 B c s'.
Proof.
  intros Hs Hp Hw Ha HB Ht.
  assert (c ∈ tick_clients (by_rule (counters s)) (policies s)) as Hc by (apply elem_of_tick_clients; by right).
  destruct (tick_of_client s s' t0 c Hs Hc Ht) as (win & p & Hct & Hwin & Hpol & Hla & Hcn & _ & _ & _).
  apply client_tick_run in Hct as [Hd Hu]. constructor.
  - intros r. unfold get_rule. by rewrite Hla, Hcn.
  - intros rw Hrw. rewrite Hwin in Hrw. injection Hrw as <-. eapply map_Forall_impl; [|intros r x; apply aged_drained].
    eapply aged_apply_deltas; [|exact Hd]. by apply advance_all_aged, windows_of_default.
  - intros a Hauto. unfold auto_of in Hauto. rewrite Hpol in Hauto. cbn [mbind option_bind] in Hauto.
    destruct (update_policy_auto _ _ _ _ _ (rules_violations s win Hs) Hu) as (Hor & _ & _).
    destruct (Hor a Hauto) as [->|Hold]; [done|]. apply Ha. unfold auto_of.
    destruct (policies s !! c); [exact Hold|done].
  - by rewrite Hpol.
Qed.

(** Every later tick finds nothing new. *)
Lemma silent_tick s s' t0 B c now :
  state_ok s → silent t0 B c s → t0 + DRAIN + tick_cooldown s ≤ B → tick s now = Some s' →
  silent t0 B c s'
  ∧ ∃ p, policies s' !! c = Some p ∧ manual p = live_manual (default policy0 (policies s !! c)) now
    ∧ (B ≤ now → auto_ p = None)
    ∧ ∀ e, enforcer s' = Some e → supports c = true → in_force e c = merge_policy p now.
Proof.
  intros Hs [Hcnt Hw Ha Hp] HB Ht.
  assert (c ∈ tick_clients (by_rule (counters s)) (policies s)) as Hc by (apply elem_of_tick_clients; by right).
  destruct (tick_of_client s s' now c Hs Hc Ht) as (win & p & Hct & Hwin & Hpol & Hla & Hcn & _ & _ & Hin).
  apply client_tick_run in Hct as [Hd Hu].
  apply still_apply_deltas in Hd; [|exact Hcnt]. apply windows_of_default in Hw.
  destruct (update_policy_auto _ _ _ _ _ (rules_violations s win Hs) Hu) as (Hor & Hnone & Hman).
  assert (t0 + DRAIN ≤ now → auto_ p = live_auto (default policy0 (policies s !! c)) now) as Hquiet.
  { intros Hnow. apply Hnone, evaluate_nil. intros r Hr. rewrite Hd.
    apply (drained_exceeds_not t0); [done..|]. by eapply rules_limits. }
  assert (∀ a, auto_ (default policy0 (policies s !! c)) = Some a → a_until a ≤ B) as Hold.
  { intros a Hauto. apply Ha. unfold auto_of. by destruct (policies s !! c). }
  pose proof (tick_cooldown_pos s) as Hcd. split; [constructor|].
  - intros r. unfold get_rule. by rewrite Hla, Hcn.
  - intros rw Hrw. rewrite Hwin in Hrw. injection Hrw as <-. rewrite Hd. by apply advance_all_drained.
  - intros a Hauto. unfold auto_of in Hauto. rewrite Hpol in Hauto. cbn [mbind option_bind] in Hauto.
    destruct (Hor a Hauto) as [Hun|Hprev]; [|by apply Hold].
    destruct (Z.le_gt_cases (t0 + DRAIN) now) as [Hnow|Hnow]; [|rewrite Hun; lia].
    rewrite (Hquiet Hnow) in Hauto. unfold live_auto in Hauto.
    destruct (auto_ (default _ _)) as [a'|] eqn:Ha'; [|done]. destruct (auto_is_expired a' now); [done|].
    injection Hauto as ->. by apply Hold.
  - by rewrite Hpol.
  - exists p. split_and!; [done|done| |done]. intros Hnow. rewrite Hquiet by lia. unfold live_auto.
    destruct (auto_ (default _ _)) as [a|] eqn:Hauto; [|done]. specialize (Hold a eq_refl).
    unfold auto_is_expired.
    by rewrite (proj2 (Z.leb_le _ _)) by lia.
Qed.

(** A command changes neither windows nor automatic policies. *)
Definition kept_for (c : ClientId) s s' : Prop :=
  windows s' = windows s ∧ auto_of s' c = auto_of s c
  ∧ (is_Some (policies s !! c) → is_Some (policies s' !! c)).

Lemma set_manual_quiet s c c' m : kept_for c s (set_manual s c' m).
Proof.
  unfold kept_for, auto_of, set_manual. cbn. split; [done|].
  destruct (decide (c' = c)) as [->|Hne]; [|by rewrite lookup_insert_ne].
  rewrite lookup_insert_eq. split; [by destruct (policies s !! c)|by eexists].
Qed.

Lemma ipc_step_quiet y y' describe v k body c :
  sys_step y (EIpc describe v k body) = Some y' → kept_for c (y_state y) (y_state y').
Proof.
  cbn [sys_step]. unfold execute. destruct (of_json body) as [req|]; [|by intros [= <-]].
  unfold Ipc.dispatch, throttle, block, clear_manual_throttle, clear_manual_block, clear_manual,
    update_manual, replied.
  destruct (rq_kind req); cbn [rq_params]; repeat case_match; simplify_eq/=;
    try (destruct (expiry _ _) as [u|]; cbn [fmap option_fmap option_map mbind option_bind]; [|done]);
    try destruct (persist _ _ _ _); intros [= <-]; cbn [y_state]; first [apply set_manual_quiet|done].
Qed.

Lemma frame_step_quiet y y' utc frame now c rid :
  sys_ok y → event_ok (EFrame utc frame now) → quiet_event c (EFrame utc frame now) = true →
  sys_step y (EFrame utc frame now) = Some y' →
  get_rule (counters (y_state y')) c rid = get_rule (counters (y_state y)) c rid
  ∧ (windows (y_state y'), policies (y_state y'), tick_base (y_state y'))
    = (windows (y_state y), policies (y_state y), tick_base (y_state y)).
Proof.
  intros (Hs & Hf & _) [Hb Hl] Hq. cbn [sys_step].
  destruct (handle_frame_run utc frame (y_state y) (y_flows y) (y_ws y) now Hb Hl Hs Hf)
    as (s' & ft' & ws' & calls & -> & _ & _ & _ & -> & Hnone & Hsome). cbn [mbind option_bind].
  intros [= <-]. split; [|done]. cbn [y_state]. cbn [quiet_event] in Hq.
  destruct (parse_frame_total frame Hb) as (p & Ep & _). rewrite Ep in Hq.
  destruct p as [[[[client src] dst] seg]|]; [|by rewrite (Hnone Ep)].
  apply bool_decide_eq_true in Hq. by apply (Hsome _ _ _ _ Ep).
Qed.

(** The run after the first tick. *)
Lemma silent_step y y' t0 B c e :
  sys_ok y → event_ok e → quiet_event c e = true → silent t0 B c (y_state y) →
  t0 + DRAIN + tick_cooldown (y_state y) ≤ B → sys_step y e = Some y' →
  silent t0 B c (y_state y') ∧ tick_cooldown (y_state y') = tick_cooldown (y_state y).
Proof.
  intros Hy He Hq Hsil HB Hstep. pose proof Hsil as [Hcnt Hw Ha Hp].
  destruct e as [utc frame now|now|now|describe v k body|dir]; [| | | |done].
  - destruct (frame_step_quiet y y' utc frame now c [] Hy He Hq Hstep) as [_ [= Hwin Hpol Hl Hla _]].
    split; [|unfold tick_cooldown, daemon_cfg; by rewrite Hl]. constructor.
    + intros r. destruct (frame_step_quiet y y' utc frame now c r Hy He Hq Hstep) as [-> _].
      by rewrite Hla.
    + intros rw. rewrite Hwin. apply Hw.
    + intros a. unfold auto_of. rewrite Hpol. apply Ha.
    + by rewrite Hpol.
  - cbn [sys_step] in Hstep. apply bind_Some in Hstep as (s' & Ht & [= <-]). cbn [y_state].
    split; [by eapply silent_tick; [apply Hy|..]|].
    destruct (tick_kept _ _ _ (proj1 Hy) Ht) as (s1 & -> & _ & Heff).
    pose proof (te_frame _ _ _ _ _ _ _ Heff) as (_ & _ & Hl & _).
    unfold tick_cooldown, daemon_cfg. cbn [live with_last]. by rewrite Hl.
  - injection Hstep as <-. done.
  - destruct (ipc_step_keeps _ _ _ _ _ _ Hstep) as [[= Hl Hla _] Hcn].
    destruct (ipc_step_quiet _ _ _ _ _ _ c Hstep) as (Hwin & Hauto & Hpol).
    split; [|unfold tick_cooldown, daemon_cfg; by rewrite Hl]. constructor.
    + intros r. rewrite Hcn, Hla. apply Hcnt.
    + intros rw. rewrite Hwin. apply Hw.
    + intros a. rewrite Hauto. apply Ha.
    + by apply Hpol.
Qed.

Lemma silent_run evs y y' t0 B c :
  sys_ok y → Forall event_ok evs → Forall (λ e, quiet_event c e = true) evs →
  silent t0 B c (y_state y) → t0 + DRAIN + tick_cooldown (y_state y) ≤ B → sys_run evs y = Some y' →
  sys_ok y' ∧ silent t0 B c (y_state y') ∧ tick_cooldown (y_state y') = tick_cooldown (y_state y).
Proof.
  intros Hy Hevs Hq. revert y Hy. induction Hevs as [|e evs He _ IH]; intros y Hy Hsil HB.
  { by intros [= <-]. }
  apply Forall_cons in Hq as [Hqe Hq]. cbn [sys_run opt_fold].
  destruct (sys_step y e) as [y1|] eqn:Hy1; [|done]. intros Hrun.
  destruct (silent_step y y1 t0 B c e Hy He Hqe Hsil HB Hy1) as [Hsil1 Hcd].
  destruct (IH Hq y1 (sys_step_ok _ _ _ Hy He Hy1) Hsil1) as (? & ? & ?); [by rewrite Hcd|done|].
  by rewrite <- Hcd.
Qed.
End silence.

(** ** Properties *)

(** C4 (silent_client_released): a client under an automatic policy that sends
    nothing more is let through again.  From a tick at [t0] on, whatever other
    clients and commands do, the tick at [t0] plus two minutes plus the cooldown,
    or any later one, finds no rule exceeded and no automatic policy left; the
    manual policy alone decides.  Without one, until the next tick, the enforcer
    holds no action against the client, and the XDP program passes every packet
    of the client with every kernel map that has no entry the enforcer does not
    have.  Only a reload could change the cooldown or the rules on the way, and
    it is assumed that there is none. *)
Theorem silent_client_released `{HI : HashIter} `{FF : FsFaults} `{CEL : CelEngine} `{YAML : YamlEngine}
    `{CY : ConfigYaml} `{!YamlTyped} {S} `{SL : StatsLaws S} (y y1 : System BpfEnforcer S) c t0 evs T :
  let cooldown := tick_cooldown (y_state y) in
  let B := t0 + DRAIN + cooldown in
  sys_ok y → Forall event_ok evs → Forall (λ e, quiet_event c e = true) evs →
  sys_run (ETick t0 :: evs) y = Some y1 →
  is_Some (policies (y_state y) !! c) → windows_of (λ w, last_advance w ≤ t0) (y_state y) c →
  until_by B (y_state y) c → B ≤ T → (T + cooldown) / NS ≤ I64_MAX →
  ∃ y2 p, sys_step y1 (ETick T) = Some y2 ∧ sys_ok y2
    ∧ policies (y_state y2) !! c = Some p ∧ auto_ p = None
    ∧ manual p = live_manual (default policy0 (policies (y_state y1) !! c)) T
    ∧ (manual p = None → ∀ later y3 e,
        Forall (λ e, is_tick e = false) later → sys_run later y2 = Some y3 →
        enforcer (y_state y3) = Some e →
        (supports c = true → in_force e c = EffNone)
        ∧ ∀ (policy_map : gmap (list Z) ClientPolicyEntry) rand frame src dst seg,
            (∀ k, bpf_policies (handle e) !! k = None → policy_map !! k = None) →
            bytes_ok frame → parse_frame frame = Some (Some (c, src, dst, seg)) →
            20 ≤ Z.land (default 0 (frame !! 14%nat)) 15 * 4 →
            microwaf policy_map rand frame = XDP_PASS).
Proof.
  intros cooldown B Hy Hevs Hq Hrun Hp Hw Ha HT Hclock.
  cbn [sys_run opt_fold] in Hrun. destruct (sys_step y (ETick t0)) as [y0|] eqn:Hy0; [|done].
  pose proof (sys_step_ok y y0 (ETick t0) Hy I Hy0) as Hok0.
  cbn [sys_step] in Hy0. apply bind_Some in Hy0 as (s0 & Ht0 & Ey0). injection Ey0 as <-.
  assert (windows_of (aged t0) (y_state y) c) as Haged.
  { intros rw Hrw r w Hr. split; [by apply (ok_windows _ (proj1 Hy) _ _ Hrw) in Hr|by apply (Hw rw Hrw r)]. }
  pose proof (tick_cooldown_pos (y_state y)) as Hpos.
  assert (silent t0 B c s0) as Hs0.
  { eapply first_tick; [apply Hy|done..| |exact Ht0]. unfold B, DRAIN, NS, cooldown. lia. }
  destruct (tick_kept _ _ _ (proj1 Hy) Ht0) as (s00 & -> & _ & Heff0).
  pose proof (te_frame _ _ _ _ _ _ _ Heff0) as (_ & _ & Hl0 & _).
  assert (tick_cooldown (with_last s00 (by_rule (counters (y_state y)))) = cooldown) as Hcd0.
  { unfold cooldown, tick_cooldown, daemon_cfg. cbn [live with_last]. by rewrite Hl0. }
  destruct (silent_run evs _ y1 t0 B c Hok0 Hevs Hq Hs0) as (Hok1 & Hs1 & Hcd1); [|exact Hrun|].
  { cbn [y_state]. unfold B. rewrite Hcd0. lia. }
  cbn [y_state] in Hcd1. rewrite Hcd0 in Hcd1.
  destruct (tick_run (y_state y1) T (proj1 Hok1) ltac:(by rewrite Hcd1)) as (s2 & Ht2 & _).
  destruct (silent_tick _ _ t0 B c T (proj1 Hok1) Hs1 ltac:(unfold B; rewrite Hcd1; lia) Ht2)
    as (_ & p & Hp2 & Hman & Hauto & Hin).
  set (y2 := mkSystem (with_last s2 (by_rule (counters (y_state y1)))) (y_store y1) (y_flows y1) (y_ws y1) (y_fs y1)).
  assert (sys_step y1 (ETick T) = Some y2) as Hstep by (cbn [sys_step]; by rewrite Ht2).
  exists y2, p. split; [exact Hstep|]. split; [by eapply (sys_step_ok y1 y2 (ETick T))|].
  split; [exact Hp2|]. split; [by apply Hauto|]. split; [exact Hman|].
  intros Hnone later y3 e Hl Hrun3 He. apply run_enforcer in Hrun3; [|done]. rewrite He in Hrun3.
  assert (supports c = true → in_force e c = EffNone) as Hfree.
  { intros Hsupp. rewrite (Hin e (eq_sym Hrun3) Hsupp). specialize (Hauto HT). destruct p as [m a].
    cbn in Hnone, Hauto. by subst m a. }
  split; [exact Hfree|]. intros policy_map rand frame src dst seg Hmap Hf Hparse Hihl.
  by eapply free_client_passes.
Qed.

#[local] Existing Instance hash_forward.
#[local] Existing Instance yes_engine.

(** The daemon of [Pipeline] after its flood, with the client blocked. *)
Definition after_flood : System BpfEnforcer MemoryStore :=
  default flood_system (sys_run (flood_events ++ [ETick NS]) flood_system).

Lemma after_flood_ok : sys_ok after_flood.
Proof.
  unfold after_flood. destruct (sys_run _ flood_system) as [y|] eqn:Hrun; cbn [default from_option id];
    [|exact flood_system_ok].
  eapply run_ok; [exact flood_system_ok| |exact Hrun].
  apply Forall_app. split; [exact flood_events_ok|by apply Forall_singleton].
Qed.

(** The times in the state of a client, to be evaluated. *)
Definition last_advances {E} (s : DaemonState E) (c : ClientId) : list Z :=
  (λ kw, last_advance kw.2) <$> map_to_list (default ∅ (windows s !! c)).

Lemma last_advances_by {E} (s : DaemonState E) c t :
  Forall (λ l, l ≤ t) (last_advances s c) → windows_of (λ w, last_advance w ≤ t) s c.
Proof.
  intros Hl rw Hrw r w Hr. unfold last_advances in Hl. rewrite Hrw in Hl. cbn in Hl.
  rewrite Forall_fmap, Forall_forall in Hl. apply (Hl (r, w)). by apply elem_of_map_to_list.
Qed.

Lemma silent_client_released_witness :
  merge_policy (default policy0 (policies (y_state after_flood) !! demo_client)) NS = EffBlock
  ∧ ∃ y2 p, sys_run [ETick (2 * NS); ESnapshot 0; ETick (160 * NS)] after_flood = Some y2
    ∧ policies (y_state y2) !! demo_client = Some p ∧ auto_ p = None.
Proof.
  split; [vm_compute; reflexivity|].
  destruct (sys_run (ETick (2 * NS) :: [ESnapshot 0]) after_flood) as [y1|] eqn:Hrun.
  2: { exfalso. assert (from_option (λ _, true) false (sys_run (ETick (2 * NS) :: [ESnapshot 0]) after_flood)
         = true) as Ht by (vm_compute; reflexivity). by rewrite Hrun in Ht. }
  destruct (silent_client_released after_flood y1 demo_client (2 * NS) [ESnapshot 0] (160 * NS) after_flood_ok)
    as (y2 & p & Hstep & _ & Hp & Hauto & _).
  - repeat constructor.
  - repeat constructor.
  - exact Hrun.
  - apply (bool_decide_unpack _). vm_compute. exact I.
  - apply last_advances_by, (bool_decide_unpack _). vm_compute. exact I.
  - assert (from_option a_until 0 (auto_of (y_state after_flood) demo_client) = 31 * NS) as Hu
      by (vm_compute; reflexivity).
    intros a Hauto. rewrite Hauto in Hu. cbn [from_option] in Hu. rewrite Hu. vm_compute. discriminate.
  - vm_compute. discriminate.
  - vm_compute. discriminate.
  - exists y2, p. split; [|split; [exact Hp|exact Hauto]].
    change [ETick (2 * NS); ESnapshot 0; ETick (160 * NS)]
      with ((ETick (2 * NS) :: [ESnapshot 0]) ++ [ETick (160 * NS)]).
    unfold sys_run in *. rewrite opt_fold_app, Hrun. cbn [mbind option_bind opt_fold]. by rewrite Hstep.
Defined.
