(* ===== verification/Policing.v ===== *)
(** What the rules measure over a run of the daemon: the history of what each
    tick counted for a client, the windows as its sums over the last seconds, and
    the policies that follow ([crates/mw-core/src/window.rs], [rule.rs],
    [crates/microwaf/src/decision.rs], over the threads of [System]). *)

From S2P Require Import Prelude Text Client Rule Window Policy Counters Enforcer Config State Decision Sniffer Ebpf Json Wire Store Ipc Live System Pipeline Release.

(** ** A window slot and its history

    The history of one metric lists times and amounts, newest first. *)
Abbreviation Log := (list (Z * Z)).

Definition slot_log (w : option SlidingWindow) (m : Metric) (log : Log) (t : Z) : Prop :=
  match w with
  | Some x => window_ok x ∧ last_advance x ≤ t ∧ ∃ h, tracks x m h ∧ ∀ p, ev_sum h.*1 p = ev_sum log p
  | None => ∀ p, ev_sum log p = 0
  end.

Lemma ev_sum_cons t d log p : ev_sum ((t, d) :: log) p = (if p t then d else 0) + ev_sum log p.
Proof. done. Qed.

Lemma slot_log_later w m log t now : slot_log w m log t → t ≤ now → slot_log w m log now.
Proof. destruct w as [x|]; [|done]. intros (? & ? & ?) Hle. split_and!; [done|lia|done]. Qed.

Lemma slot_log_zero w m log t now : slot_log w m log t → slot_log w m ((now, 0) :: log) t.
Proof.
  assert (∀ p, ev_sum ((now, 0) :: log) p = ev_sum log p) as Hz.
  { intros p. rewrite ev_sum_cons. by destruct (p now). }
  destruct w as [x|]; unfold slot_log.
  - intros (Hw & Hla & h & Ht & Hh). split_and!; [done..|]. exists h. split; [done|]. intros p. by rewrite Hz.
  - intros Hn p. by rewrite Hz.
Qed.

Lemma slot_log_advance w m log now :
  slot_log w m log now → slot_log ((λ w, sw_advance w now) <$> w) m log now.
Proof.
  destruct w as [x|]; [|done]. intros (Hw & Hla & h & Ht & Hh). cbn.
  destruct (tracks_advance x m h now Hw Ht Hla) as [Ht' Hn].
  split_and!; [by apply sw_advance_ok|lia|]. eexists. split; [exact Ht'|]. by rewrite age_by_times.
Qed.

Lemma slot_log_add w m m' d log now w' :
  slot_log w m log now → 0 ≤ d → add_ifw w m' d now = Some w' →
  slot_log w' m (if decide (m' = m) then (now, d) :: log else log) now.
Proof.
  intros Hw Hd. unfold add_ifw. destruct (Z.ltb_spec 0 d) as [Hlt|Hge].
  2: { assert (d = 0) as -> by lia. intros [= <-]. case_decide; [by apply slot_log_zero|done]. }
  assert (∃ h, window_ok (default (sw_new now) w) ∧ tracks (default (sw_new now) w) m h
    ∧ last_advance (default (sw_new now) w) ≤ now ∧ ∀ p, ev_sum h.*1 p = ev_sum log p)
    as (h & Hok & Ht & Hla & Hh).
  { destruct w as [x|]; [destruct Hw as (? & ? & h & ? & ?); by exists h|].
    exists []. split_and!; [apply sw_new_ok|apply new_tracks|done|]. intros p. by rewrite (Hw p). }
  destruct (tracks_add _ m m' d h now Hok Ht Hla Hd) as (x & -> & Hx & Hlx & Htx). cbn [mbind option_bind].
  intros [= <-]. split_and!; [done..|]. eexists. split; [exact Htx|]. intros p.
  rewrite fmap_app, age_by_times. case_decide; [|apply Hh]. cbn [fmap list_fmap app fst].
  by rewrite !ev_sum_cons, Hh.
Qed.

(** A tick at [now] adds its three deltas. *)
Lemma slot_log_add3 w m d log now w' :
  slot_log w m log now → 0 ≤ d.1.1 → 0 ≤ d.1.2 → 0 ≤ d.2 → add3w w d now = Some w' →
  slot_log w' m ((now, triple_get m d) :: log) now.
Proof.
  intros Hw H1 H2 H3 Hadd. unfold add3w in Hadd.
  apply bind_Some in Hadd as (w1 & Hw1 & (w2 & Hw2 & Hw3)%bind_Some).
  apply (slot_log_add _ m _ _ _ _ _ Hw H1) in Hw1. apply (slot_log_add _ m _ _ _ _ _ Hw1 H2) in Hw2.
  apply (slot_log_add _ m _ _ _ _ _ Hw2 H3) in Hw3. by destruct m.
Qed.

(** ** What a sum counts *)
Definition recent (now secs : Z) (t : Z) : bool := now - t <=? secs * NS.
Definition not_older (now secs : Z) (t : Z) : bool := now - t <? secs * NS.

(** At least the last [n - 1] seconds, and nothing as old as [2 * n - 1]. *)
Lemma slot_log_sum x m log now n :
  slot_log (Some x) m log now → elapsed_secs x now = 0%nat → (1 ≤ n ≤ 60)%nat →
  Z.min U64_MAX (ev_sum log (recent now (Z.of_nat n - 1))) ≤ sw_sum x m n
  ≤ Z.min U64_MAX (ev_sum log (not_older now (2 * Z.of_nat n - 1))).
Proof.
  intros (Hw & Hla & h & Ht & Hh) He Hn. pose proof (elapsed_bounds x now Hla) as Hb. rewrite He in Hb.
  rewrite <- !Hh. apply tracks_sum; [done..|]. unfold NS in *. lia.
Qed.

(** ** The history of a run *)
Section history.
Context `{HI : HashIter} `{FF : FsFaults} `{CEL : CelEngine} `{YAML : YamlEngine} `{CY : ConfigYaml}.
Context `{!YamlTyped} {E : Type} `{EL : EnforcerLaws E} {S : Type} `{SL : StatsLaws S}.
Implicit Types (s : DaemonState E) (y : System E S).

(** What the counters of a rule grew since the last tick. *)
Definition grown s (c : ClientId) (rid : str) : Z * Z * Z :=
  entry_delta (last_counters s) (mkKey c rid) (get_rule (counters s) c rid).

(** What the ticks of a run count for a rule of the client, before [log]. *)
Fixpoint tick_log (c : ClientId) (rid : str) (m : Metric) (evs : list event) y (log : Log) : Log :=
  match evs with
  | [] => log
  | e :: evs =>
      let log := match e with
                 | ETick now => (now, triple_get m (grown (y_state y) c rid)) :: log
                 | _ => log
                 end in
      match sys_step y e with
      | Some y' => tick_log c rid m evs y' log
      | None => log
      end
  end.

(** The clock of the ticks never runs backwards. *)
Fixpoint ticks_from (t0 : Z) (evs : list event) : Prop :=
  match evs with
  | [] => True
  | ETick now :: evs => t0 ≤ now ∧ ticks_from now evs
  | _ :: evs => ticks_from t0 evs
  end.

(** The time of the last tick. *)
Fixpoint last_tick (t0 : Z) (evs : list event) : Z :=
  match evs with
  | [] => t0
  | ETick now :: evs => last_tick now evs
  | _ :: evs => last_tick t0 evs
  end.

Lemma last_tick_app t0 evs now : last_tick t0 (evs ++ [ETick now]) = now.
Proof. revert t0. by induction evs as [|[] evs IH]; intros t0; cbn. Qed.

(** Only a tick touches windows and automatic policies. *)
Lemma step_kept_for y y' e c : is_tick e = false → sys_step y e = Some y' → kept_for c (y_state y) (y_state y').
Proof.
  destruct e as [utc frame now|now|now|describe v k body|dir]; [|done|..]; intros _.
  - cbn [sys_step]. unfold handle_frame.
    destruct (parse_frame frame) as [[[[[c' src] dst] seg]|]|]; [|by intros [= <-]|done].
    cbn [mbind option_bind]. destruct (Sniffer.dispatch _ _ _ _ _ _ _ _ _ _) as [[ft ws] calls].
    by intros [= <-].
  - by intros [= <-].
  - apply ipc_step_quiet.
  - cbn [sys_step]. unfold try_reload.
    destruct (live_load dir (y_fs y)) as [fs [l|err]]; by intros [= <-].
Qed.

Lemma grown_nonneg s c rid :
  0 ≤ (grown s c rid).1.1 ∧ 0 ≤ (grown s c rid).1.2 ∧ 0 ≤ (grown s c rid).2.
Proof. unfold grown, entry_delta, sat_sub. cbn. lia. Qed.

(** Nothing is counted of what the snapshot does not hold. *)
Lemma grown_absent s c rid : state_ok s → by_rule (counters s) !! mkKey c rid = None → grown s c rid = (0, 0, 0).
Proof.
  intros Hs Hn. unfold grown, entry_delta, get_rule. rewrite Hn.
  destruct (last_counters s !! mkKey c rid) as [l|] eqn:Hl; [|done].
  apply (ok_last _ Hs) in Hl as (_ & v & Hv & _). by rewrite Hn in Hv.
Qed.

Definition slot s (c : ClientId) (rid : str) : option SlidingWindow := windows s !! c ≫= (.!! rid).

(** A tick moves the slot of a rule on, and the history with it. *)
Lemma tick_slot s s' now c rid :
  state_ok s → c ∈ tick_clients (by_rule (counters s)) (policies s) → tick s now = Some s' →
  add3w ((λ w, sw_advance w now) <$> slot s c rid) (grown s c rid) now = Some (slot s' c rid).
Proof.
  intros Hs Hc Ht. destruct (tick_of_client s s' now c Hs Hc Ht) as (win & p & Hct & Hw & _).
  apply client_tick_run in Hct as [Hd _]. apply (apply_deltas_lookup _ _ _ _ _ _ rid) in Hd.
  unfold slot. rewrite Hw. cbn [mbind option_bind].
  assert (rw_advance_all (default ∅ (windows s !! c)) now !! rid
          = (λ w, sw_advance w now) <$> (windows s !! c ≫= (.!! rid))) as Hadv.
  { unfold rw_advance_all. rewrite lookup_fmap. by destruct (windows s !! c). }
  rewrite Hadv in Hd. destruct (by_rule (counters s) !! mkKey c rid) as [v|] eqn:Hv.
  - unfold grown, get_rule. by rewrite Hv.
  - rewrite (grown_absent s c rid Hs Hv), Hd. done.
Qed.

Lemma tick_out s s' now c :
  state_ok s → c ∉ tick_clients (by_rule (counters s)) (policies s) → tick s now = Some s' →
  windows s' !! c = windows s !! c ∧ policies s !! c = None ∧ policies s' !! c = None.
Proof.
  intros Hs Hc Ht. assert (policies s !! c = None) as Hp.
  { destruct (policies s !! c) as [p|] eqn:Hp; [|done]. exfalso. apply Hc, elem_of_tick_clients. right. by eexists. }
  destruct (tick_kept s s' now Hs Ht) as (s1 & -> & _ & Heff). rewrite <- hset_iter_elem in Hc.
  destruct (te_out _ _ _ _ _ _ _ Heff c Hc) as (Hw & Hp' & _). cbn. by rewrite Hw, Hp', Hp.
Qed.

Lemma tick_slot_log s s' now c rid m log t :
  state_ok s → tick s now = Some s' → t ≤ now → slot_log (slot s c rid) m log t →
  slot_log (slot s' c rid) m ((now, triple_get m (grown s c rid)) :: log) now.
Proof.
  intros Hs Ht Hle Hlog. apply (slot_log_later _ _ _ t now) in Hlog; [|done].
  destruct (decide (c ∈ tick_clients (by_rule (counters s)) (policies s))) as [Hc|Hc].
  - destruct (grown_nonneg s c rid) as (Hq & Hb & Hk).
    eapply slot_log_add3; [by apply slot_log_advance|done..|]. by apply tick_slot.
  - assert (by_rule (counters s) !! mkKey c rid = None) as Hn.
    { destruct (by_rule _ !! _) as [v|] eqn:Hv; [|done]. exfalso. apply Hc, elem_of_tick_clients.
      left. by exists rid, v. }
    rewrite (grown_absent s c rid Hs Hn). unfold slot. destruct (tick_out s s' now c Hs Hc Ht) as [-> _].
    assert (triple_get m (0, 0, 0) = 0) as -> by by destruct m. by apply slot_log_zero.
Qed.

Lemma run_slot_log evs y y' c rid m log t :
  sys_ok y → Forall event_ok evs → ticks_from t evs → sys_run evs y = Some y' →
  slot_log (slot (y_state y) c rid) m log t →
  slot_log (slot (y_state y') c rid) m (tick_log c rid m evs y log) (last_tick t evs).
Proof.
  intros Hy Hevs. revert y log t Hy. induction Hevs as [|e evs He _ IH]; intros y log t Hy Htm.
  { by intros [= <-]. }
  cbn [sys_run opt_fold tick_log]. destruct (sys_step y e) as [y1|] eqn:Hy1; [|done]. intros Hrun Hlog.
  pose proof (sys_step_ok y y1 e Hy He Hy1) as Hok1.
  destruct (is_tick e) eqn:Het.
  - destruct e as [|now| | |]; try done. cbn [ticks_from last_tick] in *. destruct Htm as [Hle Htm].
    apply IH; [done..|]. cbn [sys_step] in Hy1. apply bind_Some in Hy1 as (s' & Ht & [= <-]).
    eapply tick_slot_log; [apply Hy|done..].
  - destruct (step_kept_for y y1 e c Het Hy1) as [Hw _].
    assert (ticks_from t evs ∧ last_tick t (e :: evs) = last_tick t evs
      ∧ (match e with ETick now => (now, triple_get m (grown (y_state y) c rid)) :: log | _ => log end) = log)
      as (Htm' & -> & ->) by by destruct e.
    apply IH; [done..|]. unfold slot. by rewrite Hw.
Qed.

(** A client with windows has a policy, so that every tick visits it. *)
Definition visited s (c : ClientId) : Prop := is_Some (windows s !! c) → is_Some (policies s !! c).

Lemma tick_visited s s' now c : state_ok s → visited s c → tick s now = Some s' → visited s' c.
Proof.
  intros Hs Hv Ht. destruct (decide (c ∈ tick_clients (by_rule (counters s)) (policies s))) as [Hc|Hc].
  - destruct (tick_of_client s s' now c Hs Hc Ht) as (win & p & _ & _ & Hp & _). intros _. by rewrite Hp.
  - destruct (tick_out s s' now c Hs Hc Ht) as (Hw & Hp & _). intros Hs'. rewrite Hw in Hs'.
    destruct (Hv Hs') as [p Hp']. by rewrite Hp in Hp'.
Qed.

Lemma run_visited evs y y' c :
  sys_ok y → Forall event_ok evs → sys_run evs y = Some y' → visited (y_state y) c → visited (y_state y') c.
Proof.
  intros Hy Hevs. revert y Hy. induction Hevs as [|e evs He _ IH]; intros y Hy; [by intros [= <-]|].
  cbn [sys_run opt_fold]. destruct (sys_step y e) as [y1|] eqn:Hy1; [|done]. intros Hrun Hv.
  apply (IH y1); [by eapply sys_step_ok|done|]. destruct (is_tick e) eqn:Het.
  - destruct e as [|now| | |]; try done. cbn [sys_step] in Hy1. apply bind_Some in Hy1 as (s' & Ht & [= <-]).
    by eapply tick_visited; [apply Hy|..].
  - destruct (step_kept_for y y1 e c Het Hy1) as (Hw & _ & Hp). intros Hs. apply Hp, Hv. by rewrite <- Hw.
Qed.

(** The sum that the evaluation of a tick looks at. *)
Lemma tick_sum s s' now c rid m log n :
  state_ok s → c ∈ tick_clients (by_rule (counters s)) (policies s) → tick s now = Some s' →
  slot_log (slot s' c rid) m log now → (1 ≤ n ≤ 60)%nat →
  ∀ win, windows s' !! c = Some win →
  Z.min U64_MAX (ev_sum log (recent now (Z.of_nat n - 1))) ≤ rw_sum win rid m n
  ≤ Z.max 0 (Z.min U64_MAX (ev_sum log (not_older now (2 * Z.of_nat n - 1)))).
Proof.
  intros Hs Hc Ht Hlog Hn win Hwin. pose proof (tick_slot s s' now c rid Hs Hc Ht) as Hslot.
  destruct (advanced_slot (windows s !! c) rid now) as [Hadv _].
  { intros x Hx. by apply (ok_windows _ Hs) in Hx. }
  assert (slot_ok now ((λ w, sw_advance w now) <$> slot s c rid)) as Hadv'.
  { unfold slot, rw_advance_all in *. rewrite lookup_fmap in Hadv. by destruct (windows s !! c). }
  destruct (grown_nonneg s c rid) as (Hq & Hb & Hk).
  destruct (add3w_view _ _ now Hadv' Hq Hb Hk) as (w' & Hw' & Hok & _).
  rewrite Hslot in Hw'. injection Hw' as <-. unfold slot in Hlog, Hok. rewrite Hwin in Hlog, Hok.
  cbn [mbind option_bind] in Hlog, Hok. unfold rw_sum. destruct (win !! rid) as [x|]; [|cbn in Hlog].
  - destruct (Hok x eq_refl) as [_ He]. pose proof (slot_log_sum x m log now n Hlog He Hn). lia.
  - rewrite !Hlog. unfold U64_MAX. lia.
Qed.
End history.

(** ** Properties *)

(** C5 (policing_matches_traffic): let the daemon run from a state without
    windows for the client, in any order of frames, ticks, commands, snapshots
    and reloads, with a clock that never runs backwards, and write down what each
    tick counts for the client and a rule.  At the next tick a rule whose limit
    is exceeded by what was written in its last seconds (the newest tick for a
    limit per second, 59 seconds for one per minute) puts the client under an
    automatic policy for one cooldown, at least as severe as the rule asks; and
    when, for each rule, what was written in the last second (119 seconds for one
    per minute) is within the limit, no rule fires, and only what is left of an
    older automatic policy remains. *)
Theorem policing_matches_traffic `{HI : HashIter} `{FF : FsFaults} `{CEL : CelEngine}
    `{YAML : YamlEngine} `{CY : ConfigYaml} `{!YamlTyped} {E} `{EL : EnforcerLaws E} {S} `{SL : StatsLaws S}
    (y y1 : System E S) c t0 evs now :
  let log r := tick_log c (r_id r) (r_metric r) (evs ++ [ETick now]) y [] in
  let secs r := Z.of_nat (window_secs (r_window r)) in
  sys_ok y → windows (y_state y) !! c = None → Forall event_ok evs → ticks_from t0 (evs ++ [ETick now]) →
  sys_run evs y = Some y1 → (now + tick_cooldown (y_state y1)) / NS ≤ I64_MAX →
  ∃ y2, sys_step y1 (ETick now) = Some y2 ∧ sys_ok y2
  ∧ (∀ r, r ∈ rules (y_state y1) → r_limit r < U64_MAX →
       r_limit r < ev_sum (log r) (recent now (secs r - 1)) →
       ∃ p a, policies (y_state y2) !! c = Some p ∧ auto_ p = Some a
         ∧ a_until a = now + tick_cooldown (y_state y1)
         ∧ eff_le (action_wants (r_action r)) (merge_policy p now) = true
         ∧ ∀ e, enforcer (y_state y2) = Some e → supports c = true → in_force e c = merge_policy p now)
  ∧ ((∀ r, r ∈ rules (y_state y1) → ev_sum (log r) (not_older now (2 * secs r - 1)) ≤ r_limit r) →
       auto_of (y_state y2) c = live_auto (default policy0 (policies (y_state y1) !! c)) now).
Proof.
  intros log secs Hy Hnone Hevs Htm Hrun Hclock. pose proof (run_ok _ _ _ Hy Hevs Hrun) as Hok1.
  destruct (tick_run (y_state y1) now (proj1 Hok1) Hclock) as (s1 & Ht & _).
  set (s2 := with_last s1 (by_rule (counters (y_state y1)))) in *.
  set (y2 := mkSystem s2 (y_store y1) (y_flows y1) (y_ws y1) (y_fs y1)).
  assert (sys_step y1 (ETick now) = Some y2) as Hstep by (cbn [sys_step]; by rewrite Ht).
  assert (sys_run (evs ++ [ETick now]) y = Some y2) as Hrun2.
  { unfold sys_run in *. rewrite opt_fold_app, Hrun. cbn [mbind option_bind opt_fold]. by rewrite Hstep. }
  assert (∀ r, slot_log (slot s2 c (r_id r)) (r_metric r) (log r) now) as Hlog.
  { intros r. rewrite <- (last_tick_app t0 evs now).
    apply (run_slot_log (evs ++ [ETick now]) y y2 c (r_id r) (r_metric r) [] t0 Hy);
      [apply Forall_app; split; [done|by apply Forall_singleton]|done..|].
    unfold slot. by rewrite Hnone. }
  assert (visited (y_state y1) c) as Hvis.
  { apply (run_visited evs y y1 c Hy Hevs Hrun). intros [w Hw]. by rewrite Hnone in Hw. }
  exists y2. split; [exact Hstep|]. split; [by eapply (sys_step_ok y1 y2 (ETick now))|].
  destruct (decide (c ∈ tick_clients (by_rule (counters (y_state y1))) (policies (y_state y1)))) as [Hc|Hc].
  - destruct (tick_of_client _ _ _ _ (proj1 Hok1) Hc Ht) as (win & p & Hct & Hwin & Hp & _ & _ & _ & _ & Hin).
    assert (∀ r, Z.min U64_MAX (ev_sum (log r) (recent now (secs r - 1)))
      ≤ rw_sum win (r_id r) (r_metric r) (window_secs (r_window r))
      ≤ Z.max 0 (Z.min U64_MAX (ev_sum (log r) (not_older now (2 * secs r - 1))))) as Hsum.
    { intros r. eapply tick_sum; [apply Hok1|done..|by destruct (r_window r); cbn; lia|done]. }
    destruct (client_tick_enforces _ _ _ _ _ _ _ _ _ _ _ (proj1 (state_data_ok _ (proj1 Hok1)))
      (default_policy_ok _ c (ok_policies _ (proj1 Hok1))) (tick_cooldown_pos _) Hct) as (_ & Henf & Hquiet & _).
    split.
    + intros r Hr Hmax Hlim. destruct (Henf r Hr) as (Hle & a & Ha & Hun).
      { unfold exceeds. specialize (Hsum r). lia. }
      by exists p, a.
    + intros Hall. unfold auto_of. cbn [y_state y2]. rewrite Hp. apply Hquiet. intros r Hr. unfold exceeds.
      specialize (Hsum r). specialize (Hall r Hr). pose proof (rules_limits _ (proj1 Hok1) r Hr). lia.
  - destruct (tick_out _ _ _ _ (proj1 Hok1) Hc Ht) as (Hw2 & Hp1 & Hp2). split.
    + intros r Hr _ Hlim. exfalso. specialize (Hlog r). unfold slot in Hlog. rewrite Hw2 in Hlog.
      destruct (windows (y_state y1) !! c) as [w|] eqn:Hw.
      { destruct Hvis as [p Hp]; [by eexists|]. by rewrite Hp1 in Hp. }
      cbn in Hlog. rewrite Hlog in Hlim. pose proof (rules_limits _ (proj1 Hok1) r Hr). lia.
    + intros _. unfold auto_of. cbn [y_state y2]. by rewrite Hp1, Hp2.
Qed.

#[local] Existing Instance hash_forward.
#[local] Existing Instance yes_engine.

Lemma policing_matches_traffic_witness :
  ∃ y1 y2, sys_run flood_events flood_system = Some y1 ∧ sys_step y1 (ETick NS) = Some y2
    ∧ tick_log demo_client (lit "h") Requests (flood_events ++ [ETick NS]) flood_system [] = [(NS, 2)]
    ∧ ∃ p a, policies (y_state y2) !! demo_client = Some p ∧ auto_ p = Some a ∧ a_until a = 31 * NS.
Proof.
  destruct (sys_run flood_events flood_system) as [y1|] eqn:Hrun.
  2: { exfalso. assert (from_option (λ _, true) false (sys_run flood_events flood_system) = true) as Ht
         by (vm_compute; reflexivity). by rewrite Hrun in Ht. }
  assert (tick_cooldown (y_state y1) = 30 * NS ∧ rules (y_state y1) = [flood_rule]) as [Hcd Hr].
  { assert ((λ y, (tick_cooldown (y_state y), rules (y_state y))) <$> sys_run flood_events flood_system
      = Some (30 * NS, [flood_rule])) as Hx by (vm_compute; reflexivity).
    rewrite Hrun in Hx. cbn [fmap option_fmap option_map] in Hx. by injection Hx as -> ->. }
  destruct (policing_matches_traffic flood_system y1 demo_client 0 flood_events NS flood_system_ok)
    as (y2 & Hstep & _ & Hfire & _).
  - reflexivity.
  - exact flood_events_ok.
  - vm_compute. split; [discriminate|exact I].
  - exact Hrun.
  - rewrite Hcd. vm_compute. discriminate.
  - exists y1, y2. split; [reflexivity|]. split; [exact Hstep|]. split; [vm_compute; reflexivity|].
    destruct (Hfire flood_rule) as (p & a & Hp & Ha & Hun & _).
    + rewrite Hr. left.
    + vm_compute. reflexivity.
    + vm_compute. reflexivity.
    + exists p, a. split; [exact Hp|]. split; [exact Ha|]. rewrite Hun, Hcd. lia.
Defined.
