(* ===== verification/Reads.v ===== *)
(** [list_clients] and [top] at the level of their locks ([ipc.rs]): each takes
    its locks one after the other and reads the counters last, while the other
    threads run as far as the locks let them.  The reply is still that of a single
    instant. *)

From S2P Require Import Prelude Text Client Rule Window Policy Counters Enforcer Config State Decision Sniffer Ebpf Locks Json Wire Store Ipc Live System Phases.

(** ** What a step of another thread must lock *)
Definition acquired (ops : list lop) : list Lock := omap (λ o, match o with Acq l => Some l | Rel _ => None end) ops.

(** For a command, the locks of those that change the state. *)
Definition locks_of (m : mstep) : list Lock :=
  match m with
  | Whole (ETick _) => acquired (tick_ops Permissive [EffBlock; EffNone])
  | Whole (EIpc _ _ _ _) => acquired (manual_ops true)
  | Whole (ESnapshot _) => acquired (snapshot_stats_ops true)
  | Whole (EFrame _ _ _) | Count _ => acquired counter_add_ops
  | Whole (EReload _) | Tables _ _ _ => []
  end.

(** It can run as a whole while another thread holds [held]. *)
Definition runs_under (held : list Lock) (m : mstep) : bool :=
  forallb (λ l, negb (bool_decide (l ∈ held))) (locks_of m).

Section reads.
Context `{HI : HashIter} `{FF : FsFaults} `{CEL : CelEngine} `{YAML : YamlEngine} `{CY : ConfigYaml}.
Context {E : Type} `{ENF : Enforcer E} {S : Type} `{MS : ManualPolicyStore S} `{CS : ClientStatsStore S}.
Implicit Types (s : DaemonState E) (y : System E S).

(** ** The two functions

    A reader sees each part of the state as it was at the time it read it. *)
Definition seen_state (s_live s_win s_would s_pol s_cnt : DaemonState E) : DaemonState E :=
  mkState (st_mode s_cnt) (st_interface s_cnt) (live s_live) (policies s_pol) (windows s_win)
    (counters s_cnt) (last_counters s_cnt) (would_be s_would) (enforcer s_cnt).

(** The lock of the policies, [ms1], the lock of the would-be actions, [ms2], the
    counters. *)
Definition list_clients_phases (now : Z) (ms1 ms2 : list mstep) y : option (ClientsResult * System E S) :=
  let s_pol := y_state y in
  y ← msteps_run ms1 y;
  let s_would := y_state y in
  y ← msteps_run ms2 y;
  let s := y_state y in
  Some (list_clients now (seen_state s s s_would s_pol s), y).

(** The rules, [ms0], the lock of the windows, [ms1], of the would-be actions,
    [ms2], of the policies, [ms3], the counters. *)
Definition top_phases (now : Z) (params : TopParams) (ms0 ms1 ms2 ms3 : list mstep) y :
    option (TopResult * System E S) :=
  let s_live := y_state y in
  y ← msteps_run ms0 y;
  let s_win := y_state y in
  y ← msteps_run ms1 y;
  let s_would := y_state y in
  y ← msteps_run ms2 y;
  let s_pol := y_state y in
  y ← msteps_run ms3 y;
  let s := y_state y in
  Some (top now (seen_state s_live s_win s_would s_pol s) params, y).

(** ** What the locks protect *)
Definition is_tick_step (m : mstep) : bool := match m with Whole (ETick _) => true | _ => false end.
Definition is_ipc_step (m : mstep) : bool := match m with Whole (EIpc _ _ _ _) => true | _ => false end.

Lemma under_windows held m : LWindows ∈ held → runs_under held m = true → is_tick_step m = false.
Proof.
  intros Hh Hr. destruct m as [[]| |]; try done. unfold runs_under in Hr. cbn [locks_of] in Hr.
  rewrite forallb_forall in Hr. specialize (Hr LWindows ltac:(vm_compute; tauto)).
  by rewrite bool_decide_eq_true_2 in Hr.
Qed.

Lemma under_policies held m :
  LPolicies ∈ held → runs_under held m = true → is_tick_step m = false ∧ is_ipc_step m = false.
Proof.
  intros Hh Hr. destruct m as [[]| |]; try done; unfold runs_under in Hr; cbn [locks_of] in Hr;
    rewrite forallb_forall in Hr; specialize (Hr LPolicies ltac:(vm_compute; tauto));
    by rewrite bool_decide_eq_true_2 in Hr.
Qed.

(** Only a tick writes windows and would-be actions, only a tick and a command
    write policies, only a reload writes the rules. *)
Lemma ipc_writes y y' describe v k body :
  sys_step y (EIpc describe v k body) = Some y' →
  windows (y_state y') = windows (y_state y) ∧ would_be (y_state y') = would_be (y_state y)
  ∧ live (y_state y') = live (y_state y).
Proof.
  cbn [sys_step]. unfold execute. destruct (of_json body) as [req|]; [|by intros [= <-]].
  unfold Ipc.dispatch, throttle, block, clear_manual_throttle, clear_manual_block, clear_manual,
    update_manual, set_manual, replied.
  destruct (rq_kind req); cbn; repeat case_match; simplify_eq/=;
    try (destruct (expiry _ _) as [u|]; cbn [fmap option_fmap option_map mbind option_bind]; [|done]);
    try destruct (persist _ _ _ _); by intros [= <-].
Qed.

Lemma tick_live_kept y y' now : sys_step y (ETick now) = Some y' → live (y_state y') = live (y_state y).
Proof.
  cbn [sys_step]. intros (s' & Ht & [= <-])%bind_Some. cbn [y_state]. unfold tick in Ht.
  apply bind_Some in Ht as (s1 & Hf & [= <-]). apply tick_fold_effect in Hf; [|apply hset_iter_NoDup].
  by destruct (te_frame _ _ _ _ _ _ _ Hf) as (_ & _ & Hl & _).
Qed.

Lemma step_writes m y y' :
  mstep_run m y = Some y' →
  (is_tick_step m = false →
     windows (y_state y') = windows (y_state y) ∧ would_be (y_state y') = would_be (y_state y)
     ∧ (is_ipc_step m = false → policies (y_state y') = policies (y_state y)))
  ∧ (is_reload m = false → live (y_state y') = live (y_state y)).
Proof.
  destruct (traffic_step m) eqn:Ht.
  { intros Hy. pose proof (traffic_step_side m Ht) as Hside. split.
    - intros _. rewrite <- (unite_eta y) in Hy. apply (on_traffic_eq _ _ _ _ Hside) in Hy. by rewrite Hy.
    - intros Hr. eapply mstep_live; [|done|exact Hy]. unfold other_thread. by rewrite Ht, orb_true_r. }
  destruct m as [[utc frame now|now|now|describe v k body|dir]|utc frame now|st]; try done; cbn [mstep_run]; intros Hy.
  - split; [done|]. intros _. by eapply tick_live_kept.
  - injection Hy as <-. done.
  - destruct (ipc_writes y y' describe v k body Hy) as (? & ? & ?). by split.
Qed.

Lemma steps_writes ms y y' :
  msteps_run ms y = Some y' →
  (Forall (λ m, is_tick_step m = false) ms →
     windows (y_state y') = windows (y_state y) ∧ would_be (y_state y') = would_be (y_state y))
  ∧ (Forall (λ m, is_tick_step m = false ∧ is_ipc_step m = false) ms →
     policies (y_state y') = policies (y_state y))
  ∧ (Forall (λ m, is_reload m = false) ms → live (y_state y') = live (y_state y)).
Proof.
  revert y. induction ms as [|m ms IH]; intros y; [by intros [= <-]|]. rewrite msteps_run_cons.
  destruct (mstep_run m y) as [y1|] eqn:Hy1; [|done]. cbn [mbind option_bind]. intros Hrun.
  destruct (IH y1 Hrun) as (IHw & IHp & IHl). destruct (step_writes m y y1 Hy1) as [Hw Hl]. split_and!.
  - intros [Hm Hms]%Forall_cons. destruct (Hw Hm) as (<- & <- & _). by apply IHw.
  - intros [[Hm Hi] Hms]%Forall_cons. destruct (Hw Hm) as (_ & _ & Hp). by rewrite <- (Hp Hi), IHp.
  - intros [Hm Hms]%Forall_cons. by rewrite <- (Hl Hm), IHl.
Qed.

Lemma seen_same s_live s_win s_would s_pol s :
  live s_live = live s → windows s_win = windows s → would_be s_would = would_be s → policies s_pol = policies s →
  seen_state s_live s_win s_would s_pol s = s.
Proof. intros Hl Hw Hb Hp. unfold seen_state. rewrite Hl, Hw, Hb, Hp. by destruct s. Qed.
Lemma all_under_windows held ms :
  bool_decide (LWindows ∈ held) = true → Forall (λ m, runs_under held m = true) ms →
  Forall (λ m, is_tick_step m = false) ms.
Proof. intros Hh%bool_decide_eq_true Hms. eapply Forall_impl; [exact Hms|]. intros m. by apply under_windows. Qed.

Lemma all_under_policies held ms :
  bool_decide (LPolicies ∈ held) = true → Forall (λ m, runs_under held m = true) ms →
  Forall (λ m, is_tick_step m = false ∧ is_ipc_step m = false) ms.
Proof. intros Hh%bool_decide_eq_true Hms. eapply Forall_impl; [exact Hms|]. intros m. by apply under_policies. Qed.

Lemma no_ticks ms :
  Forall (λ m, is_tick_step m = false ∧ is_ipc_step m = false) ms → Forall (λ m, is_tick_step m = false) ms.
Proof. intros Hms. eapply Forall_impl; [exact Hms|]. by intros m [? _]. Qed.

Lemma list_clients_serial y now ms1 ms2 :
  Forall (λ m, runs_under [LPolicies] m = true) ms1 →
  Forall (λ m, runs_under [LWouldBe; LPolicies] m = true) ms2 →
  list_clients_phases now ms1 ms2 y
  = (λ y', (list_clients now (y_state y'), y')) <$> msteps_run (ms1 ++ ms2) y.
Proof.
  intros Hms1%all_under_policies Hms2%all_under_policies; [|done..].
  unfold list_clients_phases. rewrite msteps_run_app.
  destruct (msteps_run ms1 y) as [y1|] eqn:Hy1; [|done]. cbn [mbind option_bind].
  destruct (msteps_run ms2 y1) as [y2|] eqn:Hy2; [|done]. cbn [mbind option_bind fmap option_fmap option_map].
  destruct (steps_writes ms1 y y1 Hy1) as (_ & Hp1 & _). destruct (steps_writes ms2 y1 y2 Hy2) as (Hw2 & Hp2 & _).
  destruct (Hw2 (no_ticks _ Hms2)) as [_ Hb2]. specialize (Hp1 Hms1). specialize (Hp2 Hms2).
  do 3 f_equal. apply (seen_same (y_state y2) (y_state y2) (y_state y1) (y_state y)); congruence.
Qed.

Lemma top_serial y now params ms0 ms1 ms2 ms3 :
  Forall (λ m, is_reload m = false) (ms0 ++ ms1 ++ ms2 ++ ms3) →
  Forall (λ m, runs_under [LWindows] m = true) ms1 →
  Forall (λ m, runs_under [LWouldBe; LWindows] m = true) ms2 →
  Forall (λ m, runs_under [LPolicies; LWouldBe; LWindows] m = true) ms3 →
  top_phases now params ms0 ms1 ms2 ms3 y
  = (λ y', (top now (y_state y') params, y')) <$> msteps_run (ms0 ++ ms1 ++ ms2 ++ ms3) y.
Proof.
  intros Hr Hms1%all_under_windows Hms2%all_under_windows Hms3; [|done..].
  apply all_under_policies in Hms3; [|done]. unfold top_phases. rewrite !msteps_run_app.
  destruct (msteps_run ms0 y) as [y0|] eqn:Hy0; [|done]. cbn [mbind option_bind]. rewrite msteps_run_app.
  destruct (msteps_run ms1 y0) as [y1|] eqn:Hy1; [|done]. cbn [mbind option_bind]. rewrite msteps_run_app.
  destruct (msteps_run ms2 y1) as [y2|] eqn:Hy2; [|done]. cbn [mbind option_bind].
  destruct (msteps_run ms3 y2) as [y3|] eqn:Hy3; [|done]. cbn [mbind option_bind fmap option_fmap option_map].
  rewrite !Forall_app in Hr. destruct Hr as (R0 & R1 & R2 & R3).
  destruct (steps_writes ms0 y y0 Hy0) as (_ & _ & L0). destruct (steps_writes ms1 y0 y1 Hy1) as (W1 & _ & L1).
  destruct (steps_writes ms2 y1 y2 Hy2) as (W2 & _ & L2). destruct (steps_writes ms3 y2 y3 Hy3) as (W3 & P3 & L3).
  destruct (W1 Hms1). destruct (W2 Hms2). destruct (W3 (no_ticks _ Hms3)). specialize (P3 Hms3).
  do 3 f_equal. apply (seen_same (y_state y) (y_state y0) (y_state y1) (y_state y2)); [|congruence..].
  by rewrite L3, L2, L1, L0.
Qed.
End reads.

(** ** Properties *)

(** C9 (reads_serialisable): while [list_clients] or [top] takes its locks and
    reads, let the other threads take every step that the locks held so far
    admit, and, before [top] has its first lock, any step at all, with no reload
    in between.  The reply is then the one that the function gives on the state
    in which it reads the counters: it never mixes the policies of one moment
    with the windows, the would-be actions or the counters of another. *)
Theorem reads_serialisable `{HI : HashIter} `{FF : FsFaults} `{CEL : CelEngine} `{YAML : YamlEngine}
    `{CY : ConfigYaml} {E} `{ENF : Enforcer E} {S} `{MS : ManualPolicyStore S} `{CS : ClientStatsStore S}
    (y : System E S) now params ms0 ms1 ms2 ms3 :
  (Forall (λ m, runs_under [LPolicies] m = true) ms1 →
   Forall (λ m, runs_under [LWouldBe; LPolicies] m = true) ms2 →
   list_clients_phases now ms1 ms2 y
   = (λ y', (list_clients now (y_state y'), y')) <$> msteps_run (ms1 ++ ms2) y)
  ∧ (Forall (λ m, is_reload m = false) (ms0 ++ ms1 ++ ms2 ++ ms3) →
     Forall (λ m, runs_under [LWindows] m = true) ms1 →
     Forall (λ m, runs_under [LWouldBe; LWindows] m = true) ms2 →
     Forall (λ m, runs_under [LPolicies; LWouldBe; LWindows] m = true) ms3 →
     top_phases now params ms0 ms1 ms2 ms3 y
     = (λ y', (top now (y_state y') params, y')) <$> msteps_run (ms0 ++ ms1 ++ ms2 ++ ms3) y).
Proof. split; [apply list_clients_serial|apply top_serial]. Qed.

#[local] Existing Instance hash_forward.
#[local] Existing Instance yes_engine.
#[local] Existing Instance read_only.

Definition all_params : TopParams := mkTop 10 None None None.

Lemma reads_serialisable_witness :
  top_phases 0 all_params [Whole (ETick NS)] [a_throttle; a_frame] [] [a_frame] seeded_system
  = (λ y, (top 0 (y_state y) all_params, y)) <$>
      msteps_run [Whole (ETick NS); a_throttle; a_frame; a_frame] seeded_system.
Proof.
  apply (proj2 (reads_serialisable seeded_system 0 all_params [Whole (ETick NS)] [a_throttle; a_frame] [] [a_frame]));
    by repeat constructor.
Defined.

(** A reload after [top] has read the rules shows: the reply has the columns of
    the old rules and the clients that the new ones brought, as in no state of
    the run. *)
Lemma reload_inside_top :
  let sizes r := (length (cr_columns r), length (cr_clients r)) in
  let replies ms := (λ y, sizes (top 0 (y_state y) all_params)) <$> msteps_run ms seeded_system in
  (λ r, sizes r.1) <$> top_phases 0 all_params [a_reload; a_frame] [] [] [] seeded_system = Some (0, 1)%nat
  ∧ replies <$> [[]; [a_reload]; [a_reload; a_frame]] = [Some (0, 0); Some (1, 0); Some (1, 1)]%nat.
Proof. split; vm_compute; reflexivity. Qed.
