(* ===== verification/Setup.v ===== *)
(** What the daemon hands to the shared daemon library, and what the library makes
    of it: the options of the socket, the commands with their router and hooks,
    the admission of peers ([ipc.rs]), and what the watcher watches
    ([config.rs]).  The library itself is a parameter. *)

From S2P Require Import Prelude Text Client Rule Window Policy Counters Enforcer Config State Decision Sniffer Ebpf Json Wire Store Ipc Sdk Top Cli Live System Daemon.

(** ** The types at the interface *)

(** [Chown] is the library's type of an owner. *)
Record BindOptions (Chown : Type) := mkBind {
  bo_path : str;
  bo_mode : Z;
  bo_chown : option Chown;
  bo_process_name : str
}.
Arguments mkBind {Chown}.

Inductive Auth := PeerUser (allow_users : list str) (root_always fail_closed_if_empty : bool).

Record AcceptPolicy (SessionMode : Type) := mkAccept {
  ap_auth : Auth;
  ap_session : SessionMode;
  ap_max_clients : option Z;
  ap_max_frame : Z
}.
Arguments mkAccept {SessionMode}.

(** The trait [Command]: a command may change the context [Ctx] and, over the
    connection, the world [W]; [None] is a panic. *)
Record Command (Connection IpcError Ctx W : Type) := mkCommand {
  cmd_name : str;
  cmd_execute : Json → Connection → Ctx → W → option (Ctx * (W * result () IpcError))
}.
Arguments mkCommand {Connection IpcError Ctx W}.
Arguments cmd_name {Connection IpcError Ctx W}.
Arguments cmd_execute {Connection IpcError Ctx W}.

(** The trait [ErrorHandler]; [Reason] is the library's reason of a refusal. *)
Record ErrorHandler (Connection IpcError Reason W : Type) := mkHandler {
  on_unknown : str → Json → Connection → W → W;
  on_error : IpcError → Connection → W → W;
  on_reject : Reason → Connection → W → W
}.
Arguments mkHandler {Connection IpcError Reason W}.
Arguments on_unknown {Connection IpcError Reason W}.
Arguments on_error {Connection IpcError Reason W}.
Arguments on_reject {Connection IpcError Reason W}.

(** ** The library

    [conn_reply] writes a response, its error converted to an [IpcError];
    [serve_request] is what the server does with one request of an admitted
    peer. *)
Class IpcLibrary (W : Type) := {
  Listener : Type;
  Connection : Type;
  IpcError : Type;
  ChownTo : Type;
  SessionMode : Type;
  RejectReason : Type;
  Persistent : SessionMode;
  is_auth : RejectReason → bool;
  DEFAULT_MAX_FRAME_BYTES : Z;
  Other : str → IpcError;
  ipc_error_text : IpcError → str;
  conn_reply : Connection → Json → SE W IpcError ();
  ipc_bind : BindOptions ChownTo → result Listener IpcError;
  ipc_claim : str → str → result () IpcError;
  Router : Type → Type;
  router_new {Ctx} : Router Ctx;
  router_add {Ctx} : Command Connection IpcError Ctx W → Router Ctx → result (Router Ctx) IpcError;
  Server : Type → Type;
  from_listener {Ctx} : Listener → str → AcceptPolicy SessionMode → Router Ctx →
    ErrorHandler Connection IpcError RejectReason W → Server Ctx;
  serve_request {Ctx} : Server Ctx → Connection → Json → Ctx → W → option (Ctx * W)
}.

(** What the code relies on: a name that is free can be registered; a request
    goes to the command of its type, whose error goes to the hook, and, without
    such a command, to the hook for unknown types. *)
Class IpcLibraryLaws (W : Type) `{IL : IpcLibrary W} := {
  registered {Ctx} : Router Ctx → str → option (Command Connection IpcError Ctx W);
  registered_new {Ctx} n : registered (router_new (Ctx := Ctx)) n = None;
  registered_add {Ctx} (c : Command Connection IpcError Ctx W) r :
    registered r (cmd_name c) = None →
    ∃ r', router_add c r = Ok r'
      ∧ ∀ n, registered r' n = if bool_decide (n = cmd_name c) then Some c else registered r n;
  serve_registered {Ctx} l p pol (r : Router Ctx) h conn fs n c ctx w :
    NoDup fs.*1 → assoc (lit "type") fs = Some (JStr n) → registered r n = Some c →
    serve_request (from_listener l p pol r h) conn (JObj fs) ctx w
    = '(ctx, (w, x)) ← cmd_execute c (JObj fs) conn ctx w;
      Some (ctx, match x with Ok _ => w | Err e => on_error h e conn w end);
  serve_unregistered {Ctx} l p pol (r : Router Ctx) h conn fs n ctx w :
    NoDup fs.*1 → assoc (lit "type") fs = Some (JStr n) → registered r n = None →
    serve_request (from_listener l p pol r h) conn (JObj fs) ctx w
    = Some (ctx, on_unknown h n (JObj fs) conn w)
}.

(** ** The functions of [ipc.rs] *)
Section ipc.
Context {W : Type} `{IL : IpcLibrary W} `{HI : HashIter} `{CEL : CelEngine}.
Context {E S : Type} `{MS : ManualPolicyStore S}.

(** Mode [0o660]. *)
Definition bind_listener (socket : str) : result Listener str :=
  map_err ipc_error_text (ipc_bind (mkBind socket (6 * 64 + 6 * 8) None (lit "microwaf"))).

Definition claim_socket_path (socket : str) : result () str :=
  map_err ipc_error_text (ipc_claim socket (lit "microwaf")).

(** [IpcCtx]: the shared state and the store. *)
Record IpcCtx := mkIpcCtx { ctx_state : DaemonState E; ctx_store : S }.

(** A command of [mw_cmd!]: [serde_error] is the text of serde_json's error, [v]
    the build information, and [clocks] what the clocks show. *)
Definition mw_cmd (serde_error : Json → str) (v : Info) (clocks : W → Clocks) (name : str) :
    Command Connection IpcError IpcCtx W :=
  mkCommand name (λ body conn ctx w,
    match of_json body with
    | None => Some (ctx, (w, Err (Other (serde_error body))))
    | Some req =>
        '(s, store, resp) ← dispatch v (clocks w) req (ctx_state ctx) (ctx_store ctx);
        Some (mkIpcCtx s store, conn_reply conn (to_json (resp : Response)) w)
    end).

Definition MwHooks : ErrorHandler Connection IpcError RejectReason W := {|
  on_unknown _ _ conn w := (conn_reply conn (to_json unknown_reply) w).1;
  on_error e conn w :=
    (conn_reply conn (to_json (response_err KInfo (invalid (ipc_error_text e)))) w).1;
  on_reject reason conn w :=
    match Ipc.reject (is_auth reason) with
    | Some resp => (conn_reply conn (to_json resp) w).1
    | None => w
    end
|}.

Definition add_command (cmd : str → Command Connection IpcError IpcCtx W)
    (r : result (Router IpcCtx) str) (name : str) : result (Router IpcCtx) str :=
  res_bind (λ r, map_err ipc_error_text (router_add (cmd name) r)) r.

Definition mw_router (serde_error : Json → str) (v : Info) (clocks : W → Clocks) : result (Router IpcCtx) str :=
  foldl (add_command (mw_cmd serde_error v clocks)) (Ok router_new) commands.

Definition accept_policy (allow_users : list str) : AcceptPolicy SessionMode :=
  mkAccept (PeerUser allow_users true false) Persistent None DEFAULT_MAX_FRAME_BYTES.

(** The server that then runs until the process ends. *)
Definition serve_listener (serde_error : Json → str) (v : Info) (clocks : W → Clocks) (listener : Listener)
    (socket : str) (allow_users : list str) : result (Server IpcCtx) str :=
  res_bind (λ r, Ok (from_listener listener socket (accept_policy allow_users) r MwHooks))
    (mw_router serde_error v clocks).
End ipc.
Arguments IpcCtx {CEL} E S.

(** ** The watcher of [config.rs] *)
Inductive PathFilter := AnyPath (extensions extra_names ignore_suffixes : list str).

Record WatchSpec := mkWatchSpec { ws_path : path; ws_recursive : bool; ws_filter : PathFilter }.

(** Starting the library's watcher thread, with the time it waits for more
    changes. *)
Class ConfigWatcher := spawn_signal : list WatchSpec → Z → result () str.

Definition watch_specs (dir : path) : list WatchSpec :=
  [mkWatchSpec dir true (AnyPath [] [] [lit ".example"])].

Section watcher.
Context `{HI : HashIter} `{FF : FsFaults} `{CEL : CelEngine} `{YAML : YamlEngine} `{CY : ConfigYaml}.
Context `{CW : ConfigWatcher} {E S : Type}.

(** [watch_loop] with its set-up: without a watcher the thread ends, and neither a
    change nor a SIGHUP reloads. *)
Definition watch_thread (dir : path) (rs : list (Received * bool)) (y : System E S) : System E S * bool :=
  match spawn_signal (watch_specs dir) (200 * 1000000) with
  | Err _ => (y, true)
  | Ok _ => watch_loop dir rs y
  end.

Lemma no_watcher_no_reload dir rs y e :
  spawn_signal (watch_specs dir) (200 * 1000000) = Err e → watch_thread dir rs y = (y, true).
Proof. unfold watch_thread. by intros ->. Qed.
End watcher.

(** ** Lemmas *)

(** *** The router *)
Section router.
Context {W : Type} `{IL : IpcLibrary W} `{LAWS : !IpcLibraryLaws W}.
Context `{HI : HashIter} `{CEL : CelEngine} {E S : Type} `{MS : ManualPolicyStore S}.
Implicit Types (r : Router (IpcCtx E S)) (w : W).

Lemma add_commands cmd names r :
  (∀ n, cmd_name (cmd n) = n) → NoDup names → (∀ n, n ∈ names → registered r n = None) →
  ∃ r', foldl (add_command cmd) (Ok r) names = Ok r'
    ∧ ∀ n, registered r' n = if bool_decide (n ∈ names) then Some (cmd n) else registered r n.
Proof.
  intros Hcmd. revert r. induction names as [|x names IH]; intros r Hnd Hfree.
  { exists r. split; [done|]. intros n. rewrite bool_decide_eq_false_2; [done|]. by inversion 1. }
  apply NoDup_cons in Hnd as [Hx Hnd].
  destruct (registered_add (cmd x) r) as (r1 & Hadd & Hr1).
  { rewrite Hcmd. apply Hfree. by left. }
  rewrite Hcmd in Hr1. destruct (IH r1 Hnd) as (r' & Hf & Hr').
  { intros n Hn. rewrite Hr1, bool_decide_eq_false_2 by (by intros ->). apply Hfree. by right. }
  exists r'. split; [cbn; rewrite Hadd; exact Hf|]. intros n. rewrite Hr', Hr1.
  destruct (decide (n = x)) as [->|Hne].
  - rewrite (bool_decide_eq_false_2 (x ∈ names)), !bool_decide_eq_true_2; [done|by left|done|done].
  - rewrite (bool_decide_eq_false_2 (n = x)) by done.
    assert (n ∈ x :: names ↔ n ∈ names) as Hin by (rewrite elem_of_cons; tauto).
    by rewrite (bool_decide_ext _ _ Hin).
Qed.

Lemma mw_router_built serde_error v clocks :
  ∃ r, mw_router (E := E) (S := S) serde_error v clocks = Ok r
    ∧ ∀ n, registered r n = if bool_decide (n ∈ commands) then Some (mw_cmd serde_error v clocks n) else None.
Proof.
  destruct (add_commands (mw_cmd (E := E) (S := S) serde_error v clocks) commands router_new) as (r & Hr & Hreg).
  - done.
  - apply commands_complete.
  - intros n _. apply registered_new.
  - exists r. split; [exact Hr|]. intros n. by rewrite Hreg, registered_new.
Qed.

(** *** What the server does with a request is [Ipc.execute], followed by its reply *)
Definition executed serde_error v clocks conn body (ctx : IpcCtx E S) w : option (IpcCtx E S * W) :=
  '(s', st', resp) ← execute (λ b, ipc_error_text (Other (serde_error b))) v (clocks w) body
                       (ctx_state ctx) (ctx_store ctx);
  Some (mkIpcCtx s' st',
    match of_json body : option Request, conn_reply conn (to_json (resp : Response)) w with
    | Some _, (w', Err e) => on_error MwHooks e conn w'
    | _, (w', _) => w'
    end).

Lemma execute_replies serde_error v clocks conn body (ctx : IpcCtx E S) w n :
  ('(ctx, (w', x)) ← cmd_execute (mw_cmd serde_error v clocks n) body conn ctx w;
   Some (ctx, match x with Ok _ => w' | Err e => on_error MwHooks e conn w' end))
  = executed serde_error v clocks conn body ctx w.
Proof.
  destruct ctx as [s st]. unfold executed, mw_cmd, execute. cbn [cmd_execute ctx_state ctx_store].
  destruct (of_json body) as [req|]; cbn [mbind option_bind].
  - destruct (dispatch _ _ _ _ _) as [[[s' st'] resp]|]; [|done]. cbn [mbind option_bind].
    by destruct (conn_reply conn (to_json resp) w) as [w' [[]|e]].
  - unfold MwHooks. cbn [on_error]. by destruct (conn_reply _ _ w) as [w' [[]|e]].
Qed.

Lemma served_request serde_error v clocks l socket allow conn fs n (ctx : IpcCtx E S) w :
  NoDup fs.*1 → assoc (lit "type") fs = Some (JStr n) →
  ∃ srv, serve_listener serde_error v clocks l socket allow = Ok srv
    ∧ serve_request srv conn (JObj fs) ctx w
      = match kind_of_name n with
        | Some _ => executed serde_error v clocks conn (JObj fs) ctx w
        | None => Some (ctx, (conn_reply conn (to_json unknown_reply) w).1)
        end.
Proof.
  intros Hnd Ht. destruct (mw_router_built serde_error v clocks) as (r & Hr & Hreg).
  unfold serve_listener. rewrite Hr. eexists. split; [reflexivity|].
  pose proof (proj2 commands_complete n) as Hk. destruct (kind_of_name n) as [kind|] eqn:Hn.
  - rewrite <- (execute_replies _ _ _ _ _ _ _ n). apply (serve_registered _ _ _ _ _ _ _ n); [done..|].
    by rewrite Hreg, bool_decide_eq_true_2 by (by apply Hk).
  - refine (serve_unregistered _ _ _ _ MwHooks _ _ n _ _ Hnd Ht _).
    rewrite Hreg, bool_decide_eq_false_2; [done|]. rewrite Hk. by intros [].
Qed.
End router.

(** *** A concrete library: the world is the list of the replies, no write fails *)
Abbreviation LocalCommand Ctx := (Command () str Ctx (list Json)).

Definition find_command {Ctx} (r : list (LocalCommand Ctx)) (n : str) : option (LocalCommand Ctx) :=
  List.find (λ c, bool_decide (n = cmd_name c)) r.

Definition request_type (body : Json) : option str :=
  match body with
  | JObj fs => match assoc (lit "type") fs with Some (JStr n) => Some n | _ => None end
  | _ => None
  end.

#[export] Instance local_library : IpcLibrary (list Json) := {|
  Listener := BindOptions (); Connection := (); IpcError := str; ChownTo := (); SessionMode := ();
  RejectReason := bool; Persistent := tt; is_auth b := b; DEFAULT_MAX_FRAME_BYTES := 2 ^ 20;
  Other e := e; ipc_error_text e := e;
  conn_reply _ j w := (w ++ [j], Ok tt);
  ipc_bind o := Ok o; ipc_claim _ _ := Ok tt;
  Router Ctx := list (LocalCommand Ctx);
  router_new _ := [];
  router_add _ c r := match find_command r (cmd_name c) with Some _ => Err (cmd_name c) | None => Ok (c :: r) end;
  Server Ctx := (list (LocalCommand Ctx) * ErrorHandler () str bool (list Json))%type;
  from_listener _ _ _ _ r h := (r, h);
  serve_request _ srv conn body ctx w :=
    match request_type body with
    | None => Some (ctx, w)
    | Some n =>
        match find_command srv.1 n with
        | None => Some (ctx, on_unknown srv.2 n body conn w)
        | Some c => '(ctx, (w, x)) ← cmd_execute c body conn ctx w;
                    Some (ctx, match x with Ok _ => w | Err e => on_error srv.2 e conn w end)
        end
    end
|}.

#[export] Instance local_library_laws : IpcLibraryLaws (list Json).
Proof.
  refine {| registered _ r n := find_command r n |}.
  - done.
  - intros Ctx c r Hfree. exists (c :: r). cbn. cbn in Hfree. rewrite Hfree. split; [done|].
    intros n. unfold find_command. cbn [List.find]. by destruct (bool_decide (n = cmd_name c)).
  - intros Ctx l p pol r h conn fs n c ctx w _ Ht Hr. cbn -[lit find_command] in Hr |- *. by rewrite Ht, Hr.
  - intros Ctx l p pol r h conn fs n ctx w _ Ht Hr. cbn -[lit find_command] in Hr |- *. by rewrite Ht, Hr.
Qed.

(** A query of the rules of a state without rules, and an unknown type. *)
Lemma served_examples :
  let H := hash_forward in let C := yes_engine in
  let start := serve_listener (E := PermissiveEnforcer) (S := MemoryStore) (λ _, []) (version_info None None)
                 (λ _, mkClocks 0 0 0) (mkBind [] 0 None []) [] [] in
  let request n := JObj [(lit "type", JStr n)] in
  let serve n := match start with
                 | Ok srv => snd <$> serve_request srv tt (request n) (mkIpcCtx demo_state memory0) []
                 | Err _ => None
                 end in
  serve (lit "listRules") = Some [to_json (response_ok KListRules (RRules (list_rules demo_state)))]
  ∧ serve (lit "rules") = Some [to_json unknown_reply].
Proof. split; vm_compute; reflexivity. Qed.
